(* ===== verification/_CoqProject ===== *)
-Q . S2P
Prelude.v
Varint.v
Pack.v
Containers.v
PackTypes.v
Path.v
PathFacts.v
Order.v
Glob.v
Derive.v
Proto.v
Store.v
StoreFacts.v
StoreRead.v
StoreCols.v
StoreClaims.v
Permissions.v
PermClaims.v
Shard.v
ShardWrite.v
ShardRead.v
Server.v
ServerFacts.v
ServerClaims.v
Channel.v
ChannelFacts.v
ChannelClaims.v
Float.v
Value.v
ValuePack.v
ValueOrd.v
ValArray.v
ValueOps.v
ValueArith.v
ValueConvert.v
ConvertFacts.v
PubProto.v
ValueClaims.v
Publisher.v
PubServer.v
PubFacts.v
PubSubs.v
PubTurn.v
PubSystem.v
PubInv.v
PubSync.v
PubAuth.v
PubFresh.v
PubClaims.v
SubChoose.v
SubChoice.v
Subscriber.v
SubEvent.v
SubConn.v
SubSystem.v
SubFacts.v
SubInv.v
SubTurn.v
SubSysInv.v
SubWaits.v
SubAttend.v
SubFollow.v
SubFresh.v
SubClaims.v
