(* ===== verification/Prelude.v ===== *)
(** * A verification of netidx

    netidx distributes a tree of values. Publishers tell resolver servers which paths
    they publish; subscribers ask a resolver where a path is published and then talk
    to the publisher. This library models that system from the bytes on the wire up
    to the resolver server and the values that are published, and proves what makes
    it correct. Every file opens with what it holds; this is the overview.

    ** The parts and where they are

    - netidx-core/src/pack.rs, the binary format: [Varint] (varints, zigzag, length
      wrapping), [Pack] (the trait as a record of operations and the scalar types),
      [Containers] (structural types, sequences, maps and sets), [PackTypes] (addresses,
      times, and types of other crates). netidx-derive: [Derive], the code the macro
      generates for structs and enums.
    - netidx-core/src/path.rs: [Path] and [PathFacts]; the order of strings and of the
      ordered collections: [Order]; netidx-netproto/src/glob.rs: [Glob].
    - netidx-netproto/src/resolver.rs and publisher.rs, the messages: [Proto] and, for
      those that carry values, [PubProto].
    - netidx/src/resolver_server: store.rs is [Store] (with [StoreFacts], [StoreRead],
      [StoreCols] and [StoreClaims]), auth.rs is [Permissions] and [PermClaims],
      shard_store.rs is [Shard] ([ShardWrite], [ShardRead]), mod.rs and secctx.rs are
      [Server] ([ServerFacts], [ServerClaims]). The server calls the shards, the shards
      call the store and the permissions, messages are those of [Proto].
    - netidx/src/channel.rs, framing: [Channel], [ChannelFacts], [ChannelClaims].
    - netidx-value/src, what is published: floats are [Float]; lib.rs, typ.rs, pbuf.rs
      and abstract_type.rs are [Value]; its wire format [ValuePack]; equality, order and
      hash of op.rs [ValueOrd]; array.rs [ValArray]; casts and the arithmetic of op.rs
      [ValueOps] and [ValueArith]; convert.rs [ValueConvert] and [ConvertFacts]; the
      theorems are in [ValueClaims].
    - netidx/src/publisher: mod.rs is [Publisher], the tables, the calls of a program,
      batches of updates and the publish loop; server.rs is [PubServer], the turns of a
      connection, over the messages of [PubProto] and the tokens the store signs;
      [PubSystem] puts the program, the connections, the commits under way and the loop
      together as one machine. [PubTurn] says what a turn may do; [PubFacts],
      [PubSubs] and [PubInv] prove the tables consistent, [PubSync] relates them to the
      resolver, [PubAuth] to the tokens, [PubFresh] to what subscribers are sent; the
      theorems are in [PubClaims].
    - netidx/src/subscriber: how mod.rs chooses a publisher is [SubChoose], with
      [SubChoice]; its tables, [Val] and [Dval], the calls that subscribe and the task
      that resubscribes are [Subscriber]; the encoding of events is [SubEvent];
      connection.rs, the turns of a connection, is [SubConn]. [SubSystem] is the machine
      of the program's calls, the attempts under way, the task and the connections; the
      resolver's answers and what publishers send are its inputs. Objects that the code
      shares through [Arc] are references into a memory, with their counts. [SubFacts]
      and [SubTurn] say what operations and turns leave alone; [SubInv] and [SubSysInv]
      prove the tables and the attempts consistent, [SubWaits] that nothing is forgotten,
      [SubAttend] that nobody waits for an attempt that is not there, [SubFollow] and [SubFresh] that values are the latest read; the theorems are in
      [SubClaims], the one on both machines composes with [PubFresh].

    ** How code is translated

    A function that can fail returns [res E A]: a value, an error or a panic. A decoder
    ([dec]) maps the bytes of a buffer to such a result and the bytes left, an encoder
    ([enc]) gives the bytes written. Machine integers are [Z] with the wrap-around
    written out ([wrap], [swrap]); strings are their bytes. Hash tables are finite maps
    ([gmap]); where the code iterates over one, the order is a parameter, or that of
    [map_to_list] where only independent channels and waiters see it. State is passed
    explicitly: a record per component (the store, a shard, the server), one
    definition per operation. Definitions are executable.

    What is not in the repository is a parameter, a class whose laws state documented
    behaviour: [Escaping] (escaping), [Globset] (globset), [Sha3], the hash of a path
    and the order of hash tables, unstable sorts and shuffles, chrono, rust_decimal,
    uuid, enumflags2, the ordered map of immutable-chunkmap, the types a program
    registers. What peers send, random numbers, the clock, the room in queues, the
    segmentation of streams and the answers of Kerberos, TLS and the user mapper are
    inputs of the steps. Each class has an instance, used by the theorems at concrete
    inputs that follow them.

    ** What is shown

    - Format: every type obeys [PackOk] (encoding succeeds with the announced length,
      decoding gives the value back and leaves what follows), composed along the type
      structure up to all messages; [PackSafe] decoders never panic on any bytes; old
      and new versions of a derived struct read each other.
    - Paths and globs: string operations compute the operations on component lists; a
      match lies under the base of its pattern; disjointness is sound.
    - Store: any run of requests keeps the indices consistent and refines a relation
      between paths and publishers; resolving, listing, matching, change numbers and
      column counts report that relation.
    - Permissions: the permissions of a path are the last word of the entries above
      it; a map loaded from a file says what the file says.
    - Shards and server: batches, however spread, have the effect and the replies of
      the messages one by one; sessions own what is published and are taken over only
      with a proof; what is published is found.
    - Channels: what is queued arrives, in order, whatever the segmentation; flushing
      ends; any input is withstood.
    - Values: round trip and bounded decoding, a total order with equality and hash in
      agreement, casts of the right type, integer arithmetic exact up to its width,
      termination, lossless conversions, exact windows, a consistent registry.
    - Publisher: in every state of any run the tables agree, until it is shut down;
      under the conditions of [tidy_op] the resolver gets to know exactly what is
      published; who subscribes or writes has shown a token for it, unless the publisher
      is anonymous, and the token the resolver signs is accepted; under the conditions of
      [calm] the last value a subscriber is sent is the current one.
    - Subscriber: a path has one durable subscription, which no run forgets in which the
      program is [patient]; whoever waits for a path gets the result of the one attempt;
      the publisher chosen is the one the flags ask for, but for one exception
      ([as_asked]); queued writes are sent in order; no run reaches an [unreachable!];
      from publisher to program, under the conditions of [calm] and [plain_input], once
      everything was sent and read the value is the current one.
    - Where the code falls short of this, or the conditions are needed, a lemma shows the
      run ([store_gaps], [publisher_gaps], [subscriber_gaps] and others).

    ** Fuel

    Recursion that is not structural takes fuel, and the theorems show it is enough.
    Searches in paths take the length of the path; the loops of batches take the
    length of the batch; the decoder of values takes the length of the input, which
    bounds the nesting ([value_decode_ends]); casts and arithmetic, where a string can
    denote a value with strings in it, have one result beyond some amount of fuel
    ([casts_and_arithmetic_end]), because what a string denotes holds only shorter
    strings.

    ** Not modelled

    Sockets, tasks, timers and pools; the creation of TLS and Kerberos contexts; the
    loading of configuration; serde; the parser and printer of values (parameters
    [ValueText] of casts, with the law [ParseOk]); the resolver client (the publisher's
    resolver is what it was told, the answers to the subscriber are inputs), the choice
    of a publisher's address, the end of the subscriber itself and its builder, the
    archive and the applications. A run of the publisher ends when it is shut down:
    [shutdown] is modelled, and [publisher_tables] says what it leaves, but what the
    connections and values that are still there do afterwards is not. A handshake or a batch of the server and a turn of
    a connection run without interruption, everything done under one lock is
    one step; what is sent after the lock is released is a step of its own.

    ** This file

    Results with panics, the decoder and encoder effects, bytes and big-endian
    integers, machine-width wrap-around, and the lemmas, tactics and hint databases
    the component files share. *)
From Stdlib Require Import ZArith Lia.
From stdpp Require Import base gmap sets list strings sorting.
From Stdlib Require Import Strings.Byte.

#[global] Open Scope Z_scope.

Create HintDb netidx.
Create Rewrite HintDb nbytes.

(** ** Results *)

(** What a Rust call can do besides returning a value: return an error, or
    panic. *)
Inductive res (E A : Type) : Type :=
| Ok (a : A)
| Err (e : E)
| Panic.
Arguments Ok {E A} a.
Arguments Err {E A} e.
Arguments Panic {E A}.

Definition res_bind {E A B} (r : res E A) (k : A → res E B) : res E B :=
  match r with
  | Ok a => k a
  | Err e => Err e
  | Panic => Panic
  end.

Definition res_map {E A B} (f : A → B) (r : res E A) : res E B :=
  match r with
  | Ok a => Ok (f a)
  | Err e => Err e
  | Panic => Panic
  end.

Definition is_panic {E A} (r : res E A) : bool :=
  match r with Panic => true | _ => false end.

#[export] Instance res_eq_dec {E A} `{EqDecision E, EqDecision A} :
  EqDecision (res E A).
Proof. solve_decision. Defined.

Declare Scope res_scope.
Delimit Scope res_scope with res.
Notation "'let?' x := r 'in' k" := (res_bind r (fun x => k))
  (at level 10, x pattern, r at level 100, k at level 200) : res_scope.

(** ** Machine integers

    A [w]-bit integer is a [Z]; [wrap w] is the unsigned residue, [swrap w] the
    two's complement one. *)
Definition wrap (w z : Z) : Z := z mod 2 ^ w.
Definition swrap (w z : Z) : Z :=
  let u := wrap w z in if u <? 2 ^ (w - 1) then u else u - 2 ^ w.

Definition in_u (w z : Z) : Prop := 0 ≤ z < 2 ^ w.
Definition in_i (w z : Z) : Prop := - 2 ^ (w - 1) ≤ z < 2 ^ (w - 1).

Lemma wrap_small w z : in_u w z → wrap w z = z.
Proof. apply Z.mod_small. Qed.

Lemma wrap_range w z : 0 ≤ w → in_u w (wrap w z).
Proof. intros. apply Z.mod_pos_bound. lia. Qed.

Lemma pow2_split w : 1 ≤ w → 2 ^ w = 2 * 2 ^ (w - 1).
Proof. intros. rewrite <- Z.pow_succ_r by lia. f_equal; lia. Qed.

Lemma swrap_range w z : 1 ≤ w → in_i w (swrap w z).
Proof.
  intros Hw. unfold swrap, in_i.
  pose proof (wrap_range w z ltac:(lia)) as [? ?].
  pose proof (pow2_split w Hw).
  destruct (Z.ltb_spec (wrap w z) (2 ^ (w - 1))); lia.
Qed.

Lemma swrap_small w z : 1 ≤ w → in_i w z → swrap w z = z.
Proof.
  intros Hw [Hl Hh]. unfold swrap, wrap. pose proof (pow2_split w Hw).
  destruct (Z_lt_le_dec z 0) as [Hneg|Hpos].
  - rewrite <- (Z_mod_plus_full z 1), Z.mod_small by lia.
    destruct (Z.ltb_spec (z + 1 * 2 ^ w) (2 ^ (w - 1))); lia.
  - rewrite Z.mod_small by lia.
    destruct (Z.ltb_spec z (2 ^ (w - 1))); lia.
Qed.

Lemma swrap_wrap w z : 0 ≤ w → swrap w (wrap w z) = swrap w z.
Proof. intros. unfold swrap, wrap. by rewrite Zmod_mod. Qed.

#[export] Hint Resolve wrap_range swrap_range : netidx.

(** ** Bytes *)

#[export] Instance byte_eq_dec : EqDecision byte := Byte.byte_eq_dec.
#[export] Instance byte_countable : Countable byte.
Proof.
  refine (inj_countable Byte.to_N Byte.of_N _). apply Byte.of_to_N.
Defined.
#[export] Instance byte_inhabited : Inhabited byte := populate "000"%byte.

Definition bZ (b : byte) : Z := Z.of_N (Byte.to_N b).
Definition Zb (z : Z) : byte :=
  match Byte.of_N (Z.to_N (wrap 8 z)) with Some b => b | None => "000"%byte end.

Lemma bZ_range b : 0 ≤ bZ b < 256.
Proof. unfold bZ. pose proof (Byte.to_N_bounded b). lia. Qed.

Lemma bZ_Zb z : bZ (Zb z) = wrap 8 z.
Proof.
  unfold bZ, Zb. pose proof (wrap_range 8 z ltac:(lia)) as [? Hb].
  change (2 ^ 8) with 256 in Hb.
  destruct (Byte.of_N (Z.to_N (wrap 8 z))) as [b|] eqn:E.
  - apply Byte.to_of_N in E. rewrite E. lia.
  - apply Byte.of_N_None_iff in E. lia.
Qed.

Lemma bZ_inj b1 b2 : bZ b1 = bZ b2 → b1 = b2.
Proof.
  unfold bZ. intros H%N2Z.inj.
  pose proof (Byte.of_to_N b1) as H1. pose proof (Byte.of_to_N b2) as H2.
  congruence.
Qed.

Lemma Zb_bZ b : Zb (bZ b) = b.
Proof.
  apply bZ_inj. rewrite bZ_Zb. apply wrap_small.
  pose proof (bZ_range b). unfold in_u. lia.
Qed.

Lemma Zb_wrap z : Zb (wrap 8 z) = Zb z.
Proof. apply bZ_inj. rewrite !bZ_Zb. unfold wrap. by rewrite Zmod_mod. Qed.

Lemma bZ_Zb_small z : 0 ≤ z < 256 → bZ (Zb z) = z.
Proof. intros. rewrite bZ_Zb. apply wrap_small. unfold in_u. lia. Qed.

(** Byte strings. A Rust [str] is its UTF-8 bytes; [lit] makes literals. *)
Abbreviation str := (list byte).
Definition lit (s : string) : str := String.list_byte_of_string s.
Arguments lit s%_string.

(** Lengths are [usize]; [zlen] is the length as an integer. *)
Definition zlen {A} (l : list A) : Z := Z.of_nat (length l).

Lemma zlen_nil {A} : zlen (@nil A) = 0.
Proof. done. Qed.
Lemma zlen_cons {A} (x : A) l : zlen (x :: l) = 1 + zlen l.
Proof. unfold zlen. simpl. lia. Qed.
Lemma zlen_app {A} (l k : list A) : zlen (l ++ k) = zlen l + zlen k.
Proof. unfold zlen. rewrite length_app. lia. Qed.
Lemma zlen_nonneg {A} (l : list A) : 0 ≤ zlen l.
Proof. unfold zlen. lia. Qed.
#[export] Hint Rewrite @zlen_nil @zlen_cons @zlen_app : nbytes.
#[export] Hint Resolve zlen_nonneg : netidx.

(** ** Big-endian integers *)

Fixpoint le_bytes (n : nat) (z : Z) : list byte :=
  match n with
  | O => []
  | S n => Zb z :: le_bytes n (z / 256)
  end.

Fixpoint le_int (l : list byte) : Z :=
  match l with
  | [] => 0
  | x :: l => bZ x + 256 * le_int l
  end.

Definition be_bytes (n : nat) (z : Z) : list byte := rev (le_bytes n z).
Definition be_int (l : list byte) : Z := le_int (rev l).

Lemma le_bytes_length n z : length (le_bytes n z) = n.
Proof. revert z; induction n; intros; simpl; auto. Qed.

Lemma be_bytes_length n z : length (be_bytes n z) = n.
Proof. unfold be_bytes. by rewrite length_rev, le_bytes_length. Qed.

Lemma be_bytes_zlen n z : zlen (be_bytes n z) = Z.of_nat n.
Proof. unfold zlen. by rewrite be_bytes_length. Qed.
#[export] Hint Rewrite be_bytes_zlen : nbytes.

Lemma le_int_bytes n z : le_int (le_bytes n z) = wrap (8 * Z.of_nat n) z.
Proof.
  revert z; induction n as [|n IH]; intros z; simpl le_bytes; cbn [le_int].
  - unfold wrap. simpl. by rewrite Z.mod_1_r.
  - rewrite IH, bZ_Zb. unfold wrap.
    replace (8 * Z.of_nat (S n)) with (8 + 8 * Z.of_nat n) by lia.
    rewrite Z.pow_add_r by lia. change (2 ^ 8) with 256.
    rewrite Z.rem_mul_r by lia. lia.
Qed.

Lemma be_int_bytes n z : be_int (be_bytes n z) = wrap (8 * Z.of_nat n) z.
Proof. unfold be_int, be_bytes. by rewrite rev_involutive, le_int_bytes. Qed.

Lemma le_int_range l : in_u (8 * zlen l) (le_int l).
Proof.
  unfold in_u. induction l as [|x l IH]; cbn [le_int].
  - autorewrite with nbytes. simpl. lia.
  - autorewrite with nbytes. pose proof (bZ_range x).
    replace (8 * (1 + zlen l)) with (8 + 8 * zlen l) by lia.
    rewrite Z.pow_add_r by (pose proof (zlen_nonneg l); lia).
    change (2 ^ 8) with 256. lia.
Qed.

Lemma be_int_range l : in_u (8 * zlen l) (be_int l).
Proof.
  unfold be_int. pose proof (le_int_range (rev l)) as H.
  unfold zlen in *. by rewrite length_rev in H.
Qed.

(** ** The encoder and decoder effects

    An encoder appends bytes to a growable buffer and returns a result; what
    it had appended before an error stays in the buffer. A decoder reads from
    the front of a contiguous buffer and leaves the rest. *)
Definition enc (E : Type) : Type := list byte * res E unit.
Definition dec (E A : Type) : Type := list byte → res E A * list byte.

Definition put {E} (bs : list byte) : enc E := (bs, Ok ()).
Definition ethrow {E} (e : E) : enc E := ([], Err e).
Definition eseq {E} (e1 e2 : enc E) : enc E :=
  match e1 with
  | (w1, Ok _) => (w1 ++ e2.1, e2.2)
  | (w1, Err e) => (w1, Err e)
  | (w1, Panic) => (w1, Panic)
  end.

Definition dret {E A} (a : A) : dec E A := fun bs => (Ok a, bs).
Definition dthrow {E A} (e : E) : dec E A := fun bs => (Err e, bs).
Definition dpanic {E A} : dec E A := fun bs => (Panic, bs).
Definition dbind {E A B} (m : dec E A) (k : A → dec E B) : dec E B :=
  fun bs =>
    match m bs with
    | (Ok a, bs') => k a bs'
    | (Err e, bs') => (Err e, bs')
    | (Panic, bs') => (Panic, bs')
    end.
(** [buf.remaining()] *)
Definition dremaining {E} : dec E Z := fun bs => (Ok (zlen bs), bs).

Declare Scope codec_scope.
Delimit Scope codec_scope with codec.
Notation "e1 ;;; e2" := (eseq e1 e2)
  (at level 100, e2 at level 200, right associativity) : codec_scope.
Notation "'let!' x := m 'in' k" := (dbind m (fun x => k))
  (at level 10, x pattern, m at level 100, k at level 200) : codec_scope.
#[global] Open Scope codec_scope.

Lemma dbind_ok {E A B} (m : dec E A) (k : A → dec E B) bs a bs' :
  m bs = (Ok a, bs') → dbind m k bs = k a bs'.
Proof. unfold dbind. by intros ->. Qed.

Lemma dbind_err {E A B} (m : dec E A) (k : A → dec E B) bs e bs' :
  m bs = (Err e, bs') → dbind m k bs = (Err e, bs').
Proof. unfold dbind. by intros ->. Qed.

Lemma eseq_ok {E} (e1 e2 : enc E) w1 w2 :
  e1 = (w1, Ok ()) → e2 = (w2, Ok ()) → (e1 ;;; e2) = (w1 ++ w2, Ok ()).
Proof. by intros -> ->. Qed.

(** A decoder is safe when on every input it neither panics nor reads past the
    buffer: what it leaves is a suffix of what it got. *)
Definition safe {E A} (m : dec E A) : Prop :=
  ∀ bs, is_panic (m bs).1 = false ∧ (m bs).2 `suffix_of` bs.

Lemma safe_ret {E A} (a : A) : safe (@dret E A a).
Proof. intros bs. by split. Qed.
Lemma safe_throw {E A} (e : E) : safe (@dthrow E A e).
Proof. intros bs. by split. Qed.
Lemma safe_remaining {E} : safe (@dremaining E).
Proof. intros bs. by split. Qed.
Lemma safe_bind {E A B} (m : dec E A) (k : A → dec E B) :
  safe m → (∀ a, safe (k a)) → safe (dbind m k).
Proof.
  intros Hm Hk bs. unfold dbind. destruct (Hm bs) as [Hp Hs].
  destruct (m bs) as [[a|e|] bs']; simpl in *; try done.
  destruct (Hk a bs') as [? Hs']. split; [done|]. by etrans.
Qed.
Lemma safe_if {E A} (c : bool) (m1 m2 : dec E A) :
  safe m1 → safe m2 → safe (if c then m1 else m2).
Proof. by destruct c. Qed.
#[export] Hint Resolve safe_ret safe_throw safe_remaining : netidx.

(** Follows the syntax of the decoder; leaves go to the hint database. *)
Ltac solve_safe := repeat (intros;
  lazymatch goal with
  | |- safe (dbind _ _) => apply safe_bind
  | |- safe (if _ then _ else _) => apply safe_if
  | |- safe (match _ with _ => _ end) => case_match
  | |- safe _ => solve [eauto with netidx]
  end).

(** ** UTF-8

    [str::from_utf8] accepts exactly the sequences of RFC 3629: no overlong
    forms, no surrogates, nothing above U+10FFFF. *)
Definition byte_in (lo hi : Z) (x : byte) : bool := (lo <=? bZ x) && (bZ x <=? hi).

Fixpoint utf8_valid (l : str) : bool :=
  match l with
  | [] => true
  | b0 :: l1 =>
      if bZ b0 <? 0x80 then utf8_valid l1
      else match l1 with
      | [] => false
      | b1 :: l2 =>
          if byte_in 0xC2 0xDF b0 && byte_in 0x80 0xBF b1 then utf8_valid l2
          else match l2 with
          | [] => false
          | b2 :: l3 =>
              let second :=
                if bZ b0 =? 0xE0 then byte_in 0xA0 0xBF b1
                else if bZ b0 =? 0xED then byte_in 0x80 0x9F b1
                else byte_in 0xE1 0xEF b0 && byte_in 0x80 0xBF b1 in
              if second && byte_in 0x80 0xBF b2 then utf8_valid l3
              else match l3 with
              | [] => false
              | b3 :: l4 =>
                  let second :=
                    if bZ b0 =? 0xF0 then byte_in 0x90 0xBF b1
                    else if bZ b0 =? 0xF4 then byte_in 0x80 0x8F b1
                    else byte_in 0xF1 0xF3 b0 && byte_in 0x80 0xBF b1 in
                  second && byte_in 0x80 0xBF b2 && byte_in 0x80 0xBF b3
                  && utf8_valid l4
              end
          end
      end
  end.

(** [s.is_char_boundary(i)] of a valid string: [i] is an end of [s], or the byte
    at [i] is not a continuation byte. *)
Definition is_char_boundary (s : str) (i : Z) : bool :=
  (i =? 0) || (i =? zlen s) ||
  match s !! Z.to_nat i with
  | Some x => (0 <? i) && negb (byte_in 0x80 0xBF x)
  | None => false
  end.

(** ** Bytes and integers, the other way round *)

Lemma le_bytes_int l n : length l = n → le_bytes n (le_int l) = l.
Proof.
  intros <-. induction l as [|x l IH]; [done|]. cbn [le_int length le_bytes].
  pose proof (bZ_range x).
  assert ((bZ x + 256 * le_int l) / 256 = le_int l) as ->
    by (symmetry; apply (Z.div_unique _ _ _ (bZ x)); lia).
  rewrite IH. f_equal. rewrite <- (Zb_bZ x) at 2. rewrite <- Zb_wrap. f_equal.
  unfold wrap. change (2 ^ 8) with 256.
  rewrite Z.mul_comm, Z_mod_plus_full. apply Z.mod_small. lia.
Qed.

Lemma be_bytes_int l n : length l = n → be_bytes n (be_int l) = l.
Proof.
  intros Hl. unfold be_bytes, be_int.
  rewrite le_bytes_int by (by rewrite length_rev). apply rev_involutive.
Qed.
