(* ===== verification/Varint.v ===== *)
(** The variable length integers and the length wrapping of the Pack format
    (netidx-core/src/pack.rs, lines 447-547): LEB128 varints of [u64], the
    zig-zag maps of [i32] and [i64], and the length prefix that lets an old
    decoder skip what a newer encoder added. *)
From Stdlib Require Import ZArith Lia.
From stdpp Require Import base list.
From Stdlib Require Import Strings.Byte.
From S2P Require Import Prelude.

(** [PackError] *)
Inductive PackError :=
| UnknownTag
| TooBig
| InvalidFormat
| BufferShort
| Application (code : Z).

#[export] Instance PackError_eq_dec : EqDecision PackError.
Proof. solve_decision. Defined.

(** ** Operations *)

(** [u64::leading_zeros] *)
Definition leading_zeros64 (z : Z) : Z := if z =? 0 then 64 else 63 - Z.log2 z.

(** [varint_len] *)
Definition varint_len (value : Z) : Z :=
  Z.shiftr (Z.lxor (leading_zeros64 (Z.lor value 1)) 63 * 9 + 73) 6.

(** [encode_varint]: the [for _ in 0..10] loop, [fuel] rounds left *)
Fixpoint encode_varint_loop (fuel : nat) (value : Z) : list byte :=
  match fuel with
  | O => []
  | S fuel =>
      if value <? 0x80 then [Zb value]
      else Zb (Z.lor (Z.land value 0x7F) 0x80)
             :: encode_varint_loop fuel (Z.shiftr value 7)
  end.
Definition encode_varint (value : Z) : list byte := encode_varint_loop 10 value.

(** [decode_varint]: the [for i in 0..10] loop, [fuel] rounds left *)
Fixpoint decode_varint_loop (fuel i : nat) (value : Z) (bytes : list byte)
  : res PackError Z * list byte :=
  match fuel with
  | O => (Err InvalidFormat, drop 10 bytes)
  | S fuel =>
      match bytes !! i with
      | None => (Err BufferShort, bytes)
      | Some byte =>
          let value :=
            Z.lor value
              (wrap 64 (Z.shiftl (Z.land (bZ byte) 0x7F) (Z.of_nat i * 7))) in
          if bZ byte <=? 0x7F then (Ok value, drop (i + 1) bytes)
          else decode_varint_loop fuel (S i) value bytes
      end
  end.
Definition decode_varint : dec PackError Z := decode_varint_loop 10 0 0.

(** [i32_zz], [i32_uzz], [i64_zz], [i64_uzz] *)
Definition i32_zz (n : Z) : Z :=
  wrap 32 (Z.lxor (swrap 32 (Z.shiftl n 1)) (Z.shiftr n 31)).
Definition i32_uzz (n : Z) : Z :=
  Z.lxor (swrap 32 (Z.shiftr n 1))
    (Z.shiftr (swrap 32 (Z.shiftl (swrap 32 n) 31)) 31).
Definition i64_zz (n : Z) : Z :=
  wrap 64 (Z.lxor (swrap 64 (Z.shiftl n 1)) (Z.shiftr n 63)).
Definition i64_uzz (n : Z) : Z :=
  Z.lxor (swrap 64 (Z.shiftr n 1))
    (Z.shiftr (swrap 64 (Z.shiftl (swrap 64 n) 63)) 63).

(** [len_wrapped_len] *)
Definition len_wrapped_len (len : Z) : Z :=
  let vlen := varint_len (len + varint_len len) in len + vlen.

(** [len_wrapped_encode]: [len] is what [t.encoded_len()] returns, [f] the
    closure that encodes the body *)
Definition len_wrapped_encode (len : Z) (f : enc PackError) : enc PackError :=
  put (encode_varint len) ;;; f.

(** [len_wrapped_decode]. The closure [f] runs on the [buf.take(..)] view; the
    rest of the view is skipped whatever [f] returned. The [u64] subtraction
    panics when it underflows. *)
Definition len_wrapped_decode {A} (f : dec PackError A) : dec PackError A :=
  let! len := decode_varint in
  if len <? 1 then dthrow BufferShort
  else if len <? varint_len len then dpanic
  else fun bs =>
    let n := Z.to_nat (Z.min (len - varint_len len) (zlen bs)) in
    ((f (take n bs)).1, drop n bs).

(** ** Arithmetic of the encoding *)

Lemma lor_1_log2 v : 0 ≤ v → Z.log2 (Z.lor v 1) = Z.log2 v.
Proof.
  intros Hv. rewrite Z.log2_lor by lia. change (Z.log2 1) with 0.
  pose proof (Z.log2_nonneg v). lia.
Qed.

Lemma lxor_63 k : 0 ≤ k ≤ 63 → Z.lxor (63 - k) 63 = k.
Proof.
  intros Hk. rewrite Z.lxor_comm.
  assert (Hc : ∀ n : nat, (n ≤ 63)%nat → Z.lxor 63 (63 - Z.of_nat n) = Z.of_nat n).
  { intros n Hn. do 64 (destruct n as [|n]; [reflexivity|]). lia. }
  specialize (Hc (Z.to_nat k)). rewrite Z2Nat.id in Hc by lia. apply Hc. lia.
Qed.

Lemma groups_of_7 k : 0 ≤ k ≤ 63 → (k * 9 + 73) / 64 = k / 7 + 1.
Proof. intros. Z.div_mod_to_equations. lia. Qed.

(** The bit trick is the number of seven bit groups. *)
Lemma varint_len_groups v : in_u 64 v → varint_len v = Z.log2 v / 7 + 1.
Proof.
  intros [H0 H1]. unfold varint_len, leading_zeros64.
  assert (0 < Z.lor v 1).
  { assert (0 ≤ Z.lor v 1) by (apply Z.lor_nonneg; lia).
    assert (Z.lor v 1 ≠ 0) by (rewrite Z.lor_eq_0_iff; lia). lia. }
  destruct (Z.eqb_spec (Z.lor v 1) 0); [lia|].
  rewrite lor_1_log2 by lia.
  assert (0 ≤ Z.log2 v ≤ 63).
  { split; [apply Z.log2_nonneg|].
    destruct (Z.eq_dec v 0) as [->|]; [simpl; lia|].
    assert (Z.log2 v < 64) by (apply Z.log2_lt_pow2; lia). lia. }
  rewrite lxor_63, Z.shiftr_div_pow2 by lia. apply groups_of_7. lia.
Qed.

Lemma varint_len_bounds v :
  in_u 64 v → 1 ≤ varint_len v ≤ 10 ∧ v < 2 ^ (7 * varint_len v) ∧
              (1 < varint_len v → 2 ^ (7 * (varint_len v - 1)) ≤ v).
Proof.
  intros Hv. rewrite varint_len_groups by done. destruct Hv as [H0 H1].
  destruct (Z.eq_dec v 0) as [->|Hne].
  { change (Z.log2 0 / 7 + 1) with 1. simpl. lia. }
  destruct (Z.log2_spec v ltac:(lia)) as [Hl Hh].
  assert (0 ≤ Z.log2 v ≤ 63).
  { split; [apply Z.log2_nonneg|].
    assert (Z.log2 v < 64) by (apply Z.log2_lt_pow2; lia). lia. }
  pose proof (Z.div_mod (Z.log2 v) 7 ltac:(lia)).
  pose proof (Z.mod_pos_bound (Z.log2 v) 7 ltac:(lia)).
  split; [lia|split].
  - eapply Z.lt_le_trans; [apply Hh|]. apply Z.pow_le_mono_r; lia.
  - intros. etrans; [|apply Hl]. apply Z.pow_le_mono_r; lia.
Qed.

Lemma varint_len_unique v n :
  in_u 64 v → 1 ≤ n → v < 2 ^ (7 * n) → (1 < n → 2 ^ (7 * (n - 1)) ≤ v) →
  varint_len v = n.
Proof.
  intros Hv Hn Hlt Hge. destruct (varint_len_bounds v Hv) as (? & Hb & Hc).
  destruct (Z.lt_trichotomy (varint_len v) n) as [?|[?|?]]; [|done|].
  - specialize (Hge ltac:(lia)).
    assert (2 ^ (7 * varint_len v) ≤ 2 ^ (7 * (n - 1)))
      by (apply Z.pow_le_mono_r; lia). lia.
  - specialize (Hc ltac:(lia)).
    assert (2 ^ (7 * n) ≤ 2 ^ (7 * (varint_len v - 1)))
      by (apply Z.pow_le_mono_r; lia). lia.
Qed.

Lemma varint_len_le v : in_u 64 v → 1 ≤ v → varint_len v ≤ v.
Proof.
  intros Hv H1. destruct (varint_len_bounds v Hv) as (? & _ & Hc).
  destruct (Z.eq_dec (varint_len v) 1); [lia|]. specialize (Hc ltac:(lia)).
  assert (Hp : ∀ k, 0 ≤ k → k + 1 ≤ 2 ^ (7 * k)).
  { intros k Hk. pattern k. apply natlike_ind; [simpl; lia| |done].
    intros x Hx IH. replace (7 * Z.succ x) with (7 + 7 * x) by lia.
    rewrite Z.pow_add_r by lia. change (2 ^ 7) with 128. lia. }
  specialize (Hp (varint_len v - 1) ltac:(lia)). lia.
Qed.

Lemma lor_shiftl_add a c n :
  0 ≤ n → 0 ≤ a < 2 ^ n → Z.lor a (Z.shiftl c n) = a + c * 2 ^ n.
Proof.
  intros Hn [Ha Hb]. rewrite <- Z.shiftl_mul_pow2 by done.
  symmetry. apply Z.add_nocarry_lor, Z.bits_inj'.
  intros i Hi. rewrite Z.land_spec, Z.bits_0, Z.shiftl_spec by done.
  destruct (Z.lt_ge_cases i n);
    [rewrite (Z.testbit_neg_r c) by lia; apply andb_false_r|].
  destruct (Z.eq_dec a 0) as [->|]; [by rewrite Z.testbit_0_l|].
  rewrite Z.bits_above_log2; [done|lia|].
  eapply Z.lt_le_trans; [|eassumption]. apply Z.log2_lt_pow2; lia.
Qed.

Lemma land_7f v : Z.land v 0x7F = v mod 128.
Proof. change 0x7F with (Z.ones 7). apply Z.land_ones. lia. Qed.

Lemma varint_high_byte v :
  bZ (Zb (Z.lor (Z.land v 0x7F) 0x80)) = v mod 128 + 128.
Proof.
  rewrite land_7f. pose proof (Z.mod_pos_bound v 128 ltac:(lia)).
  assert (Z.lor (v mod 128) 0x80 = v mod 128 + 1 * 2 ^ 7) as ->
    by (apply (lor_shiftl_add _ 1 7); lia).
  rewrite bZ_Zb_small; lia.
Qed.

(** ** Varints *)

Lemma encode_varint_loop_length fuel v :
  0 ≤ v → v < 2 ^ (7 * Z.of_nat fuel) → (0 < fuel)%nat →
  1 ≤ zlen (encode_varint_loop fuel v) ∧
  v < 2 ^ (7 * zlen (encode_varint_loop fuel v)) ∧
  (1 < zlen (encode_varint_loop fuel v) →
   2 ^ (7 * (zlen (encode_varint_loop fuel v) - 1)) ≤ v).
Proof.
  revert v; induction fuel as [|fuel IH]; intros v H0 Hv Hf; [lia|].
  cbn [encode_varint_loop]. destruct (Z.ltb_spec v 0x80).
  { change (zlen [Zb v]) with 1. simpl. lia. }
  rewrite zlen_cons. rewrite Z.shiftr_div_pow2 by lia. change (2 ^ 7) with 128.
  replace (7 * Z.of_nat (S fuel)) with (7 + 7 * Z.of_nat fuel) in Hv by lia.
  rewrite Z.pow_add_r in Hv by lia. change (2 ^ 7) with 128 in Hv.
  assert (Hq : v / 128 < 2 ^ (7 * Z.of_nat fuel))
    by (apply Z.div_lt_upper_bound; lia).
  destruct fuel as [|fuel]; [simpl in Hv; lia|].
  assert (0 ≤ v / 128) by (apply Z.div_pos; lia).
  destruct (IH (v / 128) ltac:(done) Hq ltac:(lia)) as (Hn1 & Hn2 & Hn3).
  set (n := zlen (encode_varint_loop (S fuel) (v / 128))) in *.
  pose proof (Z.div_mod v 128 ltac:(lia)).
  pose proof (Z.mod_pos_bound v 128 ltac:(lia)).
  split; [lia|split; [|intros _]].
  - replace (7 * (1 + n)) with (7 + 7 * n) by lia.
    rewrite Z.pow_add_r by lia. change (2 ^ 7) with 128. lia.
  - replace (7 * (1 + n - 1)) with (7 + 7 * (n - 1)) by lia.
    rewrite Z.pow_add_r by lia. change (2 ^ 7) with 128.
    destruct (Z.eq_dec n 1) as [->|]; [simpl; lia|].
    specialize (Hn3 ltac:(lia)). lia.
Qed.

Lemma encode_varint_zlen v : in_u 64 v → zlen (encode_varint v) = varint_len v.
Proof.
  intros Hv. symmetry. unfold encode_varint.
  assert (v < 2 ^ (7 * Z.of_nat 10)) by (destruct Hv; simpl; lia).
  destruct (encode_varint_loop_length 10 v) as (? & ? & ?); [apply Hv|done|lia|].
  by apply varint_len_unique.
Qed.

(** Decoding what the encoder still has to emit, with [acc] read so far. *)
Lemma decode_encode_varint_loop fuel v pre acc rest :
  (length pre + fuel = 10)%nat → (0 < fuel)%nat → 0 ≤ v →
  0 ≤ acc < 2 ^ (7 * zlen pre) → acc + v * 2 ^ (7 * zlen pre) < 2 ^ 64 →
  decode_varint_loop fuel (length pre) acc
    (pre ++ encode_varint_loop fuel v ++ rest) =
  (Ok (acc + v * 2 ^ (7 * zlen pre)), rest).
Proof.
  revert v pre acc; induction fuel as [|fuel IH]; intros v pre acc Hl Hf Hv Ha Hs;
    [lia|].
  cbn [decode_varint_loop encode_varint_loop].
  set (p := 2 ^ (7 * zlen pre)) in *.
  assert (Hp : 0 < p) by (apply Z.pow_pos_nonneg; [lia|pose proof (zlen_nonneg pre); lia]).
  assert (Hacc : ∀ x, 0 ≤ x → x * p < 2 ^ 64 →
    Z.lor acc (wrap 64 (Z.shiftl x (Z.of_nat (length pre) * 7))) = acc + x * p).
  { intros x Hx Hxp. rewrite (Z.mul_comm _ 7). change (Z.of_nat (length pre)) with (zlen pre).
    assert (0 ≤ 7 * zlen pre) by (pose proof (zlen_nonneg pre); lia).
    rewrite wrap_small; [by apply lor_shiftl_add|].
    rewrite Z.shiftl_mul_pow2 by done. fold p. unfold in_u. nia. }
  destruct (Z.ltb_spec v 0x80).
  - rewrite lookup_app_r by lia. rewrite Nat.sub_diag. cbn.
    rewrite bZ_Zb_small by lia. rewrite land_7f, (Z.mod_small v 128) by lia.
    rewrite Hacc by lia. destruct (Z.leb_spec v 0x7F); [|lia].
    rewrite drop_app_ge by lia.
    by replace (length pre + 1 - length pre)%nat with 1%nat by lia.
  - rewrite lookup_app_r by lia. rewrite Nat.sub_diag.
    pose proof (varint_high_byte v) as Hw.
    set (w := Zb (Z.lor (Z.land v 0x7F) 0x80)) in *.
    cbn [lookup list_lookup app]. rewrite Hw.
    pose proof (Z.mod_pos_bound v 128 ltac:(lia)).
    pose proof (Z.div_mod v 128 ltac:(lia)).
    rewrite land_7f. replace ((v mod 128 + 128) mod 128) with (v mod 128)
      by (rewrite <- Z.add_mod_idemp_r by lia; simpl; rewrite Z.add_0_r, Z.mod_mod; lia).
    assert (0 ≤ v / 128) by (apply Z.div_pos; lia).
    rewrite Hacc by nia. destruct (Z.leb_spec (v mod 128 + 128) 0x7F); [lia|].
    rewrite Z.shiftr_div_pow2 by lia. change (2 ^ 7) with 128.
    specialize (IH (v / 128) (pre ++ [w]) (acc + v mod 128 * p)).
    assert (Hp' : 2 ^ (7 * zlen (pre ++ [w])) = 128 * p).
    { rewrite zlen_app. change (zlen [w]) with 1.
      replace (7 * (zlen pre + 1)) with (7 + 7 * zlen pre) by lia.
      rewrite Z.pow_add_r by (pose proof (zlen_nonneg pre); lia). done. }
    rewrite Hp', length_app in IH. cbn [length] in IH.
    rewrite Nat.add_1_r, <- app_assoc in IH. cbn [app] in IH.
    assert (fuel ≠ 0%nat).
    { intros ->. assert (H9 : zlen pre = 9) by (unfold zlen; lia).
      assert (p = 2 ^ 63) by (unfold p; by rewrite H9). lia. }
    rewrite IH by (lia || nia). f_equal. f_equal. nia.
Qed.

Lemma decode_encode_varint v rest :
  in_u 64 v → decode_varint (encode_varint v ++ rest) = (Ok v, rest).
Proof.
  intros [H0 H1]. pose proof (decode_encode_varint_loop 10 v [] 0 rest) as H.
  cbn [length app] in H. change (zlen (@nil byte)) with 0 in H.
  change (2 ^ (7 * 0)) with 1 in H. unfold decode_varint, encode_varint.
  rewrite H by lia. f_equal. f_equal. lia.
Qed.

Lemma lor_range w x y : 0 ≤ w → in_u w x → in_u w y → in_u w (Z.lor x y).
Proof.
  intros Hw [Hx0 Hx] [Hy0 Hy]. split; [apply Z.lor_nonneg; lia|].
  destruct (Z.eq_dec (Z.lor x y) 0) as [->|Hne]; [lia|].
  assert (0 ≤ Z.lor x y) by (apply Z.lor_nonneg; lia).
  apply Z.log2_lt_pow2; [lia|]. rewrite Z.log2_lor by lia.
  assert (Hl : ∀ z, 0 ≤ z < 2 ^ w → z ≠ 0 → Z.log2 z < w)
    by (intros; apply Z.log2_lt_pow2; lia).
  assert (Hw' : Z.lor x y ≠ 0 → 0 < w).
  { intros _. destruct (Z.eq_dec w 0) as [->|]; [|lia]. exfalso. apply Hne.
    assert (x = 0) as -> by (simpl in *; lia). assert (y = 0) as -> by (simpl in *; lia).
    done. }
  specialize (Hw' Hne).
  destruct (Z.eq_dec x 0) as [->|]; destruct (Z.eq_dec y 0) as [->|];
    try change (Z.log2 0) with 0; rewrite ?Z.max_lub_lt_iff; auto with lia.
Qed.

Lemma decode_varint_loop_inv fuel i acc bs :
  in_u 64 acc →
  is_panic (decode_varint_loop fuel i acc bs).1 = false ∧
  (decode_varint_loop fuel i acc bs).2 `suffix_of` bs ∧
  ∀ v, (decode_varint_loop fuel i acc bs).1 = Ok v → in_u 64 v.
Proof.
  revert i acc; induction fuel as [|fuel IH]; intros i acc Ha; cbn [decode_varint_loop].
  { split; [done|split; [apply suffix_drop|done]]. }
  destruct (bs !! i) as [byte|]; [|by split; [|split]].
  assert (in_u 64 (Z.lor acc
    (wrap 64 (Z.shiftl (Z.land (bZ byte) 0x7F) (Z.of_nat i * 7))))).
  { apply lor_range; auto with lia. apply wrap_range. lia. }
  destruct (bZ byte <=? 0x7F); [|by apply IH].
  split; [done|split; [apply suffix_drop|]]. by intros v [= <-].
Qed.

Lemma decode_varint_safe : safe decode_varint.
Proof. intros bs. edestruct (decode_varint_loop_inv 10 0 0 bs) as (? & ? & _); done. Qed.
#[export] Hint Resolve decode_varint_safe : netidx.

Lemma decode_varint_range bs v rest :
  decode_varint bs = (Ok v, rest) → in_u 64 v.
Proof.
  intros H. edestruct (decode_varint_loop_inv 10 0 0 bs) as (_ & _ & Hv); [done|].
  apply Hv. unfold decode_varint in H. by rewrite H.
Qed.

(** ** Length wrapping *)

(** The prefix counts itself: the varint of the wrapped length is exactly as
    long as the room [len_wrapped_len] left for it. *)
Lemma len_wrapped_len_fixpoint len :
  in_u 63 len → in_u 64 (len_wrapped_len len) ∧
  varint_len (len_wrapped_len len) = len_wrapped_len len - len.
Proof.
  intros [H0 H1].
  assert (Hu : ∀ x, 0 ≤ x ≤ 20 → in_u 64 (len + x)).
  { intros. split; [lia|]. change (2 ^ 64) with (2 ^ 63 + 2 ^ 63).
    assert (20 < 2 ^ 63) by done. lia. }
  assert (Hl : in_u 64 len) by (replace len with (len + 0) by lia; apply Hu; lia).
  destruct (varint_len_bounds len Hl) as (Ha & Ha1 & Ha2).
  destruct (varint_len_bounds (len + varint_len len)) as (Hc & Hc1 & Hc2);
    [apply Hu; lia|].
  unfold len_wrapped_len. set (a := varint_len len) in *.
  set (c := varint_len (len + a)) in *.
  split; [apply Hu; lia|]. replace (len + c - len) with c by lia.
  assert (Hac : a ≤ c).
  { destruct (Z.le_gt_cases a c) as [|Hgt]; [done|]. specialize (Ha2 ltac:(lia)).
    assert (2 ^ (7 * c) ≤ 2 ^ (7 * (a - 1))) by (apply Z.pow_le_mono_r; lia). lia. }
  assert (Hstep : 128 * 2 ^ (7 * a) = 2 ^ (7 * (a + 1))).
  { replace (7 * (a + 1)) with (7 + 7 * a) by lia. by rewrite Z.pow_add_r by lia. }
  assert (Hbig : 128 ≤ 2 ^ (7 * a)).
  { change 128 with (2 ^ 7). apply Z.pow_le_mono_r; lia. }
  assert (Hca : c ≤ a + 1).
  { destruct (Z.le_gt_cases c (a + 1)) as [|Hgt]; [done|].
    specialize (Hc2 ltac:(lia)).
    assert (2 ^ (7 * (a + 1)) ≤ 2 ^ (7 * (c - 1))) by (apply Z.pow_le_mono_r; lia).
    lia. }
  assert (c = a ∨ c = a + 1) as [Heq|Heq] by lia.
  - by replace (len + c) with (len + a) by lia.
  - rewrite Heq in *. apply varint_len_unique; [apply Hu; lia|lia| |lia].
    rewrite <- Hstep. lia.
Qed.

Lemma len_wrapped_len_ge len : in_u 63 len → len + 1 ≤ len_wrapped_len len.
Proof.
  intros H. destruct (len_wrapped_len_fixpoint len H) as [Hu Hf].
  destruct (varint_len_bounds _ Hu). lia.
Qed.

(** Decoding a wrapped view runs the body decoder on exactly the view and
    leaves what follows it, whether or not the decoder used the whole view. *)
Lemma len_wrapped_decode_view {A} (f : dec PackError A) view rest :
  in_u 63 (zlen view) →
  len_wrapped_decode f (encode_varint (len_wrapped_len (zlen view)) ++ view ++ rest)
  = ((f view).1, rest).
Proof.
  intros Hv. destruct (len_wrapped_len_fixpoint _ Hv) as [Hu Hf].
  pose proof (len_wrapped_len_ge _ Hv). pose proof (zlen_nonneg view).
  unfold len_wrapped_decode.
  rewrite (dbind_ok _ _ _ _ _ (decode_encode_varint _ _ Hu)), Hf.
  destruct (Z.ltb_spec (len_wrapped_len (zlen view)) 1); [lia|].
  destruct (Z.ltb_spec (len_wrapped_len (zlen view))
    (len_wrapped_len (zlen view) - zlen view)); [lia|].
  replace (len_wrapped_len (zlen view) - (len_wrapped_len (zlen view) - zlen view))
    with (zlen view) by lia.
  rewrite zlen_app, Z.min_l by (pose proof (zlen_nonneg rest); lia).
  unfold zlen. rewrite Nat2Z.id, take_app_length, drop_app_length. done.
Qed.

Lemma len_wrapped_decode_safe {A} (f : dec PackError A) :
  safe f → safe (len_wrapped_decode f).
Proof.
  intros Hf bs. unfold len_wrapped_decode, dbind.
  destruct (decode_varint_safe bs) as [Hp Hs].
  destruct (decode_varint bs) as [[len|e|] bs'] eqn:E; try by simpl in *.
  cbn [fst snd] in *. apply decode_varint_range in E.
  destruct (Z.ltb_spec len 1); [by split|].
  pose proof (varint_len_le len E ltac:(lia)).
  destruct (Z.ltb_spec len (varint_len len)); [lia|]. cbn [fst snd].
  split; [apply Hf|]. etrans; [apply suffix_drop|done].
Qed.
#[export] Hint Resolve len_wrapped_decode_safe : netidx.

Lemma len_wrapped_encode_ok body len :
  len_wrapped_encode len (put body) = (encode_varint len ++ body, Ok ()).
Proof. done. Qed.

(** ** Zig-zag *)

Lemma swrap_cong w z : 0 ≤ w → ∃ k, swrap w z = z + k * 2 ^ w.
Proof.
  intros Hw. unfold swrap, wrap. assert (0 < 2 ^ w) by lia.
  pose proof (Z.div_mod z (2 ^ w) ltac:(lia)).
  destruct (Z.ltb_spec (z mod 2 ^ w) (2 ^ (w - 1))).
  - exists (- (z / 2 ^ w)). lia.
  - exists (- (z / 2 ^ w) - 1). lia.
Qed.

Lemma wrap_add_mul w z k : 0 ≤ w → wrap w (z + k * 2 ^ w) = wrap w z.
Proof. intros. apply Z_mod_plus_full. Qed.

(** The shape shared by [i32_zz]/[i64_zz] and their inverses. *)
Lemma zz_spec w n : 2 ≤ w → in_i w n →
  wrap w (Z.lxor (swrap w (Z.shiftl n 1)) (Z.shiftr n (w - 1))) =
  if n <? 0 then - 2 * n - 1 else 2 * n.
Proof.
  intros Hw [Hl Hh]. pose proof (pow2_split w ltac:(lia)).
  rewrite Z.shiftr_div_pow2, Z.shiftl_mul_pow2 by lia. change (2 ^ 1) with 2.
  destruct (swrap_cong w (n * 2) ltac:(lia)) as [k ->].
  destruct (Z.ltb_spec n 0).
  - assert (n / 2 ^ (w - 1) = -1) as ->.
    { symmetry. apply (Z.div_unique _ _ (-1) (n + 2 ^ (w - 1))); lia. }
    rewrite Z.lxor_m1_r. unfold Z.lnot.
    replace (Z.pred (- (n * 2 + k * 2 ^ w))) with (- 2 * n - 1 + (- k) * 2 ^ w) by lia.
    rewrite wrap_add_mul by lia. apply wrap_small. unfold in_u. lia.
  - rewrite Z.div_small, Z.lxor_0_r, wrap_add_mul by lia.
    rewrite wrap_small; [lia|unfold in_u; lia].
Qed.

Lemma uzz_spec w n : 2 ≤ w → in_u w n →
  Z.lxor (swrap w (Z.shiftr n 1))
    (Z.shiftr (swrap w (Z.shiftl (swrap w n) (w - 1))) (w - 1)) =
  if Z.even n then n / 2 else - (n / 2) - 1.
Proof.
  intros Hw [Hl Hh]. pose proof (pow2_split w ltac:(lia)) as Hp.
  pose proof (Z.div_mod n 2 ltac:(lia)) as Hn.
  rewrite !Z.shiftr_div_pow2, Z.shiftl_mul_pow2 by lia. change (2 ^ 1) with 2.
  rewrite (swrap_small w (n / 2)) by (unfold in_i; Z.div_mod_to_equations; lia).
  destruct (swrap_cong w n ltac:(lia)) as [k ->].
  assert (Hw0 : 0 < 2 ^ (w - 1)) by lia.
  assert (Hs : swrap w ((n + k * 2 ^ w) * 2 ^ (w - 1)) = - (n mod 2) * 2 ^ (w - 1)).
  { rewrite <- swrap_wrap by lia.
    replace ((n + k * 2 ^ w) * 2 ^ (w - 1)) with
      (- (n mod 2) * 2 ^ (w - 1) + (n / 2 + n mod 2 + k * 2 ^ (w - 1)) * 2 ^ w) by nia.
    rewrite wrap_add_mul, swrap_wrap by lia. apply swrap_small; [lia|].
    pose proof (Z.mod_pos_bound n 2 ltac:(lia)). unfold in_i. nia. }
  rewrite Hs, Z.div_mul by lia. rewrite Zmod_even.
  destruct (Z.even n); cbn [Z.opp]; [apply Z.lxor_0_r|].
  rewrite Z.lxor_m1_r. unfold Z.lnot. lia.
Qed.

Lemma zz_uzz_inverse w n : 2 ≤ w → in_i w n →
  let z := if n <? 0 then - 2 * n - 1 else 2 * n in
  in_u w z ∧ (if Z.even z then z / 2 else - (z / 2) - 1) = n.
Proof.
  intros Hw [Hl Hh]. pose proof (pow2_split w ltac:(lia)). unfold in_u.
  destruct (Z.ltb_spec n 0); cbn zeta.
  - split; [lia|]. replace (- 2 * n - 1) with (2 * (- n - 1) + 1) by lia.
    rewrite Z.even_add, Z.even_mul. cbn. Z.div_mod_to_equations. lia.
  - split; [lia|]. rewrite Z.even_mul. cbn. Z.div_mod_to_equations. lia.
Qed.

Lemma uzz_zz_inverse w n : 2 ≤ w → in_u w n →
  let z := if Z.even n then n / 2 else - (n / 2) - 1 in
  in_i w z ∧ (if z <? 0 then - 2 * z - 1 else 2 * z) = n.
Proof.
  intros Hw [Hl Hh]. pose proof (pow2_split w ltac:(lia)). unfold in_i.
  pose proof (Z.div_mod n 2 ltac:(lia)). rewrite Zmod_even in *.
  destruct (Z.even n); cbn zeta.
  - destruct (Z.ltb_spec (n / 2) 0); lia.
  - destruct (Z.ltb_spec (- (n / 2) - 1) 0); lia.
Qed.

Lemma i32_zz_spec n : in_i 32 n → i32_zz n = if n <? 0 then - 2 * n - 1 else 2 * n.
Proof. exact (zz_spec 32 n ltac:(lia)). Qed.
Lemma i64_zz_spec n : in_i 64 n → i64_zz n = if n <? 0 then - 2 * n - 1 else 2 * n.
Proof. exact (zz_spec 64 n ltac:(lia)). Qed.
Lemma i32_uzz_spec n : in_u 32 n → i32_uzz n = if Z.even n then n / 2 else - (n / 2) - 1.
Proof. exact (uzz_spec 32 n ltac:(lia)). Qed.
Lemma i64_uzz_spec n : in_u 64 n → i64_uzz n = if Z.even n then n / 2 else - (n / 2) - 1.
Proof. exact (uzz_spec 64 n ltac:(lia)). Qed.

(** ** Theorems *)

(** Every [u64] survives the varint encoding. The encoder's ten rounds are
    enough, the bytes are as many as [varint_len] announced (the bit trick is
    the count of seven bit groups), and the decoder returns the value and leaves
    what follows. *)
Theorem varint_roundtrip v rest :
  in_u 64 v →
  decode_varint (encode_varint v ++ rest) = (Ok v, rest) ∧
  zlen (encode_varint v) = varint_len v ∧
  varint_len v = Z.log2 v / 7 + 1 ∧ 1 ≤ varint_len v ≤ 10.
Proof.
  intros Hv. split; [by apply decode_encode_varint|]. split; [by apply encode_varint_zlen|].
  split; [by apply varint_len_groups|]. by apply varint_len_bounds.
Qed.

(** Pointed at arbitrary bytes, [decode_varint] does not panic, leaves a
    suffix of its input and only ever returns a [u64]; ten continuation bytes
    are [InvalidFormat], a buffer that ends inside a varint is [BufferShort]
    with nothing consumed. *)
Theorem decode_varint_robust bs :
  safe decode_varint ∧
  (∀ v rest, decode_varint bs = (Ok v, rest) → in_u 64 v) ∧
  (Forall (fun x => 0x80 ≤ bZ x) bs →
   decode_varint bs =
     if (length bs <? 10)%nat then (Err BufferShort, bs)
     else (Err InvalidFormat, drop 10 bs)).
Proof.
  split; [apply decode_varint_safe|]. split; [intros v rest; apply decode_varint_range|].
  intros Hall. unfold decode_varint.
  assert (Hloop : ∀ fuel i acc, (fuel + i = 10)%nat → (i ≤ length bs)%nat →
    decode_varint_loop fuel i acc bs =
      if (length bs <? 10)%nat then (Err BufferShort, bs)
      else (Err InvalidFormat, drop 10 bs)).
  { induction fuel as [|fuel IH]; intros i acc Hf Hi; cbn [decode_varint_loop].
    - destruct (Nat.ltb_spec (length bs) 10); [lia|done].
    - destruct (bs !! i) as [x|] eqn:E.
      + pose proof (Forall_lookup_1 _ _ _ _ Hall E) as Hx. cbn in Hx.
        destruct (Z.leb_spec (bZ x) 0x7F); [lia|].
        apply IH; [lia|]. by apply lookup_lt_Some in E.
      + apply lookup_ge_None in E. destruct (Nat.ltb_spec (length bs) 10); [done|lia]. }
  apply Hloop; lia.
Qed.

(** Forward compatibility. Whatever a newer encoder put behind the fields an
    old decoder knows ([extra]), the old decoder returns its fields and resumes
    exactly behind the message, because the length prefix counts its own
    varint. *)
Theorem len_wrapped_forward_compatible {A} (f : dec PackError A) a body extra rest :
  in_u 63 (zlen (body ++ extra)) → f (body ++ extra) = (Ok a, extra) →
  let len := len_wrapped_len (zlen (body ++ extra)) in
  (len_wrapped_encode len (put (body ++ extra))).1 = encode_varint len ++ body ++ extra ∧
  zlen (encode_varint len ++ body ++ extra) = len ∧
  len_wrapped_decode f (encode_varint len ++ (body ++ extra) ++ rest) = (Ok a, rest).
Proof.
  intros Hu Hf. cbn zeta. destruct (len_wrapped_len_fixpoint _ Hu) as [H64 Hfix].
  split; [done|]. split.
  - rewrite zlen_app, encode_varint_zlen, Hfix by done. lia.
  - rewrite len_wrapped_decode_view by done. by rewrite Hf.
Qed.

(** [i32_zz]/[i32_uzz] and [i64_zz]/[i64_uzz] are inverse bijections between
    the signed and the unsigned range, and the code of [n] is [2n] or [-2n-1],
    so that small magnitudes get short varints. *)
Theorem zigzag_bijection n m k l :
  in_i 32 n → in_u 32 m → in_i 64 k → in_u 64 l →
  (in_u 32 (i32_zz n) ∧ i32_uzz (i32_zz n) = n ∧
   i32_zz n = if n <? 0 then - 2 * n - 1 else 2 * n) ∧
  (in_i 32 (i32_uzz m) ∧ i32_zz (i32_uzz m) = m) ∧
  (in_u 64 (i64_zz k) ∧ i64_uzz (i64_zz k) = k ∧
   i64_zz k = if k <? 0 then - 2 * k - 1 else 2 * k) ∧
  (in_i 64 (i64_uzz l) ∧ i64_zz (i64_uzz l) = l).
Proof.
  intros Hn Hm Hk Hl.
  assert (Hz : ∀ w x, 2 ≤ w → in_i w x →
    let z := if x <? 0 then - 2 * x - 1 else 2 * x in
    in_u w z ∧ (if Z.even z then z / 2 else - (z / 2) - 1) = x) by apply zz_uzz_inverse.
  assert (Hu : ∀ w x, 2 ≤ w → in_u w x →
    let z := if Z.even x then x / 2 else - (x / 2) - 1 in
    in_i w z ∧ (if z <? 0 then - 2 * z - 1 else 2 * z) = x) by apply uzz_zz_inverse.
  destruct (Hz 32 n ltac:(lia) Hn) as [A1 A2]. destruct (Hu 32 m ltac:(lia) Hm) as [B1 B2].
  destruct (Hz 64 k ltac:(lia) Hk) as [C1 C2]. destruct (Hu 64 l ltac:(lia) Hl) as [D1 D2].
  rewrite (i32_zz_spec n), (i64_zz_spec k), (i32_uzz_spec m), (i64_uzz_spec l) by done.
  rewrite i32_uzz_spec, i32_zz_spec, i64_uzz_spec, i64_zz_spec by done. split_and!; done.
Qed.

(** ** The theorems at concrete inputs *)

Lemma varint_roundtrip_witness :
  decode_varint (encode_varint 300 ++ []) = (Ok 300, []).
Proof. apply (varint_roundtrip 300 []). unfold in_u. lia. Defined.

Lemma decode_varint_robust_witness :
  decode_varint (replicate 3 (Zb 0xFF)) = (Err BufferShort, replicate 3 (Zb 0xFF)).
Proof.
  apply (decode_varint_robust (replicate 3 (Zb 0xFF))). apply Forall_replicate.
  by vm_compute.
Defined.

Lemma len_wrapped_forward_compatible_witness :
  len_wrapped_decode (fun bs => match bs with x :: bs => (Ok x, bs) | [] => (Err BufferShort, []) end)
    (encode_varint (len_wrapped_len 2) ++ ([Zb 7] ++ [Zb 9]) ++ [Zb 1]) = (Ok (Zb 7), [Zb 1]).
Proof.
  apply (len_wrapped_forward_compatible
    (fun bs => match bs with x :: bs => (Ok x, bs) | [] => (Err BufferShort, []) end)
    (Zb 7) [Zb 7] [Zb 9] [Zb 1]).
  - by vm_compute.
  - reflexivity.
Defined.

Lemma zigzag_bijection_witness : i32_uzz (i32_zz (-5)) = -5.
Proof.
  apply (zigzag_bijection (-5) 7 (-9) 11); unfold in_i, in_u; lia.
Defined.
