(* ===== verification/Pack.v ===== *)
(** The Pack trait and its implementations (netidx-core/src/pack.rs). [Pack] is
    the record of a type's operations, [PackOk] the law a correct
    implementation obeys (encoding succeeds with the announced length and
    decodes back, leaving what follows), [PackSafe] the law of a decoder that
    can be pointed at untrusted bytes. One definition per [impl Pack for ..]
    block; the laws compose along the type structure. *)
From Stdlib Require Import ZArith Lia.
From stdpp Require Import base gmap list strings sorting.
From Stdlib Require Import Strings.Byte.
From S2P Require Import Prelude Varint.

(** ** The trait *)

(** [trait Pack], with [mem::size_of::<Self>()] which the containers use.
    [decode_into old] is what the method leaves in [self]. *)
Record Pack (A : Type) := MkPack {
  size_of : Z;
  const_encoded_len : option Z;
  encoded_len : A → Z;
  encode : A → enc PackError;
  decode : dec PackError A;
  decode_into : A → dec PackError A
}.
Arguments MkPack {A} _ _ _ _ _ _.
Arguments size_of {A} _.
Arguments const_encoded_len {A} _.
Arguments encoded_len {A} _ _.
Arguments encode {A} _ _.
Arguments decode {A} _ _.
Arguments decode_into {A} _ _ _.

(** An implementation with the trait's default [decode_into]. *)
Definition simple_pack {A} (size : Z) (clen : option Z) (len : A → Z)
    (e : A → enc PackError) (d : dec PackError A) : Pack A :=
  MkPack size clen len e d (fun _ => d).

(** Buffers are shorter than 2^56 bytes, so [remaining << 8] keeps all bits. *)
Definition MAX_BUF : Z := 2 ^ 56.

Class PackOk {A} (P : Pack A) (wf : A → Prop) : Prop := {
  encoded_len_nonneg a : wf a → 0 ≤ encoded_len P a;
  encode_spec a : wf a → encoded_len P a < MAX_BUF →
    ∃ bs, encode P a = (bs, Ok ()) ∧ zlen bs = encoded_len P a ∧
      ∀ rest, zlen (bs ++ rest) < MAX_BUF → decode P (bs ++ rest) = (Ok a, rest)
}.

Class PackSafe {A} (P : Pack A) : Prop := decode_safe : safe (decode P).
#[export] Hint Extern 1 (safe (decode _)) => apply decode_safe : netidx.

(** ** Fixed width integers and floats *)

(** Unsigned and signed integers of [n] bytes; a float is its bit pattern. *)
Record uint (n : nat) := UInt { uval : Z }.
Record sint (n : nat) := SInt { sval : Z }.
Record fbits (n : nat) := FBits { fval : Z }.
Arguments UInt {n} _.
Arguments uval {n} _.
Arguments SInt {n} _.
Arguments sval {n} _.
Arguments FBits {n} _.
Arguments fval {n} _.

#[export] Instance uint_eq_dec n : EqDecision (uint n).
Proof. solve_decision. Defined.
#[export] Instance sint_eq_dec n : EqDecision (sint n).
Proof. solve_decision. Defined.

Definition uint_wf {n} (x : uint n) : Prop := in_u (8 * Z.of_nat n) (uval x).
Definition sint_wf {n} (x : sint n) : Prop := in_i (8 * Z.of_nat n) (sval x).
Definition fbits_wf {n} (x : fbits n) : Prop := in_u (8 * Z.of_nat n) (fval x).

(** [buf.get_uN()] / [copy_to_slice] for [n] bytes: panics when short. *)
Definition dtake (n : Z) : dec PackError (list byte) := fun bs =>
  if zlen bs <? n then (Panic, bs)
  else (Ok (take (Z.to_nat n) bs), drop (Z.to_nat n) bs).

(** The shape every fixed width implementation shares: check [remaining],
    then read. *)
Definition get_fixed {A} (n : Z) (f : list byte → A) : dec PackError A :=
  let! rem := dremaining in
  if rem <? n then dthrow BufferShort
  else let! bs := dtake n in dret (f bs).

Definition uint_pack (n : nat) : Pack (uint n) :=
  simple_pack (Z.of_nat n) (Some (Z.of_nat n)) (fun _ => Z.of_nat n)
    (fun x => put (be_bytes n (uval x)))
    (get_fixed (Z.of_nat n) (fun bs => UInt (be_int bs))).

Definition sint_pack (n : nat) : Pack (sint n) :=
  simple_pack (Z.of_nat n) (Some (Z.of_nat n)) (fun _ => Z.of_nat n)
    (fun x => put (be_bytes n (sval x)))
    (get_fixed (Z.of_nat n)
       (fun bs => SInt (swrap (8 * Z.of_nat n) (be_int bs)))).

Definition fbits_pack (n : nat) : Pack (fbits n) :=
  simple_pack (Z.of_nat n) (Some (Z.of_nat n)) (fun _ => Z.of_nat n)
    (fun x => put (be_bytes n (fval x)))
    (get_fixed (Z.of_nat n) (fun bs => FBits (be_int bs))).

Abbreviation u8 := (uint 1).
Abbreviation u16 := (uint 2).
Abbreviation u32 := (uint 4).
Abbreviation u64 := (uint 8).
Abbreviation u128 := (uint 16).
Definition u8_pack : Pack u8 := uint_pack 1.
Definition u16_pack : Pack u16 := uint_pack 2.
Definition u32_pack : Pack u32 := uint_pack 4.
Definition u64_pack : Pack u64 := uint_pack 8.
Definition u128_pack : Pack u128 := uint_pack 16.
Definition i8_pack : Pack (sint 1) := sint_pack 1.
Definition i16_pack : Pack (sint 2) := sint_pack 2.
Definition i32_pack : Pack (sint 4) := sint_pack 4.
Definition i64_pack : Pack (sint 8) := sint_pack 8.
Definition i128_pack : Pack (sint 16) := sint_pack 16.
Definition f32_pack : Pack (fbits 4) := fbits_pack 4.
Definition f64_pack : Pack (fbits 8) := fbits_pack 8.

(** [usize] travels as a [u64]. *)
Record usize := Usize { usval : Z }.
Definition usize_pack : Pack usize :=
  simple_pack 8 (Some 8) (fun _ => 8)
    (fun x => encode u64_pack (UInt (usval x)))
    (let! x := decode u64_pack in dret (Usize (uval x))).

(** [Z64]: a [u64] as a varint. *)
Record Z64 := MkZ64 { z64 : Z }.
#[export] Instance Z64_eq_dec : EqDecision Z64.
Proof. solve_decision. Defined.
Definition Z64_pack : Pack Z64 :=
  simple_pack 8 None (fun x => varint_len (z64 x))
    (fun x => put (encode_varint (z64 x)))
    (let! v := decode_varint in dret (MkZ64 v)).

Definition bool_pack : Pack bool :=
  simple_pack 1 (Some 1) (fun _ => 1)
    (fun x : bool => put [Zb (if x then 1 else 0)])
    (let! t := decode u8_pack in
     match uval t with
     | 0 => dret false
     | 1 => dret true
     | _ => dthrow UnknownTag
     end).

Definition unit_pack : Pack unit :=
  simple_pack 0 (Some 0) (fun _ => 0) (fun _ => put []) (dret ()).

(** ** Lemmas on the primitives *)

Lemma dtake_app n bs rest :
  zlen bs = n → dtake n (bs ++ rest) = (Ok bs, rest).
Proof.
  intros <-. unfold dtake. rewrite zlen_app.
  destruct (Z.ltb_spec (zlen bs + zlen rest) (zlen bs));
    [pose proof (zlen_nonneg rest); lia|].
  unfold zlen. by rewrite Nat2Z.id, take_app_length, drop_app_length.
Qed.

Lemma get_fixed_app {A} n (f : list byte → A) bs rest :
  zlen bs = n → get_fixed n f (bs ++ rest) = (Ok (f bs), rest).
Proof.
  intros Hn. unfold get_fixed. cbn [dbind dremaining].
  unfold dbind at 1. cbn. rewrite zlen_app.
  destruct (Z.ltb_spec (zlen bs + zlen rest) n);
    [pose proof (zlen_nonneg rest); lia|].
  unfold dbind. by rewrite dtake_app.
Qed.

Lemma dtake_guarded n bs :
  n ≤ zlen bs →
  is_panic (dtake n bs).1 = false ∧ (dtake n bs).2 `suffix_of` bs ∧
  ∀ v, (dtake n bs).1 = Ok v → zlen v = Z.max 0 n.
Proof.
  intros Hn. unfold dtake. destruct (Z.ltb_spec (zlen bs) n); [lia|].
  split; [done|split; [apply suffix_drop|]]. intros v [= <-].
  unfold zlen in *. rewrite length_take. lia.
Qed.

Lemma get_fixed_safe {A} n (f : list byte → A) : safe (get_fixed n f).
Proof.
  intros bs. unfold get_fixed, dbind. cbn.
  destruct (Z.ltb_spec (zlen bs) n); [by split|].
  destruct (dtake_guarded n bs ltac:(lia)) as (? & ? & _).
  by destruct (dtake n bs) as [[]].
Qed.
#[export] Hint Resolve get_fixed_safe : netidx.

(** Reading a guarded slice whose length came from the input. *)
Lemma safe_take_guard {A} (n : Z) (k : list byte → dec PackError A) (e : PackError) :
  (∀ l, safe (k l)) →
  safe (let! rem := dremaining in
        if rem <? n then dthrow e else let! v := dtake n in k v).
Proof.
  intros Hk bs. unfold dbind. cbn. destruct (Z.ltb_spec (zlen bs) n); [by split|].
  destruct (dtake_guarded n bs ltac:(lia)) as (Hp & Hs & _).
  destruct (dtake n bs) as [[v|e'|] bs']; cbn in *; try done.
  destruct (Hk v bs'). split; [done|by etrans].
Qed.

#[export] Instance uint_ok n : PackOk (uint_pack n) uint_wf.
Proof.
  split; [intros; simpl; lia|]. intros a Ha _. exists (be_bytes n (uval a)).
  split; [done|split; [apply be_bytes_zlen|]]. intros rest _. simpl.
  rewrite get_fixed_app, be_int_bytes, wrap_small by auto using be_bytes_zlen.
  by destruct a.
Qed.

#[export] Instance sint_ok n `{!TCEq (Nat.ltb 0 n) true} : PackOk (sint_pack n) sint_wf.
Proof.
  assert (0 < n)%nat as Hn by (apply Nat.ltb_lt; by destruct TCEq0).
  split; [intros; simpl; lia|]. intros a Ha _. exists (be_bytes n (sval a)).
  split; [done|split; [apply be_bytes_zlen|]]. intros rest _. simpl.
  rewrite get_fixed_app, be_int_bytes by apply be_bytes_zlen.
  rewrite swrap_wrap, swrap_small by (unfold sint_wf in Ha; auto with lia).
  by destruct a.
Qed.

#[export] Instance fbits_ok n : PackOk (fbits_pack n) fbits_wf.
Proof.
  split; [intros; simpl; lia|]. intros a Ha _. exists (be_bytes n (fval a)).
  split; [done|split; [apply be_bytes_zlen|]]. intros rest _. simpl.
  rewrite get_fixed_app, be_int_bytes, wrap_small by auto using be_bytes_zlen.
  by destruct a.
Qed.

#[export] Instance uint_safe n : PackSafe (uint_pack n).
Proof. apply get_fixed_safe. Qed.
#[export] Instance sint_safe n : PackSafe (sint_pack n).
Proof. apply get_fixed_safe. Qed.
#[export] Instance fbits_safe n : PackSafe (fbits_pack n).
Proof. apply get_fixed_safe. Qed.

Lemma decode_uint n x rest :
  in_u (8 * Z.of_nat n) x →
  decode (uint_pack n) (be_bytes n x ++ rest) = (Ok (UInt x), rest).
Proof.
  intros Hx. simpl. by rewrite get_fixed_app, be_int_bytes, wrap_small
    by auto using be_bytes_zlen.
Qed.

(** Decoding the one byte tags enums use. *)
Lemma decode_tag x rest :
  0 ≤ x < 256 → decode u8_pack (Zb x :: rest) = (Ok (UInt x), rest).
Proof.
  intros. change (Zb x :: rest) with (be_bytes 1 x ++ rest). by apply decode_uint.
Qed.

Lemma decode_tag_nil : decode u8_pack [] = (Err BufferShort, []).
Proof. done. Qed.

#[export] Instance usize_ok : PackOk usize_pack (fun x => in_u 64 (usval x)).
Proof.
  split; [intros; simpl; lia|]. intros a Ha _. exists (be_bytes 8 (usval a)).
  split; [done|split; [done|]]. intros rest _. unfold usize_pack. cbn [decode simple_pack].
  rewrite (dbind_ok _ _ _ _ _ (decode_uint 8 _ _ Ha)). by destruct a.
Qed.
#[export] Instance usize_safe : PackSafe usize_pack.
Proof. unfold PackSafe. cbn [decode usize_pack simple_pack]. solve_safe. Qed.

Definition z64_wf (x : Z64) : Prop := in_u 64 (z64 x).

#[export] Instance Z64_ok : PackOk Z64_pack z64_wf.
Proof.
  split; intros a Ha; simpl; [destruct (varint_len_bounds _ Ha); lia|].
  intros _. eexists. split; [done|split; [by apply encode_varint_zlen|]]. intros rest _.
  rewrite (dbind_ok _ _ _ _ _ (decode_encode_varint _ _ Ha)). by destruct a.
Qed.
#[export] Instance Z64_safe : PackSafe Z64_pack.
Proof. unfold PackSafe. simpl. solve_safe. Qed.

#[export] Instance bool_ok : PackOk bool_pack (fun _ => True).
Proof.
  split; [intros; simpl; lia|]. intros a _ _. eexists. split; [done|split; [done|]].
  intros rest _. cbn [decode bool_pack simple_pack app].
  destruct a.
  - by rewrite (dbind_ok _ _ _ _ _ (decode_tag 1 rest ltac:(lia))).
  - by rewrite (dbind_ok _ _ _ _ _ (decode_tag 0 rest ltac:(lia))).
Qed.
#[export] Instance bool_safe : PackSafe bool_pack.
Proof. unfold PackSafe. cbn [decode bool_pack simple_pack]. solve_safe. Qed.

#[export] Instance unit_ok : PackOk unit_pack (fun _ => True).
Proof. split; [done|]. intros [] _ _. by exists []. Qed.
#[export] Instance unit_safe : PackSafe unit_pack.
Proof. apply safe_ret. Qed.

(** ** Memory layout

    [mem::size_of] of a composite or library type is the compiler's choice:
    [layout "T" args] is the size of [T<..args..>], [args] being the sizes of
    its parameters. It only enters the size checks of the containers. *)
Class Layout := layout : string → list Z → Z.

(** ** Byte strings and strings *)

Section Strings.
Context {LY : Layout}.

(** The encoding [Bytes] and all string types share: a varint length, then the
    bytes. *)
Definition blob_len (s : str) : Z := varint_len (zlen s) + zlen s.
Definition blob_encode (s : str) : enc PackError :=
  put (encode_varint (zlen s)) ;;; put s.

(** [impl Pack for Bytes] *)
Definition Bytes_pack : Pack str :=
  simple_pack (layout "Bytes" []) None blob_len blob_encode
    (let! len := decode_varint in
     let! rem := dremaining in
     if rem <? len then dthrow TooBig
     else let! v := dtake len in dret v).

(** [impl Pack for BoundedBytes<L>] *)
Definition BoundedBytes_pack (L : Z) : Pack str :=
  simple_pack (layout "BoundedBytes" []) None blob_len
    (fun s => if L <? zlen s then ethrow TooBig else blob_encode s)
    (let! len := decode_varint in
     let! rem := dremaining in
     if (L <? len) || (rem <? len) then dthrow TooBig
     else let! v := dtake len in dret v).

(** [String::from_utf8] and the check that follows it *)
Definition check_utf8 (v : str) : dec PackError str :=
  if utf8_valid v then dret v else dthrow InvalidFormat.

(** The decoder of [String], [CompactString], [Arc<str>] and
    [triomphe::Arc<str>]: copy [len] bytes out, then validate. *)
Definition copied_str_decode : dec PackError str :=
  let! len := decode_varint in
  let! rem := dremaining in
  if rem <? len then dthrow TooBig
  else let! v := dtake len in check_utf8 v.

Definition String_pack : Pack str :=
  simple_pack (layout "String" []) None blob_len blob_encode copied_str_decode.
Definition CompactString_pack : Pack str :=
  simple_pack (layout "CompactString" []) None blob_len blob_encode copied_str_decode.
Definition ArcOfStr_pack : Pack str :=
  simple_pack (layout "Arc<str>" []) None blob_len blob_encode copied_str_decode.
Definition TriompheArcOfStr_pack : Pack str :=
  simple_pack (layout "triomphe::Arc<str>" []) None blob_len blob_encode
    copied_str_decode.

(** [impl Pack for ArrayString<C>] *)
Definition ArrayString_pack (C : Z) : Pack str :=
  simple_pack (layout "ArrayString" [C]) None blob_len blob_encode
    (let! len := decode_varint in
     let! rem := dremaining in
     if (rem <? len) || (C <? len) then dthrow TooBig
     else let! v := dtake len in check_utf8 v).

(** [impl Pack for ArcStr]: validates in place, then advances in either case *)
Definition ArcStr_pack : Pack str :=
  simple_pack (layout "ArcStr" []) None blob_len blob_encode
    (let! len := decode_varint in
     let! rem := dremaining in
     if rem <? len then dthrow TooBig
     else fun bs =>
       let v := take (Z.to_nat len) bs in
       (if utf8_valid v then Ok v else Err InvalidFormat, drop (Z.to_nat len) bs)).

(** [impl Pack for anyhow::Error]: an error is its message; a short buffer is
    [BufferShort] here. *)
Definition anyhow_pack : Pack str :=
  simple_pack (layout "anyhow::Error" []) None blob_len blob_encode
    (let! len := decode_varint in
     let! rem := dremaining in
     if rem <? len then dthrow BufferShort
     else let! v := dtake len in check_utf8 v).

(** A Rust allocation is at most [isize::MAX] bytes. *)
Definition bytes_wf (s : str) : Prop := in_u 63 (zlen s).
Definition str_wf (s : str) : Prop := utf8_valid s = true ∧ bytes_wf s.

Lemma in_u_63_64 z : in_u 63 z → in_u 64 z.
Proof. unfold in_u. lia. Qed.

Lemma blob_ok (P : Pack str) (wf : str → Prop) :
  encoded_len P = blob_len → (∀ s, wf s → encode P s = blob_encode s) →
  (∀ s, wf s → bytes_wf s) →
  (∀ s rest, wf s → decode P (encode_varint (zlen s) ++ s ++ rest) = (Ok s, rest)) →
  PackOk P wf.
Proof.
  intros Hl He Hw Hd. split.
  - intros s Hs%Hw%in_u_63_64. rewrite Hl. unfold blob_len.
    destruct (varint_len_bounds _ Hs). pose proof (zlen_nonneg s). lia.
  - intros s Hs _. exists (encode_varint (zlen s) ++ s).
    rewrite He, Hl by done. split; [done|]. split.
    + rewrite zlen_app, encode_varint_zlen; [done|]. by apply in_u_63_64, Hw.
    + intros rest _. rewrite <- app_assoc. by apply Hd.
Qed.

(** Running a length-guarded decoder on a blob of an accepted length. *)
Lemma blob_decode {A} (s : str) rest (g : Z → Z → bool) e (k : str → dec PackError A) :
  bytes_wf s → g (zlen s + zlen rest) (zlen s) = false →
  (let! len := decode_varint in
   let! rem := dremaining in
   if g rem len then dthrow e else let! v := dtake len in k v)
    (encode_varint (zlen s) ++ s ++ rest) = k s rest.
Proof.
  intros Hs Hg. rewrite (dbind_ok _ _ _ _ _ (decode_encode_varint _ _ (in_u_63_64 _ Hs))).
  unfold dbind at 1. cbn [dremaining]. rewrite zlen_app, Hg.
  by rewrite (dbind_ok _ _ _ _ _ (dtake_app _ s rest eq_refl)).
Qed.

Lemma check_utf8_ok s rest : utf8_valid s = true → check_utf8 s rest = (Ok s, rest).
Proof. unfold check_utf8. by intros ->. Qed.

Lemma rem_ltb_false (s rest : str) : (zlen s + zlen rest <? zlen s) = false.
Proof. apply Z.ltb_ge. pose proof (zlen_nonneg rest). lia. Qed.

#[export] Instance Bytes_ok : PackOk Bytes_pack bytes_wf.
Proof.
  apply blob_ok; [done..|]. intros s rest Hs.
  exact (blob_decode s rest (fun rem len => rem <? len) _ dret Hs (rem_ltb_false _ _)).
Qed.

#[export] Instance BoundedBytes_ok L :
  PackOk (BoundedBytes_pack L) (fun s => bytes_wf s ∧ zlen s ≤ L).
Proof.
  apply blob_ok; [done| |by intros s []|].
  - intros s [_ Hl]. cbn. by destruct (Z.ltb_spec L (zlen s)); [lia|].
  - intros s rest [Hs Hl].
    apply (blob_decode s rest (fun rem len => (L <? len) || (rem <? len)) _ dret Hs).
    cbn. rewrite rem_ltb_false, orb_false_r. by apply Z.ltb_ge.
Qed.

Lemma copied_str_decode_ok s rest :
  str_wf s → copied_str_decode (encode_varint (zlen s) ++ s ++ rest) = (Ok s, rest).
Proof.
  intros [Hv Hs]. rewrite <- (check_utf8_ok s rest Hv).
  exact (blob_decode s rest (fun rem len => rem <? len) _ check_utf8 Hs (rem_ltb_false _ _)).
Qed.

#[export] Instance String_ok : PackOk String_pack str_wf.
Proof. apply blob_ok; [done..|by intros ? []|apply copied_str_decode_ok]. Qed.
#[export] Instance CompactString_ok : PackOk CompactString_pack str_wf.
Proof. apply blob_ok; [done..|by intros ? []|apply copied_str_decode_ok]. Qed.
#[export] Instance ArcOfStr_ok : PackOk ArcOfStr_pack str_wf.
Proof. apply blob_ok; [done..|by intros ? []|apply copied_str_decode_ok]. Qed.
#[export] Instance TriompheArcOfStr_ok : PackOk TriompheArcOfStr_pack str_wf.
Proof. apply blob_ok; [done..|by intros ? []|apply copied_str_decode_ok]. Qed.

#[export] Instance anyhow_ok : PackOk anyhow_pack str_wf.
Proof.
  apply blob_ok; [done..|by intros ? []|]. intros s rest [Hv Hs].
  rewrite <- (check_utf8_ok s rest Hv).
  exact (blob_decode s rest (fun rem len => rem <? len) _ check_utf8 Hs (rem_ltb_false _ _)).
Qed.

#[export] Instance ArrayString_ok C :
  PackOk (ArrayString_pack C) (fun s => str_wf s ∧ zlen s ≤ C).
Proof.
  apply blob_ok; [done..|by intros ? [[] ?]|]. intros s rest [[Hv Hs] HC].
  rewrite <- (check_utf8_ok s rest Hv).
  apply (blob_decode s rest (fun rem len => (rem <? len) || (C <? len)) _ check_utf8 Hs).
  cbn. rewrite rem_ltb_false. cbn. by apply Z.ltb_ge.
Qed.

#[export] Instance ArcStr_ok : PackOk ArcStr_pack str_wf.
Proof.
  apply blob_ok; [done..|by intros ? []|]. intros s rest [Hv Hs].
  cbn [decode ArcStr_pack simple_pack].
  rewrite (dbind_ok _ _ _ _ _ (decode_encode_varint _ _ (in_u_63_64 _ Hs))).
  unfold dbind. cbn [dremaining]. rewrite zlen_app, rem_ltb_false.
  unfold zlen. rewrite Nat2Z.id, take_app_length, drop_app_length. by rewrite Hv.
Qed.

Lemma safe_check_utf8 v : safe (check_utf8 v).
Proof. unfold check_utf8. solve_safe. Qed.
#[local] Hint Resolve safe_check_utf8 : netidx.

(** Guarded reads whose guard also rejects for another reason. *)
Lemma safe_take_guard2 {A} (n : Z) (g : bool) (k : list byte → dec PackError A) e :
  (∀ l, safe (k l)) →
  safe (let! rem := dremaining in
        if (rem <? n) || g then dthrow e else let! v := dtake n in k v) ∧
  safe (let! rem := dremaining in
        if g || (rem <? n) then dthrow e else let! v := dtake n in k v).
Proof.
  intros Hk. split; intros bs; pose proof (safe_take_guard n k e Hk bs) as H;
    unfold dbind in *; cbn in *; destruct g; rewrite ?orb_true_r, ?orb_false_r;
    cbn; [by split|exact H|by split|exact H].
Qed.

Lemma copied_str_decode_safe : safe copied_str_decode.
Proof.
  apply safe_bind; [apply decode_varint_safe|]. intros n.
  apply safe_take_guard. intros. apply safe_check_utf8.
Qed.

#[export] Instance Bytes_safe : PackSafe Bytes_pack.
Proof.
  apply safe_bind; [apply decode_varint_safe|]. intros n.
  apply safe_take_guard. intros. apply safe_ret.
Qed.
#[export] Instance BoundedBytes_safe L : PackSafe (BoundedBytes_pack L).
Proof.
  apply safe_bind; [apply decode_varint_safe|]. intros n.
  apply safe_take_guard2. intros. apply safe_ret.
Qed.
#[export] Instance String_safe : PackSafe String_pack.
Proof. exact copied_str_decode_safe. Qed.
#[export] Instance CompactString_safe : PackSafe CompactString_pack.
Proof. exact copied_str_decode_safe. Qed.
#[export] Instance ArcOfStr_safe : PackSafe ArcOfStr_pack.
Proof. exact copied_str_decode_safe. Qed.
#[export] Instance TriompheArcOfStr_safe : PackSafe TriompheArcOfStr_pack.
Proof. exact copied_str_decode_safe. Qed.
#[export] Instance anyhow_safe : PackSafe anyhow_pack.
Proof.
  apply safe_bind; [apply decode_varint_safe|]. intros n.
  apply safe_take_guard. intros. apply safe_check_utf8.
Qed.
#[export] Instance ArrayString_safe C : PackSafe (ArrayString_pack C).
Proof.
  apply safe_bind; [apply decode_varint_safe|]. intros n.
  apply safe_take_guard2. intros. apply safe_check_utf8.
Qed.
#[export] Instance ArcStr_safe : PackSafe ArcStr_pack.
Proof.
  apply safe_bind; [apply decode_varint_safe|]. intros n.
  apply safe_bind; [apply safe_remaining|]. intros rem. apply safe_if; [apply safe_throw|].
  intros bs. cbn. split; [by destruct (utf8_valid _)|apply suffix_drop].
Qed.

End Strings.
