(* ===== verification/Containers.v ===== *)
(** Pack for the structural types of pack.rs: pointers, [Option], [Result],
    [Bound], tuples, arrays, vectors, maps and sets. A container is well formed
    when its elements are and its size passes the checks both sides make; the
    laws of [PackOk] and [PackSafe] then follow from those of the elements. *)
From Stdlib Require Import ZArith Lia.
From stdpp Require Import base gmap list strings sorting.
From Stdlib Require Import Strings.Byte.
From S2P Require Import Prelude Varint Pack.

(** ** Composing encoders *)

Lemma dbind_encodes {A B} (P : Pack A) (a : A) bs rest (k : A → dec PackError B) :
  (∀ rest, zlen (bs ++ rest) < MAX_BUF → decode P (bs ++ rest) = (Ok a, rest)) →
  zlen (bs ++ rest) < MAX_BUF →
  dbind (decode P) k (bs ++ rest) = k a rest.
Proof. intros Hd Hs. apply dbind_ok. by apply Hd. Qed.

Lemma eseq_put {E} (w1 w2 : list byte) :
  eseq (E := E) (w1, Ok ()) (w2, Ok ()) = (w1 ++ w2, Ok ()).
Proof. done. Qed.

Lemma put_eseq {E} w (e : enc E) : eseq (put w) e = (w ++ e.1, e.2).
Proof. done. Qed.

(** [pack_elem P a] : the bytes of the component [a]. *)
Ltac pack_elem P a :=
  let bs := fresh "bs" in
  let He := fresh "He" in
  let Hl := fresh "Hl" in
  let Hd := fresh "Hd" in
  destruct (encode_spec (P := P) a) as (bs & He & Hl & Hd);
    [by eauto|by eauto with lia|].

(** Finishes a decoding goal by running the components' decoders in turn. *)
Ltac pack_run := repeat
  (rewrite <- ?app_assoc;
   first [ erewrite dbind_encodes by (eassumption || (autorewrite with nbytes in *; lia))
         | reflexivity ]).

(** ** Pointers, options, results and bounds *)

Section Structural.
Context {LY : Layout}.

(** [Arc<T>], [triomphe::Arc<T>], [Box<T>] encode as [T]. *)
Definition ptr_pack {A} (name : string) (P : Pack A) : Pack A :=
  simple_pack (layout name [size_of P]) None (encoded_len P) (encode P)
    (let! x := decode P in dret x).
Definition Arc_pack {A} (P : Pack A) : Pack A := ptr_pack "Arc" P.
Definition TriompheArc_pack {A} (P : Pack A) : Pack A := ptr_pack "triomphe::Arc" P.
Definition Box_pack {A} (P : Pack A) : Pack A := ptr_pack "Box" P.

(** [GPooled<T>] decodes into an object [fresh] taken from the pool. *)
Definition GPooled_pack {A} (fresh : A) (P : Pack A) : Pack A :=
  MkPack (layout "GPooled" [size_of P]) None (encoded_len P) (encode P)
    (decode_into P fresh) (decode_into P).

Definition Option_pack {A} (P : Pack A) : Pack (option A) :=
  simple_pack (layout "Option" [size_of P]) None
    (fun o => 1 + match o with None => 0 | Some v => encoded_len P v end)
    (fun o => match o with
     | None => put [Zb 0]
     | Some v => put [Zb 1] ;;; encode P v
     end)
    (let! t := decode u8_pack in
     match uval t with
     | 0 => dret None
     | 1 => let! v := decode P in dret (Some v)
     | _ => dthrow UnknownTag
     end).

(** [Result<T, U>]: [Ok] is [inl], [Err] is [inr]. *)
Definition Result_pack {A B} (P : Pack A) (Q : Pack B) : Pack (A + B) :=
  simple_pack (layout "Result" [size_of P; size_of Q]) None
    (fun r => 1 + match r with inl t => encoded_len P t | inr u => encoded_len Q u end)
    (fun r => match r with
     | inl t => encode u8_pack (UInt 0) ;;; encode P t
     | inr u => encode u8_pack (UInt 1) ;;; encode Q u
     end)
    (let! t := decode u8_pack in
     match uval t with
     | 0 => let! v := decode P in dret (inl v)
     | 1 => let! v := decode Q in dret (inr v)
     | _ => dthrow UnknownTag
     end).

(** [std::ops::Bound] *)
Inductive Bound (A : Type) := Unbounded | Excluded (a : A) | Included (a : A).
Arguments Unbounded {A}.
Arguments Excluded {A} a.
Arguments Included {A} a.

Definition Bound_pack {A} (P : Pack A) : Pack (Bound A) :=
  simple_pack (layout "Bound" [size_of P]) None
    (fun x => 1 + match x with
     | Excluded t | Included t => encoded_len P t
     | Unbounded => 0
     end)
    (fun x => match x with
     | Unbounded => encode u8_pack (UInt 0)
     | Excluded t => encode u8_pack (UInt 1) ;;; encode P t
     | Included t => encode u8_pack (UInt 2) ;;; encode P t
     end)
    (let! t := decode u8_pack in
     match uval t with
     | 0 => dret Unbounded
     | 1 => let! v := decode P in dret (Excluded v)
     | 2 => let! v := decode P in dret (Included v)
     | _ => dthrow UnknownTag
     end).

(** Tuples *)
Definition tuple2_pack {A B} (P : Pack A) (Q : Pack B) : Pack (A * B) :=
  simple_pack (layout "tuple" [size_of P; size_of Q]) None
    (fun x => encoded_len P x.1 + encoded_len Q x.2)
    (fun x => encode P x.1 ;;; encode Q x.2)
    (let! fst := decode P in let! snd := decode Q in dret (fst, snd)).

Definition tuple3_pack {A B C} (P : Pack A) (Q : Pack B) (R : Pack C)
  : Pack (A * B * C) :=
  simple_pack (layout "tuple" [size_of P; size_of Q; size_of R]) None
    (fun '(x, y, z) => encoded_len P x + encoded_len Q y + encoded_len R z)
    (fun '(x, y, z) => encode P x ;;; encode Q y ;;; encode R z)
    (let! fst := decode P in let! snd := decode Q in let! trd := decode R in
     dret (fst, snd, trd)).

Definition tuple4_pack {A B C D} (P : Pack A) (Q : Pack B) (R : Pack C) (S : Pack D)
  : Pack (A * B * C * D) :=
  simple_pack (layout "tuple" [size_of P; size_of Q; size_of R; size_of S]) None
    (fun '(x, y, z, w) =>
       encoded_len P x + encoded_len Q y + encoded_len R z + encoded_len S w)
    (fun '(x, y, z, w) => encode P x ;;; encode Q y ;;; encode R z ;;; encode S w)
    (let! fst := decode P in let! snd := decode Q in let! trd := decode R in
     let! fth := decode S in dret (fst, snd, trd, fth)).

(** ** Sequences *)

Definition MAX_VEC : Z := 2 * 1024 * 1024 * 1024.

(** [usize::saturating_mul] *)
Definition saturating_mul (x y : Z) : Z := Z.min (x * y) (2 ^ 64 - 1).

(** [check_sz!]: [size] is the [size_of] of one element (or entry). *)
Definition check_sz (elts size : Z) : dec PackError unit :=
  let! rem := dremaining in
  let sz := saturating_mul elts size in
  if (MAX_VEC <? sz) || (wrap 64 (Z.shiftl rem 8) <? sz) then dthrow TooBig
  else dret ().

(** [for t in self { <T as Pack>::encode(t, buf)? }] *)
Fixpoint encode_all {A} (P : Pack A) (l : list A) : enc PackError :=
  match l with
  | [] => put []
  | t :: l => encode P t ;;; encode_all P l
  end.

(** [for _ in 0..n { data.push(<T as Pack>::decode(buf)?) }] *)
Fixpoint decode_n {A} (P : Pack A) (n : nat) : dec PackError (list A) :=
  match n with
  | O => dret []
  | S n => let! x := decode P in let! l := decode_n P n in dret (x :: l)
  end.

(** [self.iter().fold(varint_len(len), |len, t| len + t.encoded_len())] *)
Definition seq_len {A} (P : Pack A) (l : list A) : Z :=
  foldl (fun len t => len + encoded_len P t) (varint_len (zlen l)) l.

Definition seq_encode {A} (P : Pack A) (l : list A) : enc PackError :=
  put (encode_varint (zlen l)) ;;; encode_all P l.

(** Encoding with the [MAX_VEC] guard of [Vec], [VecDeque] and [SmallVec] *)
Definition seq_encode_checked {A} (P : Pack A) (size : Z) (l : list A) : enc PackError :=
  if MAX_VEC <? zlen l * size then ethrow TooBig else seq_encode P l.

Definition Vec_decode {A} (P : Pack A) : dec PackError (list A) :=
  let! elts := decode_varint in
  let! _ := check_sz elts (size_of P) in
  decode_n P (Z.to_nat elts).

(** [decode_into] pushes behind what [self] already holds. *)
Definition Vec_decode_into {A} (P : Pack A) (self : list A) : dec PackError (list A) :=
  let! elts := decode_varint in
  let! _ := check_sz elts (size_of P) in
  let! l := decode_n P (Z.to_nat elts) in
  dret (self ++ l).

Definition Vec_pack {A} (P : Pack A) : Pack (list A) :=
  MkPack (layout "Vec" []) None (seq_len P)
    (seq_encode_checked P (size_of P)) (Vec_decode P) (Vec_decode_into P).

Definition VecDeque_pack {A} (P : Pack A) : Pack (list A) :=
  MkPack (layout "VecDeque" []) None (seq_len P)
    (seq_encode_checked P (size_of P)) (Vec_decode P) (Vec_decode_into P).

Definition SmallVec_pack {A} (N : Z) (P : Pack A) : Pack (list A) :=
  simple_pack (layout "SmallVec" [N; size_of P]) None (seq_len P)
    (seq_encode_checked P (size_of P)) (Vec_decode P).

(** [Arc<[T]>] and [triomphe::Arc<[T]>]: no guard when encoding *)
Definition ArcSlice_pack {A} (P : Pack A) : Pack (list A) :=
  simple_pack (layout "Arc<[T]>" []) None (seq_len P) (seq_encode P)
    (let! v := Vec_decode P in dret v).
Definition TriompheArcSlice_pack {A} (P : Pack A) : Pack (list A) :=
  simple_pack (layout "triomphe::Arc<[T]>" []) None (seq_len P) (seq_encode P)
    (let! v := Vec_decode P in dret v).

(** [ArrayVec<T, C>]: bounded by its capacity *)
Definition ArrayVec_pack {A} (C : Z) (P : Pack A) : Pack (list A) :=
  MkPack (layout "ArrayVec" [C; size_of P]) None (seq_len P) (seq_encode P)
    (let! elts := decode_varint in
     if C <? elts then dthrow TooBig else decode_n P (Z.to_nat elts))
    (fun self =>
     let! elts := decode_varint in
     if C - zlen self <? elts then dthrow TooBig
     else let! l := decode_n P (Z.to_nat elts) in dret (self ++ l)).

(** [[T; S]]: a panic of the element decoder, and the [unwrap] of an error, are
    caught and become [InvalidFormat]. *)
Definition catch_unwind {A} (m : dec PackError A) : dec PackError A := fun bs =>
  match m bs with
  | (Ok a, bs') => (Ok a, bs')
  | (_, bs') => (Err InvalidFormat, bs')
  end.
Definition array_pack {A} (S : Z) (P : Pack A) : Pack (list A) :=
  MkPack (S * size_of P) None
    (fun l => foldl (fun len t => len + encoded_len P t) (varint_len S) l)
    (fun l => put (encode_varint S) ;;; encode_all P l)
    (let! elts := decode_varint in
     if negb (elts =? S) then dthrow InvalidFormat
     else catch_unwind (decode_n P (Z.to_nat S)))
    (fun _ =>
     let! elts := decode_varint in
     if negb (elts =? S) then dthrow InvalidFormat
     else decode_n P (Z.to_nat S)).

(** ** Maps and sets

    A map is encoded as its length and its entries in iteration order and
    decoded by inserting them one by one. [HashMap]/[HashSet] iterate in an
    order of their own ([order], any enumeration), [BTreeMap]/[BTreeSet] and
    the chunk maps in key order, [IndexMap]/[IndexSet] in insertion order. *)

Definition entry_pack {K V} (P : Pack K) (Q : Pack V) : Pack (K * V) :=
  simple_pack (size_of P + size_of Q) None
    (fun x => encoded_len P x.1 + encoded_len Q x.2)
    (fun x => encode P x.1 ;;; encode Q x.2)
    (let! k := decode P in let! v := decode Q in dret (k, v)).

Definition map_of {K V} `{Countable K} (start : gmap K V) (l : list (K * V)) : gmap K V :=
  foldl (fun m kv => <[kv.1:=kv.2]> m) start l.
Definition set_of {K} `{Countable K} (start : gset K) (l : list K) : gset K :=
  foldl (fun s k => {[k]} ∪ s) start l.

Definition HashMap_pack {K V} `{Countable K} (order : gmap K V → list (K * V))
    (P : Pack K) (Q : Pack V) : Pack (gmap K V) :=
  MkPack (layout "HashMap" []) None
    (fun m => seq_len (entry_pack P Q) (order m))
    (fun m => seq_encode_checked (entry_pack P Q) (size_of P + size_of Q) (order m))
    (let! elts := decode_varint in
     let! _ := check_sz elts (size_of P + size_of Q) in
     let! l := decode_n (entry_pack P Q) (Z.to_nat elts) in
     dret (map_of ∅ l))
    (fun self =>
     let! elts := decode_varint in
     let! _ := check_sz elts (size_of P + size_of Q) in
     let! l := decode_n (entry_pack P Q) (Z.to_nat elts) in
     dret (map_of self l)).

Definition HashSet_pack {K} `{Countable K} (order : gset K → list K)
    (P : Pack K) : Pack (gset K) :=
  MkPack (layout "HashSet" []) None
    (fun s => seq_len P (order s))
    (fun s => seq_encode_checked P (size_of P) (order s))
    (let! elts := decode_varint in
     let! _ := check_sz elts (size_of P) in
     let! l := decode_n P (Z.to_nat elts) in
     dret (set_of ∅ l))
    (fun self =>
     let! elts := decode_varint in
     let! _ := check_sz elts (size_of P) in
     let! l := decode_n P (Z.to_nat elts) in
     dret (set_of self l)).

End Structural.

Arguments Unbounded {A}.
Arguments Excluded {A} a.
Arguments Included {A} a.

Section OrderedMaps.
Context {LY : Layout}.

(** [BTreeMap]/[BTreeSet]: iteration in increasing key order *)
Definition by_key {K V} (R : K → K → Prop) : K * V → K * V → Prop :=
  fun x y => R x.1 y.1.
#[export] Instance by_key_dec {K V} (R : K → K → Prop) `{!RelDecision R} :
  RelDecision (@by_key K V R).
Proof. intros x y. unfold by_key. apply _. Defined.

Definition BTreeMap_pack {K V} `{Countable K} (R : K → K → Prop) `{!RelDecision R}
    (P : Pack K) (Q : Pack V) : Pack (gmap K V) :=
  HashMap_pack (fun m => merge_sort (by_key R) (map_to_list m)) P Q.

Definition BTreeSet_pack {K} `{Countable K} (R : K → K → Prop) `{!RelDecision R}
    (P : Pack K) : Pack (gset K) :=
  HashSet_pack (fun s => merge_sort R (elements s)) P.

(** [IndexMap]/[IndexSet]: an insertion keeps the position of a present key and
    appends a new one. *)
Fixpoint index_insert {K V} `{EqDecision K} (k : K) (v : V) (l : list (K * V))
  : list (K * V) :=
  match l with
  | [] => [(k, v)]
  | (k', v') :: l =>
      if decide (k = k') then (k', v) :: l else (k', v') :: index_insert k v l
  end.
Definition index_of {K V} `{EqDecision K} (start l : list (K * V)) : list (K * V) :=
  foldl (fun m kv => index_insert kv.1 kv.2 m) start l.

Definition IndexMap_pack {K V} `{EqDecision K} (P : Pack K) (Q : Pack V)
  : Pack (list (K * V)) :=
  MkPack (layout "IndexMap" []) None (seq_len (entry_pack P Q))
    (seq_encode_checked (entry_pack P Q) (size_of P + size_of Q))
    (let! elts := decode_varint in
     let! _ := check_sz elts (size_of P + size_of Q) in
     let! l := decode_n (entry_pack P Q) (Z.to_nat elts) in
     dret (index_of [] l))
    (fun self =>
     let! elts := decode_varint in
     let! _ := check_sz elts (size_of P + size_of Q) in
     let! l := decode_n (entry_pack P Q) (Z.to_nat elts) in
     dret (index_of self l)).
End OrderedMaps.

(** ** Laws of the structural types *)

Section StructuralLaws.
Context {LY : Layout} {A B C D : Type}.
Context (P : Pack A) (wfA : A → Prop) `{HP : !PackOk P wfA}.
Context (Q : Pack B) (wfB : B → Prop) `{HQ : !PackOk Q wfB}.
Context (R : Pack C) (wfC : C → Prop) `{HR : !PackOk R wfC}.
Context (S : Pack D) (wfD : D → Prop) `{HS : !PackOk S wfD}.

#[export] Instance ptr_ok name : PackOk (ptr_pack name P) wfA.
Proof.
  split; intros a Ha; cbn; [by apply HP|]. intros Hlt. pack_elem P a.
  exists bs. split; [done|split; [done|]]. intros rest Hs. by rewrite (dbind_encodes P a).
Qed.

Definition option_wf (o : option A) : Prop := from_option wfA True o.

#[export] Instance Option_ok : PackOk (Option_pack P) option_wf.
Proof.
  split.
  - intros [a|] Ha; cbn in *; [pose proof (encoded_len_nonneg (P := P) a Ha)|]; lia.
  - intros [a|] Ha Hlt; cbn [encoded_len Option_pack simple_pack option_wf from_option] in *.
    + pose proof (encoded_len_nonneg (P := P) a Ha). pack_elem P a.
      exists (Zb 1 :: bs). cbn [encode Option_pack simple_pack]. rewrite put_eseq, He.
      split; [done|split; [rewrite zlen_cons; lia|]]. intros rest Hs.
      cbn [decode Option_pack simple_pack app].
      rewrite (dbind_ok _ _ _ _ _ (decode_tag 1 _ ltac:(lia))). cbn [uval].
      cbn [app] in Hs. rewrite zlen_cons in Hs. by rewrite (dbind_encodes P a) by (done || lia).
    + exists [Zb 0]. split; [done|split; [done|]]. intros rest Hs.
      cbn [decode Option_pack simple_pack app].
      by rewrite (dbind_ok _ _ _ _ _ (decode_tag 0 _ ltac:(lia))).
Qed.

Definition result_wf (r : A + B) : Prop :=
  match r with inl a => wfA a | inr x => wfB x end.

#[export] Instance Result_ok : PackOk (Result_pack P Q) result_wf.
Proof.
  split.
  - intros [a|x] H; cbn in *;
      [pose proof (encoded_len_nonneg (P := P) a H)
      |pose proof (encoded_len_nonneg (P := Q) x H)]; lia.
  - intros [a|x] H Hlt; cbn [encoded_len Result_pack simple_pack result_wf] in *.
    + pack_elem P a. exists (Zb 0 :: bs). cbn [encode Result_pack simple_pack].
      rewrite He. split; [done|split; [rewrite zlen_cons; lia|]]. intros rest Hs.
      cbn [decode Result_pack simple_pack app] in *. rewrite zlen_cons in Hs.
      rewrite (dbind_ok _ _ _ _ _ (decode_tag 0 _ ltac:(lia))). cbn [uval].
      by rewrite (dbind_encodes P a) by (done || lia).
    + pack_elem Q x. exists (Zb 1 :: bs). cbn [encode Result_pack simple_pack].
      rewrite He. split; [done|split; [rewrite zlen_cons; lia|]]. intros rest Hs.
      cbn [decode Result_pack simple_pack app] in *. rewrite zlen_cons in Hs.
      rewrite (dbind_ok _ _ _ _ _ (decode_tag 1 _ ltac:(lia))). cbn [uval].
      by rewrite (dbind_encodes Q x) by (done || lia).
Qed.

Definition bound_wf (x : Bound A) : Prop :=
  match x with Unbounded => True | Excluded a | Included a => wfA a end.

Lemma bound_case_ok (t : Z) (f : A → Bound A) a :
  0 ≤ t < 256 → wfA a → 1 + encoded_len P a < MAX_BUF →
  (∀ rest', (let! x := decode P in dret (f x)) rest' =
     match UInt (n := 1) t with
     | UInt 1 => (let! v := decode P in dret (Excluded v)) rest'
     | UInt 2 => (let! v := decode P in dret (Included v)) rest'
     | UInt 0 => dret Unbounded rest'
     | _ => dthrow UnknownTag rest'
     end) →
  ∃ bs, (encode u8_pack (UInt t) ;;; encode P a) = (bs, Ok ()) ∧
    zlen bs = 1 + encoded_len P a ∧
    ∀ rest, zlen (bs ++ rest) < MAX_BUF →
      decode (Bound_pack P) (bs ++ rest) = (Ok (f a), rest).
Proof.
  intros Ht Ha Hlt Hdisp. pack_elem P a. exists (Zb t :: bs). rewrite He.
  split; [done|split; [rewrite zlen_cons; lia|]]. intros rest Hs.
  cbn [decode Bound_pack simple_pack app] in *. rewrite zlen_cons in Hs.
  rewrite (dbind_ok _ _ _ _ _ (decode_tag t _ Ht)). cbn [uval].
  transitivity ((let! x := decode P in dret (f x)) (bs ++ rest)).
  - rewrite Hdisp. destruct t as [|[[]|[]|]|]; done.
  - by rewrite (dbind_encodes P a) by (done || lia).
Qed.

#[export] Instance Bound_ok : PackOk (Bound_pack P) bound_wf.
Proof.
  split.
  - intros [|a|a] H; cbn in *; try pose proof (encoded_len_nonneg (P := P) a H); lia.
  - intros [|a|a] H Hlt; cbn [encoded_len Bound_pack simple_pack bound_wf] in *.
    + exists [Zb 0]. split; [done|split; [done|]]. intros rest _.
      cbn [decode Bound_pack simple_pack app].
      by rewrite (dbind_ok _ _ _ _ _ (decode_tag 0 _ ltac:(lia))).
    + by apply (bound_case_ok 1 Excluded).
    + by apply (bound_case_ok 2 Included).
Qed.

#[export] Instance tuple2_ok :
  PackOk (tuple2_pack P Q) (fun x => wfA x.1 ∧ wfB x.2).
Proof.
  split; intros [x y] [Hx Hy]; cbn in *;
    pose proof (encoded_len_nonneg (P := P) x Hx);
    pose proof (encoded_len_nonneg (P := Q) y Hy); [lia|]. intros Hlt.
  pack_elem P x. pack_elem Q y. exists (bs ++ bs0). rewrite He, He0.
  split; [done|split; [autorewrite with nbytes; lia|]]. intros rest Hs. pack_run.
Qed.

#[export] Instance entry_ok :
  PackOk (entry_pack P Q) (fun x => wfA x.1 ∧ wfB x.2).
Proof. split; intros; by apply tuple2_ok. Qed.

#[export] Instance tuple3_ok :
  PackOk (tuple3_pack P Q R) (fun '(x, y, z) => wfA x ∧ wfB y ∧ wfC z).
Proof.
  split; intros [[x y] z] (Hx & Hy & Hz); cbn in *;
    pose proof (encoded_len_nonneg (P := P) x Hx);
    pose proof (encoded_len_nonneg (P := Q) y Hy);
    pose proof (encoded_len_nonneg (P := R) z Hz); [lia|]. intros Hlt.
  pack_elem P x. pack_elem Q y. pack_elem R z. exists (bs ++ bs0 ++ bs1).
  rewrite He, He0, He1.
  split; [done|split; [autorewrite with nbytes; lia|]]. intros rest Hs. pack_run.
Qed.

#[export] Instance tuple4_ok :
  PackOk (tuple4_pack P Q R S)
    (fun '(x, y, z, w) => wfA x ∧ wfB y ∧ wfC z ∧ wfD w).
Proof.
  split; intros [[[x y] z] w] (Hx & Hy & Hz & Hw); cbn in *;
    pose proof (encoded_len_nonneg (P := P) x Hx);
    pose proof (encoded_len_nonneg (P := Q) y Hy);
    pose proof (encoded_len_nonneg (P := R) z Hz);
    pose proof (encoded_len_nonneg (P := S) w Hw); [lia|]. intros Hlt.
  pack_elem P x. pack_elem Q y. pack_elem R z. pack_elem S w.
  exists (bs ++ bs0 ++ bs1 ++ bs2). rewrite He, He0, He1, He2.
  split; [done|split; [autorewrite with nbytes; lia|]]. intros rest Hs. pack_run.
Qed.
End StructuralLaws.

(** ** Laws of the sequences *)

Definition sum_len {A} (P : Pack A) (l : list A) : Z :=
  foldr (fun t n => encoded_len P t + n) 0 l.

Lemma sum_len_cons {A} (P : Pack A) t l :
  sum_len P (t :: l) = encoded_len P t + sum_len P l.
Proof. done. Qed.

Lemma foldl_len {A} (P : Pack A) l n :
  foldl (fun len t => len + encoded_len P t) n l = n + sum_len P l.
Proof.
  revert n; induction l as [|t l IH]; intros n; cbn [foldl]; [unfold sum_len; cbn; lia|].
  rewrite IH. unfold sum_len. cbn [foldr]. lia.
Qed.

Lemma seq_len_sum {A} (P : Pack A) l : seq_len P l = varint_len (zlen l) + sum_len P l.
Proof. apply foldl_len. Qed.

(** A sequence both sides accept, with elements of [size] bytes in memory: the
    decoder's guess of 256 bytes of memory per remaining byte covers it. *)
Definition seq_wf {A} (P : Pack A) (size : Z) (wf : A → Prop) (l : list A) : Prop :=
  Forall wf l ∧ in_u 63 (zlen l) ∧ zlen l * size ≤ MAX_VEC ∧
  zlen l * size ≤ 256 * sum_len P l.

Section SequenceLaws.
Context {LY : Layout} {A : Type} (P : Pack A) (wf : A → Prop) `{HP : !PackOk P wf}.

Lemma sum_len_nonneg l : Forall wf l → 0 ≤ sum_len P l.
Proof.
  induction 1 as [|x l Hx Hl IH]; [done|]. rewrite sum_len_cons.
  pose proof (encoded_len_nonneg (P := P) x Hx). lia.
Qed.

Lemma encode_all_spec l :
  Forall wf l → sum_len P l < MAX_BUF →
  ∃ bs, encode_all P l = (bs, Ok ()) ∧ zlen bs = sum_len P l ∧
    ∀ rest, zlen (bs ++ rest) < MAX_BUF →
      decode_n P (length l) (bs ++ rest) = (Ok l, rest).
Proof.
  induction l as [|x l IH]; intros Hwf Hlt.
  { by exists []. }
  apply Forall_cons in Hwf as [Hx Hl]. rewrite sum_len_cons in Hlt.
  pose proof (encoded_len_nonneg (P := P) x Hx). pose proof (sum_len_nonneg l Hl).
  destruct (IH Hl ltac:(lia)) as (bs' & He' & Hl' & Hd'). pack_elem P x.
  exists (bs ++ bs'). cbn [encode_all]. rewrite He, He'.
  split; [done|split; [rewrite zlen_app, sum_len_cons; lia|]]. intros rest Hs.
  rewrite <- app_assoc in *. cbn [decode_n length].
  rewrite (dbind_encodes P x) by done.
  unfold dbind. rewrite Hd'; [done|].
  rewrite zlen_app in Hs. pose proof (zlen_nonneg bs). lia.
Qed.

Lemma check_sz_ok elts size bs :
  elts * size ≤ MAX_VEC → elts * size ≤ 256 * zlen bs → zlen bs < MAX_BUF →
  check_sz elts size bs = (Ok (), bs).
Proof.
  intros H1 H2 H3. unfold check_sz, dbind. cbn [dremaining]. unfold saturating_mul.
  rewrite Z.shiftl_mul_pow2 by lia. change (2 ^ 8) with 256.
  rewrite wrap_small by
    (unfold in_u; pose proof (zlen_nonneg bs); unfold MAX_BUF in H3; lia).
  destruct (Z.ltb_spec MAX_VEC (Z.min (elts * size) (2 ^ 64 - 1))); [lia|].
  destruct (Z.ltb_spec (zlen bs * 256) (Z.min (elts * size) (2 ^ 64 - 1))); [lia|done].
Qed.

(** What every container does on its own encoding: read the count, check it,
    decode that many elements. *)
Lemma seq_decode_prefix {B} size l bs rest (k : list A → dec PackError B) :
  Forall wf l → in_u 63 (zlen l) → zlen l * size ≤ MAX_VEC →
  zlen l * size ≤ 256 * sum_len P l → zlen bs = sum_len P l →
  zlen (encode_varint (zlen l) ++ bs ++ rest) < MAX_BUF →
  decode_n P (length l) (bs ++ rest) = (Ok l, rest) →
  (let! elts := decode_varint in
   let! _ := check_sz elts size in
   let! l := decode_n P (Z.to_nat elts) in k l)
    (encode_varint (zlen l) ++ bs ++ rest) = k l rest.
Proof.
  intros Hwf Hlen Hm Hg Hz Hs Hd.
  rewrite (dbind_ok _ _ _ _ _ (decode_encode_varint _ _ (in_u_63_64 _ Hlen))).
  rewrite !zlen_app in Hs. pose proof (zlen_nonneg (encode_varint (zlen l))).
  pose proof (zlen_nonneg rest).
  rewrite (dbind_ok _ _ _ _ _ (check_sz_ok _ _ (bs ++ rest) Hm
    ltac:(rewrite zlen_app; lia) ltac:(rewrite zlen_app; lia))).
  unfold zlen at 1. rewrite Nat2Z.id. by rewrite (dbind_ok _ _ _ _ _ Hd).
Qed.

Lemma dbind_ret {B} (m : dec PackError B) bs : dbind m dret bs = m bs.
Proof. unfold dbind, dret. by destruct (m bs) as [[]]. Qed.

Lemma decode_n_safe n : safe (decode P) → safe (decode_n P n).
Proof. intros. induction n; cbn [decode_n]; solve_safe. Qed.

(** Any container that encodes [order a] and rebuilds [a] from it. *)
Lemma container_ok {B} (C : Pack B) (size : Z) (order : B → list A)
    (build : list A → B) (wfB : B → Prop) :
  (∀ x, encoded_len C x = seq_len P (order x)) →
  (∀ x, wfB x → encode C x = seq_encode P (order x)) →
  (∀ bs, decode C bs = (let! elts := decode_varint in
     let! _ := check_sz elts size in
     let! l := decode_n P (Z.to_nat elts) in dret (build l)) bs) →
  (∀ x, wfB x → seq_wf P size wf (order x) ∧ build (order x) = x) →
  PackOk C wfB.
Proof.
  intros Hlen Henc Hdec Hwf. split; intros x Hx; destruct (Hwf x Hx) as
    [(Hf & H63 & Hm & Hg) Hb]; rewrite Hlen, seq_len_sum;
    destruct (varint_len_bounds _ (in_u_63_64 _ H63)) as [? _];
    pose proof (sum_len_nonneg _ Hf); [lia|].
  intros Hlt. destruct (encode_all_spec _ Hf ltac:(lia)) as (bs & He & Hl & Hd).
  exists (encode_varint (zlen (order x)) ++ bs). rewrite Henc by done.
  unfold seq_encode. rewrite He.
  split; [done|split; [rewrite zlen_app, encode_varint_zlen; [lia|by apply in_u_63_64]|]].
  intros rest Hs. rewrite <- app_assoc in *. rewrite Hdec.
  rewrite (seq_decode_prefix size (order x)); auto.
  - by rewrite Hb.
  - apply Hd. rewrite zlen_app in Hs.
    pose proof (zlen_nonneg (encode_varint (zlen (order x)))). lia.
Qed.

Lemma seq_encode_checked_ok size l :
  zlen l * size ≤ MAX_VEC → seq_encode_checked P size l = seq_encode P l.
Proof.
  intros. unfold seq_encode_checked. by destruct (Z.ltb_spec MAX_VEC (zlen l * size)); [lia|].
Qed.

Lemma Vec_decode_build bs :
  Vec_decode P bs = (let! elts := decode_varint in
     let! _ := check_sz elts (size_of P) in
     let! l := decode_n P (Z.to_nat elts) in dret l) bs.
Proof.
  unfold Vec_decode, dbind. destruct (decode_varint bs) as [[elts| |] bs1]; [|done..].
  destruct (check_sz _ _ bs1) as [[| |] bs2]; [|done..].
  by destruct (decode_n P _ bs2) as [[| |] bs3].
Qed.

#[export] Instance Vec_ok : PackOk (Vec_pack P) (seq_wf P (size_of P) wf).
Proof.
  apply (container_ok _ (size_of P) id id); [done| | |done].
  - intros l (_ & _ & Hm & _). by apply seq_encode_checked_ok.
  - apply Vec_decode_build.
Qed.
#[export] Instance VecDeque_ok : PackOk (VecDeque_pack P) (seq_wf P (size_of P) wf).
Proof. split; intros; by apply Vec_ok. Qed.
#[export] Instance SmallVec_ok N : PackOk (SmallVec_pack N P) (seq_wf P (size_of P) wf).
Proof. split; intros; by apply Vec_ok. Qed.
#[export] Instance ArcSlice_ok : PackOk (ArcSlice_pack P) (seq_wf P (size_of P) wf).
Proof.
  apply (container_ok _ (size_of P) id id); [done..| |done].
  intros bs. rewrite <- Vec_decode_build. apply dbind_ret.
Qed.
#[export] Instance TriompheArcSlice_ok :
  PackOk (TriompheArcSlice_pack P) (seq_wf P (size_of P) wf).
Proof. split; intros; by apply ArcSlice_ok. Qed.

(** [GPooled<Vec<T>>] decodes into an empty pooled vector. *)
#[export] Instance GPooledVec_ok :
  PackOk (GPooled_pack [] (Vec_pack P)) (seq_wf P (size_of P) wf).
Proof.
  apply (container_ok _ (size_of P) id id); [done| | |done].
  - intros l (_ & _ & Hm & _). by apply seq_encode_checked_ok.
  - intros bs. done.
Qed.

#[export] Instance ArrayVec_ok C :
  PackOk (ArrayVec_pack C P) (fun l => Forall wf l ∧ in_u 63 (zlen l) ∧ zlen l ≤ C).
Proof.
  split; intros l (Hf & H63 & HC); cbn [encoded_len ArrayVec_pack]; rewrite seq_len_sum;
    destruct (varint_len_bounds _ (in_u_63_64 _ H63)) as [? _];
    pose proof (sum_len_nonneg _ Hf); [lia|].
  intros Hlt. destruct (encode_all_spec _ Hf ltac:(lia)) as (bs & He & Hl & Hd).
  exists (encode_varint (zlen l) ++ bs). cbn [encode ArrayVec_pack].
  unfold seq_encode. rewrite He.
  split; [done|split; [rewrite zlen_app, encode_varint_zlen; [lia|by apply in_u_63_64]|]].
  intros rest Hs. rewrite <- app_assoc in *. cbn [decode ArrayVec_pack].
  rewrite (dbind_ok _ _ _ _ _ (decode_encode_varint _ _ (in_u_63_64 _ H63))).
  destruct (Z.ltb_spec C (zlen l)); [lia|]. unfold zlen at 1. rewrite Nat2Z.id.
  apply Hd. rewrite zlen_app in Hs.
  pose proof (zlen_nonneg (encode_varint (zlen l))). lia.
Qed.

#[export] Instance array_ok S : TCEq (0 <=? S) true → TCEq (S <? 2 ^ 63) true →
  PackOk (array_pack S P) (fun l => Forall wf l ∧ zlen l = S).
Proof.
  rewrite !TCEq_eq. intros H0%Z.leb_le H1%Z.ltb_lt.
  assert (H64 : in_u 64 S) by (unfold in_u; lia).
  split; intros l (Hf & HS); cbn [encoded_len array_pack]; rewrite foldl_len;
    destruct (varint_len_bounds _ H64) as [? _];
    pose proof (sum_len_nonneg _ Hf); [lia|].
  intros Hlt. destruct (encode_all_spec _ Hf ltac:(lia)) as (bs & He & Hl & Hd).
  exists (encode_varint S ++ bs). cbn [encode array_pack]. rewrite He.
  split; [done|split; [rewrite zlen_app, encode_varint_zlen; [lia|done]|]].
  intros rest Hs. rewrite <- app_assoc in *. cbn [decode array_pack].
  rewrite (dbind_ok _ _ _ _ _ (decode_encode_varint _ _ H64)), Z.eqb_refl. cbn [negb].
  unfold catch_unwind. rewrite <- HS. unfold zlen. rewrite Nat2Z.id.
  rewrite Hd; [done|]. rewrite zlen_app in Hs.
  pose proof (zlen_nonneg (encode_varint S)). lia.
Qed.
End SequenceLaws.

(** ** Laws of the maps and sets *)

Lemma map_of_lookup_ne {K V} `{Countable K} (l : list (K * V)) s k :
  k ∉ l.*1 → map_of s l !! k = s !! k.
Proof.
  revert s; induction l as [|[k' v'] l IH]; intros s Hk; [done|].
  cbn in *. apply not_elem_of_cons in Hk as [Hne Hk].
  unfold map_of in *. cbn. by rewrite IH, lookup_insert_ne.
Qed.

Lemma map_of_lookup {K V} `{Countable K} (l : list (K * V)) s k v :
  NoDup l.*1 → (k, v) ∈ l → map_of s l !! k = Some v.
Proof.
  revert s; induction l as [|[k' v'] l IH]; intros s Hnd Hin; [by apply not_elem_of_nil in Hin|].
  cbn in Hnd. apply NoDup_cons in Hnd as [Hnin Hnd].
  apply elem_of_cons in Hin as [[= -> ->]|Hin].
  - change (map_of (<[k':=v']> s) l !! k' = Some v').
    by rewrite map_of_lookup_ne, lookup_insert_eq.
  - change (map_of (<[k':=v']> s) l !! k = Some v). by apply IH.
Qed.

(** Rebuilding a map from any enumeration of its entries. *)
Lemma map_of_enumeration {K V} `{Countable K} (m : gmap K V) l :
  l ≡ₚ map_to_list m → map_of ∅ l = m.
Proof.
  intros Hp. apply map_eq. intros k.
  assert (Hnd : NoDup l.*1) by (rewrite Hp; apply NoDup_fst_map_to_list).
  destruct (m !! k) as [v|] eqn:E.
  - apply map_of_lookup; [done|]. rewrite Hp. by apply elem_of_map_to_list.
  - rewrite map_of_lookup_ne; [done|]. intros ([k' v] & -> & Hin)%list_elem_of_fmap.
    rewrite Hp in Hin. apply elem_of_map_to_list in Hin. cbn in E. congruence.
Qed.

Lemma elem_of_set_of {K} `{Countable K} (l : list K) s x :
  x ∈ set_of s l ↔ x ∈ s ∨ x ∈ l.
Proof.
  revert s; induction l as [|y l IH]; intros s; cbn; [set_solver|].
  change (x ∈ set_of ({[y]} ∪ s) l ↔ x ∈ s ∨ x ∈ y :: l). rewrite IH. set_solver.
Qed.

Lemma set_of_enumeration {K} `{Countable K} (s : gset K) l :
  l ≡ₚ elements s → set_of ∅ l = s.
Proof.
  intros Hp. apply set_eq. intros x. rewrite elem_of_set_of, Hp. set_solver.
Qed.

Lemma index_insert_new {K V} `{EqDecision K} (k : K) (v : V) l :
  k ∉ l.*1 → index_insert k v l = l ++ [(k, v)].
Proof.
  induction l as [|[k' v'] l IH]; intros Hk; [done|]. cbn in *.
  apply not_elem_of_cons in Hk as [Hne Hk]. rewrite decide_False by done. by rewrite IH.
Qed.

Lemma index_of_distinct {K V} `{EqDecision K} (s l : list (K * V)) :
  NoDup (s ++ l).*1 → index_of s l = s ++ l.
Proof.
  revert s; induction l as [|[k v] l IH]; intros s Hnd; [by rewrite app_nil_r|].
  change (index_of (index_insert k v s) l = s ++ (k, v) :: l).
  rewrite fmap_app in Hnd. cbn in Hnd.
  assert (k ∉ s.*1).
  { apply NoDup_app in Hnd as (_ & Hd & _). intros Hin. apply (Hd k Hin). left. }
  rewrite index_insert_new by done. rewrite IH; [by rewrite <- app_assoc|].
  rewrite <- app_assoc, fmap_app. done.
Qed.

Section MapLaws.
Context {LY : Layout} {K V : Type} `{Countable K}.
Context (P : Pack K) (wfK : K → Prop) `{HP : !PackOk P wfK}.
Context (Q : Pack V) (wfV : V → Prop) `{HQ : !PackOk Q wfV}.

Definition entry_wf (x : K * V) : Prop := wfK x.1 ∧ wfV x.2.

Lemma HashMap_ok (order : gmap K V → list (K * V)) :
  (∀ m, order m ≡ₚ map_to_list m) →
  PackOk (HashMap_pack order P Q)
    (fun m => seq_wf (entry_pack P Q) (size_of P + size_of Q) entry_wf (order m)).
Proof.
  intros Ho.
  apply (container_ok (entry_pack P Q) entry_wf _ (size_of P + size_of Q) order (map_of ∅)).
  - done.
  - intros m (_ & _ & Hm & _). by apply seq_encode_checked_ok.
  - done.
  - intros m Hm. split; [done|]. by apply map_of_enumeration.
Qed.

#[export] Instance BTreeMap_ok (R : K → K → Prop) `{!RelDecision R} :
  PackOk (BTreeMap_pack R P Q)
    (fun m => seq_wf (entry_pack P Q) (size_of P + size_of Q) entry_wf
       (merge_sort (by_key R) (map_to_list m))).
Proof. apply HashMap_ok. intros. apply merge_sort_Permutation. Qed.

#[export] Instance IndexMap_ok :
  PackOk (IndexMap_pack P Q)
    (fun l => NoDup l.*1 ∧
       seq_wf (entry_pack P Q) (size_of P + size_of Q) entry_wf l).
Proof.
  apply (container_ok (entry_pack P Q) entry_wf _ (size_of P + size_of Q) id (index_of [])).
  - done.
  - intros l (_ & _ & _ & Hm & _). by apply seq_encode_checked_ok.
  - done.
  - intros l [Hnd Hm]. split; [done|]. by apply (index_of_distinct []).
Qed.

Lemma HashSet_ok (order : gset K → list K) :
  (∀ s, order s ≡ₚ elements s) →
  PackOk (HashSet_pack order P) (fun s => seq_wf P (size_of P) wfK (order s)).
Proof.
  intros Ho. apply (container_ok P wfK _ (size_of P) order (set_of ∅)).
  - done.
  - intros s (_ & _ & Hm & _). by apply seq_encode_checked_ok.
  - done.
  - intros s Hs. split; [done|]. by apply set_of_enumeration.
Qed.

#[export] Instance BTreeSet_ok (R : K → K → Prop) `{!RelDecision R} :
  PackOk (BTreeSet_pack R P)
    (fun s => seq_wf P (size_of P) wfK (merge_sort R (elements s))).
Proof. apply HashSet_ok. intros. apply merge_sort_Permutation. Qed.
End MapLaws.

(** ** Safety of the decoders *)

Lemma check_sz_safe elts size : safe (check_sz elts size).
Proof. unfold check_sz. solve_safe. Qed.
#[export] Hint Resolve check_sz_safe : netidx.
#[export] Hint Extern 2 (safe (decode_n _ _)) => apply decode_n_safe : netidx.

Lemma catch_unwind_safe {A} (m : dec PackError A) :
  (∀ bs, (m bs).2 `suffix_of` bs) → safe (catch_unwind m).
Proof.
  intros Hm bs. unfold catch_unwind. specialize (Hm bs).
  by destruct (m bs) as [[]].
Qed.

Section Safety.
Context {LY : Layout} {A B C D : Type}.
Context (P : Pack A) `{!PackSafe P} (Q : Pack B) `{!PackSafe Q}.
Context (R : Pack C) `{!PackSafe R} (S : Pack D) `{!PackSafe S}.

#[export] Instance ptr_safe name : PackSafe (ptr_pack name P).
Proof. unfold PackSafe. cbn [decode ptr_pack simple_pack]. solve_safe. Qed.
#[export] Instance Option_safe : PackSafe (Option_pack P).
Proof. unfold PackSafe. cbn [decode Option_pack simple_pack]. solve_safe. Qed.
#[export] Instance Result_safe : PackSafe (Result_pack P Q).
Proof. unfold PackSafe. cbn [decode Result_pack simple_pack]. solve_safe. Qed.
#[export] Instance Bound_safe : PackSafe (Bound_pack P).
Proof. unfold PackSafe. cbn [decode Bound_pack simple_pack]. solve_safe. Qed.
#[export] Instance tuple2_safe : PackSafe (tuple2_pack P Q).
Proof. unfold PackSafe. cbn [decode tuple2_pack simple_pack]. solve_safe. Qed.
#[export] Instance entry_safe : PackSafe (entry_pack P Q).
Proof. unfold PackSafe. cbn [decode entry_pack simple_pack]. solve_safe. Qed.
#[export] Instance tuple3_safe : PackSafe (tuple3_pack P Q R).
Proof. unfold PackSafe. cbn [decode tuple3_pack simple_pack]. solve_safe. Qed.
#[export] Instance tuple4_safe : PackSafe (tuple4_pack P Q R S).
Proof. unfold PackSafe. cbn [decode tuple4_pack simple_pack]. solve_safe. Qed.

Lemma Vec_decode_safe : safe (Vec_decode P).
Proof. unfold Vec_decode. solve_safe. Qed.
#[local] Hint Resolve Vec_decode_safe : netidx.
#[export] Instance Vec_safe : PackSafe (Vec_pack P).
Proof. exact Vec_decode_safe. Qed.
#[export] Instance VecDeque_safe : PackSafe (VecDeque_pack P).
Proof. exact Vec_decode_safe. Qed.
#[export] Instance SmallVec_safe N : PackSafe (SmallVec_pack N P).
Proof. exact Vec_decode_safe. Qed.
#[export] Instance ArcSlice_safe : PackSafe (ArcSlice_pack P).
Proof. unfold PackSafe. cbn [decode ArcSlice_pack simple_pack]. solve_safe. Qed.
#[export] Instance TriompheArcSlice_safe : PackSafe (TriompheArcSlice_pack P).
Proof. exact ArcSlice_safe. Qed.
#[export] Instance GPooledVec_safe fresh : PackSafe (GPooled_pack fresh (Vec_pack P)).
Proof.
  unfold PackSafe. cbn [decode GPooled_pack decode_into Vec_pack].
  unfold Vec_decode_into. solve_safe.
Qed.
#[export] Instance ArrayVec_safe N : PackSafe (ArrayVec_pack N P).
Proof. unfold PackSafe. cbn [decode ArrayVec_pack]. solve_safe. Qed.
#[export] Instance array_safe N : PackSafe (array_pack N P).
Proof.
  unfold PackSafe. cbn [decode array_pack].
  apply safe_bind; [apply decode_varint_safe|]. intros e.
  apply safe_if; [apply safe_throw|]. apply catch_unwind_safe.
  intros bs. by apply decode_n_safe.
Qed.
#[export] Instance HashMap_safe `{Countable A} (order : gmap A B → list (A * B)) :
  PackSafe (HashMap_pack order P Q).
Proof. unfold PackSafe. cbn [decode HashMap_pack]. solve_safe. Qed.
#[export] Instance HashSet_safe `{Countable A} (order : gset A → list A) :
  PackSafe (HashSet_pack order P).
Proof. unfold PackSafe. cbn [decode HashSet_pack]. solve_safe. Qed.
#[export] Instance IndexMap_safe `{EqDecision A} : PackSafe (IndexMap_pack P Q).
Proof. unfold PackSafe. cbn [decode IndexMap_pack]. solve_safe. Qed.
End Safety.

(** ** Theorems *)

Lemma decode_n_length {A} (P : Pack A) n bs l rest :
  decode_n P n bs = (Ok l, rest) → length l = n.
Proof.
  revert bs l; induction n as [|n IH]; intros bs l H; [by injection H as <- _|].
  cbn [decode_n] in H. unfold dbind in H.
  destruct (decode P bs) as [[x| |] bs1]; try discriminate H.
  destruct (decode_n P n bs1) as [[l'| |] bs2] eqn:E; try discriminate H.
  injection H as <- ->. cbn. by rewrite (IH _ _ E).
Qed.

Lemma check_sz_inv elts size bs u bs' :
  check_sz elts size bs = (Ok u, bs') →
  bs' = bs ∧ elts * size ≤ MAX_VEC ∧ elts * size ≤ 256 * zlen bs.
Proof.
  unfold check_sz, dbind. cbn [dremaining]. unfold saturating_mul.
  destruct (Z.ltb_spec MAX_VEC (Z.min (elts * size) (2 ^ 64 - 1))) as [|H1]; [done|].
  destruct (Z.ltb_spec (wrap 64 (Z.shiftl (zlen bs) 8)) (Z.min (elts * size) (2 ^ 64 - 1)))
    as [|H2]; [done|]. cbn. intros [= _ <-]. split; [done|].
  assert (MAX_VEC < 2 ^ 64 - 1) by done.
  rewrite Z.shiftl_mul_pow2 in H2 by lia. change (2 ^ 8) with 256 in H2.
  assert (wrap 64 (zlen bs * 256) ≤ zlen bs * 256)
    by (apply Z.mod_le; [pose proof (zlen_nonneg bs)|]; lia).
  lia.
Qed.

(** A vector of well formed elements encodes to exactly the announced number
    of bytes and decodes back, whether read by value or into an empty pooled
    vector, provided the elements pass the size checks both sides make. *)
Theorem vec_roundtrip {LY : Layout} {A} (P : Pack A) (wf : A → Prop) l :
  PackOk P wf → seq_wf P (size_of P) wf l → encoded_len (Vec_pack P) l < MAX_BUF →
  ∃ bs, encode (Vec_pack P) l = (bs, Ok ()) ∧ zlen bs = encoded_len (Vec_pack P) l ∧
    ∀ rest, zlen (bs ++ rest) < MAX_BUF →
      decode (Vec_pack P) (bs ++ rest) = (Ok l, rest) ∧
      decode (GPooled_pack [] (Vec_pack P)) (bs ++ rest) = (Ok l, rest).
Proof.
  intros HP Hl Hlt. destruct (encode_spec (P := Vec_pack P) l Hl Hlt) as (bs & He & Hz & Hd).
  exists bs. split; [done|split; [done|]]. intros rest Hs. split; [by apply Hd|].
  destruct (encode_spec (P := GPooled_pack [] (Vec_pack P)) l Hl Hlt) as (bs' & He' & _ & Hd').
  assert (bs' = bs) as -> by (change (encode (Vec_pack P) l = (bs', Ok ())) in He'; congruence).
  by apply Hd'.
Qed.

(** Maps come back whatever order they are iterated in. For every
    enumeration [order] of the entries the hash map decoder rebuilds the map;
    the ordered map does with key order, and the index map keeps the order of
    insertion. *)
Theorem map_roundtrip {LY : Layout} {K V} `{Countable K} (P : Pack K) (Q : Pack V)
    wfK wfV (order : gmap K V → list (K * V)) (m : gmap K V) :
  PackOk P wfK → PackOk Q wfV → (∀ m, order m ≡ₚ map_to_list m) →
  seq_wf (entry_pack P Q) (size_of P + size_of Q) (entry_wf wfK wfV) (order m) →
  encoded_len (HashMap_pack order P Q) m < MAX_BUF →
  (∃ bs, encode (HashMap_pack order P Q) m = (bs, Ok ()) ∧
     ∀ rest, zlen (bs ++ rest) < MAX_BUF →
       decode (HashMap_pack order P Q) (bs ++ rest) = (Ok m, rest)) ∧
  (∃ bs, encode (IndexMap_pack P Q) (order m) = (bs, Ok ()) ∧
     ∀ rest, zlen (bs ++ rest) < MAX_BUF →
       decode (IndexMap_pack P Q) (bs ++ rest) = (Ok (order m), rest)).
Proof.
  intros HP HQ Ho Hm Hlt.
  pose proof (HashMap_ok P wfK Q wfV order Ho) as HH. split.
  - destruct (encode_spec (P := HashMap_pack order P Q) m Hm Hlt) as (bs & He & _ & Hd).
    by exists bs.
  - assert (Hnd : NoDup (order m).*1) by (rewrite Ho; apply NoDup_fst_map_to_list).
    destruct (encode_spec (P := IndexMap_pack P Q) (order m) (conj Hnd Hm) Hlt)
      as (bs & He & _ & Hd). by exists bs.
Qed.

(** A hostile length cannot make the decoder allocate. When [Vec] decodes,
    the elements take at most [MAX_VEC] bytes of memory and at most 256 for each
    byte of the input; and if the elements' decoder is safe on arbitrary bytes
    so are the containers of it. *)
Theorem containers_decode_bounded {LY : Layout} {A} (P : Pack A) bs :
  (∀ l rest, decode (Vec_pack P) bs = (Ok l, rest) →
     zlen l * size_of P ≤ MAX_VEC ∧ zlen l * size_of P ≤ 256 * zlen bs) ∧
  (PackSafe P → PackSafe (Vec_pack P) ∧ PackSafe (Option_pack P) ∧
     PackSafe (array_pack 4 P) ∧ PackSafe (GPooled_pack [] (Vec_pack (tuple2_pack P P)))).
Proof.
  split; [|intros HP; split_and!; apply _].
  intros l rest. cbn [decode Vec_pack]. unfold Vec_decode, dbind.
  destruct (decode_varint_safe bs) as [_ [pre Hpre]].
  destruct (decode_varint bs) as [[elts| |] bs1] eqn:E1; [|done..]. cbn in Hpre.
  apply decode_varint_range in E1.
  destruct (check_sz elts (size_of P) bs1) as [[u| |] bs2] eqn:E2; [|done..].
  apply check_sz_inv in E2 as (-> & H1 & H2). intros H3%decode_n_length.
  assert (zlen l = elts) as -> by (unfold zlen, in_u in *; lia).
  rewrite Hpre, zlen_app. pose proof (zlen_nonneg pre). lia.
Qed.

(** The limit of [vec_roundtrip] is real. Two absent 600 byte arrays are
    encoded in three bytes, and [Vec::decode] refuses them with [TooBig]: two
    elements need more than 256 bytes of memory per remaining byte. *)
Theorem vec_decode_rejects_sparse {LY : Layout} :
  600 < layout "Option" [600] ≤ 2 ^ 30 →
  let P := Option_pack (array_pack 600 u8_pack) in
  encode (Vec_pack P) [None; None] = ([Zb 2; Zb 0; Zb 0], Ok ()) ∧
  (decode (Vec_pack P) [Zb 2; Zb 0; Zb 0]).1 = Err TooBig.
Proof.
  intros Hl P. assert (Hsz : size_of P = layout "Option" [600]) by done.
  split.
  - cbn [encode Vec_pack]. rewrite seq_encode_checked_ok; [done|].
    rewrite Hsz. change (zlen [None; None]) with 2. unfold MAX_VEC. lia.
  - cbn [decode Vec_pack]. unfold Vec_decode.
    change [Zb 2; Zb 0; Zb 0] with (encode_varint 2 ++ [Zb 0; Zb 0]).
    rewrite (dbind_ok _ _ _ _ _ (decode_encode_varint 2 [Zb 0; Zb 0] ltac:(unfold in_u; lia))).
    unfold dbind, check_sz. cbn [dbind dremaining]. unfold dbind. cbn [dremaining].
    rewrite Hsz. unfold saturating_mul. rewrite Z.min_l by lia.
    destruct (Z.ltb_spec (wrap 64 (Z.shiftl (zlen [Zb 0; Zb 0]) 8)) (2 * layout "Option" [600]))
      as [_|H]; [by rewrite orb_true_r|].
    change (wrap 64 (Z.shiftl (zlen [Zb 0; Zb 0]) 8)) with 512 in H. lia.
Qed.

(** ** The theorems at concrete inputs *)

Definition demo_layout : Layout := fun t args =>
  if decide (t = "Option") then 1 + foldr Z.add 0 args else 8.

Lemma vec_roundtrip_witness :
  ∃ bs, encode (Vec_pack (LY := demo_layout) u16_pack) [UInt 1; UInt 65535] = (bs, Ok ()) ∧
    zlen bs = 5 ∧
    ∀ rest, zlen (bs ++ rest) < MAX_BUF →
      decode (Vec_pack (LY := demo_layout) u16_pack) (bs ++ rest) =
        (Ok [UInt 1; UInt 65535], rest) ∧
      decode (GPooled_pack (LY := demo_layout) [] (Vec_pack (LY := demo_layout) u16_pack))
        (bs ++ rest) = (Ok [UInt 1; UInt 65535], rest).
Proof.
  apply (vec_roundtrip (LY := demo_layout) u16_pack uint_wf [UInt 1; UInt 65535]).
  - apply uint_ok.
  - split; [repeat constructor; by vm_compute|]. by vm_compute.
  - by vm_compute.
Defined.

Definition demo_map : gmap str u16 := {[ lit "k" := UInt 7; lit "ab" := UInt 9 ]}.

Lemma map_roundtrip_witness :
  let P := ArcStr_pack (LY := demo_layout) in
  (∃ bs, encode (HashMap_pack (LY := demo_layout) map_to_list P u16_pack) demo_map = (bs, Ok ()) ∧
     ∀ rest, zlen (bs ++ rest) < MAX_BUF →
       decode (HashMap_pack (LY := demo_layout) map_to_list P u16_pack) (bs ++ rest)
         = (Ok demo_map, rest)) ∧
  (∃ bs, encode (IndexMap_pack (LY := demo_layout) P u16_pack) (map_to_list demo_map)
           = (bs, Ok ()) ∧
     ∀ rest, zlen (bs ++ rest) < MAX_BUF →
       decode (IndexMap_pack (LY := demo_layout) P u16_pack) (bs ++ rest)
         = (Ok (map_to_list demo_map), rest)).
Proof.
  intros P.
  apply (map_roundtrip (LY := demo_layout) P u16_pack str_wf uint_wf map_to_list demo_map).
  - apply ArcStr_ok.
  - apply uint_ok.
  - done.
  - split; [|by vm_compute].
    replace (map_to_list demo_map) with (map_to_list demo_map) by done.
    let l := eval vm_compute in (map_to_list demo_map) in
    change (map_to_list demo_map) with l.
    repeat constructor; by vm_compute.
  - by vm_compute.
Defined.

Lemma vec_decode_rejects_sparse_witness :
  (decode (Vec_pack (LY := demo_layout)
     (Option_pack (LY := demo_layout) (array_pack 600 u8_pack))) [Zb 2; Zb 0; Zb 0]).1
  = Err TooBig.
Proof. apply (vec_decode_rejects_sparse (LY := demo_layout)). by vm_compute. Defined.
