(* ===== verification/PackTypes.v ===== *)
(** Pack for addresses, times and the wrapped library types of pack.rs.
    [SocketAddr] and [Duration] are the standard library's; the chrono, decimal,
    uuid and enumflags2 types are parameters, each a class of the operations
    pack.rs calls with the laws their documentation states. *)
From Stdlib Require Import ZArith Lia.
From stdpp Require Import base gmap list strings sorting.
From Stdlib Require Import Strings.Byte.
From S2P Require Import Prelude Varint Pack Containers.

(** ** [net::SocketAddr] *)

(** The octets of an IPv4 address; the segments of an IPv6 one. *)
Inductive SocketAddr :=
| V4 (octets : list byte) (port : u16)
| V6 (segments : list u16) (port : u16) (flowinfo scope_id : u32).

#[export] Instance SocketAddr_eq_dec : EqDecision SocketAddr.
Proof. solve_decision. Defined.

Definition SocketAddr_pack : Pack SocketAddr :=
  simple_pack 32 None
    (fun a => match a with V4 _ _ => 7 | V6 _ _ _ _ => 27 end)
    (fun a => match a with
     | V4 octets port =>
         put [Zb 0] ;;; put (be_bytes 4 (be_int octets)) ;;; put (be_bytes 2 (uval port))
     | V6 segments port flowinfo scope_id =>
         put [Zb 1] ;;;
         encode_all u16_pack segments ;;;
         put (be_bytes 2 (uval port)) ;;;
         put (be_bytes 4 (uval flowinfo)) ;;;
         put (be_bytes 4 (uval scope_id))
     end)
    (let! t := decode u8_pack in
     match uval t with
     | 0 =>
         let! ip := decode u32_pack in
         let! port := decode u16_pack in
         dret (V4 (be_bytes 4 (uval ip)) port)
     | 1 =>
         let! segments := decode_n u16_pack 8 in
         let! port := decode u16_pack in
         let! flowinfo := decode u32_pack in
         let! scope_id := decode u32_pack in
         dret (V6 segments port flowinfo scope_id)
     | _ => dthrow UnknownTag
     end).

Definition addr_wf (a : SocketAddr) : Prop :=
  match a with
  | V4 octets port => length octets = 4%nat ∧ uint_wf port
  | V6 segments port flowinfo scope_id =>
      length segments = 8%nat ∧ Forall uint_wf segments ∧ uint_wf port ∧
      uint_wf flowinfo ∧ uint_wf scope_id
  end.

Lemma dbind_uint {B} n (x : uint n) rest (k : uint n → dec PackError B) :
  uint_wf x → dbind (decode (uint_pack n)) k (be_bytes n (uval x) ++ rest) = k x rest.
Proof. intros Hx. rewrite (dbind_ok _ _ _ _ _ (decode_uint n _ _ Hx)). by destruct x. Qed.

Lemma dbind_u {B} n z rest (k : uint n → dec PackError B) :
  in_u (8 * Z.of_nat n) z →
  dbind (decode (uint_pack n)) k (be_bytes n z ++ rest) = k (UInt z) rest.
Proof. intros Hz. exact (dbind_uint n (UInt z) rest k Hz). Qed.

Lemma be_int_wf l n : length l = n → in_u (8 * Z.of_nat n) (be_int l).
Proof. intros <-. apply be_int_range. Qed.

Lemma V4_ok octets port :
  addr_wf (V4 octets port) →
  ∃ bs, encode SocketAddr_pack (V4 octets port) = (bs, Ok ()) ∧ zlen bs = 7 ∧
    ∀ rest, decode SocketAddr_pack (bs ++ rest) = (Ok (V4 octets port), rest).
Proof.
  intros [Hl Hp]. exists (Zb 0 :: be_bytes 4 (be_int octets) ++ be_bytes 2 (uval port)).
  split; [done|split; [done|]]. intros rest.
  cbn [decode SocketAddr_pack simple_pack]. cbn [app].
  rewrite (dbind_ok _ _ _ _ _ (decode_tag 0 _ ltac:(lia))). cbn [uval].
  rewrite <- app_assoc. unfold u32_pack, u16_pack.
  rewrite dbind_u by (by apply be_int_wf). rewrite dbind_uint by done.
  cbn [uval]. by rewrite be_bytes_int.
Qed.

Lemma V6_ok segments port flowinfo scope_id :
  addr_wf (V6 segments port flowinfo scope_id) →
  ∃ bs, encode SocketAddr_pack (V6 segments port flowinfo scope_id) = (bs, Ok ()) ∧
    zlen bs = 27 ∧ ∀ rest, zlen (bs ++ rest) < MAX_BUF →
    decode SocketAddr_pack (bs ++ rest) = (Ok (V6 segments port flowinfo scope_id), rest).
Proof.
  intros (Hl & Hf & Hp & Hfl & Hsc).
  assert (Hsum : sum_len u16_pack segments = 16).
  { do 9 (destruct segments as [|? segments]; try discriminate Hl). done. }
  destruct (encode_all_spec u16_pack uint_wf segments Hf) as (bs & He & Hz & Hd);
    [by rewrite Hsum|].
  exists (Zb 1 :: bs ++ be_bytes 2 (uval port) ++ be_bytes 4 (uval flowinfo)
            ++ be_bytes 4 (uval scope_id)).
  cbn [encode SocketAddr_pack simple_pack]. rewrite He. split; [done|]. split.
  { autorewrite with nbytes. lia. }
  intros rest Hs. autorewrite with nbytes in Hs.
  cbn [decode SocketAddr_pack simple_pack]. cbn [app].
  rewrite (dbind_ok _ _ _ _ _ (decode_tag 1 _ ltac:(lia))). cbn [uval].
  rewrite <- !app_assoc. rewrite Hl in Hd.
  erewrite dbind_ok; [|apply Hd; autorewrite with nbytes; lia].
  unfold u32_pack, u16_pack. by rewrite !dbind_uint by done.
Qed.

#[export] Instance SocketAddr_ok : PackOk SocketAddr_pack addr_wf.
Proof.
  split; intros [o p|s p f sc] Ha; cbn [encoded_len SocketAddr_pack simple_pack]; [lia..| |];
    intros _.
  - destruct (V4_ok o p Ha) as (bs & ? & ? & ?). by exists bs.
  - destruct (V6_ok s p f sc Ha) as (bs & ? & ? & ?). by exists bs.
Qed.
#[export] Instance SocketAddr_safe : PackSafe SocketAddr_pack.
Proof. unfold PackSafe. cbn [decode SocketAddr_pack simple_pack]. solve_safe. Qed.

(** ** [std::time::Duration] *)

Record Duration := MkDuration { as_secs : Z; subsec_nanos : Z }.

(** [Duration::new]: carries whole seconds out of the nanoseconds and panics
    when the seconds overflow. *)
Definition duration_new (secs nanos : Z) : res PackError Duration :=
  let secs' := secs + nanos / 1000000000 in
  if secs' <? 2 ^ 64 then Ok (MkDuration secs' (nanos mod 1000000000)) else Panic.

Definition Duration_pack : Pack Duration :=
  simple_pack 16 (Some 12) (fun _ => 12)
    (fun d => put (be_bytes 8 (as_secs d)) ;;; put (be_bytes 4 (subsec_nanos d)))
    (let! secs := decode u64_pack in
     let! ns := decode u32_pack in
     fun bs => (duration_new (uval secs) (uval ns), bs)).

Definition duration_wf (d : Duration) : Prop :=
  in_u 64 (as_secs d) ∧ 0 ≤ subsec_nanos d < 1000000000.

#[export] Instance Duration_ok : PackOk Duration_pack duration_wf.
Proof.
  split; [intros; cbn; lia|]. intros [s n] [Hs Hn] _. cbn in Hs, Hn.
  exists (be_bytes 8 s ++ be_bytes 4 n). split; [done|split; [done|]]. intros rest _.
  cbn [decode Duration_pack simple_pack]. cbn [as_secs subsec_nanos].
  rewrite <- app_assoc. unfold u64_pack, u32_pack.
  rewrite dbind_u by done. rewrite dbind_u by (unfold in_u; cbn; lia).
  cbn [uval]. unfold duration_new. rewrite Z.div_small, Z.mod_small by lia.
  rewrite Z.add_0_r. destruct (Z.ltb_spec s (2 ^ 64)); [done|]. unfold in_u in Hs. lia.
Qed.

(** ** chrono *)

(** [NaiveDate]: [year], [month], [day] and [from_ymd_opt], and the documented
    range of years. *)
Class ChronoDate := {
  NaiveDate : Type;
  year : NaiveDate → Z;
  month : NaiveDate → Z;
  day : NaiveDate → Z;
  from_ymd_opt : Z → Z → Z → option NaiveDate;
  from_ymd_of_date d : from_ymd_opt (year d) (month d) (day d) = Some d;
  from_ymd_fields y m d dt :
    from_ymd_opt y m d = Some dt → year dt = y ∧ month dt = m ∧ day dt = d;
  year_range d : -262143 ≤ year d ≤ 262142;
  month_range d : 1 ≤ month d ≤ 12;
  day_range d : 1 ≤ day d ≤ 31
}.

Definition YEAR_MASK : Z := 0xFFFFFE00.
Definition MONTH_MASK : Z := 0x000001E0.
Definition DAY_MASK : Z := 0x0000001F.

Definition date_word (y m d : Z) : Z :=
  let i := wrap 32 (Z.shiftl (wrap 32 y) 9) in
  let i := Z.lor i (Z.shiftl m 5) in
  Z.lor i d.

Definition NaiveDate_pack `{ChronoDate} : Pack NaiveDate :=
  simple_pack 4 (Some 4) (fun _ => 4)
    (fun d => put (be_bytes 4 (date_word (year d) (month d) (day d))))
    (let! i := decode u32_pack in
     let i := uval i in
     let year := Z.shiftr (swrap 32 (Z.land i YEAR_MASK)) 9 in
     let month := Z.shiftr (Z.land i MONTH_MASK) 5 in
     let day := Z.land i DAY_MASK in
     match from_ymd_opt year month day with
     | Some d => dret d
     | None => dthrow InvalidFormat
     end).

Lemma date_word_sum y m d :
  -262143 ≤ y ≤ 262142 → 1 ≤ m ≤ 12 → 1 ≤ d ≤ 31 →
  date_word y m d = wrap 23 y * 512 + m * 32 + d.
Proof.
  intros Hy Hm Hd. unfold date_word.
  assert (Hw : wrap 32 (Z.shiftl (wrap 32 y) 9) = Z.shiftl (wrap 23 y) 9).
  { unfold wrap. rewrite !Z.shiftl_mul_pow2 by lia.
    rewrite Z.mul_mod_idemp_l by lia. change (2 ^ 32) with (2 ^ 23 * 2 ^ 9).
    by rewrite Z.mul_mod_distr_r by lia. }
  rewrite Hw. rewrite (Z.lor_comm (Z.shiftl _ 9)).
  rewrite <- Z.lor_assoc, (Z.lor_comm _ d), Z.lor_assoc, (Z.lor_comm _ d).
  rewrite (lor_shiftl_add d) by lia. rewrite lor_shiftl_add by lia. lia.
Qed.

Lemma land_mask_field i lo n :
  0 ≤ lo → 0 ≤ n →
  Z.shiftr (Z.land i (Z.shiftl (Z.ones n) lo)) lo = (i / 2 ^ lo) mod 2 ^ n.
Proof.
  intros. rewrite Z.shiftr_land, Z.shiftr_shiftl_l, Z.sub_diag, Z.shiftl_0_r by lia.
  by rewrite Z.land_ones, Z.shiftr_div_pow2 by lia.
Qed.

Lemma land_high_field i lo n :
  0 ≤ lo → 0 ≤ n →
  Z.land i (Z.shiftl (Z.ones n) lo) = ((i / 2 ^ lo) mod 2 ^ n) * 2 ^ lo.
Proof.
  intros. rewrite <- land_mask_field by lia. rewrite <- Z.shiftl_mul_pow2 by lia.
  apply Z.bits_inj'. intros k Hk. rewrite Z.shiftl_spec, Z.land_spec, Z.shiftl_spec by lia.
  destruct (Z.lt_ge_cases k lo).
  - rewrite (Z.testbit_neg_r (Z.ones n)), (Z.testbit_neg_r _ (k - lo)) by lia.
    apply andb_false_r.
  - rewrite Z.shiftr_spec, Z.land_spec, Z.shiftl_spec by lia. do 3 f_equal; lia.
Qed.

(** The three fields come back out of the word, the year with its sign. *)
Lemma date_word_fields y m d :
  -262143 ≤ y ≤ 262142 → 1 ≤ m ≤ 12 → 1 ≤ d ≤ 31 →
  let i := date_word y m d in
  in_u 32 i ∧
  Z.shiftr (swrap 32 (Z.land i YEAR_MASK)) 9 = y ∧
  Z.shiftr (Z.land i MONTH_MASK) 5 = m ∧ Z.land i DAY_MASK = d.
Proof.
  intros Hy Hm Hd. rewrite date_word_sum by done. cbn zeta.
  pose proof (wrap_range 23 y ltac:(lia)) as Hwr. unfold in_u in *.
  set (i := wrap 23 y * 512 + m * 32 + d).
  assert (Hi9 : i / 2 ^ 9 = wrap 23 y)
    by (symmetry; apply (Z.div_unique _ _ _ (m * 32 + d)); unfold i; lia).
  assert (Hi5 : i / 2 ^ 5 = wrap 23 y * 16 + m)
    by (symmetry; apply (Z.div_unique _ _ _ d); unfold i; lia).
  split; [unfold i; lia|]. split; [|split].
  - change YEAR_MASK with (Z.shiftl (Z.ones 23) 9).
    rewrite land_high_field, Hi9 by lia. rewrite (Z.mod_small (wrap 23 y)) by lia.
    assert (Hs : swrap 32 (wrap 23 y * 2 ^ 9) = y * 2 ^ 9).
    { unfold wrap. rewrite <- Z.mul_mod_distr_r by lia.
      change (2 ^ 23 * 2 ^ 9) with (2 ^ 32). fold (wrap 32 (y * 2 ^ 9)).
      rewrite swrap_wrap by lia. apply swrap_small; unfold in_i; lia. }
    rewrite Hs, Z.shiftr_div_pow2, Z.div_mul by lia. done.
  - change MONTH_MASK with (Z.shiftl (Z.ones 4) 5).
    rewrite land_mask_field, Hi5 by lia. change (2 ^ 4) with 16.
    rewrite Z.add_comm, Z_mod_plus_full. apply Z.mod_small. lia.
  - change DAY_MASK with (Z.ones 5). rewrite Z.land_ones by lia. unfold i.
    change (2 ^ 5) with 32. replace (wrap 23 y * 512 + m * 32 + d)
      with (d + (wrap 23 y * 16 + m) * 32) by lia.
    rewrite Z_mod_plus_full. apply Z.mod_small. lia.
Qed.

#[export] Instance NaiveDate_ok `{ChronoDate} : PackOk NaiveDate_pack (fun _ => True).
Proof.
  split; [intros; cbn; lia|]. intros d _ _.
  exists (be_bytes 4 (date_word (year d) (month d) (day d))). split; [done|split; [done|]].
  intros rest _. destruct (date_word_fields (year d) (month d) (day d)) as (Hi & Hy & Hm & Hd);
    [apply year_range|apply month_range|apply day_range|].
  cbn [decode NaiveDate_pack simple_pack]. unfold u32_pack.
  rewrite dbind_u by done. cbn [uval].
  by rewrite Hy, Hm, Hd, from_ymd_of_date.
Qed.
#[export] Instance NaiveDate_safe `{ChronoDate} : PackSafe NaiveDate_pack.
Proof. unfold PackSafe. cbn [decode NaiveDate_pack simple_pack]. solve_safe. Qed.

(** [DateTime<Utc>] and [NaiveDateTime]: a timestamp is read as its seconds and
    nanoseconds, [from_timestamp] checks the range. [DateTime] stands for the
    times [from_timestamp] can make. *)
Class ChronoTime := {
  DateTime : Type;
  timestamp : DateTime → Z;
  timestamp_subsec_nanos : DateTime → Z;
  from_timestamp : Z → Z → option DateTime;
  from_timestamp_of_time t :
    from_timestamp (timestamp t) (timestamp_subsec_nanos t) = Some t;
  timestamp_range t : in_i 64 (timestamp t);
  subsec_nanos_range t : in_u 32 (timestamp_subsec_nanos t)
}.

Definition DateTime_pack `{ChronoTime} : Pack DateTime :=
  simple_pack 12 (Some 12) (fun _ => 12)
    (fun t => put (be_bytes 8 (timestamp t)) ;;;
              put (be_bytes 4 (timestamp_subsec_nanos t)))
    (let! ts := decode i64_pack in
     let! ns := decode u32_pack in
     match from_timestamp (sval ts) (uval ns) with
     | Some dt => dret dt
     | None => dthrow InvalidFormat
     end).

(** A [NaiveDateTime] goes through [and_utc] and [naive_utc], which only change
    the type. *)
Definition NaiveDateTime_pack `{ChronoTime} : Pack DateTime :=
  simple_pack 12 (Some 12) (fun _ => 12)
    (fun t => put (be_bytes 8 (timestamp t)) ;;;
              put (be_bytes 4 (timestamp_subsec_nanos t)))
    (let! ts := decode i64_pack in
     let! ns := decode u32_pack in
     match from_timestamp (sval ts) (uval ns) with
     | Some ndt => dret ndt
     | None => dthrow InvalidFormat
     end).

Lemma dbind_s {B} n z rest (k : sint n → dec PackError B) :
  (0 < n)%nat → in_i (8 * Z.of_nat n) z →
  dbind (decode (sint_pack n)) k (be_bytes n z ++ rest) = k (SInt z) rest.
Proof.
  intros Hn Hz. apply dbind_ok. cbn [decode sint_pack simple_pack].
  rewrite get_fixed_app, be_int_bytes by apply be_bytes_zlen.
  by rewrite swrap_wrap, swrap_small by auto with lia.
Qed.

#[export] Instance DateTime_ok `{ChronoTime} : PackOk DateTime_pack (fun _ => True).
Proof.
  split; [intros; cbn; lia|]. intros t _ _.
  exists (be_bytes 8 (timestamp t) ++ be_bytes 4 (timestamp_subsec_nanos t)).
  split; [done|split; [done|]]. intros rest _. cbn [decode DateTime_pack simple_pack].
  rewrite <- app_assoc. unfold i64_pack, u32_pack.
  rewrite dbind_s by (lia || apply timestamp_range).
  rewrite dbind_u by apply subsec_nanos_range. cbn [sval uval].
  by rewrite from_timestamp_of_time.
Qed.
#[export] Instance NaiveDateTime_ok `{ChronoTime} :
  PackOk NaiveDateTime_pack (fun _ => True).
Proof. split; intros; by apply DateTime_ok. Qed.
#[export] Instance DateTime_safe `{ChronoTime} : PackSafe DateTime_pack.
Proof. unfold PackSafe. cbn [decode DateTime_pack simple_pack]. solve_safe. Qed.
#[export] Instance NaiveDateTime_safe `{ChronoTime} : PackSafe NaiveDateTime_pack.
Proof. exact DateTime_safe. Qed.

(** [chrono::Duration]: only durations whose nanoseconds fit an [i64] travel. *)
Class ChronoDuration := {
  CDuration : Type;
  num_nanoseconds : CDuration → option Z;
  nanoseconds : Z → CDuration;
  nanoseconds_num d i : num_nanoseconds d = Some i → in_i 64 i ∧ nanoseconds i = d
}.

Definition CDuration_pack `{ChronoDuration} : Pack CDuration :=
  simple_pack 16 None (fun _ => 8)
    (fun d => match num_nanoseconds d with
     | Some i => encode i64_pack (SInt i)
     | None => ethrow InvalidFormat
     end)
    (let! i := decode i64_pack in dret (nanoseconds (sval i))).

#[export] Instance CDuration_ok `{ChronoDuration} :
  PackOk CDuration_pack (fun d => is_Some (num_nanoseconds d)).
Proof.
  split; [intros; cbn; lia|]. intros d [i Hi] _. destruct (nanoseconds_num d i Hi) as [Hr Hn].
  exists (be_bytes 8 i). cbn [encode CDuration_pack simple_pack]. rewrite Hi.
  split; [done|split; [done|]]. intros rest _. cbn [decode CDuration_pack simple_pack].
  unfold i64_pack. rewrite dbind_s by (lia || done). cbn [sval]. by rewrite Hn.
Qed.
#[export] Instance CDuration_safe `{ChronoDuration} : PackSafe CDuration_pack.
Proof. unfold PackSafe. cbn [decode CDuration_pack simple_pack]. solve_safe. Qed.

(** ** uuid, rust_decimal, enumflags2 *)

Class UuidApi := {
  Uuid : Type;
  as_u128 : Uuid → Z;
  from_u128 : Z → Uuid;
  as_u128_range u : in_u 128 (as_u128 u);
  from_as_u128 u : from_u128 (as_u128 u) = u
}.

Definition Uuid_pack `{UuidApi} : Pack Uuid :=
  simple_pack 16 (Some 16) (fun _ => 16)
    (fun u => encode u128_pack (UInt (as_u128 u)))
    (let! x := decode u128_pack in dret (from_u128 (uval x))).

#[export] Instance Uuid_ok `{UuidApi} : PackOk Uuid_pack (fun _ => True).
Proof.
  split; [intros; cbn; lia|]. intros u _ _. exists (be_bytes 16 (as_u128 u)).
  split; [done|split; [done|]]. intros rest _. cbn [decode Uuid_pack simple_pack].
  unfold u128_pack. rewrite dbind_u by apply as_u128_range. cbn [uval]. by rewrite from_as_u128.
Qed.
#[export] Instance Uuid_safe `{UuidApi} : PackSafe Uuid_pack.
Proof. unfold PackSafe. cbn [decode Uuid_pack simple_pack]. solve_safe. Qed.

Class DecimalApi := {
  Decimal : Type;
  serialize : Decimal → list byte;
  deserialize : list byte → Decimal;
  serialize_length d : length (serialize d) = 16%nat;
  deserialize_serialize d : deserialize (serialize d) = d
}.

Definition Decimal_pack `{DecimalApi} : Pack Decimal :=
  simple_pack 16 (Some 16) (fun _ => 16)
    (fun d => put (serialize d)) (get_fixed 16 deserialize).

#[export] Instance Decimal_ok `{DecimalApi} : PackOk Decimal_pack (fun _ => True).
Proof.
  split; [intros; cbn; lia|]. intros d _ _. exists (serialize d).
  assert (Hl : zlen (serialize d) = 16) by (unfold zlen; by rewrite serialize_length).
  split; [done|split; [done|]]. intros rest _. cbn [decode Decimal_pack simple_pack].
  by rewrite get_fixed_app, deserialize_serialize.
Qed.
#[export] Instance Decimal_safe `{DecimalApi} : PackSafe Decimal_pack.
Proof. apply get_fixed_safe. Qed.

(** [BitFlags<T>] over the numeric type of [n] bytes: [from_bits] rejects bits
    outside [all]. *)
Definition BitFlags_pack (n : nat) (all : Z) : Pack (uint n) :=
  simple_pack (Z.of_nat n) None (encoded_len (uint_pack n)) (encode (uint_pack n))
    (let! bits := decode (uint_pack n) in
     if Z.land (uval bits) all =? uval bits then dret bits else dthrow InvalidFormat).

#[export] Instance BitFlags_ok n all :
  PackOk (BitFlags_pack n all) (fun x => uint_wf x ∧ Z.land (uval x) all = uval x).
Proof.
  split; [intros; cbn; lia|]. intros x [Hx Ha] _. exists (be_bytes n (uval x)).
  split; [done|split; [apply be_bytes_zlen|]]. intros rest _.
  cbn [decode BitFlags_pack simple_pack]. rewrite dbind_uint by done.
  by rewrite Ha, Z.eqb_refl.
Qed.
#[export] Instance BitFlags_safe n all : PackSafe (BitFlags_pack n all).
Proof. unfold PackSafe. cbn [decode BitFlags_pack simple_pack]. solve_safe. Qed.

(** ** Theorems *)

(** The 32 bit word is determined by its three fields, so no two words decode
    to one date. *)
Lemma date_word_of_fields i :
  in_u 32 i →
  date_word (Z.shiftr (swrap 32 (Z.land i YEAR_MASK)) 9)
    (Z.shiftr (Z.land i MONTH_MASK) 5) (Z.land i DAY_MASK) = i.
Proof.
  intros Hi. unfold date_word.
  assert (Hy : wrap 32 (Z.shiftl (wrap 32 (Z.shiftr (swrap 32 (Z.land i YEAR_MASK)) 9)) 9)
    = Z.land i YEAR_MASK).
  { change YEAR_MASK with (Z.shiftl (Z.ones 23) 9). rewrite land_high_field by lia.
    set (f := (i / 2 ^ 9) mod 2 ^ 23).
    assert (Hf : 0 ≤ f < 2 ^ 23) by (apply Z.mod_pos_bound; lia).
    assert (Hs : ∃ q, swrap 32 (f * 2 ^ 9) = (f + q * 2 ^ 23) * 2 ^ 9).
    { unfold swrap. destruct (wrap 32 (f * 2 ^ 9) <? 2 ^ (32 - 1)).
      - exists 0. unfold wrap. rewrite Z.mod_small; lia.
      - exists (-1). unfold wrap. rewrite Z.mod_small; lia. }
    destruct Hs as [q ->].
    rewrite Z.shiftr_div_pow2, Z.div_mul, Z.shiftl_mul_pow2 by lia.
    unfold wrap. rewrite Z.mul_mod_idemp_l by lia. change (2 ^ 32) with (2 ^ 23 * 2 ^ 9).
    rewrite Z.mul_mod_distr_r by lia. rewrite Z_mod_plus_full, Z.mod_small by lia. done. }
  assert (Hm : Z.shiftl (Z.shiftr (Z.land i MONTH_MASK) 5) 5 = Z.land i MONTH_MASK).
  { change MONTH_MASK with (Z.shiftl (Z.ones 4) 5). rewrite land_mask_field by lia.
    by rewrite land_high_field, Z.shiftl_mul_pow2 by lia. }
  rewrite Hy, Hm, <- !Z.land_lor_distr_r.
  change (Z.lor (Z.lor YEAR_MASK MONTH_MASK) DAY_MASK) with (Z.ones 32).
  rewrite Z.land_ones by lia. by apply Z.mod_small.
Qed.

(** Dates and 32 bit words. A [NaiveDate] travels as one word that holds the
    year in its high 23 bits with its sign, and the month and the day below;
    decoding returns the date, and a word that decodes to a date is the word
    that date is encoded as, so the decoder accepts no second spelling. *)
Theorem naive_date_words `{ChronoDate} :
  (∀ d rest, ∃ bs, encode NaiveDate_pack d = (bs, Ok ()) ∧ zlen bs = 4 ∧
     decode NaiveDate_pack (bs ++ rest) = (Ok d, rest)) ∧
  (∀ i d rest, in_u 32 i → decode NaiveDate_pack (be_bytes 4 i ++ rest) = (Ok d, rest) →
     encode NaiveDate_pack d = (be_bytes 4 i, Ok ())).
Proof.
  split.
  - intros d rest. exists (be_bytes 4 (date_word (year d) (month d) (day d))).
    split; [done|split; [done|]].
    destruct (date_word_fields (year d) (month d) (day d)) as (Hi & Hy & Hm & Hd);
      [apply year_range|apply month_range|apply day_range|].
    cbn [decode NaiveDate_pack simple_pack]. unfold u32_pack.
    rewrite dbind_u by done. cbn [uval]. by rewrite Hy, Hm, Hd, from_ymd_of_date.
  - intros i d rest Hi. cbn [decode NaiveDate_pack simple_pack]. unfold u32_pack.
    rewrite dbind_u by done. cbn [uval].
    destruct (from_ymd_opt _ _ _) as [d'|] eqn:E; [|done]. intros [= ->].
    apply from_ymd_fields in E as (Hy & Hm & Hd).
    cbn [encode NaiveDate_pack simple_pack]. by rewrite Hy, Hm, Hd, date_word_of_fields.
Qed.

(** What [Duration::decode] does with every 12 byte record: the seconds and
    nanoseconds are normalised, so a duration that was encoded comes back, and a
    record whose carried seconds do not fit 64 bits panics instead of giving
    [InvalidFormat]. *)
Theorem duration_decode_exact s n rest :
  in_u 64 s → in_u 32 n →
  decode Duration_pack (be_bytes 8 s ++ be_bytes 4 n ++ rest) =
    (if s + n / 1000000000 <? 2 ^ 64
     then Ok (MkDuration (s + n / 1000000000) (n mod 1000000000)) else Panic, rest) ∧
  (n < 1000000000 →
   encode Duration_pack (MkDuration s n) = (be_bytes 8 s ++ be_bytes 4 n, Ok ()) ∧
   decode Duration_pack (be_bytes 8 s ++ be_bytes 4 n ++ rest) = (Ok (MkDuration s n), rest)).
Proof.
  intros Hs Hn.
  assert (Hd : decode Duration_pack (be_bytes 8 s ++ be_bytes 4 n ++ rest) =
    (duration_new s n, rest)).
  { cbn [decode Duration_pack simple_pack]. unfold u64_pack, u32_pack.
    by rewrite !dbind_u by done. }
  rewrite Hd. unfold duration_new. split; [done|]. unfold in_u in *. intros Hlt.
  split; [done|]. rewrite Z.div_small, Z.mod_small, Z.add_0_r by lia.
  by destruct (Z.ltb_spec s (2 ^ 64)); [|lia].
Qed.

Lemma duration_decode_exact_witness :
  decode Duration_pack (be_bytes 8 (2 ^ 64 - 1) ++ be_bytes 4 1000000000 ++ []) = (Panic, []).
Proof.
  exact (proj1 (duration_decode_exact (2 ^ 64 - 1) 1000000000 []
    ltac:(by vm_compute) ltac:(by vm_compute))).
Defined.

(** The remaining fixed layout types. Times, addresses and uuids decode to
    what was encoded, in the constant number of bytes [encoded_len] announces,
    and none of these decoders panics on arbitrary input. *)
Theorem fixed_types_roundtrip `{ChronoTime} `{UuidApi} rest :
  (∀ t, ∃ bs, encode DateTime_pack t = (bs, Ok ()) ∧ zlen bs = 12 ∧
     (zlen (bs ++ rest) < MAX_BUF → decode DateTime_pack (bs ++ rest) = (Ok t, rest))) ∧
  (∀ a, addr_wf a → ∃ bs, encode SocketAddr_pack a = (bs, Ok ()) ∧
     zlen bs = encoded_len SocketAddr_pack a ∧
     (zlen (bs ++ rest) < MAX_BUF → decode SocketAddr_pack (bs ++ rest) = (Ok a, rest))) ∧
  (∀ u, ∃ bs, encode Uuid_pack u = (bs, Ok ()) ∧ zlen bs = 16 ∧
     (zlen (bs ++ rest) < MAX_BUF → decode Uuid_pack (bs ++ rest) = (Ok u, rest))) ∧
  PackSafe DateTime_pack ∧ PackSafe SocketAddr_pack ∧ PackSafe Uuid_pack.
Proof.
  split_and!; [intros t|intros a Ha|intros u|apply _..].
  - destruct (encode_spec (P := DateTime_pack) t I) as (bs & ? & Hl & Hd);
      [done|exists bs; eauto].
  - destruct (encode_spec (P := SocketAddr_pack) a Ha) as (bs & ? & Hl & Hd);
      [by destruct a|exists bs; eauto].
  - destruct (encode_spec (P := Uuid_pack) u I) as (bs & ? & Hl & Hd);
      [done|exists bs; eauto].
Qed.

(** ** The classes can be met *)

(** The proleptic Gregorian calendar over chrono's years. *)
Definition days_in_month (y m : Z) : Z :=
  if decide (m = 2)
  then if (y mod 4 =? 0) && (negb (y mod 100 =? 0) || (y mod 400 =? 0)) then 29 else 28
  else if decide (m = 4 ∨ m = 6 ∨ m = 9 ∨ m = 11) then 30 else 31.

Definition valid_ymd (t : Z * Z * Z) : bool :=
  let '(y, m, d) := t in
  (-262143 <=? y) && (y <=? 262142) && (1 <=? m) && (m <=? 12) && (1 <=? d) &&
  (d <=? days_in_month y m).

Lemma days_in_month_le y m : days_in_month y m ≤ 31.
Proof. unfold days_in_month. repeat case_match; lia. Qed.

Program Definition calendar : ChronoDate := {|
  NaiveDate := { t : Z * Z * Z | valid_ymd t = true };
  year t := (`t).1.1; month t := (`t).1.2; day t := (`t).2;
  from_ymd_opt y m d :=
    match decide (valid_ymd (y, m, d) = true) with
    | left H => Some (exist _ (y, m, d) H)
    | right _ => None
    end
|}.
Next Obligation.
  intros [[[y m] d] Hv]. cbn. destruct (decide _) as [H|]; [|done].
  f_equal. by apply sig_eq_pi; [intros ?; apply _|].
Qed.
Next Obligation. intros y m d dt. cbn. destruct (decide _); [|done]. by intros [= <-]. Qed.
Next Obligation. intros [[[y m] d] Hv]. cbn in *. lia. Qed.
Next Obligation. intros [[[y m] d] Hv]. cbn in *. lia. Qed.
Next Obligation.
  intros [[[y m] d] Hv]. pose proof (days_in_month_le y m). cbn in *. lia.
Qed.

Lemma naive_date_words_witness :
  (∀ d rest, ∃ bs, encode (NaiveDate_pack (H := calendar)) d = (bs, Ok ()) ∧ zlen bs = 4 ∧
     decode (NaiveDate_pack (H := calendar)) (bs ++ rest) = (Ok d, rest)) ∧
  in_u 32 (date_word 2024 2 29) ∧
  encode (NaiveDate_pack (H := calendar)) (exist _ (2024, 2, 29) eq_refl)
    = (be_bytes 4 (date_word 2024 2 29), Ok ()).
Proof.
  split; [exact (proj1 (@naive_date_words calendar))|]. split; [by vm_compute|].
  refine (proj2 (@naive_date_words calendar) (date_word 2024 2 29)
    (exist _ (2024, 2, 29) eq_refl) [] _ _); [by vm_compute|].
  by vm_compute.
Defined.

(** Times as a pair of seconds and nanoseconds, uuids as their number. *)
Definition valid_time (t : Z * Z) : bool := bool_decide (in_i 64 t.1 ∧ in_u 32 t.2).

Program Definition clock : ChronoTime := {|
  DateTime := { t : Z * Z | valid_time t = true };
  timestamp t := (`t).1; timestamp_subsec_nanos t := (`t).2;
  from_timestamp s n :=
    match decide (valid_time (s, n) = true) with
    | left H => Some (exist _ (s, n) H)
    | right _ => None
    end
|}.
Next Obligation.
  intros [[s n] Hv]. cbn. destruct (decide _) as [H|]; [|done].
  f_equal. by apply sig_eq_pi; [intros ?; apply _|].
Qed.
Next Obligation. intros [[s n] H]. by destruct (bool_decide_eq_true_1 _ H). Qed.
Next Obligation. intros [[s n] H]. by destruct (bool_decide_eq_true_1 _ H). Qed.

Program Definition uuid_numbers : UuidApi := {|
  Uuid := { z : Z | bool_decide (in_u 128 z) = true };
  as_u128 u := `u;
  from_u128 z := exist _ (wrap 128 z) _
|}.
Next Obligation. intros z. apply bool_decide_eq_true. by apply wrap_range. Qed.
Next Obligation. intros [z H]. exact (bool_decide_eq_true_1 _ H). Qed.
Next Obligation.
  intros [z H]. apply sig_eq_pi; [intros ?; apply _|]. cbn.
  apply wrap_small, (bool_decide_eq_true_1 _ H).
Qed.

Lemma fixed_types_roundtrip_witness :
  ∃ bs, encode SocketAddr_pack (V4 (map Zb [127; 0; 0; 1]) (UInt 4564)) = (bs, Ok ()) ∧
    zlen bs = 7 ∧
    (zlen (bs ++ []) < MAX_BUF →
     decode SocketAddr_pack (bs ++ []) = (Ok (V4 (map Zb [127; 0; 0; 1]) (UInt 4564)), [])).
Proof.
  apply (proj1 (proj2 (@fixed_types_roundtrip clock uuid_numbers [])) (V4 _ _)).
  split; by vm_compute.
Defined.
