(* ===== verification/Path.v ===== *)
(** Paths (netidx-core/src/path.rs). A path is its UTF-8 bytes. The escaping
    crate is a parameter ([Escaping]) whose documented behaviour is
    [EscapingOk]; [escaping_ref] is an instance. The abstract value of an
    absolute canonical path is its list of components, and the theorems say
    that the string operations compute the list ones. *)
From Stdlib Require Import ZArith Lia.
From stdpp Require Import base gmap list strings sorting.
From Stdlib Require Import Strings.Byte.
From S2P Require Import Prelude Varint Pack.

Definition SEP : byte := "/"%byte.
Definition ESC : byte := "\"%byte.
Definition ROOT : str := [SEP].

(** ** The escaping crate *)

(** The operations of [PATH_ESC = Escape::new('\\', &['\\', '/'], ..)]:
    [is_escaped(s, i)], [split(s, '/')], [escape(s)], [unescape(s)]. *)
Class Escaping := {
  is_escaped : str → nat → bool;
  esc_split : str → list str;
  escape : str → str;
  unescape : str → str
}.

(** Reading left to right, [true] after an escape character that is not itself
    escaped. *)
Definition esc_next (esc : bool) (c : byte) : bool :=
  if decide (c = ESC) then negb esc else false.
Definition esc_state (esc : bool) (s : str) : bool := foldl esc_next esc s.

(** Splitting at the separators that are not escaped *)
Definition cons_head (c : byte) (ps : list str) : list str :=
  match ps with
  | [] => [[c]]
  | p :: ps => (c :: p) :: ps
  end.
Fixpoint split_from (esc : bool) (s : str) : list str :=
  match s with
  | [] => [[]]
  | c :: s =>
      if decide (c = SEP ∧ esc = false) then [] :: split_from false s
      else cons_head c (split_from (esc_next esc c) s)
  end.

(** Escaping both special characters *)
Fixpoint escape_special (s : str) : str :=
  match s with
  | [] => []
  | c :: s =>
      if decide (c = ESC ∨ c = SEP) then ESC :: c :: escape_special s
      else c :: escape_special s
  end.

Class EscapingOk (ES : Escaping) : Prop := {
  is_escaped_spec s i : is_escaped s i = esc_state false (take i s);
  esc_split_spec s : esc_split s = split_from false s;
  escape_spec s : escape s = escape_special s;
  unescape_escape s : unescape (escape s) = s
}.

(** ** Operations *)

(** [str::starts_with(&str)] *)
Definition starts_with (s p : str) : bool := bool_decide (p `prefix_of` s).
(** [str::find(SEP)] and [str::rfind(SEP)] *)
Definition find_byte (s : str) : option nat := fst <$> list_find (.= SEP) s.
Definition rfind_byte (s : str) : option nat :=
  (fun i => length s - 1 - i)%nat <$> find_byte (rev s).
(** [&s[i..]] and [&s[..j]]: a panic off a character boundary *)
Definition slice_from (s : str) (i : Z) : res PackError str :=
  if is_char_boundary s i then Ok (drop (Z.to_nat i) s) else Panic.
Definition slice_to (s : str) (j : Z) : res PackError str :=
  if is_char_boundary s j then Ok (take (Z.to_nat j) s) else Panic.

Section Path.
Context {ES : Escaping}.

(** [Path::parts] *)
Definition parts (s : str) : list str :=
  let skip :=
    if decide (s = ROOT) then 2%nat
    else if starts_with s ROOT then 1%nat
    else 0%nat in
  drop skip (esc_split s).

(** [is_canonical] *)
Definition is_canonical (s : str) : bool :=
  negb (existsb (fun p => bool_decide (p = [])) (parts s)).

(** [canonize]: the loop over the non empty parts, [first] before the first *)
Fixpoint canonize_loop (first : bool) (res : str) (ps : list str) : str :=
  match ps with
  | [] => res
  | p :: ps =>
      let res := if first then res else res ++ [SEP] in
      canonize_loop false (res ++ p) ps
  end.
Definition canonize (s : str) : str :=
  if zlen s =? 0 then []
  else
    let res := if starts_with s [SEP] then [SEP] else [] in
    canonize_loop true res (filter (.≠ []) (parts s)).

(** [From<String>], [From<&str>], [From<ArcStr>], [FromStr]: all the same *)
Definition path_from (s : str) : str := if is_canonical s then s else canonize s.

(** [Path::is_absolute] *)
Definition is_absolute (p : str) : bool := starts_with p [SEP].

(** [Path::is_parent] *)
Definition is_parent (parent other : str) : bool :=
  bool_decide (parent = ROOT) ||
  (starts_with other parent &&
   ((zlen other =? zlen parent) ||
    bool_decide (other !! length parent = Some SEP))).

(** [find_sep_int]: every round cuts the string at the match it rejects, so
    [length s] rounds are enough. *)
Fixpoint find_sep_loop (fuel : nat) (f : str → option nat) (s : str) : option nat :=
  match fuel with
  | O => None
  | S fuel =>
      match f s with
      | None => None
      | Some i => if negb (is_escaped s i) then Some i else find_sep_loop fuel f (take i s)
      end
  end.
Definition find_sep_int (f : str → option nat) (s : str) : option nat :=
  if zlen s =? 0 then None else find_sep_loop (S (length s)) f s.
Definition rfind_sep (s : str) : option nat := find_sep_int rfind_byte s.
Definition find_sep (s : str) : option nat := find_sep_int find_byte s.

(** [Path::dirname], [Path::dirname_with_sep], [Path::basename] *)
Definition dirname (s : str) : option str :=
  match rfind_sep s with
  | None => None
  | Some i => if (i =? 0)%nat then None else Some (take i s)
  end.
Definition dirname_with_sep (s : str) : option str :=
  match rfind_sep s with
  | None => None
  | Some i => if (i =? 0)%nat then None else Some (take (i + 1) s)
  end.
Definition basename (s : str) : option str :=
  match rfind_sep s with
  | None => if 0 <? zlen s then Some s else None
  | Some i => if zlen s <=? 1 then None else Some (drop (i + 1) s)
  end.

(** [Path::is_immediate_parent] *)
Definition is_immediate_parent (parent other : str) : bool :=
  let parent := if decide (parent = ROOT) then None else Some parent in
  (0 <? zlen other) && bool_decide (other ≠ ROOT) &&
  bool_decide (dirname other = parent).

(** [str::strip_prefix] *)
Definition str_strip_prefix (s p : str) : option str :=
  if starts_with s p then Some (drop (length p) s) else None.

(** [Path::strip_prefix] *)
Definition strip_prefix (prefix path : str) : option str :=
  if is_parent prefix path then
    (fun s => default s (str_strip_prefix s ROOT)) <$> str_strip_prefix path prefix
  else None.

(** [Path::lcp]: every round shortens [p0] *)
Fixpoint lcp_loop (fuel : nat) (p0 p1 : str) : option str :=
  match fuel with
  | O => None
  | S fuel =>
      if is_parent p0 p1 then Some p0
      else match dirname p0 with
           | Some p => lcp_loop fuel p p1
           | None => Some ROOT
           end
  end.
Definition lcp (path0 path1 : str) : option str :=
  let '(p0, p1) :=
    if zlen path0 <=? zlen path1 then (path0, path1) else (path1, path0) in
  lcp_loop (S (length p0)) p0 p1.

(** [Path::append] / [Path::join] *)
Definition append (self other : str) : str :=
  if zlen other =? 0 then self else path_from (self ++ [SEP] ++ other).

(** [Path::levels] *)
Definition levels (s : str) : Z := zlen (parts s).

(** [FromIterator]: each component escaped, a separator after it, the last
    separator popped *)
Definition from_iter (cs : list str) : str :=
  let buf := foldl (fun buf c => buf ++ escape c ++ [SEP]) [SEP] cs in
  if 1 <? zlen buf then take (length buf - 1) buf else buf.

(** [DirNames]: the iterator's state, [next] and [next_back] *)
Inductive DirNames :=
| DRoot (fresh : bool)
| DPath (cur all : str) (base : Z).

Definition dirnames (s : str) : DirNames :=
  if decide (s = ROOT) then DRoot true else DPath s s 1.

Definition dirnames_next (d : DirNames) : res PackError (option str * DirNames) :=
  match d with
  | DPath cur all base =>
      if zlen all <=? base then Ok (None, d)
      else match find_sep cur with
      | None => Ok (Some all, DPath cur all (zlen all))
      | Some p =>
          let base := base + Z.of_nat p + 1 in
          res_bind (slice_from all base) (fun cur =>
          res_bind (slice_to all (base - 1)) (fun r =>
          Ok (Some r, DPath cur all base)))
      end
  | DRoot true => Ok (Some ROOT, DRoot false)
  | DRoot false => Ok (None, d)
  end.

Definition dirnames_next_back (d : DirNames) : option str * DirNames :=
  match d with
  | DPath cur all base =>
      match dirname all with
      | Some dn => (Some all, DPath cur dn base)
      | None =>
          if decide (all = ROOT) then (Some ROOT, DRoot false)
          else (Some all, DPath cur ROOT base)
      end
  | DRoot true => (Some ROOT, DRoot false)
  | DRoot false => (None, d)
  end.

(** Draining the iterator: every call advances [base] by at least one. *)
Fixpoint dirnames_collect (fuel : nat) (d : DirNames) : res PackError (list str) :=
  match fuel with
  | O => Ok []
  | S fuel =>
      res_bind (dirnames_next d) (fun '(o, d) =>
      match o with
      | None => Ok []
      | Some p => res_map (cons p) (dirnames_collect fuel d)
      end)
  end.
Definition dirnames_list (s : str) : res PackError (list str) :=
  dirnames_collect (S (S (length s))) (dirnames s).

Fixpoint dirnames_collect_back (fuel : nat) (d : DirNames) : list str :=
  match fuel with
  | O => []
  | S fuel =>
      match dirnames_next_back d with
      | (None, _) => []
      | (Some p, d) => p :: dirnames_collect_back fuel d
      end
  end.
Definition dirnames_back_list (s : str) : list str :=
  dirnames_collect_back (S (S (length s))) (dirnames s).

(** [impl Pack for Path] *)
Definition Path_pack {LY : Layout} : Pack str :=
  simple_pack (layout "Path" []) None (encoded_len ArcStr_pack) (encode ArcStr_pack)
    (let! s := decode ArcStr_pack in dret (path_from s)).
End Path.

(** The crate's behaviour as functions: an instance the laws hold of. *)
Fixpoint unescape_special (s : str) : str :=
  match s with
  | c :: ((c' :: s) as s') =>
      if decide (c = ESC ∧ (c' = ESC ∨ c' = SEP)) then c' :: unescape_special s
      else c :: unescape_special s'
  | s => s
  end.
Definition escaping_ref : Escaping := {|
  is_escaped s i := esc_state false (take i s);
  esc_split := split_from false;
  escape := escape_special;
  unescape := unescape_special
|}.

Lemma unescape_special_escape s : unescape_special (escape_special s) = s.
Proof.
  induction s as [|c s IH]; [done|]. cbn [escape_special].
  destruct (decide (c = ESC ∨ c = SEP)) as [Hc|Hc].
  - cbn [unescape_special]. rewrite decide_True by done. by rewrite IH.
  - destruct (escape_special s) as [|c' s'] eqn:E; cbn [unescape_special].
    + by rewrite <- IH.
    + rewrite decide_False by tauto. f_equal. exact IH.
Qed.

#[export] Instance escaping_ref_ok : EscapingOk escaping_ref.
Proof. split; try done. intros. apply unescape_special_escape. Qed.
