(* ===== verification/PathFacts.v ===== *)
(** Facts about paths: what splitting, joining and the separator searches do to
    the component list of a path, and from them the specification of every
    operation of [Path.v] on canonical absolute paths. *)
From Stdlib Require Import ZArith Lia.
From stdpp Require Import base gmap list strings sorting.
From Stdlib Require Import Strings.Byte.
From S2P Require Import Prelude Varint Pack Path.

(** ** Components *)

(** Every separator of [s] is escaped, reading from escape state [e]. *)
Definition sep_free (e : bool) (s : str) : Prop :=
  ∀ i, s !! i = Some SEP → esc_state e (take i s) = true.

(** A component: not empty, no bare separator, no escape left hanging. *)
Definition comp_ok (p : str) : Prop :=
  p ≠ [] ∧ sep_free false p ∧ esc_state false p = false.

Fixpoint join (ps : list str) : str :=
  match ps with
  | [] => []
  | [p] => p
  | p :: ps => p ++ SEP :: join ps
  end.

(** The canonical absolute path with the given components. *)
Definition abs_path (ps : list str) : str := SEP :: join ps.

(** All the ancestors of a path, the root first and the path itself last. *)
Definition ancestors (ps : list str) : list str :=
  (fun n => abs_path (take n ps)) <$> seq 0 (S (length ps)).

Lemma esc_state_app e s t : esc_state e (s ++ t) = esc_state (esc_state e s) t.
Proof. apply foldl_app. Qed.

Lemma esc_next_sep e : esc_next e SEP = false.
Proof. done. Qed.

Lemma esc_state_sep e s t : esc_state e (s ++ SEP :: t) = esc_state false t.
Proof. rewrite esc_state_app. done. Qed.

Lemma sep_free_nil e : sep_free e [].
Proof. intros i Hi. by rewrite lookup_nil in Hi. Qed.

Lemma sep_free_cons e c s :
  sep_free e (c :: s) ↔ (c = SEP → e = true) ∧ sep_free (esc_next e c) s.
Proof.
  split.
  - intros H. split; [intros ->; by apply (H 0%nat)|]. intros i Hi. apply (H (S i) Hi).
  - intros [H0 H1] [|i] Hi; cbn in *; [injection Hi as ->; auto|by apply H1].
Qed.

Lemma sep_free_take e s n : sep_free e s → sep_free e (take n s).
Proof.
  intros H i Hi. apply lookup_take_Some in Hi as [Hi Hlt].
  rewrite take_take, Nat.min_l by lia. by apply H.
Qed.

Lemma split_from_ne e s : split_from e s ≠ [].
Proof.
  destruct s as [|c s]; cbn; [done|]. case_decide; [done|].
  by destruct (split_from _ s).
Qed.

Lemma split_from_free e p : sep_free e p → split_from e p = [p].
Proof.
  revert e; induction p as [|c p IH]; intros e H; [done|].
  apply sep_free_cons in H as [H0 H1]. cbn [split_from].
  rewrite decide_False; [by rewrite IH|]. intros [-> ->]. by specialize (H0 eq_refl).
Qed.

Lemma split_from_sep e p t :
  sep_free e p → esc_state e p = false →
  split_from e (p ++ SEP :: t) = p :: split_from false t.
Proof.
  revert e; induction p as [|c p IH]; intros e H He; cbn in He.
  - cbn. by rewrite decide_True.
  - apply sep_free_cons in H as [H0 H1]. cbn [app split_from].
    rewrite decide_False; [by rewrite IH|]. intros [-> ->]. by specialize (H0 eq_refl).
Qed.

Lemma join_cons_head c ps : ps ≠ [] → join (cons_head c ps) = c :: join ps.
Proof. destruct ps as [|p [|q ps]]; done. Qed.

Lemma join_cons p ps : ps ≠ [] → join (p :: ps) = p ++ SEP :: join ps.
Proof. by destruct ps. Qed.

Lemma join_app ps qs :
  ps ≠ [] → qs ≠ [] → join (ps ++ qs) = join ps ++ SEP :: join qs.
Proof.
  intros Hp Hq. induction ps as [|p ps IH]; [done|].
  destruct ps as [|p' ps]; [cbn [app]; by rewrite join_cons|].
  change ((p :: p' :: ps) ++ qs) with (p :: (p' :: ps) ++ qs).
  rewrite join_cons, (join_cons p (p' :: ps)), IH by done. by rewrite <- app_assoc.
Qed.

Lemma join_split e s : join (split_from e s) = s.
Proof.
  revert e; induction s as [|c s IH]; intros e; [done|]. cbn [split_from].
  case_decide as Hc.
  - destruct Hc as [-> _]. rewrite join_cons by apply split_from_ne. by rewrite IH.
  - rewrite join_cons_head by apply split_from_ne. by rewrite IH.
Qed.

(** What a split leaves: no bare separator, and only the last piece may end in
    a hanging escape. *)
Fixpoint pieces_ok (e : bool) (ps : list str) : Prop :=
  match ps with
  | [] => False
  | [p] => sep_free e p
  | p :: ps => sep_free e p ∧ esc_state e p = false ∧ pieces_ok false ps
  end.

Lemma pieces_ok_cons e p ps :
  ps ≠ [] → pieces_ok e (p :: ps) ↔
  sep_free e p ∧ esc_state e p = false ∧ pieces_ok false ps.
Proof. by destruct ps. Qed.

Lemma split_from_pieces e s : pieces_ok e (split_from e s).
Proof.
  revert e; induction s as [|c s IH]; intros e; [apply sep_free_nil|]. cbn [split_from].
  case_decide as Hc.
  - rewrite pieces_ok_cons by apply split_from_ne.
    destruct Hc as [_ ->]. split; [apply sep_free_nil|by split].
  - specialize (IH (esc_next e c)).
    destruct (split_from (esc_next e c) s) as [|p ps]; [done|]. cbn [cons_head].
    assert (Hcons : sep_free (esc_next e c) p → sep_free e (c :: p)).
    { intros. apply sep_free_cons. split; [|done]. intros ->. destruct e; [done|].
      exfalso. by apply Hc. }
    destruct ps as [|q ps]; [by apply Hcons|].
    rewrite pieces_ok_cons in IH |- * by done. destruct IH as (? & ? & ?).
    split; [by apply Hcons|done].
Qed.

Lemma split_join e ps : pieces_ok e ps → split_from e (join ps) = ps.
Proof.
  revert e; induction ps as [|p ps IH]; intros e H; [done|].
  destruct ps as [|q ps]; [by apply split_from_free|].
  rewrite pieces_ok_cons in H by done. destruct H as (H1 & H2 & H3).
  rewrite join_cons, split_from_sep by done. by rewrite IH.
Qed.

Lemma pieces_ok_comps ps : ps ≠ [] → Forall comp_ok ps → pieces_ok false ps.
Proof.
  induction ps as [|p ps IH]; intros Hne Hf; [done|].
  apply Forall_cons in Hf as [(? & ? & ?) Hf].
  destruct ps as [|q ps]; [done|]. rewrite pieces_ok_cons by done. auto.
Qed.

Lemma pieces_ok_filter ps :
  pieces_ok false ps → filter (.≠ []) ps = [] ∨ pieces_ok false (filter (.≠ []) ps).
Proof.
  induction ps as [|p ps IH]; intros H; [done|].
  destruct ps as [|q ps].
  - cbn. case_decide; [by right|by left].
  - rewrite pieces_ok_cons in H by done. destruct H as (Hf & Hc & Hr).
    rewrite filter_cons. destruct (IH Hr) as [Hn|Hn].
    + rewrite Hn. case_decide; [by right|by left].
    + case_decide; [|by right]. right. apply pieces_ok_cons; [|done].
      by destruct (filter (.≠ []) (q :: ps)).
Qed.

Lemma split_comps_app ps t :
  ps ≠ [] → Forall comp_ok ps →
  split_from false (join ps ++ SEP :: t) = ps ++ split_from false t.
Proof.
  intros Hne Hf. induction ps as [|p ps IH]; [done|].
  apply Forall_cons in Hf as [(? & ? & ?) Hf].
  destruct ps as [|q ps]; [cbn; by apply split_from_sep|].
  rewrite join_cons, <- app_assoc by done. cbn [app].
  rewrite split_from_sep by done. by rewrite IH.
Qed.

Lemma join_closed ps :
  Forall comp_ok ps → esc_state false (join ps) = false.
Proof.
  induction ps as [|p ps IH]; intros Hf; [done|].
  apply Forall_cons in Hf as [(? & ? & ?) Hf].
  destruct ps as [|q ps]; [done|]. rewrite join_cons, esc_state_sep by done. auto.
Qed.

Lemma abs_path_closed ps : Forall comp_ok ps → esc_state false (abs_path ps) = false.
Proof. intros. by apply join_closed. Qed.

Lemma abs_path_snoc ps x :
  abs_path (ps ++ [x]) = (if decide (ps = []) then [] else abs_path ps) ++ SEP :: x.
Proof.
  case_decide as Hn; [by subst|]. unfold abs_path. by rewrite join_app.
Qed.

Lemma join_nil_inv ps : Forall (.≠ []) ps → join ps = [] → ps = [].
Proof.
  destruct ps as [|p ps]; [done|]. intros [Hp _]%Forall_cons.
  destruct ps as [|q ps]; [done|]. rewrite join_cons by done. by destruct p.
Qed.

Lemma comp_ok_ne ps : Forall comp_ok ps → Forall (.≠ []) ps.
Proof. intros H. eapply Forall_impl; [exact H|]. by intros p (? & _ & _). Qed.

Lemma join_length ps : Forall (.≠ []) ps → (length ps ≤ length (join ps))%nat.
Proof.
  induction 1 as [|p ps Hp Hf IH]; [done|].
  assert (1 ≤ length p)%nat by (destruct p; [done|cbn; lia]).
  destruct ps as [|q ps]; [cbn; lia|].
  rewrite join_cons, length_app by done. cbn [length] in *. lia.
Qed.

Lemma starts_with_sep s : starts_with s [SEP] = true ↔ ∃ t, s = SEP :: t.
Proof.
  unfold starts_with. rewrite bool_decide_eq_true. split.
  - by intros [t ->]; exists t.
  - intros [t ->]. by exists t.
Qed.

Lemma abs_path_inj ps qs :
  Forall comp_ok ps → Forall comp_ok qs → abs_path ps = abs_path qs → ps = qs.
Proof.
  intros Hp Hq [= He].
  destruct ps as [|p ps]; destruct qs as [|q qs]; [done| | |].
  - symmetry in He. apply join_nil_inv in He; [done|by apply comp_ok_ne].
  - apply join_nil_inv in He; [done|by apply comp_ok_ne].
  - rewrite <- (split_join false (p :: ps)), <- (split_join false (q :: qs))
      by (by apply pieces_ok_comps). by rewrite He.
Qed.

(** ** The separator searches *)

Lemma find_byte_None s : find_byte s = None ↔ SEP ∉ s.
Proof.
  unfold find_byte. rewrite fmap_None, list_find_None, Forall_forall. set_solver.
Qed.

Lemma find_byte_Some p q : SEP ∉ p → find_byte (p ++ SEP :: q) = Some (length p).
Proof.
  intros Hp. unfold find_byte.
  rewrite (proj2 (list_find_Some (.= SEP) (p ++ SEP :: q) (length p) SEP)); [done|].
  split; [by apply list_lookup_middle|split; [done|]].
  intros j y Hj Hlt ->. rewrite lookup_app_l in Hj by done.
  apply Hp. by apply list_elem_of_lookup_2 in Hj.
Qed.

Lemma elem_of_rev (x : byte) s : x ∈ rev s ↔ x ∈ s.
Proof. by rewrite !list_elem_of_In, <- in_rev. Qed.

Lemma rfind_byte_None s : rfind_byte s = None ↔ SEP ∉ s.
Proof.
  unfold rfind_byte. rewrite fmap_None, find_byte_None.
  by rewrite elem_of_rev.
Qed.

Lemma rfind_byte_Some p q : SEP ∉ q → rfind_byte (p ++ SEP :: q) = Some (length p).
Proof.
  intros Hq. unfold rfind_byte. rewrite rev_app_distr. cbn [rev].
  rewrite <- app_assoc. cbn [app]. rewrite find_byte_Some.
  - cbn. f_equal. rewrite length_app, length_rev. cbn. lia.
  - by rewrite elem_of_rev.
Qed.

(** A string with a separator splits at its first, and at its last, one. *)
Lemma last_sep s : SEP ∈ s → ∃ p q, s = p ++ SEP :: q ∧ SEP ∉ q.
Proof.
  induction s as [|c s IH] using rev_ind; [by intros ?%not_elem_of_nil|].
  intros Hin. destruct (decide (c = SEP)) as [->|Hne].
  - exists s, []. split; [done|apply not_elem_of_nil].
  - destruct IH as (p & q & -> & Hq); [set_solver|].
    exists p, (q ++ [c]). split; [by rewrite <- app_assoc|set_solver].
Qed.

Section Facts.
Context {ES : Escaping} {ESO : EscapingOk ES}.

Lemma rfind_loop_spec fuel p q :
  (length q < fuel)%nat → esc_state false p = false → sep_free false q →
  find_sep_loop fuel rfind_byte (p ++ SEP :: q) = Some (length p).
Proof.
  revert q; induction fuel as [|fuel IH]; intros q Hf Hp Hq; [lia|].
  cbn [find_sep_loop]. destruct (decide (SEP ∈ q)) as [Hin|Hnin].
  - destruct (last_sep q Hin) as (q1 & q2 & -> & Hq2).
    assert (Hs : p ++ SEP :: q1 ++ SEP :: q2 = (p ++ SEP :: q1) ++ SEP :: q2)
      by (by rewrite <- app_assoc).
    rewrite Hs, rfind_byte_Some by done.
    rewrite is_escaped_spec, take_app_length, esc_state_sep.
    assert (esc_state false q1 = true) as ->.
    { specialize (Hq (length q1)). rewrite take_app_length in Hq. apply Hq.
      by apply list_lookup_middle. }
    cbn [negb]. rewrite length_app in Hf. cbn in Hf. apply IH; [lia|done|].
    rewrite <- (take_app_length q1 (SEP :: q2)). by apply sep_free_take.
  - rewrite rfind_byte_Some, is_escaped_spec, take_app_length, Hp by done. done.
Qed.

(** The last separator that is not escaped. *)
Lemma rfind_sep_spec p q :
  esc_state false p = false → sep_free false q →
  rfind_sep (p ++ SEP :: q) = Some (length p).
Proof.
  intros Hp Hq. unfold rfind_sep, find_sep_int.
  destruct (Z.eqb_spec (zlen (p ++ SEP :: q)) 0) as [Hz|_].
  { unfold zlen in Hz. rewrite length_app in Hz. cbn in Hz. lia. }
  apply rfind_loop_spec; [rewrite length_app; cbn; lia|done..].
Qed.

(** Without escapes the forward search is the first separator. *)
Lemma find_sep_plain p q :
  SEP ∉ p → ESC ∉ p → find_sep (p ++ SEP :: q) = Some (length p).
Proof.
  intros Hs He. unfold find_sep, find_sep_int.
  destruct (Z.eqb_spec (zlen (p ++ SEP :: q)) 0) as [Hz|_].
  { unfold zlen in Hz. rewrite length_app in Hz. cbn in Hz. lia. }
  cbn [find_sep_loop]. rewrite find_byte_Some, is_escaped_spec, take_app_length by done.
  assert (esc_state false p = false) as ->; [|done].
  clear -He. induction p as [|c p IH] using rev_ind; [done|].
  rewrite esc_state_app. cbn. unfold esc_next. rewrite decide_False; [done|set_solver].
Qed.

Lemma find_sep_none p : SEP ∉ p → find_sep p = None.
Proof.
  intros Hs. unfold find_sep, find_sep_int. destruct (zlen p =? 0); [done|].
  cbn [find_sep_loop]. by rewrite (proj2 (find_byte_None p)).
Qed.

(** ** Parts and canonical form *)

Lemma parts_abs_raw s : parts (SEP :: s) = if decide (s = []) then [] else split_from false s.
Proof.
  unfold parts. rewrite esc_split_spec. case_decide as Hr.
  - injection Hr as ->. by rewrite decide_True.
  - unfold ROOT in *. rewrite (proj2 (starts_with_sep (SEP :: s))) by eauto.
    rewrite decide_False by (intros ->; by apply Hr). done.
Qed.

Lemma parts_rel s : is_absolute s = false → parts s = split_from false s.
Proof.
  intros Ha. unfold parts. rewrite esc_split_spec. rewrite decide_False.
  - unfold is_absolute, ROOT in *. by rewrite Ha.
  - intros ->. by vm_compute in Ha.
Qed.

Lemma parts_abs ps : Forall comp_ok ps → parts (abs_path ps) = ps.
Proof.
  intros Hf. unfold abs_path. rewrite parts_abs_raw. case_decide as Hn.
  - symmetry. apply join_nil_inv; [by apply comp_ok_ne|done].
  - apply split_join, pieces_ok_comps; [by intros ->|done].
Qed.

Lemma is_canonical_iff s : is_canonical s = true ↔ Forall (.≠ []) (parts s).
Proof.
  unfold is_canonical. rewrite negb_true_iff, Forall_forall. split.
  - intros H p Hp ->. apply not_true_iff_false in H. apply H.
    apply existsb_exists. exists []. split; [by apply list_elem_of_In|done].
  - intros H. apply not_true_iff_false. intros (p & Hp & He)%existsb_exists.
    apply bool_decide_eq_true in He. apply (H p); [by apply list_elem_of_In|done].
Qed.

Lemma canonize_loop_spec first res ps :
  canonize_loop first res ps =
  res ++ (if first then join ps else match ps with [] => [] | _ => SEP :: join ps end).
Proof.
  revert first res; induction ps as [|p ps IH]; intros first res; cbn [canonize_loop].
  - destruct first; by rewrite app_nil_r.
  - rewrite IH. destruct ps as [|q ps].
    + rewrite app_nil_r. destruct first; [done|]. by rewrite <- app_assoc.
    + rewrite (join_cons p (q :: ps)) by done. destruct first; by rewrite <- !app_assoc.
Qed.

Lemma filter_all_ne (ps : list str) : Forall (.≠ []) ps → filter (.≠ []) ps = ps.
Proof.
  induction 1 as [|p ps Hp Hf IH]; [done|]. by rewrite filter_cons_True, IH.
Qed.

(** An absolute path is canonized to its non empty parts. *)
Lemma path_from_abs s : path_from (SEP :: s) = abs_path (filter (.≠ []) (parts (SEP :: s))).
Proof.
  unfold path_from. destruct (is_canonical (SEP :: s)) eqn:E.
  - apply is_canonical_iff in E. rewrite filter_all_ne by done.
    rewrite parts_abs_raw. unfold abs_path. case_decide; [by subst|].
    by rewrite join_split.
  - unfold canonize. destruct (Z.eqb_spec (zlen (SEP :: s)) 0) as [Hz|_].
    { rewrite zlen_cons in Hz. pose proof (zlen_nonneg s). lia. }
    rewrite (proj2 (starts_with_sep (SEP :: s))) by eauto. by rewrite canonize_loop_spec.
Qed.

Lemma path_from_rel s :
  is_absolute s = false → path_from s = join (filter (.≠ []) (parts s)).
Proof.
  intros Ha. unfold path_from. destruct (is_canonical s) eqn:E.
  - apply is_canonical_iff in E. rewrite filter_all_ne by done.
    by rewrite parts_rel, join_split.
  - unfold canonize. destruct (Z.eqb_spec (zlen s) 0) as [Hz|_].
    { destruct s as [|c s]; [by rewrite parts_rel|].
      rewrite zlen_cons in Hz. pose proof (zlen_nonneg s). lia. }
    unfold is_absolute in Ha. rewrite Ha. by rewrite canonize_loop_spec.
Qed.

Lemma path_from_abs_path ps : Forall comp_ok ps → path_from (abs_path ps) = abs_path ps.
Proof.
  intros Hf. unfold abs_path at 1. rewrite path_from_abs. fold (abs_path ps).
  rewrite parts_abs by done. rewrite filter_all_ne by (by apply comp_ok_ne). done.
Qed.

Lemma filter_ne_idemp (ps : list str) : filter (.≠ []) (filter (.≠ []) ps) = filter (.≠ []) ps.
Proof. apply filter_all_ne, Forall_forall. intros p Hp%list_elem_of_filter. tauto. Qed.

Lemma filter_ne_Forall (ps : list str) : Forall (.≠ []) (filter (.≠ []) ps).
Proof. apply Forall_forall. intros p Hp%list_elem_of_filter. tauto. Qed.

Lemma split_nonempty_parts s :
  let ps := filter (.≠ []) (split_from false s) in
  split_from false (join ps) = if decide (ps = []) then [[]] else ps.
Proof.
  cbn zeta. destruct (pieces_ok_filter _ (split_from_pieces false s)) as [->|H]; [done|].
  rewrite decide_False; [by apply split_join|]. intros Hn. by rewrite Hn in H.
Qed.

Lemma join_parts_rel s :
  is_absolute s = false →
  is_absolute (join (filter (.≠ []) (split_from false s))) = false.
Proof.
  intros _. apply not_true_iff_false. intros [t Ht]%starts_with_sep.
  destruct (pieces_ok_filter _ (split_from_pieces false s)) as [Hn|H].
  { by rewrite Hn in Ht. }
  pose proof (filter_ne_Forall (split_from false s)) as Hne.
  destruct (filter (.≠ []) (split_from false s)) as [|p ps]; [done|].
  apply Forall_cons in Hne as [Hp _].
  destruct p as [|c p]; [done|].
  assert (Hf : sep_free false (c :: p)) by (destruct ps; [done|apply H]).
  apply sep_free_cons in Hf as [Hc _].
  assert (c = SEP) by (destruct ps; cbn in Ht; congruence). discriminate (Hc H0).
Qed.

(** ** Directory and base names *)

Lemma dirname_snoc ps x :
  Forall comp_ok ps → comp_ok x →
  dirname (abs_path (ps ++ [x])) = if decide (ps = []) then None else Some (abs_path ps).
Proof.
  intros Hf (_ & Hx & _). rewrite abs_path_snoc. unfold dirname.
  case_decide as Hn.
  - rewrite (rfind_sep_spec [] x) by done. done.
  - rewrite rfind_sep_spec by (try done; by apply abs_path_closed).
    rewrite take_app_length. done.
Qed.

Lemma rfind_sep_root : rfind_sep ROOT = Some 0%nat.
Proof. exact (rfind_sep_spec [] [] eq_refl (sep_free_nil _)). Qed.

Lemma dirname_root : dirname ROOT = None.
Proof. unfold dirname. by rewrite rfind_sep_root. Qed.

Lemma basename_snoc ps x :
  Forall comp_ok ps → comp_ok x → basename (abs_path (ps ++ [x])) = Some x.
Proof.
  intros Hf (Hne & Hx & _). rewrite abs_path_snoc. unfold basename.
  set (d := if decide (ps = []) then [] else abs_path ps).
  assert (esc_state false d = false) by (unfold d; case_decide; [done|by apply abs_path_closed]).
  rewrite rfind_sep_spec by done.
  destruct (Z.leb_spec (zlen (d ++ SEP :: x)) 1) as [Hl|_].
  { rewrite zlen_app, zlen_cons in Hl. pose proof (zlen_nonneg d).
    destruct x; [done|]. rewrite zlen_cons in Hl. pose proof (zlen_nonneg x). lia. }
  rewrite Nat.add_1_r. change (S (length d)) with (1 + length d)%nat.
  rewrite Nat.add_comm, <- drop_drop, drop_app_length. done.
Qed.

Lemma basename_root : basename ROOT = None.
Proof. unfold basename. by rewrite rfind_sep_root. Qed.

(** ** Parents *)

Lemma abs_path_app ps qs :
  abs_path (ps ++ qs) =
  (if decide (ps = []) then [SEP] else abs_path ps) ++
  (if decide (ps = []) then join qs else if decide (qs = []) then [] else SEP :: join qs).
Proof.
  destruct (decide (ps = [])) as [->|Hp]; [done|].
  destruct (decide (qs = [])) as [->|Hq]; [by rewrite !app_nil_r|].
  unfold abs_path. by rewrite join_app.
Qed.

Lemma is_parent_spec ps qs :
  Forall comp_ok ps → Forall comp_ok qs →
  is_parent (abs_path ps) (abs_path qs) = bool_decide (ps `prefix_of` qs).
Proof.
  intros Hp Hq. unfold is_parent. destruct (decide (ps = [])) as [->|Hne].
  { rewrite bool_decide_true by done. symmetry. apply bool_decide_eq_true.
    apply prefix_nil. }
  rewrite (bool_decide_false (abs_path ps = ROOT)).
  2: { intros Hr. apply Hne. by apply (abs_path_inj ps []) in Hr. }
  cbn [orb]. apply eq_bool_prop_intro. rewrite !Is_true_true.
  rewrite bool_decide_eq_true, andb_true_iff. unfold starts_with.
  rewrite bool_decide_eq_true, orb_true_iff, Z.eqb_eq, bool_decide_eq_true.
  split.
  - intros [[t Ht] Hc]. destruct t as [|c t].
    { rewrite app_nil_r in Ht. apply abs_path_inj in Ht as ->; done. }
    assert (c = SEP) as ->.
    { destruct Hc as [Hl|Hl].
      - rewrite Ht, zlen_app, zlen_cons in Hl. pose proof (zlen_nonneg t). lia.
      - rewrite Ht, list_lookup_middle in Hl by done. congruence. }
    exists (split_from false t). rewrite <- (parts_abs qs), Ht by done.
    unfold abs_path. cbn [app]. rewrite parts_abs_raw, decide_False.
    + by apply split_comps_app.
    + intros H%app_eq_nil. by destruct H.
  - intros [rs ->]. rewrite abs_path_app, !decide_False by done.
    split; [by eexists|]. case_decide.
    + left. by rewrite app_nil_r.
    + right. by apply list_lookup_middle.
Qed.

Lemma levels_spec ps : Forall comp_ok ps → levels (abs_path ps) = zlen ps.
Proof. intros. unfold levels. by rewrite parts_abs. Qed.

(** ** Appending *)

Lemma parts_app_sep ps other :
  Forall comp_ok ps →
  filter (.≠ []) (parts (abs_path ps ++ [SEP] ++ other)) =
  ps ++ filter (.≠ []) (split_from false other).
Proof.
  intros Hf. unfold abs_path. cbn [app]. rewrite parts_abs_raw.
  rewrite decide_False by (by intros H%app_eq_nil; destruct H).
  destruct (decide (ps = [])) as [->|Hne]; [done|].
  rewrite split_comps_app by done. rewrite filter_app.
  by rewrite (filter_all_ne ps) by (by apply comp_ok_ne).
Qed.

Lemma append_spec ps other :
  Forall comp_ok ps →
  append (abs_path ps) other = abs_path (ps ++ filter (.≠ []) (split_from false other)).
Proof.
  intros Hf. unfold append. destruct (Z.eqb_spec (zlen other) 0) as [Hz|Hz].
  - destruct other as [|c o]; [|rewrite zlen_cons in Hz; pose proof (zlen_nonneg o); lia].
    cbn. by rewrite app_nil_r.
  - rewrite <- parts_app_sep by done. apply path_from_abs.
Qed.

(** ** Escaping *)

Lemma escape_special_ok s :
  ∀ t, (∀ i, t !! i = Some SEP → esc_state false (take i t) = true) →
  sep_free false (escape_special s ++ t) ∧
  esc_state false (escape_special s) = false.
Proof.
  induction s as [|c s IH]; intros t Ht; [by split|]. cbn [escape_special].
  destruct (IH t Ht) as [IH1 IH2]. case_decide as Hc.
  - assert (Hn : esc_next (esc_next false ESC) c = false) by (by destruct Hc as [->| ->]).
    cbn [app]. split.
    + apply sep_free_cons. split; [done|]. apply sep_free_cons. split; [done|].
      by rewrite Hn.
    + change (esc_state (esc_next (esc_next false ESC) c) (escape_special s) = false).
      by rewrite Hn.
  - assert (Hn : esc_next false c = false).
    { unfold esc_next. rewrite decide_False; [done|]. intros ->. apply Hc. by left. }
    cbn [app]. split.
    + apply sep_free_cons. rewrite Hn. split; [|done]. intros ->. exfalso. apply Hc. by right.
    + change (esc_state (esc_next false c) (escape_special s) = false). by rewrite Hn.
Qed.

Lemma escape_comp_ok c : c ≠ [] → comp_ok (escape c).
Proof.
  intros Hc. rewrite escape_spec.
  destruct (escape_special_ok c []) as [H1 H2]; [intros i Hi; by rewrite lookup_nil in Hi|].
  rewrite app_nil_r in H1. split; [|by split].
  destruct c as [|x c]; [done|]. cbn. by case_decide.
Qed.

Lemma from_iter_buf cs buf :
  foldl (fun buf c => buf ++ escape c ++ [SEP]) buf cs =
  buf ++ concat ((fun c => escape c ++ [SEP]) <$> cs).
Proof.
  revert buf; induction cs as [|c cs IH]; intros buf; cbn; [by rewrite app_nil_r|].
  rewrite IH. by rewrite <- !app_assoc.
Qed.

Lemma concat_join ps :
  ps ≠ [] → concat ((fun c => c ++ [SEP]) <$> ps) = join ps ++ [SEP].
Proof.
  induction ps as [|p ps IH]; intros Hne; [done|].
  destruct ps as [|q ps]; [cbn; by rewrite app_nil_r|].
  rewrite join_cons, fmap_cons by done. cbn [concat]. rewrite IH by done.
  by rewrite <- !app_assoc.
Qed.

Lemma from_iter_spec cs : from_iter cs = abs_path (escape <$> cs).
Proof.
  unfold from_iter. rewrite from_iter_buf.
  destruct (decide (cs = [])) as [->|Hne]; [done|].
  assert (concat ((fun c => escape c ++ [SEP]) <$> cs) = join (escape <$> cs) ++ [SEP]) as ->.
  { rewrite <- concat_join by (by destruct cs). by rewrite <- list_fmap_compose. }
  destruct (Z.ltb_spec 1 (zlen ([SEP] ++ join (escape <$> cs) ++ [SEP]))) as [_|Hl].
  - rewrite (app_assoc [SEP]). rewrite length_app. cbn [length app].
    replace (S (length (join (escape <$> cs))) + 1 - 1)%nat
      with (length (SEP :: join (escape <$> cs))) by (cbn; lia).
    change (SEP :: join (escape <$> cs) ++ [SEP])
      with ((SEP :: join (escape <$> cs)) ++ [SEP]).
    by rewrite take_app_length.
  - rewrite !zlen_app in Hl. pose proof (zlen_nonneg (join (escape <$> cs))).
    change (zlen [SEP]) with 1 in Hl. lia.
Qed.
End Facts.

(** ** Longest common parent *)

Section Lcp.
Context {ES : Escaping} {ESO : EscapingOk ES}.

(** [r] is the longest list that is a prefix of both. *)
Definition is_lcp (r ps qs : list str) : Prop :=
  r `prefix_of` ps ∧ r `prefix_of` qs ∧
  ∀ r', r' `prefix_of` ps → r' `prefix_of` qs → r' `prefix_of` r.

Lemma prefix_snoc_inv {A} (r ps : list A) x :
  r `prefix_of` (ps ++ [x]) → r = ps ++ [x] ∨ r `prefix_of` ps.
Proof.
  intros [k Hk]. destruct k as [|y k] using rev_ind.
  - left. by rewrite app_nil_r in Hk.
  - right. rewrite app_assoc in Hk. apply app_inj_tail in Hk as [Hk _]. by exists k.
Qed.

Lemma lcp_loop_spec fuel ps qs :
  (length ps < fuel)%nat → Forall comp_ok ps → Forall comp_ok qs →
  ∃ r, lcp_loop fuel (abs_path ps) (abs_path qs) = Some (abs_path r) ∧ is_lcp r ps qs.
Proof.
  revert fuel. induction ps as [|x ps IH] using rev_ind; intros fuel Hf Hp Hq;
    (destruct fuel as [|fuel]; [lia|]); cbn [lcp_loop]; rewrite is_parent_spec by done.
  - rewrite bool_decide_true by apply prefix_nil. exists []. split; [done|].
    split; [done|split; [apply prefix_nil|done]].
  - rewrite length_app in Hf. cbn in Hf. case_bool_decide as Hpre.
    { exists (ps ++ [x]). split; [done|]. by split; [|split]. }
    apply Forall_app in Hp as [Hp Hx]. rewrite Forall_singleton in Hx.
    rewrite dirname_snoc by done.
    assert (Hlift : ∀ r, is_lcp r ps qs → is_lcp r (ps ++ [x]) qs).
    { intros r (H1 & H2 & H3). split; [by apply prefix_app_r|split; [done|]].
      intros r' [->|Hr']%prefix_snoc_inv Hrq; [done|by apply H3]. }
    case_decide as Hn.
    + subst ps. exists []. split; [done|]. apply Hlift.
      split; [done|split; [apply prefix_nil|done]].
    + destruct (IH fuel ltac:(lia) Hp Hq) as (r & Hr & Hl). exists r. auto.
Qed.

Lemma is_lcp_sym r ps qs : is_lcp r ps qs → is_lcp r qs ps.
Proof. intros (? & ? & ?). split; [done|split; [done|auto]]. Qed.

Lemma lcp_spec ps qs :
  Forall comp_ok ps → Forall comp_ok qs →
  ∃ r, lcp (abs_path ps) (abs_path qs) = Some (abs_path r) ∧ is_lcp r ps qs.
Proof.
  intros Hp Hq. unfold lcp. pose proof (join_length _ (comp_ok_ne _ Hp)).
  pose proof (join_length _ (comp_ok_ne _ Hq)).
  destruct (zlen (abs_path ps) <=? zlen (abs_path qs)).
  - apply lcp_loop_spec; [cbn; lia|done..].
  - destruct (lcp_loop_spec (S (length (abs_path qs))) qs ps) as (r & Hr & Hl);
      [cbn; lia|done..|]. exists r. split; [done|by apply is_lcp_sym].
Qed.
End Lcp.

(** ** The dirnames iterator *)

Section DirNames.
Context {ES : Escaping} {ESO : EscapingOk ES}.

Lemma ancestors_snoc ps x : ancestors (ps ++ [x]) = ancestors ps ++ [abs_path (ps ++ [x])].
Proof.
  unfold ancestors. rewrite length_app. cbn [length]. rewrite Nat.add_1_r.
  rewrite (seq_S (S (length ps))), fmap_app. f_equal.
  - apply list_fmap_ext. intros i k [-> Hk]%lookup_seq.
    rewrite take_app_le by lia. done.
  - cbn. f_equal. f_equal. rewrite take_ge; [done|]. rewrite length_app. cbn. lia.
Qed.

Lemma collect_back_abs fuel ps cur base :
  (length ps + 1 < fuel)%nat → Forall comp_ok ps →
  dirnames_collect_back fuel (DPath cur (abs_path ps) base) = rev (ancestors ps).
Proof.
  revert fuel. induction ps as [|x ps IH] using rev_ind; intros fuel Hf Hp.
  - destruct fuel as [|[|fuel]]; [cbn in Hf; lia..|].
    cbn [dirnames_collect_back]. unfold dirnames_next_back.
    change (abs_path []) with ROOT. rewrite dirname_root. by rewrite decide_True.
  - destruct fuel as [|fuel]; [lia|]. rewrite length_app in Hf. cbn [length] in Hf.
    apply Forall_app in Hp as [Hp Hx]. rewrite Forall_singleton in Hx.
    cbn [dirnames_collect_back]. unfold dirnames_next_back. rewrite dirname_snoc by done.
    rewrite ancestors_snoc, rev_app_distr. cbn [rev app].
    case_decide as Hn.
    + subst ps. rewrite decide_False.
      * f_equal. apply (IH fuel); [cbn; lia|done].
      * destruct Hx as (Hx & _). by intros [= ->].
    + f_equal. apply IH; [lia|done].
Qed.

Lemma dirnames_back_spec ps :
  Forall comp_ok ps → dirnames_back_list (abs_path ps) = rev (ancestors ps).
Proof.
  intros Hp. unfold dirnames_back_list, dirnames. case_decide as Hr.
  - apply (abs_path_inj ps []) in Hr; [|done..]. by subst.
  - apply collect_back_abs; [|done].
    pose proof (join_length _ (comp_ok_ne _ Hp)). cbn. lia.
Qed.

(** A component without special characters, in UTF-8. *)
Definition plain (p : str) : Prop :=
  p ≠ [] ∧ (SEP ∉ p) ∧ (ESC ∉ p) ∧ utf8_valid p = true.

Lemma utf8_first c s : utf8_valid (c :: s) = true → byte_in 0x80 0xBF c = false.
Proof.
  intros H. destruct (byte_in 0x80 0xBF c) eqn:E; [|done]. exfalso.
  unfold byte_in in E. apply andb_true_iff in E as [E1%Z.leb_le E2%Z.leb_le].
  cbn [utf8_valid] in H. destruct (Z.ltb_spec (bZ c) 0x80); [lia|].
  assert (Hb : ∀ lo hi, 0xBF < lo → byte_in lo hi c = false).
  { intros lo hi Hlo. unfold byte_in. destruct (Z.leb_spec lo (bZ c)); [lia|done]. }
  assert (He : ∀ z, 0xBF < z → (bZ c =? z) = false) by (intros; apply Z.eqb_neq; lia).
  destruct s as [|b1 s]; [done|]. rewrite Hb in H by lia. cbn [andb] in H.
  destruct s as [|b2 s]; [done|]. rewrite !He, !Hb in H by lia. cbn [andb] in H.
  destruct s as [|b3 s]; [done|]. rewrite ?He, ?Hb in H by lia. done.
Qed.

Lemma boundary_at (s t : str) :
  (t = [] ∨ ∃ c t', t = c :: t' ∧ byte_in 0x80 0xBF c = false) →
  is_char_boundary (s ++ t) (zlen s) = true.
Proof.
  intros Ht. unfold is_char_boundary.
  destruct (Z.eqb_spec (zlen s) 0) as [_|Hz]; [done|]. cbn [orb].
  destruct Ht as [->|(c & t' & -> & Hc)].
  - by rewrite app_nil_r, Z.eqb_refl.
  - apply orb_true_iff. right. unfold zlen at 1. rewrite Nat2Z.id.
    rewrite list_lookup_middle by done. rewrite Hc.
    pose proof (zlen_nonneg s). destruct (Z.ltb_spec 0 (zlen s)); [done|lia].
Qed.

Lemma slice_at (s t : str) :
  (t = [] ∨ ∃ c t', t = c :: t' ∧ byte_in 0x80 0xBF c = false) →
  slice_from (s ++ t) (zlen s) = Ok t ∧ slice_to (s ++ t) (zlen s) = Ok s.
Proof.
  intros Ht. unfold slice_from, slice_to. rewrite boundary_at by done.
  unfold zlen. by rewrite Nat2Z.id, drop_app_length, take_app_length.
Qed.

(** What follows a component in a path. *)
Definition tail_of (ps : list str) : str :=
  match ps with [] => [] | _ => SEP :: join ps end.

Lemma join_tail p ps : join (p :: ps) = p ++ tail_of ps.
Proof. destruct ps; cbn; [by rewrite app_nil_r|done]. Qed.

Lemma tail_boundary ps :
  tail_of ps = [] ∨ ∃ c t, tail_of ps = c :: t ∧ byte_in 0x80 0xBF c = false.
Proof. destruct ps; [by left|]. right. by eexists _, _. Qed.

Lemma join_boundary ps :
  Forall plain ps → join ps = [] ∨ ∃ c t, join ps = c :: t ∧ byte_in 0x80 0xBF c = false.
Proof.
  intros Hp. destruct ps as [|p ps]; [by left|]. right.
  apply Forall_cons in Hp as [(Hne & _ & _ & Hu) _]. rewrite join_tail.
  destruct p as [|c p]; [done|]. exists c, (p ++ tail_of ps). split; [done|].
  by apply utf8_first in Hu.
Qed.

(** The iterator from inside a component: [pre] consumed, [x] the rest of the
    component, [ps] the components to come. *)
Lemma collect_from fuel pre x ps :
  (length ps + 1 < fuel)%nat → SEP ∉ x → ESC ∉ x → (x ≠ [] ∨ ps ≠ []) →
  Forall plain ps →
  dirnames_collect fuel (DPath (x ++ tail_of ps) (pre ++ x ++ tail_of ps) (zlen pre)) =
  Ok ((fun n => pre ++ x ++ tail_of (take n ps)) <$> seq 0 (S (length ps))).
Proof.
  revert fuel pre x; induction ps as [|p ps IH]; intros fuel pre x Hf Hs He Hne Hp;
    (destruct fuel as [|fuel]; [lia|]); cbn [dirnames_collect]; unfold dirnames_next.
  - cbn [tail_of]. rewrite app_nil_r. destruct Hne as [Hx|?]; [|done].
    destruct (Z.leb_spec (zlen (pre ++ x)) (zlen pre)) as [Hl|_].
    { rewrite zlen_app in Hl. destruct x as [|c x]; [done|].
      rewrite zlen_cons in Hl. pose proof (zlen_nonneg x). lia. }
    rewrite find_sep_none by done. cbn [res_bind].
    destruct fuel as [|fuel]; [cbn in Hf; lia|]. cbn [dirnames_collect]. unfold dirnames_next.
    rewrite Z.leb_refl. cbn. by rewrite ?app_nil_r.
  - destruct (Z.leb_spec (zlen (pre ++ x ++ tail_of (p :: ps))) (zlen pre)) as [Hl|_].
    { rewrite !zlen_app in Hl. cbn [tail_of] in Hl. rewrite zlen_cons in Hl.
      pose proof (zlen_nonneg x). pose proof (zlen_nonneg (join (p :: ps))). lia. }
    cbn [tail_of]. rewrite find_sep_plain by done.
    apply Forall_cons in Hp as [Hpp Hps]. assert (Hall : Forall plain (p :: ps)) by auto.
    set (all := pre ++ x ++ SEP :: join (p :: ps)).
    assert (Hall1 : all = (pre ++ x ++ [SEP]) ++ join (p :: ps))
      by (unfold all; by rewrite <- !app_assoc).
    assert (Hall2 : all = (pre ++ x) ++ tail_of (p :: ps))
      by (unfold all; by rewrite <- !app_assoc).
    replace (zlen pre + Z.of_nat (length x) + 1) with (zlen (pre ++ x ++ [SEP]))
      by (rewrite !zlen_app; change (zlen [SEP]) with 1; unfold zlen; lia).
    rewrite Hall1 at 1. destruct (slice_at (pre ++ x ++ [SEP]) (join (p :: ps))) as [-> _];
      [by apply join_boundary|]. cbn [res_bind].
    replace (zlen (pre ++ x ++ [SEP]) - 1) with (zlen (pre ++ x))
      by (rewrite !zlen_app; change (zlen [SEP]) with 1; lia).
    rewrite Hall2 at 1. destruct (slice_at (pre ++ x) (tail_of (p :: ps))) as [_ ->];
      [apply tail_boundary|]. cbn [res_bind].
    rewrite Hall1, join_tail. destruct Hpp as (Hp1 & Hp2 & Hp3 & _).
    cbn [length] in Hf. rewrite IH by (done || lia || by left).
    cbn [res_map length]. f_equal. rewrite <- (cons_seq (S (length ps)) 0), fmap_cons.
    f_equal; [cbn; by rewrite app_nil_r|].
    rewrite <- fmap_S_seq, <- list_fmap_compose. apply list_fmap_ext.
    intros i k _. unfold compose. cbn [take tail_of].
    rewrite join_tail. by rewrite <- !app_assoc.
Qed.
Lemma utf8_ascii_tail c x : bZ c < 0x80 → utf8_valid (c :: x) = true → utf8_valid x = true.
Proof. intros Hc. cbn [utf8_valid]. by destruct (Z.ltb_spec (bZ c) 0x80); [|lia]. Qed.

Lemma ascii_start c : bZ c < 0x80 → byte_in 0x80 0xBF c = false.
Proof. intros. unfold byte_in. by destruct (Z.leb_spec 0x80 (bZ c)); [lia|]. Qed.

Lemma dirnames_forward c x ps :
  Forall plain ((c :: x) :: ps) → bZ c < 0x80 → (x ≠ [] ∨ ps ≠ []) →
  dirnames_list (abs_path ((c :: x) :: ps)) = Ok (ancestors ((c :: x) :: ps)).
Proof.
  intros Hp Hc Hne. apply Forall_cons in Hp as [(_ & Hs & He & Hu) Hps].
  unfold abs_path. rewrite join_tail. set (t := x ++ tail_of ps). cbn [app]. fold t.
  unfold dirnames_list, dirnames. rewrite decide_False by done.
  set (all := SEP :: c :: t). remember (S (length all)) as fuel eqn:Hfuel.
  cbn [dirnames_collect]. unfold dirnames_next.
  destruct (Z.leb_spec (zlen all) 1) as [Hl|_].
  { unfold all in Hl. rewrite !zlen_cons in Hl. pose proof (zlen_nonneg t). lia. }
  rewrite (find_sep_plain [] (c :: t) (not_elem_of_nil _) (not_elem_of_nil _)).
  assert (Hb2 : t = [] ∨ ∃ c' t', t = c' :: t' ∧ byte_in 0x80 0xBF c' = false).
  { unfold t. destruct x as [|c' x']; [apply tail_boundary|]. right.
    exists c', (x' ++ tail_of ps). split; [done|].
    by apply utf8_ascii_tail, utf8_first in Hu. }
  destruct (slice_at [SEP; c] t Hb2) as [Hs1 _].
  destruct (slice_at [SEP] (c :: t)) as [_ Hs2];
    [right; eexists _, _; split; [done|by apply ascii_start]|].
  change (slice_from all 2 = Ok t) in Hs1. change (slice_to all 1 = Ok [SEP]) in Hs2.
  change (1 + Z.of_nat (length []) + 1) with 2. rewrite Hs1. cbn [res_bind].
  change (2 - 1) with 1. rewrite Hs2. cbn [res_bind].
  pose proof (collect_from fuel [SEP; c] x ps) as Hcf. fold t in Hcf.
  change (zlen [SEP; c]) with 2 in Hcf. change ([SEP; c] ++ t) with all in Hcf.
  assert (Hpl : Forall (.≠ []) ps)
    by (eapply Forall_impl; [exact Hps|]; by intros ? (? & _)).
  rewrite Hcf; [|..]; try done.
  - cbn [res_map]. f_equal. unfold ancestors. cbn [length].
    rewrite <- (cons_seq (S (length ps)) 0), fmap_cons. f_equal.
    rewrite <- fmap_S_seq, <- list_fmap_compose. apply list_fmap_ext.
    intros i k _. unfold compose. cbn [take]. unfold abs_path. by rewrite join_tail.
  - pose proof (join_length ps Hpl). subst fuel. unfold all, t. cbn [length].
    rewrite length_app. destruct ps; cbn [tail_of length] in *; lia.
  - set_solver.
  - set_solver.
Qed.
End DirNames.

(** ** Prefix removal and immediate parents *)

Section Prefix.
Context {ES : Escaping} {ESO : EscapingOk ES}.

Lemma comp_start p : comp_ok p → starts_with p ROOT = false.
Proof.
  intros (Hne & Hs & _). apply not_true_iff_false. intros [t ->]%starts_with_sep.
  apply sep_free_cons in Hs as [H _]. discriminate (H eq_refl).
Qed.

Lemma join_start ps : Forall comp_ok ps → starts_with (join ps) ROOT = false.
Proof.
  destruct ps as [|p ps]; intros Hf; [done|]. apply Forall_cons in Hf as [Hp _].
  apply comp_start in Hp as Hs. destruct Hp as (Hne & _).
  destruct p as [|c p]; [done|]. rewrite join_tail.
  apply not_true_iff_false. intros [t Ht]%starts_with_sep.
  apply not_true_iff_false in Hs. apply Hs, starts_with_sep. exists p. by injection Ht as ->.
Qed.

Lemma str_strip_prefix_app s t : str_strip_prefix (s ++ t) s = Some t.
Proof.
  unfold str_strip_prefix, starts_with. rewrite bool_decide_true by (by eexists).
  by rewrite drop_app_length.
Qed.

Lemma strip_prefix_app ps rs :
  Forall comp_ok ps → Forall comp_ok rs →
  strip_prefix (abs_path ps) (abs_path (ps ++ rs)) = Some (join rs).
Proof.
  intros Hp Hr. unfold strip_prefix.
  rewrite is_parent_spec, bool_decide_true by (try done; try (by eexists); by apply Forall_app).
  destruct (decide (ps = [])) as [->|Hne].
  - change (abs_path ([] ++ rs)) with (abs_path [] ++ join rs).
    rewrite str_strip_prefix_app. cbn. unfold str_strip_prefix.
    by rewrite join_start.
  - rewrite abs_path_app, !decide_False by done. rewrite str_strip_prefix_app.
    case_decide as Hn; [by subst|]. cbn. unfold str_strip_prefix.
    unfold ROOT. by rewrite (proj2 (starts_with_sep _)) by eauto.
Qed.

Lemma strip_prefix_none ps qs :
  Forall comp_ok ps → Forall comp_ok qs → ¬ ps `prefix_of` qs →
  strip_prefix (abs_path ps) (abs_path qs) = None.
Proof.
  intros Hp Hq Hn. unfold strip_prefix. by rewrite is_parent_spec, bool_decide_false.
Qed.

Lemma abs_path_root ps : Forall comp_ok ps → abs_path ps = ROOT ↔ ps = [].
Proof. intros Hp. split; [|by intros ->]. intros H. by apply (abs_path_inj ps []). Qed.

Lemma is_immediate_parent_spec ps qs :
  Forall comp_ok ps → Forall comp_ok qs →
  is_immediate_parent (abs_path ps) (abs_path qs) = true ↔ ∃ x, qs = ps ++ [x].
Proof.
  intros Hp Hq. unfold is_immediate_parent. rewrite !andb_true_iff, !bool_decide_eq_true.
  destruct qs as [|x qs _] using rev_ind.
  { split; [intros [[_ H] _]; by contradict H|]. intros [x Hx]. by destruct ps. }
  apply Forall_app in Hq as [Hq Hx]. rewrite Forall_singleton in Hx.
  rewrite dirname_snoc by done. split.
  - intros [_ Hd]. exists x. f_equal. revert Hd.
    destruct (decide (qs = [])) as [->|Hn], (decide (abs_path ps = ROOT)) as [Hr|Hr];
      intros Hd; try done.
    + apply abs_path_root in Hr; [|done]. by subst.
    + assert (Hd' : abs_path qs = abs_path ps) by congruence.
      apply abs_path_inj in Hd'; [|done..]. by subst.
  - intros [y Hy]. apply app_inj_tail in Hy as [-> ->]. split; [split|].
    + unfold abs_path. rewrite zlen_cons. apply Z.ltb_lt.
      pose proof (zlen_nonneg (join (ps ++ [y]))). lia.
    + rewrite abs_path_root; [by destruct ps|]. apply Forall_app. auto.
    + destruct (decide (ps = [])) as [->|Hne]; [done|].
      rewrite (decide_False (P := abs_path ps = ROOT)); [done|].
      by rewrite abs_path_root.
Qed.
End Prefix.

(** ** Pack for paths *)

Section PackPath.
Context {ES : Escaping} {LY : Layout}.

Definition path_wf (p : str) : Prop := str_wf p ∧ path_from p = p.

#[export] Instance Path_ok : PackOk Path_pack path_wf.
Proof.
  split; intros p [Hs Hc]; cbn [encoded_len Path_pack simple_pack].
  - by apply ArcStr_ok.
  - intros Hl. destruct (encode_spec (P := ArcStr_pack) p Hs Hl) as (bs & He & Hz & Hd).
    exists bs. split; [done|split; [done|]]. intros rest Hr.
    cbn [decode Path_pack simple_pack]. rewrite (dbind_ok _ _ _ _ _ (Hd rest Hr)).
    by rewrite Hc.
Qed.
#[export] Instance Path_safe : PackSafe Path_pack.
Proof. unfold PackSafe. cbn [decode Path_pack simple_pack]. solve_safe. Qed.
End PackPath.

(** Deciding [comp_ok] and [plain] on concrete components. *)
Definition comp_okb (p : str) : bool :=
  bool_decide (p ≠ []) && bool_decide (split_from false p = [p]) &&
  negb (esc_state false p).
Definition plainb (p : str) : bool :=
  bool_decide (p ≠ []) && bool_decide (SEP ∉ p) && bool_decide (ESC ∉ p) && utf8_valid p.

Lemma comps_ok_dec ps : forallb comp_okb ps = true → Forall comp_ok ps.
Proof.
  intros H. apply Forall_forall. intros p Hp%list_elem_of_In.
  rewrite forallb_forall in H. specialize (H p Hp). unfold comp_okb in H.
  rewrite !andb_true_iff, !bool_decide_eq_true, negb_true_iff in H.
  destruct H as [[H1 H2] H3]. split; [done|split; [|done]].
  pose proof (split_from_pieces false p) as Hpc. by rewrite H2 in Hpc.
Qed.

Lemma plain_dec ps : forallb plainb ps = true → Forall plain ps.
Proof.
  intros H. apply Forall_forall. intros p Hp%list_elem_of_In.
  rewrite forallb_forall in H. specialize (H p Hp). unfold plainb in H.
  rewrite !andb_true_iff, !bool_decide_eq_true in H. unfold plain. tauto.
Qed.

(** Every lawful instance computes what [escaping_ref] computes. *)
Section Reference.
Context {ES : Escaping} {ESO : EscapingOk ES}.

Lemma find_sep_int_ref f s : find_sep_int f s = find_sep_int (ES := escaping_ref) f s.
Proof.
  unfold find_sep_int. destruct (zlen s =? 0); [done|].
  generalize (S (length s)) as n. intros n. revert s.
  induction n as [|n IH]; intros s; [done|]. cbn [find_sep_loop].
  destruct (f s) as [i|]; [|done]. rewrite !is_escaped_spec.
  destruct (negb _); [done|apply IH].
Qed.

Lemma dirname_ref s : dirname s = dirname (ES := escaping_ref) s.
Proof. unfold dirname, rfind_sep. by rewrite find_sep_int_ref. Qed.

Lemma basename_ref s : basename s = basename (ES := escaping_ref) s.
Proof. unfold basename, rfind_sep. by rewrite find_sep_int_ref. Qed.

Lemma parts_ref s : parts s = parts (ES := escaping_ref) s.
Proof. unfold parts. by rewrite esc_split_spec. Qed.

Lemma levels_ref s : levels s = levels (ES := escaping_ref) s.
Proof. unfold levels. by rewrite parts_ref. Qed.

Lemma path_from_ref s : path_from s = path_from (ES := escaping_ref) s.
Proof. unfold path_from, is_canonical, canonize. by rewrite !parts_ref. Qed.

Lemma dirnames_next_ref d : dirnames_next d = dirnames_next (ES := escaping_ref) d.
Proof. destruct d; [done|]. unfold dirnames_next, find_sep. by rewrite find_sep_int_ref. Qed.

Lemma dirnames_list_ref s : dirnames_list s = dirnames_list (ES := escaping_ref) s.
Proof.
  unfold dirnames_list. generalize (S (S (length s))) as n, (dirnames s) as d.
  induction n as [|n IH]; intros d; [done|]. cbn [dirnames_collect].
  rewrite dirnames_next_ref. destruct (dirnames_next d) as [[[p|] d']| |]; cbn; [|done..].
  by rewrite IH.
Qed.

Lemma dirnames_next_back_ref d :
  dirnames_next_back d = dirnames_next_back (ES := escaping_ref) d.
Proof. destruct d; [done|]. unfold dirnames_next_back. by rewrite dirname_ref. Qed.

Lemma dirnames_back_list_ref s :
  dirnames_back_list s = dirnames_back_list (ES := escaping_ref) s.
Proof.
  unfold dirnames_back_list. generalize (S (S (length s))) as n, (dirnames s) as d.
  induction n as [|n IH]; intros d; [done|]. cbn [dirnames_collect_back].
  rewrite dirnames_next_back_ref. destruct (dirnames_next_back d) as [[p|] d']; [|done].
  by rewrite IH.
Qed.
End Reference.

(** ** Theorems *)

Section Theorems.
Context {ES : Escaping} {ESO : EscapingOk ES}.

(** [Path::from] is a normal form. Whatever string it is given, its result
    is canonical (or empty), a second application does not change it, it is
    absolute exactly when the string is, and its non empty parts are the
    string's, in order. *)
Theorem path_from_normal_form s :
  path_from (path_from s) = path_from s ∧
  (path_from s = [] ∨ is_canonical (path_from s) = true) ∧
  is_absolute (path_from s) = is_absolute s ∧
  filter (.≠ []) (parts (path_from s)) = filter (.≠ []) (parts s).
Proof.
  destruct (is_absolute s) eqn:Ha.
  - apply starts_with_sep in Ha as [t ->]. rewrite path_from_abs.
    set (ps := filter (.≠ []) (parts (SEP :: t))).
    assert (Hps : parts (abs_path ps) = ps).
    { unfold abs_path. rewrite parts_abs_raw. unfold ps. rewrite parts_abs_raw.
      destruct (decide (t = [])); [done|]. case_decide as Hn.
      - symmetry. apply join_nil_inv; [|done]. apply filter_ne_Forall.
      - rewrite split_nonempty_parts, decide_False; [done|]. intros Hz. by rewrite Hz in Hn. }
    assert (Hf : filter (.≠ []) ps = ps) by apply filter_ne_idemp.
    split; [|split; [|split]].
    + unfold abs_path at 1. rewrite path_from_abs. fold (abs_path ps). by rewrite Hps, Hf.
    + right. apply is_canonical_iff. rewrite Hps. apply filter_ne_Forall.
    + apply starts_with_sep. by eexists.
    + by rewrite Hps, Hf.
  - rewrite (path_from_rel s), (parts_rel s) by done.
    pose proof (join_parts_rel s Ha) as Hja. pose proof (split_nonempty_parts s) as Hsp.
    cbn zeta in Hsp. set (ps := filter (.≠ []) (split_from false s)) in *.
    assert (Hf : filter (.≠ []) ps = ps) by apply filter_ne_idemp.
    rewrite path_from_rel, parts_rel, Hsp by done.
    destruct (decide (ps = [])) as [Hn|Hn].
    + rewrite Hn. split; [done|split; [by left|by split]].
    + rewrite Hf. split; [done|split; [|by split]]. right.
      apply is_canonical_iff. rewrite parts_rel, Hsp by done.
      apply filter_ne_Forall.
Qed.

(** On the canonical path with components [ps ++ [x]], [dirname] is the path
    of [ps] ([None] at the first level), [basename] is [x], [levels] counts the
    components and [parts] lists them; the root has neither name and no level. *)
Theorem dirname_basename_levels ps x :
  Forall comp_ok (ps ++ [x]) →
  dirname (abs_path (ps ++ [x])) = (if decide (ps = []) then None else Some (abs_path ps)) ∧
  basename (abs_path (ps ++ [x])) = Some x ∧
  levels (abs_path (ps ++ [x])) = zlen ps + 1 ∧
  parts (abs_path (ps ++ [x])) = ps ++ [x] ∧
  dirname ROOT = None ∧ basename ROOT = None ∧ levels ROOT = 0.
Proof.
  intros Hf. pose proof Hf as [Hp Hx]%Forall_app. rewrite Forall_singleton in Hx.
  split; [by apply dirname_snoc|]. split; [by apply basename_snoc|].
  split; [by rewrite levels_spec, zlen_app by done|]. split; [by apply parts_abs|].
  split; [apply dirname_root|]. split; [apply basename_root|].
  exact (levels_spec [] (Forall_nil_2 _)).
Qed.

(** On canonical absolute paths [is_parent], [is_immediate_parent] and
    [strip_prefix] decide, and compute the rest of, the prefix order on
    components: "/foo/bar" is no parent of "/foo/bareth". *)
Theorem is_parent_is_component_prefix ps qs :
  Forall comp_ok ps → Forall comp_ok qs →
  (is_parent (abs_path ps) (abs_path qs) = true ↔ ps `prefix_of` qs) ∧
  (is_immediate_parent (abs_path ps) (abs_path qs) = true ↔ ∃ x, qs = ps ++ [x]) ∧
  (∀ rs, qs = ps ++ rs → strip_prefix (abs_path ps) (abs_path qs) = Some (join rs)) ∧
  (¬ ps `prefix_of` qs → strip_prefix (abs_path ps) (abs_path qs) = None).
Proof.
  intros Hp Hq. split; [by rewrite is_parent_spec, bool_decide_eq_true|].
  split; [by apply is_immediate_parent_spec|]. split.
  - intros rs ->. apply Forall_app in Hq as [_ Hr]. by apply strip_prefix_app.
  - by apply strip_prefix_none.
Qed.

(** [lcp] terminates on canonical absolute paths with the path of the
    longest list of components that is a prefix of both. *)
Theorem lcp_longest ps qs :
  Forall comp_ok ps → Forall comp_ok qs →
  ∃ r, lcp (abs_path ps) (abs_path qs) = Some (abs_path r) ∧ is_lcp r ps qs.
Proof. apply lcp_spec. Qed.

(** Building paths. [append] adds the non empty parts of its argument, so an
    escaped part adds exactly one level; a path collected from non empty
    strings has one component for each, and unescaping them gives the strings
    back. *)
Theorem append_and_collect ps other cs c :
  Forall comp_ok ps → Forall (.≠ []) cs → c ≠ [] →
  append (abs_path ps) other = abs_path (ps ++ filter (.≠ []) (split_from false other)) ∧
  append (abs_path ps) (escape c) = abs_path (ps ++ [escape c]) ∧
  unescape <$> parts (from_iter cs) = cs.
Proof.
  intros Hp Hcs Hc. split; [by apply append_spec|].
  pose proof (escape_comp_ok c Hc) as (He1 & He2 & _). split.
  - rewrite append_spec, split_from_free by done.
    by rewrite filter_cons_True, filter_nil by done.
  - rewrite from_iter_spec, parts_abs.
    + rewrite <- list_fmap_compose. rewrite <- (list_fmap_id cs) at 2.
      apply list_fmap_ext. intros i x _. apply unescape_escape.
    + apply Forall_fmap. eapply Forall_impl; [exact Hcs|]. intros x Hx.
      by apply escape_comp_ok.
Qed.

(** [DirNames] from the back enumerates every canonical path and its
    ancestors, the path first and the root last. From the front it enumerates
    the same in the other order for paths without escapes whose first component
    starts with an ASCII character, when there is more than one component or
    the only one has more than one byte. *)
Theorem dirnames_enumerate_ancestors ps c x qs :
  Forall comp_ok ps → Forall plain ((c :: x) :: qs) → bZ c < 0x80 → (x ≠ [] ∨ qs ≠ []) →
  dirnames_back_list (abs_path ps) = rev (ancestors ps) ∧
  dirnames_list (abs_path ((c :: x) :: qs)) = Ok (ancestors ((c :: x) :: qs)).
Proof. intros. split; [by apply dirnames_back_spec|by apply dirnames_forward]. Qed.

(** What the side conditions of the forward enumeration exclude. The first
    step moves past the first byte of the first component unseen: "/a" is
    never produced for itself, and a first component that starts with a
    character of several bytes is sliced inside it and panics. [find_sep] gives
    up at the first escaped separator, so the ancestors between are skipped. *)
Theorem dirnames_forward_gaps :
  dirnames_list (lit "/a") = Ok [lit "/"] ∧
  dirnames_list (lit "/é/b") = Panic ∧
  dirnames_list (lit "/x\/y/z/w") = Ok [lit "/"; lit "/x\/y/z/w"] ∧
  dirnames_back_list (lit "/x\/y/z/w") =
    [lit "/x\/y/z/w"; lit "/x\/y/z"; lit "/x\/y"; lit "/"].
Proof.
  split; [rewrite dirnames_list_ref; by vm_compute|].
  split; [rewrite dirnames_list_ref; by vm_compute|].
  split; [rewrite dirnames_list_ref; by vm_compute|].
  rewrite dirnames_back_list_ref. by vm_compute.
Qed.
End Theorems.

(** ** The theorems at concrete paths *)

Definition demo_comps : list str := [lit "foo"; lit "bar\/x"; lit "baz"].

Lemma path_from_normal_form_witness :
  EscapingOk escaping_ref ∧
  path_from (ES := escaping_ref) (path_from (ES := escaping_ref) (lit "/a//b\/c/")) =
  path_from (ES := escaping_ref) (lit "/a//b\/c/").
Proof.
  split; [exact escaping_ref_ok|].
  apply (path_from_normal_form (ES := escaping_ref) (lit "/a//b\/c/")).
Defined.

Lemma dirname_basename_levels_witness :
  dirname (ES := escaping_ref) (abs_path ([lit "foo"; lit "bar\/x"] ++ [lit "baz"])) =
  Some (abs_path [lit "foo"; lit "bar\/x"]).
Proof.
  apply (dirname_basename_levels (ES := escaping_ref) [lit "foo"; lit "bar\/x"] (lit "baz")).
  apply comps_ok_dec. by vm_compute.
Defined.

Lemma is_parent_is_component_prefix_witness :
  is_parent (abs_path [lit "foo"; lit "bar"]) (abs_path [lit "foo"; lit "bar"; lit "baz"]) = true.
Proof.
  edestruct (is_parent_is_component_prefix (ES := escaping_ref) [lit "foo"; lit "bar"]
    [lit "foo"; lit "bar"; lit "baz"]) as [H _].
  - apply comps_ok_dec. by vm_compute.
  - apply comps_ok_dec. by vm_compute.
  - apply H. by exists [lit "baz"].
Defined.

Lemma lcp_longest_witness :
  ∃ r, lcp (ES := escaping_ref) (abs_path demo_comps) (abs_path [lit "foo"; lit "q"]) =
    Some (abs_path r) ∧ is_lcp r demo_comps [lit "foo"; lit "q"].
Proof.
  apply (lcp_longest (ES := escaping_ref) demo_comps [lit "foo"; lit "q"]).
  - apply comps_ok_dec. by vm_compute.
  - apply comps_ok_dec. by vm_compute.
Defined.

Lemma append_and_collect_witness :
  append (ES := escaping_ref) (abs_path demo_comps) (escape (Escaping := escaping_ref) (lit "a/b")) =
  abs_path (demo_comps ++ [lit "a\/b"]).
Proof.
  apply (append_and_collect (ES := escaping_ref) demo_comps [] [] (lit "a/b")).
  - apply comps_ok_dec. by vm_compute.
  - done.
  - done.
Defined.

Lemma dirnames_enumerate_ancestors_witness :
  dirnames_back_list (ES := escaping_ref) (abs_path demo_comps) = rev (ancestors demo_comps) ∧
  dirnames_list (ES := escaping_ref) (abs_path [lit "some"; lit "path"]) =
    Ok [lit "/"; lit "/some"; lit "/some/path"].
Proof.
  apply (dirnames_enumerate_ancestors (ES := escaping_ref) demo_comps "s"%byte (lit "ome")
    [lit "path"]).
  - apply comps_ok_dec. by vm_compute.
  - apply plain_dec. by vm_compute.
  - by vm_compute.
  - by left.
Defined.

Lemma dirnames_forward_gaps_witness :
  dirnames_list (ES := escaping_ref) (lit "/a") = Ok [lit "/"].
Proof. apply (dirnames_forward_gaps (ES := escaping_ref)). Defined.
