(* ===== verification/Order.v ===== *)
(** The order of strings and the ordered collections keyed by them. [str],
    [ArcStr] and [Path] compare by bytes; a [BTreeMap]/[BTreeSet] is a finite
    map or set whose iteration and [range] follow that order, and
    [sort_unstable_by] is any sorted rearrangement. *)
From Stdlib Require Import ZArith Lia.
From stdpp Require Import base gmap list strings sorting.
From Stdlib Require Import Strings.Byte.
From S2P Require Import Prelude Varint Pack Containers.

(** ** Lexicographic order on bytes *)

Fixpoint str_cmp (s t : str) : comparison :=
  match s, t with
  | [], [] => Eq
  | [], _ :: _ => Lt
  | _ :: _, [] => Gt
  | x :: s, y :: t =>
      match bZ x ?= bZ y with
      | Eq => str_cmp s t
      | c => c
      end
  end.
Definition str_lt (s t : str) : Prop := str_cmp s t = Lt.
Definition str_le (s t : str) : Prop := str_cmp s t ≠ Gt.
#[export] Instance str_lt_dec : RelDecision str_lt.
Proof. intros s t. unfold str_lt. solve_decision. Defined.
#[export] Instance str_le_dec : RelDecision str_le.
Proof. intros s t. unfold str_le. solve_decision. Defined.

Lemma str_cmp_refl s : str_cmp s s = Eq.
Proof. induction s; cbn; [done|]. by rewrite Z.compare_refl. Qed.
Lemma str_cmp_eq s t : str_cmp s t = Eq ↔ s = t.
Proof.
  split; [|intros ->; apply str_cmp_refl].
  revert t; induction s as [|x s IH]; intros [|y t]; cbn; try done.
  destruct (Z.compare_spec (bZ x) (bZ y)) as [He| |]; try done.
  intros H. f_equal; [by apply bZ_inj|by apply IH].
Qed.
Lemma str_cmp_antisym s t : str_cmp t s = CompOpp (str_cmp s t).
Proof.
  revert t; induction s as [|x s IH]; intros [|y t]; cbn; try done.
  rewrite (Z.compare_antisym (bZ x)). destruct (bZ x ?= bZ y); cbn; auto.
Qed.
Lemma str_lt_trans s t u : str_lt s t → str_lt t u → str_lt s u.
Proof.
  unfold str_lt. revert t u; induction s as [|x s IH]; intros [|y t] [|z u]; cbn; try done.
  destruct (Z.compare_spec (bZ x) (bZ y)), (Z.compare_spec (bZ y) (bZ z)),
    (Z.compare_spec (bZ x) (bZ z)); try done; try lia. apply IH.
Qed.
Lemma str_le_alt s t : str_le s t ↔ str_lt s t ∨ s = t.
Proof.
  unfold str_le, str_lt. rewrite <- str_cmp_eq. destruct (str_cmp s t); naive_solver.
Qed.
Lemma str_lt_irrefl s : ¬ str_lt s s.
Proof. unfold str_lt. by rewrite str_cmp_refl. Qed.
Lemma str_lt_le s t : str_lt s t → str_le s t.
Proof. rewrite str_le_alt. auto. Qed.
Lemma str_not_lt s t : ¬ str_lt s t ↔ str_le t s.
Proof.
  unfold str_lt, str_le. rewrite (str_cmp_antisym s t).
  destruct (str_cmp s t); cbn; naive_solver.
Qed.
Lemma str_not_le s t : ¬ str_le s t ↔ str_lt t s.
Proof.
  unfold str_lt, str_le. rewrite (str_cmp_antisym s t).
  destruct (str_cmp s t); cbn; naive_solver.
Qed.
#[export] Instance str_le_preorder : PreOrder str_le.
Proof.
  split; [intros s; unfold str_le; by rewrite str_cmp_refl|].
  intros s t u. rewrite !str_le_alt. intros [H| ->] [H'| ->]; eauto using str_lt_trans.
Qed.
#[export] Instance str_le_antisymm : AntiSymm (=) str_le.
Proof.
  intros s t [H| ->]%str_le_alt [H'| Heq]%str_le_alt; try done.
  by destruct (str_lt_irrefl s); eapply str_lt_trans.
Qed.
#[export] Instance str_le_total : Total str_le.
Proof.
  intros s t. destruct (decide (str_lt s t)) as [H|H%str_not_lt]; [left|by right].
  by apply str_lt_le.
Qed.
Lemma str_lt_le_trans s t u : str_lt s t → str_le t u → str_lt s u.
Proof. intros H [H'| ->]%str_le_alt; eauto using str_lt_trans. Qed.
Lemma str_le_lt_trans s t u : str_le s t → str_lt t u → str_lt s u.
Proof. intros [H'| ->]%str_le_alt H; eauto using str_lt_trans. Qed.
Lemma str_lt_ne s t : str_lt s t → s ≠ t.
Proof. intros H ->. by eapply str_lt_irrefl. Qed.

(** A string comes before its extensions, and a common prefix does not count. *)
Lemma str_le_app s t : str_le s (s ++ t).
Proof.
  unfold str_le. induction s as [|x s IH]; cbn; [by destruct t|].
  by rewrite Z.compare_refl.
Qed.
Lemma str_lt_app s t : t ≠ [] → str_lt s (s ++ t).
Proof.
  intros Ht. unfold str_lt. induction s as [|x s IH]; cbn; [by destruct t|].
  by rewrite Z.compare_refl.
Qed.
Lemma str_cmp_app p s t : str_cmp (p ++ s) (p ++ t) = str_cmp s t.
Proof. induction p as [|x p IH]; cbn; [done|]. by rewrite Z.compare_refl. Qed.

(** The strings that extend [p] are consecutive: what lies between [p] and an
    extension of [p] extends [p]. *)
Lemma prefix_interval p s t :
  str_le p s → str_lt s (p ++ t) → p `prefix_of` s.
Proof.
  unfold str_le, str_lt. revert s; induction p as [|x p IH]; intros [|y s]; cbn; try done.
  - intros. apply prefix_nil.
  - destruct (Z.compare_spec (bZ x) (bZ y)) as [He|Hl|]; [|..]; try done.
    + rewrite Z.compare_antisym. apply bZ_inj in He as ->. rewrite Z.compare_refl. cbn.
      intros H1 H2. by apply prefix_cons, IH.
    + destruct (Z.compare_spec (bZ y) (bZ x)); try done; lia.
Qed.

(** ** Ordered collections *)

Definition above (lo : Bound str) (s : str) : bool :=
  match lo with
  | Unbounded => true
  | Included a => bool_decide (str_le a s)
  | Excluded a => bool_decide (str_lt a s)
  end.
Definition below (hi : Bound str) (s : str) : bool :=
  match hi with
  | Unbounded => true
  | Included a => bool_decide (str_le s a)
  | Excluded a => bool_decide (str_lt s a)
  end.

Definition key_le {V} (x y : str * V) : Prop := str_le x.1 y.1.
#[export] Instance key_le_dec {V} : RelDecision (@key_le V).
Proof. intros x y. unfold key_le. apply _. Defined.
#[export] Instance key_le_preorder {V} : PreOrder (@key_le V).
Proof. split; [by intros x; apply str_le_preorder|]. intros x y z. apply str_le_preorder. Qed.
#[export] Instance key_le_total {V} : Total (@key_le V).
Proof. intros x y. apply str_le_total. Qed.

(** [BTreeMap::iter] and [BTreeMap::range]; [BTreeSet] likewise *)
Definition bt_iter {V} (m : gmap str V) : list (str * V) := merge_sort key_le (map_to_list m).
Definition bt_range {V} (lo hi : Bound str) (m : gmap str V) : list (str * V) :=
  filter (fun kv => above lo kv.1 && below hi kv.1 = true) (bt_iter m).
Definition bs_iter (s : gset str) : list str := merge_sort str_le (elements s).
Definition bs_range (lo hi : Bound str) (s : gset str) : list str :=
  filter (fun k => above lo k && below hi k = true) (bs_iter s).

Lemma bt_iter_perm {V} (m : gmap str V) : bt_iter m ≡ₚ map_to_list m.
Proof. apply merge_sort_Permutation. Qed.
Lemma bt_iter_sorted {V} (m : gmap str V) : StronglySorted key_le (bt_iter m).
Proof. apply (StronglySorted_merge_sort key_le). Qed.
Lemma elem_of_bt_iter {V} (m : gmap str V) (k : str) (v : V) : (k, v) ∈ bt_iter m ↔ m !! k = Some v.
Proof. by rewrite bt_iter_perm, elem_of_map_to_list. Qed.
Lemma elem_of_bt_range {V} (lo hi : Bound str) (m : gmap str V) (k : str) (v : V) :
  (k, v) ∈ bt_range lo hi m ↔ above lo k = true ∧ below hi k = true ∧ m !! k = Some v.
Proof.
  unfold bt_range. rewrite list_elem_of_filter, elem_of_bt_iter. cbn [fst].
  rewrite andb_true_iff. tauto.
Qed.
Lemma StronglySorted_filter {A} (R : A → A → Prop) (P : A → Prop) `{!∀ x, Decision (P x)} l :
  StronglySorted R l → StronglySorted R (filter P l).
Proof.
  induction 1 as [|x l Hs IH Hx]; [constructor|]. rewrite filter_cons.
  case_decide; [|done]. constructor; [done|]. apply Forall_forall. intros y.
  rewrite list_elem_of_filter. intros [_ Hy]. by eapply Forall_forall in Hx.
Qed.
Lemma bt_range_sorted {V} (lo hi : Bound str) (m : gmap str V) : StronglySorted key_le (bt_range lo hi m).
Proof. apply StronglySorted_filter, bt_iter_sorted. Qed.
Lemma bt_iter_nodup {V} (m : gmap str V) : NoDup (bt_iter m).*1.
Proof. rewrite bt_iter_perm. apply NoDup_fst_map_to_list. Qed.
Lemma bt_range_nodup {V} (lo hi : Bound str) (m : gmap str V) : NoDup (bt_range lo hi m).*1.
Proof.
  apply (sublist_NoDup _ (bt_iter m).*1); [apply bt_iter_nodup|].
  apply fmap_sublist, sublist_filter.
Qed.

Lemma bs_iter_perm (s : gset str) : bs_iter s ≡ₚ elements s.
Proof. apply merge_sort_Permutation. Qed.
Lemma elem_of_bs_iter (s : gset str) k : k ∈ bs_iter s ↔ k ∈ s.
Proof. by rewrite bs_iter_perm, elem_of_elements. Qed.
Lemma bs_iter_sorted (s : gset str) : StronglySorted str_le (bs_iter s).
Proof. apply (StronglySorted_merge_sort str_le). Qed.
Lemma elem_of_bs_range (lo hi : Bound str) (s : gset str) k :
  k ∈ bs_range lo hi s ↔ above lo k = true ∧ below hi k = true ∧ k ∈ s.
Proof.
  unfold bs_range. rewrite list_elem_of_filter, elem_of_bs_iter, andb_true_iff. tauto.
Qed.
Lemma bs_range_sorted (lo hi : Bound str) (s : gset str) : StronglySorted str_le (bs_range lo hi s).
Proof. apply StronglySorted_filter, bs_iter_sorted. Qed.

(** Consuming a sorted list while the elements satisfy an order-convex
    condition that holds from the front: [take_while] is [filter]. *)
Fixpoint take_while {A} (f : A → bool) (l : list A) : list A :=
  match l with
  | [] => []
  | x :: l => if f x then x :: take_while f l else []
  end.
Lemma take_while_filter {A} (R : A → A → Prop) (f : A → bool) l :
  StronglySorted R l →
  (∀ x y, x ∈ l → y ∈ l → R x y → f y = true → f x = true) →
  take_while f l = filter (fun x => f x = true) l.
Proof.
  induction 1 as [|x l Hs IH Hx]; intros Hf; [done|]. cbn [take_while].
  rewrite filter_cons. destruct (f x) eqn:E.
  - rewrite decide_True by done. f_equal. apply IH. intros y z Hy Hz. apply Hf; by constructor.
  - rewrite decide_False by done. clear IH. symmetry.
    apply elem_of_nil_inv. intros y [Hfy Hy]%list_elem_of_filter.
    rewrite (Hf x y) in E; [done|by constructor|by constructor| |done].
    by eapply Forall_forall in Hx.
Qed.

(** ** Unstable sorting *)

(** [v.sort_unstable_by(|a, b| key(a).cmp(key(b)))] *)
Class UnstableSort := {
  sort_unstable_by : ∀ {A}, (A → str) → list A → list A;
  sort_unstable_perm {A} (key : A → str) l : sort_unstable_by key l ≡ₚ l;
  sort_unstable_sorted {A} (key : A → str) l :
    StronglySorted (fun x y => str_le (key x) (key y)) (sort_unstable_by key l)
}.

#[export] Instance by_key_le_dec {A} (key : A → str) :
  RelDecision (fun x y => str_le (key x) (key y)).
Proof. intros x y. apply _. Defined.

Program Definition stable_sort : UnstableSort := {|
  sort_unstable_by A key := merge_sort (fun x y => str_le (key x) (key y))
|}.
Next Obligation. intros. apply merge_sort_Permutation. Qed.
Next Obligation.
  intros A key l.
  assert (Transitive (fun x y => str_le (key x) (key y))) by (intros ???; apply str_le_preorder).
  assert (Total (fun x y => str_le (key x) (key y))) by (intros ??; apply str_le_total).
  apply (StronglySorted_merge_sort (fun x y => str_le (key x) (key y))).
Qed.
