(* ===== verification/Glob.v ===== *)
(** Globs (netidx-netproto/src/glob.rs): scopes, the scan for glob characters,
    the base and scope of a pattern, glob sets and their Pack implementations.
    The globset crate is a parameter ([Globset]); what its documentation says
    of literal text and of sets is [GlobsetOk]. *)
From Stdlib Require Import ZArith Lia.
From stdpp Require Import base gmap list strings sorting.
From Stdlib Require Import Strings.Byte.
From S2P Require Import Prelude Varint Pack Containers Path PathFacts Order.

(** ** [Scope] *)

Inductive Scope :=
| Subtree
| Finite (n : Z).
#[export] Instance Scope_eq_dec : EqDecision Scope.
Proof. solve_decision. Defined.

Definition scope_contains (s : Scope) (levels : Z) : bool :=
  match s with
  | Subtree => true
  | Finite n => levels <=? n
  end.

(** ** The globset crate *)

(** [globset::Glob::new], [GlobSetBuilder::build] and [GlobSet::is_match];
    [glob_matches] is the language of one glob. *)
Class Globset := {
  gglob : Type;
  gglob_new : str → option gglob;
  glob_matches : gglob → str → bool;
  gset_t : Type;
  gset_build : list gglob → option gset_t;
  gset_is_match : gset_t → str → bool
}.

Definition glob_chars : list byte := map Zb [63; 42; 123; 91].
Definition is_glob_char (c : byte) : bool := bool_decide (c ∈ glob_chars).
(** Text without glob characters and escapes stands for itself. *)
Definition literal (p : str) : Prop := Forall (fun c => is_glob_char c = false ∧ c ≠ ESC) p.

Class GlobsetOk (GS : Globset) : Prop := {
  glob_literal_prefix p r g path :
    literal p → gglob_new (p ++ r) = Some g → glob_matches g path = true →
    p `prefix_of` path;
  glob_literal_whole p g path :
    literal p → gglob_new p = Some g → glob_matches g path = true → path = p;
  gset_match gs st path :
    gset_build gs = Some st →
    gset_is_match st path = existsb (fun g => glob_matches g path) gs
}.

(** anyhow errors of [Glob::new] and [GlobSet::new] *)
Inductive GlobError := NotAbsolute | BadGlob | BadSet.

(** The computations of path.rs that slice can only panic. *)
Definition lift_panic {E A} (r : res PackError A) : res E A :=
  match r with
  | Ok a => Ok a
  | _ => Panic
  end.

Section Glob.
Context {ES : Escaping} {GS : Globset}.

(** [Glob::first_glob_char]: every round continues after the match it rejects,
    so [length s] rounds are enough. The index is relative to what is left. *)
Fixpoint first_glob_loop (fuel : nat) (s : str) : option nat :=
  match fuel with
  | O => None
  | S fuel =>
      if decide (s = []) then None
      else match fst <$> list_find (fun c => is_glob_char c = true) s with
      | None => None
      | Some i => if is_escaped s i then first_glob_loop fuel (drop (i + 1) s) else Some i
      end
  end.
Definition first_glob_char (s : str) : option nat := first_glob_loop (S (length s)) s.
Definition is_glob (s : str) : bool := bool_decide (is_Some (first_glob_char s)).

Record Glob := MkGlob { raw : str; base : str; scope : Scope; glob : gglob }.

(** [Glob::plain] *)
Definition glob_plain (g : Glob) : res PackError str :=
  match first_glob_char (raw g) with
  | None => Ok (raw g)
  | Some i => slice_to (raw g) (Z.of_nat i)
  end.

(** The loop of [Glob::new] that finds the base *)
Fixpoint base_loop (fuel : nat) (cur : str) (iter : DirNames) : res PackError str :=
  match fuel with
  | O => Ok cur
  | S fuel =>
      res_bind (dirnames_next iter) (fun '(o, iter) =>
      match o with
      | None => Ok cur
      | Some p => if is_glob p then Ok cur else base_loop fuel p iter
      end)
  end.
(** [iter.skip(lvl).any(|p| Path::basename(p) == Some("**"))] *)
Fixpoint any_globstar (fuel : nat) (skip : nat) (iter : DirNames) : res PackError bool :=
  match fuel with
  | O => Ok false
  | S fuel =>
      res_bind (dirnames_next iter) (fun '(o, iter) =>
      match o with
      | None => Ok false
      | Some p =>
          match skip with
          | S skip => any_globstar fuel skip iter
          | O =>
              if decide (basename p = Some (lit "**")) then Ok true
              else any_globstar fuel O iter
          end
      end)
  end.

(** [Glob::new] *)
Definition Glob_new (raw : str) : res GlobError Glob :=
  if negb (is_absolute raw) then Err NotAbsolute
  else
    let fuel := S (S (length raw)) in
    res_bind (lift_panic (base_loop fuel ROOT (dirnames raw))) (fun base =>
    let lvl := levels base in
    let base := path_from base in
    res_bind (lift_panic (any_globstar fuel (Z.to_nat lvl) (dirnames raw))) (fun star =>
    let scope := if (star : bool) then Subtree else Finite (levels raw) in
    match gglob_new raw with
    | None => Err BadGlob
    | Some glob => Ok (MkGlob raw base scope glob)
    end)).

(** ** [GlobSet] *)

Context {US : UnstableSort}.

Record GlobSet := MkGlobSet { gs_raw : list Glob; published_only : bool; gs_glob : gset_t }.

(** [GlobSet::new] *)
Definition GlobSet_new (published_only : bool) (globs : list Glob) : res GlobError GlobSet :=
  let raw := sort_unstable_by base globs in
  match gset_build (glob <$> globs) with
  | None => Err BadSet
  | Some st => Ok (MkGlobSet raw published_only st)
  end.

Fixpoint try_globs (cs : list str) : res GlobError (list Glob) :=
  match cs with
  | [] => Ok []
  | c :: cs =>
      res_bind (Glob_new c) (fun g => res_bind (try_globs cs) (fun gs => Ok (g :: gs)))
  end.
(** The four [TryFrom] implementations, from slices and vectors of strings *)
Definition GlobSet_try_from (cs : list str) : res GlobError GlobSet :=
  res_bind (try_globs cs) (GlobSet_new false).

Definition gs_is_match (s : GlobSet) (path : str) : bool := gset_is_match (gs_glob s) path.

(** [GlobSet::disjoint]: the inner and the outer loop *)
Fixpoint disjoint_inner (plain0 : str) (gs : list Glob) : res PackError bool :=
  match gs with
  | [] => Ok true
  | g1 :: gs =>
      res_bind (glob_plain g1) (fun plain1 =>
      if starts_with plain0 plain1 || starts_with plain1 plain0 || bool_decide (plain0 = plain1)
      then Ok false else disjoint_inner plain0 gs)
  end.
Fixpoint disjoint_outer (gs0 gs1 : list Glob) : res PackError bool :=
  match gs0 with
  | [] => Ok true
  | g0 :: gs0 =>
      res_bind (glob_plain g0) (fun plain0 =>
      res_bind (disjoint_inner plain0 gs1) (fun b =>
      if (b : bool) then disjoint_outer gs0 gs1 else Ok false))
  end.
Definition gs_disjoint (s0 s1 : GlobSet) : res PackError bool :=
  disjoint_outer (gs_raw s0) (gs_raw s1).

(** ** Pack *)

Context {LY : Layout}.

(** [.map_err(|_| PackError::InvalidFormat)] *)
Definition invalid_format {E A} (r : res E A) : res PackError A :=
  match r with
  | Ok a => Ok a
  | Err _ => Err InvalidFormat
  | Panic => Panic
  end.

Definition Glob_pack : Pack Glob :=
  simple_pack (layout "Glob" []) None
    (fun g => encoded_len ArcStr_pack (raw g)) (fun g => encode ArcStr_pack (raw g))
    (let! raw := decode ArcStr_pack in fun bs => (invalid_format (Glob_new raw), bs)).

Definition globs_pack : Pack (list Glob) := GPooled_pack [] (Vec_pack Glob_pack).

Definition GlobSet_pack : Pack GlobSet :=
  simple_pack (layout "GlobSet" []) None
    (fun s => encoded_len bool_pack (published_only s) + encoded_len globs_pack (gs_raw s))
    (fun s => encode bool_pack (published_only s) ;;; encode globs_pack (gs_raw s))
    (let! published_only := decode bool_pack in
     let! raw := decode globs_pack in
     match gset_build (glob <$> raw) with
     | None => dthrow InvalidFormat
     | Some st => dret (MkGlobSet (sort_unstable_by base raw) published_only st)
     end).
End Glob.

(** ** The scan for glob characters *)

(** The position of the first glob character that is not escaped *)
Fixpoint glob_index (esc : bool) (s : str) : option nat :=
  match s with
  | [] => None
  | c :: s =>
      if is_glob_char c && negb esc then Some O
      else S <$> glob_index (esc_next esc c) s
  end.

Definition glob_free (s : str) : Prop := Forall (fun c => is_glob_char c = false) s.

Lemma glob_index_app e p s :
  glob_free p →
  glob_index e (p ++ s) = (fun i => length p + i)%nat <$> glob_index (esc_state e p) s.
Proof.
  intros Hp. revert e; induction Hp as [|c p Hc Hp IH]; intros e; cbn [app glob_index length].
  - cbn [esc_state foldl]. by destruct (glob_index e s).
  - rewrite Hc. cbn [andb]. rewrite IH. change (esc_state e (c :: p)) with
      (esc_state (esc_next e c) p). by destruct (glob_index _ s).
Qed.

Lemma glob_char_not_esc c : is_glob_char c = true → esc_next true c = false ∧ c ≠ ESC.
Proof.
  intros H. destruct (decide (c = ESC)) as [->|Hc]; [by vm_compute in H|].
  split; [|done]. unfold esc_next. by rewrite decide_False.
Qed.

Lemma esc_state_no_esc p : ESC ∉ p → esc_state false p = false.
Proof.
  induction p as [|c p IH]; [done|]. intros [Hc Hp]%not_elem_of_cons.
  change (esc_state (esc_next false c) p = false). unfold esc_next.
  rewrite decide_False by done. auto.
Qed.

Lemma glob_split s :
  (glob_free s ∧ fst <$> list_find (fun c => is_glob_char c = true) s = None) ∨
  ∃ p c t, s = p ++ c :: t ∧ glob_free p ∧ is_glob_char c = true ∧
    fst <$> list_find (fun c => is_glob_char c = true) s = Some (length p).
Proof.
  destruct (list_find (fun c => is_glob_char c = true) s) as [[i c]|] eqn:E.
  - right. apply list_find_Some in E as (Hi & Hc & Hlt).
    exists (take i s), c, (drop (S i) s).
    pose proof (lookup_lt_Some _ _ _ Hi).
    split; [by rewrite take_drop_middle|]. split; [|split; [done|]].
    + apply Forall_lookup. intros j x [Hj ?]%lookup_take_Some.
      destruct (is_glob_char x) eqn:Ex; [|done]. by destruct (Hlt j x).
    + cbn. rewrite length_take. f_equal. lia.
  - left. split; [|done]. apply list_find_None in E.
    apply Forall_forall. intros c Hc. rewrite Forall_forall in E. specialize (E c Hc).
    by destruct (is_glob_char c).
Qed.

Section Scan.
Context {ES : Escaping} {ESO : EscapingOk ES}.

(** The loop against the specification: the answer is the same up to the part
    already skipped, which ends in an escaped glob character. *)
Lemma first_glob_loop_spec fuel s :
  (length s < fuel)%nat →
  match first_glob_loop fuel s with
  | None => glob_index false s = None
  | Some i => ∃ a t, s = a ++ t ∧ glob_index false s = Some (length a + i)%nat ∧
      (a ≠ [] → ESC ∈ a)
  end.
Proof.
  revert s; induction fuel as [|fuel IH]; intros s Hs; [lia|]. cbn [first_glob_loop].
  case_decide as Hn; [by subst|].
  destruct (glob_split s) as [[Hf ->]|(p & c & t & -> & Hf & Hc & ->)].
  - rewrite <- (app_nil_r s). by rewrite glob_index_app.
  - rewrite is_escaped_spec, take_app_length, glob_index_app by done.
    cbn [glob_index]. rewrite Hc. destruct (esc_state false p) eqn:He.
    + cbn [andb negb]. rewrite (proj1 (glob_char_not_esc c Hc)).
      replace (drop (length p + 1) (p ++ c :: t)) with t
        by (by rewrite drop_app_add).
      specialize (IH t). destruct (first_glob_loop fuel t) as [i|].
      * destruct IH as (a & u & -> & -> & Ha).
        { rewrite length_app in Hs. cbn in Hs. lia. }
        exists (p ++ c :: a), u. cbn. rewrite <- app_assoc. split; [done|]. split.
        { f_equal. rewrite length_app. cbn. lia. }
        intros _. destruct (decide (ESC ∈ p)) as [|Hp]; [set_solver|].
        exfalso. clear -He Hp. rewrite esc_state_no_esc in He; done.
      * rewrite IH; [done|]. rewrite length_app in Hs. cbn in Hs. lia.
    + cbn [andb negb]. exists [], (p ++ c :: t). split; [done|]. cbn. split; [|done].
      by rewrite Nat.add_0_r.
Qed.
End Scan.

(** ** Base and scope of a pattern *)

Section Base.
Context {ES : Escaping} {ESO : EscapingOk ES}.

Lemma is_glob_spec s : is_glob s = bool_decide (is_Some (glob_index false s)).
Proof.
  unfold is_glob, first_glob_char. apply bool_decide_ext.
  pose proof (first_glob_loop_spec (S (length s)) s ltac:(lia)) as H.
  destruct (first_glob_loop _ s) as [i|].
  - destruct H as (a & t & _ & -> & _). split; eauto.
  - by rewrite H.
Qed.

(** Without escapes the scan is exact. *)
Lemma first_glob_exact s : ESC ∉ s → first_glob_char s = glob_index false s.
Proof.
  intros Hs. unfold first_glob_char.
  pose proof (first_glob_loop_spec (S (length s)) s ltac:(lia)) as H.
  destruct (first_glob_loop _ s) as [i|]; [|done].
  destruct H as (a & t & -> & -> & Ha). destruct a as [|c a]; [done|].
  assert (ESC ∈ c :: a) by auto. set_solver.
Qed.

Lemma glob_index_free e s : glob_free s → glob_index e s = None.
Proof. intros Hs. rewrite <- (app_nil_r s). by rewrite glob_index_app. Qed.

Lemma glob_index_plain s : ESC ∉ s → glob_index false s = None ↔ glob_free s.
Proof.
  intros Hs. split; [|apply glob_index_free].
  destruct (glob_split s) as [[Hf _]|(p & c & t & -> & Hf & Hc & _)]; [done|].
  rewrite glob_index_app by done. rewrite esc_state_no_esc by set_solver.
  cbn. by rewrite Hc.
Qed.

Lemma is_glob_plain s : ESC ∉ s → is_glob s = false ↔ glob_free s.
Proof.
  intros Hs. rewrite is_glob_spec, bool_decide_eq_false, <- eq_None_not_Some.
  by apply glob_index_plain.
Qed.

Lemma join_elem (P : byte → Prop) ps :
  P SEP → Forall (Forall P) ps → Forall P (join ps).
Proof.
  intros Hs. induction 1 as [|p ps Hp Hps IH]; [done|]. destruct ps; [done|].
  cbn [join] in *. apply Forall_app. split; [done|]. by constructor.
Qed.

Lemma join_elem_inv (P : byte → Prop) ps : Forall P (join ps) → Forall (Forall P) ps.
Proof.
  induction ps as [|p ps IH]; [done|]. rewrite join_tail, Forall_app. intros [Hp Ht].
  constructor; [done|]. destruct ps; [done|]. apply IH. by apply Forall_cons in Ht as [_ ?].
Qed.

Lemma plain_no_esc ps : Forall plain ps → ESC ∉ abs_path ps.
Proof.
  intros Hp Hin. assert (H : Forall (.≠ ESC) (abs_path ps)).
  { constructor; [done|]. apply join_elem; [done|]. eapply Forall_impl; [exact Hp|].
    intros p (_ & _ & He & _). apply Forall_forall. by intros x Hx ->. }
  rewrite Forall_forall in H. by apply (H ESC).
Qed.

Lemma abs_glob_free ps : glob_free (abs_path ps) ↔ Forall glob_free ps.
Proof.
  unfold abs_path, glob_free. split.
  - intros [_ H]%Forall_cons. by apply join_elem_inv.
  - intros H. constructor; [done|]. by apply join_elem.
Qed.

Lemma is_glob_abs ps : Forall plain ps → is_glob (abs_path ps) = false ↔ Forall glob_free ps.
Proof. intros H. rewrite is_glob_plain by (by apply plain_no_esc). apply abs_glob_free. Qed.

Lemma plain_comp_ok p : plain p → comp_ok p.
Proof.
  intros (Hn & Hs & He & _). split; [done|]. split; [|by apply esc_state_no_esc].
  intros i Hi. destruct Hs. by eapply list_elem_of_lookup_2.
Qed.
Lemma plain_comps ps : Forall plain ps → Forall comp_ok ps.
Proof. intros H. eapply Forall_impl; [exact H|]. apply plain_comp_ok. Qed.

Lemma ancestors_app ps rs :
  ancestors (ps ++ rs) =
  ancestors ps ++ ((fun n => abs_path (ps ++ take n rs)) <$> seq 1 (length rs)).
Proof.
  unfold ancestors. rewrite length_app.
  replace (S (length ps + length rs)) with (S (length ps) + length rs)%nat by lia.
  rewrite seq_app, fmap_app. f_equal.
  - apply list_fmap_ext. intros i k [-> Hk]%lookup_seq. by rewrite take_app_le by lia.
  - replace (0 + S (length ps))%nat with (length ps + 1)%nat by lia.
    rewrite <- fmap_add_seq, <- list_fmap_compose. apply list_fmap_ext.
    intros i k _. unfold compose. by rewrite take_app_add.
Qed.

Lemma ancestors_last ps : ∃ l, ancestors ps = l ++ [abs_path ps] ∧ length l = length ps.
Proof.
  exists ((fun n => abs_path (take n ps)) <$> seq 0 (length ps)). unfold ancestors.
  rewrite seq_S, fmap_app, length_fmap, length_seq. cbn. by rewrite firstn_all.
Qed.

Lemma base_loop_collect fuel cur it l :
  dirnames_collect fuel it = Ok l →
  base_loop fuel cur it = Ok (default cur (last (take_while (negb ∘ is_glob) l))).
Proof.
  revert cur it l; induction fuel as [|fuel IH]; intros cur it l; cbn; [by intros [= <-]|].
  destruct (dirnames_next it) as [[[p|] it']| |]; cbn; try done; [|by intros [= <-]].
  destruct (dirnames_collect fuel it') as [l'| |] eqn:E; cbn; try done. intros [= <-].
  cbn [take_while compose]. destruct (is_glob p); cbn [negb]; [done|].
  rewrite (IH p it' l' E), last_cons. by destruct (last _).
Qed.

Lemma any_globstar_collect fuel k it l :
  dirnames_collect fuel it = Ok l →
  any_globstar fuel k it =
    Ok (existsb (fun p => bool_decide (basename p = Some (lit "**"))) (drop k l)).
Proof.
  revert k it l; induction fuel as [|fuel IH]; intros k it l; cbn;
    [intros [= <-]; by rewrite drop_nil|].
  destruct (dirnames_next it) as [[[p|] it']| |]; cbn; try done;
    [|intros [= <-]; by rewrite drop_nil].
  destruct (dirnames_collect fuel it') as [l'| |] eqn:E; cbn; try done. intros [= <-].
  destruct k; [|cbn [drop]; by apply IH]. cbn [drop existsb]. rewrite (IH O it' l' E). cbn [drop].
  case_decide; [by rewrite bool_decide_true|by rewrite bool_decide_false].
Qed.
End Base.

(** ** Theorems *)

(** The components before the first one with a glob character *)
Definition literal_comps (ps : list str) : list str :=
  take_while (fun p => forallb (fun c => negb (is_glob_char c)) p) ps.

Lemma glob_free_dec p : forallb (fun c => negb (is_glob_char c)) p = true ↔ glob_free p.
Proof.
  rewrite forallb_forall. unfold glob_free. rewrite Forall_forall. split.
  - intros H c Hc%list_elem_of_In. specialize (H c Hc). by destruct (is_glob_char c).
  - intros H c Hc%list_elem_of_In. by rewrite H.
Qed.

Lemma literal_comps_split ps :
  ∃ rs, ps = literal_comps ps ++ rs ∧ Forall glob_free (literal_comps ps) ∧
    match rs with [] => True | r :: _ => ¬ glob_free r end.
Proof.
  induction ps as [|p ps (rs & Hps & Hf & Hr)]; [by exists []|]. unfold literal_comps in *.
  cbn [take_while]. destruct (forallb _ p) eqn:E.
  - exists rs. rewrite glob_free_dec in E. split; [cbn; by f_equal|]. by split; [constructor|].
  - exists (p :: ps). split; [done|]. split; [done|]. by rewrite <- glob_free_dec, E.
Qed.

Section New.
Context {ES : Escaping} {ESO : EscapingOk ES}.

Lemma take_while_ancestors ps rs :
  Forall plain (ps ++ rs) → Forall glob_free ps →
  match rs with [] => True | r :: _ => ¬ glob_free r end →
  take_while (negb ∘ is_glob) (ancestors (ps ++ rs)) = ancestors ps.
Proof.
  intros Hp Hf Hr. rewrite ancestors_app.
  assert (Ha : ∀ l, take_while (negb ∘ is_glob) (ancestors ps ++ l) =
    ancestors ps ++ take_while (negb ∘ is_glob) l).
  { intros l. unfold ancestors. induction (seq 0 (S (length ps))) as [|n ns IH]; [done|].
    cbn [fmap list_fmap app take_while compose]. rewrite IH.
    apply Forall_app in Hp as [Hp _].
    by rewrite (proj2 (is_glob_abs (take n ps) (Forall_take _ _ _ Hp)) (Forall_take _ _ _ Hf)). }
  rewrite Ha. destruct rs as [|r rs]; [by rewrite app_nil_r|].
  cbn [length seq fmap list_fmap take_while compose take]. rewrite take_0.
  destruct (is_glob (abs_path (ps ++ [r]))) eqn:E; [apply app_nil_r|].
  apply is_glob_abs in E.
  - apply Forall_app in E as [_ E]. by apply Forall_cons in E as [? _].
  - rewrite !Forall_app in Hp. rewrite Forall_app. split; [apply Hp|].
    destruct Hp as [_ Hp]. apply Forall_cons in Hp as [? _]. by constructor.
Qed.

Lemma globstar_spec ps rs :
  Forall plain (ps ++ rs) → Forall glob_free ps →
  existsb (fun p => bool_decide (basename p = Some (lit "**")))
    (drop (length ps) (ancestors (ps ++ rs))) = bool_decide (lit "**" ∈ ps ++ rs).
Proof.
  intros Hp Hf. destruct (ancestors_last ps) as (l & Hl & Hn).
  rewrite ancestors_app, Hl, <- app_assoc, <- Hn, drop_app_length. cbn [app existsb].
  assert (Hstar : ∀ p, glob_free p → p ≠ lit "**").
  { intros p Hpf ->. by vm_compute in Hpf; apply Forall_cons in Hpf as [? _]. }
  apply plain_comps, Forall_app in Hp as [Hps Hrs].
  rewrite bool_decide_false; cbn [orb].
  2:{ destruct ps as [|x ps _] using rev_ind; [by rewrite basename_root|].
      apply Forall_app in Hps as [Hps Hx]. apply Forall_cons in Hx as [Hx _].
      apply Forall_app in Hf as [_ Hf]. apply Forall_cons in Hf as [Hf _].
      rewrite basename_snoc by done. intros [= ->]. by apply (Hstar _ Hf). }
  apply eq_bool_prop_intro. rewrite !Is_true_true, bool_decide_eq_true, existsb_exists.
  split.
  - intros (y & Hy & Hb). apply list_elem_of_In, list_elem_of_fmap in Hy as (n & -> & Hn').
    apply elem_of_seq in Hn'. destruct n as [|n]; [lia|].
    destruct (lookup_lt_is_Some_2 rs n ltac:(lia)) as [x Hx].
    rewrite (take_S_r _ _ _ Hx), app_assoc in Hb. apply bool_decide_eq_true in Hb.
    rewrite basename_snoc in Hb.
    + injection Hb as ->. apply elem_of_app. right. by eapply list_elem_of_lookup_2.
    + apply Forall_app. split; [done|]. by apply Forall_take.
    + by eapply Forall_lookup_1 in Hx.
  - intros [Hin|Hin]%elem_of_app.
    { rewrite Forall_forall in Hf. by destruct (Hstar _ (Hf _ Hin)). }
    apply list_elem_of_lookup in Hin as [n Hx]. pose proof (lookup_lt_Some _ _ _ Hx).
    exists (abs_path (ps ++ take (S n) rs)). split.
    + apply list_elem_of_In, list_elem_of_fmap. exists (S n). split; [done|].
      apply elem_of_seq. lia.
    + rewrite (take_S_r _ _ _ Hx), app_assoc. apply bool_decide_eq_true, basename_snoc.
      * apply Forall_app. split; [done|]. by apply Forall_take.
      * by eapply Forall_lookup_1 in Hx.
Qed.
End New.

Section Claims.
Context {ES : Escaping} {ESO : EscapingOk ES} {GS : Globset}.

Definition glob_of (ps : list str) (g : gglob) : Glob :=
  MkGlob (abs_path ps) (abs_path (literal_comps ps))
    (if decide (lit "**" ∈ ps) then Subtree else Finite (zlen ps)) g.

(** The side conditions of the forward enumeration of ancestors *)
Definition enumerable (ps : list str) : Prop :=
  Forall plain ps ∧
  ∃ c x qs, ps = (c :: x) :: qs ∧ bZ c < 0x80 ∧ (x ≠ [] ∨ qs ≠ []).

Lemma Glob_new_spec ps :
  enumerable ps →
  Glob_new (abs_path ps) =
    match gglob_new (abs_path ps) with
    | Some g => Ok (glob_of ps g)
    | None => Err BadGlob
    end.
Proof.
  intros (Hp & c & x & qs & -> & Hc & Hne). set (ps := (c :: x) :: qs) in *.
  pose proof (dirnames_forward c x qs Hp Hc Hne) as Hd. fold ps in Hd.
  destruct (literal_comps_split ps) as (rs & Hs & Hf & Hr).
  set (ls := literal_comps ps) in *.
  assert (Hpls : Forall plain ls) by (rewrite Hs in Hp; by apply Forall_app in Hp as [? _]).
  unfold Glob_new. change (is_absolute (abs_path ps)) with true. cbn [negb].
  unfold dirnames_list in Hd. rewrite (base_loop_collect _ _ _ _ Hd).
  assert (Hb : default ROOT (last (take_while (negb ∘ is_glob) (ancestors ps))) = abs_path ls).
  { rewrite Hs, take_while_ancestors by (by rewrite <- ?Hs).
    destruct (ancestors_last ls) as (l & -> & _). by rewrite last_snoc. }
  rewrite Hb. cbn [lift_panic res_bind].
  rewrite levels_spec by (by apply plain_comps). unfold zlen at 1. rewrite Nat2Z.id.
  rewrite (any_globstar_collect _ _ _ _ Hd).
  assert (Hst : existsb (fun p => bool_decide (basename p = Some (lit "**")))
    (drop (length ls) (ancestors ps)) = bool_decide (lit "**" ∈ ps)).
  { rewrite Hs. apply globstar_spec; [by rewrite <- Hs|done]. }
  rewrite Hst. cbn [lift_panic res_bind].
  rewrite path_from_abs_path by (by apply plain_comps).
  rewrite levels_spec by (by apply plain_comps).
  destruct (gglob_new (abs_path ps)); [|done]. unfold glob_of. f_equal. f_equal.
  case_decide; [by rewrite bool_decide_true|by rewrite bool_decide_false].
Qed.

(** [Glob::new] on an absolute pattern without escapes. The base is the
    longest run of components before the first glob character, the scope is the
    whole subtree when a component is [**] and otherwise as deep as the pattern.
    A relative pattern, and one the glob compiler refuses, is an error. *)
Theorem glob_new_base_scope ps s :
  enumerable ps → is_absolute s = false →
  Glob_new s = Err NotAbsolute ∧
  Glob_new (abs_path ps) =
    match gglob_new (abs_path ps) with
    | Some g => Ok (MkGlob (abs_path ps) (abs_path (literal_comps ps))
        (if decide (lit "**" ∈ ps) then Subtree else Finite (zlen ps)) g)
    | None => Err BadGlob
    end.
Proof.
  intros H Hs. split; [unfold Glob_new; by rewrite Hs|]. by rewrite Glob_new_spec.
Qed.

Lemma literal_abs ps : Forall plain ps → Forall glob_free ps → literal (abs_path ps).
Proof.
  intros Hp Hf. apply Forall_and. split; [by apply abs_glob_free|].
  pose proof (plain_no_esc ps Hp). apply Forall_forall. by intros c Hc ->.
Qed.

(** The base is sound as a place to search. Whatever a pattern matches is
    the base or lies below it, which is what lets the resolver list a glob by
    scanning the children of its base. *)
Theorem glob_matches_under_base `{GSO : !GlobsetOk GS} ps g path :
  enumerable ps → Glob_new (abs_path ps) = Ok g → glob_matches (glob g) path = true →
  is_parent (base g) path = true.
Proof.
  intros He. rewrite Glob_new_spec by done. destruct He as (Hp & _).
  destruct (gglob_new (abs_path ps)) as [gg|] eqn:E; [|done]. intros [= <-] Hm. cbn in *.
  destruct (literal_comps_split ps) as (rs & Hs & Hf & _).
  set (ls := literal_comps ps) in *.
  destruct (decide (ls = [])) as [->|Hne]; [done|].
  assert (Hpl : Forall plain ls) by (rewrite Hs in Hp; by apply Forall_app in Hp as [? _]).
  pose proof (literal_abs ls Hpl Hf) as Hl. unfold is_parent, starts_with.
  apply orb_true_iff. right. destruct rs as [|r rs].
  - rewrite app_nil_r in Hs. rewrite <- Hs in Hl |- *.
    rewrite (glob_literal_whole _ _ _ Hl E Hm), Z.eqb_refl.
    by rewrite bool_decide_true.
  - assert (Hr : abs_path ps = (abs_path ls ++ [SEP]) ++ join (r :: rs)).
    { rewrite Hs, abs_path_app, !decide_False by done. by rewrite <- app_assoc. }
    assert (Hl' : literal (abs_path ls ++ [SEP])).
    { apply Forall_app. split; [exact Hl|]. by constructor. }
    rewrite Hr in E. destruct (glob_literal_prefix _ _ _ _ Hl' E Hm) as [t ->].
    rewrite !bool_decide_true; [by rewrite orb_true_r| |].
    + rewrite <- app_assoc. cbn [app]. by rewrite list_lookup_middle.
    + rewrite <- app_assoc. by exists ([SEP] ++ t).
Qed.

(** An unescaped glob character, in terms of the text before it *)
Lemma glob_index_exists e s :
  is_Some (glob_index e s) ↔
  ∃ p c t, s = p ++ c :: t ∧ is_glob_char c = true ∧ esc_state e p = false.
Proof.
  revert e; induction s as [|c s IH]; intros e; cbn [glob_index].
  - split; [by intros [? ?]|]. by intros ([|] & ? & ? & ? & _).
  - destruct (is_glob_char c && negb e) eqn:E.
    + split; [intros _|eauto]. apply andb_true_iff in E as [Ec Ee%negb_true_iff].
      by exists [], c, s.
    + rewrite fmap_is_Some, IH. split.
      * intros (p & c' & t & -> & Hc & He). by exists (c :: p), c', t.
      * intros (p & c' & t & Hs & Hc & He). destruct p as [|c0 p]; simplify_eq/=.
        { by rewrite Hc in E. }
        by exists p, c', t.
Qed.

Lemma glob_index_literal s i :
  ESC ∉ s → glob_index false s = Some i →
  ∃ p c t, s = p ++ c :: t ∧ length p = i ∧ literal p ∧ is_glob_char c = true.
Proof.
  intros Hs. destruct (glob_split s) as [[Hf _]|(p & c & t & -> & Hf & Hc & _)].
  - by rewrite glob_index_free.
  - rewrite glob_index_app, esc_state_no_esc by set_solver. cbn. rewrite Hc. cbn.
    intros [= <-]. exists p, c, t. split; [done|]. split; [lia|]. split; [|done].
    apply Forall_and. split; [done|]. apply Forall_forall. intros x Hx ->. set_solver.
Qed.

Lemma glob_char_ascii c : is_glob_char c = true → byte_in 0x80 0xBF c = false.
Proof.
  unfold is_glob_char, glob_chars. rewrite bool_decide_eq_true. cbn [map].
  rewrite !elem_of_cons, elem_of_nil.
  intros [->|[->|[->|[->|[]]]]]; by vm_compute.
Qed.

(** Without escapes [plain] is the longest literal prefix. *)
Lemma glob_plain_literal g :
  ESC ∉ raw g →
  ∃ p, glob_plain g = Ok p ∧ literal p ∧
    (p = raw g ∨ ∃ c t, raw g = p ++ c :: t ∧ is_glob_char c = true).
Proof.
  intros Hs. unfold glob_plain. rewrite first_glob_exact by done.
  destruct (glob_index false (raw g)) as [i|] eqn:E.
  - apply glob_index_literal in E as (p & c & t & Hr & <- & Hl & Hc); [|done].
    exists p. rewrite Hr.
    destruct (slice_at p (c :: t)) as [_ Hto]; [right; eauto using glob_char_ascii|].
    change (Z.of_nat (length p)) with (zlen p). rewrite Hto. split; [done|]. split; [done|].
    eauto.
  - apply glob_index_plain in E; [|done]. exists (raw g). split; [done|]. split; [|by left].
    apply Forall_and. split; [done|]. apply Forall_forall. by intros c Hc ->.
Qed.

(** [is_glob] finds exactly the glob characters that are not escaped, and for
    a pattern without escapes [plain] is the longest prefix of literal text: it
    is the whole pattern or a glob character follows it. *)
Theorem glob_scan_correct s g :
  (is_glob s = true ↔
   ∃ p c t, s = p ++ c :: t ∧ is_glob_char c = true ∧ esc_state false p = false) ∧
  (ESC ∉ raw g → ∃ p, glob_plain g = Ok p ∧ literal p ∧
     (p = raw g ∨ ∃ c t, raw g = p ++ c :: t ∧ is_glob_char c = true)).
Proof.
  split; [|apply glob_plain_literal].
  by rewrite is_glob_spec, bool_decide_eq_true, glob_index_exists.
Qed.

Lemma first_glob_loop_ref fuel s :
  first_glob_loop fuel s = first_glob_loop (ES := escaping_ref) fuel s.
Proof.
  revert s; induction fuel as [|fuel IH]; intros s; [done|]. cbn [first_glob_loop].
  case_decide; [done|]. destruct (fst <$> _) as [i|]; [|done].
  rewrite is_escaped_spec. cbn [is_escaped escaping_ref]. by rewrite IH.
Qed.

(** What goes wrong behind an escaped glob character. The index is counted
    from the place where the scan went on, so [plain] cuts the pattern too
    early, and inside a character it panics. *)
Theorem glob_plain_after_escape g :
  (raw g = lit "/ab\*cd*" → first_glob_char (raw g) = Some 2%nat ∧
     glob_index false (raw g) = Some 7%nat ∧ glob_plain g = Ok (lit "/a")) ∧
  (raw g = lit "/é\*ab*" → glob_plain g = Panic).
Proof.
  unfold glob_plain, first_glob_char. rewrite first_glob_loop_ref.
  split; intros ->; by vm_compute.
Qed.
End Claims.

(** ** Sets *)

Section Sets.
Context {ES : Escaping} {ESO : EscapingOk ES} {GS : Globset} {GSO : GlobsetOk GS}.
Context {US : UnstableSort}.

(** What [Glob::new] made *)
Definition glob_made (g : Glob) : Prop := Glob_new (raw g) = Ok g.

Lemma Glob_new_raw s g : Glob_new s = Ok g → raw g = s ∧ gglob_new s = Some (glob g).
Proof.
  unfold Glob_new. destruct (is_absolute s); cbn; [|done].
  destruct (lift_panic _); cbn; [|done..]. destruct (lift_panic _); cbn; [|done..].
  destruct (gglob_new s); [|done]. by intros [= <-].
Qed.

Lemma plain_matches g p path :
  glob_made g → ESC ∉ raw g → glob_plain g = Ok p →
  glob_matches (glob g) path = true → p `prefix_of` path.
Proof.
  intros [_ Hg]%Glob_new_raw He Hp Hm.
  destruct (glob_plain_literal g He) as (p' & Hp' & Hl & Hr). rewrite Hp in Hp'. injection Hp' as <-.
  destruct Hr as [Hr|(c & t & Hr & _)].
  - rewrite <- Hr in Hg. by rewrite (glob_literal_whole _ _ _ Hl Hg Hm).
  - rewrite Hr in Hg. by eapply glob_literal_prefix.
Qed.

Lemma disjoint_inner_spec p0 gs :
  Forall (fun g => ESC ∉ raw g) gs →
  ∃ b, disjoint_inner p0 gs = Ok b ∧
    (b = true → ∀ g p1, g ∈ gs → glob_plain g = Ok p1 →
       ¬ p1 `prefix_of` p0 ∧ ¬ p0 `prefix_of` p1).
Proof.
  induction 1 as [|g gs Hg Hgs (b & Hb & IH)]; cbn [disjoint_inner].
  { exists true. split; [done|]. intros _ g p1 Hin. by apply elem_of_nil in Hin. }
  destruct (glob_plain_literal g Hg) as (p1 & Hp1 & _). rewrite Hp1. cbn [res_bind].
  unfold starts_with. destruct (decide (p1 `prefix_of` p0)) as [H0|H0];
    [rewrite bool_decide_true by done; by exists false|rewrite bool_decide_false by done].
  destruct (decide (p0 `prefix_of` p1)) as [H1|H1];
    [rewrite bool_decide_true by done; by exists false|rewrite bool_decide_false by done].
  cbn [orb]. rewrite bool_decide_false by (by intros ->).
  exists b. split; [done|]. intros Ht g' p' [->|Hin]%elem_of_cons Hp'; [|by eapply IH].
  rewrite Hp1 in Hp'. by injection Hp' as <-.
Qed.

Lemma disjoint_outer_spec gs0 gs1 :
  Forall (fun g => ESC ∉ raw g) gs0 → Forall (fun g => ESC ∉ raw g) gs1 →
  ∃ b, disjoint_outer gs0 gs1 = Ok b ∧
    (b = true → ∀ g0 g1 p0 p1, g0 ∈ gs0 → g1 ∈ gs1 →
       glob_plain g0 = Ok p0 → glob_plain g1 = Ok p1 →
       ¬ p1 `prefix_of` p0 ∧ ¬ p0 `prefix_of` p1).
Proof.
  intros H0 H1. induction H0 as [|g gs0 Hg Hgs (b & Hb & IH)]; cbn [disjoint_outer].
  { exists true. split; [done|]. intros _ g0 g1 p0 p1 Hin. by apply elem_of_nil in Hin. }
  destruct (glob_plain_literal g Hg) as (p0 & Hp0 & _). rewrite Hp0. cbn [res_bind].
  destruct (disjoint_inner_spec p0 gs1 H1) as (b' & -> & Hb'). cbn [res_bind].
  destruct b'; [|by exists false]. exists b. split; [done|].
  intros Ht g0 g1 p0' p1 [->|Hin]%elem_of_cons Hin1 Hg0 Hg1; [|by eapply IH].
  rewrite Hp0 in Hg0. injection Hg0 as <-. by eapply Hb'.
Qed.

Lemma GlobSet_new_inv po gs s :
  GlobSet_new po gs = Ok s →
  gs_raw s ≡ₚ gs ∧ published_only s = po ∧
  ∀ path, gs_is_match s path = existsb (fun g => glob_matches (glob g) path) gs.
Proof.
  unfold GlobSet_new. destruct (gset_build _) as [st|] eqn:E; [|done].
  intros [= <-]. cbn. split; [apply sort_unstable_perm|]. split; [done|]. intros path.
  unfold gs_is_match. cbn. rewrite (gset_match _ _ _ E).
  clear. induction gs as [|g gs IH]; [done|]. cbn. by rewrite IH.
Qed.

Lemma existsb_elem {A} (f : A → bool) l : existsb f l = true ↔ ∃ x, x ∈ l ∧ f x = true.
Proof.
  rewrite existsb_exists. split; intros (x & ? & ?); exists x; split; try done;
    by apply list_elem_of_In.
Qed.

(** [disjoint] keeps its promise for patterns without escapes: it returns,
    and when the answer is yes no path is matched by both sets. *)
Theorem globset_disjoint_sound po0 po1 gs0 gs1 s0 s1 :
  Forall (fun g => glob_made g ∧ ESC ∉ raw g) gs0 →
  Forall (fun g => glob_made g ∧ ESC ∉ raw g) gs1 →
  GlobSet_new po0 gs0 = Ok s0 → GlobSet_new po1 gs1 = Ok s1 →
  ∃ b, gs_disjoint s0 s1 = Ok b ∧
    (b = true → ∀ path, gs_is_match s0 path = true → gs_is_match s1 path = true → False).
Proof.
  intros H0 H1 (Hp0 & _ & Hm0)%GlobSet_new_inv (Hp1 & _ & Hm1)%GlobSet_new_inv.
  pose proof (proj1 (Forall_and _ _) H0) as [Hd0 He0].
  pose proof (proj1 (Forall_and _ _) H1) as [Hd1 He1].
  destruct (disjoint_outer_spec (gs_raw s0) (gs_raw s1)) as (b & Hb & Hdis);
    [by rewrite Hp0|by rewrite Hp1|].
  exists b. split; [done|]. intros Ht path. rewrite Hm0, Hm1, !existsb_elem.
  intros (g0 & Hin0 & Hg0) (g1 & Hin1 & Hg1).
  rewrite !Forall_forall in *. destruct (H0 _ Hin0) as [M0 E0], (H1 _ Hin1) as [M1 E1].
  destruct (glob_plain_literal g0 E0) as (p0 & Hpl0 & _).
  destruct (glob_plain_literal g1 E1) as (p1 & Hpl1 & _).
  pose proof (plain_matches g0 p0 path M0 E0 Hpl0 Hg0) as Hx0.
  pose proof (plain_matches g1 p1 path M1 E1 Hpl1 Hg1) as Hx1.
  destruct (Hdis Ht g0 g1 p0 p1) as [Hn1 Hn0]; [by rewrite Hp0|by rewrite Hp1|done..|].
  by destruct (prefix_weak_total _ _ _ Hx0 Hx1).
Qed.
End Sets.

(** ** Pack *)

Section PackGlobs.
Context {ES : Escaping} {ESO : EscapingOk ES} {GS : Globset} {GSO : GlobsetOk GS}.
Context {US : UnstableSort} {LY : Layout}.

Definition glob_wf (g : Glob) : Prop := glob_made g ∧ str_wf (raw g).

#[export] Instance Glob_ok : PackOk Glob_pack glob_wf.
Proof.
  split; intros g [Hm Hs]; cbn [encoded_len Glob_pack simple_pack]; [by apply ArcStr_ok|].
  intros Hl. destruct (encode_spec (P := ArcStr_pack) (raw g) Hs Hl) as (bs & He & Hz & Hd).
  exists bs. split; [done|split; [done|]]. intros rest Hr.
  cbn [decode Glob_pack simple_pack]. rewrite (dbind_ok _ _ _ _ _ (Hd rest Hr)).
  by rewrite Hm.
Qed.

Lemma existsb_perm {A} (f : A → bool) l k : l ≡ₚ k → existsb f l = existsb f k.
Proof.
  intros H. apply eq_bool_prop_intro. rewrite !Is_true_true, !existsb_elem.
  by setoid_rewrite H.
Qed.

(** A glob set travels as the flag and the patterns. The receiver compiles
    the patterns again and gets a set with the same flag and the same patterns,
    up to the order of those with equal bases, that matches the same paths. *)
Theorem globset_roundtrip po gs s st :
  GlobSet_new po gs = Ok s → gset_build (glob <$> gs_raw s) = Some st →
  seq_wf Glob_pack (size_of Glob_pack) glob_wf (gs_raw s) →
  encoded_len GlobSet_pack s < MAX_BUF →
  ∃ bs s', encode GlobSet_pack s = (bs, Ok ()) ∧ zlen bs = encoded_len GlobSet_pack s ∧
    (∀ rest, zlen (bs ++ rest) < MAX_BUF → decode GlobSet_pack (bs ++ rest) = (Ok s', rest)) ∧
    published_only s' = po ∧ gs_raw s' ≡ₚ gs ∧
    ∀ path, gs_is_match s' path = gs_is_match s path.
Proof.
  intros (Hp & Hpo & Hmatch)%GlobSet_new_inv Hst Hwf Hlt.
  cbn [encoded_len GlobSet_pack simple_pack] in Hlt |- *.
  pose proof (encoded_len_nonneg (P := globs_pack) _ Hwf) as Hn.
  change (encoded_len bool_pack (published_only s)) with 1 in *.
  destruct (encode_spec (P := bool_pack) (published_only s) I) as (b1 & He1 & Hz1 & Hd1);
    [done|]. destruct (encode_spec (P := globs_pack) (gs_raw s) Hwf) as (b2 & He2 & Hz2 & Hd2);
    [lia|].
  exists (b1 ++ b2), (MkGlobSet (sort_unstable_by base (gs_raw s)) (published_only s) st).
  split; [by apply eseq_ok|]. split; [rewrite zlen_app; change 1 with
    (encoded_len bool_pack (published_only s)); lia|]. split; [|split; [done|split]].
  - intros rest Hr. rewrite <- app_assoc in *. rewrite zlen_app in Hr.
    pose proof (zlen_nonneg b1). cbn [decode GlobSet_pack simple_pack].
    rewrite (dbind_ok _ _ _ _ _ (Hd1 (b2 ++ rest) ltac:(rewrite zlen_app; lia))).
    rewrite (dbind_ok _ _ _ _ _ (Hd2 rest ltac:(lia))). by rewrite Hst.
  - cbn. by rewrite sort_unstable_perm.
  - intros path. rewrite Hmatch. unfold gs_is_match. cbn.
    rewrite (gset_match _ _ _ Hst), <- (existsb_perm _ _ _ Hp).
    clear. induction (gs_raw s) as [|g l IH]; [done|]. cbn. by rewrite IH.
Qed.

Lemma base_loop_ref fuel cur it :
  base_loop fuel cur it = base_loop (ES := escaping_ref) fuel cur it.
Proof.
  revert cur it; induction fuel as [|fuel IH]; intros cur it; [done|]. cbn [base_loop].
  rewrite dirnames_next_ref. destruct (dirnames_next it) as [[[p|] it']| |]; cbn; try done.
  unfold is_glob, first_glob_char. rewrite first_glob_loop_ref. by case_bool_decide.
Qed.

(** A pattern whose first component starts with a character of several bytes
    makes [Glob::new], and with it the decoder of every message that carries a
    glob, panic instead of returning an error. *)
Theorem glob_decode_panics rest :
  zlen rest < MAX_BUF - 6 →
  Glob_new (lit "/é/*") = Panic ∧
  decode Glob_pack ((Zb 5 :: lit "/é/*") ++ rest) = (Panic, rest).
Proof.
  intros Hr. assert (Hn : Glob_new (lit "/é/*") = Panic).
  { unfold Glob_new. change (is_absolute (lit "/é/*")) with true. cbn [negb].
    rewrite base_loop_ref.
    assert (lift_panic (E := GlobError) (base_loop (ES := escaping_ref)
      (S (S (length (lit "/é/*")))) ROOT (dirnames (lit "/é/*"))) = Panic) as -> by
      (by vm_compute). done. }
  split; [done|].
  destruct (encode_spec (P := ArcStr_pack) (lit "/é/*")) as (bs & He & _ & Hd);
    [split; by vm_compute|by vm_compute|].
  assert (Zb 5 :: lit "/é/*" = bs) as -> by (by vm_compute in He; injection He as <-).
  cbn [decode Glob_pack simple_pack]. erewrite dbind_ok; [|apply Hd].
  - by rewrite Hn.
  - vm_compute in He. injection He as <-. rewrite zlen_app.
    change (zlen [_; _; _; _; _; _]) with 6. lia.
Qed.
End PackGlobs.

(** ** The theorems at concrete patterns *)

(** Patterns whose text after the literal prefix matches everything: a
    compiler that meets the laws. *)
Definition literal_char (c : byte) : bool := negb (is_glob_char c) && bool_decide (c ≠ ESC).
Definition prefix_globs : Globset := {|
  gglob := str;
  gglob_new s := Some s;
  glob_matches g path :=
    if forallb literal_char g then bool_decide (path = g)
    else starts_with path (take_while literal_char g);
  gset_t := list str;
  gset_build := Some;
  gset_is_match gs path := existsb (fun g =>
    if forallb literal_char g then bool_decide (path = g)
    else starts_with path (take_while literal_char g)) gs
|}.

Lemma literal_dec p : literal p → forallb literal_char p = true.
Proof.
  intros H. apply forallb_forall. intros c Hc%list_elem_of_In.
  unfold literal in H. rewrite Forall_forall in H. destruct (H c Hc) as [H1 H2].
  unfold literal_char. by rewrite H1, bool_decide_true.
Qed.

Lemma take_while_all {A} (f : A → bool) p r :
  forallb f p = true → take_while f (p ++ r) = p ++ take_while f r.
Proof.
  induction p as [|x p IH]; [done|]. cbn. intros [-> H]%andb_true_iff. by rewrite IH.
Qed.

#[export] Instance prefix_globs_ok : GlobsetOk prefix_globs.
Proof.
  split; [| |by intros gs st path [= <-]].
  - intros p r g path Hp%literal_dec [= <-]. cbn. destruct (forallb _ (p ++ r)).
    + intros ->%bool_decide_eq_true. by exists r.
    + unfold starts_with. rewrite take_while_all by done.
      intros [t ->]%bool_decide_eq_true. rewrite <- app_assoc. by eexists.
  - intros p g path Hp%literal_dec [= <-]. cbn. rewrite Hp.
    by intros ?%bool_decide_eq_true.
Qed.

Definition demo_glob : list str := [lit "solar"; lit "stats"; lit "**"].

Lemma demo_enumerable : enumerable demo_glob.
Proof.
  split; [by apply plain_dec; vm_compute|].
  eexists _, _, _. split; [done|]. split; [by vm_compute|]. by left.
Qed.

Lemma glob_new_base_scope_witness :
  Glob_new (ES := escaping_ref) (GS := prefix_globs) (lit "a") = Err NotAbsolute ∧
  Glob_new (ES := escaping_ref) (GS := prefix_globs) (lit "/solar/stats/**") =
    Ok (MkGlob (GS := prefix_globs) (lit "/solar/stats/**") (lit "/solar/stats") Subtree
      (lit "/solar/stats/**")).
Proof.
  exact (glob_new_base_scope (ES := escaping_ref) (GS := prefix_globs) demo_glob (lit "a")
    demo_enumerable eq_refl).
Defined.

Lemma glob_matches_under_base_witness :
  is_parent (lit "/solar/stats") (lit "/solar/stats/today") = true.
Proof.
  apply (glob_matches_under_base (ES := escaping_ref) (GS := prefix_globs) demo_glob
    (glob_of (GS := prefix_globs) demo_glob (lit "/solar/stats/**")) (lit "/solar/stats/today")
    demo_enumerable); reflexivity.
Defined.

Definition demo_made (s : str) : Glob (GS := prefix_globs) :=
  MkGlob (GS := prefix_globs) s (lit "/") (Finite 1) s.

Lemma glob_scan_correct_witness :
  ∃ p, glob_plain (ES := escaping_ref) (demo_made (lit "/abc*")) = Ok p ∧ literal p ∧
    (p = lit "/abc*" ∨ ∃ c t, lit "/abc*" = p ++ c :: t ∧ is_glob_char c = true).
Proof.
  apply (proj2 (glob_scan_correct (ES := escaping_ref) (lit "x") (demo_made (lit "/abc*")))).
  by apply (bool_decide_eq_true_1 _); vm_compute.
Defined.

Lemma glob_plain_after_escape_witness :
  glob_plain (ES := escaping_ref) (demo_made (lit "/é\*ab*")) = Panic.
Proof.
  exact (proj2 (glob_plain_after_escape (ES := escaping_ref)
    (demo_made (lit "/é\*ab*"))) eq_refl).
Defined.

Lemma glob_decode_panics_witness :
  Glob_new (ES := escaping_ref) (GS := prefix_globs) (lit "/é/*") = Panic ∧
  decode (Glob_pack (ES := escaping_ref) (GS := prefix_globs) (LY := demo_layout))
    ((Zb 5 :: lit "/é/*") ++ []) = (Panic, []).
Proof.
  exact (glob_decode_panics (ES := escaping_ref) (GS := prefix_globs) (LY := demo_layout) []
    eq_refl).
Defined.

Lemma globset_disjoint_sound_witness :
  ∃ b, gs_disjoint (ES := escaping_ref) (GS := prefix_globs)
    (MkGlobSet (GS := prefix_globs) [demo_made (lit "/a*")] true [lit "/a*"])
    (MkGlobSet (GS := prefix_globs) [demo_made (lit "/b*")] true [lit "/b*"]) = Ok b ∧
    (b = true → ∀ path,
       gs_is_match (GS := prefix_globs)
         (MkGlobSet (GS := prefix_globs) [demo_made (lit "/a*")] true [lit "/a*"]) path = true →
       gs_is_match (GS := prefix_globs)
         (MkGlobSet (GS := prefix_globs) [demo_made (lit "/b*")] true [lit "/b*"]) path = true →
       False).
Proof.
  apply (globset_disjoint_sound (ES := escaping_ref) (GS := prefix_globs) (US := stable_sort)
    true true [demo_made (lit "/a*")] [demo_made (lit "/b*")]);
    [| |reflexivity|reflexivity]; apply Forall_singleton;
    (split; [reflexivity|by apply (bool_decide_eq_true_1 _); vm_compute]).
Defined.

Lemma globset_roundtrip_witness :
  let g := demo_made (lit "/a*") in
  let s := MkGlobSet (GS := prefix_globs) [g] true [lit "/a*"] in
  let P := GlobSet_pack (ES := escaping_ref) (GS := prefix_globs) (US := stable_sort)
    (LY := demo_layout) in
  ∃ bs s', encode P s = (bs, Ok ()) ∧ zlen bs = 6 ∧
    (∀ rest, zlen (bs ++ rest) < MAX_BUF → decode P (bs ++ rest) = (Ok s', rest)) ∧
    published_only (GS := prefix_globs) s' = true ∧ gs_raw s' ≡ₚ [g] ∧
    ∀ path, gs_is_match s' path = gs_is_match s path.
Proof.
  intros g s P.
  apply (globset_roundtrip (ES := escaping_ref) (GS := prefix_globs) (US := stable_sort)
    (LY := demo_layout) true [g] s [lit "/a*"]); [reflexivity..| |by vm_compute].
  split; [|by vm_compute]. apply Forall_singleton. split; [reflexivity|split; by vm_compute].
Defined.
