(* ===== verification/Derive.v ===== *)
(** The Pack derive macro (netidx-derive/src/lib.rs). A struct is described by
    its fields, an enum by its variants; [derive_struct] and [derive_enum] are
    the code [encoded_len], [encode] and [decode] of the macro generate for such
    a description. The laws of the generated code follow from the laws of the
    fields. *)
From Stdlib Require Import ZArith Lia.
From stdpp Require Import base gmap list strings sorting.
From Stdlib Require Import Strings.Byte.
From S2P Require Import Prelude Varint Pack Containers.

(** ** Fields *)

(** [#[pack(default)]] and [#[pack(skip)]], with [Default::default()] *)
Inductive attr (T : Type) := Plain | WithDefault (d : T) | Skip (d : T).
Arguments Plain {T}.
Arguments WithDefault {T} d.
Arguments Skip {T} d.

Record field := Fld { fty : Type; fpack : Pack fty; fattr : attr fty }.
Arguments Fld {fty} fpack fattr.

Definition is_skipped (f : field) : bool :=
  match fattr f with
  | Skip _ => true
  | _ => false
  end.

(** The values of the fields *)
Fixpoint tuple (fs : list field) : Type :=
  match fs with
  | [] => unit
  | f :: fs => fty f * tuple fs
  end.

(** [0 #(+ #fields)*] over the fields that are not skipped *)
Fixpoint fields_len (fs : list field) : tuple fs → Z :=
  match fs with
  | [] => fun _ => 0
  | f :: fs => fun v =>
      (if is_skipped f then 0 else encoded_len (fpack f) v.1) + fields_len fs v.2
  end.

(** [#(Pack::encode(field, buf)?);*; Ok(())] *)
Fixpoint fields_encode (fs : list field) : tuple fs → enc PackError :=
  match fs with
  | [] => fun _ => put []
  | f :: fs => fun v =>
      if is_skipped f then fields_encode fs v.2
      else encode (fpack f) v.1 ;;; fields_encode fs v.2
  end.

(** [decode_default], [decode_with_default], [decode_normal] *)
Definition decode_default {T} (d : T) : dec PackError T := dret d.
Definition decode_with_default {T} (P : Pack T) (d : T) : dec PackError T :=
  fun bs =>
    match decode P bs with
    | (Err BufferShort, bs) => (Ok d, bs)
    | r => r
    end.
Definition decode_normal {T} (P : Pack T) : dec PackError T := decode P.

(** [decode_named_field], [decode_unnamed_field] *)
Definition decode_field (f : field) : dec PackError (fty f) :=
  match fattr f with
  | Skip d => decode_default d
  | WithDefault d => decode_with_default (fpack f) d
  | Plain => decode_normal (fpack f)
  end.

Fixpoint fields_decode (fs : list field) : dec PackError (tuple fs) :=
  match fs with
  | [] => dret ()
  | f :: fs => let! x := decode_field f in let! xs := fields_decode fs in dret (x, xs)
  end.

(** ** Structs *)

Definition derive_struct {A} (no_wrap : bool) (size : Z) (fs : list field)
    (to : A → tuple fs) (from : tuple fs → A) : Pack A :=
  let len := fun a =>
    if no_wrap then fields_len fs (to a) else len_wrapped_len (fields_len fs (to a)) in
  let body := let! v := fields_decode fs in dret (from v) in
  simple_pack size None len
    (fun a =>
       if no_wrap then fields_encode fs (to a)
       else len_wrapped_encode (len a) (fields_encode fs (to a)))
    (if no_wrap then body else len_wrapped_decode body).

(** ** Enums *)

Record variant (A : Type) := Var {
  vtag : Z;
  vfields : list field;
  vmake : tuple vfields → A;
  vmatch : A → option (tuple vfields)
}.
Arguments Var {A} _ _ _ _.
Arguments vtag {A} _.
Arguments vfields {A} _.
Arguments vmake {A} _ _.
Arguments vmatch {A} _ _.

(** [match self { .. }]; the match is exhaustive *)
Fixpoint enum_len {A} (vs : list (variant A)) (a : A) : Z :=
  match vs with
  | [] => 0
  | v :: vs => match vmatch v a with Some x => fields_len _ x | None => enum_len vs a end
  end.
Fixpoint enum_encode {A} (vs : list (variant A)) (a : A) : enc PackError :=
  match vs with
  | [] => ([], Panic)
  | v :: vs =>
      match vmatch v a with
      | Some x => encode u8_pack (UInt (vtag v)) ;;; fields_encode _ x
      | None => enum_encode vs a
      end
  end.
(** [match <u8 as Pack>::decode(buf)? { .. }] with the [other] variant if any *)
Fixpoint enum_decode {A} (other : option A) (vs : list (variant A)) (tag : Z)
  : dec PackError A :=
  match vs with
  | [] => match other with Some a => dret a | None => dthrow UnknownTag end
  | v :: vs =>
      if vtag v =? tag then let! x := fields_decode _ in dret (vmake v x)
      else enum_decode other vs tag
  end.

Definition derive_enum {A} (no_wrap : bool) (size : Z) (vs : list (variant A))
    (other : option A) : Pack A :=
  let len := fun a =>
    if no_wrap then 1 + enum_len vs a else len_wrapped_len (1 + enum_len vs a) in
  let body := let! tag := decode u8_pack in enum_decode other vs (uval tag) in
  simple_pack size None len
    (fun a => if no_wrap then enum_encode vs a
              else len_wrapped_encode (len a) (enum_encode vs a))
    (if no_wrap then body else len_wrapped_decode body).

(** [get_tag]: the tags of the variants, from the [tag(..)] attributes in order.
    [None] is a compile time panic: a tag used twice, or some variants tagged
    and some not. *)
Fixpoint assign_tags (n : Z) (tagged : list Z) (atts : list (option Z)) : option (list Z) :=
  match atts with
  | [] => Some []
  | att :: atts =>
      match att with
      | Some l =>
          if bool_decide (tagged = []) && (0 <? n) then None
          else if decide (l ∈ tagged) then None
          else (l ::.) <$> assign_tags (n + 1) (l :: tagged) atts
      | None =>
          if decide (tagged = []) then (n ::.) <$> assign_tags (n + 1) tagged atts else None
      end
  end.

(** ** Laws *)

Lemma PackOk_impl {A} (P : Pack A) wf wf' :
  PackOk P wf → (∀ a, wf' a → wf a) → PackOk P wf'.
Proof. intros HP H. split; intros a Ha; [by apply HP, H|by apply encode_spec, H]. Qed.

(** What the fields promise: [PackOk] for the sequence of fields *)
Class FieldsOk (fs : list field) (wf : tuple fs → Prop) : Prop := {
  fields_len_nonneg v : wf v → 0 ≤ fields_len fs v;
  fields_spec v : wf v → fields_len fs v < MAX_BUF →
    ∃ bs, fields_encode fs v = (bs, Ok ()) ∧ zlen bs = fields_len fs v ∧
      ∀ rest, zlen (bs ++ rest) < MAX_BUF → fields_decode fs (bs ++ rest) = (Ok v, rest)
}.

#[export] Instance fields_nil_ok : FieldsOk [] (fun _ => True).
Proof.
  split; [done|]. intros [] _ _. exists []. split; [done|]. split; [done|]. by intros.
Qed.

(** A skipped field comes back as its default. *)
Definition attr_wf {T} (a : attr T) (wf : T → Prop) (x : T) : Prop :=
  match a with
  | Skip d => x = d
  | _ => wf x
  end.

Lemma dbind2_ok {A B} (m : dec PackError A) (k : dec PackError B) bs1 bs2 a b rest :
  m (bs1 ++ bs2 ++ rest) = (Ok a, bs2 ++ rest) → k (bs2 ++ rest) = (Ok b, rest) →
  (let! x := m in let! y := k in dret (x, y)) ((bs1 ++ bs2) ++ rest) = (Ok (a, b), rest).
Proof.
  intros Hm Hk. rewrite <- app_assoc. unfold dbind. by rewrite Hm, Hk.
Qed.

#[export] Instance fields_cons_ok {T} (P : Pack T) (a : attr T) fs wfT wf :
  PackOk P wfT → FieldsOk fs wf →
  FieldsOk (Fld P a :: fs) (fun v => attr_wf a wfT v.1 ∧ wf v.2).
Proof.
  intros HP Hfs. split; intros [x v] [Hx Hv]; cbn in x, Hx, Hv;
    pose proof (fields_len_nonneg v Hv) as Hn; cbn [fields_len fields_encode fst snd fpack fty].
  - unfold is_skipped. destruct a; cbn in Hx; cbn [fattr]; [| |lia];
      pose proof (encoded_len_nonneg (P := P) x Hx); lia.
  - unfold is_skipped. intros Hlt.
    destruct a as [|d|d]; cbn in Hx; cbn [fields_decode]; unfold decode_field; cbn [fattr fpack] in *.
    + pose proof (encoded_len_nonneg (P := P) x Hx).
      destruct (encode_spec (P := P) x Hx) as (b1 & He1 & Hz1 & Hd1); [lia|].
      destruct (fields_spec v Hv) as (b2 & He2 & Hz2 & Hd2); [lia|].
      exists (b1 ++ b2). split; [by apply eseq_ok|]. split; [rewrite zlen_app; lia|].
      intros rest Hr. rewrite <- app_assoc, zlen_app in Hr. pose proof (zlen_nonneg b1).
      apply dbind2_ok; [apply Hd1; rewrite zlen_app; lia|apply Hd2; lia].
    + pose proof (encoded_len_nonneg (P := P) x Hx).
      destruct (encode_spec (P := P) x Hx) as (b1 & He1 & Hz1 & Hd1); [lia|].
      destruct (fields_spec v Hv) as (b2 & He2 & Hz2 & Hd2); [lia|].
      exists (b1 ++ b2). split; [by apply eseq_ok|]. split; [rewrite zlen_app; lia|].
      intros rest Hr. rewrite <- app_assoc, zlen_app in Hr. pose proof (zlen_nonneg b1).
      apply dbind2_ok; [|apply Hd2; lia]. unfold decode_with_default.
      rewrite Hd1; [done|]. rewrite zlen_app. lia.
    + subst d. destruct (fields_spec v Hv) as (b2 & He2 & Hz2 & Hd2); [lia|].
      exists b2. split; [done|]. split; [lia|]. intros rest Hr.
      exact (dbind2_ok (decode_default x) (fields_decode fs) [] b2 x v rest eq_refl (Hd2 rest Hr)).
Qed.

Lemma MAX_BUF_63 z : 0 ≤ z → z < MAX_BUF → in_u 63 z.
Proof. unfold in_u, MAX_BUF. lia. Qed.

(** A crude bound outside the machine range, where the bit trick means nothing *)
Lemma varint_len_crude v : 0 ≤ v → - (v / 4) - 2 ≤ varint_len v ≤ 20.
Proof.
  intros Hv. unfold varint_len, leading_zeros64.
  assert (Hlor : 1 ≤ Z.lor v 1 ≤ v + 1).
  { rewrite Z.lor_comm. destruct (Z.odd v) eqn:E.
    - rewrite <- Z.bit0_odd in E. assert (Z.lor 1 v = v) as ->.
      { apply Z.bits_inj'. intros n Hn. rewrite Z.lor_spec. destruct (decide (n = 0)) as [->|].
        - by rewrite E.
        - by rewrite (Z.bits_above_log2 1) by (cbn; lia). }
      destruct (decide (v = 0)) as [->|]; [done|]. lia.
    - rewrite <- Z.bit0_odd in E.
      assert (Z.land 1 v = 0).
      { apply Z.bits_inj'. intros n Hn. rewrite Z.land_spec, Z.bits_0.
        destruct (decide (n = 0)) as [->|]; [by rewrite E, andb_false_r|].
        by rewrite (Z.bits_above_log2 1) by (cbn; lia). }
      rewrite <- Z.lxor_lor, <- Z.add_nocarry_lxor by done. lia. }
  destruct (Z.eqb_spec (Z.lor v 1) 0); [lia|].
  pose proof (Z.log2_le_lin (Z.lor v 1) ltac:(lia)). pose proof (Z.log2_nonneg (Z.lor v 1)).
  set (lz := 63 - Z.log2 (Z.lor v 1)) in *.
  assert (Hx : Z.lxor lz 63 / 64 = lz / 64).
  { change 64 with (2 ^ 6). rewrite <- !Z.shiftr_div_pow2 by lia.
    rewrite Z.shiftr_lxor. change (Z.shiftr 63 6) with 0. apply Z.lxor_0_r. }
  rewrite Z.shiftr_div_pow2 by lia. change (2 ^ 6) with 64.
  Z.div_mod_to_equations. lia.
Qed.

Lemma len_wrapped_small len : 0 ≤ len → len_wrapped_len len < MAX_BUF → len < MAX_BUF.
Proof.
  intros Hn Hlt. unfold len_wrapped_len, MAX_BUF in *.
  destruct (Z.lt_ge_cases len (2 ^ 63)) as [Hs|Hs].
  - pose proof (len_wrapped_len_ge len ltac:(unfold in_u; lia)) as Hg.
    unfold len_wrapped_len in Hg. lia.
  - pose proof (varint_len_crude len Hn). set (v := len + varint_len len) in *.
    assert (0 ≤ v) by (unfold v; Z.div_mod_to_equations; lia).
    pose proof (varint_len_crude v ltac:(done)). Z.div_mod_to_equations. lia.
Qed.

(** Wrapping any body whose fields round trip *)
Lemma wrapped_ok {A} (len : Z) (e : enc PackError) (d : dec PackError A) a :
  0 ≤ len → len_wrapped_len len < MAX_BUF →
  (len < MAX_BUF → ∃ bs, e = (bs, Ok ()) ∧ zlen bs = len ∧
     ∀ rest, zlen (bs ++ rest) < MAX_BUF → d (bs ++ rest) = (Ok a, rest)) →
  ∃ bs, len_wrapped_encode (len_wrapped_len len) e = (bs, Ok ()) ∧
    zlen bs = len_wrapped_len len ∧
    ∀ rest, zlen (bs ++ rest) < MAX_BUF → len_wrapped_decode d (bs ++ rest) = (Ok a, rest).
Proof.
  intros Hn Hlt Hb. pose proof (len_wrapped_small len Hn Hlt) as Hs.
  destruct Hb as (bs & -> & Hz & Hd); [done|].
  pose proof (MAX_BUF_63 len Hn Hs) as H63.
  destruct (len_wrapped_len_fixpoint len H63) as [Hu Hf].
  exists (encode_varint (len_wrapped_len len) ++ bs). split; [done|].
  split; [rewrite zlen_app, encode_varint_zlen by done; lia|].
  intros rest Hr. rewrite <- app_assoc, <- Hz.
  rewrite len_wrapped_decode_view by (by rewrite Hz).
  specialize (Hd [] ltac:(rewrite app_nil_r; lia)). rewrite app_nil_r in Hd. by rewrite Hd.
Qed.

Lemma len_wrapped_nonneg len : 0 ≤ len → 0 ≤ len_wrapped_len len.
Proof.
  intros Hn. unfold len_wrapped_len. pose proof (varint_len_crude len Hn).
  destruct (Z.lt_ge_cases len (2 ^ 63)) as [Hs|Hs].
  - pose proof (len_wrapped_len_ge len ltac:(unfold in_u; lia)) as Hg.
    unfold len_wrapped_len in Hg. lia.
  - set (v := len + varint_len len) in *.
    assert (0 ≤ v) by (unfold v; Z.div_mod_to_equations; lia).
    pose proof (varint_len_crude v ltac:(done)). Z.div_mod_to_equations. lia.
Qed.

Lemma derive_struct_ok {A} no_wrap size fs (to : A → tuple fs) from wf :
  FieldsOk fs wf → (∀ a, from (to a) = a) →
  PackOk (derive_struct no_wrap size fs to from) (fun a => wf (to a)).
Proof.
  intros Hfs Hft. split; intros a Ha; pose proof (fields_len_nonneg _ Ha) as Hn;
    cbn [encoded_len encode decode derive_struct simple_pack].
  { destruct no_wrap; [done|by apply len_wrapped_nonneg]. }
  assert (Hb : fields_len fs (to a) < MAX_BUF →
    ∃ bs, fields_encode fs (to a) = (bs, Ok ()) ∧ zlen bs = fields_len fs (to a) ∧
      ∀ rest, zlen (bs ++ rest) < MAX_BUF →
        (let! v := fields_decode fs in dret (from v)) (bs ++ rest) = (Ok a, rest)).
  { intros Hlt. destruct (fields_spec (to a) Ha Hlt) as (bs & He & Hz & Hd).
    exists bs. split; [done|]. split; [done|]. intros rest Hr.
    rewrite (dbind_ok _ _ _ _ _ (Hd rest Hr)). by rewrite Hft. }
  destruct no_wrap; [done|]. intros Hlt. by apply wrapped_ok.
Qed.

(** The variants of an enum: the case that matches is rebuilt by its maker. *)
Class VariantsOk {A} (vs : list (variant A)) (wf : A → Prop) : Prop :=
  variants_spec a : wf a →
    0 ≤ enum_len vs a ∧
    (1 + enum_len vs a < MAX_BUF →
     ∃ v x bs, v ∈ vs ∧ enum_encode vs a = (Zb (vtag v) :: bs, Ok ()) ∧
       zlen bs = enum_len vs a ∧ vmake v x = a ∧
       ∀ rest, zlen (bs ++ rest) < MAX_BUF → fields_decode _ (bs ++ rest) = (Ok x, rest)).

Lemma variants_nil_ok {A} : VariantsOk (@nil (variant A)) (fun _ => False).
Proof. by intros a Ha. Qed.

Lemma variants_cons_ok {A} (v : variant A) vs wfv wf :
  FieldsOk (vfields v) wfv → (∀ a x, vmatch v a = Some x → vmake v x = a) →
  VariantsOk vs wf →
  VariantsOk (v :: vs)
    (fun a => match vmatch v a with Some x => wfv x | None => wf a end).
Proof.
  intros Hf Hm Hvs a. cbn [enum_len enum_encode].
  destruct (vmatch v a) as [x|] eqn:E; intros Ha.
  - split; [by apply fields_len_nonneg|]. intros Hlt.
    destruct (fields_spec x Ha) as (bs & He & Hz & Hd); [lia|].
    exists v, x, bs. split; [by left|].
    split; [|split; [done|split; [by apply Hm|done]]].
    by rewrite He.
  - destruct (Hvs a Ha) as [Hn Hs]. split; [done|]. intros Hlt.
    destruct (Hs Hlt) as (v' & x & bs & Hin & ? & ? & ? & ?).
    exists v', x, bs. split; [by right|done].
Qed.

Lemma enum_decode_tag {A} other (vs : list (variant A)) v :
  NoDup (vtag <$> vs) → v ∈ vs →
  enum_decode other vs (vtag v) = let! x := fields_decode (vfields v) in dret (vmake v x).
Proof.
  induction vs as [|v' vs IH]; cbn [fmap list_fmap enum_decode];
    [by intros _ ?%elem_of_nil|].
  intros [Hn Hd]%NoDup_cons [->|Hin]%elem_of_cons; [by rewrite Z.eqb_refl|].
  destruct (Z.eqb_spec (vtag v') (vtag v)) as [He|]; [|by apply IH].
  destruct Hn. rewrite He. by apply list_elem_of_fmap_2.
Qed.

(** The tags [assign_tags] hands out are distinct and fit a byte. *)
Definition tags_ok {A} (vs : list (variant A)) : Prop :=
  NoDup (vtag <$> vs) ∧ Forall (fun v => in_u 8 (vtag v)) vs.

Definition tags_okb {A} (vs : list (variant A)) : bool :=
  bool_decide (NoDup (vtag <$> vs)) &&
  forallb (fun v => (0 <=? vtag v) && (vtag v <? 256)) vs.
Lemma tags_okb_ok {A} (vs : list (variant A)) : tags_okb vs = true → tags_ok vs.
Proof.
  intros [H1%bool_decide_eq_true H2]%andb_true_iff. split; [done|].
  apply Forall_forall. intros v Hv%list_elem_of_In. rewrite forallb_forall in H2.
  specialize (H2 v Hv). unfold in_u. lia.
Qed.

Lemma derive_enum_ok {A} no_wrap size (vs : list (variant A)) other wf :
  tags_ok vs → VariantsOk vs wf → PackOk (derive_enum no_wrap size vs other) wf.
Proof.
  intros [Hnd Htag] Hvs. split; intros a Ha; destruct (variants_spec a Ha) as [Hn Hs];
    cbn [encoded_len encode decode derive_enum simple_pack].
  { destruct no_wrap; [lia|]. apply len_wrapped_nonneg. lia. }
  assert (Hb : 1 + enum_len vs a < MAX_BUF →
    ∃ bs, enum_encode vs a = (bs, Ok ()) ∧ zlen bs = 1 + enum_len vs a ∧
      ∀ rest, zlen (bs ++ rest) < MAX_BUF →
        (let! tag := decode u8_pack in enum_decode other vs (uval tag)) (bs ++ rest)
          = (Ok a, rest)).
  { intros Hlt. destruct (Hs Hlt) as (v & x & bs & Hin & He & Hz & Hm & Hd).
    exists (Zb (vtag v) :: bs). split; [done|].
    split; [rewrite zlen_cons; lia|]. intros rest Hr. cbn [app] in *.
    rewrite Forall_forall in Htag. specialize (Htag v Hin).
    rewrite (dbind_ok _ _ _ _ _ (decode_tag (vtag v) (bs ++ rest) Htag)). cbn [uval].
    rewrite enum_decode_tag by done. rewrite zlen_cons in Hr.
    rewrite (dbind_ok _ _ _ _ _ (Hd rest ltac:(lia))). by rewrite Hm. }
  destruct no_wrap; [done|]. intros Hlt. apply wrapped_ok; [lia|done|done].
Qed.

(** Discharging the laws of a concrete message: the fields by instance search,
    the shape by case analysis. *)
Ltac derive_struct_law :=
  eapply PackOk_impl;
  [eapply derive_struct_ok; [apply _|by intros []]|intros []; cbn; unfold attr_wf; tauto].
Ltac variants_law :=
  lazymatch goal with
  | |- VariantsOk [] _ => apply variants_nil_ok
  | |- VariantsOk (_ :: _) _ =>
      eapply variants_cons_ok; [apply _|by intros [] ? [= <-]|variants_law]
  end.
Ltac derive_enum_law :=
  eapply PackOk_impl;
  [eapply derive_enum_ok; [apply tags_okb_ok; reflexivity|variants_law]
  |intros []; cbn; unfold attr_wf; tauto].

(** ** Safety *)

Definition fields_safe (fs : list field) : Prop := Forall (fun f => PackSafe (fpack f)) fs.

Lemma decode_field_safe f : PackSafe (fpack f) → safe (decode_field f).
Proof.
  intros HP. unfold decode_field. destruct (fattr f) as [|d|d]; [apply HP| |apply safe_ret].
  intros bs. unfold decode_with_default. destruct (HP bs) as [Hp Hs].
  by destruct (decode (fpack f) bs) as [[x|[]|] bs'].
Qed.

Lemma fields_decode_safe fs : fields_safe fs → safe (fields_decode fs).
Proof.
  induction 1 as [|f fs Hf Hfs IH]; [apply safe_ret|]. cbn [fields_decode].
  apply safe_bind; [by apply decode_field_safe|]. intros x.
  apply safe_bind; [done|]. intros xs. apply safe_ret.
Qed.

Lemma derive_struct_safe {A} no_wrap size fs (to : A → tuple fs) from :
  fields_safe fs → PackSafe (derive_struct no_wrap size fs to from).
Proof.
  intros Hf. unfold PackSafe. cbn [decode derive_struct simple_pack].
  assert (safe (let! v := fields_decode fs in dret (from v))).
  { apply safe_bind; [by apply fields_decode_safe|]. intros. apply safe_ret. }
  destruct no_wrap; [done|by apply len_wrapped_decode_safe].
Qed.

Lemma derive_enum_safe {A} no_wrap size (vs : list (variant A)) other :
  Forall (fun v => fields_safe (vfields v)) vs → PackSafe (derive_enum no_wrap size vs other).
Proof.
  intros Hf. unfold PackSafe. cbn [decode derive_enum simple_pack].
  assert (Hs : ∀ tag, safe (enum_decode other vs tag)).
  { intros tag. induction Hf as [|v vs Hv Hvs IH]; cbn [enum_decode].
    - destruct other; [apply safe_ret|apply safe_throw].
    - apply safe_if; [|done]. apply safe_bind; [by apply fields_decode_safe|].
      intros. apply safe_ret. }
  assert (safe (let! tag := decode u8_pack in enum_decode other vs (uval tag))).
  { apply safe_bind; [apply uint_safe|]. intros. apply Hs. }
  destruct no_wrap; [done|by apply len_wrapped_decode_safe].
Qed.

Ltac derive_safe :=
  lazymatch goal with
  | |- PackSafe (derive_struct _ _ _ _ _) => apply derive_struct_safe
  | |- PackSafe (derive_enum _ _ _ _) => apply derive_enum_safe
  end;
  repeat (cbv beta; lazymatch goal with
  | |- fields_safe _ => unfold fields_safe; cbn [vfields]
  | |- Forall _ _ => constructor
  | |- PackSafe _ => cbn [fpack]; apply _
  end).

(** ** Evolution of messages *)

Fixpoint tuple_app (fs gs : list field) : tuple fs → tuple gs → tuple (fs ++ gs) :=
  match fs with
  | [] => fun _ w => w
  | f :: fs => fun v w => (v.1, tuple_app fs gs v.2 w)
  end.

Lemma fields_decode_app fs gs bs v rest :
  fields_decode fs bs = (Ok v, rest) →
  fields_decode (fs ++ gs) bs =
    match fields_decode gs rest with
    | (Ok w, rest) => (Ok (tuple_app fs gs v w), rest)
    | (Err e, rest) => (Err e, rest)
    | (Panic, rest) => (Panic, rest)
    end.
Proof.
  revert bs v; induction fs as [|f fs IH]; intros bs v.
  - cbn. intros [= <- <-]. by destruct (fields_decode gs bs) as [[]].
  - cbn [fields_decode app]. unfold dbind.
    destruct (decode_field f bs) as [[x| |] bs1]; [|done..].
    destruct (fields_decode fs bs1) as [[xs| |] bs2] eqn:E; [|done..].
    cbn. intros [= <- <-]. rewrite (IH bs1 xs) by done.
    by destruct (fields_decode gs bs2) as [[]].
Qed.

Lemma fields_encode_app fs gs v w b1 b2 :
  fields_encode fs v = (b1, Ok ()) → fields_encode gs w = (b2, Ok ()) →
  fields_encode (fs ++ gs) (tuple_app fs gs v w) = (b1 ++ b2, Ok ()).
Proof.
  revert b1; induction fs as [|f fs IH]; intros b1.
  - cbn. by intros [= <-].
  - cbn [fields_encode app tuple_app fst snd]. destruct (is_skipped f).
    + intros H1 H2. by apply IH.
    + unfold eseq. destruct (encode (fpack f) v.1) as [c1 [[]| |]]; [|done..].
      destruct (fields_encode fs v.2) as [c2 [[]| |]] eqn:E; cbn; [|done..].
      intros [= <-] H2. rewrite (IH v.2 c2 E H2). cbn. by rewrite app_assoc.
Qed.

Lemma fields_len_app fs gs v w :
  fields_len (fs ++ gs) (tuple_app fs gs v w) = fields_len fs v + fields_len gs w.
Proof.
  induction fs as [|f fs IH]; [done|]. cbn [fields_len app tuple_app fst snd].
  rewrite IH. lia.
Qed.

(** Fields marked [default], whose decoders notice the end of the buffer *)
Fixpoint defaults (gs : list field) : option (tuple gs) :=
  match gs with
  | [] => Some ()
  | g :: gs =>
      match fattr g with
      | WithDefault d => (d,.) <$> defaults gs
      | _ => None
      end
  end.
Definition short_on_empty (gs : list field) : Prop :=
  Forall (fun g => decode (fpack g) [] = (Err BufferShort, [])) gs.

Lemma defaults_decode gs ds :
  short_on_empty gs → defaults gs = Some ds → fields_decode gs [] = (Ok ds, []).
Proof.
  intros Hs. induction Hs as [|g gs Hg Hs IH]; cbn [defaults]; [by intros [= <-]|].
  destruct (fattr g) as [|d|] eqn:E; [done| |done].
  destruct (defaults gs) as [ds'|]; [|done]. cbn. intros [= <-].
  unfold dbind, decode_field. rewrite E. unfold decode_with_default. rewrite Hg.
  by rewrite (IH ds').
Qed.

(** How derived messages may grow. Fields marked [default] can be added at
    the end of a struct: the new receiver reads an old message and fills in the
    defaults, and the old receiver reads a new message and ignores what it does
    not know. Both leave the buffer at the end of the message. *)
Theorem derive_evolution (fs gs : list field) wf wfg s1 s2 ds v w :
  FieldsOk fs wf → FieldsOk gs wfg → short_on_empty gs → defaults gs = Some ds →
  wf v → wfg w →
  let old := derive_struct false s1 fs id id in
  let new := derive_struct false s2 (fs ++ gs) id id in
  encoded_len old v < MAX_BUF → encoded_len new (tuple_app fs gs v w) < MAX_BUF →
  (∃ bs, encode old v = (bs, Ok ()) ∧
     ∀ rest, decode new (bs ++ rest) = (Ok (tuple_app fs gs v ds), rest)) ∧
  (∃ bs, encode new (tuple_app fs gs v w) = (bs, Ok ()) ∧
     ∀ rest, decode old (bs ++ rest) = (Ok v, rest)).
Proof.
  intros Hf Hg Hs Hds Hv Hw old new. cbn [encoded_len old new derive_struct simple_pack id].
  rewrite fields_len_app. pose proof (fields_len_nonneg v Hv). pose proof (fields_len_nonneg w Hw).
  intros Ho%len_wrapped_small Hn%len_wrapped_small; [|lia..].
  destruct (fields_spec v Hv Ho) as (b1 & He1 & Hz1 & Hd1).
  destruct (fields_spec w Hw ltac:(lia)) as (b2 & He2 & Hz2 & Hd2). split.
  - exists (encode_varint (len_wrapped_len (zlen b1)) ++ b1).
    cbn [encode decode old new derive_struct simple_pack id]. rewrite Hz1, He1.
    split; [done|]. intros rest. rewrite <- app_assoc, <- Hz1.
    rewrite len_wrapped_decode_view by (apply MAX_BUF_63; lia).
    specialize (Hd1 [] ltac:(rewrite app_nil_r; lia)). rewrite app_nil_r in Hd1.
    unfold dbind. rewrite (fields_decode_app _ _ _ _ _ Hd1).
    by rewrite (defaults_decode gs ds Hs Hds).
  - exists (encode_varint (len_wrapped_len (zlen (b1 ++ b2))) ++ b1 ++ b2).
    cbn [encode decode old new derive_struct simple_pack id].
    rewrite (fields_encode_app _ _ _ _ _ _ He1 He2), fields_len_app, zlen_app, Hz1, Hz2.
    split; [done|]. intros rest. rewrite <- app_assoc, <- Hz1, <- Hz2, <- zlen_app.
    rewrite len_wrapped_decode_view by (apply MAX_BUF_63; rewrite zlen_app; lia).
    rewrite (dbind_ok _ _ _ _ _ (Hd1 b2 ltac:(rewrite zlen_app; lia))). done.
Qed.

(** ** Tags *)

Lemma assign_tags_spec n tagged atts ts :
  assign_tags n tagged atts = Some ts → 0 ≤ n →
  length ts = length atts ∧
  (tagged ≠ [] → NoDup ts ∧ Forall (.∉ tagged) ts) ∧
  (tagged = [] → 0 < n → ts = Z.of_nat <$> seq (Z.to_nat n) (length atts)).
Proof.
  revert n tagged ts; induction atts as [|[l|] atts IH]; intros n tagged ts; cbn [assign_tags].
  - intros [= <-] _. split; [done|]. split; [|done]. split; constructor.
  - destruct (bool_decide (tagged = []) && (0 <? n)) eqn:E; [done|].
    case_decide as Hl; [done|].
    destruct (assign_tags (n + 1) (l :: tagged) atts) as [ts'|] eqn:Et; [|done].
    cbn. intros [= <-] Hn. destruct (IH _ _ _ Et ltac:(lia)) as (Hlen & Hnd & _).
    destruct (Hnd ltac:(done)) as [Hnd' Hf]. split; [cbn; lia|]. split.
    + intros _. split.
      * constructor; [|done]. intros Hin. rewrite Forall_forall in Hf. apply (Hf l Hin).
        by left.
      * constructor; [done|]. eapply Forall_impl; [exact Hf|]. intros z. set_solver.
    + intros Ht Hn0. subst. cbn in E. by destruct (Z.ltb_spec 0 n); [|lia].
  - case_decide as Ht; [|done]. subst.
    destruct (assign_tags (n + 1) [] atts) as [ts'|] eqn:Et; [|done].
    cbn. intros [= <-] Hn. destruct (IH _ _ _ Et ltac:(lia)) as (Hlen & _ & Hs).
    split; [cbn; lia|]. split; [done|]. intros _ Hn0.
    rewrite Hs by (done || lia). cbn. f_equal; [lia|]. f_equal. f_equal. lia.
Qed.

Lemma assign_untagged n k ts :
  assign_tags n [] (replicate k None) = Some ts → 0 ≤ n →
  ts = Z.of_nat <$> seq (Z.to_nat n) k.
Proof.
  revert n ts; induction k as [|k IH]; intros n ts; cbn; [by intros [= <-]|].
  destruct (assign_tags (n + 1) [] (replicate k None)) as [ts'|] eqn:E; [|done].
  cbn. intros [= <-] Hn. rewrite (IH _ _ E) by lia. f_equal; [lia|]. f_equal. f_equal. lia.
Qed.

Lemma NoDup_of_nat_seq a k : NoDup (Z.of_nat <$> seq a k).
Proof. apply NoDup_fmap_2; [intros x y; lia|apply NoDup_seq]. Qed.

(** The tags of an enum. What [get_tag] hands out is one tag per variant and
    no tag twice, so every tag selects one variant when decoding; with no [tag]
    attributes it is the variant's position, and tagging only some of the
    variants is refused. *)
Theorem derive_tags_unique atts ts :
  assign_tags 0 [] atts = Some ts →
  length ts = length atts ∧ NoDup ts ∧
  (Forall (.= None) atts → ts = Z.of_nat <$> seq 0 (length atts)) ∧
  (Forall (.= None) atts ∨ Forall is_Some atts).
Proof.
  intros H. split; [by apply assign_tags_spec in H as (? & _)|].
  destruct atts as [|[l|] atts].
  - injection H as <-. split; [constructor|]. split; [done|by left].
  - cbn [assign_tags andb] in H. rewrite bool_decide_true, decide_False in H by (done || apply not_elem_of_nil).
    cbn [andb] in H. change (0 + 1) with 1 in H. destruct (assign_tags 1 [l] atts) as [ts'|] eqn:E; [|done].
    cbn in H. injection H as <-.
    destruct (assign_tags_spec _ _ _ _ E ltac:(lia)) as (Hl & Hnd & _).
    destruct (Hnd ltac:(done)) as [Hnd' Hf]. split; [|split].
    + constructor; [|done]. intros Hin. rewrite Forall_forall in Hf. apply (Hf l Hin). by left.
    + by intros [? _]%Forall_cons.
    + right. constructor; [done|]. clear -E. revert E. generalize 1. revert ts'.
      assert (Hne : [l] ≠ []) by done. revert Hne. generalize [l].
      induction atts as [|[l'|] atts IH]; intros tg Hne ts' n; cbn; [constructor|..].
      * destruct (bool_decide (tg = []) && _); [done|]. case_decide; [done|].
        destruct (assign_tags (n + 1) (l' :: tg) atts) as [ts''|] eqn:E; [|done].
        intros _. constructor; [done|]. by eapply IH, E.
      * by rewrite decide_False.
  - assert (Hall : Forall (.= None) atts).
    { cbn [assign_tags] in H. rewrite decide_True in H by done. change (0 + 1) with 1 in H.
       destruct (assign_tags 1 [] atts) as [ts'|] eqn:E; [|done].
      clear H. revert E. assert (Hn : 0 < 1) by done. revert Hn. generalize 1. revert ts'.
      induction atts as [|[l'|] atts IH]; intros ts' n Hn; cbn; [constructor|..].
      - by destruct (Z.ltb_spec 0 n); [|lia].
      - destruct (assign_tags (n + 1) [] atts) as [ts''|] eqn:E; [|done].
        intros _. constructor; [done|]. apply (IH _ (n + 1) ltac:(lia) E). }
    assert (Hr : None :: atts = replicate (S (length atts)) None).
    { cbn. f_equal. clear -Hall. induction Hall as [|a atts -> Ha IH]; [done|]. cbn. by f_equal. }
    rewrite Hr in H. apply assign_untagged in H as ->; [|lia].
    split; [apply NoDup_of_nat_seq|]. split; [done|]. left. by constructor.
Qed.

Lemma derive_tags_unique_witness :
  length [7; 9; 3] = 3%nat ∧ NoDup [7; 9; 3] ∧
  (Forall (.= None) [Some 7; Some 9; Some 3] → [7; 9; 3] = Z.of_nat <$> seq 0 3) ∧
  (Forall (.= None) [Some 7; Some 9; Some 3] ∨ Forall is_Some [Some 7; Some 9; Some 3]).
Proof. apply (derive_tags_unique [Some 7; Some 9; Some 3]). by vm_compute. Defined.

(** A struct with a number, to which a flag was added *)
Lemma derive_evolution_witness :
  let fs := [Fld u16_pack Plain] in
  let gs := [Fld bool_pack (WithDefault true)] in
  (∃ bs, encode (derive_struct false 2 fs id id) (UInt 258, ()) = (bs, Ok ()) ∧
     ∀ rest, decode (derive_struct false 3 (fs ++ gs) id id) (bs ++ rest)
       = (Ok (UInt 258, (true, ())), rest)) ∧
  (∃ bs, encode (derive_struct false 3 (fs ++ gs) id id) (UInt 258, (false, ())) = (bs, Ok ()) ∧
     ∀ rest, decode (derive_struct false 2 fs id id) (bs ++ rest) = (Ok (UInt 258, ()), rest)).
Proof.
  intros fs gs. apply (derive_evolution fs gs _ _ 2 3 (true, ()) (UInt 258, ()) (false, ())
    (fields_cons_ok _ _ _ _ _ (uint_ok 2) fields_nil_ok)
    (fields_cons_ok _ _ _ _ _ bool_ok fields_nil_ok)).
  - by constructor.
  - done.
  - split; [|done]. by vm_compute.
  - done.
  - by vm_compute.
  - by vm_compute.
Defined.
