(* ===== verification/Proto.v ===== *)
(** The wire protocol of the resolver and the handshake of the publisher
    (netidx-netproto/src/resolver.rs, publisher.rs): every message type with the
    Pack implementation the derive macro gives it, and the ids of [atomic_id!].
    Each message round trips, and each decoder except those that carry globs is
    safe on arbitrary bytes. *)
From Stdlib Require Import ZArith Lia.
From stdpp Require Import base gmap list strings sorting.
From Stdlib Require Import Strings.Byte.
From S2P Require Import Prelude Varint Pack Containers PackTypes Path PathFacts Order Glob Derive.

(** ** Ids *)

(** [atomic_id!]: a [u64] taken from a process wide counter *)
Record atomic_id (name : string) := MkId { inner : Z }.
Arguments MkId {name} inner.
Arguments inner {name} _.
#[export] Instance atomic_id_eq_dec name : EqDecision (atomic_id name).
Proof. solve_decision. Defined.
#[export] Instance atomic_id_countable name : Countable (atomic_id name).
Proof. apply (inj_countable' inner MkId). by intros []. Defined.

(** [NEXT.fetch_add(1)]: the id and the new value of the counter *)
Definition atomic_id_new {name} (next : Z) : atomic_id name * Z := (MkId next, wrap 64 (next + 1)).

Definition atomic_id_pack (name : string) : Pack (atomic_id name) :=
  simple_pack 8 None (fun i => varint_len (inner i)) (fun i => put (encode_varint (inner i)))
    (let! i := decode_varint in dret (MkId i)).

Abbreviation PublisherId := (atomic_id "PublisherId").
Abbreviation Id := (atomic_id "Id").
Abbreviation WriteId := (atomic_id "WriteId").

(** ** Data *)

Inductive HashMethod := Sha3_512.
Record AuthChallenge := MkAuthChallenge { ac_hash_method : HashMethod; challenge : u128 }.
Inductive AuthRead := AR_Anonymous | AR_Krb5 | AR_Local | AR_Tls.
Inductive AuthWrite :=
| AW_Anonymous | AW_Reuse | AW_Krb5 (spn : str) | AW_Local | AW_Tls (name : str).
Inductive PublisherPriority := High | Normal | Low.
Record ClientHelloWrite := MkClientHelloWrite {
  chw_write_addr : SocketAddr; chw_auth : AuthWrite; chw_priority : PublisherPriority }.
Inductive ClientHello := ReadOnly (a : AuthRead) | WriteOnly (h : ClientHelloWrite).
Record ServerHelloWrite := MkServerHelloWrite {
  shw_ttl : u64; shw_ttl_expired : bool; shw_auth : AuthWrite; shw_resolver_id : SocketAddr }.
Record Secret := MkSecret { secret : u128 }.
Inductive ReadyForOwnershipCheck := RFOC.
Inductive Auth :=
| A_Anonymous | A_Local (path : str) | A_Krb5 (spn : str) | A_Tls (name : str).
Inductive TargetAuth := TA_Anonymous | TA_Local | TA_Krb5 (spn : str) | TA_Tls (name : str).
Record UserInfo := MkUserInfo {
  ui_name : str; ui_primary_group : str; ui_groups : list str; ui_resolver : SocketAddr;
  ui_token : str }.
Record Publisher := MkPublisher {
  pub_resolver : SocketAddr; pub_id : PublisherId; pub_addr : SocketAddr;
  pub_hash_method : HashMethod; pub_target_auth : TargetAuth;
  pub_user_info : option UserInfo; pub_priority : PublisherPriority }.
Record PublisherRef := MkPublisherRef { pr_id : PublisherId; pr_token : str }.
Record Resolved := MkResolved {
  res_resolver : SocketAddr; res_publishers : list PublisherRef; res_timestamp : u64;
  res_flags : u32; res_permissions : u32 }.
Record Referral := MkReferral {
  ref_path : str; ref_ttl : option u16; ref_addrs : list (SocketAddr * Auth) }.
Record Table := MkTable { tbl_rows : list str; tbl_cols : list (str * Z64) }.
Record ListMatching := MkListMatching {
  lm_matched : list (list str); lm_referrals : list Referral }.
Record GetChangeNr := MkGetChangeNr {
  gcn_change_number : Z64; gcn_resolver : SocketAddr; gcn_referrals : list Referral }.
Inductive FromRead :=
| FR_Publisher (p : Publisher)
| FR_Resolved (r : Resolved)
| FR_List (l : list str)
| FR_Table (t : Table)
| FR_Referral (r : Referral)
| FR_Denied
| FR_Error (e : str)
| FR_ListMatching (l : ListMatching)
| FR_GetChangeNr (c : GetChangeNr).
Inductive ToWrite :=
| Publish (p : str)
| PublishDefault (p : str)
| Unpublish (p : str)
| Clear
| Heartbeat
| PublishWithFlags (p : str) (flags : u32)
| PublishDefaultWithFlags (p : str) (flags : u32)
| UnpublishDefault (p : str).
Inductive FromWrite :=
| FW_Published | FW_Unpublished | FW_Referral (r : Referral) | FW_Denied | FW_Error (e : str).
Inductive ToRead {GS : Globset} :=
| TR_Resolve (p : str)
| TR_List (p : str)
| TR_Table (p : str)
| TR_ListMatching (g : GlobSet)
| TR_GetChangeNr (p : str).
Arguments ToRead : clear implicits.
Inductive Hello :=
| H_Anonymous
| H_Krb5 (u : option UserInfo)
| H_Local (u : option UserInfo)
| H_ResolverAuthenticate (a : SocketAddr)
| H_Tls (u : option UserInfo).

(** ** Operations on the data *)

Definition is_anonymous (t : TargetAuth) : bool :=
  match t with
  | TA_Anonymous => true
  | TA_Krb5 _ | TA_Local | TA_Tls _ => false
  end.

(** [TryFrom<AuthWrite> for TargetAuth]; [None] is "no session to reuse" *)
Definition target_auth_try_from (v : AuthWrite) : option TargetAuth :=
  match v with
  | AW_Anonymous => Some TA_Anonymous
  | AW_Local => Some TA_Local
  | AW_Krb5 spn => Some (TA_Krb5 spn)
  | AW_Reuse => None
  | AW_Tls name => Some (TA_Tls name)
  end.

#[export] Instance Auth_eq_dec : EqDecision Auth.
Proof. solve_decision. Defined.

(** [PartialEq for Referral]: [zip] stops at the shorter list *)
Fixpoint zip_all (l r : list (SocketAddr * Auth)) : bool :=
  match l, r with
  | x :: l, y :: r => bool_decide (x = y) && zip_all l r
  | _, _ => true
  end.
Definition referral_eq (a b : Referral) : bool := zip_all (ref_addrs a) (ref_addrs b).
(** [Hash for Referral] feeds the addresses to the hasher *)
Definition referral_hash (a : Referral) : list SocketAddr := (ref_addrs a).*1.

(** ** Pack *)

Abbreviation F P := (Fld P Plain).
Abbreviation Fdef P d := (Fld P (WithDefault d)).

Section Messages.
Context {ES : Escaping} {LY : Layout}.

Definition HashMethod_pack : Pack HashMethod := derive_enum false (layout "HashMethod" []) [
  Var 0 [] (fun _ => Sha3_512)
    (fun a => match a with Sha3_512 => Some () end)
] None.
Definition AuthChallenge_pack : Pack AuthChallenge := derive_struct false (layout "AuthChallenge" [])
  [F HashMethod_pack;
   F u128_pack]
  (fun a => (ac_hash_method a, (challenge a, ())))
  (fun v => MkAuthChallenge v.1 v.2.1).
Definition AuthRead_pack : Pack AuthRead := derive_enum false (layout "AuthRead" []) [
  Var 0 [] (fun _ => AR_Anonymous)
    (fun a => match a with AR_Anonymous => Some () | _ => None end);
  Var 1 [] (fun _ => AR_Krb5)
    (fun a => match a with AR_Krb5 => Some () | _ => None end);
  Var 2 [] (fun _ => AR_Local)
    (fun a => match a with AR_Local => Some () | _ => None end);
  Var 3 [] (fun _ => AR_Tls)
    (fun a => match a with AR_Tls => Some () | _ => None end)
] None.
Definition AuthWrite_pack : Pack AuthWrite := derive_enum false (layout "AuthWrite" []) [
  Var 0 [] (fun _ => AW_Anonymous)
    (fun a => match a with AW_Anonymous => Some () | _ => None end);
  Var 1 [] (fun _ => AW_Reuse)
    (fun a => match a with AW_Reuse => Some () | _ => None end);
  Var 2 [F ArcStr_pack] (fun v => AW_Krb5 v.1)
    (fun a => match a with AW_Krb5 x => Some (x, ()) | _ => None end);
  Var 3 [] (fun _ => AW_Local)
    (fun a => match a with AW_Local => Some () | _ => None end);
  Var 4 [F ArcStr_pack] (fun v => AW_Tls v.1)
    (fun a => match a with AW_Tls x => Some (x, ()) | _ => None end)
] None.
Definition PublisherPriority_pack : Pack PublisherPriority := derive_enum false (layout "PublisherPriority" []) [
  Var 0 [] (fun _ => High)
    (fun a => match a with High => Some () | _ => None end);
  Var 1 [] (fun _ => Normal)
    (fun a => match a with Normal => Some () | _ => None end);
  Var 2 [] (fun _ => Low)
    (fun a => match a with Low => Some () | _ => None end)
] None.
Definition ClientHelloWrite_pack : Pack ClientHelloWrite := derive_struct false (layout "ClientHelloWrite" [])
  [F SocketAddr_pack;
   F AuthWrite_pack;
   Fdef PublisherPriority_pack Normal]
  (fun a => (chw_write_addr a, (chw_auth a, (chw_priority a, ()))))
  (fun v => MkClientHelloWrite v.1 v.2.1 v.2.2.1).
Definition ClientHello_pack : Pack ClientHello := derive_enum false (layout "ClientHello" []) [
  Var 0 [F AuthRead_pack] (fun v => ReadOnly v.1)
    (fun a => match a with ReadOnly x => Some (x, ()) | _ => None end);
  Var 1 [F ClientHelloWrite_pack] (fun v => WriteOnly v.1)
    (fun a => match a with WriteOnly x => Some (x, ()) | _ => None end)
] None.
Definition ServerHelloWrite_pack : Pack ServerHelloWrite := derive_struct false (layout "ServerHelloWrite" [])
  [F u64_pack;
   F bool_pack;
   F AuthWrite_pack;
   F SocketAddr_pack]
  (fun a => (shw_ttl a, (shw_ttl_expired a, (shw_auth a, (shw_resolver_id a, ())))))
  (fun v => MkServerHelloWrite v.1 v.2.1 v.2.2.1 v.2.2.2.1).
Definition Secret_pack : Pack Secret := derive_struct false (layout "Secret" [])
  [F u128_pack]
  (fun a => (secret a, ()))
  (fun v => MkSecret v.1).

(** Written by hand in the source *)
Definition ReadyForOwnershipCheck_pack : Pack ReadyForOwnershipCheck :=
  simple_pack 0 None (fun _ => len_wrapped_len 1)
    (fun _ => len_wrapped_encode (len_wrapped_len 1) (put [Zb 0]))
    (len_wrapped_decode
       (let! t := decode u8_pack in
        match uval t with
        | 0 => dret RFOC
        | _ => dthrow UnknownTag
        end)).

Definition Auth_pack : Pack Auth := derive_enum false (layout "Auth" []) [
  Var 0 [] (fun _ => A_Anonymous)
    (fun a => match a with A_Anonymous => Some () | _ => None end);
  Var 1 [F ArcStr_pack] (fun v => A_Local v.1)
    (fun a => match a with A_Local x => Some (x, ()) | _ => None end);
  Var 2 [F ArcStr_pack] (fun v => A_Krb5 v.1)
    (fun a => match a with A_Krb5 x => Some (x, ()) | _ => None end);
  Var 3 [F ArcStr_pack] (fun v => A_Tls v.1)
    (fun a => match a with A_Tls x => Some (x, ()) | _ => None end)
] None.
Definition TargetAuth_pack : Pack TargetAuth := derive_enum false (layout "TargetAuth" []) [
  Var 0 [] (fun _ => TA_Anonymous)
    (fun a => match a with TA_Anonymous => Some () | _ => None end);
  Var 1 [] (fun _ => TA_Local)
    (fun a => match a with TA_Local => Some () | _ => None end);
  Var 2 [F ArcStr_pack] (fun v => TA_Krb5 v.1)
    (fun a => match a with TA_Krb5 x => Some (x, ()) | _ => None end);
  Var 3 [F ArcStr_pack] (fun v => TA_Tls v.1)
    (fun a => match a with TA_Tls x => Some (x, ()) | _ => None end)
] None.
Definition UserInfo_pack : Pack UserInfo := derive_struct false (layout "UserInfo" [])
  [F ArcStr_pack;
   F ArcStr_pack;
   F (SmallVec_pack 16 ArcStr_pack);
   F SocketAddr_pack;
   F Bytes_pack]
  (fun a => (ui_name a, (ui_primary_group a, (ui_groups a, (ui_resolver a, (ui_token a, ()))))))
  (fun v => MkUserInfo v.1 v.2.1 v.2.2.1 v.2.2.2.1 v.2.2.2.2.1).
Definition Publisher_pack : Pack Publisher := derive_struct false (layout "Publisher" [])
  [F SocketAddr_pack;
   F (atomic_id_pack _);
   F SocketAddr_pack;
   F HashMethod_pack;
   F TargetAuth_pack;
   Fdef (Option_pack UserInfo_pack) None;
   Fdef PublisherPriority_pack Normal]
  (fun a => (pub_resolver a, (pub_id a, (pub_addr a, (pub_hash_method a, (pub_target_auth a, (pub_user_info a, (pub_priority a, ()))))))))
  (fun v => MkPublisher v.1 v.2.1 v.2.2.1 v.2.2.2.1 v.2.2.2.2.1 v.2.2.2.2.2.1 v.2.2.2.2.2.2.1).
Definition PublisherRef_pack : Pack PublisherRef := derive_struct false (layout "PublisherRef" [])
  [F (atomic_id_pack _);
   F Bytes_pack]
  (fun a => (pr_id a, (pr_token a, ())))
  (fun v => MkPublisherRef v.1 v.2.1).
Definition Resolved_pack : Pack Resolved := derive_struct false (layout "Resolved" [])
  [F SocketAddr_pack;
   F (GPooled_pack [] (Vec_pack PublisherRef_pack));
   F u64_pack;
   F u32_pack;
   F u32_pack]
  (fun a => (res_resolver a, (res_publishers a, (res_timestamp a, (res_flags a, (res_permissions a, ()))))))
  (fun v => MkResolved v.1 v.2.1 v.2.2.1 v.2.2.2.1 v.2.2.2.2.1).
Definition Referral_pack : Pack Referral := derive_struct false (layout "Referral" [])
  [F Path_pack;
   F (Option_pack u16_pack);
   F (GPooled_pack [] (Vec_pack (tuple2_pack SocketAddr_pack Auth_pack)))]
  (fun a => (ref_path a, (ref_ttl a, (ref_addrs a, ()))))
  (fun v => MkReferral v.1 v.2.1 v.2.2.1).
Definition Table_pack : Pack Table := derive_struct false (layout "Table" [])
  [F (GPooled_pack [] (Vec_pack Path_pack));
   F (GPooled_pack [] (Vec_pack (tuple2_pack Path_pack Z64_pack)))]
  (fun a => (tbl_rows a, (tbl_cols a, ())))
  (fun v => MkTable v.1 v.2.1).
Definition ListMatching_pack : Pack ListMatching := derive_struct false (layout "ListMatching" [])
  [F (GPooled_pack [] (Vec_pack (GPooled_pack [] (Vec_pack Path_pack))));
   F (GPooled_pack [] (Vec_pack Referral_pack))]
  (fun a => (lm_matched a, (lm_referrals a, ())))
  (fun v => MkListMatching v.1 v.2.1).
Definition GetChangeNr_pack : Pack GetChangeNr := derive_struct false (layout "GetChangeNr" [])
  [F Z64_pack;
   F SocketAddr_pack;
   F (GPooled_pack [] (Vec_pack Referral_pack))]
  (fun a => (gcn_change_number a, (gcn_resolver a, (gcn_referrals a, ()))))
  (fun v => MkGetChangeNr v.1 v.2.1 v.2.2.1).
Definition FromRead_pack : Pack FromRead := derive_enum false (layout "FromRead" []) [
  Var 0 [F Publisher_pack] (fun v => FR_Publisher v.1)
    (fun a => match a with FR_Publisher x => Some (x, ()) | _ => None end);
  Var 1 [F Resolved_pack] (fun v => FR_Resolved v.1)
    (fun a => match a with FR_Resolved x => Some (x, ()) | _ => None end);
  Var 2 [F (GPooled_pack [] (Vec_pack Path_pack))] (fun v => FR_List v.1)
    (fun a => match a with FR_List x => Some (x, ()) | _ => None end);
  Var 3 [F Table_pack] (fun v => FR_Table v.1)
    (fun a => match a with FR_Table x => Some (x, ()) | _ => None end);
  Var 4 [F Referral_pack] (fun v => FR_Referral v.1)
    (fun a => match a with FR_Referral x => Some (x, ()) | _ => None end);
  Var 5 [] (fun _ => FR_Denied)
    (fun a => match a with FR_Denied => Some () | _ => None end);
  Var 6 [F ArcStr_pack] (fun v => FR_Error v.1)
    (fun a => match a with FR_Error x => Some (x, ()) | _ => None end);
  Var 7 [F ListMatching_pack] (fun v => FR_ListMatching v.1)
    (fun a => match a with FR_ListMatching x => Some (x, ()) | _ => None end);
  Var 8 [F GetChangeNr_pack] (fun v => FR_GetChangeNr v.1)
    (fun a => match a with FR_GetChangeNr x => Some (x, ()) | _ => None end)
] None.
Definition ToWrite_pack : Pack ToWrite := derive_enum false (layout "ToWrite" []) [
  Var 0 [F Path_pack] (fun v => Publish v.1)
    (fun a => match a with Publish x => Some (x, ()) | _ => None end);
  Var 1 [F Path_pack] (fun v => PublishDefault v.1)
    (fun a => match a with PublishDefault x => Some (x, ()) | _ => None end);
  Var 2 [F Path_pack] (fun v => Unpublish v.1)
    (fun a => match a with Unpublish x => Some (x, ()) | _ => None end);
  Var 3 [] (fun _ => Clear)
    (fun a => match a with Clear => Some () | _ => None end);
  Var 4 [] (fun _ => Heartbeat)
    (fun a => match a with Heartbeat => Some () | _ => None end);
  Var 5 [F Path_pack; F u32_pack] (fun v => PublishWithFlags v.1 v.2.1)
    (fun a => match a with PublishWithFlags x0 x1 => Some (x0, (x1, ())) | _ => None end);
  Var 6 [F Path_pack; F u32_pack] (fun v => PublishDefaultWithFlags v.1 v.2.1)
    (fun a => match a with PublishDefaultWithFlags x0 x1 => Some (x0, (x1, ())) | _ => None end);
  Var 7 [F Path_pack] (fun v => UnpublishDefault v.1)
    (fun a => match a with UnpublishDefault x => Some (x, ()) | _ => None end)
] None.
Definition FromWrite_pack : Pack FromWrite := derive_enum false (layout "FromWrite" []) [
  Var 0 [] (fun _ => FW_Published)
    (fun a => match a with FW_Published => Some () | _ => None end);
  Var 1 [] (fun _ => FW_Unpublished)
    (fun a => match a with FW_Unpublished => Some () | _ => None end);
  Var 2 [F Referral_pack] (fun v => FW_Referral v.1)
    (fun a => match a with FW_Referral x => Some (x, ()) | _ => None end);
  Var 3 [] (fun _ => FW_Denied)
    (fun a => match a with FW_Denied => Some () | _ => None end);
  Var 4 [F ArcStr_pack] (fun v => FW_Error v.1)
    (fun a => match a with FW_Error x => Some (x, ()) | _ => None end)
] None.
Definition Hello_pack : Pack Hello := derive_enum false (layout "Hello" []) [
  Var 0 [] (fun _ => H_Anonymous)
    (fun a => match a with H_Anonymous => Some () | _ => None end);
  Var 1 [Fdef (Option_pack UserInfo_pack) None] (fun v => H_Krb5 v.1)
    (fun a => match a with H_Krb5 x => Some (x, ()) | _ => None end);
  Var 2 [Fdef (Option_pack UserInfo_pack) None] (fun v => H_Local v.1)
    (fun a => match a with H_Local x => Some (x, ()) | _ => None end);
  Var 3 [F SocketAddr_pack] (fun v => H_ResolverAuthenticate v.1)
    (fun a => match a with H_ResolverAuthenticate x => Some (x, ()) | _ => None end);
  Var 4 [Fdef (Option_pack UserInfo_pack) None] (fun v => H_Tls v.1)
    (fun a => match a with H_Tls x => Some (x, ()) | _ => None end)
] None.

Context {GS : Globset} {US : UnstableSort}.

Definition ToRead_pack : Pack (ToRead GS) := derive_enum false (layout "ToRead" []) [
  Var 0 [F Path_pack] (fun v => TR_Resolve v.1)
    (fun a => match a with TR_Resolve x => Some (x, ()) | _ => None end);
  Var 1 [F Path_pack] (fun v => TR_List v.1)
    (fun a => match a with TR_List x => Some (x, ()) | _ => None end);
  Var 2 [F Path_pack] (fun v => TR_Table v.1)
    (fun a => match a with TR_Table x => Some (x, ()) | _ => None end);
  Var 3 [F GlobSet_pack] (fun v => TR_ListMatching v.1)
    (fun a => match a with TR_ListMatching x => Some (x, ()) | _ => None end);
  Var 4 [F Path_pack] (fun v => TR_GetChangeNr v.1)
    (fun a => match a with TR_GetChangeNr x => Some (x, ()) | _ => None end)
] None.
End Messages.

(** ** Laws *)

#[export] Instance atomic_id_ok name : PackOk (atomic_id_pack name) (fun i => in_u 64 (inner i)).
Proof.
  split; intros [i] Hi; cbn in *.
  - destruct (varint_len_bounds i Hi). lia.
  - intros _. exists (encode_varint i). split; [done|].
    split; [by apply encode_varint_zlen|]. intros rest _.
    by rewrite (dbind_ok _ _ _ _ _ (decode_encode_varint i rest Hi)).
Qed.
#[export] Instance atomic_id_safe name : PackSafe (atomic_id_pack name).
Proof. unfold PackSafe. cbn [decode atomic_id_pack simple_pack]. solve_safe. Qed.

(** Sequences as the containers want them *)
Abbreviation vec_wf P wf := (seq_wf P (size_of P) wf).

Section Laws.
Context {ES : Escaping} {LY : Layout}.

#[export] Instance HashMethod_ok : PackOk HashMethod_pack (fun _ => True).
Proof. unfold HashMethod_pack. derive_enum_law. Qed.
#[export] Instance AuthChallenge_ok :
  PackOk AuthChallenge_pack (fun a => uint_wf (challenge a)).
Proof. unfold AuthChallenge_pack. derive_struct_law. Qed.
#[export] Instance AuthRead_ok : PackOk AuthRead_pack (fun _ => True).
Proof. unfold AuthRead_pack. derive_enum_law. Qed.

Definition AuthWrite_wf (a : AuthWrite) : Prop :=
  match a with AW_Krb5 s | AW_Tls s => str_wf s | _ => True end.
#[export] Instance AuthWrite_ok : PackOk AuthWrite_pack AuthWrite_wf.
Proof. unfold AuthWrite_pack. derive_enum_law. Qed.
#[export] Instance PublisherPriority_ok : PackOk PublisherPriority_pack (fun _ => True).
Proof. unfold PublisherPriority_pack. derive_enum_law. Qed.

Definition ClientHelloWrite_wf (h : ClientHelloWrite) : Prop :=
  addr_wf (chw_write_addr h) ∧ AuthWrite_wf (chw_auth h).
#[export] Instance ClientHelloWrite_ok : PackOk ClientHelloWrite_pack ClientHelloWrite_wf.
Proof. unfold ClientHelloWrite_pack, ClientHelloWrite_wf. derive_struct_law. Qed.
Definition ClientHello_wf (h : ClientHello) : Prop :=
  match h with ReadOnly _ => True | WriteOnly h => ClientHelloWrite_wf h end.
#[export] Instance ClientHello_ok : PackOk ClientHello_pack ClientHello_wf.
Proof. unfold ClientHello_pack. derive_enum_law. Qed.
Definition ServerHelloWrite_wf (h : ServerHelloWrite) : Prop :=
  uint_wf (shw_ttl h) ∧ AuthWrite_wf (shw_auth h) ∧ addr_wf (shw_resolver_id h).
#[export] Instance ServerHelloWrite_ok : PackOk ServerHelloWrite_pack ServerHelloWrite_wf.
Proof. unfold ServerHelloWrite_pack, ServerHelloWrite_wf. derive_struct_law. Qed.
#[export] Instance Secret_ok : PackOk Secret_pack (fun s => uint_wf (secret s)).
Proof. unfold Secret_pack. derive_struct_law. Qed.
#[export] Instance ReadyForOwnershipCheck_ok :
  PackOk ReadyForOwnershipCheck_pack (fun _ => True).
Proof.
  split; intros [] _; cbn [encoded_len encode decode ReadyForOwnershipCheck_pack simple_pack];
    [by vm_compute|]. intros Hlt. apply wrapped_ok; [done|done|]. intros _.
  exists [Zb 0]. split; [done|]. split; [done|]. intros rest _. cbn [app].
  by rewrite (dbind_ok _ _ _ _ _ (decode_tag 0 rest ltac:(lia))).
Qed.

Definition Auth_wf (a : Auth) : Prop :=
  match a with A_Anonymous => True | A_Local s | A_Krb5 s | A_Tls s => str_wf s end.
#[export] Instance Auth_ok : PackOk Auth_pack Auth_wf.
Proof. unfold Auth_pack. derive_enum_law. Qed.
Definition TargetAuth_wf (a : TargetAuth) : Prop :=
  match a with TA_Krb5 s | TA_Tls s => str_wf s | _ => True end.
#[export] Instance TargetAuth_ok : PackOk TargetAuth_pack TargetAuth_wf.
Proof. unfold TargetAuth_pack. derive_enum_law. Qed.

Definition opt_wf {A} (wf : A → Prop) (o : option A) : Prop :=
  match o with Some x => wf x | None => True end.

Definition UserInfo_wf (u : UserInfo) : Prop :=
  str_wf (ui_name u) ∧ str_wf (ui_primary_group u) ∧ vec_wf ArcStr_pack str_wf (ui_groups u) ∧
  addr_wf (ui_resolver u) ∧ bytes_wf (ui_token u).
#[export] Instance UserInfo_ok : PackOk UserInfo_pack UserInfo_wf.
Proof. unfold UserInfo_pack, UserInfo_wf. derive_struct_law. Qed.

Definition Publisher_wf (p : Publisher) : Prop :=
  addr_wf (pub_resolver p) ∧ in_u 64 (inner (pub_id p)) ∧ addr_wf (pub_addr p) ∧
  TargetAuth_wf (pub_target_auth p) ∧ opt_wf UserInfo_wf (pub_user_info p).
#[export] Instance Publisher_ok : PackOk Publisher_pack Publisher_wf.
Proof. unfold Publisher_pack, Publisher_wf, opt_wf. derive_struct_law. Qed.

Definition PublisherRef_wf (r : PublisherRef) : Prop :=
  in_u 64 (inner (pr_id r)) ∧ bytes_wf (pr_token r).
#[export] Instance PublisherRef_ok : PackOk PublisherRef_pack PublisherRef_wf.
Proof. unfold PublisherRef_pack, PublisherRef_wf. derive_struct_law. Qed.

Definition Resolved_wf (r : Resolved) : Prop :=
  addr_wf (res_resolver r) ∧ vec_wf PublisherRef_pack PublisherRef_wf (res_publishers r) ∧
  uint_wf (res_timestamp r) ∧ uint_wf (res_flags r) ∧ uint_wf (res_permissions r).
#[export] Instance Resolved_ok : PackOk Resolved_pack Resolved_wf.
Proof. unfold Resolved_pack, Resolved_wf. derive_struct_law. Qed.

Definition Referral_wf (r : Referral) : Prop :=
  path_wf (ref_path r) ∧ opt_wf uint_wf (ref_ttl r) ∧
  vec_wf (tuple2_pack SocketAddr_pack Auth_pack) (fun x => addr_wf x.1 ∧ Auth_wf x.2)
    (ref_addrs r).
#[export] Instance Referral_ok : PackOk Referral_pack Referral_wf.
Proof. unfold Referral_pack, Referral_wf, opt_wf. derive_struct_law. Qed.

Definition Table_wf (t : Table) : Prop :=
  vec_wf Path_pack path_wf (tbl_rows t) ∧
  vec_wf (tuple2_pack Path_pack Z64_pack) (fun x => path_wf x.1 ∧ in_u 64 (z64 x.2))
    (tbl_cols t).
#[export] Instance Table_ok : PackOk Table_pack Table_wf.
Proof. unfold Table_pack, Table_wf. derive_struct_law. Qed.

Definition ListMatching_wf (l : ListMatching) : Prop :=
  vec_wf (GPooled_pack [] (Vec_pack Path_pack)) (vec_wf Path_pack path_wf) (lm_matched l) ∧
  vec_wf Referral_pack Referral_wf (lm_referrals l).
#[export] Instance ListMatching_ok : PackOk ListMatching_pack ListMatching_wf.
Proof. unfold ListMatching_pack, ListMatching_wf. derive_struct_law. Qed.

Definition GetChangeNr_wf (c : GetChangeNr) : Prop :=
  in_u 64 (z64 (gcn_change_number c)) ∧ addr_wf (gcn_resolver c) ∧
  vec_wf Referral_pack Referral_wf (gcn_referrals c).
#[export] Instance GetChangeNr_ok : PackOk GetChangeNr_pack GetChangeNr_wf.
Proof. unfold GetChangeNr_pack, GetChangeNr_wf. derive_struct_law. Qed.

Definition FromRead_wf (m : FromRead) : Prop :=
  match m with
  | FR_Publisher p => Publisher_wf p
  | FR_Resolved r => Resolved_wf r
  | FR_List l => vec_wf Path_pack path_wf l
  | FR_Table t => Table_wf t
  | FR_Referral r => Referral_wf r
  | FR_Denied => True
  | FR_Error e => str_wf e
  | FR_ListMatching l => ListMatching_wf l
  | FR_GetChangeNr c => GetChangeNr_wf c
  end.
#[export] Instance FromRead_ok : PackOk FromRead_pack FromRead_wf.
Proof. unfold FromRead_pack. derive_enum_law. Qed.

Definition ToWrite_wf (m : ToWrite) : Prop :=
  match m with
  | Publish p | PublishDefault p | Unpublish p | UnpublishDefault p => path_wf p
  | PublishWithFlags p f | PublishDefaultWithFlags p f => path_wf p ∧ uint_wf f
  | Clear | Heartbeat => True
  end.
#[export] Instance ToWrite_ok : PackOk ToWrite_pack ToWrite_wf.
Proof. unfold ToWrite_pack. derive_enum_law. Qed.

Definition FromWrite_wf (m : FromWrite) : Prop :=
  match m with
  | FW_Referral r => Referral_wf r
  | FW_Error e => str_wf e
  | _ => True
  end.
#[export] Instance FromWrite_ok : PackOk FromWrite_pack FromWrite_wf.
Proof. unfold FromWrite_pack. derive_enum_law. Qed.

Definition Hello_wf (h : Hello) : Prop :=
  match h with
  | H_Anonymous => True
  | H_Krb5 u | H_Local u | H_Tls u => opt_wf UserInfo_wf u
  | H_ResolverAuthenticate a => addr_wf a
  end.
#[export] Instance Hello_ok : PackOk Hello_pack Hello_wf.
Proof. unfold Hello_pack, opt_wf. derive_enum_law. Qed.

#[export] Instance HashMethod_safe : PackSafe HashMethod_pack.
Proof. unfold HashMethod_pack. derive_safe. Qed.
#[export] Instance AuthChallenge_safe : PackSafe AuthChallenge_pack.
Proof. unfold AuthChallenge_pack. derive_safe. Qed.
#[export] Instance AuthRead_safe : PackSafe AuthRead_pack.
Proof. unfold AuthRead_pack. derive_safe. Qed.
#[export] Instance AuthWrite_safe : PackSafe AuthWrite_pack.
Proof. unfold AuthWrite_pack. derive_safe. Qed.
#[export] Instance PublisherPriority_safe : PackSafe PublisherPriority_pack.
Proof. unfold PublisherPriority_pack. derive_safe. Qed.
#[export] Instance ClientHelloWrite_safe : PackSafe ClientHelloWrite_pack.
Proof. unfold ClientHelloWrite_pack. derive_safe. Qed.
#[export] Instance ClientHello_safe : PackSafe ClientHello_pack.
Proof. unfold ClientHello_pack. derive_safe. Qed.
#[export] Instance ServerHelloWrite_safe : PackSafe ServerHelloWrite_pack.
Proof. unfold ServerHelloWrite_pack. derive_safe. Qed.
#[export] Instance Auth_safe : PackSafe Auth_pack.
Proof. unfold Auth_pack. derive_safe. Qed.
#[export] Instance TargetAuth_safe : PackSafe TargetAuth_pack.
Proof. unfold TargetAuth_pack. derive_safe. Qed.
#[export] Instance UserInfo_safe : PackSafe UserInfo_pack.
Proof. unfold UserInfo_pack. derive_safe. Qed.
#[export] Instance Publisher_safe : PackSafe Publisher_pack.
Proof. unfold Publisher_pack. derive_safe. Qed.
#[export] Instance PublisherRef_safe : PackSafe PublisherRef_pack.
Proof. unfold PublisherRef_pack. derive_safe. Qed.
#[export] Instance Resolved_safe : PackSafe Resolved_pack.
Proof. unfold Resolved_pack. derive_safe. Qed.
#[export] Instance Referral_safe : PackSafe Referral_pack.
Proof. unfold Referral_pack. derive_safe. Qed.
#[export] Instance Table_safe : PackSafe Table_pack.
Proof. unfold Table_pack. derive_safe. Qed.
#[export] Instance ListMatching_safe : PackSafe ListMatching_pack.
Proof. unfold ListMatching_pack. derive_safe. Qed.
#[export] Instance GetChangeNr_safe : PackSafe GetChangeNr_pack.
Proof. unfold GetChangeNr_pack. derive_safe. Qed.
#[export] Instance FromRead_safe : PackSafe FromRead_pack.
Proof. unfold FromRead_pack. derive_safe. Qed.
#[export] Instance ToWrite_safe : PackSafe ToWrite_pack.
Proof. unfold ToWrite_pack. derive_safe. Qed.
#[export] Instance FromWrite_safe : PackSafe FromWrite_pack.
Proof. unfold FromWrite_pack. derive_safe. Qed.
#[export] Instance Hello_safe : PackSafe Hello_pack.
Proof. unfold Hello_pack. derive_safe. Qed.
End Laws.

(** ** Requests with globs *)

Section GlobRequests.
Context {ES : Escaping} {ESO : EscapingOk ES} {LY : Layout}.
Context {GS : Globset} {GSO : GlobsetOk GS} {US : UnstableSort}.

(** A set in the form the decoder produces: sorted, with its compiled form *)
Definition GlobSet_wf (s : GlobSet) : Prop :=
  sort_unstable_by base (gs_raw s) = gs_raw s ∧
  gset_build (glob <$> gs_raw s) = Some (gs_glob s) ∧
  vec_wf Glob_pack glob_wf (gs_raw s).

#[export] Instance GlobSet_ok : PackOk GlobSet_pack GlobSet_wf.
Proof.
  eapply PackOk_impl with (wf := fun s => True ∧ GlobSet_wf s); [|tauto].
  pose proof (tuple2_ok bool_pack (fun _ => True) globs_pack (vec_wf Glob_pack glob_wf)) as HT.
  split; intros s [_ (Hs & Hb & Hw)].
  - by apply (encoded_len_nonneg (P := tuple2_pack bool_pack globs_pack)
      (published_only s, gs_raw s)).
  - intros Hlt. destruct (encode_spec (P := tuple2_pack bool_pack globs_pack)
      (published_only s, gs_raw s) (conj I Hw) Hlt) as (bs & He & Hz & Hd).
    exists bs. split; [done|]. split; [done|]. intros rest Hr. specialize (Hd rest Hr).
    cbn [decode GlobSet_pack tuple2_pack simple_pack] in Hd |- *. unfold dbind in *.
    destruct (decode bool_pack (bs ++ rest)) as [[po| |] bs1]; [|done..].
    destruct (decode globs_pack bs1) as [[l| |] bs2]; [|done..]. cbn in Hd.
    injection Hd as -> -> ->. rewrite Hb, Hs. by destruct s.
Qed.

Definition ToRead_wf (m : ToRead GS) : Prop :=
  match m with
  | TR_Resolve p | TR_List p | TR_Table p | TR_GetChangeNr p => path_wf p
  | TR_ListMatching g => GlobSet_wf g
  end.
#[export] Instance ToRead_ok : PackOk ToRead_pack ToRead_wf.
Proof. unfold ToRead_pack. derive_enum_law. Qed.
End GlobRequests.

(** ** Theorems *)

Section Theorems.
Context {ES : Escaping} {ESO : EscapingOk ES} {LY : Layout}.
Context {GS : Globset} {GSO : GlobsetOk GS} {US : UnstableSort}.

(** C21: Every message of the resolver protocol and the publisher's handshake
    arrives as it was sent: encoding succeeds, takes the number of bytes
    announced, and decoding gives the message and leaves what follows it. *)
Theorem messages_roundtrip :
  PackOk ClientHello_pack ClientHello_wf ∧
  PackOk ServerHelloWrite_pack ServerHelloWrite_wf ∧
  PackOk AuthChallenge_pack (fun a => uint_wf (challenge a)) ∧
  PackOk ReadyForOwnershipCheck_pack (fun _ => True) ∧
  PackOk ToRead_pack ToRead_wf ∧ PackOk FromRead_pack FromRead_wf ∧
  PackOk ToWrite_pack ToWrite_wf ∧ PackOk FromWrite_pack FromWrite_wf ∧
  PackOk Hello_pack Hello_wf.
Proof. split_and!; apply _. Qed.

(** The decoders of everything a peer sends except glob requests are safe on
    arbitrary bytes: they return a message or an error, never panic and never
    read past the buffer. *)
Theorem messages_decode_safe :
  PackSafe ClientHello_pack ∧ PackSafe ServerHelloWrite_pack ∧ PackSafe AuthChallenge_pack ∧
  PackSafe FromRead_pack ∧ PackSafe ToWrite_pack ∧ PackSafe FromWrite_pack ∧
  PackSafe Hello_pack.
Proof. split_and!; apply _. Qed.

Lemma ids_from {name} n start :
  in_u 64 start →
  (Nat.iter n (fun '(ids, next) => let '(i, next) := atomic_id_new next in (ids ++ [i], next))
    (@nil (atomic_id name), start)) =
  ((fun k => MkId (wrap 64 (start + Z.of_nat k))) <$> seq 0 n, wrap 64 (start + Z.of_nat n)).
Proof.
  intros Hs. induction n as [|n IH]; [cbn; by rewrite Z.add_0_r, wrap_small|].
  rewrite seq_S, fmap_app. unfold Nat.iter in *. cbn [nat_rect]. rewrite IH.
  unfold atomic_id_new. cbn [fmap list_fmap]. f_equal. unfold wrap.
  rewrite Z.add_mod_idemp_l by lia. f_equal. lia.
Qed.

(** Ids are unique in a process: the first 2^64 calls of [new] give
    different ids, whatever the counter started from. *)
Theorem atomic_ids_unique {name} n start :
  in_u 64 start → Z.of_nat n ≤ 2 ^ 64 →
  NoDup (Nat.iter n (fun '(ids, next) =>
    let '(i, next) := atomic_id_new next in (ids ++ [i], next)) (@nil (atomic_id name), start)).1.
Proof.
  intros Hs Hn. rewrite ids_from by done. cbn. apply NoDup_fmap_2_strong; [|apply NoDup_seq].
  intros x y [_ Hx]%elem_of_seq [_ Hy]%elem_of_seq [= He]. unfold wrap in He.
  assert (Hd : (Z.of_nat x - Z.of_nat y) mod 2 ^ 64 = 0).
  { replace (Z.of_nat x - Z.of_nat y) with ((start + Z.of_nat x) - (start + Z.of_nat y)) by lia.
    rewrite Zminus_mod, He, Z.sub_diag. by apply Z.mod_0_l. }
  apply Z.mod_divide in Hd as [k Hk]; [|lia]. nia.
Qed.

(** [==] on referrals is not an equivalence. The comparison stops at the
    shorter list of servers, so a referral to nowhere equals every referral,
    referrals to different servers included, and equal referrals hash
    differently. *)
Theorem referral_eq_not_equivalence p ttl a b :
  a ≠ b →
  let r l := MkReferral p ttl l in
  referral_eq (r [(a, A_Anonymous)]) (r []) = true ∧
  referral_eq (r []) (r [(b, A_Anonymous)]) = true ∧
  referral_eq (r [(a, A_Anonymous)]) (r [(b, A_Anonymous)]) = false ∧
  referral_hash (r [(a, A_Anonymous)]) ≠ referral_hash (r []).
Proof.
  intros Hab r. split; [done|]. split; [done|]. split; [|done].
  unfold referral_eq. cbn. rewrite bool_decide_false; [done|]. by intros [= ->].
Qed.
End Theorems.

(** ** The theorems at concrete messages *)

Lemma messages_roundtrip_witness :
  PackOk (ToRead_pack (ES := escaping_ref) (LY := demo_layout) (GS := prefix_globs)
    (US := stable_sort))
    (ToRead_wf (ES := escaping_ref) (LY := demo_layout) (GS := prefix_globs) (US := stable_sort)).
Proof.
  apply (messages_roundtrip (ES := escaping_ref) (LY := demo_layout) (GS := prefix_globs)
    (US := stable_sort)).
Defined.

Lemma atomic_ids_unique_witness :
  NoDup (Nat.iter 3 (fun '(ids, next) =>
    let '(i, next) := atomic_id_new next in (ids ++ [i], next))
    (@nil (atomic_id "Id"), 2 ^ 64 - 1)).1.
Proof. apply (atomic_ids_unique 3 (2 ^ 64 - 1)); by vm_compute. Defined.

Lemma referral_eq_not_equivalence_witness :
  referral_eq (MkReferral ROOT None [(V4 [] (UInt 1), A_Anonymous)])
    (MkReferral ROOT None [(V4 [] (UInt 2), A_Anonymous)]) = false.
Proof.
  apply (referral_eq_not_equivalence ROOT None (V4 [] (UInt 1)) (V4 [] (UInt 2))). by intros [=].
Defined.
