(* ===== verification/Store.v ===== *)
(** The resolver's store (netidx/src/resolver_server/store.rs): who publishes
    which path, the default publishers, the tree of levels used for listing, the
    column counts of inferred tables and the referrals to other servers. Hash
    maps are finite maps; an iteration over one takes its order as a parameter.
    Token signing uses the publishers' secrets of secctx.rs and sha3, which is a
    parameter. *)
From Stdlib Require Import ZArith Lia.
From stdpp Require Import base gmap list strings sorting.
From Stdlib Require Import Strings.Byte.
From S2P Require Import Prelude Varint Pack Containers PackTypes Path PathFacts Order Glob Derive Proto.

#[export] Instance uint_countable n : Countable (uint n).
Proof. apply (inj_countable' uval UInt). by intros []. Defined.
#[export] Instance SocketAddr_countable : Countable SocketAddr.
Proof.
  refine (inj_countable'
    (fun a => match a with
     | V4 o p => inl (o, p)
     | V6 s p f sc => inr (s, p, f, sc)
     end)
    (fun x => match x with
     | inl (o, p) => V4 o p
     | inr (s, p, f, sc) => V6 s p f sc
     end) _). by intros [].
Defined.

(** ** Security data *)

(** [SecCtxDataReadGuard]: the secrets of the authenticated publishers; the
    three kinds of [SecCtxData] answer [secret] alike. *)
Inductive SecCtxDataReadGuard :=
| SecAnonymous
| SecKrb5 (data : gmap PublisherId u128)
| SecLocal (data : gmap PublisherId u128)
| SecTls (data : gmap PublisherId u128).

(** [SecCtxData::insert], [remove] and [secret] *)
Definition sec_remove (id : PublisherId) (data : gmap PublisherId u128) := delete id data.
Definition sec_insert (id : PublisherId) (d : u128) (data : gmap PublisherId u128) :=
  <[id:=d]> (sec_remove id data).
Definition sec_secret (data : gmap PublisherId u128) (id : PublisherId) : option u128 :=
  data !! id.

(** [utils::make_sha3_token]: the hash of the concatenated parts *)
Class Sha3 := sha3_512 : str → str.
Definition make_sha3_token {SH : Sha3} (data : list str) : str := sha3_512 (concat data).

(** ** Hash consing of the publisher sets *)

Definition GC_THRESHOLD : Z := 100000.
Definition MAX_WRITE_BATCH : Z := 100000.
Definition MAX_READ_BATCH : Z := 1000000.

Abbreviation ids := (gset PublisherId).
Record HCSet := MkHCSet { hc_ops : Z; hc_sets : gset ids }.

(** Which cached sets are referenced elsewhere, asked by [strong_count] *)
Class Live := strong : ids → bool.

Section HC.
Context {LV : Live}.
Definition hc_new : HCSet := MkHCSet 0 ∅.
Definition hc_gc (h : HCSet) : HCSet :=
  MkHCSet 0 (filter (fun s => strong s = true) (hc_sets h)).
Definition hashcons (h : HCSet) (set : ids) : ids * HCSet :=
  let h := MkHCSet (hc_ops h + 1) ({[set]} ∪ hc_sets h) in
  (set, if GC_THRESHOLD <? hc_ops h then hc_gc h else h).
Definition hc_add (h : HCSet) (current : ids) (v : PublisherId) : ids * HCSet :=
  let new := {[v]} ∪ current in
  if decide (v ∈ current) then (new, h) else hashcons h new.
Definition hc_remove (h : HCSet) (current : ids) (v : PublisherId) : option ids * HCSet :=
  let new := current ∖ {[v]} in
  if decide (size new = 0%nat) then (None, h)
  else let '(s, h) := hashcons h new in (Some s, h).
End HC.

(** ** The state *)

Record Store := MkStore {
  publishers_by_id : gmap PublisherId Publisher;
  publishers_by_addr : gmap SocketAddr PublisherId;
  published_by_path : gmap str ids;
  flags_by_path : gmap str u32;
  published_by_id : gmap PublisherId (gset str);
  published_by_level : gmap Z (gmap str Z);
  columns : gmap str (gmap str Z);
  defaults_by_path : gmap str ids;
  defaults_by_id : gmap PublisherId (gset str);
  parent : option Referral;
  children : gmap str Referral;
  sets : HCSet
}.

Definition set_levels (s : Store) (l : gmap Z (gmap str Z)) : Store :=
  MkStore (publishers_by_id s) (publishers_by_addr s) (published_by_path s) (flags_by_path s)
    (published_by_id s) l (columns s) (defaults_by_path s) (defaults_by_id s)
    (parent s) (children s) (sets s).
Definition set_columns (s : Store) (c : gmap str (gmap str Z)) : Store :=
  MkStore (publishers_by_id s) (publishers_by_addr s) (published_by_path s) (flags_by_path s)
    (published_by_id s) (published_by_level s) c (defaults_by_path s) (defaults_by_id s)
    (parent s) (children s) (sets s).
Definition set_flags (s : Store) (f : gmap str u32) : Store :=
  MkStore (publishers_by_id s) (publishers_by_addr s) (published_by_path s) f
    (published_by_id s) (published_by_level s) (columns s) (defaults_by_path s)
    (defaults_by_id s) (parent s) (children s) (sets s).
Definition set_publishers (s : Store) (p : gmap PublisherId Publisher)
    (a : gmap SocketAddr PublisherId) : Store :=
  MkStore p a (published_by_path s) (flags_by_path s) (published_by_id s)
    (published_by_level s) (columns s) (defaults_by_path s) (defaults_by_id s)
    (parent s) (children s) (sets s).
Definition set_published (s : Store) (p : gmap str ids) (i : gmap PublisherId (gset str))
    (h : HCSet) : Store :=
  MkStore (publishers_by_id s) (publishers_by_addr s) p (flags_by_path s) i
    (published_by_level s) (columns s) (defaults_by_path s) (defaults_by_id s)
    (parent s) (children s) h.
Definition set_defaults (s : Store) (p : gmap str ids) (i : gmap PublisherId (gset str))
    (h : HCSet) : Store :=
  MkStore (publishers_by_id s) (publishers_by_addr s) (published_by_path s) (flags_by_path s)
    (published_by_id s) (published_by_level s) (columns s) p i
    (parent s) (children s) h.

(** [with_trailing] *)
Definition with_trailing (p : str) : str := p ++ [SEP].

(** [cn += 1] on a [u64] *)
Definition incr (c : Z) : Z := wrap 64 (c + 1).

Section Ops.
Context {ES : Escaping} {LV : Live}.

(** [column_path_parts] *)
Definition column_path_parts (path : str) : option (str * str) :=
  match basename path with
  | None => None
  | Some name =>
      match dirname path with
      | None => None
      | Some d =>
          match dirname d with
          | None => None
          | Some root => Some (root, name)
          end
      end
  end.

Definition level_map (l : gmap Z (gmap str Z)) (n : Z) : gmap str Z := default ∅ (l !! n).

(** One round of [add_parents], at the directory [p] *)
Definition add_level (l : gmap Z (gmap str Z)) (p : str) : gmap Z (gmap str Z) :=
  let n := levels p in
  let m := level_map l n in
  <[n := match m !! p with
         | Some cn => <[p := incr cn]> m
         | None => <[path_from p := 1]> m
         end]> l.
(** [add_parents]: every round shortens [p] *)
Fixpoint add_parents_loop (fuel : nat) (l : gmap Z (gmap str Z)) (p : str)
  : gmap Z (gmap str Z) :=
  match fuel with
  | O => l
  | S fuel =>
      let p := default ROOT (dirname p) in
      let l := add_level l p in
      if decide (p = ROOT) then l else add_parents_loop fuel l p
  end.
Definition add_parents (s : Store) (p : str) : Store :=
  set_levels s (add_parents_loop (S (length p)) (published_by_level s) p).

(** The test of [remove_parents] that keeps [p] *)
Definition has_child_level (l : gmap Z (gmap str Z)) (p : str) : bool :=
  match l !! (levels p + 1) with
  | None => false
  | Some m =>
      match bt_range (Excluded (with_trailing p)) Unbounded m with
      | [] => false
      | (o, _) :: _ => is_parent p o
      end
  end.
Definition keep_level (s : Store) (l : gmap Z (gmap str Z)) (p : str) : bool :=
  bool_decide (p = ROOT) || bool_decide (is_Some (published_by_path s !! p)) ||
  bool_decide (is_Some (defaults_by_path s !! p)) ||
  bool_decide (is_Some (children s !! p)) || has_child_level l p.

(** What a round of [remove_parents] does to the levels *)
Definition save_level (l : gmap Z (gmap str Z)) (p : str) : gmap Z (gmap str Z) :=
  let n := levels p in
  let m := level_map l n in
  <[n := match m !! p with Some cn => <[p := incr cn]> m | None => m end]> l.
Definition drop_level (l : gmap Z (gmap str Z)) (p : str) : gmap Z (gmap str Z) :=
  let n := levels p in
  match l !! n with
  | None => l
  | Some m =>
      let m := delete p m in
      if decide (m = ∅) then delete n l else <[n := m]> l
  end.
Fixpoint remove_parents_loop (fuel : nat) (s : Store) (save : bool)
    (l : gmap Z (gmap str Z)) (p : str) : gmap Z (gmap str Z) :=
  match fuel with
  | O => l
  | S fuel =>
      let save := save || keep_level s l p in
      let l := if save then save_level l p else drop_level l p in
      if decide (p = ROOT) then l
      else remove_parents_loop fuel s save l (default ROOT (dirname p))
  end.
Definition remove_parents (s : Store) (p : str) : Store :=
  set_levels s (remove_parents_loop (S (S (length p))) s false (published_by_level s) p).

(** [Store::new] *)
Definition Store_new (parent : option Referral) (children : gmap str Referral) : Store :=
  foldl (fun s child => add_parents s (append child (lit "z")))
    (MkStore ∅ ∅ ∅ ∅ ∅ ∅ ∅ ∅ ∅ parent children hc_new)
    (bt_iter children).*1.

(** [shrink_to_fit] gives memory back and collects the cached sets *)
Definition shrink_to_fit (s : Store) : Store :=
  set_published s (published_by_path s) (published_by_id s) (hc_gc (sets s)).

(** [check_referral] *)
Definition check_referral (s : Store) (path : str) : option Referral :=
  let child :=
    match last (bt_range Unbounded (Included path) (children s)) with
    | None => None
    | Some (p, r) => if is_parent p path then Some r else None
    end in
  match parent s with
  | Some r =>
      if negb (is_parent (ref_path r) path)
      then Some (MkReferral (path_from (lit "/")) (ref_ttl r) (ref_addrs r))
      else child
  | None => child
  end.

(** [referrals_in_scope]: what is pushed on [refs] *)
Definition referrals_in_scope (s : Store) (base_path : str) (scope : Scope) : list Referral :=
  (match parent s with
   | Some r =>
       if negb (is_parent (ref_path r) base_path)
       then [MkReferral (path_from (lit "/")) (ref_ttl r) (ref_addrs r)] else []
   | None => []
   end) ++
  omap (fun '(p, r) =>
    if is_parent base_path p && scope_contains scope (levels p) then Some r
    else if is_parent p base_path then Some r else None) (bt_iter (children s)).

(** [add_column], [remove_column] *)
Definition add_column (s : Store) (path : str) : Store :=
  match column_path_parts path with
  | None => s
  | Some (root, name) =>
      match columns s !! root with
      | Some cols =>
          match cols !! name with
          | Some c => set_columns s (<[root := <[name := incr c]> cols]> (columns s))
          | None => set_columns s (<[root := <[path_from name := 1]> cols]> (columns s))
          end
      | None => set_columns s (<[path_from root := {[path_from name := 1]}]> (columns s))
      end
  end.
Definition remove_column (s : Store) (path : str) : Store :=
  match column_path_parts path with
  | None => s
  | Some (root, name) =>
      match columns s !! root with
      | None => s
      | Some cols =>
          match cols !! name with
          | None => s
          | Some c =>
              let c := wrap 64 (c - 1) in
              if c =? 0 then
                let cols := delete name cols in
                if decide (cols = ∅) then set_columns s (delete root (columns s))
                else set_columns s (<[root := cols]> (columns s))
              else set_columns s (<[root := <[name := c]> cols]> (columns s))
          end
      end
  end.

(** ** Publishing *)

Definition ids_at (m : gmap str ids) (path : str) : ids := default ∅ (m !! path).
Definition paths_of (m : gmap PublisherId (gset str)) (id : PublisherId) : gset str :=
  default ∅ (m !! id).

(** The increment of the path's own change number at the end of [publish] and
    [unpublish] *)
Definition touch_level (s : Store) (path : str) : Store :=
  let n := levels path in
  let m := level_map (published_by_level s) n in
  set_levels s (<[n := <[path := incr (default 0 (m !! path))]> m]> (published_by_level s)).

(** [publish] *)
Definition publish (s : Store) (path : str) (publisher : Publisher) (default_ : bool)
    (flags : option u32) : Store :=
  let '(publisher, s) :=
    match publishers_by_id s !! pub_id publisher with
    | Some p => (p, s)
    | None =>
        (publisher, set_publishers s
           (<[pub_id publisher := publisher]> (publishers_by_id s))
           (<[pub_addr publisher := pub_id publisher]> (publishers_by_addr s)))
    end in
  let id := pub_id publisher in
  let '(up, s) :=
    if (default_ : bool) then
      let pubs := ids_at (defaults_by_path s) path in
      let '(pubs', h) := hc_add (sets s) pubs id in
      (bool_decide (size pubs < size pubs')%nat,
       set_defaults s (<[path := pubs']> (defaults_by_path s))
         (<[id := {[path]} ∪ paths_of (defaults_by_id s) id]> (defaults_by_id s)) h)
    else
      let pubs := ids_at (published_by_path s) path in
      let '(pubs', h) := hc_add (sets s) pubs id in
      let s := set_published s (<[path := pubs']> (published_by_path s))
        (<[id := {[path]} ∪ paths_of (published_by_id s) id]> (published_by_id s)) h in
      let up := bool_decide (size pubs < size pubs')%nat in
      (up, if up then add_column s path else s) in
  let s :=
    match flags with
    | Some f => set_flags s (<[path := f]> (flags_by_path s))
    | None => s
    end in
  if up then touch_level (add_parents s path) path else s.

(** Forgetting [path] in a publisher's own set; an emptied set is removed *)
Definition forget_path (m : gmap PublisherId (gset str)) (id : PublisherId) (path : str)
  : gmap PublisherId (gset str) :=
  match m !! id with
  | None => delete id m
  | Some ps =>
      let ps := ps ∖ {[path]} in
      if decide (ps = ∅) then delete id m else <[id := ps]> m
  end.

(** The last part of [unpublish] *)
Definition unpublish_cleanup (s : Store) (publisher : Publisher) (path : str) : Store :=
  let s := touch_level (remove_parents s path) path in
  let s :=
    if decide (published_by_path s !! path = None ∧ defaults_by_path s !! path = None) then
      let s := set_flags s (delete path (flags_by_path s)) in
      let n := levels path in
      match published_by_level s !! n with
      | Some m => set_levels s (<[n := delete path m]> (published_by_level s))
      | None => s
      end
    else s in
  if decide (defaults_by_id s !! pub_id publisher = None ∧
             published_by_id s !! pub_id publisher = None)
  then set_publishers s (delete (pub_id publisher) (publishers_by_id s))
         (delete (pub_addr publisher) (publishers_by_addr s))
  else s.

(** [unpublish] *)
Definition unpublish (s : Store) (publisher : Publisher) (default_ : bool) (path : str)
  : Store :=
  let id := pub_id publisher in
  let '(up, s) :=
    if (default_ : bool) then
      let s := set_defaults s (defaults_by_path s) (forget_path (defaults_by_id s) id path)
        (sets s) in
      match defaults_by_path s !! path with
      | None => (false, s)
      | Some pubs =>
          match hc_remove (sets s) pubs id with
          | (Some new_pubs, h) =>
              (bool_decide (size new_pubs < size pubs)%nat,
               set_defaults s (<[path := new_pubs]> (defaults_by_path s)) (defaults_by_id s) h)
          | (None, h) =>
              (true, set_defaults s (delete path (defaults_by_path s)) (defaults_by_id s) h)
          end
      end
    else
      let s := set_published s (published_by_path s) (forget_path (published_by_id s) id path)
        (sets s) in
      match published_by_path s !! path with
      | None => (false, s)
      | Some pubs =>
          match hc_remove (sets s) pubs id with
          | (Some new_pubs, h) =>
              let s := set_published s (<[path := new_pubs]> (published_by_path s))
                (published_by_id s) h in
              let up := bool_decide (size new_pubs < size pubs)%nat in
              (up, if up then remove_column s path else s)
          | (None, h) =>
              (true, remove_column (set_published s (delete path (published_by_path s))
                 (published_by_id s) h) path)
          end
      end in
  if up then unpublish_cleanup s publisher path else s.

(** [published_for_id], [defaults_for_id] *)
Definition published_for_id (s : Store) (id : PublisherId) : gset str :=
  paths_of (published_by_id s) id.
Definition defaults_for_id (s : Store) (id : PublisherId) : gset str :=
  paths_of (defaults_by_id s) id.

(** [clear], draining the hash sets in some order *)
Definition clear (drain : gset str → list str) (s : Store) (publisher : Publisher) : Store :=
  let s := foldl (fun s path => unpublish s publisher false path) s
    (drain (published_for_id s (pub_id publisher))) in
  foldl (fun s path => unpublish s publisher true path) s
    (drain (defaults_for_id s (pub_id publisher))).

(** ** Reading *)

Definition get_flags (s : Store) (path : str) : u32 := default (UInt 0) (flags_by_path s !! path).

(** Sets of ids iterate in order. *)
Definition id_le (x y : PublisherId) : Prop := inner x ≤ inner y.
#[export] Instance id_le_dec : RelDecision id_le.
Proof. intros x y. unfold id_le. apply _. Defined.
Definition id_iter (s : ids) : list PublisherId := merge_sort id_le (elements s).

Definition sec_of (sec : SecCtxDataReadGuard) (id : PublisherId) : option u128 :=
  match sec with
  | SecAnonymous => None
  | SecLocal d | SecKrb5 d | SecTls d => sec_secret d id
  end.

Context {SH : Sha3}.

(** The bytes hashed for a user's token in [record_publisher] *)
Definition user_token_data (secret : u128) (u : UserInfo) : list str :=
  [be_bytes 16 (uval secret); ui_name u; ui_primary_group u] ++ ui_groups u.

Definition signed_user (secret : u128) (u : UserInfo) : UserInfo :=
  MkUserInfo (ui_name u) (ui_primary_group u) (ui_groups u) (ui_resolver u)
    (make_sha3_token (user_token_data secret u)).

(** [record_publisher]; indexing an unknown publisher panics. [sec] carries the
    secrets and the requesting user's info. *)
Definition record_publisher (s : Store)
    (sec : option (SecCtxDataReadGuard * option UserInfo))
    (publishers : gmap PublisherId Publisher) (id : PublisherId)
  : res unit (gmap PublisherId Publisher) :=
  match publishers !! id with
  | Some _ => Ok publishers
  | None =>
      match publishers_by_id s !! id with
      | None => Panic
      | Some pb =>
          let pb :=
            match sec with
            | None => pb
            | Some (sec, uifo) =>
                match sec_of sec id, uifo with
                | Some secret, Some u =>
                    MkPublisher (pub_resolver pb) (pub_id pb) (pub_addr pb)
                      (pub_hash_method pb) (pub_target_auth pb)
                      (Some (signed_user secret u)) (pub_priority pb)
                | _, _ => pb
                end
            end in
          Ok (<[id := pb]> publishers)
      end
  end.
Fixpoint record_all (s : Store) (sec : option (SecCtxDataReadGuard * option UserInfo))
    (publishers : gmap PublisherId Publisher) (l : list PublisherId)
  : res unit (gmap PublisherId Publisher) :=
  match l with
  | [] => Ok publishers
  | id :: l => res_bind (record_publisher s sec publishers id) (fun p => record_all s sec p l)
  end.

Definition unsigned (id : PublisherId) : PublisherRef := MkPublisherRef id [].

(** [resolve_default] *)
Definition resolve_default (s : Store) (sec : option (SecCtxDataReadGuard * option UserInfo))
    (publishers : gmap PublisherId Publisher) (path : str)
  : res unit (gmap PublisherId Publisher * (u32 * list PublisherRef)) :=
  match last (bt_range Unbounded (Included path) (defaults_by_path s)) with
  | None => Ok (publishers, (UInt 0, []))
  | Some (p, ps) =>
      if is_parent p path then
        res_bind (record_all s sec publishers (id_iter ps)) (fun publishers =>
        Ok (publishers, (get_flags s p, unsigned <$> id_iter ps)))
      else Ok (publishers, (UInt 0, []))
  end.

(** The common part of [resolve] and [resolve_and_sign]: [sign] makes the
    reference of a publisher, [drain] orders the merged map. *)
Definition resolve_with (drain : gmap PublisherId PublisherRef → list PublisherRef)
    (sign : PublisherId → PublisherRef) (s : Store)
    (sec : option (SecCtxDataReadGuard * option UserInfo))
    (publishers : gmap PublisherId Publisher) (path : str)
  : res unit (gmap PublisherId Publisher * (u32 * list PublisherRef)) :=
  res_bind (resolve_default s sec publishers path) (fun '(publishers, (flags, pubs)) =>
  let pubs := (fun r => sign (pr_id r)) <$> pubs in
  match published_by_path s !! path with
  | None => Ok (publishers, (flags, pubs))
  | Some ps =>
      res_bind (record_all s sec publishers (id_iter ps)) (fun publishers =>
      if decide (pubs = []) then Ok (publishers, (get_flags s path, sign <$> id_iter ps))
      else
        let by_id := foldl (fun m r => <[pr_id r := r]> m) ∅ pubs in
        let by_id := foldl (fun m id => <[id := sign id]> m) by_id (id_iter ps) in
        Ok (publishers, (get_flags s path, drain by_id)))
  end).

(** [resolve] *)
Definition resolve (drain : gmap PublisherId PublisherRef → list PublisherRef) (s : Store)
    (publishers : gmap PublisherId Publisher) (path : str) :=
  resolve_with drain unsigned s None publishers path.

(** The bytes hashed for a subscription token *)
Definition sign_data (secret : u128) (now : u64) (perm : u32) (path : str) : list str :=
  [be_bytes 16 (uval secret); be_bytes 8 (uval now); be_bytes 4 (uval perm); path].
Definition sign (sec : SecCtxDataReadGuard) (now : u64) (perm : u32) (path : str)
    (id : PublisherId) : PublisherRef :=
  match sec_of sec id with
  | None => MkPublisherRef id []
  | Some secret => MkPublisherRef id (make_sha3_token (sign_data secret now perm path))
  end.

(** [resolve_and_sign] *)
Definition resolve_and_sign (drain : gmap PublisherId PublisherRef → list PublisherRef)
    (s : Store) (publishers : gmap PublisherId Publisher) (sec : SecCtxDataReadGuard)
    (uifo : option UserInfo) (now : u64) (perm : u32) (path : str) :=
  resolve_with drain (sign sec now perm path) s (Some (sec, uifo)) publishers path.

(** [list] *)
Definition list_paths (s : Store) (parent : str) : list str :=
  match published_by_level s !! (levels parent + 1) with
  | None => []
  | Some l =>
      take_while (is_parent parent)
        (bt_range (Excluded (with_trailing parent)) Unbounded l).*1
  end.

(** [get_change_nr], [columns] *)
Definition get_change_nr (s : Store) (path : str) : Z :=
  default 0 (level_map (published_by_level s) (levels path) !! path).
Definition columns_of (drain : gmap str Z → list (str * Z)) (s : Store) (root : str)
  : list (str * Z) :=
  match columns s !! root with
  | None => []
  | Some c => drain c
  end.

(** [list_matching]. The levels are scanned until one is missing; [fuel] is one
    more than the number of levels. *)
Context {GS : Globset}.

Definition matching_level (s : Store) (pat : GlobSet) (base : str) (l : gmap str Z)
  : list str :=
  filter (fun path =>
      gs_is_match pat path &&
      negb (bool_decide (is_Some (children s !! default ROOT (dirname path)))) &&
      (negb (published_only pat) || bool_decide (is_Some (published_by_path s !! path))) = true)
    (take_while (is_parent base)
       (bt_range (Excluded (with_trailing base)) Unbounded l).*1).
Fixpoint matching_levels (fuel : nat) (s : Store) (pat : GlobSet) (g : Glob) (n : Z)
  : list str :=
  match fuel with
  | O => []
  | S fuel =>
      if scope_contains (scope g) n then
        match published_by_level s !! n with
        | None => []
        | Some l => matching_level s pat (base g) l ++ matching_levels fuel s pat g (n + 1)
        end
      else []
  end.
Fixpoint matching_globs (s : Store) (pat : GlobSet) (cur : option str) (gs : list Glob)
  : list str :=
  match gs with
  | [] => []
  | g :: gs =>
      (if negb (match cur with Some p => is_parent p (base g) | None => false end)
       then matching_levels (S (size (published_by_level s))) s pat g (levels (base g) + 1)
       else []) ++
      matching_globs s pat (Some (base g)) gs
  end.
Definition list_matching (s : Store) (pat : GlobSet) : list str :=
  matching_globs s pat None (gs_raw pat).

(** The store's own check: [true] when [invariant] would not panic *)
Definition invariant_check (s : Store) : bool :=
  forallb (fun '(id, paths) =>
    forallb (fun path =>
      match published_by_path s !! path with
      | None => false
      | Some pubs => bool_decide (id ∈ pubs)
      end) (elements paths))
    (map_to_list (published_by_id s)).
End Ops.
