(* ===== verification/StoreFacts.v ===== *)
(** Correctness of the store: the invariant its operations keep, what publishing
    and unpublishing mean for the set of publications, and that resolving,
    listing and counting columns report it. *)
From Stdlib Require Import ZArith Lia.
From stdpp Require Import base gmap list strings sorting.
From Stdlib Require Import Strings.Byte.
From S2P Require Import Prelude Varint Pack Containers PackTypes Path PathFacts Order Glob Derive Proto Store.

(** Case analysis on a decision of the goal, whatever the hypotheses hold *)
Ltac goal_decide H :=
  lazymatch goal with |- context [decide ?P] => destruct (decide P) as [H|H] end.

(** ** The two indexes of a publication relation *)

(** Publishers by path and paths by publisher describe one relation, without
    empty sets. *)
Record index_ok (bp : gmap str ids) (bi : gmap PublisherId (gset str)) : Prop := {
  ix_rel p id : id ∈ ids_at bp p ↔ p ∈ paths_of bi id;
  ix_path p : bp !! p ≠ Some ∅;
  ix_id id : bi !! id ≠ Some ∅
}.

Lemma elem_ne `{Countable A} (x : A) (X : gset A) : x ∈ X → X ≠ ∅.
Proof. set_solver. Qed.

Lemma ids_at_insert bp p x q :
  ids_at (<[p := x]> bp) q = if decide (p = q) then x else ids_at bp q.
Proof.
  unfold ids_at. case_decide as H; [subst; by rewrite lookup_insert_eq|by rewrite lookup_insert_ne].
Qed.
Lemma paths_of_insert bi i x j :
  paths_of (<[i := x]> bi) j = if decide (i = j) then x else paths_of bi j.
Proof.
  unfold paths_of. case_decide as H; [subst; by rewrite lookup_insert_eq|by rewrite lookup_insert_ne].
Qed.
Lemma ids_at_delete bp p q :
  ids_at (delete p bp) q = if decide (p = q) then ∅ else ids_at bp q.
Proof.
  unfold ids_at. case_decide as H; [subst; by rewrite lookup_delete_eq|by rewrite lookup_delete_ne].
Qed.
Lemma paths_of_delete bi i j :
  paths_of (delete i bi) j = if decide (i = j) then ∅ else paths_of bi j.
Proof.
  unfold paths_of. case_decide as H; [subst; by rewrite lookup_delete_eq|by rewrite lookup_delete_ne].
Qed.
Lemma paths_of_forget bi i p j :
  paths_of (forget_path bi i p) j = if decide (i = j) then paths_of bi i ∖ {[p]} else paths_of bi j.
Proof.
  unfold forget_path. destruct (bi !! i) as [ps|] eqn:E.
  - assert (Hi : paths_of bi i = ps) by (unfold paths_of; by rewrite E).
    case_decide as Hn.
    + rewrite paths_of_delete. case_decide; [by rewrite Hi|done].
    + rewrite paths_of_insert. case_decide; [by rewrite Hi|done].
  - rewrite paths_of_delete. case_decide as H; [|done]. subst j.
    unfold paths_of. rewrite E. cbn. set_solver.
Qed.

Lemma index_add bp bi p id :
  index_ok bp bi →
  index_ok (<[p := {[id]} ∪ ids_at bp p]> bp) (<[id := {[p]} ∪ paths_of bi id]> bi).
Proof.
  intros [Hr Hp Hi]. split.
  - intros q j. rewrite ids_at_insert, paths_of_insert.
    repeat case_decide; subst; specialize (Hr q j); set_solver.
  - intros q. rewrite lookup_insert. case_decide; [|apply Hp]. intros [=]. set_solver.
  - intros j. rewrite lookup_insert. case_decide; [|apply Hi]. intros [=]. set_solver.
Qed.

(** The set at [p] without [id]; an emptied set is removed *)
Definition drop_id (bp : gmap str ids) (p : str) (id : PublisherId) : gmap str ids :=
  let new := ids_at bp p ∖ {[id]} in
  if decide (new = ∅) then delete p bp else <[p := new]> bp.

Lemma ids_at_drop bp p id q :
  ids_at (drop_id bp p id) q = if decide (p = q) then ids_at bp p ∖ {[id]} else ids_at bp q.
Proof.
  unfold drop_id. case_decide as Hn.
  - rewrite ids_at_delete. by case_decide.
  - rewrite ids_at_insert. by case_decide.
Qed.

Lemma index_remove bp bi p id :
  index_ok bp bi → index_ok (drop_id bp p id) (forget_path bi id p).
Proof.
  intros [Hr Hp Hi]. split.
  - intros q j. rewrite ids_at_drop, paths_of_forget.
    repeat case_decide; subst; specialize (Hr q j); set_solver.
  - intros q. unfold drop_id. case_decide as Hn.
    + rewrite lookup_delete. case_decide; [done|apply Hp].
    + rewrite lookup_insert. case_decide; [congruence|apply Hp].
  - intros j. unfold forget_path. destruct (bi !! id) as [ps|] eqn:E.
    + case_decide as Hn.
      * rewrite lookup_delete. case_decide; [done|apply Hi].
      * rewrite lookup_insert. case_decide; [congruence|apply Hi].
    + rewrite lookup_delete. case_decide; [done|apply Hi].
Qed.

Lemma index_lookup bp bi p : index_ok bp bi → is_Some (bp !! p) ↔ ids_at bp p ≠ ∅.
Proof.
  intros [_ Hp _]. unfold ids_at. specialize (Hp p). destruct (bp !! p); cbn; split.
  - congruence.
  - eauto.
  - by intros [? ?].
  - done.
Qed.
Lemma index_lookup_id bp bi i : index_ok bp bi → is_Some (bi !! i) ↔ paths_of bi i ≠ ∅.
Proof.
  intros [_ _ Hi]. unfold paths_of. specialize (Hi i). destruct (bi !! i); cbn; split.
  - congruence.
  - eauto.
  - by intros [? ?].
  - done.
Qed.

(** ** Levels *)

(** A canonical absolute path *)
Definition good (p : str) : Prop := ∃ ps, Forall comp_ok ps ∧ p = abs_path ps.

Definition lv {ES : Escaping} (l : gmap Z (gmap str Z)) (p : str) : option Z :=
  level_map l (levels p) !! p.

(** Every key is a good path stored at its own level. *)
Definition keys_ok {ES : Escaping} (l : gmap Z (gmap str Z)) : Prop :=
  ∀ n m p, l !! n = Some m → is_Some (m !! p) → levels p = n ∧ good p.

(** Everything but the root has its directory. *)
Definition closed {ES : Escaping} (l : gmap Z (gmap str Z)) : Prop :=
  ∀ ps x, Forall comp_ok (ps ++ [x]) → is_Some (lv l (abs_path (ps ++ [x]))) →
    is_Some (lv l (abs_path ps)).

Section Levels.
Context {ES : Escaping} {ESO : EscapingOk ES}.

Lemma good_root : good ROOT.
Proof. by exists []. Qed.

Lemma lv_insert l n m p q :
  levels p = n → lv (<[n := <[p := m]> (level_map l n)]> l) q = if decide (q = p) then Some m else lv l q.
Proof.
  intros Hn. unfold lv. unfold level_map at 1. rewrite lookup_insert.
  case_decide as He; cbn [default from_option id].
  - rewrite lookup_insert. case_decide as Hp; [by rewrite decide_True|].
    rewrite decide_False by done. by rewrite He.
  - rewrite decide_False; [done|]. intros ->. congruence.
Qed.

Lemma keys_lv l n m p : keys_ok l → l !! n = Some m → is_Some (m !! p) → is_Some (lv l p).
Proof.
  intros Hk Hn Hp. destruct (Hk n m p Hn Hp) as [<- _]. unfold lv, level_map. by rewrite Hn.
Qed.

Lemma lv_good l p : keys_ok l → is_Some (lv l p) → good p.
Proof.
  intros Hk. unfold lv, level_map. destruct (l !! levels p) as [m|] eqn:E; cbn.
  - intros Hp. by destruct (Hk _ _ _ E Hp).
  - rewrite lookup_empty. by intros [? ?].
Qed.

Lemma keys_insert l n m p :
  keys_ok l → good p → levels p = n → keys_ok (<[n := <[p := m]> (level_map l n)]> l).
Proof.
  intros Hk Hg Hn n' m' q. rewrite lookup_insert. case_decide as He; [|by apply Hk].
  intros [= <-]. rewrite lookup_insert. case_decide as Hp; [by subst|].
  unfold level_map. destruct (l !! n) as [m0|] eqn:E; cbn.
  - subst n'. by apply Hk.
  - rewrite lookup_empty. by intros [? ?].
Qed.

Lemma good_levels p : good p → path_from p = p.
Proof. intros (ps & Hp & ->). by apply path_from_abs_path. Qed.

Lemma lv_add_level l p q :
  good p →
  lv (add_level l p) q =
    if decide (q = p) then Some (match lv l p with Some c => incr c | None => 1 end) else lv l q.
Proof.
  intros Hg. unfold add_level. rewrite (good_levels p Hg).
  change (level_map l (levels p) !! p) with (lv l p).
  destruct (lv l p) as [c|]; by rewrite lv_insert.
Qed.
Lemma keys_add_level l p : keys_ok l → good p → keys_ok (add_level l p).
Proof.
  intros Hk Hg. unfold add_level. rewrite (good_levels p Hg).
  destruct (level_map l (levels p) !! p); by apply keys_insert.
Qed.

Definition bump (o : option Z) : Z := match o with Some c => incr c | None => 1 end.

Lemma ancestors_elem ps q : q ∈ ancestors ps ↔ ∃ n, (n ≤ length ps)%nat ∧ q = abs_path (take n ps).
Proof.
  unfold ancestors. rewrite list_elem_of_fmap. split.
  - intros (n & -> & Hn%elem_of_seq). exists n. split; [lia|done].
  - intros (n & Hn & ->). exists n. split; [done|]. apply elem_of_seq. lia.
Qed.

Lemma ancestors_good ps q : Forall comp_ok ps → q ∈ ancestors ps → good q.
Proof.
  intros Hp (n & _ & ->)%ancestors_elem. exists (take n ps). split; [by apply Forall_take|done].
Qed.

Lemma ancestors_fresh ps x :
  Forall comp_ok (ps ++ [x]) → abs_path (ps ++ [x]) ∉ ancestors ps.
Proof.
  intros Hp (n & Hn & He)%ancestors_elem. pose proof (proj1 (proj1 (Forall_app _ _ _) Hp)) as Hps.
  apply abs_path_inj in He; [|done|by apply Forall_take].
  apply (f_equal length) in He. rewrite length_app, length_take in He. cbn in He. lia.
Qed.

Lemma comp_fuel ps : Forall comp_ok ps → (length ps ≤ length (abs_path ps))%nat.
Proof. intros Hp. cbn. pose proof (join_length _ (comp_ok_ne _ Hp)). lia. Qed.

Lemma add_parents_loop_lv fuel l ps q :
  Forall comp_ok ps → (length ps < fuel)%nat →
  lv (add_parents_loop fuel l (abs_path ps)) q =
    if decide (q ∈ ancestors (removelast ps)) then Some (bump (lv l q)) else lv l q.
Proof.
  revert l ps; induction fuel as [|fuel IH]; intros l ps Hp Hf; [lia|].
  cbn [add_parents_loop]. destruct ps as [|x ps _] using rev_ind.
  - rewrite (dirname_root : dirname (abs_path []) = None). cbn [default from_option].
    rewrite decide_True by done. rewrite lv_add_level by apply good_root.
    change (ancestors (removelast [])) with [ROOT].
    destruct (decide (q = ROOT)) as [->|Hq]; [by rewrite decide_True by set_solver|].
    by rewrite decide_False by set_solver.
  - apply Forall_app in Hp as [Hps Hx]. pose proof Hx as Hx'. apply Forall_cons in Hx' as [Hx' _].
    rewrite dirname_snoc by done. rewrite removelast_last.
    destruct (decide (ps = [])) as [->|Hne]; cbn [default from_option].
    { rewrite decide_True by done. rewrite lv_add_level by apply good_root.
      change (ancestors []) with [ROOT].
      destruct (decide (q = ROOT)) as [->|Hq]; [by rewrite decide_True by set_solver|].
      by rewrite decide_False by set_solver. }
    unfold id. rewrite decide_False by (by rewrite abs_path_root).
    rewrite length_app in Hf. cbn in Hf.
    rewrite IH by (done || lia). rewrite lv_add_level by (by exists ps).
    destruct ps as [|y ps _] using rev_ind; [done|]. rewrite removelast_last, ancestors_snoc.
    pose proof (ancestors_fresh ps y Hps) as Hfr.
    destruct (decide (q = abs_path (ps ++ [y]))) as [->|Hq].
    + rewrite decide_False by done. rewrite decide_True; [done|].
      apply elem_of_app. right. by constructor.
    + destruct (decide (q ∈ ancestors ps)) as [Hin|Hin].
      * rewrite decide_True; [done|]. apply elem_of_app. by left.
      * rewrite decide_False; [done|]. rewrite elem_of_app, list_elem_of_singleton. tauto.
Qed.

Lemma add_parents_loop_keys fuel l ps :
  Forall comp_ok ps → keys_ok l → keys_ok (add_parents_loop fuel l (abs_path ps)).
Proof.
  revert l ps; induction fuel as [|fuel IH]; intros l ps Hp Hk; [done|].
  cbn [add_parents_loop]. destruct ps as [|x ps _] using rev_ind.
  - rewrite (dirname_root : dirname (abs_path []) = None). cbn [default from_option].
    rewrite decide_True by done. apply keys_add_level; [done|apply good_root].
  - apply Forall_app in Hp as [Hps Hx]. apply Forall_cons in Hx as [Hx _].
    rewrite dirname_snoc by done.
    destruct (decide (ps = [])) as [->|Hne]; cbn [default from_option].
    { rewrite decide_True by done. apply keys_add_level; [done|apply good_root]. }
    unfold id. rewrite decide_False by (by rewrite abs_path_root).
    apply IH; [done|]. apply keys_add_level; [done|by exists ps].
Qed.

(** ** Scanning a level below a directory *)

Lemma parent_trailing p q : with_trailing p `prefix_of` q → is_parent p q = true.
Proof.
  intros [t ->]. unfold is_parent, starts_with, with_trailing. rewrite <- app_assoc.
  apply orb_true_iff. right. apply andb_true_iff. rewrite bool_decide_eq_true.
  split; [by eexists|]. apply orb_true_iff. right. apply bool_decide_eq_true.
  cbn [app]. by rewrite list_lookup_middle.
Qed.

Lemma trailing_child ps x :
  ps ≠ [] → abs_path (ps ++ [x]) = with_trailing (abs_path ps) ++ x.
Proof.
  intros Hne. rewrite abs_path_snoc, decide_False by done. unfold with_trailing.
  by rewrite <- app_assoc.
Qed.

(** The scan stops at the first path outside the directory; nothing inside it
    comes later. *)
Lemma scan_filter (m : gmap str Z) p :
  good p →
  take_while (is_parent p) (bt_range (Excluded (with_trailing p)) Unbounded m).*1 =
  filter (fun q => is_parent p q = true) (bt_range (Excluded (with_trailing p)) Unbounded m).*1.
Proof.
  intros Hp. apply (take_while_filter str_le).
  - pose proof (bt_range_sorted (Excluded (with_trailing p)) Unbounded m) as Hs.
    induction Hs as [|x l Hs IH Hx]; [constructor|]. cbn. constructor; [done|].
    apply Forall_fmap. eapply Forall_impl; [exact Hx|]. done.
  - intros x y Hx Hy Hle Hpy.
    apply list_elem_of_fmap in Hx as ([x' vx] & -> & Hx). apply elem_of_bt_range in Hx as (Hx & _).
    cbn in *. apply bool_decide_eq_true in Hx.
    destruct (decide (p = ROOT)) as [->|Hr]; [done|].
    assert (Hpre : with_trailing p `prefix_of` y ∨ y = p).
    { unfold is_parent, starts_with in Hpy. rewrite bool_decide_false in Hpy by done.
      cbn [orb] in Hpy. apply andb_true_iff in Hpy as [[t ->]%bool_decide_eq_true Hpy].
      unfold with_trailing. destruct t as [|c t]; [right; by rewrite app_nil_r|]. left.
      apply orb_true_iff in Hpy as [Hz|Hc].
      - apply Z.eqb_eq in Hz. rewrite zlen_app, zlen_cons in Hz. pose proof (zlen_nonneg t). lia.
      - apply bool_decide_eq_true in Hc. rewrite list_lookup_middle in Hc by done.
        injection Hc as ->. exists t. by rewrite <- app_assoc. }
    destruct Hpre as [[t ->]| ->].
    + apply parent_trailing. destruct (proj1 (str_le_alt _ _) Hle) as [Hlt| ->].
      * eapply prefix_interval; [by apply str_lt_le|done].
      * by eexists.
    + destruct (str_lt_irrefl p). eapply str_lt_le_trans; [|exact Hle].
      eapply str_lt_trans; [|exact Hx]. by apply str_lt_app.
Qed.

Lemma levels_abs ps : Forall comp_ok ps → levels (abs_path ps) = zlen ps.
Proof. apply levels_spec. Qed.

(** A child of the root sorts after "//" when its name does after "/". *)
Definition scannable (ps : list str) (x : str) : Prop :=
  ps ≠ [] ∨ ∃ c t, x = c :: t ∧ bZ SEP < bZ c.

(** Below [ps] by any number of components *)
Lemma trailing_lt_deep ps x rs :
  Forall comp_ok ps → comp_ok x →
  str_lt (with_trailing (abs_path ps)) (abs_path (ps ++ x :: rs)) ↔ scannable ps x.
Proof.
  intros Hps Hx. destruct (decide (ps = [])) as [->|Hp].
  - destruct Hx as (Hne & Hsep & _). unfold scannable.
    change (abs_path ([] ++ x :: rs)) with ([SEP] ++ join (x :: rs)).
    change (with_trailing (abs_path [])) with ([SEP] ++ [SEP]).
    unfold str_lt. rewrite str_cmp_app, join_tail.
    destruct x as [|c t]; [done|]. cbn [str_cmp app].
    assert (Hc : c ≠ SEP) by (intros ->; by specialize (Hsep O eq_refl)).
    split.
    + destruct (Z.compare_spec (bZ SEP) (bZ c)) as [He|Hl|Hg]; [|eauto|done].
      by apply bZ_inj in He.
    + intros [?|(c' & t' & [= <- <-] & Hl)]; [done|].
      by destruct (Z.compare_spec (bZ SEP) (bZ c)); [lia| |lia].
  - split; [by left|]. intros _. rewrite abs_path_app, !decide_False by done.
    replace (abs_path ps ++ SEP :: join (x :: rs)) with (with_trailing (abs_path ps) ++ join (x :: rs))
      by (unfold with_trailing; by rewrite <- app_assoc).
    apply str_lt_app. rewrite join_tail. destruct Hx as (Hne & _). by destruct x.
Qed.

Lemma trailing_lt ps x :
  Forall comp_ok ps → comp_ok x →
  str_lt (with_trailing (abs_path ps)) (abs_path (ps ++ [x])) ↔ scannable ps x.
Proof. apply trailing_lt_deep. Qed.

(** What the scan of level [n + 1] finds: the children of the directory in that
    level, in order. *)
Lemma scan_spec l m ps q :
  keys_ok l → Forall comp_ok ps → l !! (levels (abs_path ps) + 1) = Some m →
  q ∈ take_while (is_parent (abs_path ps))
        (bt_range (Excluded (with_trailing (abs_path ps))) Unbounded m).*1 ↔
  ∃ x, q = abs_path (ps ++ [x]) ∧ comp_ok x ∧ scannable ps x ∧ is_Some (m !! q).
Proof.
  intros Hk Hps Hm. rewrite scan_filter by (by exists ps).
  rewrite list_elem_of_filter, list_elem_of_fmap. split.
  - intros (Hpar & [q' v] & -> & Hin). apply elem_of_bt_range in Hin as (Ha & _ & Hq). cbn in *.
    apply bool_decide_eq_true in Ha.
    destruct (Hk _ _ q' Hm (mk_is_Some _ _ Hq)) as [Hl (qs & Hqs & ->)].
    rewrite !levels_abs in Hl by done. rewrite is_parent_spec in Hpar by done.
    apply bool_decide_eq_true in Hpar as [rs ->].
    rewrite zlen_app in Hl. destruct rs as [|x [|]]; unfold zlen in Hl; cbn in Hl; try lia.
    apply Forall_app in Hqs as [_ Hx]. apply Forall_cons in Hx as [Hx _].
    exists x. split; [done|]. split; [done|]. split; [by apply trailing_lt|eauto].
  - intros (x & -> & Hx & Hsc & [v Hv]). split.
    + rewrite is_parent_spec; [|done|apply Forall_app; auto].
      apply bool_decide_eq_true. by eexists.
    + exists (abs_path (ps ++ [x]), v). split; [done|]. apply elem_of_bt_range.
      split; [|done]. cbn. apply bool_decide_eq_true. by apply trailing_lt.
Qed.

(** ** Pruning *)

Lemma has_child_spec l ps :
  keys_ok l → Forall comp_ok ps → ps ≠ [] →
  has_child_level l (abs_path ps) = true ↔
  ∃ x, comp_ok x ∧ is_Some (lv l (abs_path (ps ++ [x]))).
Proof.
  intros Hk Hps Hne. unfold has_child_level.
  assert (Hlv : ∀ x, comp_ok x → levels (abs_path (ps ++ [x])) = levels (abs_path ps) + 1).
  { intros x Hx. rewrite !levels_abs by (try done; apply Forall_app; auto).
    rewrite zlen_app. done. }
  destruct (l !! (levels (abs_path ps) + 1)) as [m|] eqn:E.
  - assert (Hh : match bt_range (Excluded (with_trailing (abs_path ps))) Unbounded m with
      | [] => false | (o, _) :: _ => is_parent (abs_path ps) o end = true ↔
      ∃ q, q ∈ take_while (is_parent (abs_path ps))
        (bt_range (Excluded (with_trailing (abs_path ps))) Unbounded m).*1).
    { destruct (bt_range _ _ m) as [|[o v] r]; cbn [fmap list_fmap take_while fst].
      - split; [done|]. by intros [q Hq%elem_of_nil].
      - destruct (is_parent (abs_path ps) o); [split; [|done]|].
        + intros _. exists o. by constructor.
        + split; [done|]. by intros [q Hq%elem_of_nil]. }
    rewrite Hh. split.
    + intros [q Hq]. apply (scan_spec l) in Hq as (x & -> & Hx & _ & Hm); [|done..].
      exists x. split; [done|]. by eapply keys_lv.
    + intros (x & Hx & Hlx). exists (abs_path (ps ++ [x])). apply (scan_spec l); [done..|].
      exists x. split; [done|]. split; [done|]. split; [by left|].
      unfold lv, level_map in Hlx. by rewrite Hlv, E in Hlx by done.
  - split; [done|]. intros (x & Hx & Hlx). unfold lv, level_map in Hlx.
    rewrite Hlv, E in Hlx by done. cbn in Hlx. rewrite lookup_empty in Hlx. by destruct Hlx.
Qed.

Lemma lv_save l p q :
  lv (save_level l p) q = if decide (q = p) then incr <$> lv l p else lv l q.
Proof.
  unfold save_level. change (level_map l (levels p) !! p) with (lv l p).
  destruct (lv l p) as [c|] eqn:E; [by rewrite lv_insert|].
  assert (Hs : lv (<[levels p := level_map l (levels p)]> l) q = lv l q).
  { unfold lv. unfold level_map at 1. rewrite lookup_insert.
    case_decide as H; [cbn; by rewrite H|done]. }
  rewrite Hs. case_decide; [by subst|done].
Qed.

Lemma lv_drop l p q : lv (drop_level l p) q = if decide (q = p) then None else lv l q.
Proof.
  unfold drop_level, lv. destruct (l !! levels p) as [m|] eqn:E.
  - assert (Hm : level_map l (levels p) = m) by (unfold level_map; by rewrite E).
    assert (Hd : ∀ l', (∀ n, level_map l' n = if decide (n = levels p) then delete p m
        else level_map l n) →
      level_map l' (levels q) !! q = if decide (q = p) then None else level_map l (levels q) !! q).
    { intros l' Hl'. rewrite Hl'. destruct (decide (q = p)) as [->|Hq].
      - rewrite decide_True by done. apply lookup_delete_eq.
      - case_decide as Hn; [|done]. rewrite lookup_delete_ne by done. by rewrite Hn, Hm. }
    destruct (decide (delete p m = ∅)) as [He|He]; apply Hd; intros n; unfold level_map.
    + rewrite lookup_delete. destruct (decide (n = levels p)) as [->|Hn].
      * rewrite decide_True by done. by rewrite He.
      * by rewrite decide_False by done.
    + rewrite lookup_insert. destruct (decide (n = levels p)) as [->|Hn].
      * by rewrite decide_True by done.
      * by rewrite decide_False by done.
  - case_decide as H; [subst|done]. unfold level_map. rewrite E. apply lookup_empty.
Qed.

Lemma keys_save l p : keys_ok l → keys_ok (save_level l p).
Proof.
  intros Hk. unfold save_level.
  assert (Hm : ∀ q, is_Some (level_map l (levels p) !! q) → levels q = levels p ∧ good q).
  { intros q. unfold level_map. destruct (l !! levels p) as [m|] eqn:E; [by apply Hk|].
    cbn. rewrite lookup_empty. by intros [? ?]. }
  intros n m q. rewrite lookup_insert. case_decide as Hn; [|by apply Hk].
  intros [= <-]. subst n. destruct (level_map l (levels p) !! p) eqn:E; [|by apply Hm].
  rewrite lookup_insert. case_decide as Hq; [|by apply Hm]. subst q. intros _.
  apply Hm. by rewrite E.
Qed.

Lemma keys_drop l p : keys_ok l → keys_ok (drop_level l p).
Proof.
  intros Hk. unfold drop_level. destruct (l !! levels p) as [m|] eqn:E; [|done].
  case_decide as He; intros n m' q.
  - rewrite lookup_delete. case_decide; [done|apply Hk].
  - rewrite lookup_insert. case_decide as Hn; [|apply Hk]. intros [= <-]. subst n.
    rewrite lookup_delete. case_decide; [by intros [? ?]|]. by apply Hk.
Qed.

(** The paths that pruning must keep *)
Definition anchored (s : Store) (q : str) : Prop :=
  q = ROOT ∨ is_Some (published_by_path s !! q) ∨ is_Some (defaults_by_path s !! q) ∨
  is_Some (children s !! q).

Lemma keep_anchored s l q : anchored s q → keep_level s l q = true.
Proof.
  unfold keep_level. intros [H|[H|[H|H]]]; rewrite (bool_decide_true _ H); by rewrite ?orb_true_r.
Qed.

Lemma closed_same l l' :
  (∀ q, is_Some (lv l' q) ↔ is_Some (lv l q)) → closed l → closed l'.
Proof. intros Hs Hc ps x Hx. rewrite !Hs. by apply Hc. Qed.

Lemma closed_drop l ps :
  keys_ok l → Forall comp_ok ps → ps ≠ [] → has_child_level l (abs_path ps) = false →
  closed l → closed (drop_level l (abs_path ps)).
Proof.
  intros Hk Hps Hne Hch Hc rs x Hx. rewrite !lv_drop. case_decide as H1; [by intros [? ?]|].
  intros Hs. case_decide as H2; [|by apply (Hc rs x)]. exfalso.
  apply Forall_app in Hx as [Hrs Hx]. apply abs_path_inj in H2 as ->; [|done..].
  apply Forall_cons in Hx as [Hx _].
  assert (has_child_level l (abs_path ps) = true) by (apply has_child_spec; eauto). congruence.
Qed.

(** One round: either everything present stays, or an unneeded path goes. *)
Definition round (s : Store) (save : bool) (l : gmap Z (gmap str Z)) (p : str)
  : gmap Z (gmap str Z) :=
  if save || keep_level s l p then save_level l p else drop_level l p.

Lemma lv_save_some l p q : is_Some (lv (save_level l p) q) ↔ is_Some (lv l q).
Proof. rewrite lv_save. case_decide; [subst; apply fmap_is_Some|done]. Qed.

Lemma round_spec s save l ps :
  keys_ok l → Forall comp_ok ps →
  let p := abs_path ps in
  let l' := round s save l p in
  keys_ok l' ∧ (∀ q, q ≠ p → lv l' q = lv l q) ∧
  (∀ q, is_Some (lv l' q) → is_Some (lv l q)) ∧
  (∀ q, anchored s q ∨ save = true → is_Some (lv l q) → is_Some (lv l' q)) ∧
  (closed l → closed l').
Proof.
  intros Hk Hps p l'. unfold l', round. destruct (save || keep_level s l p) eqn:E.
  - split; [by apply keys_save|].
    split; [intros q Hq; rewrite lv_save; by rewrite decide_False|].
    split; [by intros q; rewrite lv_save_some|].
    split; [by intros q _; rewrite lv_save_some|].
    apply closed_same. intros q. apply lv_save_some.
  - apply orb_false_iff in E as [-> Hkeep].
    assert (Hna : ¬ anchored s p) by (intros Ha%(keep_anchored s l); congruence).
    split; [by apply keys_drop|].
    split; [intros q Hq; rewrite lv_drop; by rewrite decide_False|].
    split; [intros q; rewrite lv_drop; case_decide; [by intros [? ?]|done]|].
    split.
    + intros q [Ha|?]; [|done]. rewrite lv_drop. by rewrite decide_False by (by intros ->).
    + apply closed_drop; try done.
      * intros ->. apply Hna. by left.
      * unfold keep_level in Hkeep. rewrite !orb_false_iff in Hkeep. tauto.
Qed.

Lemma remove_loop_spec s fuel save l ps :
  keys_ok l → Forall comp_ok ps → (length ps < fuel)%nat →
  let l' := remove_parents_loop fuel s save l (abs_path ps) in
  keys_ok l' ∧ (∀ q, q ∉ ancestors ps → lv l' q = lv l q) ∧
  (∀ q, is_Some (lv l' q) → is_Some (lv l q)) ∧
  (∀ q, anchored s q ∨ save = true → is_Some (lv l q) → is_Some (lv l' q)) ∧
  (closed l → closed l').
Proof.
  revert save l ps; induction fuel as [|fuel IH]; intros save l ps Hk Hps Hf; [lia|].
  cbn [remove_parents_loop].
  change (if save || keep_level s l (abs_path ps) then save_level l (abs_path ps)
    else drop_level l (abs_path ps)) with (round s save l (abs_path ps)).
  destruct (round_spec s save l ps Hk Hps) as (Hk1 & Ho & Hb & Ha & Hc).
  set (l1 := round s save l (abs_path ps)) in *.
  destruct ps as [|x ps _] using rev_ind.
  { rewrite decide_True by done. split; [done|]. split; [|done].
    intros q Hq. apply Ho. intros ->. apply Hq. apply ancestors_elem. by exists O. }
  rewrite decide_False by (rewrite abs_path_root by done; by destruct ps).
  pose proof Hps as Hps'. apply Forall_app in Hps' as [Hps' Hx].
  apply Forall_cons in Hx as [Hx _]. rewrite length_app in Hf. cbn in Hf.
  assert (Hdn : default ROOT (dirname (abs_path (ps ++ [x]))) = abs_path ps).
  { rewrite dirname_snoc by done. by destruct (decide (ps = [])) as [->|]. }
  rewrite Hdn. rewrite ancestors_snoc.
  destruct (IH (save || keep_level s l (abs_path (ps ++ [x]))) l1 ps Hk1 Hps' ltac:(lia))
    as (Hk2 & Ho2 & Hb2 & Ha2 & Hc2).
  split; [done|]. split; [|split; [|split]].
  - intros q. rewrite elem_of_app, list_elem_of_singleton. intros Hq.
    rewrite Ho2 by tauto. apply Ho. tauto.
  - intros q Hq. auto.
  - intros q Hq Hlq. apply Ha2; [|by apply Ha]. destruct Hq as [?| ->]; [by left|by right].
  - auto.
Qed.

(** [touch_level] *)
Lemma lv_touch s p q :
  lv (published_by_level (touch_level s p)) q =
    if decide (q = p) then Some (incr (default 0 (lv (published_by_level s) p)))
    else lv (published_by_level s) q.
Proof. unfold touch_level. cbn. by rewrite lv_insert. Qed.
Lemma keys_touch s p :
  good p → keys_ok (published_by_level s) → keys_ok (published_by_level (touch_level s p)).
Proof. intros. unfold touch_level. cbn. by apply keys_insert. Qed.
End Levels.

(** ** What the operations do to each part of the state *)

(** Reads through the setters, and nothing else. *)
Ltac fields := cbn [publishers_by_id publishers_by_addr published_by_path flags_by_path
  published_by_id published_by_level columns defaults_by_path defaults_by_id parent children
  sets set_levels set_columns set_flags set_publishers set_published set_defaults
  add_parents remove_parents touch_level fst snd andb negb].

Section Fields.
Context {ES : Escaping} {ESO : EscapingOk ES} {LV : Live}.

Lemma hc_add_fst h (c : ids) v : (hc_add h c v).1 = {[v]} ∪ c.
Proof. unfold hc_add. by case_decide. Qed.
Lemma hc_remove_fst h (c : ids) v :
  (hc_remove h c v).1 = if decide (c ∖ {[v]} = ∅) then None else Some (c ∖ {[v]}).
Proof.
  unfold hc_remove. destruct (decide (size (c ∖ {[v]}) = 0%nat)) as [Hz|Hz].
  - rewrite decide_True; [done|]. apply size_empty_inv in Hz. by apply leibniz_equiv.
  - rewrite decide_False; [done|]. intros He. rewrite He, size_empty in Hz. done.
Qed.

Lemma size_grows (c : ids) v :
  bool_decide (size c < size ({[v]} ∪ c))%nat = bool_decide (v ∉ c).
Proof.
  apply bool_decide_ext. destruct (decide (v ∈ c)) as [Hv|Hv].
  - assert ({[v]} ∪ c = c) as -> by set_solver. split; [lia|done].
  - rewrite size_union by set_solver. rewrite size_singleton. split; [done|lia].
Qed.
Lemma size_shrinks (c : ids) v :
  bool_decide (size (c ∖ {[v]}) < size c)%nat = bool_decide (v ∈ c).
Proof.
  apply bool_decide_ext. destruct (decide (v ∈ c)) as [Hv|Hv].
  - assert (Hs : size c = (size ({[v]} : ids) + size (c ∖ {[v]}))%nat).
    { rewrite <- size_union by set_solver. f_equal. apply leibniz_equiv.
      intros x. destruct (decide (x = v)); set_solver. }
    rewrite size_singleton in Hs. split; [done|lia].
  - assert (c ∖ {[v]} = c) as -> by set_solver. split; [lia|done].
Qed.

Lemma add_column_frame s p : add_column s p = set_columns s (columns (add_column s p)).
Proof. unfold add_column. repeat case_match; by destruct s. Qed.
Lemma remove_column_frame s p : remove_column s p = set_columns s (columns (remove_column s p)).
Proof. unfold remove_column. repeat case_match; by destruct s. Qed.

(** Publishers are stored under their own id. *)
Definition self_ok (s : Store) : Prop :=
  ∀ id p, publishers_by_id s !! id = Some p → pub_id p = id.

Definition enters (s : Store) (path : str) (id : PublisherId) (d : bool) : bool :=
  bool_decide (id ∉ ids_at (if d then defaults_by_path s else published_by_path s) path).
Definition leaves (s : Store) (path : str) (id : PublisherId) (d : bool) : bool :=
  bool_decide (id ∈ ids_at (if d then defaults_by_path s else published_by_path s) path).

Lemma publish_fields s path pub (d : bool) fl :
  self_ok s →
  let id := pub_id pub in
  let up := enters s path id d in
  let s' := publish s path pub d fl in
  publishers_by_id s' = (match publishers_by_id s !! id with
     | Some _ => publishers_by_id s | None => <[id := pub]> (publishers_by_id s) end) ∧
  publishers_by_addr s' = (match publishers_by_id s !! id with
     | Some _ => publishers_by_addr s
     | None => <[pub_addr pub := id]> (publishers_by_addr s) end) ∧
  published_by_path s' = (if d then published_by_path s else
     <[path := {[id]} ∪ ids_at (published_by_path s) path]> (published_by_path s)) ∧
  published_by_id s' = (if d then published_by_id s else
     <[id := {[path]} ∪ paths_of (published_by_id s) id]> (published_by_id s)) ∧
  defaults_by_path s' = (if d then
     <[path := {[id]} ∪ ids_at (defaults_by_path s) path]> (defaults_by_path s)
     else defaults_by_path s) ∧
  defaults_by_id s' = (if d then
     <[id := {[path]} ∪ paths_of (defaults_by_id s) id]> (defaults_by_id s)
     else defaults_by_id s) ∧
  flags_by_path s' = (match fl with Some f => <[path := f]> (flags_by_path s)
                      | None => flags_by_path s end) ∧
  published_by_level s' =
    (if up then published_by_level (touch_level (add_parents s path) path)
     else published_by_level s) ∧
  columns s' = (if negb d && up then columns (add_column s path) else columns s) ∧
  parent s' = parent s ∧ children s' = children s.
Proof.
  intros Hself. cbv zeta. unfold publish.
  assert (Hc : ∀ t, columns t = columns s →
    columns (add_column t path) = columns (add_column s path)).
  { intros t Ht. unfold add_column. rewrite Ht. by repeat case_match. }
  unfold enters. cbv zeta.
  destruct (publishers_by_id s !! pub_id pub) as [p|] eqn:Ek; [rewrite (Hself _ p Ek)|];
    destruct d; cbv beta iota.
  1, 3: fields; destruct (hc_add (sets s) (ids_at (defaults_by_path s) path) (pub_id pub)) as [n h] eqn:Eh;
    pose proof (hc_add_fst (sets s) (ids_at (defaults_by_path s) path) (pub_id pub)) as Hn;
    rewrite Eh in Hn; cbn [fst] in Hn; subst n; cbv beta iota zeta; rewrite size_grows;
    destruct fl; case_bool_decide; fields; done.
  1, 2: fields; destruct (hc_add (sets s) (ids_at (published_by_path s) path) (pub_id pub)) as [n h] eqn:Eh;
    pose proof (hc_add_fst (sets s) (ids_at (published_by_path s) path) (pub_id pub)) as Hn;
    rewrite Eh in Hn; cbn [fst] in Hn; subst n; cbv beta iota zeta; rewrite size_grows;
    try (rewrite (add_column_frame (set_published _ _ _ _) path), Hc by done);
    destruct fl; case_bool_decide; fields; done.
Qed.

(** The levels after [unpublish] took effect on the relation, giving [s1] *)
Definition unpublish_levels (s1 : Store) (path : str) : gmap Z (gmap str Z) :=
  let l := published_by_level (touch_level (remove_parents s1 path) path) in
  if decide (published_by_path s1 !! path = None ∧ defaults_by_path s1 !! path = None)
  then match l !! levels path with
       | Some m => <[levels path := delete path m]> l
       | None => l
       end
  else l.

Lemma cleanup_fields s pub path :
  let s' := unpublish_cleanup s pub path in
  let id := pub_id pub in
  published_by_path s' = published_by_path s ∧ published_by_id s' = published_by_id s ∧
  defaults_by_path s' = defaults_by_path s ∧ defaults_by_id s' = defaults_by_id s ∧
  columns s' = columns s ∧ parent s' = parent s ∧ children s' = children s ∧
  flags_by_path s' =
    (if decide (published_by_path s !! path = None ∧ defaults_by_path s !! path = None)
     then delete path (flags_by_path s) else flags_by_path s) ∧
  published_by_level s' = unpublish_levels s path ∧
  publishers_by_id s' =
    (if decide (defaults_by_id s !! id = None ∧ published_by_id s !! id = None)
     then delete id (publishers_by_id s) else publishers_by_id s) ∧
  publishers_by_addr s' =
    (if decide (defaults_by_id s !! id = None ∧ published_by_id s !! id = None)
     then delete (pub_addr pub) (publishers_by_addr s) else publishers_by_addr s).
Proof.
  cbv zeta. unfold unpublish_cleanup, unpublish_levels. cbv zeta.
  assert (∃ L, touch_level (remove_parents s path) path = set_levels s L) as [L ->]
    by (by eexists).
  fields.
  destruct (decide (published_by_path s !! path = None ∧ defaults_by_path s !! path = None));
    [destruct (L !! levels path)|]; fields;
    destruct (decide (defaults_by_id s !! pub_id pub = None ∧
      published_by_id s !! pub_id pub = None)); fields; split_and!; done.
Qed.

(** The relation after [unpublish], before the levels and the publisher itself
    are cleaned up *)
Definition unpublish_rel (s : Store) (id : PublisherId) (d : bool) (path : str)
    (h : HCSet) : Store :=
  if d then set_defaults s (drop_id (defaults_by_path s) path id)
         (forget_path (defaults_by_id s) id path) h
  else
    let s' := set_published s (drop_id (published_by_path s) path id)
      (forget_path (published_by_id s) id path) h in
    if leaves s path id false then set_columns s' (columns (remove_column s path)) else s'.

Lemma drop_id_none bp p id : bp !! p = None → drop_id bp p id = bp.
Proof.
  intros Hp. unfold drop_id, ids_at. rewrite Hp. cbn. rewrite decide_True by set_solver.
  by apply delete_id.
Qed.

Lemma unpublish_eq s pub (d : bool) path :
  index_ok (published_by_path s) (published_by_id s) →
  index_ok (defaults_by_path s) (defaults_by_id s) →
  ∃ h, unpublish s pub d path =
    let s1 := unpublish_rel s (pub_id pub) d path h in
    if leaves s path (pub_id pub) d then unpublish_cleanup s1 pub path else s1.
Proof.
  intros Hp Hd. unfold unpublish, unpublish_rel, leaves.
  assert (Hc : ∀ t, columns t = columns s →
    columns (remove_column t path) = columns (remove_column s path)).
  { intros t Ht. unfold remove_column. rewrite Ht. by repeat case_match. }
  destruct d; fields.
  - destruct (defaults_by_path s !! path) as [pubs|] eqn:E.
    + pose proof (hc_remove_fst (sets s) pubs (pub_id pub)) as Hr.
      assert (Hat : ids_at (defaults_by_path s) path = pubs) by (unfold ids_at; by rewrite E).
      unfold drop_id. rewrite Hat. pose proof (ix_path _ _ Hd path) as Hne. rewrite E in Hne.
      destruct (hc_remove (sets s) pubs (pub_id pub)) as [[n|] h]; cbn [fst] in Hr;
        destruct (decide (pubs ∖ {[pub_id pub]} = ∅)) as [He|He]; try done.
      * injection Hr as ->. rewrite size_shrinks. exists h. by case_bool_decide.
      * exists h. rewrite bool_decide_true; [done|].
        destruct (set_choose_or_empty pubs) as [[x Hx]|Hx]; [set_solver|].
        apply leibniz_equiv in Hx. congruence.
    + exists (sets s). unfold ids_at. rewrite E. cbn [default from_option].
      rewrite bool_decide_false by set_solver. by rewrite drop_id_none.
  - destruct (published_by_path s !! path) as [pubs|] eqn:E.
    + pose proof (hc_remove_fst (sets s) pubs (pub_id pub)) as Hr.
      assert (Hat : ids_at (published_by_path s) path = pubs) by (unfold ids_at; by rewrite E).
      unfold drop_id. rewrite Hat. pose proof (ix_path _ _ Hp path) as Hne. rewrite E in Hne.
      destruct (hc_remove (sets s) pubs (pub_id pub)) as [[n|] h]; cbn [fst] in Hr;
        destruct (decide (pubs ∖ {[pub_id pub]} = ∅)) as [He|He]; try done.
      * injection Hr as ->. rewrite size_shrinks. exists h. case_bool_decide; [|done].
        by rewrite (remove_column_frame (set_published _ _ _ _) path), Hc.
      * exists h. rewrite bool_decide_true;
          [by rewrite (remove_column_frame (set_published _ _ _ _) path), Hc|].
        destruct (set_choose_or_empty pubs) as [[x Hx]|Hx]; [set_solver|].
        apply leibniz_equiv in Hx. congruence.
    + exists (sets s). unfold ids_at. rewrite E. cbn [default from_option].
      rewrite bool_decide_false by set_solver. by rewrite drop_id_none.
Qed.
End Fields.

(** ** The invariant *)

Section Invariant.
Context {ES : Escaping} {ESO : EscapingOk ES} {LV : Live}.

Record store_ok (s : Store) : Prop := {
  so_pub : index_ok (published_by_path s) (published_by_id s);
  so_def : index_ok (defaults_by_path s) (defaults_by_id s);
  so_self : self_ok s;
  so_known id : is_Some (publishers_by_id s !! id) ↔
    is_Some (published_by_id s !! id) ∨ is_Some (defaults_by_id s !! id);
  so_addr a id : publishers_by_addr s !! a = Some id →
    ∃ p, publishers_by_id s !! id = Some p ∧ pub_addr p = a;
  so_flags p : is_Some (flags_by_path s !! p) →
    is_Some (published_by_path s !! p) ∨ is_Some (defaults_by_path s !! p);
  so_keys : keys_ok (published_by_level s);
  so_good p : anchored s p → good p;
  so_listed p : anchored s p → p ≠ ROOT → is_Some (lv (published_by_level s) p)
}.

(** A publisher keeps the address it first published with. *)
Definition consistent (s : Store) (pub : Publisher) : Prop :=
  ∀ p, publishers_by_id s !! pub_id pub = Some p → pub_addr p = pub_addr pub.

Lemma add_parents_lv s ps q :
  Forall comp_ok ps →
  lv (published_by_level (add_parents s (abs_path ps))) q =
    if decide (q ∈ ancestors (removelast ps))
    then Some (bump (lv (published_by_level s) q)) else lv (published_by_level s) q.
Proof.
  intros Hp. unfold add_parents. fields. apply add_parents_loop_lv; [done|].
  pose proof (comp_fuel ps Hp). lia.
Qed.

Lemma publish_lv s pub (d : bool) fl ps q :
  self_ok s → Forall comp_ok ps → enters s (abs_path ps) (pub_id pub) d = true →
  is_Some (lv (published_by_level (publish s (abs_path ps) pub d fl)) q) ↔
    q ∈ ancestors ps ∨ is_Some (lv (published_by_level s) q).
Proof.
  intros Hs Hp Hen. destruct (publish_fields s (abs_path ps) pub d fl Hs)
    as (_ & _ & _ & _ & _ & _ & _ & Hl & _). rewrite Hl, Hen.
  rewrite lv_touch. destruct (decide (q = abs_path ps)) as [->|Hq].
  - split; [|eauto]. intros _. left. apply ancestors_elem. exists (length ps).
    by rewrite firstn_all.
  - rewrite add_parents_lv by done. destruct ps as [|x ps _] using rev_ind.
    + change (ancestors (removelast [])) with [ROOT]. change (ancestors []) with [ROOT].
      rewrite decide_False by (by intros ?%list_elem_of_singleton).
      rewrite list_elem_of_singleton. tauto.
    + rewrite removelast_last, ancestors_snoc.
      assert (Hin : q ∈ ancestors ps ++ [abs_path (ps ++ [x])] ↔ q ∈ ancestors ps)
        by (rewrite elem_of_app, list_elem_of_singleton; tauto).
      rewrite Hin. case_decide; split; try tauto; eauto.
Qed.

Lemma publish_anchored s path pub (d : bool) fl q :
  self_ok s →
  anchored (publish s path pub d fl) q ↔ q = path ∨ anchored s q.
Proof.
  intros Hs. destruct (publish_fields s path pub d fl Hs)
    as (_ & _ & Hp & _ & Hd & _ & _ & _ & _ & _ & Hc).
  unfold anchored. rewrite Hp, Hd, Hc.
  assert (Hi : ∀ bp : gmap str ids, ∀ x,
    is_Some (<[path := x]> bp !! q) ↔ q = path ∨ is_Some (bp !! q)).
  { intros bp x. rewrite lookup_insert. case_decide; [subst; split; eauto|].
    split; [eauto|]. intros [->|]; done. }
  destruct d; rewrite Hi; tauto.
Qed.

Lemma publish_listed s ps pub (d : bool) fl :
  store_ok s → Forall comp_ok ps →
  let s' := publish s (abs_path ps) pub d fl in
  ∀ p, anchored s' p → p ≠ ROOT → is_Some (lv (published_by_level s') p).
Proof.
  intros Hs Hps s' p Ha Hr. apply publish_anchored in Ha; [|apply Hs].
  destruct (enters s (abs_path ps) (pub_id pub) d) eqn:Ee.
  - apply publish_lv; [apply Hs|done|done|]. destruct Ha as [->|Ha].
    + left. apply ancestors_elem. exists (length ps). by rewrite firstn_all.
    + right. by apply Hs.
  - destruct (publish_fields s (abs_path ps) pub d fl (so_self s Hs))
      as (_ & _ & _ & _ & _ & _ & _ & Hl & _).
    unfold s'. rewrite Hl, Ee. destruct Ha as [->|Ha]; [|by apply Hs].
    apply (so_listed s Hs); [|done]. unfold enters in Ee.
    apply bool_decide_eq_false in Ee. apply dec_stable in Ee.
    right. destruct d; [right; left; apply (index_lookup _ _ _ (so_def s Hs))
                       |left; apply (index_lookup _ _ _ (so_pub s Hs))]; set_solver.
Qed.

Lemma publish_ok s ps pub (d : bool) fl :
  store_ok s → Forall comp_ok ps → store_ok (publish s (abs_path ps) pub d fl).
Proof.
  intros Hs Hps. pose proof (publish_listed s ps pub d fl Hs Hps) as Hlist.
  pose proof (fun q => publish_anchored s (abs_path ps) pub d fl q (so_self s Hs)) as Hanch.
  destruct (publish_fields s (abs_path ps) pub d fl (so_self s Hs))
    as (Hpi & Hpa & Hp & Hi & Hd & Hdi & Hf & Hl & Hc & Hpar & Hch).
  set (s' := publish s (abs_path ps) pub d fl) in *. split.
  - rewrite Hp, Hi. destruct d; [apply Hs|]. by apply index_add, Hs.
  - rewrite Hd, Hdi. destruct d; [|apply Hs]. by apply index_add, Hs.
  - intros id p. rewrite Hpi. destruct (publishers_by_id s !! pub_id pub) eqn:E; [apply Hs|].
    rewrite lookup_insert. case_decide; [|apply Hs]. intros [= <-]. done.
  - intros id. rewrite Hpi, Hi, Hdi. pose proof (so_known s Hs id) as Hk.
    assert (Hk' : is_Some (publishers_by_id s !! pub_id pub) ↔ _) by apply (so_known s Hs).
    destruct (decide (pub_id pub = id)) as [<-|Hne].
    + split; [intros _|intros _].
      * destruct d; rewrite lookup_insert_eq; eauto.
      * destruct (publishers_by_id s !! pub_id pub) eqn:E; [by rewrite E|].
        by rewrite lookup_insert_eq.
    + assert (is_Some ((match publishers_by_id s !! pub_id pub with
        | Some _ => publishers_by_id s | None => <[pub_id pub := pub]> (publishers_by_id s) end)
        !! id) ↔ is_Some (publishers_by_id s !! id)) as ->
        by (destruct (publishers_by_id s !! pub_id pub); [done|by rewrite lookup_insert_ne]).
      rewrite Hk. destruct d; by rewrite lookup_insert_ne.
  - intros a id. rewrite Hpa, Hpi. destruct (publishers_by_id s !! pub_id pub) eqn:E; [apply Hs|].
    rewrite lookup_insert. case_decide as Ha.
    + intros [= <-]. exists pub. by rewrite lookup_insert_eq.
    + intros (p & Hpp & <-)%(so_addr s Hs). exists p.
      rewrite lookup_insert_ne; [done|]. intros <-. congruence.
  - intros p Hfp. rewrite Hf in Hfp.
    assert (Hin : p = abs_path ps ∨ is_Some (flags_by_path s !! p)).
    { destruct fl; [|by right]. rewrite lookup_insert in Hfp. case_decide; [left|right]; done. }
    rewrite Hp, Hd. destruct Hin as [->|Hin].
    + destruct d; rewrite lookup_insert_eq; eauto.
    + apply (so_flags s Hs) in Hin. destruct d; rewrite lookup_insert; case_decide; eauto.
  - rewrite Hl. destruct (enters s (abs_path ps) (pub_id pub) d); [|apply Hs].
    apply keys_touch; [by exists ps|]. unfold add_parents. fields.
    apply add_parents_loop_keys; [done|apply Hs].
  - intros p [->|Ha]%Hanch; [by exists ps|by apply Hs].
  - exact Hlist.
Qed.

Lemma rel_fields s id (d : bool) path h :
  let s1 := unpublish_rel s id d path h in
  published_by_path s1 = (if d then published_by_path s else
    drop_id (published_by_path s) path id) ∧
  published_by_id s1 = (if d then published_by_id s else
    forget_path (published_by_id s) id path) ∧
  defaults_by_path s1 = (if d then drop_id (defaults_by_path s) path id
    else defaults_by_path s) ∧
  defaults_by_id s1 = (if d then forget_path (defaults_by_id s) id path
    else defaults_by_id s) ∧
  columns s1 = (if negb d && leaves s path id d then columns (remove_column s path)
    else columns s) ∧
  publishers_by_id s1 = publishers_by_id s ∧ publishers_by_addr s1 = publishers_by_addr s ∧
  flags_by_path s1 = flags_by_path s ∧ published_by_level s1 = published_by_level s ∧
  parent s1 = parent s ∧ children s1 = children s.
Proof.
  unfold unpublish_rel. destruct d; [fields; done|].
  destruct (leaves s path id false); fields; done.
Qed.

Lemma rel_index s id (d : bool) path h :
  store_ok s →
  let s1 := unpublish_rel s id d path h in
  index_ok (published_by_path s1) (published_by_id s1) ∧
  index_ok (defaults_by_path s1) (defaults_by_id s1).
Proof.
  intros Hs s1. destruct (rel_fields s id d path h) as (Hp & Hi & Hd & Hdi & _).
  fold s1 in Hp, Hi, Hd, Hdi. rewrite Hp, Hi, Hd, Hdi.
  destruct d; split; try apply Hs; by apply index_remove, Hs.
Qed.

(** Only [path] can stop being published, and only [id] can stop publishing. *)
Lemma rel_keeps_path s id (d : bool) path h q :
  store_ok s → q ≠ path →
  let s1 := unpublish_rel s id d path h in
  (is_Some (published_by_path s1 !! q) ↔ is_Some (published_by_path s !! q)) ∧
  (is_Some (defaults_by_path s1 !! q) ↔ is_Some (defaults_by_path s !! q)).
Proof.
  intros Hs Hq s1. destruct (rel_fields s id d path h) as (Hp & _ & Hd & _).
  fold s1 in Hp, Hd. rewrite Hp, Hd.
  assert (H : ∀ bp : gmap str ids, drop_id bp path id !! q = bp !! q).
  { intros bp. unfold drop_id.
    case_decide; [by rewrite lookup_delete_ne|by rewrite lookup_insert_ne]. }
  destruct d; by rewrite H.
Qed.

Lemma rel_keeps_id s id (d : bool) path h j :
  store_ok s → (j ≠ id ∨ leaves s path id d = false) →
  let s1 := unpublish_rel s id d path h in
  (is_Some (published_by_id s1 !! j) ↔ is_Some (published_by_id s !! j)) ∧
  (is_Some (defaults_by_id s1 !! j) ↔ is_Some (defaults_by_id s !! j)).
Proof.
  intros Hs Hj s1. destruct (rel_index s id d path h Hs) as [Hip Hid]. fold s1 in Hip, Hid.
  rewrite (index_lookup_id _ _ j Hip), (index_lookup_id _ _ j Hid).
  rewrite (index_lookup_id _ _ j (so_pub s Hs)), (index_lookup_id _ _ j (so_def s Hs)).
  destruct (rel_fields s id d path h) as (_ & Hi & _ & Hdi & _).
  fold s1 in Hi, Hdi. rewrite Hi, Hdi. unfold leaves in Hj.
  destruct d; rewrite paths_of_forget; destruct (decide (id = j)) as [<-|Hjd]; try done;
    destruct Hj as [|Hj]; try done; apply bool_decide_eq_false in Hj.
  - pose proof (proj2 (ix_rel _ _ (so_def s Hs) path id)). split; [done|].
    assert (paths_of (defaults_by_id s) id ∖ {[path]} = paths_of (defaults_by_id s) id) as ->;
      [set_solver|done].
  - pose proof (proj2 (ix_rel _ _ (so_pub s Hs) path id)). split; [|done].
    assert (paths_of (published_by_id s) id ∖ {[path]} = paths_of (published_by_id s) id) as ->;
      [set_solver|done].
Qed.

(** A publication that is not there changes nothing that is observed. *)
Lemma rel_noop s id (d : bool) path h q :
  store_ok s → leaves s path id d = false →
  let s1 := unpublish_rel s id d path h in
  (is_Some (published_by_path s1 !! q) ↔ is_Some (published_by_path s !! q)) ∧
  (is_Some (defaults_by_path s1 !! q) ↔ is_Some (defaults_by_path s !! q)).
Proof.
  intros Hs Hl s1. destruct (rel_index s id d path h Hs) as [Hip Hid]. fold s1 in Hip, Hid.
  rewrite (index_lookup _ _ q Hip), (index_lookup _ _ q Hid).
  rewrite (index_lookup _ _ q (so_pub s Hs)), (index_lookup _ _ q (so_def s Hs)).
  destruct (rel_fields s id d path h) as (Hp & _ & Hd & _).
  fold s1 in Hp, Hd. rewrite Hp, Hd. unfold leaves in Hl. apply bool_decide_eq_false in Hl.
  destruct d; rewrite ids_at_drop; destruct (decide (path = q)) as [<-|Hq]; try done.
  - assert (ids_at (defaults_by_path s) path ∖ {[id]} = ids_at (defaults_by_path s) path) as ->;
      [set_solver|done].
  - assert (ids_at (published_by_path s) path ∖ {[id]} = ids_at (published_by_path s) path) as ->;
      [set_solver|done].
Qed.

Definition gone (s : Store) (path : str) : Prop :=
  published_by_path s !! path = None ∧ defaults_by_path s !! path = None.

Lemma lv_delete_at l p q :
  lv (match l !! levels p with
      | Some m => <[levels p := delete p m]> l
      | None => l
      end) q = if decide (q = p) then None else lv l q.
Proof.
  unfold lv. destruct (l !! levels p) as [m|] eqn:E.
  - unfold level_map at 1. rewrite lookup_insert.
    destruct (decide (levels p = levels q)) as [Hl|Hl]; cbn [default from_option id].
    + rewrite lookup_delete. destruct (decide (q = p)) as [->|Hq]; [by rewrite decide_True|].
      rewrite decide_False by done. unfold level_map. by rewrite <- Hl, E.
    + rewrite decide_False; [done|]. by intros ->.
  - destruct (decide (q = p)) as [->|]; [|done]. unfold level_map. by rewrite E.
Qed.
Lemma keys_delete_at l p :
  keys_ok l → keys_ok (match l !! levels p with
      | Some m => <[levels p := delete p m]> l
      | None => l
      end).
Proof.
  intros Hk. destruct (l !! levels p) as [m|] eqn:E; [|done]. intros n m' q.
  rewrite lookup_insert. case_decide as Hn; [|apply Hk]. intros [= <-]. subst n.
  rewrite lookup_delete. case_decide; [by intros [? ?]|]. by apply Hk.
Qed.

Lemma unpublish_levels_spec s1 ps :
  keys_ok (published_by_level s1) → Forall comp_ok ps →
  let path := abs_path ps in
  let l := published_by_level s1 in
  let l' := unpublish_levels s1 path in
  keys_ok l' ∧
  (∀ q, q ≠ path → anchored s1 q → is_Some (lv l q) → is_Some (lv l' q)) ∧
  (¬ gone s1 path → is_Some (lv l' path)) ∧
  (∀ q, is_Some (lv l' q) → q = path ∨ is_Some (lv l q)) ∧
  (gone s1 path → lv l' path = None) ∧
  (closed l → (gone s1 path → ∀ x, comp_ok x → lv l (abs_path (ps ++ [x])) = None) →
   (¬ gone s1 path → is_Some (lv l path)) → closed l').
Proof.
  intros Hk Hps path l l'.
  destruct (remove_loop_spec s1 (S (S (length path))) false l ps Hk Hps)
    as (Hk1 & _ & Hb & Ha & Hc); [pose proof (comp_fuel ps Hps); unfold path; lia|].
  fold path in Hk1, Hb, Ha, Hc.
  set (l1 := remove_parents_loop (S (S (length path))) s1 false l path) in *.
  set (l2 := published_by_level (touch_level (remove_parents s1 path) path)).
  assert (Hlv2 : ∀ q, lv l2 q = if decide (q = path) then Some (incr (default 0 (lv l1 path)))
    else lv l1 q) by (intros q; unfold l2; by rewrite lv_touch).
  assert (Hk2 : keys_ok l2) by (apply keys_touch; [by exists ps|done]).
  unfold l', unpublish_levels. fold l2. unfold gone. case_decide as Hg.
  - split; [by apply keys_delete_at|].
    assert (Hlv : ∀ q, lv (match l2 !! levels path with
      | Some m => <[levels path := delete path m]> l2 | None => l2 end) q =
      if decide (q = path) then None else lv l1 q).
    { intros q. rewrite lv_delete_at, Hlv2. by case_decide. }
    split; [intros q Hq Hanch Hs; rewrite Hlv, decide_False by done; auto|].
    split; [done|]. split; [intros q; rewrite Hlv; case_decide; auto|].
    split; [intros _; rewrite Hlv; by rewrite decide_True|].
    intros Hcl Hno _ rs x Hx. rewrite !Hlv. case_decide as H1; [by intros [? ?]|].
    intros Hs. case_decide as H2; [|by apply (Hc Hcl rs x)].
    apply Forall_app in Hx as [Hrs Hx]. apply Forall_cons in Hx as [Hx _].
    unfold path in H2. apply abs_path_inj in H2 as ->; [|done..].
    apply Hb in Hs. rewrite (Hno Hg x Hx) in Hs. by destruct Hs.
  - split; [done|]. split; [intros q Hq Hanch Hs; rewrite Hlv2, decide_False by done; auto|].
    split; [intros _; rewrite Hlv2; by rewrite decide_True|].
    split; [intros q; rewrite Hlv2; case_decide; auto|]. split; [done|].
    intros Hcl _ Hin. eapply closed_same; [|by apply Hc]. intros q. rewrite Hlv2.
    case_decide; [subst q|done]. split; [|eauto]. intros _. apply Ha; [|by apply Hin].
    left. unfold anchored. destruct (published_by_path s1 !! path) eqn:E1; [eauto|].
    destruct (defaults_by_path s1 !! path) eqn:E2; [eauto 6|]. by destruct Hg.
Qed.

Lemma not_gone s path :
  ¬ gone s path ↔ is_Some (published_by_path s !! path) ∨ is_Some (defaults_by_path s !! path).
Proof.
  unfold gone. destruct (published_by_path s !! path), (defaults_by_path s !! path);
    split; intros H; try tauto; try (by intros [? ?]); eauto;
    destruct H as [[? ?]|[? ?]]; done.
Qed.

Lemma unpublish_ok s ps pub (d : bool) :
  store_ok s → Forall comp_ok ps → consistent s pub → children s !! abs_path ps = None →
  store_ok (unpublish s pub d (abs_path ps)).
Proof.
  intros Hs Hps Hcon Hch. set (path := abs_path ps). set (id := pub_id pub).
  destruct (unpublish_eq s pub d path (so_pub s Hs) (so_def s Hs)) as [h ->]. fold id.
  cbv zeta. set (s1 := unpublish_rel s id d path h).
  destruct (rel_index s id d path h Hs) as [Hip Hid]. fold s1 in Hip, Hid.
  pose proof (rel_fields s id d path h) as Hf. cbv zeta in Hf. fold s1 in Hf.
  destruct Hf as (_ & _ & _ & _ & _ & Hpi & Hpa & Hfl & Hlv & _ & Hchd).
  pose proof (fun q => rel_keeps_path s id d path h q Hs) as Hkp. cbv zeta in Hkp. fold s1 in Hkp.
  pose proof (fun j => rel_keeps_id s id d path h j Hs) as Hki. cbv zeta in Hki. fold s1 in Hki.
  assert (Hsub : ∀ q, q ≠ path → anchored s1 q → anchored s q).
  { intros q Hq. unfold anchored. destruct (Hkp q Hq) as [-> ->]. by rewrite Hchd. }
  destruct (leaves s path id d) eqn:El.
  - pose proof (cleanup_fields s1 pub path) as Hc. cbv zeta in Hc. fold id in Hc.
    destruct Hc as (Cp & Ci & Cd & Cdi & _ & _ & Cch & Cf & Cl & Cpi & Cpa).
    set (s' := unpublish_cleanup s1 pub path) in *.
    destruct (unpublish_levels_spec s1 ps) as (Lk & La & Lp & Lb & _ & _);
      [rewrite Hlv; apply Hs|done|]. fold path in Lk, La, Lp, Lb.
    assert (Hanch : ∀ q, anchored s' q ↔ anchored s1 q).
    { intros q. unfold anchored. by rewrite Cp, Cd, Cch. }
    assert (Hidgone : ∀ j, j ≠ id → is_Some (publishers_by_id s' !! j) ↔
      is_Some (publishers_by_id s !! j)).
    { intros j Hj. rewrite Cpi, Hpi. goal_decide Hdec; [by rewrite lookup_delete_ne|done]. }
    split.
    + by rewrite Cp, Ci.
    + by rewrite Cd, Cdi.
    + intros j p. rewrite Cpi, Hpi. goal_decide Hdec; [|apply Hs].
      rewrite lookup_delete. goal_decide Hd2; [done|apply Hs].
    + intros j. rewrite Ci, Cdi. destruct (decide (j = id)) as [->|Hj].
      * rewrite Cpi, Hpi. goal_decide Hn.
        { rewrite lookup_delete_eq. destruct Hn as [-> ->]. split; [by intros [? ?]|].
          intros [[? Hx]|[? Hx]]; discriminate Hx. }
        split; [intros _|intros _].
        { destruct (published_by_id s1 !! id), (defaults_by_id s1 !! id); eauto. by destruct Hn. }
        apply Hs. unfold leaves in El. apply bool_decide_eq_true in El.
        destruct d; [right; apply (index_lookup_id _ _ _ (so_def s Hs))
                    |left; apply (index_lookup_id _ _ _ (so_pub s Hs))].
        { apply (ix_rel _ _ (so_def s Hs)) in El. by eapply elem_ne. }
        { apply (ix_rel _ _ (so_pub s Hs)) in El. by eapply elem_ne. }
      * rewrite Hidgone by done. destruct (Hki j (or_introl Hj)) as [-> ->]. apply Hs.
    + intros a j. rewrite Cpa, Cpi, Hpa, Hpi. goal_decide Hdec; [|apply Hs].
      rewrite lookup_delete. goal_decide Ha; [done|].
      intros (p & Hp & <-)%(so_addr s Hs). exists p. split; [|done].
      rewrite lookup_delete_ne; [done|]. intros <-. by apply Ha, eq_sym, Hcon.
    + intros q. rewrite Cp, Cd, Cf, Hfl. goal_decide Hg.
      * rewrite lookup_delete. goal_decide Hq; [by intros [? ?]|].
        destruct (Hkp q) as [-> ->]; [done|apply Hs].
      * destruct (decide (q = path)) as [->|Hq].
        { intros _. apply not_gone. exact Hg. }
        destruct (Hkp q) as [-> ->]; [done|apply Hs].
    + rewrite Cl. exact Lk.
    + intros q Hq. destruct (decide (q = path)) as [->|Hne]; [by exists ps|].
      apply Hanch in Hq. by apply Hs, Hsub.
    + intros q Hq Hr. apply Hanch in Hq. rewrite Cl.
      destruct (decide (q = path)) as [->|Hne].
      * apply Lp. apply not_gone. unfold anchored in Hq. rewrite Hchd in Hq.
        destruct Hq as [?|[?|[?|Hq]]]; [done|by left|by right|].
        unfold path in Hq. rewrite Hch in Hq. by destruct Hq.
      * apply La; [done|done|]. rewrite Hlv. by apply Hs; [apply Hsub|].
  - pose proof (fun q => rel_noop s id d path h q Hs El) as Hno. cbv zeta in Hno. fold s1 in Hno.
    assert (Hanch : ∀ q, anchored s1 q ↔ anchored s q).
    { intros q. unfold anchored. destruct (Hno q) as [-> ->]. by rewrite Hchd. }
    split; try done.
    + intros j p. rewrite Hpi. apply Hs.
    + intros j. rewrite Hpi. destruct (Hki j (or_intror eq_refl)) as [-> ->]. apply Hs.
    + intros a j. rewrite Hpa, Hpi. apply Hs.
    + intros q. rewrite Hfl. destruct (Hno q) as [-> ->]. apply Hs.
    + rewrite Hlv. apply Hs.
    + intros q Hq%Hanch. by apply Hs.
    + intros q Hq%Hanch Hr. rewrite Hlv. by apply Hs.
Qed.

(** ** The publications, abstractly *)

(** The publishers of [q]: those of the path itself, or the defaults *)
Definition pubs_at (s : Store) (d : bool) (q : str) : ids :=
  ids_at (if d then defaults_by_path s else published_by_path s) q.

Lemma publish_pubs s path pub (d : bool) fl e q :
  self_ok s →
  pubs_at (publish s path pub d fl) e q =
    if decide (e = d ∧ q = path) then {[pub_id pub]} ∪ pubs_at s e q else pubs_at s e q.
Proof.
  intros Hs. destruct (publish_fields s path pub d fl Hs)
    as (_ & _ & Hp & _ & Hd & _). unfold pubs_at.
  destruct d, e; rewrite ?Hp, ?Hd, ?ids_at_insert; cbn.
  - destruct (decide (path = q)) as [->|Hq]; [by rewrite decide_True|].
    rewrite decide_False; [done|]. by intros [_ ->].
  - by rewrite decide_False by (by intros [? _]).
  - by rewrite decide_False by (by intros [? _]).
  - destruct (decide (path = q)) as [->|Hq]; [by rewrite decide_True|].
    rewrite decide_False; [done|]. by intros [_ ->].
Qed.

Lemma unpublish_parts s pub (d : bool) path :
  store_ok s →
  let s' := unpublish s pub d path in
  (∀ e q, pubs_at s' e q = if decide (e = d ∧ q = path) then pubs_at s e q ∖ {[pub_id pub]}
     else pubs_at s e q) ∧
  (∀ id p, publishers_by_id s' !! id = Some p → publishers_by_id s !! id = Some p) ∧
  children s' = children s ∧
  columns s' = (if negb d && leaves s path (pub_id pub) d then columns (remove_column s path)
                else columns s).
Proof.
  intros Hs. destruct (unpublish_eq s pub d path (so_pub s Hs) (so_def s Hs)) as [h ->].
  cbv zeta. set (s1 := unpublish_rel s (pub_id pub) d path h).
  pose proof (rel_fields s (pub_id pub) d path h) as Hf. cbv zeta in Hf. fold s1 in Hf.
  destruct Hf as (Hp & _ & Hd & _ & Hc & Hpi & _ & _ & _ & _ & Hch).
  assert (Hrel : ∀ e q, pubs_at s1 e q = if decide (e = d ∧ q = path)
    then pubs_at s e q ∖ {[pub_id pub]} else pubs_at s e q).
  { intros e q. unfold pubs_at. destruct d, e; rewrite ?Hp, ?Hd, ?ids_at_drop; cbn;
      try (by rewrite decide_False by (by intros [? _])).
    - destruct (decide (path = q)) as [->|Hq]; [by rewrite decide_True|].
      rewrite decide_False; [done|]. by intros [_ ->].
    - destruct (decide (path = q)) as [->|Hq]; [by rewrite decide_True|].
      rewrite decide_False; [done|]. by intros [_ ->]. }
  destruct (leaves s path (pub_id pub) d).
  - pose proof (cleanup_fields s1 pub path) as Hcl. cbv zeta in Hcl.
    destruct Hcl as (Cp & _ & Cd & _ & Cc & _ & Cch & _ & _ & Cpi & _).
    split; [intros e q; rewrite <- Hrel; unfold pubs_at; by rewrite Cp, Cd|].
    split; [|by rewrite Cch, Cc].
    intros id p. rewrite Cpi, Hpi. goal_decide Hdec; [|done].
    rewrite lookup_delete. by goal_decide Hd2.
  - split; [done|]. split; [by rewrite Hpi|]. split; done.
Qed.

Context (who : PublisherId → Publisher).
Definition who_ok (s : Store) : Prop :=
  ∀ id p, publishers_by_id s !! id = Some p → p = who id.

Lemma who_consistent s pub : who_ok s → who (pub_id pub) = pub → consistent s pub.
Proof. intros Hw Hp p Hk. rewrite (Hw _ _ Hk). by rewrite Hp. Qed.

Lemma unpublish_all s pub (d : bool) l :
  store_ok s → who_ok s → who (pub_id pub) = pub →
  Forall (fun p => good p ∧ children s !! p = None) l →
  let s' := foldl (fun s path => unpublish s pub d path) s l in
  store_ok s' ∧ who_ok s' ∧ children s' = children s ∧
  ∀ e q, pubs_at s' e q = if decide (e = d ∧ q ∈ l) then pubs_at s e q ∖ {[pub_id pub]}
    else pubs_at s e q.
Proof.
  revert s; induction l as [|p l IH]; intros s Hs Hw Hp Hl; cbn [foldl].
  { split; [done|]. split; [done|]. split; [done|]. intros e q.
    by rewrite decide_False by (by intros [_ ?%elem_of_nil]). }
  apply Forall_cons in Hl as [[(ps & Hps & ->) Hch] Hl].
  destruct (unpublish_parts s pub d (abs_path ps) Hs) as (Hr & Hk & Hc & _).
  set (s1 := unpublish s pub d (abs_path ps)) in *.
  assert (Hs1 : store_ok s1) by (apply unpublish_ok; auto using who_consistent).
  destruct (IH s1) as (Hs' & Hw' & Hc' & Hr'); [done| |done| |].
  - intros id q Hq. by apply Hw, Hk.
  - by rewrite Hc.
  - split; [done|]. split; [done|]. split; [by rewrite Hc', Hc|]. intros e q.
    rewrite Hr', Hr. destruct (decide (e = d)) as [->|He].
    + destruct (decide (q = abs_path ps)) as [->|Hq].
      * rewrite (decide_True (P := d = d ∧ abs_path ps = abs_path ps)) by done.
        rewrite (decide_True (P := d = d ∧ abs_path ps ∈ abs_path ps :: l)) by (split; [done|by left]).
        case_decide; set_solver.
      * rewrite (decide_False (P := d = d ∧ q = abs_path ps)) by (by intros [_ ?]).
        destruct (decide (q ∈ l)) as [Hin|Hin].
        { rewrite !decide_True; [done| |done]. split; [done|by right]. }
        rewrite !decide_False; [done| |by intros [_ ?]]. intros [_ [?|?]%elem_of_cons]; done.
    + by rewrite !decide_False by (by intros [? _]).
Qed.

(** [clear] leaves the publisher nothing and takes nothing from the others. *)
Lemma clear_spec drain s pub :
  (∀ X, drain X ≡ₚ elements X) →
  store_ok s → who_ok s → who (pub_id pub) = pub →
  (∀ e q, pub_id pub ∈ pubs_at s e q → children s !! q = None) →
  let s' := clear drain s pub in
  store_ok s' ∧ who_ok s' ∧ children s' = children s ∧
  ∀ e q, pubs_at s' e q = pubs_at s e q ∖ {[pub_id pub]}.
Proof.
  intros Hdr Hs Hw Hp Hch. unfold clear.
  assert (Hin : ∀ s0 X e, store_ok s0 → children s0 = children s →
    (∀ q, q ∈ X ↔ pub_id pub ∈ pubs_at s0 e q) → (∀ q, pubs_at s0 e q ⊆ pubs_at s e q) →
    Forall (fun p => good p ∧ children s0 !! p = None) (drain X)).
  { intros s0 X e Hs0 Hc0 HX Hsub. rewrite Hdr. apply Forall_forall.
    intros q Hq%elem_of_elements%HX. split.
    - apply Hs0. right. unfold pubs_at in Hq. apply elem_ne in Hq.
      destruct e; [right; left; by apply (index_lookup _ _ _ (so_def s0 Hs0))
                  |left; by apply (index_lookup _ _ _ (so_pub s0 Hs0))].
    - rewrite Hc0. apply (Hch e). by apply Hsub. }
  set (X1 := published_for_id s (pub_id pub)).
  assert (HX1 : ∀ q, q ∈ X1 ↔ pub_id pub ∈ pubs_at s false q)
    by (intros q; symmetry; apply (ix_rel _ _ (so_pub s Hs))).
  destruct (unpublish_all s pub false (drain X1) Hs Hw Hp) as (Hs1 & Hw1 & Hc1 & Hr1);
    [by apply (Hin s X1 false)|].
  set (s1 := foldl (fun s path => unpublish s pub false path) s (drain X1)) in *.
  set (X2 := defaults_for_id s1 (pub_id pub)).
  assert (HX2 : ∀ q, q ∈ X2 ↔ pub_id pub ∈ pubs_at s1 true q)
    by (intros q; symmetry; apply (ix_rel _ _ (so_def s1 Hs1))).
  destruct (unpublish_all s1 pub true (drain X2) Hs1 Hw1 Hp) as (Hs2 & Hw2 & Hc2 & Hr2);
    [apply (Hin s1 X2 true); [done|done|done|]; intros q; rewrite Hr1; by case_decide; set_solver|].
  split; [done|]. split; [done|]. split; [by rewrite Hc2|]. intros e q. rewrite Hr2, Hr1.
  assert (Hd1 : q ∈ drain X1 ↔ pub_id pub ∈ pubs_at s false q)
    by (rewrite Hdr, elem_of_elements; apply HX1).
  assert (Hd2 : q ∈ drain X2 ↔ pub_id pub ∈ pubs_at s true q).
  { rewrite Hdr, elem_of_elements, HX2, Hr1. by rewrite decide_False by (by intros [? _]). }
  destruct e.
  - rewrite (decide_False (P := true = false ∧ _)) by (by intros [? _]).
    case_decide as H; [done|]. assert (pub_id pub ∉ pubs_at s true q) by tauto. set_solver.
  - rewrite (decide_False (P := false = true ∧ _)) by (by intros [? _]).
    case_decide as H; [done|]. assert (pub_id pub ∉ pubs_at s false q) by tauto. set_solver.
Qed.

(** ** Runs *)

(** The requests that change the store *)
Inductive op :=
| OpPublish (path : str) (pub : Publisher) (d : bool) (flags : option u32)
| OpUnpublish (pub : Publisher) (d : bool) (path : str)
| OpClear (pub : Publisher).

Definition step (drain : gset str → list str) (s : Store) (o : op) : Store :=
  match o with
  | OpPublish path pub d flags => publish s path pub d flags
  | OpUnpublish pub d path => unpublish s pub d path
  | OpClear pub => clear drain s pub
  end.

(** What the store promises: for each kind and path, a set of publishers *)
Definition spec_step (a : bool → str → ids) (o : op) : bool → str → ids :=
  match o with
  | OpPublish path pub d _ => fun e q =>
      if decide (e = d ∧ q = path) then {[pub_id pub]} ∪ a e q else a e q
  | OpUnpublish pub d path => fun e q =>
      if decide (e = d ∧ q = path) then a e q ∖ {[pub_id pub]} else a e q
  | OpClear pub => fun e q => a e q ∖ {[pub_id pub]}
  end.

(** Requests the server passes on: paths are canonical and not another server's,
    a publisher id stands for one publisher. *)
Definition op_ok (children : gmap str Referral) (o : op) : Prop :=
  match o with
  | OpPublish path pub _ _ | OpUnpublish pub _ path =>
      good path ∧ children !! path = None ∧ who (pub_id pub) = pub
  | OpClear pub => who (pub_id pub) = pub
  end.

Definition run_ok (s : Store) : Prop :=
  store_ok s ∧ who_ok s ∧ ∀ e q, pubs_at s e q ≠ ∅ → children s !! q = None.

Lemma publish_who s path pub (d : bool) fl :
  self_ok s → who_ok s → who (pub_id pub) = pub → who_ok (publish s path pub d fl).
Proof.
  intros Hs Hw Hp id p. destruct (publish_fields s path pub d fl Hs) as (-> & _).
  destruct (publishers_by_id s !! pub_id pub); [apply Hw|].
  rewrite lookup_insert. goal_decide Hd; [|apply Hw]. intros [= <-]. by subst.
Qed.

Lemma publish_children s path pub (d : bool) fl :
  self_ok s → children (publish s path pub d fl) = children s.
Proof.
  intros Hs. by destruct (publish_fields s path pub d fl Hs)
    as (_ & _ & _ & _ & _ & _ & _ & _ & _ & _ & ?).
Qed.

Lemma step_spec drain s o :
  (∀ X, drain X ≡ₚ elements X) → run_ok s → op_ok (children s) o →
  run_ok (step drain s o) ∧ children (step drain s o) = children s ∧
  ∀ e q, pubs_at (step drain s o) e q = spec_step (pubs_at s) o e q.
Proof.
  intros Hdr (Hs & Hw & Hc) Ho. pose proof (so_self s Hs) as Hself.
  destruct o as [path pub d fl|pub d path|pub]; cbn [step spec_step op_ok] in *.
  - destruct Ho as ((ps & Hps & ->) & Hch & Hp).
    assert (Hr := fun e q => publish_pubs s (abs_path ps) pub d fl e q Hself).
    assert (Hcc := publish_children s (abs_path ps) pub d fl Hself).
    split; [|done]. split; [by apply publish_ok|]. split; [by apply publish_who|].
    intros e q. rewrite Hr, Hcc. goal_decide He; [destruct He as [-> ->]; done|apply Hc].
  - destruct Ho as ((ps & Hps & ->) & Hch & Hp).
    destruct (unpublish_parts s pub d (abs_path ps) Hs) as (Hr & Hk & Hcc & _).
    split; [|done]. split; [apply unpublish_ok; auto using who_consistent|].
    split; [intros id p ?; by apply Hw, Hk|].
    intros e q. rewrite Hr, Hcc. goal_decide He; [destruct He as [-> ->]; done|apply Hc].
  - destruct (clear_spec drain s pub Hdr Hs Hw Ho) as (Hs' & Hw' & Hcc & Hr).
    { intros e q Hin. apply (Hc e). by eapply elem_ne. }
    split; [|done]. split; [done|]. split; [done|]. intros e q. rewrite Hr, Hcc.
    intros Hne. apply (Hc e). intros He. apply Hne. rewrite He. set_solver.
Qed.

Lemma spec_step_ext a b o : (∀ e q, a e q = b e q) → ∀ e q, spec_step a o e q = spec_step b o e q.
Proof. intros H e q. destruct o; cbn; by rewrite !H. Qed.

Lemma run_spec drain s a os :
  (∀ X, drain X ≡ₚ elements X) → run_ok s → Forall (op_ok (children s)) os →
  (∀ e q, pubs_at s e q = a e q) →
  run_ok (foldl (step drain) s os) ∧
  ∀ e q, pubs_at (foldl (step drain) s os) e q = foldl spec_step a os e q.
Proof.
  intros Hdr. revert s a; induction os as [|o os IH]; intros s a Hs Ho Ha; [done|].
  apply Forall_cons in Ho as [Ho Hos]. cbn [foldl].
  destruct (step_spec drain s o Hdr Hs Ho) as (Hs' & Hc & Hr). apply IH; [done| |].
  - by rewrite Hc.
  - intros e q. rewrite Hr. by apply spec_step_ext.
Qed.

(** *** The initial store *)

Lemma good_append p : good p → ∃ ps, Forall comp_ok ps ∧ p = abs_path ps ∧
  append p (lit "z") = abs_path (ps ++ [lit "z"]) ∧ Forall comp_ok (ps ++ [lit "z"]).
Proof.
  intros (ps & Hps & ->). exists ps. split; [done|]. split; [done|].
  assert (Hz : Forall comp_ok [lit "z"]) by (by apply comps_ok_dec).
  split; [by rewrite append_spec|by apply Forall_app].
Qed.

Lemma new_levels (l : list str) s :
  Forall good l → keys_ok (published_by_level s) →
  let s' := foldl (fun s child => add_parents s (append child (lit "z"))) s l in
  keys_ok (published_by_level s') ∧
  (∀ q, is_Some (lv (published_by_level s) q) ∨ q ∈ l → is_Some (lv (published_by_level s') q)) ∧
  s' = set_levels s (published_by_level s').
Proof.
  revert s; induction l as [|p l IH]; intros s Hl Hk; cbn [foldl].
  { split; [done|]. split; [|by destruct s]. by intros q [?|?%elem_of_nil]. }
  apply Forall_cons in Hl as [Hp Hl].
  destruct (good_append p Hp) as (ps & Hps & -> & -> & Hz).
  set (s1 := add_parents s (abs_path (ps ++ [lit "z"]))).
  destruct (IH s1 Hl) as (Hk' & Hq & Hs').
  { unfold s1, add_parents. fields. by apply add_parents_loop_keys. }
  split; [done|]. split; [|rewrite Hs'; by destruct s].
  intros q Hin. apply Hq. unfold s1. rewrite add_parents_lv, removelast_last by done.
  destruct (decide (q ∈ ancestors ps)) as [|Hn]; [eauto|].
  destruct Hin as [?|[->|?]%elem_of_cons]; [by left| |by right].
  destruct Hn. apply ancestors_elem. exists (length ps). by rewrite firstn_all.
Qed.

Lemma Store_new_run_ok par ch :
  (∀ p, is_Some (ch !! p) → good p) → run_ok (Store_new par ch) ∧
  children (Store_new par ch) = ch ∧ ∀ e q, pubs_at (Store_new par ch) e q = ∅.
Proof.
  intros Hch. unfold Store_new.
  assert (Hin : ∀ q, q ∈ (bt_iter ch).*1 ↔ is_Some (ch !! q)).
  { intros q. rewrite list_elem_of_fmap. split.
    - intros ([q' r] & -> & Hq%elem_of_bt_iter). eauto.
    - intros [r Hr%elem_of_bt_iter]. by exists (q, r). }
  set (s0 := MkStore ∅ ∅ ∅ ∅ ∅ ∅ ∅ ∅ ∅ par ch hc_new).
  destruct (new_levels (bt_iter ch).*1 s0) as (Hk & Hq & Hs).
  { apply Forall_forall. intros q Hq%Hin. by apply Hch. }
  { intros n m q. cbn. by rewrite lookup_empty. }
  set (s := foldl _ s0 _) in *. rewrite Hs in *. clearbody s. subst s0.
  set (l := published_by_level s) in *. clearbody l.
  assert (Hix : index_ok ∅ ∅).
  { split; [|intros p; by rewrite lookup_empty|intros i; by rewrite lookup_empty].
    intros p i. unfold ids_at, paths_of. rewrite !lookup_empty. set_solver. }
  assert (Hpubs : ∀ e q, pubs_at (set_levels (MkStore ∅ ∅ ∅ ∅ ∅ ∅ ∅ ∅ ∅ par ch hc_new) l) e q = ∅)
    by (intros [] q; unfold pubs_at, ids_at; cbn; by rewrite lookup_empty).
  assert (Hanch : ∀ q, anchored (set_levels (MkStore ∅ ∅ ∅ ∅ ∅ ∅ ∅ ∅ ∅ par ch hc_new) l) q ↔
    q = ROOT ∨ is_Some (ch !! q)).
  { intros q. unfold anchored. cbn. rewrite !lookup_empty. split; [|tauto].
    intros [?|[[? ?]|[[? ?]|?]]]; [by left|done|done|by right]. }
  split; [|done]. split; [|split].
  - split; fields; [exact Hix|exact Hix|..].
    + intros id p. fields. by rewrite lookup_empty.
    + intros id. rewrite !lookup_empty. split; [by intros [? ?]|].
      intros [[? ?]|[? ?]]; done.
    + intros a id. by rewrite lookup_empty.
    + intros p. rewrite lookup_empty. by intros [? ?].
    + exact Hk.
    + intros p [->|Hp]%Hanch; [apply good_root|by apply Hch].
    + intros p [->|Hp]%Hanch Hr; [done|]. apply Hq. right. by apply Hin.
  - intros id p. fields. by rewrite lookup_empty.
  - intros e q Hne. by rewrite Hpubs in Hne.
Qed.
End Invariant.
