(* ===== verification/StoreRead.v ===== *)
(** Reading the store: resolving, listing and referrals report what was
    published, and the places where they do not. *)
From Stdlib Require Import ZArith Lia.
From stdpp Require Import base gmap list strings sorting.
From Stdlib Require Import Strings.Byte.
From S2P Require Import Prelude Varint Pack Containers PackTypes Path PathFacts Order Glob Derive Proto Store StoreFacts.

(** ** The nearest key of an ordered map *)

(** [range((Unbounded, Included(path))).next_back()] *)
Definition nearest {V} (m : gmap str V) (path : str) : option (str * V) :=
  last (bt_range Unbounded (Included path) m).

Lemma sorted_last {V} (l : list (str * V)) x y :
  StronglySorted key_le l → last l = Some x → y ∈ l → key_le y x.
Proof.
  intros Hs. destruct l as [|z l _] using rev_ind; [done|]. rewrite last_snoc.
  intros [= ->] [Hy|Hy%list_elem_of_singleton]%elem_of_app; [|subst; reflexivity].
  apply StronglySorted_app in Hs as (Hs & _). apply Hs; [done|]. by constructor.
Qed.

Lemma nearest_spec {V} (m : gmap str V) path p v :
  nearest m path = Some (p, v) →
  m !! p = Some v ∧ str_le p path ∧ ∀ q, is_Some (m !! q) → str_le q path → str_le q p.
Proof.
  intros Hn. unfold nearest in Hn.
  pose proof (last_Some_elem_of _ _ Hn) as Hin. apply elem_of_bt_range in Hin as (_ & Hb & Hm).
  cbn in Hb. apply bool_decide_eq_true in Hb. split; [done|]. split; [done|].
  intros q [w Hq] Hle. apply (sorted_last _ (p, v) (q, w) (bt_range_sorted _ _ m) Hn).
  apply elem_of_bt_range. cbn. by rewrite bool_decide_true.
Qed.

Lemma nearest_none {V} (m : gmap str V) path :
  nearest m path = None → ∀ q, is_Some (m !! q) → ¬ str_le q path.
Proof.
  intros Hn%last_None q [w Hq] Hle.
  assert (Hin : (q, w) ∈ bt_range Unbounded (Included path) m)
    by (apply elem_of_bt_range; cbn; by rewrite bool_decide_true).
  rewrite Hn in Hin. by apply elem_of_nil in Hin.
Qed.

(** When the keys at or below [path] end with an ancestor [p], that is the one. *)
Lemma nearest_is {V} (m : gmap str V) path p v :
  m !! p = Some v → str_le p path →
  (∀ q, is_Some (m !! q) → str_lt p q → str_lt path q) →
  nearest m path = Some (p, v).
Proof.
  intros Hp Hle Hno. destruct (nearest m path) as [[q w]|] eqn:E.
  - apply nearest_spec in E as (Hq & Hqp & Hmax).
    specialize (Hmax p (mk_is_Some _ _ Hp) Hle). apply str_le_alt in Hmax as [Hlt| ->].
    + specialize (Hno q (mk_is_Some _ _ Hq) Hlt).
      destruct (str_lt_irrefl path). by eapply str_lt_le_trans.
    + by simplify_eq.
  - by destruct (nearest_none m path E p (mk_is_Some _ _ Hp)).
Qed.

(** ** Resolving *)

Section Resolve.
Context {ES : Escaping} {ESO : EscapingOk ES} {SH : Sha3}.

Lemma record_all_spec s sec m l :
  (∀ id, id ∈ l → is_Some (publishers_by_id s !! id)) →
  ∃ m', record_all s sec m l = Ok m' ∧ m ⊆ m' ∧
    (∀ id, is_Some (m' !! id) ↔ is_Some (m !! id) ∨ id ∈ l) ∧
    (sec = None → ∀ id, m !! id = None → id ∈ l → m' !! id = publishers_by_id s !! id).
Proof.
  revert m; induction l as [|i l IH]; intros m Hl; cbn [record_all].
  { exists m. split; [done|]. split; [done|]. split.
    - intros id. split; [by left|]. by intros [?|?%elem_of_nil].
    - by intros _ id _ ?%elem_of_nil. }
  unfold record_publisher. destruct (m !! i) as [p|] eqn:Em; cbn [res_bind].
  - destruct (IH m) as (m' & H1 & H2 & H3 & H4); [intros; apply Hl; by right|].
    exists m'. split; [done|]. split; [done|]. split.
    + intros id. rewrite H3, elem_of_cons. split; [tauto|]. intros [?|[->|?]]; eauto.
    + intros Hsec id Hid [->|Hin]%elem_of_cons; [congruence|]. by apply H4.
  - destruct (Hl i) as [pb Hpb]; [by left|]. rewrite Hpb. cbn [res_bind].
    set (pb' := match sec with None => pb | Some _ => _ end).
    destruct (IH (<[i := pb']> m)) as (m' & H1 & H2 & H3 & H4); [intros; apply Hl; by right|].
    exists m'. split; [done|].
    split; [etrans; [|exact H2]; by apply insert_subseteq|]. split.
    + intros id. rewrite H3, elem_of_cons, lookup_insert_is_Some'. naive_solver.
    + intros Hsec id Hid Hin. destruct (decide (id = i)) as [->|Hne].
      * rewrite (lookup_weaken (<[i := pb']> m) m' i pb'); [|apply lookup_insert_eq|done].
        unfold pb'. by rewrite Hsec.
      * apply H4; [done| |by apply elem_of_cons in Hin as [?|?]].
        by rewrite lookup_insert_ne.
Qed.

Lemma elem_id_iter (X : ids) id : id ∈ id_iter X ↔ id ∈ X.
Proof. unfold id_iter. by rewrite merge_sort_Permutation, elem_of_elements. Qed.

(** The default publishers the code offers for [path] *)
Definition default_ids (s : Store) (path : str) : ids :=
  match nearest (defaults_by_path s) path with
  | Some (p, X) => if is_parent p path then X else ∅
  | None => ∅
  end.

Lemma known_publisher `{LV : Live} s (d : bool) q id :
  store_ok s → id ∈ pubs_at s d q → is_Some (publishers_by_id s !! id).
Proof.
  intros Hs Hin. apply (so_known s Hs). unfold pubs_at in Hin. destruct d.
  - right. apply (index_lookup_id _ _ _ (so_def s Hs)).
    by eapply elem_ne, (ix_rel _ _ (so_def s Hs)).
  - left. apply (index_lookup_id _ _ _ (so_pub s Hs)).
    by eapply elem_ne, (ix_rel _ _ (so_pub s Hs)).
Qed.

Lemma default_known `{LV : Live} s path id :
  store_ok s → id ∈ default_ids s path → is_Some (publishers_by_id s !! id).
Proof.
  intros Hs. unfold default_ids. destruct (nearest _ path) as [[p X]|] eqn:E; [|set_solver].
  destruct (is_parent p path); [|set_solver]. intros Hin.
  apply (known_publisher s true p); [done|]. unfold pubs_at, ids_at.
  apply nearest_spec in E as (-> & _). done.
Qed.

(** What is told of a publisher: its record, with the signed description of the
    user for a signed request when the publisher's secret is known *)
Definition described (s : Store) (sec : option (SecCtxDataReadGuard * option UserInfo))
    (id : PublisherId) : option Publisher :=
  match sec with
  | Some (g, Some u) =>
      match sec_of g id with
      | Some secret => (fun pb => MkPublisher (pub_resolver pb) (pub_id pb) (pub_addr pb)
          (pub_hash_method pb) (pub_target_auth pb) (Some (signed_user secret u))
          (pub_priority pb)) <$> publishers_by_id s !! id
      | None => publishers_by_id s !! id
      end
  | _ => publishers_by_id s !! id
  end.

(** The flags that go with the default publishers of [path] *)
Definition default_flags (s : Store) (path : str) : u32 :=
  match nearest (defaults_by_path s) path with
  | Some (p, _) => if is_parent p path then get_flags s p else UInt 0
  | None => UInt 0
  end.

(** [m] with the descriptions of [X], what was there already kept *)
Definition described_in (s : Store) (sec : option (SecCtxDataReadGuard * option UserInfo))
    (m : gmap PublisherId Publisher) (X : ids) (id : PublisherId) : option Publisher :=
  match m !! id with
  | Some p => Some p
  | None => if decide (id ∈ X) then described s sec id else None
  end.

Lemma record_publisher_exact s sec m i m' :
  record_publisher s sec m i = Ok m' → ∀ id, m' !! id = described_in s sec m {[i]} id.
Proof.
  unfold record_publisher, described_in, described. intros H id.
  destruct (m !! i) as [p|] eqn:Em.
  { injection H as <-. destruct (m !! id) eqn:E; [done|].
    rewrite decide_False; [done|]. intros ->%elem_of_singleton. congruence. }
  destruct (publishers_by_id s !! i) as [pb|] eqn:Ep; [|done]. injection H as <-.
  destruct (decide (id = i)) as [->|Hne].
  - rewrite lookup_insert_eq, Em, decide_True by set_solver. rewrite Ep.
    destruct sec as [[g [u|]]|]; [destruct (sec_of g i)|destruct (sec_of g i)|]; done.
  - rewrite lookup_insert_ne by done. rewrite decide_False by set_solver.
    by destruct (m !! id).
Qed.

Lemma record_all_exact s sec l : ∀ m m',
  record_all s sec m l = Ok m' →
  ∀ id, m' !! id = described_in s sec m (list_to_set l) id.
Proof.
  induction l as [|i l IH]; intros m m' H id; cbn [record_all] in H.
  { injection H as <-. unfold described_in. rewrite decide_False by set_solver.
    by destruct (m !! id). }
  destruct (record_publisher s sec m i) as [m1| |] eqn:E; [|done..]. cbn [res_bind] in H.
  rewrite (IH _ _ H). unfold described_in at 1.
  rewrite (record_publisher_exact _ _ _ _ _ E). unfold described_in.
  destruct (m !! id); [done|]. cbn [list_to_set].
  destruct (decide (id ∈ ({[i]} : ids))) as [Hi|Hi].
  - rewrite (decide_True (P := id ∈ ({[i]} ∪ list_to_set l : ids))) by set_solver.
    destruct (described s sec id) eqn:Ed; [done|]. by destruct (decide _).
  - destruct (decide (id ∈ (list_to_set l : ids))); case_decide; set_solver.
Qed.

Lemma id_iter_set (X : ids) : (list_to_set (id_iter X) : ids) = X.
Proof.
  unfold id_iter. apply leibniz_equiv. rewrite (merge_sort_Permutation id_le (elements X)).
  apply list_to_set_elements.
Qed.

Lemma resolve_default_spec `{LV : Live} s sec m path :
  store_ok s →
  ∃ m' fl, resolve_default s sec m path = Ok (m', (fl, unsigned <$> id_iter (default_ids s path))) ∧
    m ⊆ m' ∧ ∀ id, is_Some (m' !! id) ↔ is_Some (m !! id) ∨ id ∈ default_ids s path.
Proof.
  intros Hs. pose proof (fun id => default_known s path id Hs) as Hk.
  unfold resolve_default, default_ids in *.
  change (last (bt_range Unbounded (Included path) (defaults_by_path s)))
    with (nearest (defaults_by_path s) path).
  assert (Hnone : id_iter ∅ = []) by done.
  destruct (nearest (defaults_by_path s) path) as [[p X]|].
  - destruct (is_parent p path).
    + destruct (record_all_spec s sec m (id_iter X)) as (m' & -> & Hsub & Hm & _);
        [intros id Hid%elem_id_iter; by apply Hk|].
      exists m', (get_flags s p). split; [done|]. split; [done|]. intros id.
      by rewrite Hm, elem_id_iter.
    + exists m, (UInt 0). rewrite Hnone. split; [done|]. split; [done|]. set_solver.
  - exists m, (UInt 0). rewrite Hnone. split; [done|]. split; [done|]. set_solver.
Qed.

Lemma resolve_default_exact s sec m path m' fl rs :
  resolve_default s sec m path = Ok (m', (fl, rs)) →
  (∀ id, m' !! id = described_in s sec m (default_ids s path) id) ∧ fl = default_flags s path.
Proof.
  unfold resolve_default, default_ids, default_flags.
  change (last (bt_range Unbounded (Included path) (defaults_by_path s)))
    with (nearest (defaults_by_path s) path).
  assert (Hno : ∀ id, m !! id = described_in s sec m ∅ id).
  { intros id. unfold described_in. rewrite decide_False by set_solver. by destruct (m !! id). }
  destruct (nearest (defaults_by_path s) path) as [[p X]|]; [|by intros [= <- <- <-]].
  destruct (is_parent p path); [|by intros [= <- <- <-]].
  destruct (record_all s sec m (id_iter X)) as [m1| |] eqn:E; [|done..].
  intros [= <- <- <-]. split; [|done]. intros id.
  by rewrite (record_all_exact _ _ _ _ _ E), id_iter_set.
Qed.

(** References collected by id *)
Lemma by_id_refs (sign : PublisherId → PublisherRef) l (m : gmap PublisherId PublisherRef) :
  (∀ id, pr_id (sign id) = id) →
  ∀ id, foldl (fun m id => <[id := sign id]> m) m l !! id =
    if decide (id ∈ l) then Some (sign id) else m !! id.
Proof.
  intros Hs. revert m; induction l as [|i l IH]; intros m id; cbn [foldl].
  { by rewrite decide_False by apply not_elem_of_nil. }
  rewrite IH. destruct (decide (id ∈ l)) as [Hin|Hin].
  - rewrite decide_True; [done|by right].
  - destruct (decide (id = i)) as [->|Hne].
    + rewrite decide_True by (by left). apply lookup_insert_eq.
    + rewrite decide_False by (rewrite elem_of_cons; tauto). by rewrite lookup_insert_ne.
Qed.
Lemma by_ref_refs (sign : PublisherId → PublisherRef) l (m : gmap PublisherId PublisherRef) :
  (∀ id, pr_id (sign id) = id) →
  foldl (fun m r => <[pr_id r := r]> m) m (sign <$> l) = foldl (fun m id => <[id := sign id]> m) m l.
Proof.
  intros Hs. revert m; induction l as [|i l IH]; intros m; [done|]. cbn. by rewrite Hs, IH.
Qed.

Lemma id_iter_nodup (X : ids) : NoDup (id_iter X).
Proof. unfold id_iter. rewrite merge_sort_Permutation. apply NoDup_elements. Qed.

Lemma resolve_with_spec `{LV : Live} drain sign s sec m path :
  (∀ M, drain M ≡ₚ (map_to_list M).*2) → (∀ id, pr_id (sign id) = id) → store_ok s →
  ∃ m' fl rs, resolve_with drain sign s sec m path = Ok (m', (fl, rs)) ∧
    m ⊆ m' ∧
    (∀ r, r ∈ rs ↔ ∃ id, r = sign id ∧ id ∈ pubs_at s false path ∪ default_ids s path) ∧
    NoDup (pr_id <$> rs) ∧
    (∀ id, is_Some (m' !! id) ↔
       is_Some (m !! id) ∨ id ∈ pubs_at s false path ∪ default_ids s path) ∧
    (is_Some (published_by_path s !! path) → fl = get_flags s path).
Proof.
  intros Hdr Hsign Hs. unfold resolve_with.
  destruct (resolve_default_spec s sec m path Hs) as (m1 & fl & -> & Hsub1 & Hm1).
  cbn [res_bind]. rewrite <- list_fmap_compose.
  change ((λ r, sign (pr_id r)) ∘ unsigned) with sign.
  assert (Hids : ∀ X : ids, NoDup (pr_id <$> (sign <$> id_iter X))).
  { intros X. rewrite <- list_fmap_compose.
    rewrite (list_fmap_ext _ id) by (intros; apply Hsign). rewrite list_fmap_id.
    apply id_iter_nodup. }
  assert (Hel : ∀ X : ids, ∀ r, r ∈ sign <$> id_iter X ↔ ∃ id, r = sign id ∧ id ∈ X).
  { intros X r. rewrite list_elem_of_fmap. by setoid_rewrite elem_id_iter. }
  unfold pubs_at. destruct (published_by_path s !! path) as [X|] eqn:E.
  - assert (HX : ids_at (published_by_path s) path = X) by (unfold ids_at; by rewrite E).
    destruct (record_all_spec s sec m1 (id_iter X)) as (m2 & -> & Hsub2 & Hm2 & _).
    { intros id Hid%elem_id_iter. apply (known_publisher s false path); [done|].
      unfold pubs_at. by rewrite HX. }
    cbn [res_bind]. rewrite HX.
    assert (Hm : ∀ id, is_Some (m2 !! id) ↔ is_Some (m !! id) ∨ id ∈ X ∪ default_ids s path).
    { intros id. rewrite Hm2, Hm1, elem_id_iter, elem_of_union. tauto. }
    case_decide as Hnil.
    + assert (Hd : default_ids s path = ∅).
      { apply fmap_nil_inv in Hnil. apply leibniz_equiv, elem_of_equiv_empty. intros x Hx.
        apply elem_id_iter in Hx. rewrite Hnil in Hx. by apply elem_of_nil in Hx. }
      exists m2, (get_flags s path), (sign <$> id_iter X).
      split; [done|]. split; [by etrans|]. split; [|by split_and!].
      intros r. by rewrite Hel, Hd, union_empty_r_L.
    + rewrite by_ref_refs by done.
      set (M := foldl (fun m id => <[id := sign id]> m) _ (id_iter X)).
      assert (HM : ∀ id, M !! id =
        if decide (id ∈ X ∪ default_ids s path) then Some (sign id) else None).
      { intros id. unfold M. rewrite !by_id_refs by done. rewrite lookup_empty.
        destruct (decide (id ∈ id_iter X)) as [H1|H1]; rewrite elem_id_iter in H1;
          destruct (decide (id ∈ id_iter (default_ids s path))) as [H2|H2];
          rewrite elem_id_iter in H2; try (by rewrite decide_True by (apply elem_of_union; tauto)).
        by rewrite decide_False by (rewrite elem_of_union; tauto). }
      exists m2, (get_flags s path), (drain M). split; [done|]. split; [by etrans|].
      split; [|split; [|by split]].
      * intros r. rewrite Hdr, list_elem_of_fmap. split.
        { intros ([id r'] & -> & Hin%elem_of_map_to_list). cbn. rewrite HM in Hin.
          case_decide; [|done]. exists id. by simplify_eq. }
        intros (id & -> & Hin). exists (id, sign id). split; [done|].
        apply elem_of_map_to_list. rewrite HM. by rewrite decide_True.
      * rewrite Hdr, <- list_fmap_compose.
        rewrite (Forall_fmap_ext_1 _ fst); [apply NoDup_fst_map_to_list|].
        apply Forall_forall. intros [id r] Hin%elem_of_map_to_list. cbn.
        rewrite HM in Hin. case_decide; [|done]. injection Hin as <-. apply Hsign.
  - assert (HX : ids_at (published_by_path s) path = ∅) by (unfold ids_at; by rewrite E).
    rewrite HX. exists m1, fl, (sign <$> id_iter (default_ids s path)).
    split; [done|]. split; [done|]. split; [intros r; by rewrite Hel, union_empty_l_L|].
    split; [done|]. split; [|by intros [? ?]]. intros id. by rewrite Hm1, union_empty_l_L.
Qed.

Lemma resolve_with_exact drain sgn s sec m path m' fl rs :
  resolve_with drain sgn s sec m path = Ok (m', (fl, rs)) →
  (∀ id, m' !! id =
     described_in s sec m (pubs_at s false path ∪ default_ids s path) id) ∧
  fl = if decide (is_Some (published_by_path s !! path)) then get_flags s path
       else default_flags s path.
Proof.
  unfold resolve_with. destruct (resolve_default s sec m path) as [[m1 [fl1 rs1]]| |] eqn:E;
    [|done..]. apply resolve_default_exact in E as [Hm1 Hfl]. cbn [res_bind].
  unfold pubs_at, ids_at. destruct (published_by_path s !! path) as [X|] eqn:Ep.
  - rewrite decide_True by done. cbn [default].
    destruct (record_all s sec m1 (id_iter X)) as [m2| |] eqn:E2; [|done..]. cbn [res_bind].
    assert (Hm2 : ∀ id, m2 !! id = described_in s sec m (X ∪ default_ids s path) id).
    { intros id. rewrite (record_all_exact _ _ _ _ _ E2), id_iter_set.
      unfold described_in at 1. rewrite Hm1. unfold described_in.
      destruct (m !! id); [done|].
      destruct (decide (id ∈ default_ids s path)) as [Hd|Hd].
      - rewrite (decide_True (P := id ∈ X ∪ default_ids s path)) by set_solver.
        destruct (described s sec id); [done|]. by destruct (decide (id ∈ X)).
      - destruct (decide (id ∈ X)); case_decide; set_solver. }
    case_decide; intros [= <- <- <-]; done.
  - rewrite decide_False by (intros [? ?]; done). intros [= <- <- <-]. split; [|done].
    intros id. rewrite Hm1. f_equal. set_solver.
Qed.
End Resolve.

(** ** The tree of levels *)

Section Tree.
Context {ES : Escaping} {ESO : EscapingOk ES} {LV : Live}.

Lemma ancestors_closed ps rs x :
  Forall comp_ok ps → Forall comp_ok (rs ++ [x]) →
  abs_path (rs ++ [x]) ∈ ancestors ps → abs_path rs ∈ ancestors ps.
Proof.
  intros Hps Hrs (n & Hn & He)%ancestors_elem.
  apply abs_path_inj in He; [|done|by apply Forall_take].
  apply ancestors_elem. exists (length rs).
  pose proof (f_equal length He) as Hl. rewrite length_app, length_take in Hl. cbn in Hl.
  split; [lia|]. f_equal.
  replace (length rs) with (length rs `min` n)%nat by lia. rewrite <- take_take, <- He.
  by rewrite take_app_length.
Qed.

Lemma publish_closed s ps pub (d : bool) fl :
  store_ok s → Forall comp_ok ps → closed (published_by_level s) →
  closed (published_by_level (publish s (abs_path ps) pub d fl)).
Proof.
  intros Hs Hps Hc. destruct (enters s (abs_path ps) (pub_id pub) d) eqn:Ee.
  - intros rs x Hx. rewrite !publish_lv by (done || apply Hs). intros [Hin|Hin].
    + left. by eapply ancestors_closed.
    + right. by apply (Hc rs x).
  - destruct (publish_fields s (abs_path ps) pub d fl (so_self s Hs))
      as (_ & _ & _ & _ & _ & _ & _ & -> & _). by rewrite Ee.
Qed.

(** No listed path directly below [ps] *)
Definition leaf (s : Store) (ps : list str) : Prop :=
  ∀ x, comp_ok x → lv (published_by_level s) (abs_path (ps ++ [x])) = None.

Lemma unpublish_closed s ps pub (d : bool) :
  store_ok s → Forall comp_ok ps →
  (leaf s ps ∨ ¬ gone (unpublish s pub d (abs_path ps)) (abs_path ps)) → ps ≠ [] →
  closed (published_by_level s) →
  closed (published_by_level (unpublish s pub d (abs_path ps))).
Proof.
  intros Hs Hps Hleaf Hne Hc. set (path := abs_path ps) in *.
  destruct (unpublish_eq s pub d path (so_pub s Hs) (so_def s Hs)) as [h Heq].
  rewrite Heq in *. clear Heq. cbv zeta in *.
  set (s1 := unpublish_rel s (pub_id pub) d path h) in *.
  pose proof (rel_fields s (pub_id pub) d path h) as Hf. cbv zeta in Hf. fold s1 in Hf.
  destruct Hf as (_ & _ & _ & _ & _ & _ & _ & _ & Hlv & _ & _).
  destruct (leaves s path (pub_id pub) d) eqn:El; [|by rewrite Hlv].
  pose proof (cleanup_fields s1 pub path) as Hcl. cbv zeta in Hcl.
  destruct Hcl as (Cp & _ & Cd & _ & _ & _ & _ & _ & Cl & _). rewrite Cl.
  destruct (unpublish_levels_spec s1 ps) as (_ & _ & _ & _ & _ & Hcl);
    [rewrite Hlv; apply Hs|done|]. fold path in Hcl. apply Hcl.
  - by rewrite Hlv.
  - intros Hg x Hx. rewrite Hlv. destruct Hleaf as [Hleaf|Hng]; [by apply Hleaf|].
    destruct Hng. unfold gone. by rewrite Cp, Cd.
  - intros _. rewrite Hlv. apply (so_listed s Hs).
    + right. unfold leaves in El. apply bool_decide_eq_true, elem_ne in El.
      destruct d; [right; left; by apply (index_lookup _ _ _ (so_def s Hs))
                  |left; by apply (index_lookup _ _ _ (so_pub s Hs))].
    + unfold path. by rewrite abs_path_root.
Qed.

Lemma list_paths_spec s ps q :
  store_ok s → Forall comp_ok ps →
  q ∈ list_paths s (abs_path ps) ↔
  ∃ x, q = abs_path (ps ++ [x]) ∧ comp_ok x ∧ scannable ps x ∧
    is_Some (lv (published_by_level s) q).
Proof.
  intros Hs Hps. unfold list_paths.
  assert (Hl : ∀ x, comp_ok x → levels (abs_path (ps ++ [x])) = levels (abs_path ps) + 1).
  { intros x Hx. rewrite !levels_abs by (try done; apply Forall_app; auto). by rewrite zlen_app. }
  destruct (published_by_level s !! (levels (abs_path ps) + 1)) as [m|] eqn:E.
  - rewrite (scan_spec (published_by_level s)) by (done || apply Hs).
    split; intros (x & -> & Hx & Hsc & Hm); exists x; (split; [done|]); (split; [done|]);
      (split; [done|]); unfold lv, level_map in *; rewrite Hl, E in *; done.
  - split; [by intros ?%elem_of_nil|]. intros (x & -> & Hx & _ & Hm).
    unfold lv, level_map in Hm. rewrite Hl, E in Hm by done. cbn in Hm.
    rewrite lookup_empty in Hm. by destruct Hm.
Qed.

Lemma closed_up s ps n :
  closed (published_by_level s) → Forall comp_ok ps →
  is_Some (lv (published_by_level s) (abs_path ps)) → (n ≤ length ps)%nat →
  is_Some (lv (published_by_level s) (abs_path (take n ps))).
Proof.
  intros Hc Hps Hl. induction ps as [|x ps IH] using rev_ind; intros Hn.
  { by rewrite take_nil. }
  destruct (decide (n = length (ps ++ [x]))) as [->|Hne]; [by rewrite firstn_all|].
  rewrite length_app in Hne, Hn. cbn in Hne, Hn.
  rewrite take_app_le by lia. apply Forall_app in Hps as [Hps Hx].
  apply IH; [done| |lia]. apply (Hc ps x); [by apply Forall_app|done].
Qed.
End Tree.

(** ** Listing by glob *)

Section Matching.
Context {ES : Escaping} {ESO : EscapingOk ES} {LV : Live} {GS : Globset}.

(** The conditions a path has to meet besides its place in the tree *)
Definition wanted (s : Store) (pat : GlobSet) (q : str) : Prop :=
  gs_is_match pat q = true ∧ children s !! default ROOT (dirname q) = None ∧
  (published_only pat = true → is_Some (published_by_path s !! q)).

Lemma elem_scan m p q :
  good p →
  q ∈ take_while (is_parent p) (bt_range (Excluded (with_trailing p)) Unbounded m).*1 ↔
  is_parent p q = true ∧ str_lt (with_trailing p) q ∧ is_Some (m !! q : option Z).
Proof.
  intros Hp. rewrite scan_filter by done. rewrite list_elem_of_filter, list_elem_of_fmap.
  split.
  - intros (Hpar & [q' v] & -> & Hin). apply elem_of_bt_range in Hin as (Ha & _ & Hq).
    cbn in *. apply bool_decide_eq_true in Ha. eauto.
  - intros (Hpar & Hlt & [v Hv]). split; [done|]. exists (q, v). split; [done|].
    apply elem_of_bt_range. cbn. by rewrite bool_decide_true.
Qed.

Lemma matching_level_spec s pat b m q :
  good b →
  q ∈ matching_level s pat b m ↔
  wanted s pat q ∧ is_parent b q = true ∧ str_lt (with_trailing b) q ∧ is_Some (m !! q).
Proof.
  intros Hb. unfold matching_level. rewrite list_elem_of_filter, elem_scan by done.
  unfold wanted. rewrite !andb_true_iff, negb_true_iff, bool_decide_eq_false.
  rewrite <- eq_None_not_Some, orb_true_iff, negb_true_iff, bool_decide_eq_true.
  destruct (published_only pat); naive_solver.
Qed.

Lemma matching_levels_sound fuel s pat g n q :
  good (base g) → q ∈ matching_levels fuel s pat g n →
  wanted s pat q ∧ is_parent (base g) q = true ∧ str_lt (with_trailing (base g)) q ∧
  ∃ k m, n ≤ k ∧ scope_contains (scope g) k = true ∧
    published_by_level s !! k = Some m ∧ is_Some (m !! q).
Proof.
  intros Hb. revert n; induction fuel as [|fuel IH]; intros n; cbn [matching_levels];
    [by intros ?%elem_of_nil|].
  destruct (scope_contains (scope g) n) eqn:Es; [|by intros ?%elem_of_nil].
  destruct (published_by_level s !! n) as [m|] eqn:Em; [|by intros ?%elem_of_nil].
  intros [Hq|Hq]%elem_of_app.
  - apply matching_level_spec in Hq as (H1 & H2 & H3 & H4); [|done].
    split; [done|]. split; [done|]. split; [done|]. exists n, m. split; [lia|done].
  - destruct (IH (n + 1) Hq) as (H1 & H2 & H3 & k & m' & Hk & H4). split; [done|].
    split; [done|]. split; [done|]. exists k, m'. split; [lia|done].
Qed.

Lemma scope_down sc n k : scope_contains sc k = true → n ≤ k → scope_contains sc n = true.
Proof. destruct sc; [done|]. cbn. rewrite !Z.leb_le. lia. Qed.

Lemma matching_levels_complete fuel s pat g n k m q :
  good (base g) → n ≤ k → k - n < Z.of_nat fuel → scope_contains (scope g) k = true →
  (∀ i, n ≤ i ≤ k → is_Some (published_by_level s !! i)) →
  published_by_level s !! k = Some m → q ∈ matching_level s pat (base g) m →
  q ∈ matching_levels fuel s pat g n.
Proof.
  intros Hb. revert n; induction fuel as [|fuel IH]; intros n Hn Hf Hsc Hall Hm Hq; [lia|].
  cbn [matching_levels]. rewrite (scope_down _ _ _ Hsc Hn).
  destruct (Hall n ltac:(lia)) as [m' Em]. rewrite Em. apply elem_of_app.
  destruct (decide (n = k)) as [->|Hne].
  - left. by simplify_eq.
  - right. apply IH; [lia|lia|done| |done|done]. intros i Hi. apply Hall. lia.
Qed.

(** The levels from [n] to [k] are there, so there are that many. *)
Lemma levels_count (l : gmap Z (gmap str Z)) n k :
  n ≤ k → (∀ i, n ≤ i ≤ k → is_Some (l !! i)) → k - n < Z.of_nat (S (size l)).
Proof.
  intros Hn Hall.
  assert (Hsub : (list_to_set (seqZ n (k - n + 1)) : gset Z) ⊆ dom l).
  { intros i [Hi1 Hi2]%elem_of_list_to_set%elem_of_seqZ. apply elem_of_dom, Hall. lia. }
  apply subseteq_size in Hsub. rewrite size_list_to_set in Hsub by apply NoDup_seqZ.
  rewrite length_seqZ, size_dom in Hsub. lia.
Qed.

Lemma matching_globs_head s pat g gs q :
  q ∈ matching_levels (S (size (published_by_level s))) s pat g (levels (base g) + 1) →
  q ∈ matching_globs s pat None (g :: gs).
Proof. intros Hq. cbn [matching_globs negb]. apply elem_of_app. by left. Qed.

Lemma matching_globs_sound s pat cur gs q :
  Forall (fun g => good (base g)) gs → q ∈ matching_globs s pat cur gs →
  wanted s pat q ∧ ∃ g k m, g ∈ gs ∧ is_parent (base g) q = true ∧
    scope_contains (scope g) k = true ∧ published_by_level s !! k = Some m ∧ is_Some (m !! q).
Proof.
  revert cur; induction gs as [|g gs IH]; intros cur Hg; cbn [matching_globs];
    [by intros ?%elem_of_nil|]. apply Forall_cons in Hg as [Hg Hgs].
  intros [Hq|Hq]%elem_of_app.
  - destruct (negb _); [|by apply elem_of_nil in Hq].
    apply matching_levels_sound in Hq as (H1 & H2 & _ & k & m & _ & H3); [|done].
    split; [done|]. exists g, k, m. split; [by left|]. by split.
  - destruct (IH _ Hgs Hq) as (H1 & g' & k & m & Hin & H2). split; [done|].
    exists g', k, m. split; [by right|done].
Qed.
End Matching.
