(* ===== verification/StoreCols.v ===== *)
(** The column counts of inferred tables: for every table and column, the number
    of publications in that column, kept by publishing and unpublishing. *)
From Stdlib Require Import ZArith Lia.
From stdpp Require Import base gmap list strings sorting.
From Stdlib Require Import Strings.Byte.
From S2P Require Import Prelude Varint Pack Containers PackTypes Path PathFacts Order Glob Derive Proto Store StoreFacts.

(** ** Sums over a finite map *)

Definition sumZ (l : list Z) : Z := foldr Z.add 0 l.
#[export] Instance sumZ_perm : Proper ((≡ₚ) ==> (=)) sumZ.
Proof. intros l k H. unfold sumZ. induction H; cbn; lia. Qed.

Section Sum.
Context {V : Type} (w : str → V → Z).
Definition sum_map (m : gmap str V) : Z := sumZ ((fun kv => w kv.1 kv.2) <$> map_to_list m).
Definition weight_at (m : gmap str V) (p : str) : Z :=
  match m !! p with Some v => w p v | None => 0 end.

Lemma sum_map_insert_new m p v : m !! p = None → sum_map (<[p := v]> m) = w p v + sum_map m.
Proof. intros H. unfold sum_map. by rewrite map_to_list_insert. Qed.
Lemma sum_map_delete m p : sum_map (delete p m) = sum_map m - weight_at m p.
Proof.
  unfold weight_at. destruct (m !! p) as [v|] eqn:E.
  - rewrite <- (insert_delete_id m p v E) at 2.
    rewrite sum_map_insert_new by apply lookup_delete_eq. lia.
  - rewrite delete_id by done. lia.
Qed.
Lemma sum_map_insert m p v : sum_map (<[p := v]> m) = sum_map m - weight_at m p + w p v.
Proof.
  rewrite <- (insert_delete_eq m p v), sum_map_insert_new by apply lookup_delete_eq.
  rewrite sum_map_delete. lia.
Qed.
Lemma sum_map_nonneg m : (∀ p v, 0 ≤ w p v) → 0 ≤ sum_map m.
Proof.
  intros Hw. unfold sum_map. induction (map_to_list m) as [|[p v] l IH]; [done|].
  cbn [fmap list_fmap sumZ foldr fst snd]. specialize (Hw p v). unfold sumZ in IH. lia.
Qed.
End Sum.

Lemma sum_map_mono {V} (w w' : str → V → Z) m :
  (∀ p v, w p v ≤ w' p v) → sum_map w m ≤ sum_map w' m.
Proof.
  intros Hw. unfold sum_map. induction (map_to_list m) as [|[p v] l IH]; [done|].
  cbn [fmap list_fmap sumZ foldr fst snd]. specialize (Hw p v).
  unfold sumZ in IH. cbn [fmap] in IH. lia.
Qed.

(** ** Columns *)

Section Columns.
Context {ES : Escaping} {ESO : EscapingOk ES} {LV : Live}.

(** What one path adds to column [c] *)
Definition col_weight (c : str * str) (p : str) (X : ids) : Z :=
  if decide (column_path_parts p = Some c) then Z.of_nat (size X) else 0.
Definition col_sum (bp : gmap str ids) (root name : str) : Z := sum_map (col_weight (root, name)) bp.

Definition col_get (s : Store) (root name : str) : Z :=
  default 0 (default ∅ (columns s !! root) !! name).

Definition cols_wf (s : Store) : Prop :=
  ∀ root m, columns s !! root = Some m →
    m ≠ ∅ ∧ ∀ n c, m !! n = Some c → 0 < c < 2 ^ 64.
Definition cols_ok (s : Store) : Prop :=
  cols_wf s ∧ ∀ root name, col_get s root name = col_sum (published_by_path s) root name.

Lemma name_canonical x : comp_ok x → path_from x = x.
Proof.
  intros (Hne & Hf & _). unfold path_from.
  assert (Hr : is_absolute x = false).
  { unfold is_absolute, starts_with. apply bool_decide_eq_false. intros [t ->].
    by specialize (Hf O eq_refl). }
  assert (Hp : parts x = [x]) by (rewrite parts_rel by done; by apply split_from_free).
  assert (is_canonical x = true) as ->; [|done].
  apply is_canonical_iff. rewrite Hp. by constructor.
Qed.

Lemma column_parts_good ps root name :
  Forall comp_ok ps → column_path_parts (abs_path ps) = Some (root, name) →
  good root ∧ comp_ok name.
Proof.
  intros Hps. unfold column_path_parts.
  destruct ps as [|x ps _] using rev_ind; [by rewrite basename_root|].
  apply Forall_app in Hps as [Hps Hx]. apply Forall_cons in Hx as [Hx _].
  rewrite basename_snoc, dirname_snoc by done. case_decide; [done|].
  destruct ps as [|y ps _] using rev_ind; [done|].
  apply Forall_app in Hps as [Hps Hy]. apply Forall_cons in Hy as [Hy _].
  rewrite dirname_snoc by done. case_decide; [done|]. intros [= <- <-].
  split; [by exists ps|done].
Qed.

Lemma col_get_insert s root m r n :
  col_get (set_columns s (<[root := m]> (columns s))) r n =
    if decide (r = root) then default 0 (m !! n) else col_get s r n.
Proof.
  unfold col_get. fields. rewrite lookup_insert. goal_decide H.
  - subst. by rewrite decide_True.
  - by rewrite decide_False.
Qed.
Lemma col_get_some s root m n : columns s !! root = Some m → col_get s root n = default 0 (m !! n).
Proof. intros E. unfold col_get. by rewrite E. Qed.
Lemma col_get_none s root n : columns s !! root = None → col_get s root n = 0.
Proof. intros E. unfold col_get. rewrite E. cbn. by rewrite lookup_empty. Qed.

Lemma wf_insert s root m :
  cols_wf s → m ≠ ∅ → (∀ n c, m !! n = Some c → 0 < c < 2 ^ 64) →
  cols_wf (set_columns s (<[root := m]> (columns s))).
Proof.
  intros Hw Hm Hc r m'. fields. rewrite lookup_insert. goal_decide H; [|by apply Hw].
  by intros [= <-].
Qed.

Lemma entry_insert (m : gmap str Z) n v k c :
  (∀ n c, m !! n = Some c → 0 < c < 2 ^ 64) → 0 < v < 2 ^ 64 →
  <[n := v]> m !! k = Some c → 0 < c < 2 ^ 64.
Proof. intros Hm Hv. rewrite lookup_insert. goal_decide H; [by intros [= <-]|apply Hm]. Qed.

Lemma add_column_spec s ps :
  Forall comp_ok ps → cols_wf s →
  (∀ root name, column_path_parts (abs_path ps) = Some (root, name) →
     col_get s root name + 1 < 2 ^ 64) →
  cols_wf (add_column s (abs_path ps)) ∧
  ∀ r n, col_get (add_column s (abs_path ps)) r n =
    col_get s r n + (if decide (column_path_parts (abs_path ps) = Some (r, n)) then 1 else 0).
Proof.
  intros Hps Hw Hb. unfold add_column.
  destruct (column_path_parts (abs_path ps)) as [[root name]|] eqn:E.
  2:{ split; [done|]. intros r n. rewrite decide_False by done. lia. }
  destruct (column_parts_good ps root name Hps E) as [Hg Hn].
  rewrite (good_levels root Hg), (name_canonical name Hn).
  specialize (Hb root name eq_refl).
  assert (Hd : ∀ r n v, 0 ≤ v →
    (if decide (r = root) then if decide (n = name) then v + 1 else col_get s root n
     else col_get s r n) = col_get s r n + (if decide (Some (root, name) = Some (r, n)) then 1 else 0)
    ∨ v ≠ col_get s root name).
  { intros r n v _. destruct (decide (v = col_get s root name)) as [->|]; [left|by right].
    destruct (decide (r = root)) as [->|Hr], (decide (n = name)) as [->|Hn'];
      destruct (decide _) as [He|He]; try (by simplify_eq); lia. }
  assert (Hge : 0 ≤ col_get s root name).
  { unfold col_get. destruct (columns s !! root) as [m|] eqn:Em; cbn; [|by rewrite lookup_empty].
    destruct (m !! name) as [c|] eqn:Ec; cbn; [|done]. destruct (Hw _ _ Em) as [_ H].
    specialize (H _ _ Ec). lia. }
  destruct (columns s !! root) as [m|] eqn:Em.
  - destruct (Hw _ _ Em) as [Hne Hc]. pose proof (col_get_some s root m name Em) as Hcg.
    destruct (m !! name) as [c|] eqn:Ec; cbn in Hcg.
    + assert (Hi : incr c = c + 1) by (apply wrap_small; specialize (Hc _ _ Ec); unfold in_u; lia).
      rewrite Hi. specialize (Hc _ _ Ec) as Hc'. split.
      * apply wf_insert; [done|apply insert_non_empty|]. intros k c'.
        apply entry_insert; [done|lia].
      * intros r n. rewrite col_get_insert. destruct (Hd r n c) as [<-|]; [lia| |congruence].
        case_decide; [subst|done]. rewrite lookup_insert, (col_get_some s root m n Em).
        destruct (decide (n = name)) as [->|]; [by rewrite decide_True|by rewrite decide_False].
    + split.
      * apply wf_insert; [done|apply insert_non_empty|]. intros k c'. by apply entry_insert.
      * intros r n. rewrite col_get_insert. destruct (Hd r n 0) as [<-|]; [lia| |congruence].
        case_decide; [subst|done]. rewrite lookup_insert, (col_get_some s root m n Em).
        destruct (decide (n = name)) as [->|]; [by rewrite decide_True|by rewrite decide_False].
  - pose proof (col_get_none s root name Em) as Hcg. split.
    + apply wf_insert; [done|apply insert_non_empty|]. intros k c'.
      apply (entry_insert ∅); [intros ? ?; by rewrite lookup_empty|lia].
    + intros r n. rewrite col_get_insert. destruct (Hd r n 0) as [<-|]; [lia| |congruence].
      case_decide; [subst|done]. rewrite (col_get_none s root n Em).
      destruct (decide (n = name)) as [->|].
      * by rewrite lookup_singleton_eq.
      * by rewrite lookup_singleton_ne.
Qed.

Lemma remove_column_spec s ps :
  Forall comp_ok ps → cols_wf s →
  (∀ root name, column_path_parts (abs_path ps) = Some (root, name) → 0 < col_get s root name) →
  cols_wf (remove_column s (abs_path ps)) ∧
  ∀ r n, col_get (remove_column s (abs_path ps)) r n =
    col_get s r n - (if decide (column_path_parts (abs_path ps) = Some (r, n)) then 1 else 0).
Proof.
  intros Hps Hw Hb. unfold remove_column.
  destruct (column_path_parts (abs_path ps)) as [[root name]|] eqn:E.
  2:{ split; [done|]. intros r n. rewrite decide_False by done. lia. }
  specialize (Hb root name eq_refl).
  destruct (columns s !! root) as [m|] eqn:Em; [|rewrite (col_get_none s root name Em) in Hb; lia].
  pose proof (fun n => col_get_some s root m n Em) as Hcg. rewrite Hcg in Hb.
  destruct (m !! name) as [c|] eqn:Ec; cbn in Hb; [|lia].
  destruct (Hw _ _ Em) as [Hne Hc]. specialize (Hc _ _ Ec) as Hcr.
  assert (wrap 64 (c - 1) = c - 1) as -> by (apply wrap_small; unfold in_u; lia).
  assert (Hd : ∀ r n, col_get s r n - (if decide (Some (root, name) = Some (r, n)) then 1 else 0) =
    if decide (r = root) then if decide (n = name) then c - 1 else default 0 (m !! n)
    else col_get s r n).
  { intros r n. destruct (decide (r = root)) as [->|Hr], (decide (n = name)) as [->|Hn];
      destruct (decide (Some _ = _)) as [He|He]; try (by simplify_eq); rewrite ?Hcg, ?Ec; cbn; lia. }
  destruct (Z.eqb_spec (c - 1) 0) as [Hz|Hz].
  - assert (Hdel : ∀ n, default 0 (delete name m !! n) =
      if decide (n = name) then c - 1 else default 0 (m !! n)).
    { intros n. rewrite lookup_delete. destruct (decide (n = name)) as [->|].
      - rewrite decide_True by done. cbn. lia.
      - by rewrite decide_False. }
    case_decide as He; split.
    + intros r m'. fields. rewrite lookup_delete. goal_decide H; [done|apply Hw].
    + intros r n. rewrite Hd, <- Hdel. unfold col_get. fields. rewrite lookup_delete.
      destruct (decide (r = root)) as [->|]; [rewrite decide_True by done|by rewrite decide_False].
      cbn. by rewrite He.
    + apply wf_insert; [done|done|]. intros k c'. rewrite lookup_delete.
      goal_decide H; [done|apply Hc].
    + intros r n. by rewrite Hd, <- Hdel, col_get_insert.
  - split.
    + apply wf_insert; [done|apply insert_non_empty|]. intros k c'.
      apply entry_insert; [done|lia].
    + intros r n. rewrite Hd, col_get_insert, lookup_insert. case_decide; [|done].
      destruct (decide (n = name)) as [->|]; [by rewrite decide_True|by rewrite decide_False].
Qed.

Lemma col_weight_nonneg c p X : 0 ≤ col_weight c p X.
Proof. unfold col_weight. case_decide; lia. Qed.
Lemma col_weight_empty c p : col_weight c p ∅ = 0.
Proof. unfold col_weight. rewrite size_empty. by case_decide. Qed.
Lemma col_weight_at c bp p : weight_at (col_weight c) bp p = col_weight c p (ids_at bp p).
Proof.
  unfold weight_at, ids_at. destruct (bp !! p); [done|]. cbn. by rewrite col_weight_empty.
Qed.

Lemma col_sum_insert bp p X r n :
  col_sum (<[p := X]> bp) r n =
    col_sum bp r n - col_weight (r, n) p (ids_at bp p) + col_weight (r, n) p X.
Proof. unfold col_sum. by rewrite sum_map_insert, col_weight_at. Qed.
Lemma col_sum_drop bp p id r n :
  col_sum (drop_id bp p id) r n =
    col_sum bp r n - col_weight (r, n) p (ids_at bp p) + col_weight (r, n) p (ids_at bp p ∖ {[id]}).
Proof.
  unfold drop_id. case_decide as He.
  - rewrite He, col_weight_empty. unfold col_sum. rewrite sum_map_delete, col_weight_at. lia.
  - apply col_sum_insert.
Qed.

Lemma size_add (X : ids) id :
  Z.of_nat (size ({[id]} ∪ X)) = Z.of_nat (size X) + (if decide (id ∈ X) then 0 else 1).
Proof.
  case_decide as H.
  - assert ({[id]} ∪ X = X) as -> by set_solver. lia.
  - rewrite size_union, size_singleton by set_solver. lia.
Qed.
Lemma size_del (X : ids) id :
  Z.of_nat (size (X ∖ {[id]})) = Z.of_nat (size X) - (if decide (id ∈ X) then 1 else 0).
Proof.
  pose proof (size_add (X ∖ {[id]}) id) as Ha.
  rewrite decide_False in Ha by set_solver. case_decide as H.
  - assert ({[id]} ∪ X ∖ {[id]} = X) as He.
    { apply leibniz_equiv. intros x. destruct (decide (x = id)); set_solver. }
    rewrite He in Ha. lia.
  - assert (X ∖ {[id]} = X) as -> by set_solver. lia.
Qed.

Lemma col_sum_ge bp p r n :
  column_path_parts p = Some (r, n) → Z.of_nat (size (ids_at bp p)) ≤ col_sum bp r n.
Proof.
  intros E. pose proof (sum_map_nonneg (col_weight (r, n)) (delete p bp)
    (col_weight_nonneg _)) as Hn.
  rewrite sum_map_delete, col_weight_at in Hn.
  assert (col_weight (r, n) p (ids_at bp p) = Z.of_nat (size (ids_at bp p))) as He
    by (unfold col_weight; by rewrite decide_True).
  rewrite He in Hn. unfold col_sum. lia.
Qed.

Lemma publish_cols s ps pub (d : bool) fl :
  store_ok s → Forall comp_ok ps → cols_ok s →
  let s' := publish s (abs_path ps) pub d fl in
  (∀ r n, col_sum (published_by_path s') r n < 2 ^ 64) → cols_ok s'.
Proof.
  intros Hs Hps [Hw Hc] s' Hb. unfold cols_ok.
  destruct (publish_fields s (abs_path ps) pub d fl (so_self s Hs))
    as (_ & _ & Hp & _ & _ & _ & _ & _ & Hcols & _). fold s' in Hp, Hcols.
  unfold cols_wf, col_get. rewrite Hcols. rewrite Hp in Hb |- *. clear Hcols Hp s'.
  destruct d; [done|]. cbn [negb andb].
  assert (Hsum : ∀ r n, col_sum (<[abs_path ps := {[pub_id pub]} ∪
      ids_at (published_by_path s) (abs_path ps)]> (published_by_path s)) r n =
    col_sum (published_by_path s) r n +
    if enters s (abs_path ps) (pub_id pub) false
    then if decide (column_path_parts (abs_path ps) = Some (r, n)) then 1 else 0 else 0).
  { intros r n. rewrite col_sum_insert. unfold col_weight, enters.
    destruct (decide (column_path_parts _ = _)); [|case_bool_decide; lia].
    rewrite size_add. case_bool_decide as H; case_decide; try done; lia. }
  destruct (enters s (abs_path ps) (pub_id pub) false) eqn:Ee.
  - destruct (add_column_spec s ps Hps Hw) as [Hw' Hg].
    { intros root name E. specialize (Hb root name). rewrite Hsum, decide_True in Hb by done.
      rewrite Hc. lia. }
    split; [exact Hw'|]. intros r n. rewrite Hsum, <- Hc. exact (Hg r n).
  - split; [exact Hw|]. intros r n. rewrite Hsum, <- Hc. unfold col_get. lia.
Qed.

Lemma unpublish_cols s ps pub (d : bool) :
  store_ok s → Forall comp_ok ps → cols_ok s → cols_ok (unpublish s pub d (abs_path ps)).
Proof.
  intros Hs Hps [Hw Hc]. set (path := abs_path ps).
  destruct (unpublish_parts s pub d path Hs) as (_ & _ & _ & Hcols).
  assert (Hp : published_by_path (unpublish s pub d path) =
    if d then published_by_path s else drop_id (published_by_path s) path (pub_id pub)).
  { destruct (unpublish_eq s pub d path (so_pub s Hs) (so_def s Hs)) as [h ->]. cbv zeta.
    pose proof (rel_fields s (pub_id pub) d path h) as Hf. cbv zeta in Hf.
    destruct Hf as (Hf & _). destruct (leaves s path (pub_id pub) d); [|done].
    pose proof (cleanup_fields (unpublish_rel s (pub_id pub) d path h) pub path) as Hcl.
    cbv zeta in Hcl. destruct Hcl as (-> & _). done. }
  unfold cols_ok, cols_wf, col_get. rewrite Hcols, Hp. clear Hcols Hp.
  destruct d; [done|]. cbn [negb andb].
  assert (Hsum : ∀ r n, col_sum (drop_id (published_by_path s) path (pub_id pub)) r n =
    col_sum (published_by_path s) r n -
    if leaves s path (pub_id pub) false
    then if decide (column_path_parts path = Some (r, n)) then 1 else 0 else 0).
  { intros r n. rewrite col_sum_drop. unfold col_weight, leaves.
    destruct (decide (column_path_parts _ = _)); [|case_bool_decide; lia].
    rewrite size_del. case_bool_decide as H; case_decide; try done; lia. }
  destruct (leaves s path (pub_id pub) false) eqn:El.
  - destruct (remove_column_spec s ps Hps Hw) as [Hw' Hg].
    { intros root name E. rewrite Hc. pose proof (col_sum_ge (published_by_path s) _ _ _ E).
      unfold leaves in El. apply bool_decide_eq_true in El. fold path in H.
      assert (size (ids_at (published_by_path s) path) ≠ 0%nat); [|lia].
      intros Hz%size_empty_inv. apply leibniz_equiv in Hz. rewrite Hz in El. set_solver. }
    split; [exact Hw'|]. intros r n. rewrite Hsum, <- Hc. exact (Hg r n).
  - split; [exact Hw|]. intros r n. rewrite Hsum, <- Hc. unfold col_get. lia.
Qed.
End Columns.
