(* ===== verification/StoreClaims.v ===== *)
(** What the resolver's store promises: runs of requests refine a relation
    between paths and publishers, resolving and listing report that relation,
    change numbers and column counts follow it, and the requests for which the
    code falls short of this. *)
From Stdlib Require Import ZArith Lia.
From stdpp Require Import base gmap list strings sorting.
From Stdlib Require Import Strings.Byte.
From S2P Require Import Prelude Varint Pack Containers PackTypes Path PathFacts Order Glob Derive Proto Store StoreFacts StoreRead StoreCols.

(** ** Change numbers *)

Section Changes.
Context {ES : Escaping} {ESO : EscapingOk ES} {LV : Live}.







End Changes.

(** ** Reading the whole tree *)

Section Whole.
Context {ES : Escaping} {ESO : EscapingOk ES} {LV : Live}.

Lemma invariant_holds s : store_ok s → invariant_check s = true.
Proof.
  intros Hs. apply forallb_forall. intros [id ps] Hin%list_elem_of_In%elem_of_map_to_list.
  apply forallb_forall. intros p Hp%list_elem_of_In%elem_of_elements.
  assert (Hid : id ∈ ids_at (published_by_path s) p).
  { apply (ix_rel _ _ (so_pub s Hs)). unfold paths_of. by rewrite Hin. }
  unfold ids_at in Hid. destruct (published_by_path s !! p); [by apply bool_decide_eq_true|].
  set_solver.
Qed.

Context {GS : Globset}.

End Whole.

(** ** The contract *)

Section Theorems.
Context {ES : Escaping} {ESO : EscapingOk ES} {LV : Live}.

(** C1: The store implements its specification. Started with any parent and
    children, after any sequence of publish, unpublish and clear requests whose
    paths are canonical and belong to this server, and with publisher ids that
    stand for one publisher each, the publishers recorded at every path are
    those of the abstract relation that adds, removes and clears pairs; the
    indices by path and by id, the publisher tables, the flags and the levels
    agree with each other, whatever order the hash sets are drained in and
    whichever cached sets the garbage collection finds referenced; and the
    store's own check passes. *)
Theorem store_refines_spec (who : PublisherId → Publisher) drain par ch os :
  (∀ X, drain X ≡ₚ elements X) →
  (∀ p, is_Some (ch !! p) → good p) →
  Forall (op_ok who ch) os →
  let s := foldl (step drain) (Store_new par ch) os in
  store_ok s ∧
  (∀ e q, pubs_at s e q = foldl spec_step (fun _ _ => ∅) os e q) ∧
  invariant_check s = true.
Proof.
  intros Hdr Hch Hos. destruct (Store_new_run_ok who par ch Hch) as (Hr & Hc & He).
  destruct (run_spec who drain (Store_new par ch) (fun _ _ => ∅) os Hdr Hr) as [(Hs & _) Hp];
    [by rewrite Hc|done|].
  split; [done|]. split; [done|]. by apply invariant_holds.
Qed.


(** Defaults and referrals are found by the greatest key not after the path.
    What is found is an ancestor's entry, and the greatest such key; an entry at
    an ancestor is found when no other key lies between it and the path in
    string order. A path outside the part of the tree this server is
    responsible for is referred to the parent at the root. *)
Theorem nearest_ancestor s path :
  let own := match parent s with Some r => is_parent (ref_path r) path | None => true end in
  (own = false → ∃ r, parent s = Some r ∧
     check_referral s path = Some (MkReferral (path_from (lit "/")) (ref_ttl r) (ref_addrs r))) ∧
  (own = true → ∀ r, check_referral s path = Some r →
     ∃ p, children s !! p = Some r ∧ is_parent p path = true ∧
       ∀ q, is_Some (children s !! q) → str_le q path → str_le q p) ∧
  (own = true → ∀ p r, children s !! p = Some r → is_parent p path = true → str_le p path →
     (∀ q, is_Some (children s !! q) → str_lt p q → str_lt path q) →
     check_referral s path = Some r) ∧
  (∀ p X, defaults_by_path s !! p = Some X → is_parent p path = true → str_le p path →
     (∀ q, is_Some (defaults_by_path s !! q) → str_lt p q → str_lt path q) →
     default_ids s path = X).
Proof.
  intros own. unfold check_referral.
  change (last (bt_range Unbounded (Included path) (children s))) with (nearest (children s) path).
  assert (Hown : ∀ o : option Referral,
    own = true → (match parent s with Some r => if negb (is_parent (ref_path r) path)
      then Some (MkReferral (path_from (lit "/")) (ref_ttl r) (ref_addrs r)) else o
      | None => o end) = o).
  { intros o. unfold own. destruct (parent s); [|done]. by intros ->. }
  split; [|split; [|split]].
  - unfold own. destruct (parent s) as [r|]; [|done]. intros ->. eauto.
  - intros Ho r. rewrite Hown by done.
    destruct (nearest (children s) path) as [[p r']|] eqn:E; [|done].
    destruct (is_parent p path) eqn:Ep; [|done]. intros [= ->].
    apply nearest_spec in E as (Hp & _ & Hmax). eauto.
  - intros Ho p r Hp Hpar Hle Hno. rewrite Hown by done.
    by rewrite (nearest_is _ path p r Hp Hle Hno), Hpar.
  - intros p X Hp Hpar Hle Hno. unfold default_ids.
    by rewrite (nearest_is _ path p X Hp Hle Hno), Hpar.
Qed.

(** C3: Listing a directory gives its direct children in the tree of levels,
    except children of the root whose name starts with a byte below '/'.
    While the tree is closed under directories, everything published is found by
    walking down from the root through such lists: each of its ancestors below
    the first is in the list of the one above. Publishing keeps the tree closed,
    and so does unpublishing a path that stays published or has nothing listed
    below it. *)
Theorem listing_reaches_published s ps pub (d : bool) fl :
  store_ok s → Forall comp_ok ps →
  (∀ q, q ∈ list_paths s (abs_path ps) ↔
     ∃ x, q = abs_path (ps ++ [x]) ∧ comp_ok x ∧ scannable ps x ∧
       is_Some (lv (published_by_level s) q)) ∧
  (closed (published_by_level s) →
   closed (published_by_level (publish s (abs_path ps) pub d fl)) ∧
   ((leaf s ps ∨ ¬ gone (unpublish s pub d (abs_path ps)) (abs_path ps)) → ps ≠ [] →
    closed (published_by_level (unpublish s pub d (abs_path ps)))) ∧
   (pubs_at s d (abs_path ps) ≠ ∅ → ∀ qs x rs, ps = qs ++ x :: rs → scannable qs x →
      abs_path (qs ++ [x]) ∈ list_paths s (abs_path qs))).
Proof.
  intros Hs Hps. split; [intros q; by apply list_paths_spec|]. intros Hc.
  split; [by apply publish_closed|]. split; [by intros; apply unpublish_closed|].
  intros Hne qs x rs -> Hsc.
  assert (Hl : is_Some (lv (published_by_level s) (abs_path (qs ++ x :: rs)))).
  { apply (so_listed s Hs).
    - right. unfold pubs_at in Hne.
      destruct d; [right; left; by apply (index_lookup _ _ _ (so_def s Hs))
                  |left; by apply (index_lookup _ _ _ (so_pub s Hs))].
    - rewrite abs_path_root by done. by destruct qs. }
  pose proof (closed_up s _ (length (qs ++ [x])) Hc Hps Hl) as Hup.
  replace (qs ++ x :: rs) with ((qs ++ [x]) ++ rs) in Hup, Hps by (by rewrite <- app_assoc).
  rewrite take_app_length in Hup. apply Forall_app in Hps as [Hqx _].
  pose proof Hqx as Hq. apply Forall_app in Hq as [Hq Hx]. rewrite Forall_singleton in Hx.
  apply list_paths_spec; [done|done|]. exists x. split; [done|]. split; [done|].
  split; [done|]. apply Hup. rewrite !length_app. cbn. lia.
Qed.


(** The columns of a table. The count kept for a column is the number of
    publications, over all rows of the table, of that column, a column is kept
    exactly while it is published in some row, and no count overflows as long as
    fewer than 2^64 publications exist. Publishing and unpublishing preserve
    this. *)
Theorem columns_count s ps pub (d : bool) fl :
  store_ok s → Forall comp_ok ps → cols_ok s →
  ((∀ r n, col_sum (published_by_path (publish s (abs_path ps) pub d fl)) r n < 2 ^ 64) →
   cols_ok (publish s (abs_path ps) pub d fl)) ∧
  cols_ok (unpublish s pub d (abs_path ps)).
Proof. intros Hs Hps Hc. split; [by apply publish_cols|by apply unpublish_cols]. Qed.


(** What a token vouches for. The bytes hashed for a subscription determine
    the secret, the time, the permissions and the path. The bytes hashed for a
    user do not determine the user: the fields are joined without separators, so
    that two users with different names and groups get the same token from every
    publisher, whatever the hash function. *)
Theorem token_data {SH : Sha3} sec sec' now now' perm perm' path path' secret addr tok :
  in_u 128 (uval sec) → in_u 128 (uval sec') → in_u 64 (uval now) → in_u 64 (uval now') →
  in_u 32 (uval perm) → in_u 32 (uval perm') →
  (concat (sign_data sec now perm path) = concat (sign_data sec' now' perm' path') →
   sec = sec' ∧ now = now' ∧ perm = perm' ∧ path = path') ∧
  let alice := MkUserInfo (lit "ann") (lit "adm") [lit "in"] addr tok in
  let eve := MkUserInfo (lit "ann") (lit "admin") [] addr tok in
  ui_token (signed_user secret alice) = ui_token (signed_user secret eve).
Proof.
  intros H1 H2 H3 H4 H5 H6. split; [|done]. unfold sign_data. cbn [concat].
  rewrite !app_nil_r. intros He.
  assert (Hi : ∀ n (a b : uint n), in_u (8 * Z.of_nat n) (uval a) → in_u (8 * Z.of_nat n) (uval b) →
    be_bytes n (uval a) = be_bytes n (uval b) → a = b).
  { intros n [a] [b] Ha Hb He'%(f_equal be_int). rewrite !be_int_bytes, !wrap_small in He' by done.
    cbn in He'. by subst. }
  apply app_inj_1 in He as [E1 He]; [|by rewrite !be_bytes_length].
  apply app_inj_1 in He as [E2 He]; [|by rewrite !be_bytes_length].
  apply app_inj_1 in He as [E3 ->]; [|by rewrite !be_bytes_length].
  split; [by apply (Hi 16%nat)|]. split; [by apply (Hi 8%nat)|]. split; [by apply (Hi 4%nat)|done].
Qed.
End Theorems.

(** ** A concrete store *)

Section Demo.
Context {LV : Live}.
Abbreviation dstep := (step (ES := escaping_ref) elements).
Abbreviation dnew := (Store_new (ES := escaping_ref)).

Definition demo_addr : SocketAddr := V4 (map Zb [10; 0; 0; 1]) (UInt 4564).
Definition demo_pub (n : Z) : Publisher :=
  MkPublisher demo_addr (MkId n) (V4 (map Zb [10; 0; 0; n]) (UInt 5000)) Sha3_512 TA_Anonymous None
    Normal.
Definition demo_who (id : PublisherId) : Publisher := demo_pub (inner id).
Definition pub_at (p : string) (n : Z) : op := OpPublish (lit p) (demo_pub n) false None.
Definition unpub_at (p : string) (n : Z) : op := OpUnpublish (demo_pub n) false (lit p).
Definition demo_ops : list op :=
  [pub_at "/t/r1/c" 1; pub_at "/t/r2/c" 1; pub_at "/t/r1/c" 2; unpub_at "/t/r2/c" 1;
   OpPublish (lit "/t") (demo_pub 2) true (Some (UInt 1)); OpClear (demo_pub 2);
   pub_at "/t/r3/d" 3].
Definition demo_store : Store := foldl dstep (dnew None ∅) demo_ops.

(** Where the store's answers fall short of what was published. A path that
    is unpublished while paths below it stay published vanishes from the list of
    its directory together with the way to them; a child of the root whose name
    sorts before '/' is never listed; a child server is not found for a path
    below it when another child's name extends its name with a byte below '/';
    a pattern whose base lies below the base of the pattern before it is
    skipped, although the one before has a narrower scope. *)
Theorem store_gaps :
  (let s := foldl dstep (dnew None ∅) [pub_at "/a" 1; pub_at "/a/b" 1; unpub_at "/a" 1] in
   list_paths (ES := escaping_ref) s (lit "/") = [] ∧
   list_paths (ES := escaping_ref) s (lit "/a") = [lit "/a/b"]) ∧
  (let s := foldl dstep (dnew None ∅) [pub_at "/-x" 1; pub_at "/x" 1] in
   list_paths (ES := escaping_ref) s (lit "/") = [lit "/x"] ∧
   is_Some (published_by_path s !! lit "/-x")) ∧
  (let r p := MkReferral p None [] in
   let s := dnew None (<[lit "/a" := r (lit "/a")]> {[lit "/a-b" := r (lit "/a-b")]}) in
   check_referral (ES := escaping_ref) s (lit "/a/x") = None ∧
   check_referral (ES := escaping_ref) s (lit "/a") = Some (r (lit "/a"))) ∧
  (let g p b n := MkGlob (GS := prefix_globs) (lit p) (lit b) (Finite n) (lit p) in
   let gs := [g "/a/*" "/a" 2; g "/a/b/*" "/a/b" 3] in
   let pat := MkGlobSet (GS := prefix_globs) gs true [lit "/a/*"; lit "/a/b/*"] in
   let s := foldl dstep (dnew None ∅) [pub_at "/a/b/x" 1] in
   list_matching (ES := escaping_ref) s pat = [] ∧
   gs_is_match pat (lit "/a/b/x") = true).
Proof.
  split; [split; by vm_compute|]. split; [split; [by vm_compute|]|].
  { apply (bool_decide_eq_true_1 _). by vm_compute. }
  split; [split; by vm_compute|]. split; by vm_compute.
Qed.
End Demo.

(** ** The theorems at the concrete store *)

Definition demo_live : Live := fun _ => true.
Definition demo_sha : Sha3 := fun s => s.
Abbreviation demo := (demo_store (LV := demo_live)).

Lemma good_lit ps : forallb comp_okb ps = true → good (abs_path ps).
Proof. intros H%comps_ok_dec. by exists ps. Qed.

Lemma demo_ops_ok : Forall (op_ok demo_who ∅) demo_ops.
Proof.
  assert (Hp : ∀ ps n, forallb comp_okb ps = true →
    good (abs_path ps) ∧ (∅ : gmap str Referral) !! abs_path ps = None ∧
    demo_who (pub_id (demo_pub n)) = demo_pub n) by (intros; split; [by apply good_lit|done]).
  apply Forall_cons_2; [exact (Hp [lit "t"; lit "r1"; lit "c"] 1 eq_refl)|].
  apply Forall_cons_2; [exact (Hp [lit "t"; lit "r2"; lit "c"] 1 eq_refl)|].
  apply Forall_cons_2; [exact (Hp [lit "t"; lit "r1"; lit "c"] 2 eq_refl)|].
  apply Forall_cons_2; [exact (Hp [lit "t"; lit "r2"; lit "c"] 1 eq_refl)|].
  apply Forall_cons_2; [exact (Hp [lit "t"] 2 eq_refl)|].
  apply Forall_cons_2; [done|].
  apply Forall_cons_2; [exact (Hp [lit "t"; lit "r3"; lit "d"] 3 eq_refl)|constructor].
Qed.


Lemma store_refines_spec_witness :
  pubs_at demo false (lit "/t/r1/c") = {[MkId 1]} ∧
  invariant_check demo = true.
Proof.
  destruct (store_refines_spec (ES := escaping_ref) (LV := demo_live) demo_who elements None ∅
    demo_ops ltac:(done) ltac:(by intros p [? ?]) demo_ops_ok) as (_ & Hp & Hi).
  split; [|exact Hi]. etransitivity; [exact (Hp false (lit "/t/r1/c"))|by vm_compute].
Defined.


Definition demo_referrals : Store :=
  Store_new (ES := escaping_ref) (Some (MkReferral (lit "/us") None []))
    {[lit "/us/ny" := MkReferral (lit "/us/ny") None []]}.

Lemma nearest_ancestor_witness :
  check_referral (ES := escaping_ref) demo_referrals (lit "/us/ny/x") =
    Some (MkReferral (lit "/us/ny") None []) ∧
  check_referral (ES := escaping_ref) demo_referrals (lit "/eu") =
    Some (MkReferral (lit "/") None []).
Proof.
  split.
  - apply (proj1 (proj2 (proj2 (nearest_ancestor (ES := escaping_ref) demo_referrals
      (lit "/us/ny/x")))) eq_refl (lit "/us/ny")); [by vm_compute..| |].
    + apply (bool_decide_eq_true_1 _). by vm_compute.
    + intros q [r Hq]. change (children demo_referrals) with
        ({[lit "/us/ny" := MkReferral (lit "/us/ny") None []]} : gmap str Referral) in Hq.
      apply lookup_singleton_Some in Hq as [<- _]. intros Hlt. by destruct (str_lt_irrefl _ Hlt).
  - destruct (proj1 (nearest_ancestor (ES := escaping_ref) demo_referrals (lit "/eu")) eq_refl)
      as (r & Hr & Hc).
    vm_compute in Hr. injection Hr as <-. etransitivity; [exact Hc|]. by vm_compute.
Defined.

(** Publications only: a closed tree *)
Definition demo_comps1 : list str := [lit "t"; lit "r1"; lit "c"].
Definition demo_comps2 : list str := [lit "t"; lit "r3"; lit "d"].
Abbreviation dpub := (publish (ES := escaping_ref) (LV := demo_live)).
Definition demo_tree : Store :=
  dpub (dpub (Store_new (ES := escaping_ref) None ∅) (abs_path demo_comps1) (demo_pub 1) false None)
    (abs_path demo_comps2) (demo_pub 3) false None.

Lemma demo_tree_ok :
  store_ok (ES := escaping_ref) demo_tree ∧ closed (ES := escaping_ref) (published_by_level demo_tree) ∧
  cols_ok (ES := escaping_ref) demo_tree.
Proof.
  destruct (Store_new_run_ok (ES := escaping_ref) demo_who None ∅) as ((Hs & _) & _);
    [by intros p [? ?]|].
  set (s0 := Store_new (ES := escaping_ref) None ∅) in *.
  assert (Hl0 : published_by_level s0 = ∅) by (by vm_compute).
  assert (Hk0 : columns s0 = ∅) by (by vm_compute).
  assert (Hp0 : published_by_path s0 = ∅) by (by vm_compute).
  assert (Hc0 : closed (ES := escaping_ref) (published_by_level s0)).
  { rewrite Hl0. intros ps x _ [v Hv]. unfold lv, level_map in Hv.
    rewrite lookup_empty in Hv. cbn in Hv. by apply lookup_empty_Some in Hv. }
  assert (Hcols0 : cols_ok (ES := escaping_ref) s0).
  { unfold cols_ok, cols_wf, col_get. rewrite Hk0, Hp0. split; [by intros r m ?|]. intros r n.
    by rewrite lookup_empty. }
  assert (H1 : Forall comp_ok demo_comps1) by (by apply comps_ok_dec; vm_compute).
  assert (H2 : Forall comp_ok demo_comps2) by (by apply comps_ok_dec; vm_compute).
  assert (Hpub : ∀ s ps n, Forall comp_ok ps →
    let s' := dpub s (abs_path ps) (demo_pub n) false None in
    sum_map (fun _ (X : ids) => Z.of_nat (size X)) (published_by_path s') < 2 ^ 64 →
    store_ok (ES := escaping_ref) s ∧ closed (ES := escaping_ref) (published_by_level s) ∧
      cols_ok (ES := escaping_ref) s →
    store_ok (ES := escaping_ref) s' ∧ closed (ES := escaping_ref) (published_by_level s') ∧
      cols_ok (ES := escaping_ref) s').
  { intros s ps n Hps s' Hb (Hs' & Hc' & Hk'). split; [by apply publish_ok|].
    split; [by apply publish_closed|]. apply publish_cols; [done..|]. intros r c.
    eapply Z.le_lt_trans; [|exact Hb]. apply sum_map_mono. intros p X. unfold col_weight.
    case_decide; lia. }
  apply (Hpub _ demo_comps2 3 H2); [by vm_compute|].
  apply (Hpub _ demo_comps1 1 H1); [by vm_compute|]. by split.
Qed.

Lemma listing_reaches_published_witness :
  lit "/t/r1" ∈ list_paths (ES := escaping_ref) demo_tree (lit "/t").
Proof.
  destruct demo_tree_ok as (Hs & Hc & _).
  apply (proj2 (proj2 (proj2 (listing_reaches_published (ES := escaping_ref) (LV := demo_live)
    demo_tree demo_comps1 (demo_pub 1) false None Hs
    ltac:(by apply comps_ok_dec; vm_compute)) Hc)) ltac:(by vm_compute) [lit "t"] (lit "r1")
    [lit "c"] eq_refl).
  by left.
Defined.


Lemma columns_count_witness :
  cols_ok (ES := escaping_ref) (unpublish (ES := escaping_ref) (LV := demo_live) demo_tree
    (demo_pub 1) false (abs_path demo_comps1)).
Proof.
  destruct demo_tree_ok as (Hs & _ & Hc).
  exact (proj2 (columns_count (ES := escaping_ref) (LV := demo_live) demo_tree demo_comps1
    (demo_pub 1) false None Hs ltac:(by apply comps_ok_dec; vm_compute) Hc)).
Defined.


Lemma token_data_witness :
  bool_decide (concat (sign_data (UInt 1) (UInt 2) (UInt 3) (lit "/a")) =
    concat (sign_data (UInt 1) (UInt 2) (UInt 3) (lit "/b"))) = false.
Proof.
  apply bool_decide_eq_false. intros H.
  by apply (token_data (SH := demo_sha) (UInt 1) (UInt 1) (UInt 2) (UInt 2) (UInt 3)
    (UInt 3) (lit "/a") (lit "/b") (UInt 0) demo_addr []) in H as (_ & _ & _ & H).
Defined.
