(* ===== verification/Permissions.v ===== *)
(** Who may do what (netidx/src/resolver_server/auth.rs): the permission bits
    and their textual form, the database of users and groups, and the
    permission map that is built from the configuration file and consulted for
    every request. Permissions are bit sets of a [u32]; the operators are those
    the bitflags macro derives for them. *)
From Stdlib Require Import ZArith Lia.
From stdpp Require Import base gmap list strings sorting.
From Stdlib Require Import Strings.Byte.
From S2P Require Import Prelude Varint Pack Containers PackTypes Path PathFacts Order Glob Derive Proto Store.

(** ** Permission bits *)

Definition DENY : Z := 0x01.
Definition SUBSCRIBE : Z := 0x02.
Definition WRITE : Z := 0x04.
Definition LIST : Z := 0x08.
Definition PUBLISH : Z := 0x10.
Definition PUBLISH_DEFAULT : Z := 0x20.
Definition all_bits : Z := 0x3F.

(** [p.contains(q)], [!p], [p & !q] *)
Definition contains (p q : Z) : bool := Z.land p q =? q.
Definition complement (p : Z) : Z := Z.land (Z.lnot p) all_bits.
Definition without (p q : Z) : Z := Z.land p (complement q).

Inductive PermError :=
| BangNotFirst | UnrecognizedBit | EntryForParent | EntryForChild
| UserNotLast | GroupNoParent | GroupNotBase | NotUserEntry | NotGroupEntry.

(** [TryFrom<&str> for Permissions]; every recognised character is one byte *)
Fixpoint perms_loop (first : bool) (p : Z) (s : str) : res PermError Z :=
  match s with
  | [] => Ok p
  | c :: s =>
      if decide (c = "!"%byte) then
        if first then perms_loop false (Z.lor p DENY) s else Err BangNotFirst
      else if decide (c = "s"%byte) then perms_loop false (Z.lor p SUBSCRIBE) s
      else if decide (c = "w"%byte) then perms_loop false (Z.lor p WRITE) s
      else if decide (c = "l"%byte) then perms_loop false (Z.lor p LIST) s
      else if decide (c = "p"%byte) then perms_loop false (Z.lor p PUBLISH) s
      else if decide (c = "d"%byte) then perms_loop false (Z.lor p PUBLISH_DEFAULT) s
      else Err UnrecognizedBit
  end.
Definition perms_try_from (s : str) : res PermError Z := perms_loop true 0 s.

(** ** Users *)

Record AuthUser := MkAuthUser {
  au_timestamp : Z; au_id : Z; au_primary_group : Z; au_groups : list Z;
  au_user_info : option UserInfo }.

(** [UserInfo::entities] *)
Definition entities_of (u : AuthUser) : list Z := au_id u :: au_primary_group u :: au_groups u.

Definition anonymous (now : Z) : AuthUser := MkAuthUser now 0 0 [0] None.

Record UserDb := MkUserDb {
  db_next : Z; db_timeout : Z;
  db_names : gmap Z str; db_entities : gmap str Z; db_users : gmap str AuthUser }.

Definition UserDb_new (timeout : Z) : UserDb := MkUserDb 1 timeout ∅ ∅ ∅.

(** [UserDb::entity] *)
Definition entity (db : UserDb) (name : str) : Z * UserDb :=
  match db_entities db !! name with
  | Some e => (e, db)
  | None =>
      let e := db_next db in
      (e, MkUserDb (wrap 32 (db_next db + 1)) (db_timeout db) (<[e := name]> (db_names db))
            (<[name := e]> (db_entities db)) (db_users db))
  end.
Fixpoint entity_all (db : UserDb) (names : list str) : list Z * UserDb :=
  match names with
  | [] => ([], db)
  | n :: names =>
      let '(e, db) := entity db n in
      let '(es, db) := entity_all db names in
      (e :: es, db)
  end.

(** [UserDb::ifo]. [groups] is the answer of the system's user mapper, [now] and
    [later] the two readings of the clock. *)
Definition ifo (groups : str → option (str * list str)) (now later : Z) (anon : AuthUser)
    (db : UserDb) (resolver : SocketAddr) (user : option str) : res unit AuthUser * UserDb :=
  match user with
  | None => (Ok anon, db)
  | Some user =>
      let refresh :=
        match groups user with
        | None => (Err (), db)
        | Some (primary_group_s, groups_s) =>
            let '(primary_group, db) := entity db primary_group_s in
            let '(gs, db) := entity_all db groups_s in
            let '(id, db) := entity db user in
            let u := MkAuthUser later id primary_group gs
              (Some (MkUserInfo user primary_group_s groups_s resolver [])) in
            match db_names db !! id with
            | None => (Panic, db)
            | Some name =>
                (Ok u, MkUserDb (db_next db) (db_timeout db) (db_names db) (db_entities db)
                         (<[name := u]> (db_users db)))
            end
        end in
      match db_users db !! user with
      | Some u => if now - au_timestamp u <? db_timeout db then (Ok u, db) else refresh
      | None => refresh
      end
  end.

(** ** Group expressions *)

Definition GROUP_OPEN : str := lit "$[group".
Definition ends_with (s p : str) : bool := bool_decide (p `suffix_of` s).

(** [subst]: one character of [expr], then all of them *)
Definition subst_step (sub dst : str) (c : byte) : str :=
  if decide (c = "]"%byte) then
    if ends_with dst GROUP_OPEN then take (length dst - 7) dst ++ sub else dst ++ [c]
  else dst ++ [c].
Definition subst_group (expr sub : str) : str := foldl (subst_step sub) [] expr.

(** ** The permission map *)

Record PMap := MkPMap {
  normal : gmap str (gmap Z Z);
  user_dynamic : gmap str Z;
  group_dynamic : gmap str (list (str * Z)) }.

(** [str::contains] *)
Fixpoint str_contains (s p : str) : bool :=
  starts_with s p || match s with [] => false | _ :: s => str_contains s p end.

Definition USER : str := lit "$[user]".
Definition GROUP : str := lit "$[group]".

Section PMapOps.
Context {ES : Escaping}.

(** The loops over a table of entities in [from_file] *)
Fixpoint user_table (dynamic : Z) (tbl : list (str * str)) : res PermError Z :=
  match tbl with
  | [] => Ok dynamic
  | (ent, perm) :: tbl =>
      res_bind (perms_try_from perm) (fun p =>
      if decide (ent = USER) then user_table p tbl else Err NotUserEntry)
  end.
Fixpoint group_table (dynamic : list (str * Z)) (tbl : list (str * str))
  : res PermError (list (str * Z)) :=
  match tbl with
  | [] => Ok dynamic
  | (ent, perm) :: tbl =>
      res_bind (perms_try_from perm) (fun p =>
      if str_contains ent GROUP then group_table (dynamic ++ [(ent, p)]) tbl
      else Err NotGroupEntry)
  end.
Fixpoint normal_table (db : UserDb) (entry : gmap Z Z) (tbl : list (str * str))
  : res PermError (gmap Z Z) * UserDb :=
  match tbl with
  | [] => (Ok entry, db)
  | (ent, perm) :: tbl =>
      let '(e, db) := if decide (ent = []) then (0, db) else entity db ent in
      match perms_try_from perm with
      | Ok p => normal_table db (<[e := p]> entry) tbl
      | Err e => (Err e, db)
      | Panic => (Panic, db)
      end
  end.

(** The checks on the path of an entry *)
Definition check_path (root : str) (children : gmap str Referral) (path : str)
  : res PermError unit :=
  if negb (is_parent root path) then Err EntryForParent
  else if existsb (fun c => is_parent c path) (bt_iter children).*1 then Err EntryForChild
  else if str_contains path USER && negb (ends_with path USER) then Err UserNotLast
  else if str_contains path GROUP then
    match basename path with
    | None => Err GroupNoParent
    | Some ent => if str_contains ent GROUP then Ok () else Err GroupNotBase
    end
  else Ok ().

(** [Path::from(ArcStr::from(Path::dirname(&path).unwrap()))] *)
Definition dynamic_base (path : str) : res PermError str :=
  match dirname path with
  | None => Panic
  | Some d => Ok (path_from d)
  end.

(** One entry of the file *)
Definition add_entry (db : UserDb) (root : str) (children : gmap str Referral) (pm : PMap)
    (path : str) (tbl : list (str * str)) : res PermError PMap * UserDb :=
  let path := path_from path in
  match check_path root children path with
  | Err e => (Err e, db)
  | Panic => (Panic, db)
  | Ok _ =>
      if ends_with path USER then
        (res_bind (dynamic_base path) (fun base =>
         res_map (fun p => MkPMap (normal pm) (<[base := p]> (user_dynamic pm)) (group_dynamic pm))
           (user_table 0 tbl)), db)
      else if ends_with path GROUP then
        (res_bind (dynamic_base path) (fun base =>
         res_map (fun g => MkPMap (normal pm) (user_dynamic pm) (<[base := g]> (group_dynamic pm)))
           (group_table [] tbl)), db)
      else
        let '(r, db) := normal_table db ∅ tbl in
        (res_map (fun e => MkPMap (<[path := e]> (normal pm)) (user_dynamic pm) (group_dynamic pm)) r,
         db)
  end.

(** [PMap::from_file], over the entries in the order the hash map gives them *)
Fixpoint from_file_loop (db : UserDb) (root : str) (children : gmap str Referral) (pm : PMap)
    (file : list (str * list (str * str))) : res PermError PMap * UserDb :=
  match file with
  | [] => (Ok pm, db)
  | (path, tbl) :: file =>
      match add_entry db root children pm path tbl with
      | (Ok pm, db) => from_file_loop db root children pm file
      | r => r
      end
  end.
Definition from_file (db : UserDb) (root : str) (children : gmap str Referral)
    (file : list (str * list (str * str))) : res PermError PMap * UserDb :=
  from_file_loop db root children (MkPMap ∅ ∅ ∅) file.

(** A grant or a denial found on the way *)
Definition apply_perm (p q : Z) : Z := if contains q DENY then without p q else Z.lor p q.

(** The dynamic part of the fold in [permissions], at directory [s] *)
Definition user_step (pm : PMap) (u : UserInfo) (sub parent : str) (p : Z) : Z :=
  match user_dynamic pm !! parent with
  | None => p
  | Some ud => if decide (sub = ui_name u) then apply_perm p ud else p
  end.
Definition group_step (pm : PMap) (u : UserInfo) (sub parent : str) (p : Z) : Z :=
  match group_dynamic pm !! parent with
  | None => p
  | Some gd =>
      foldl (fun p '(expr, gd) =>
        if decide (subst_group expr sub ∈ ui_groups u) then apply_perm p gd else p) p gd
  end.
(** The entries for the user's entities: grants and denials are collected, and
    denials win *)
Definition entity_step (set : gmap Z Z) (acc : Z * Z) (e : Z) : Z * Z :=
  match set !! e with
  | None => acc
  | Some p => if contains p DENY then (acc.1, Z.lor acc.2 p) else (Z.lor acc.1 p, acc.2)
  end.
Definition normal_step (pm : PMap) (user : AuthUser) (s : str) (p : Z) : Z :=
  match normal pm !! s with
  | None => p
  | Some set =>
      let '(ap, dp) := foldl (entity_step set) (p, 0) (entities_of user) in
      without ap dp
  end.
Definition perm_step (pm : PMap) (user : AuthUser) (p : Z) (s : str) : Z :=
  let p :=
    match basename s, dirname s, au_user_info user with
    | Some sub, Some parent, Some u => group_step pm u sub parent (user_step pm u sub parent p)
    | _, _, _ => p
    end in
  normal_step pm user s p.

(** [PMap::permissions], [allowed] *)
Definition permissions (pm : PMap) (path : str) (user : AuthUser) : res PackError Z :=
  res_map (foldl (perm_step pm user) 0) (dirnames_list path).
Definition allowed (pm : PMap) (path : str) (desired : Z) (user : AuthUser)
  : res PackError bool :=
  res_map (fun actual => Z.land actual desired =? desired) (permissions pm path user).

(** [allowed_in_scope] *)
Definition deny_step (set : gmap Z Z) (dp : Z) (e : Z) : Z :=
  match set !! e with
  | None => dp
  | Some p => if contains p DENY then Z.lor dp p else dp
  end.
Fixpoint scope_loop (user : AuthUser) (base_path : str) (scope : Scope) (rights : Z)
    (entries : list (str * gmap Z Z)) : Z :=
  match entries with
  | [] => rights
  | (path, set) :: entries =>
      if negb (is_parent base_path path) || negb (scope_contains scope (levels path)) then rights
      else scope_loop user base_path scope
             (without rights (foldl (deny_step set) 0 (entities_of user))) entries
  end.
Definition allowed_in_scope (pm : PMap) (base_path : str) (scope : Scope) (desired : Z)
    (user : AuthUser) : res PackError bool :=
  res_map (fun at_base =>
    let rights := scope_loop user base_path scope at_base
      (bt_range (Excluded base_path) Unbounded (normal pm)) in
    Z.land rights desired =? desired) (permissions pm base_path user).
End PMapOps.

(** ** Bits *)

Definition perm_wf (p : Z) : Prop := in_u 6 p.

Lemma perm_wf_bits p : 0 ≤ p → perm_wf p ↔ ∀ b, 6 ≤ b → Z.testbit p b = false.
Proof.
  intros Hp. split.
  - intros [_ Hlt] b Hb. destruct (decide (p = 0)) as [->|Hne]; [apply Z.bits_0|].
    apply Z.bits_above_log2; [lia|]. assert (Z.log2 p < 6) by (apply Z.log2_lt_pow2; lia). lia.
  - intros Hb. split; [done|]. destruct (decide (p = 0)) as [->|Hne]; [lia|].
    apply Z.log2_lt_pow2; [lia|]. destruct (Z.lt_ge_cases (Z.log2 p) 6) as [|Hl]; [done|].
    specialize (Hb _ Hl). rewrite Z.bit_log2 in Hb; [done|lia].
Qed.

Lemma without_bit p q b : 0 ≤ b →
  Z.testbit (without p q) b = Z.testbit p b && negb (Z.testbit q b) && (b <? 6).
Proof.
  intros Hb. unfold without, complement. rewrite !Z.land_spec, Z.lnot_spec by done.
  change all_bits with (Z.ones 6). rewrite Z.testbit_ones_nonneg by lia.
  by rewrite andb_assoc.
Qed.

Lemma perm_bits_eq p q : 0 ≤ p → 0 ≤ q → (∀ b, 0 ≤ b → Z.testbit p b = Z.testbit q b) → p = q.
Proof. intros Hp Hq H. apply Z.bits_inj'. intros n Hn. by apply H. Qed.

Lemma without_nonneg p q : 0 ≤ p → 0 ≤ without p q.
Proof. intros Hp. apply Z.land_nonneg. by left. Qed.
Lemma without_wf p q : 0 ≤ p → perm_wf (without p q).
Proof.
  intros Hp. apply perm_wf_bits; [by apply without_nonneg|]. intros b Hb.
  rewrite without_bit by lia. destruct (Z.ltb_spec b 6); [lia|]. by rewrite andb_false_r.
Qed.
Lemma lor_wf p q : perm_wf p → perm_wf q → perm_wf (Z.lor p q).
Proof.
  intros Hp Hq. pose proof Hp as [Hp0 _]. pose proof Hq as [Hq0 _].
  apply perm_wf_bits; [by apply Z.lor_nonneg|]. intros b Hb. rewrite Z.lor_spec.
  rewrite perm_wf_bits in Hp, Hq by done. by rewrite Hp, Hq.
Qed.

(** Asking for all the bits of [d] *)
Lemma land_all p d : 0 ≤ d →
  (Z.land p d =? d) = true ↔ ∀ b, 0 ≤ b → Z.testbit d b = true → Z.testbit p b = true.
Proof.
  intros Hd. rewrite Z.eqb_eq. split.
  - intros He b Hb Hdb. rewrite <- He, Z.land_spec in Hdb. by apply andb_true_iff in Hdb as [? _].
  - intros H. apply Z.bits_inj'. intros b Hb. rewrite Z.land_spec.
    destruct (Z.testbit d b) eqn:E.
    + by rewrite H.
    + apply andb_false_r.
Qed.

Lemma contains_deny p : contains p DENY = Z.testbit p 0.
Proof.
  apply eq_true_iff_eq. unfold contains. rewrite land_all by done. split.
  - intros H. by apply H.
  - intros H b Hb Hd. destruct (decide (b = 0)) as [->|Hne]; [done|].
    rewrite Z.bits_above_log2 in Hd; [done|done|]. cbn. lia.
Qed.

(** ** Grants and denials in order *)

Definition action : Type := bool * Z.
Definition to_action (q : Z) : action := (contains q DENY, q).
Definition run_action (p : Z) (a : action) : Z := if a.1 then without p a.2 else Z.lor p a.2.
(** What one action says about bit [b] *)
Definition verdict (b : Z) (v : bool) (a : action) : bool :=
  if Z.testbit a.2 b then negb a.1 else v.

Lemma run_action_spec p acts :
  perm_wf p → Forall (fun a => perm_wf a.2) acts →
  perm_wf (foldl run_action p acts) ∧
  ∀ b, 0 ≤ b → Z.testbit (foldl run_action p acts) b = foldl (verdict b) (Z.testbit p b) acts.
Proof.
  revert p; induction acts as [|[d q] acts IH]; intros p Hp Ha; [done|].
  apply Forall_cons in Ha as [Hq Ha]. cbn in Hq. cbn [foldl].
  assert (Hwf : perm_wf (run_action p (d, q))).
  { unfold run_action. cbn. destruct d; [apply without_wf, Hp|by apply lor_wf]. }
  destruct (IH _ Hwf Ha) as [H1 H2]. split; [done|]. intros b Hb. rewrite H2 by done. f_equal.
  unfold run_action, verdict. cbn. destruct d; cbn.
  - rewrite without_bit by done. destruct (Z.ltb_spec b 6) as [_|Hb6].
    + rewrite andb_true_r. by destruct (Z.testbit q b), (Z.testbit p b).
    + rewrite andb_false_r. pose proof Hp as [Hp0 _]. pose proof Hq as [Hq0 _].
      rewrite perm_wf_bits in Hp, Hq by done. by rewrite Hp, Hq.
  - rewrite Z.lor_spec. by destruct (Z.testbit q b), (Z.testbit p b).
Qed.

Lemma Forall_filter {A} (P Q : A → Prop) `{!∀ x, Decision (Q x)} l :
  Forall P l → Forall P (filter Q l).
Proof. rewrite !Forall_forall. intros HP x [_ Hx]%list_elem_of_filter. by apply HP. Qed.

Section Verdicts.
Context {ES : Escaping}.

(** Everything the map says about [user] at directory [s], in the order in which
    it counts *)
Definition dynamic_actions (pm : PMap) (u : UserInfo) (sub parent : str) : list action :=
  match user_dynamic pm !! parent with
  | Some ud => if decide (sub = ui_name u) then [to_action ud] else []
  | None => []
  end ++
  match group_dynamic pm !! parent with
  | Some gd => omap (fun '(expr, q) =>
      if decide (subst_group expr sub ∈ ui_groups u) then Some (to_action q) else None) gd
  | None => []
  end.
Definition entity_perms (set : gmap Z Z) (es : list Z) : list Z := omap (fun e => set !! e) es.
Definition entity_actions (set : gmap Z Z) (es : list Z) : list action :=
  to_action <$> (filter (fun q => contains q DENY = false) (entity_perms set es) ++
                 filter (fun q => contains q DENY = true) (entity_perms set es)).
Definition perm_actions (pm : PMap) (user : AuthUser) (s : str) : list action :=
  match basename s, dirname s, au_user_info user with
  | Some sub, Some parent, Some u => dynamic_actions pm u sub parent
  | _, _, _ => []
  end ++
  match normal pm !! s with
  | Some set => entity_actions set (entities_of user)
  | None => []
  end.

Record pmap_wf (pm : PMap) : Prop := {
  pw_normal s set e q : normal pm !! s = Some set → set !! e = Some q → perm_wf q;
  pw_user s q : user_dynamic pm !! s = Some q → perm_wf q;
  pw_group s gd x q : group_dynamic pm !! s = Some gd → (x, q) ∈ gd → perm_wf q
}.

Lemma perm_actions_wf pm user s :
  pmap_wf pm → Forall (fun a : action => perm_wf a.2) (perm_actions pm user s).
Proof.
  intros Hw. unfold perm_actions. apply Forall_app. split.
  - destruct (basename s) as [sub|]; [|constructor]. destruct (dirname s) as [d|]; [|constructor].
    destruct (au_user_info user) as [u|]; [|constructor]. apply Forall_app. split.
    + destruct (user_dynamic pm !! d) as [q|] eqn:E; [|constructor]. case_decide; [|constructor].
      apply Forall_singleton. by eapply pw_user.
    + destruct (group_dynamic pm !! d) as [gd|] eqn:E; [|constructor]. apply Forall_forall.
      intros a ([x q] & Hin & Ha)%list_elem_of_omap. case_decide; [|done]. injection Ha as <-.
      by eapply pw_group.
  - destruct (normal pm !! s) as [set|] eqn:E; [|constructor]. apply Forall_fmap, Forall_app.
    split; apply Forall_filter, Forall_forall; intros q (e & _ & Hq)%list_elem_of_omap;
      by eapply pw_normal.
Qed.

(** The loop over the entities collects the grants and the denials. *)
Lemma entity_fold set es ap dp :
  foldl (entity_step set) (ap, dp) es =
  (foldl Z.lor ap (filter (fun q => contains q DENY = false) (entity_perms set es)),
   foldl Z.lor dp (filter (fun q => contains q DENY = true) (entity_perms set es))).
Proof.
  revert ap dp; induction es as [|e es IH]; intros ap dp; [done|]. cbn [foldl].
  unfold entity_step at 2. unfold entity_perms. cbn [omap list_omap].
  destruct (set !! e) as [q|]; [|apply IH].
  destruct (contains q DENY) eqn:E; rewrite IH.
  - rewrite filter_cons_False by congruence. by rewrite filter_cons_True.
  - rewrite filter_cons_True by done. by rewrite filter_cons_False by congruence.
Qed.

Lemma without_lor p q r : 0 ≤ p → without (without p q) r = without p (Z.lor q r).
Proof.
  intros Hp. apply perm_bits_eq; [by repeat apply without_nonneg|by apply without_nonneg|].
  intros b Hb. rewrite !without_bit, Z.lor_spec by done.
  destruct (Z.testbit p b), (Z.testbit q b), (Z.testbit r b), (b <? 6); done.
Qed.
Lemma without_0 p : perm_wf p → without p 0 = p.
Proof.
  intros Hp. pose proof Hp as [Hp0 _].
  apply perm_bits_eq; [by apply without_nonneg|done|]. intros b Hb.
  rewrite without_bit, Z.bits_0 by done. rewrite perm_wf_bits in Hp by done.
  destruct (Z.ltb_spec b 6); [by rewrite !andb_true_r|]. by rewrite Hp.
Qed.

Lemma without_all p dp l : 0 ≤ p →
  without p (foldl Z.lor dp l) = foldl without (without p dp) l.
Proof.
  revert dp; induction l as [|q l IH]; intros dp Hp; [done|]. cbn [foldl].
  rewrite IH, without_lor by done. done.
Qed.

Lemma lor_all_wf p l : perm_wf p → Forall perm_wf l → perm_wf (foldl Z.lor p l).
Proof.
  revert p; induction l as [|q l IH]; intros p Hp Hl; [done|].
  apply Forall_cons in Hl as [Hq Hl]. apply IH; [by apply lor_wf|done].
Qed.

Lemma filter_actions (d : bool) f p (l : list Z) :
  (∀ p q, run_action p (d, q) = f p q) →
  foldl run_action p (to_action <$> filter (fun q => contains q DENY = d) l) =
  foldl f p (filter (fun q => contains q DENY = d) l).
Proof.
  intros Hf. revert p; induction l as [|q l IH]; intros p; [done|].
  destruct (decide (contains q DENY = d)) as [Hd|Hd].
  - rewrite filter_cons_True by done. cbn [fmap list_fmap foldl].
    replace (run_action p (to_action q)) with (f p q) by (unfold to_action; by rewrite Hd, Hf).
    apply IH.
  - by rewrite filter_cons_False.
Qed.

Lemma normal_step_actions set es p :
  perm_wf p → (∀ e q, set !! e = Some q → perm_wf q) →
  (let '(ap, dp) := foldl (entity_step set) (p, 0) es in without ap dp) =
  foldl run_action p (entity_actions set es).
Proof.
  intros Hp Hset. rewrite entity_fold. unfold entity_actions. rewrite fmap_app, foldl_app.
  rewrite (filter_actions false Z.lor) by done. rewrite (filter_actions true without) by done.
  assert (Hall : Forall perm_wf (entity_perms set es)).
  { apply Forall_forall. intros q (e & _ & Hq)%list_elem_of_omap. by eapply Hset. }
  assert (Hap : perm_wf (foldl Z.lor p (filter (fun q => contains q DENY = false)
    (entity_perms set es)))) by (apply lor_all_wf; [done|by apply Forall_filter]).
  rewrite without_all by apply Hap. by rewrite without_0.
Qed.

Lemma group_fold u sub gd p :
  foldl (fun p '(expr, q) =>
    if decide (subst_group expr sub ∈ ui_groups u) then apply_perm p q else p) p gd =
  foldl run_action p (omap (fun '(expr, q) =>
    if decide (subst_group expr sub ∈ ui_groups u) then Some (to_action q) else None) gd).
Proof.
  revert p; induction gd as [|[x q] gd IH]; intros p; [done|]. cbn [foldl omap list_omap].
  case_decide; apply IH.
Qed.

Lemma perm_step_actions pm user p s :
  pmap_wf pm → perm_wf p →
  perm_step pm user p s = foldl run_action p (perm_actions pm user s).
Proof.
  intros Hw Hp. unfold perm_step, perm_actions. rewrite foldl_app.
  set (p1 := match basename s with Some sub => _ | None => p end).
  set (acts := match basename s with Some sub => _ | None => [] end).
  assert (Hacts : Forall (fun a : action => perm_wf a.2) acts).
  { pose proof (perm_actions_wf pm user s Hw) as Ha. unfold perm_actions in Ha.
    apply Forall_app in Ha as [Ha _]. exact Ha. }
  assert (Hp1 : p1 = foldl run_action p acts).
  { unfold p1, acts. destruct (basename s) as [sub|]; [|done].
    destruct (dirname s) as [d|]; [|done]. destruct (au_user_info user) as [u|]; [|done].
    unfold dynamic_actions. rewrite foldl_app. unfold group_step, user_step.
    assert (Hu : (match user_dynamic pm !! d with
      | Some ud => if decide (sub = ui_name u) then apply_perm p ud else p | None => p end) =
      foldl run_action p (match user_dynamic pm !! d with
      | Some ud => if decide (sub = ui_name u) then [to_action ud] else [] | None => [] end))
      by (destruct (user_dynamic pm !! d); [by case_decide|done]).
    rewrite Hu. destruct (group_dynamic pm !! d); [apply group_fold|done]. }
  rewrite Hp1. unfold normal_step. destruct (normal pm !! s) as [set|] eqn:E; [|done].
  apply normal_step_actions; [by apply run_action_spec|].
  intros e q Hq. by eapply pw_normal.
Qed.

Lemma permissions_fold pm user l :
  pmap_wf pm →
  foldl (perm_step pm user) 0 l = foldl run_action 0 (concat (perm_actions pm user <$> l)) ∧
  perm_wf (foldl (perm_step pm user) 0 l).
Proof.
  intros Hw. assert (H0 : perm_wf 0) by done. revert H0. generalize 0.
  induction l as [|s l IH]; intros p Hp; [done|]. cbn [foldl fmap list_fmap concat].
  rewrite foldl_app, perm_step_actions by done.
  apply IH, run_action_spec; [done|by apply perm_actions_wf].
Qed.
End Verdicts.

(** ** Scopes *)

Section Scopes.
Context {ES : Escaping} (user : AuthUser) (base_path : str) (scope : Scope).

Definition inside (q : str) : bool := is_parent base_path q && scope_contains scope (levels q).
Definition denies (set : gmap Z Z) (b : Z) : bool :=
  existsb (fun e => match set !! e with
    | Some p => contains p DENY && Z.testbit p b
    | None => false
    end) (entities_of user).

Lemma deny_step_bit set dp es b :
  Z.testbit (foldl (deny_step set) dp es) b =
  Z.testbit dp b || existsb (fun e => match set !! e with
    | Some p => contains p DENY && Z.testbit p b
    | None => false
    end) es.
Proof.
  revert dp; induction es as [|e es IH]; intros dp; cbn [foldl existsb]; [by rewrite orb_false_r|].
  rewrite IH. unfold deny_step. destruct (set !! e) as [p|]; [|done].
  destruct (contains p DENY); [|done]. by rewrite Z.lor_spec, orb_assoc.
Qed.

Lemma scope_loop_bit r l b : 0 ≤ b < 6 →
  Z.testbit (scope_loop user base_path scope r l) b =
  Z.testbit r b && forallb (fun kv => negb (denies kv.2 b)) (take_while (fun kv => inside kv.1) l).
Proof.
  intros Hb. revert r; induction l as [|[q set] l IH]; intros r; cbn [scope_loop take_while fst snd];
    [by rewrite andb_true_r|].
  rewrite <- negb_andb. fold (inside q). destruct (inside q); cbn [negb]; [|by rewrite andb_true_r].
  rewrite IH. cbn [forallb snd]. rewrite without_bit by lia. rewrite deny_step_bit, Z.bits_0.
  cbn [orb]. fold (denies set b). destruct (Z.ltb_spec b 6); [|lia].
  by rewrite andb_true_r, andb_assoc.
Qed.

(** The entries above [base_path] in string order end with those inside. *)
Definition no_gap (m : gmap str (gmap Z Z)) : Prop :=
  ∀ q q', is_Some (m !! q) → is_Some (m !! q') → str_lt base_path q → str_le q q' →
    inside q' = true → inside q = true.

Lemma scope_entries m :
  no_gap m →
  take_while (fun kv => inside kv.1) (bt_range (Excluded base_path) Unbounded m) =
  filter (fun kv => inside kv.1 = true) (bt_range (Excluded base_path) Unbounded m).
Proof.
  intros Hg. apply (take_while_filter key_le); [apply bt_range_sorted|].
  intros [q s] [q' s'] Hx Hy Hle Hin. cbn in *.
  apply elem_of_bt_range in Hx as (Ha & _ & Hq). apply elem_of_bt_range in Hy as (_ & _ & Hq').
  cbn in Ha. apply bool_decide_eq_true in Ha. by eapply Hg; eauto.
Qed.

Lemma scope_denials m b :
  no_gap m →
  forallb (fun kv => negb (denies kv.2 b))
    (take_while (fun kv => inside kv.1) (bt_range (Excluded base_path) Unbounded m)) = true ↔
  ∀ q set, m !! q = Some set → str_lt base_path q → inside q = true → denies set b = false.
Proof.
  intros Hg. rewrite scope_entries by done. rewrite forallb_forall. split.
  - intros H q set Hq Hlt Hin. apply negb_true_iff, (H (q, set)), list_elem_of_In.
    apply list_elem_of_filter. split; [done|]. apply elem_of_bt_range.
    split; [by apply bool_decide_eq_true|done].
  - intros H [q set] [Hin Hq]%list_elem_of_In%list_elem_of_filter.
    apply elem_of_bt_range in Hq as (Ha & _ & Hq). apply bool_decide_eq_true in Ha.
    cbn. apply negb_true_iff. by eapply H.
Qed.

Lemma denies_false set b :
  denies set b = false ↔ ∀ e p, e ∈ entities_of user →
    set !! e = Some p → contains p DENY = true → Z.testbit p b = false.
Proof.
  unfold denies. rewrite <- not_true_iff_false, existsb_exists. split.
  - intros H e p He Hp Hdn. apply not_true_iff_false. intros Hb. apply H. exists e.
    rewrite Hp, Hdn. split; [by apply list_elem_of_In|done].
  - intros H (e & He%list_elem_of_In & Hb). destruct (set !! e) as [p|] eqn:Hp; [|done].
    apply andb_true_iff in Hb as [Hdn Hb]. by rewrite (H e p) in Hb.
Qed.
End Scopes.
