(* ===== verification/Shard.v ===== *)
(** The sharded store (netidx/src/resolver_server/shard_store.rs). The tree is
    spread over a power of two of stores by a hash of the path. Requests arrive
    in batches, are numbered, sent to the shards they concern, answered there
    under the permissions of the requesting user, and the answers are merged in
    the order of the requests. A shard is the state of its task, a batch is
    processed by each shard in one go; the hash function, the orders in which hash
    tables are drained and the sort of the replies are parameters. *)
From Stdlib Require Import ZArith Lia.
From stdpp Require Import base gmap list strings sorting.
From Stdlib Require Import Strings.Byte.
From S2P Require Import Prelude Varint Pack Containers PackTypes Path PathFacts Order Glob Derive Proto Store Permissions.

#[export] Instance ToWrite_eq_dec : EqDecision ToWrite.
Proof. solve_decision. Defined.

(** [AHasher] on a path *)
Class PathHash := path_hash : str → Z.

(** The orders in which hash tables are drained *)
Class HashOrder := {
  order_refs : gmap PublisherId PublisherRef → list PublisherRef;
  order_paths : gset str → list str;
  order_cols : gmap str Z → list (str * Z);
  order_pubs : gmap PublisherId Publisher → list Publisher
}.
Class HashOrderOk (HO : HashOrder) : Prop := {
  order_refs_perm m : order_refs m ≡ₚ (map_to_list m).*2;
  order_paths_perm s : order_paths s ≡ₚ elements s;
  order_cols_perm m : order_cols m ≡ₚ map_to_list m;
  order_pubs_perm m : order_pubs m ≡ₚ (map_to_list m).*2
}.

(** [SecCtxDataReadGuard::pmap], [pm] being the map next to the secrets *)
Definition sec_pmap (sec : SecCtxDataReadGuard) (pm : PMap) : option PMap :=
  match sec with
  | SecAnonymous => None
  | SecKrb5 _ | SecLocal _ | SecTls _ => Some pm
  end.

(** Who asks, under which security context, on which server, and when *)
Record ReadEnv := MkReadEnv {
  re_sec : SecCtxDataReadGuard; re_pmap : PMap; re_resolver : SocketAddr; re_now : u64;
  re_uifo : AuthUser }.
Record WriteEnv := MkWriteEnv {
  we_sec : SecCtxDataReadGuard; we_pmap : PMap; we_uifo : AuthUser; we_publisher : Publisher }.

Definition MAX_WRITE_BATCH : nat := Z.to_nat 100000.
Definition MAX_READ_BATCH : Z := 1000000.
Definition ABSOLUTE : str := lit "absolute paths required".

Section Shard.
Context {ES : Escaping} {LV : Live} {SH : Sha3} {GS : Globset} {HO : HashOrder}.

Abbreviation pubs := (gmap PublisherId Publisher).

(** [pmap.map(|p| p.allowed(path, perm, uifo)).unwrap_or(true)] *)
Definition allowed_opt (pm : option PMap) (path : str) (perm : Z) (u : AuthUser) : res unit bool :=
  match pm with
  | None => Ok true
  | Some pm => lift_panic (allowed pm path perm u)
  end.
(** [set.iter().all(|g| pmap.allowed_in_scope(..))] *)
Fixpoint all_in_scope (pm : PMap) (perm : Z) (u : AuthUser) (gs : list Glob) : res unit bool :=
  match gs with
  | [] => Ok true
  | g :: gs =>
      res_bind (lift_panic (allowed_in_scope pm (base g) (scope g) perm u)) (fun ok =>
      if ok then all_in_scope pm perm u gs else Ok false)
  end.
Definition scope_opt (pm : option PMap) (perm : Z) (u : AuthUser) (gs : list Glob)
  : res unit bool :=
  match pm with
  | None => Ok true
  | Some pm => all_in_scope pm perm u gs
  end.

(** ** Reading in one shard *)

(** One request of [process_read_batch] *)
Definition read_resolve (s : Store) (env : ReadEnv) (ps : pubs) (path : str)
  : res unit (pubs * FromRead) :=
  match check_referral s path with
  | Some r => Ok (ps, FR_Referral r)
  | None =>
      match sec_pmap (re_sec env) (re_pmap env) with
      | None =>
          res_map (fun '(ps, (flags, rs)) =>
            (ps, FR_Resolved (MkResolved (re_resolver env) rs (re_now env) flags
               (UInt all_bits)))) (resolve order_refs s ps path)
      | Some pm =>
          res_bind (lift_panic (permissions pm path (re_uifo env))) (fun perm =>
          if negb (contains perm SUBSCRIBE) then Ok (ps, FR_Denied)
          else
            res_map (fun '(ps, (flags, rs)) =>
              (ps, FR_Resolved (MkResolved (re_resolver env) rs (re_now env) flags (UInt perm))))
              (resolve_and_sign order_refs s ps (re_sec env) (au_user_info (re_uifo env))
                 (re_now env) (UInt perm) path))
      end
  end.
Definition read_listing (s : Store) (env : ReadEnv) (path : str) (answer : FromRead)
  : res unit FromRead :=
  match check_referral s path with
  | Some r => Ok (FR_Referral r)
  | None =>
      res_map (fun ok : bool => if ok then answer else FR_Denied)
        (allowed_opt (sec_pmap (re_sec env) (re_pmap env)) path LIST (re_uifo env))
  end.
Definition read_matching (shard : nat) (s : Store) (env : ReadEnv) (set : GlobSet)
  : res unit FromRead :=
  let referrals :=
    if decide (shard = 0%nat)
    then concat ((fun g => referrals_in_scope s (base g) (scope g)) <$> gs_raw set) else [] in
  res_map (fun ok : bool =>
    FR_ListMatching (MkListMatching (if ok then [list_matching s set] else []) referrals))
    (scope_opt (sec_pmap (re_sec env) (re_pmap env)) LIST (re_uifo env) (gs_raw set)).
Definition read_change_nr (shard : nat) (s : Store) (env : ReadEnv) (path : str)
  : res unit FromRead :=
  let referrals := if decide (shard = 0%nat) then referrals_in_scope s path Subtree else [] in
  res_map (fun ok : bool =>
    FR_GetChangeNr (MkGetChangeNr (MkZ64 (if ok then get_change_nr s path else 0))
      (re_resolver env) referrals))
    (allowed_opt (sec_pmap (re_sec env) (re_pmap env)) path LIST (re_uifo env)).
Definition table_of (s : Store) (path : str) : Table :=
  MkTable (list_paths s path) ((fun '(n, c) => (n, MkZ64 c)) <$> columns_of order_cols s path).

Definition process_read (shard : nat) (s : Store) (env : ReadEnv) (ps : pubs) (m : ToRead GS)
  : res unit (pubs * FromRead) :=
  match m with
  | TR_Resolve path => read_resolve s env ps path
  | TR_List path => res_map (pair ps) (read_listing s env path (FR_List (list_paths s path)))
  | TR_ListMatching set => res_map (pair ps) (read_matching shard s env set)
  | TR_GetChangeNr path => res_map (pair ps) (read_change_nr shard s env path)
  | TR_Table path => res_map (pair ps) (read_listing s env path (FR_Table (table_of s path)))
  end.
Fixpoint process_read_batch (shard : nat) (s : Store) (env : ReadEnv) (ps : pubs)
    (batch : list (Z * ToRead GS)) : res unit (pubs * list (Z * FromRead)) :=
  match batch with
  | [] => Ok (ps, [])
  | (id, m) :: batch =>
      res_bind (process_read shard s env ps m) (fun '(ps, r) =>
      res_map (fun '(ps, rs) => (ps, (id, r) :: rs)) (process_read_batch shard s env ps batch))
  end.

(** ** Writing in one shard *)

(** The closure [publish] of [process_write_batch] *)
Definition write_publish (s : Store) (env : WriteEnv) (path : str) (default_ : bool)
    (flags : option u32) : res unit (Store * FromWrite) :=
  if negb (is_absolute path) then Ok (s, FW_Error ABSOLUTE)
  else
    match check_referral s path with
    | Some r => Ok (s, FW_Referral r)
    | None =>
        let perm := if default_ then PUBLISH_DEFAULT else PUBLISH in
        res_map (fun ok : bool =>
          if ok then (publish s path (we_publisher env) default_ flags, FW_Published)
          else (s, FW_Denied))
          (allowed_opt (sec_pmap (we_sec env) (we_pmap env)) path perm (we_uifo env))
    end.
Definition write_unpublish (s : Store) (env : WriteEnv) (path : str) (default_ : bool)
  : res unit (Store * FromWrite) :=
  if negb (is_absolute path) then Ok (s, FW_Error ABSOLUTE)
  else
    match check_referral s path with
    | Some r => Ok (s, FW_Referral r)
    | None => Ok (unpublish s (we_publisher env) default_ path, FW_Unpublished)
    end.
Definition process_write (s : Store) (env : WriteEnv) (m : ToWrite)
  : res unit (Store * FromWrite) :=
  match m with
  | Heartbeat => Panic
  | Clear => Ok (clear order_paths s (we_publisher env), FW_Unpublished)
  | Publish path => write_publish s env path false None
  | PublishDefault path => write_publish s env path true None
  | PublishWithFlags path flags => write_publish s env path false (Some flags)
  | PublishDefaultWithFlags path flags => write_publish s env path true (Some flags)
  | Unpublish path => write_unpublish s env path false
  | UnpublishDefault path => write_unpublish s env path true
  end.
Fixpoint process_write_batch (s : Store) (env : WriteEnv) (batch : list (Z * ToWrite))
  : res unit (Store * list (Z * FromWrite)) :=
  match batch with
  | [] => Ok (s, [])
  | (id, m) :: batch =>
      res_bind (process_write s env m) (fun '(s, r) =>
      res_map (fun '(s, rs) => (s, (id, r) :: rs)) (process_write_batch s env batch))
  end.

(** ** The shards *)

Context {PH : PathHash}.

(** [Store::shard]: [n] shards, [shard_mask = n - 1] *)
Definition shard_of (n : nat) (path : str) : nat :=
  Z.to_nat (Z.land (path_hash path) (Z.of_nat n - 1)).

(** [Store::new], with [2 ^ k] processors rounded up *)
Definition shards_new (k : nat) (par : option Referral) (ch : gmap str Referral) : list Store :=
  replicate (2 ^ k) (Store_new par ch).

(** [by_shard[s].push(x)] and [for b in by_shard.iter_mut() { b.push(x) }] *)
Definition push_one {A} (s : nat) (x : A) (by_shard : list (list A)) : list (list A) :=
  alter (fun b => b ++ [x]) s by_shard.
Definition push_all {A} (x : A) (by_shard : list (list A)) : list (list A) :=
  (fun b => b ++ [x]) <$> by_shard.

Definition write_dest (n : nat) (m : ToWrite) : option nat :=
  match m with
  | Publish path | Unpublish path | PublishWithFlags path _ => Some (shard_of n path)
  | Heartbeat | Clear | PublishDefault _ | UnpublishDefault _ | PublishDefaultWithFlags _ _ => None
  end.
Definition push_to {A} (dest : option nat) (x : A) (by_shard : list (list A)) : list (list A) :=
  match dest with
  | Some s => push_one s x by_shard
  | None => push_all x by_shard
  end.

(** [for _ in 0..MAX_WRITE_BATCH { .. }]: whether the messages ran out, the next
    number, the batches and the messages left *)
Fixpoint fill_write (room : nat) (shards : nat) (n : Z) (by_shard : list (list (Z * ToWrite)))
    (msgs : list ToWrite) : bool * Z * list (list (Z * ToWrite)) * list ToWrite :=
  match room with
  | O => (false, n, by_shard, msgs)
  | S room =>
      match msgs with
      | [] => (true, n, by_shard, [])
      | Heartbeat :: msgs => fill_write room shards n by_shard msgs
      | m :: msgs => fill_write room shards (n + 1) (push_to (write_dest shards m) (n, m) by_shard) msgs
      end
  end.

(** The shards process their batches; [join_all] collects the replies by shard *)
Fixpoint run_writes (env : WriteEnv) (ss : list Store) (by_shard : list (list (Z * ToWrite)))
  : res unit (list Store * list (Z * FromWrite)) :=
  match ss, by_shard with
  | s :: ss, b :: by_shard =>
      res_bind (process_write_batch s env b) (fun '(s, r) =>
      res_map (fun '(ss, rs) => (s :: ss, r ++ rs)) (run_writes env ss by_shard))
  | _, _ => Ok ([], [])
  end.

Definition is_empty {A} (l : list A) : bool := match l with [] => true | _ :: _ => false end.

(** [handle_queued_write], the [loop]; running out of [fuel] is no answer *)
Fixpoint write_loop (fuel max : nat) (env : WriteEnv) (n : Z) (ss : list Store)
    (replies : list (Z * FromWrite)) (msgs : list ToWrite)
  : res unit (list Store * list (Z * FromWrite)) :=
  match fuel with
  | O => Panic
  | S fuel =>
      let '(finished, n, by_shard, msgs) :=
        fill_write max (length ss) n (replicate (length ss) []) msgs in
      if forallb is_empty by_shard then
        if finished then Ok (ss, replies) else Panic
      else
        res_bind (run_writes env ss by_shard) (fun '(ss, rs) =>
        write_loop fuel max env n ss (replies ++ rs) msgs)
  end.
Definition handle_queued_write (max : nat) (env : WriteEnv) (ss : list Store)
    (msgs : list ToWrite) : res unit (list Store * list (Z * FromWrite)) :=
  write_loop (S (length msgs)) max env 0 ss [] msgs.

(** [mem::discriminant] *)
Definition discriminant (m : FromWrite) : Z :=
  match m with
  | FW_Published => 0 | FW_Unpublished => 1 | FW_Referral _ => 2 | FW_Denied => 3 | FW_Error _ => 4
  end.
(** The inner [while let] of [handle_batch_write]: the replies of the other
    shards to the same message *)
Fixpoint skip_same (n : Z) (m : FromWrite) (rs : list (Z * FromWrite))
  : res unit (list (Z * FromWrite)) :=
  match rs with
  | (i, m2) :: rs' =>
      if negb (i =? n) then Ok rs
      else if negb (discriminant m =? discriminant m2) then Panic
      else skip_same n m rs'
  | [] => Ok []
  end.
Fixpoint send_replies (fuel : nat) (rs : list (Z * FromWrite)) : res unit (list FromWrite) :=
  match fuel with
  | O => Panic
  | S fuel =>
      match rs with
      | [] => Ok []
      | (n, m) :: rs =>
          res_bind (skip_same n m rs) (fun rs =>
          res_map (cons m) (send_replies fuel rs))
      end
  end.

(** [handle_batch_write]; [sort] is [sort_unstable_by_key(|(n, _)| *n)] *)
Definition handle_batch_write (sort : list (Z * FromWrite) → list (Z * FromWrite)) (max : nat)
    (env : WriteEnv) (ss : list Store) (msgs : list ToWrite)
  : res unit (list Store * list FromWrite) :=
  res_bind (handle_queued_write max env ss msgs) (fun '(ss, replies) =>
  res_map (pair ss) (send_replies (S (length replies)) (sort replies))).

(** [handle_clear]; [shuffle] is the random order. The replies are not sent. *)
Definition handle_clear (shuffle : list str → list str) (max : nat) (env : WriteEnv)
    (ss : list Store) : res unit (list Store) :=
  let paths := concat ((fun s =>
    order_paths (published_for_id s (pub_id (we_publisher env)))) <$> ss) in
  res_bind (handle_queued_write max env ss (Unpublish <$> shuffle paths)) (fun '(ss, _) =>
  res_map fst (handle_queued_write max env ss [Clear])).

(** ** Reading from all shards *)

Definition read_dest (n : nat) (m : ToRead GS) : option nat :=
  match m with
  | TR_Resolve path => Some (shard_of n path)
  | _ => None
  end.
Definition read_cost (m : ToRead GS) : Z :=
  match m with
  | TR_Resolve _ | TR_GetChangeNr _ => 1
  | TR_List _ | TR_Table _ => 10000
  | TR_ListMatching _ => 100000
  end.
(** [while c < MAX_READ_BATCH { .. }] *)
Fixpoint fill_read (max : Z) (shards : nat) (c n : Z) (by_shard : list (list (Z * ToRead GS)))
    (msgs : list (ToRead GS)) : bool * Z * list (list (Z * ToRead GS)) * list (ToRead GS) :=
  if max <=? c then (false, n, by_shard, msgs)
  else
    match msgs with
    | [] => (true, n, by_shard, [])
    | m :: msgs =>
        fill_read max shards (c + read_cost m) (n + 1)
          (push_to (read_dest shards m) (n, m) by_shard) msgs
    end.

(** The shards answer: their publishers merged, their replies kept apart *)
Fixpoint run_reads (env : ReadEnv) (i : nat) (ss : list Store)
    (by_shard : list (list (Z * ToRead GS))) : res unit (pubs * list (list (Z * FromRead))) :=
  match ss, by_shard with
  | s :: ss, b :: by_shard =>
      res_bind (process_read_batch i s env ∅ b) (fun '(ps, r) =>
      res_map (fun '(ps', rs) => (ps' ∪ ps, r :: rs)) (run_reads env (S i) ss by_shard))
  | _, _ => Ok (∅, [])
  end.

Definition front_is {A} (i : Z) (q : list (Z * A)) : bool :=
  match q with
  | (n, _) :: _ => n =? i
  | [] => false
  end.
(** [find_map]: the first queue that has the reply in front *)
Fixpoint pop_first {A} (i : Z) (qs : list (list (Z * A))) : option (A * list (list (Z * A))) :=
  match qs with
  | [] => None
  | q :: qs =>
      match q with
      | (n, x) :: q' => if n =? i then Some (x, q' :: qs)
                        else (fun '(x, qs) => (x, q :: qs)) <$> pop_first i qs
      | [] => (fun '(x, qs) => (x, q :: qs)) <$> pop_first i qs
      end
  end.
(** Every queue's front, as [pop_front().unwrap()] takes them *)
Fixpoint pop_all {A} (qs : list (list (Z * A))) : option (list A * list (list (Z * A))) :=
  match qs with
  | [] => Some ([], [])
  | ((_, x) :: q) :: qs => (fun '(xs, qs) => (x :: xs, q :: qs)) <$> pop_all qs
  | [] :: _ => None
  end.

(** The answers of the same kind from the other shards *)
Fixpoint as_lists (ms : list FromRead) : option (list (list str)) :=
  match ms with
  | [] => Some []
  | FR_List l :: ms => (l ::.) <$> as_lists ms
  | _ => None
  end.
Fixpoint as_matching (ms : list FromRead) : option (list ListMatching) :=
  match ms with
  | [] => Some []
  | FR_ListMatching l :: ms => (l ::.) <$> as_matching ms
  | _ => None
  end.
Fixpoint as_change_nrs (ms : list FromRead) : option (list Z) :=
  match ms with
  | [] => Some []
  | FR_GetChangeNr c :: ms => (z64 (gcn_change_number c) ::.) <$> as_change_nrs ms
  | _ => None
  end.
Fixpoint as_tables (ms : list FromRead) : option (list Table) :=
  match ms with
  | [] => Some []
  | FR_Table t :: ms => (t ::.) <$> as_tables ms
  | _ => None
  end.

(** [hcols.entry(p).or_insert(Z64(0)).0 += c.0] *)
Definition add_cols (m : gmap str Z) (cs : list (str * Z64)) : gmap str Z :=
  foldl (fun m '(p, c) => <[p := wrap 64 (default 0 (m !! p) + z64 c)]> m) m cs.
Definition cols_map (cs : list (str * Z64)) : gmap str Z :=
  foldl (fun m '(p, c) => <[p := z64 c]> m) ∅ cs.

Definition from_option_panic {A} (o : option A) : res unit A :=
  match o with Some a => Ok a | None => Panic end.

(** The comparison of [same!]: the derived [==], referrals compared by their own *)
Definition same_reply (m v : FromRead) : bool :=
  match m, v with
  | FR_Referral a, FR_Referral b => referral_eq a b
  | FR_Denied, FR_Denied => true
  | _, _ => false
  end.

(** The merge of the replies of all shards to one broadcast request *)
Definition merge_replies (m : FromRead) (ms : list FromRead) : res unit FromRead :=
  match m with
  | FR_Publisher _ | FR_Resolved _ => Panic
  | FR_Referral _ | FR_Denied => if forallb (same_reply m) ms then Ok m else Panic
  | FR_Error e => Ok (FR_Error e)
  | FR_List paths =>
      res_map (fun ls => FR_List (order_paths (list_to_set paths ∪ ⋃ (list_to_set <$> ls))))
        (from_option_panic (as_lists ms))
  | FR_ListMatching lm =>
      res_map (fun ls =>
        FR_ListMatching (MkListMatching (lm_matched lm ++ concat (lm_matched <$> ls))
          (lm_referrals lm))) (from_option_panic (as_matching ms))
  | FR_GetChangeNr cn =>
      res_map (fun cs =>
        FR_GetChangeNr (MkGetChangeNr
          (MkZ64 (foldl (fun a c => wrap 64 (a + c)) (z64 (gcn_change_number cn)) cs))
          (gcn_resolver cn) (gcn_referrals cn))) (from_option_panic (as_change_nrs ms))
  | FR_Table t =>
      res_map (fun ts =>
        FR_Table (MkTable
          (order_paths (list_to_set (tbl_rows t) ∪ ⋃ ((fun t => list_to_set (tbl_rows t)) <$> ts)))
          ((fun '(p, c) => (p, MkZ64 c)) <$>
             order_cols (foldl add_cols (cols_map (tbl_cols t)) (tbl_cols <$> ts)))))
        (from_option_panic (as_tables ms))
  end.

(** [for i in 0..n { .. }] *)
Definition merge_one (i : Z) (replies : list (list (Z * FromRead)))
  : res unit (FromRead * list (list (Z * FromRead))) :=
  if bool_decide (length replies = 1%nat) || negb (forallb (front_is i) replies) then
    from_option_panic (pop_first i replies)
  else
    match pop_all replies with
    | Some (m :: ms, replies) => res_map (fun r => (r, replies)) (merge_replies m ms)
    | _ => Panic
    end.
Fixpoint merge_from (k : nat) (i : Z) (replies : list (list (Z * FromRead)))
  : res unit (list FromRead) :=
  match k with
  | O => Ok []
  | S k =>
      res_bind (merge_one i replies) (fun '(r, replies) =>
      res_map (cons r) (merge_from k (i + 1) replies))
  end.

(** [handle_batch_read]: what is queued on the connection *)
Fixpoint read_loop (fuel : nat) (max : Z) (env : ReadEnv) (ss : list Store)
    (msgs : list (ToRead GS)) : res unit (list FromRead) :=
  match fuel with
  | O => Panic
  | S fuel =>
      let '(finished, n, by_shard, msgs) :=
        fill_read max (length ss) 0 0 (replicate (length ss) []) msgs in
      if forallb is_empty by_shard then
        if finished then Ok [] else Panic
      else
        res_bind (run_reads env 0 ss by_shard) (fun '(ps, replies) =>
        res_bind (merge_from (Z.to_nat n) 0 replies) (fun out =>
        let out := (FR_Publisher <$> order_pubs ps) ++ out in
        if finished then Ok out
        else res_map (app out) (read_loop fuel max env ss msgs)))
  end.
Definition handle_batch_read (max : Z) (env : ReadEnv) (ss : list Store) (msgs : list (ToRead GS))
  : res unit (list FromRead) :=
  read_loop (S (S (length msgs))) max env ss msgs.
End Shard.
