(* ===== verification/ShardWrite.v ===== *)
(** Writing to the sharded store: however the messages are cut into batches and
    spread over the shards, the shards together hold the relation one store
    would hold, and every message gets the one reply it is due. *)
From Stdlib Require Import ZArith Lia.
From stdpp Require Import base gmap list strings sorting.
From Stdlib Require Import Strings.Byte.
From S2P Require Import Prelude Varint Pack Containers PackTypes Path PathFacts Order Glob Derive Proto Store StoreFacts StoreRead Permissions Shard.

(** ** The parent server stays the same *)

Section Parent.
Context {ES : Escaping} {ESO : EscapingOk ES} {LV : Live}.

Lemma cleanup_parent s pub path : parent (unpublish_cleanup s pub path) = parent s.
Proof.
  pose proof (cleanup_fields s pub path) as H. cbv zeta in H.
  by destruct H as (_ & _ & _ & _ & _ & ? & _).
Qed.
Lemma remove_column_parent s p : parent (remove_column s p) = parent s.
Proof. rewrite remove_column_frame. reflexivity. Qed.
Lemma remove_column_children s p : children (remove_column s p) = children s.
Proof. rewrite remove_column_frame. reflexivity. Qed.

Lemma unpublish_parent s pub (d : bool) path : parent (unpublish s pub d path) = parent s.
Proof.
  unfold unpublish. destruct d; fields.
  - destruct (defaults_by_path s !! path) as [X|]; [|reflexivity].
    destruct (hc_remove (sets s) X (pub_id pub)) as [[Y|] h].
    + destruct (bool_decide _); [by rewrite cleanup_parent|reflexivity].
    + by rewrite cleanup_parent.
  - destruct (published_by_path s !! path) as [X|]; [|reflexivity].
    destruct (hc_remove (sets s) X (pub_id pub)) as [[Y|] h].
    + destruct (bool_decide _); [by rewrite cleanup_parent, remove_column_parent|reflexivity].
    + by rewrite cleanup_parent, remove_column_parent.
Qed.
Lemma clear_parent drain s pub : parent (clear drain s pub) = parent s.
Proof.
  unfold clear.
  assert (H : ∀ d l s, parent (foldl (fun s path => unpublish s pub d path) s l) = parent s).
  { intros d l. induction l as [|p l IH]; intros t; [reflexivity|]. cbn [foldl].
    by rewrite IH, unpublish_parent. }
  by rewrite !H.
Qed.
Lemma publish_parent s path pub (d : bool) fl :
  self_ok s → parent (publish s path pub d fl) = parent s.
Proof.
  intros Hs. pose proof (publish_fields s path pub d fl Hs) as H. cbv zeta in H.
  by destruct H as (_ & _ & _ & _ & _ & _ & _ & _ & _ & ? & _).
Qed.

Lemma check_referral_same s t path :
  parent s = parent t → children s = children t → check_referral s path = check_referral t path.
Proof. intros Hp Hc. unfold check_referral. by rewrite Hp, Hc. Qed.

(** A path that is referred nowhere is not a child server's. *)
Lemma no_referral_no_child s path :
  check_referral s path = None → children s !! path = None.
Proof.
  intros Hn. destruct (children s !! path) as [r|] eqn:E; [|done]. exfalso.
  unfold check_referral in Hn.
  change (last (bt_range Unbounded (Included path) (children s)))
    with (nearest (children s) path) in Hn.
  assert (Hself : str_le path path) by reflexivity.
  rewrite (nearest_is (children s) path path r E Hself) in Hn by (by intros q _).
  assert (Hpar : is_parent path path = true).
  { unfold is_parent, starts_with. rewrite (bool_decide_true (path `prefix_of` path)) by done.
    rewrite Z.eqb_refl. by destruct (bool_decide _). }
  rewrite Hpar in Hn. destruct (parent s) as [q|]; [|done].
  by destruct (negb (is_parent (ref_path q) path)).
Qed.
End Parent.

(** ** One message *)

Section Message.
Context {ES : Escaping} {ESO : EscapingOk ES} {LV : Live} {HO : HashOrder} {HOK : HashOrderOk HO}.
Context (who : PublisherId → Publisher) (par : option Referral) (ch : gmap str Referral).
Context (env : WriteEnv).

(** Where the tree's other servers are, whatever is published *)
Definition referral_of (path : str) : option Referral :=
  check_referral (MkStore ∅ ∅ ∅ ∅ ∅ ∅ ∅ ∅ ∅ par ch hc_new) path.
Definition may_publish (d : bool) (path : str) : res unit bool :=
  allowed_opt (sec_pmap (we_sec env) (we_pmap env)) path
    (if d then PUBLISH_DEFAULT else PUBLISH) (we_uifo env).

(** What a message asks for *)
Inductive request := AskPublish (path : str) (d : bool) (flags : option u32)
  | AskUnpublish (path : str) (d : bool) | AskClear | AskNothing.
Definition request_of (m : ToWrite) : request :=
  match m with
  | Publish p => AskPublish p false None
  | PublishWithFlags p f => AskPublish p false (Some f)
  | PublishDefault p => AskPublish p true None
  | PublishDefaultWithFlags p f => AskPublish p true (Some f)
  | Unpublish p => AskUnpublish p false
  | UnpublishDefault p => AskUnpublish p true
  | Clear => AskClear
  | Heartbeat => AskNothing
  end.

(** The reply it is due and the change it makes *)
Definition due (m : ToWrite) : FromWrite * option op :=
  let pub := we_publisher env in
  match request_of m with
  | AskPublish p d fl =>
      if negb (is_absolute p) then (FW_Error ABSOLUTE, None)
      else match referral_of p with
           | Some r => (FW_Referral r, None)
           | None => match may_publish d p with
                     | Ok true => (FW_Published, Some (OpPublish p pub d fl))
                     | _ => (FW_Denied, None)
                     end
           end
  | AskUnpublish p d =>
      if negb (is_absolute p) then (FW_Error ABSOLUTE, None)
      else match referral_of p with
           | Some r => (FW_Referral r, None)
           | None => (FW_Unpublished, Some (OpUnpublish pub d p))
           end
  | AskClear => (FW_Unpublished, Some (OpClear pub))
  | AskNothing => (FW_Unpublished, None)
  end.
Definition reply (m : ToWrite) : FromWrite := (due m).1.
(** Its effect on the publishers of one kind at one path *)
Definition effect (e : bool) (q : str) (X : ids) (m : ToWrite) : ids :=
  match (due m).2 with
  | Some o => spec_step (fun _ _ => X) o e q
  | None => X
  end.

(** Messages the server can process: their paths are well formed if absolute,
    and looking up the permissions does not panic. *)
Definition msg_ok (m : ToWrite) : Prop :=
  match request_of m with
  | AskPublish p d _ => (is_absolute p = true → good p) ∧ ∃ b, may_publish d p = Ok b
  | AskUnpublish p _ => is_absolute p = true → good p
  | AskClear => True
  | AskNothing => False
  end.

Definition shard_ok (s : Store) : Prop := run_ok who s ∧ children s = ch ∧ parent s = par.

Lemma spec_step_point a o e q : spec_step a o e q = spec_step (fun _ _ => a e q) o e q.
Proof. by destruct o. Qed.

Context (Hwho : who (pub_id (we_publisher env)) = we_publisher env).

Lemma referral_of_eq s path : shard_ok s → check_referral s path = referral_of path.
Proof. intros (_ & Hc & Hp). by apply check_referral_same. Qed.

Lemma step_shard s o :
  shard_ok s → op_ok who ch o → parent (step order_paths s o) = parent s →
  shard_ok (step order_paths s o) ∧
  ∀ e q, pubs_at (step order_paths s o) e q = spec_step (fun _ _ => pubs_at s e q) o e q.
Proof.
  intros (Hr & Hc & Hp) Ho Hpar. rewrite <- Hc in Ho.
  destruct (step_spec who order_paths s o order_paths_perm Hr Ho) as (Hr' & Hc' & Hq).
  split; [|intros e q; by rewrite Hq, spec_step_point].
  split; [done|]. split; congruence.
Qed.

Lemma process_write_spec s m :
  shard_ok s → msg_ok m →
  ∃ s', process_write s env m = Ok (s', reply m) ∧ shard_ok s' ∧
    ∀ e q, pubs_at s' e q = effect e q (pubs_at s e q) m.
Proof.
  intros Hs Hm.
  assert (Hpub : ∀ p d fl, (is_absolute p = true → good p) → (∃ b, may_publish d p = Ok b) →
    request_of m = AskPublish p d fl →
    ∃ s', write_publish s env p d fl = Ok (s', reply m) ∧ shard_ok s' ∧
      ∀ e q, pubs_at s' e q = effect e q (pubs_at s e q) m).
  { intros p d fl Hg [b Hb] Hreq. unfold write_publish, effect, reply, due. rewrite Hreq.
    destruct (is_absolute p); cbn [negb]; [|by exists s].
    rewrite (referral_of_eq s) by done. destruct (referral_of p) eqn:Er; [by exists s|].
    fold (may_publish d p). rewrite Hb. cbn [res_map]. destruct b; [|by exists s].
    destruct (step_shard s (OpPublish p (we_publisher env) d fl)) as [H1 H2]; [done| | |].
    - split; [by apply Hg|]. split; [|done].
      rewrite <- (referral_of_eq s) in Er by done. apply no_referral_no_child in Er.
      by destruct Hs as (_ & <- & _).
    - apply publish_parent. apply Hs.
    - eauto. }
  assert (Hun : ∀ p d, (is_absolute p = true → good p) → request_of m = AskUnpublish p d →
    ∃ s', write_unpublish s env p d = Ok (s', reply m) ∧ shard_ok s' ∧
      ∀ e q, pubs_at s' e q = effect e q (pubs_at s e q) m).
  { intros p d Hg Hreq. unfold write_unpublish, effect, reply, due. rewrite Hreq.
    destruct (is_absolute p); cbn [negb]; [|by exists s].
    rewrite (referral_of_eq s) by done. destruct (referral_of p) eqn:Er; [by exists s|].
    destruct (step_shard s (OpUnpublish (we_publisher env) d p)) as [H1 H2]; [done| | |].
    - split; [by apply Hg|]. split; [|done].
      rewrite <- (referral_of_eq s) in Er by done. apply no_referral_no_child in Er.
      by destruct Hs as (_ & <- & _).
    - apply unpublish_parent.
    - eauto. }
  destruct m; unfold msg_ok in Hm; cbn [request_of] in Hm; cbn [process_write];
    try (apply Hpub; tauto); try (by apply Hun); [|done].
  destruct (step_shard s (OpClear (we_publisher env))) as [H1 H2]; [done|done| |eauto].
  apply clear_parent.
Qed.

Lemma process_write_batch_spec s batch :
  shard_ok s → Forall (fun x => msg_ok x.2) batch →
  ∃ s', process_write_batch s env batch = Ok (s', (fun x => (x.1, reply x.2)) <$> batch) ∧
    shard_ok s' ∧
    ∀ e q, pubs_at s' e q = foldl (effect e q) (pubs_at s e q) batch.*2.
Proof.
  revert s; induction batch as [|[n m] batch IH]; intros s Hs Hb; cbn [process_write_batch].
  { by exists s. }
  apply Forall_cons in Hb as [Hm Hb]. cbn in Hm.
  destruct (process_write_spec s m Hs Hm) as (s1 & -> & Hs1 & Hq1). cbn [res_bind].
  destruct (IH s1 Hs1 Hb) as (s2 & -> & Hs2 & Hq2). cbn [res_map].
  exists s2. split; [done|]. split; [done|]. intros e q. rewrite Hq2, Hq1. done.
Qed.
End Message.

(** ** Routing *)

Section Routing.
Context {ES : Escaping} {ESO : EscapingOk ES} {LV : Live} {HO : HashOrder} {HOK : HashOrderOk HO}.
Context {PH : PathHash}.

Lemma shard_of_lt n path : (0 < n)%nat → (shard_of n path < n)%nat.
Proof.
  intros Hn. unfold shard_of.
  assert (H : 0 ≤ Z.land (path_hash path) (Z.of_nat n - 1) ≤ Z.of_nat n - 1).
  { split; [apply Z.land_nonneg; lia|]. apply Z.ldiff_le; [lia|].
    rewrite Z.land_comm. apply Z.bits_inj'. intros b Hb.
    rewrite Z.ldiff_spec, Z.land_spec, Z.bits_0.
    by destruct (Z.testbit (Z.of_nat n - 1) b), (Z.testbit (path_hash path) b). }
  lia.
Qed.

(** The messages that count, numbered from [n] *)
Fixpoint numbered (n : Z) (msgs : list ToWrite) : list (Z * ToWrite) :=
  match msgs with
  | [] => []
  | Heartbeat :: msgs => numbered n msgs
  | m :: msgs => (n, m) :: numbered (n + 1) msgs
  end.
Definition counted (msgs : list ToWrite) : list ToWrite := filter (.≠ Heartbeat) msgs.
Definition goes_to (dest : option nat) (i : nat) : bool :=
  match dest with Some j => bool_decide (j = i) | None => true end.
Definition for_shard {A} (dest : A → option nat) (i : nat) (l : list (Z * A)) : list (Z * A) :=
  filter (fun x => goes_to (dest x.2) i = true) l.

Lemma numbered_cons n m msgs :
  m ≠ Heartbeat → numbered n (m :: msgs) = (n, m) :: numbered (n + 1) msgs.
Proof. by destruct m. Qed.

Lemma numbered_app n xs ys :
  numbered n (xs ++ ys) = numbered n xs ++ numbered (n + zlen (numbered n xs)) ys.
Proof.
  revert n; induction xs as [|m xs IH]; intros n; [cbn; by rewrite zlen_nil, Z.add_0_r|].
  cbn [app]. destruct (decide (m = Heartbeat)) as [->|Hm]; [apply IH|].
  rewrite !numbered_cons by done. rewrite IH, zlen_cons. cbn [app].
  by replace (n + (1 + zlen (numbered (n + 1) xs))) with (n + 1 + zlen (numbered (n + 1) xs)) by lia.
Qed.
Lemma numbered_snd n msgs : (numbered n msgs).*2 = counted msgs.
Proof.
  revert n; induction msgs as [|m msgs IH]; intros n; [done|]. unfold counted.
  destruct (decide (m = Heartbeat)) as [->|Hm].
  - rewrite filter_cons_False by (by intros ?). apply IH.
  - rewrite numbered_cons, filter_cons_True by done. cbn. by rewrite IH.
Qed.
Lemma numbered_fst n msgs : Forall (fun x => n ≤ x.1) (numbered n msgs).
Proof.
  revert n; induction msgs as [|m msgs IH]; intros n; [constructor|].
  destruct (decide (m = Heartbeat)) as [->|Hm]; [apply IH|]. rewrite numbered_cons by done.
  constructor; [cbn; lia|]. eapply Forall_impl; [apply IH|]. cbn. lia.
Qed.
Lemma numbered_sorted n msgs : StronglySorted (fun x y => x.1 < y.1) (numbered n msgs).
Proof.
  revert n; induction msgs as [|m msgs IH]; intros n; [constructor|].
  destruct (decide (m = Heartbeat)) as [->|Hm]; [apply IH|]. rewrite numbered_cons by done.
  constructor; [apply IH|]. eapply Forall_impl; [apply numbered_fst|]. cbn. lia.
Qed.

Lemma keyed_sorted {A B} (f : A → B) (l : list (Z * A)) :
  StronglySorted (fun x y : Z * A => x.1 < y.1) l →
  StronglySorted (fun x y : Z * B => x.1 < y.1) ((fun y : Z * A => (y.1, f y.2)) <$> l).
Proof.
  induction 1 as [|x l _ IH Hx]; [constructor|]. cbn [fmap list_fmap].
  constructor; [exact IH|]. by apply Forall_fmap.
Qed.
Lemma push_to_lookup {A} (dest : option nat) (x : A) by_shard i :
  push_to dest x by_shard !! i =
  (fun b => if goes_to dest i then b ++ [x] else b) <$> by_shard !! i.
Proof.
  destruct dest as [j|]; cbn [push_to goes_to].
  - unfold push_one. destruct (decide (j = i)) as [->|Hne].
    + rewrite bool_decide_true by done. by rewrite list_lookup_alter_eq.
    + rewrite bool_decide_false by done. rewrite list_lookup_alter_ne by done.
      by destruct (by_shard !! i).
  - unfold push_all. by rewrite list_lookup_fmap.
Qed.
Lemma push_to_length {A} dest (x : A) by_shard : length (push_to dest x by_shard) = length by_shard.
Proof. destruct dest; cbn; [apply length_alter|apply length_fmap]. Qed.

(** What a round takes *)
Lemma fill_write_spec room k n by_shard msgs :
  ∃ taken rest fin, msgs = taken ++ rest ∧
    (fin = true → rest = []) ∧ (fin = false → length taken = room) ∧
    let '(f, n', by', r) := fill_write room k n by_shard msgs in
    f = fin ∧ n' = n + zlen (numbered n taken) ∧ r = rest ∧ length by' = length by_shard ∧
    ∀ i, by' !! i = (.++ for_shard (write_dest k) i (numbered n taken)) <$> by_shard !! i.
Proof.
  assert (Hid : ∀ i (bs : list (list (Z * ToWrite))), bs !! i = (.++ []) <$> bs !! i).
  { intros i bs. destruct (bs !! i); cbn; [by rewrite app_nil_r|done]. }
  revert n by_shard msgs; induction room as [|room IH]; intros n bs msgs.
  { exists [], msgs, false. cbn [fill_write numbered]. rewrite zlen_nil, Z.add_0_r.
    split_and!; done. }
  destruct msgs as [|m msgs].
  { exists [], [], true. cbn [fill_write numbered]. rewrite zlen_nil, Z.add_0_r.
    split_and!; done. }
  destruct (decide (m = Heartbeat)) as [->|Hm].
  { destruct (IH n bs msgs) as (taken & rest & fin & -> & H1 & H2 & H3).
    exists (Heartbeat :: taken), rest, fin. split; [done|]. split; [done|].
    split; [intros Hf; cbn; by rewrite H2|]. exact H3. }
  assert (Hstep : fill_write (S room) k n bs (m :: msgs) =
    fill_write room k (n + 1) (push_to (write_dest k m) (n, m) bs) msgs) by (by destruct m).
  rewrite Hstep.
  destruct (IH (n + 1) (push_to (write_dest k m) (n, m) bs) msgs)
    as (taken & rest & fin & -> & H1 & H2 & H3).
  exists (m :: taken), rest, fin. split; [done|]. split; [done|].
  split; [intros Hf; cbn; by rewrite H2|].
  destruct (fill_write room k (n + 1) _ (taken ++ rest)) as [[[f n'] by'] r].
  destruct H3 as (-> & -> & -> & Hl & H3). rewrite numbered_cons by done.
  split; [done|]. split; [rewrite zlen_cons; lia|]. split; [done|].
  split; [by rewrite Hl, push_to_length|]. intros i. rewrite H3, push_to_lookup.
  destruct (bs !! i) as [b|]; [|done]. cbn [fmap option_fmap option_map]. f_equal. unfold for_shard.
  destruct (goes_to (write_dest k m) i) eqn:E.
  - rewrite filter_cons_True by done. by rewrite <- app_assoc.
  - by rewrite filter_cons_False by (cbn; congruence).
Qed.
End Routing.

(** ** All shards *)

Section Loop.
Context {ES : Escaping} {ESO : EscapingOk ES} {LV : Live} {HO : HashOrder} {HOK : HashOrderOk HO}.
Context {PH : PathHash}.
Context (who : PublisherId → Publisher) (par : option Referral) (ch : gmap str Referral).
Context (env : WriteEnv) (Hwho : who (pub_id (we_publisher env)) = we_publisher env).
Abbreviation sh_ok := (shard_ok who par ch).
Abbreviation rep := (reply par ch env).
Abbreviation eff := (effect par ch env).
Abbreviation answered := (fmap (M := list) (fun x : Z * ToWrite => (x.1, rep x.2))).

Lemma run_writes_spec ss by_shard :
  Forall sh_ok ss → length by_shard = length ss →
  Forall (Forall (fun x => msg_ok env x.2)) by_shard →
  ∃ ss', run_writes env ss by_shard = Ok (ss', concat (answered <$> by_shard)) ∧
    length ss' = length ss ∧ Forall sh_ok ss' ∧
    ∀ i s s' b, ss !! i = Some s → ss' !! i = Some s' → by_shard !! i = Some b →
      ∀ e q, pubs_at s' e q = foldl (eff e q) (pubs_at s e q) b.*2.
Proof.
  revert by_shard; induction ss as [|s ss IH]; intros [|b bs] Hs Hl Hb; try done; cbn [run_writes].
  { by exists []. }
  apply Forall_cons in Hs as [Hs Hss]. apply Forall_cons in Hb as [Hb Hbs]. injection Hl as Hl.
  destruct (process_write_batch_spec who par ch env Hwho s b Hs Hb) as (s1 & -> & Hs1 & Hq1).
  cbn [res_bind]. destruct (IH bs Hss Hl Hbs) as (ss' & -> & Hl' & Hss' & Hq).
  cbn [res_map]. exists (s1 :: ss'). split; [done|]. split; [cbn; by rewrite Hl'|].
  split; [by constructor|]. intros [|i] t t' c Ht Ht' Hc; cbn in *; [by simplify_eq|by eapply Hq].
Qed.

Lemma elem_of_concat {A} (x : A) ls : x ∈ concat ls ↔ ∃ l, x ∈ l ∧ l ∈ ls.
Proof.
  rewrite list_elem_of_In, in_concat. split; intros (l & H1 & H2); exists l;
    by rewrite !list_elem_of_In in *.
Qed.

Lemma all_empty {A} (bs : list (list A)) : forallb is_empty bs = true ↔ ∀ i b, bs !! i = Some b → b = [].
Proof.
  rewrite forallb_forall. split.
  - intros H i b Hb. specialize (H b (proj1 (list_elem_of_In _ _) (list_elem_of_lookup_2 _ _ _ Hb))).
    by destruct b.
  - intros H b [i Hi]%list_elem_of_In%list_elem_of_lookup. by rewrite (H i b Hi).
Qed.

(** Every counted message has a shard. *)
Lemma somewhere k (x : Z * ToWrite) l :
  (0 < k)%nat → x ∈ l → ∃ i, (i < k)%nat ∧ x ∈ for_shard (write_dest k) i l.
Proof.
  intros Hk Hx. unfold for_shard. destruct (write_dest k x.2) as [j|] eqn:E.
  - exists j. assert (j < k)%nat.
    { destruct (x.2); cbn in E; try done; injection E as <-; by apply shard_of_lt. }
    split; [done|]. apply list_elem_of_filter. rewrite E. cbn. by rewrite bool_decide_true.
  - exists O. split; [done|]. apply list_elem_of_filter. by rewrite E.
Qed.

Lemma for_shard_app {A} (dest : A → option nat) i l1 l2 :
  for_shard dest i (l1 ++ l2) = for_shard dest i l1 ++ for_shard dest i l2.
Proof. apply filter_app. Qed.

Lemma for_shard_ok i k l :
  Forall (fun x : Z * ToWrite => msg_ok env x.2) l →
  Forall (fun x => msg_ok env x.2) (for_shard (write_dest k) i l).
Proof. intros H. by apply Forall_filter. Qed.

(** The relation between the shards before and after the messages *)
Definition wrote (ss ss' : list Store) (ms : list (Z * ToWrite)) : Prop :=
  length ss' = length ss ∧
  ∀ i s s', ss !! i = Some s → ss' !! i = Some s' → ∀ e q,
    pubs_at s' e q =
      foldl (eff e q) (pubs_at s e q) (for_shard (write_dest (length ss)) i ms).*2.

Lemma wrote_trans ss1 ss2 ss3 l1 l2 :
  wrote ss1 ss2 l1 → wrote ss2 ss3 l2 → wrote ss1 ss3 (l1 ++ l2).
Proof.
  intros [Hl1 H1] [Hl2 H2]. split; [by rewrite Hl2|]. intros i s s3 Hs Hs3 e q.
  assert (Hi : (i < length ss2)%nat) by (rewrite Hl1; by eapply lookup_lt_Some).
  destruct (lookup_lt_is_Some_2 ss2 i Hi) as [s2 Hs2].
  rewrite (H2 i s2 s3) by done. rewrite (H1 i s s2) by done.
  by rewrite Hl1, for_shard_app, fmap_app, foldl_app.
Qed.

Lemma counted_some max (taken : list ToWrite) n :
  (length (filter (.= Heartbeat) taken) < max)%nat → length taken = max → numbered n taken ≠ [].
Proof.
  intros Hh Hl Hn. apply (f_equal (fmap snd)) in Hn. rewrite numbered_snd in Hn.
  assert (Hall : filter (.= Heartbeat) taken = taken).
  { clear Hh Hl. unfold counted in Hn. induction taken as [|m t IH]; [done|].
    destruct (decide (m = Heartbeat)) as [->|Hm].
    - rewrite filter_cons_True by done. f_equal. apply IH.
      by rewrite filter_cons_False in Hn by (by intros ?).
    - by rewrite filter_cons_True in Hn. }
  rewrite Hall in Hh. lia.
Qed.

Lemma write_loop_spec fuel max n ss replies msgs :
  (0 < length ss)%nat → (length msgs < fuel)%nat →
  (length (filter (.= Heartbeat) msgs) < max)%nat →
  Forall sh_ok ss → Forall (fun x => msg_ok env x.2) (numbered n msgs) →
  ∃ ss' rs, write_loop fuel max env n ss replies msgs = Ok (ss', replies ++ rs) ∧
    Forall sh_ok ss' ∧ wrote ss ss' (numbered n msgs) ∧
    ∀ x, x ∈ rs ↔ x ∈ answered (numbered n msgs).
Proof.
  intros Hk. revert n ss replies msgs Hk; induction fuel as [|fuel IH];
    intros n ss replies msgs Hk Hf Hh Hs Hm; [lia|]. cbn [write_loop].
  destruct (fill_write_spec max (length ss) n (replicate (length ss) []) msgs)
    as (taken & rest & fin & -> & Hfin & Hfull & Hfill).
  destruct (fill_write max (length ss) n (replicate (length ss) []) (taken ++ rest))
    as [[[f n'] bs] r]. destruct Hfill as (-> & -> & -> & Hl & Hbs).
  rewrite length_replicate in Hl.
  assert (Hb : ∀ i b, bs !! i = Some b ↔
    (i < length ss)%nat ∧ b = for_shard (write_dest (length ss)) i (numbered n taken)).
  { intros i b. rewrite Hbs. destruct (decide (i < length ss)%nat) as [Hi|Hi].
    - rewrite lookup_replicate_2 by done. cbn. split; [intros [= <-]; done|intros [_ ->]; done].
    - rewrite lookup_ge_None_2 by (rewrite length_replicate; lia). cbn.
      split; [done|intros [? _]; lia]. }
  rewrite numbered_app in Hm |- *. apply Forall_app in Hm as [Hm1 Hm2].
  rewrite filter_app, length_app in Hh. rewrite length_app in Hf.
  destruct (forallb is_empty bs) eqn:Eempty.
  - assert (Hnil : numbered n taken = []).
    { destruct (numbered n taken) as [|x l] eqn:E; [done|]. exfalso.
      destruct (somewhere (length ss) x (x :: l) Hk) as (i & Hi & Hx); [by left|].
      pose proof (proj1 (all_empty bs) Eempty i _ (proj2 (Hb i _) (conj Hi eq_refl))) as Hz.
      rewrite Hz in Hx. by apply elem_of_nil in Hx. }
    destruct fin; [|by destruct (counted_some max taken n); [lia|auto|]].
    rewrite Hfin, Hnil by done. exists ss, []. rewrite app_nil_r.
    split; [done|]. split; [done|]. split; [|done]. split; [done|]. intros i s s' Hs1 Hs2 e q.
    by simplify_eq.
  - destruct (run_writes_spec ss bs Hs Hl) as (ss1 & -> & Hl1 & Hs1 & Hq1).
    { apply Forall_forall. intros b [i [Hi ->]%Hb]%list_elem_of_lookup. by apply for_shard_ok. }
    cbn [res_bind].
    assert (Hw1 : wrote ss ss1 (numbered n taken)).
    { split; [done|]. intros i s s' Hsi Hsi' e q.
      apply (Hq1 i s s'); [done..|]. apply Hb. split; [by eapply lookup_lt_Some|done]. }
    assert (Hrs1 : ∀ x, x ∈ concat (answered <$> bs) ↔ x ∈ answered (numbered n taken)).
    { intros x. rewrite elem_of_concat. split.
      - intros (b & Hx & (b0 & -> & [i [Hi ->]%Hb]%list_elem_of_lookup)%list_elem_of_fmap).
        apply list_elem_of_fmap in Hx as (y & -> & [_ Hy]%list_elem_of_filter).
        by apply (list_elem_of_fmap_2 (fun x => (x.1, rep x.2))).
      - intros (y & -> & Hy)%list_elem_of_fmap.
        destruct (somewhere (length ss) y _ Hk Hy) as (i & Hi & Hyi).
        eexists. split; [by apply (list_elem_of_fmap_2 (fun x => (x.1, rep x.2)))|].
        apply (list_elem_of_fmap_2 (fmap (fun x => (x.1, rep x.2)))), list_elem_of_lookup. exists i.
        by apply Hb. }
    destruct (IH (n + zlen (numbered n taken)) ss1 (replies ++ concat (answered <$> bs)) rest)
      as (ss' & rs & -> & Hs' & Hw & Hrs); try done.
    + lia.
    + assert (taken ≠ []); [|destruct taken; [done|cbn in Hf; lia]].
      intros ->. cbn in *. apply not_true_iff_false in Eempty. apply Eempty, all_empty.
      by intros i b [_ ->]%Hb.
    + lia.
    + exists ss', (concat (answered <$> bs) ++ rs). rewrite <- app_assoc.
      split; [done|]. split; [done|]. split; [by eapply wrote_trans|].
      intros x. rewrite fmap_app, !elem_of_app, Hrs1, Hrs. done.
Qed.
End Loop.

(** ** Sending the replies *)

Lemma skip_same_spec n m (l : list (Z * FromWrite)) :
  StronglySorted (fun x y => x.1 ≤ y.1) l →
  Forall (fun x => n ≤ x.1) l → (∀ m', (n, m') ∈ l → m' = m) →
  ∃ l1 l2, l = l1 ++ l2 ∧ skip_same n m l = Ok l2 ∧ Forall (.= (n, m)) l1 ∧
    Forall (fun x => n < x.1) l2.
Proof.
  intros Hs. induction Hs as [|[i m2] l Hs IH Hle]; intros Hn Hm; [by exists [], []|].
  apply Forall_cons in Hn as [Hi Hn]. cbn in Hi. cbn [skip_same].
  destruct (Z.eqb_spec i n) as [->|Hne]; cbn [negb].
  - assert (m2 = m) as -> by (apply Hm; by left).
    rewrite Z.eqb_refl. cbn [negb].
    destruct IH as (l1 & l2 & -> & Hsk & H1 & H2); [done|intros m' Hin; apply Hm; by right|].
    exists ((n, m) :: l1), l2. split; [done|]. split; [done|]. split; [by constructor|done].
  - exists [], ((i, m2) :: l). split; [done|]. split; [done|]. split; [constructor|].
    constructor; [cbn; lia|]. eapply Forall_impl; [exact Hle|]. cbn. intros x Hx. lia.
Qed.

Lemma send_replies_spec fuel (t l : list (Z * FromWrite)) :
  (length l < fuel)%nat → StronglySorted (fun x y => x.1 < y.1) t →
  StronglySorted (fun x y => x.1 ≤ y.1) l → (∀ x, x ∈ l ↔ x ∈ t) →
  send_replies fuel l = Ok t.*2.
Proof.
  intros Hf Ht. revert fuel l Hf. induction Ht as [|[n m] t Ht IH Hlt]; intros fuel l Hf Hs Hin.
  { assert (l = []) as ->.
    { apply elem_of_nil_inv. intros x Hx%Hin. by apply elem_of_nil in Hx. }
    destruct fuel; [cbn in Hf; lia|done]. }
  assert (Hkey : ∀ x, x ∈ (n, m) :: t → n ≤ x.1 ∧ (x.1 = n → x = (n, m))).
  { intros x [->|Hx]%elem_of_cons; [done|]. rewrite Forall_forall in Hlt.
    specialize (Hlt x Hx). cbn in Hlt. split; [lia|]. intros ?. lia. }
  destruct l as [|[n0 m0] l]; [by destruct (proj1 (elem_of_nil _) (proj2 (Hin (n, m)) ltac:(by left)))|].
  apply StronglySorted_inv in Hs as [Hs Hle].
  assert ((n0, m0) = (n, m)) as [= -> ->].
  { apply Hkey; [apply Hin; by left|].
    assert (Hnm : (n, m) ∈ (n0, m0) :: l) by (apply Hin; by left).
    destruct (Hkey (n0, m0) ltac:(apply Hin; by left)) as [Hge _]. cbn in *.
    apply elem_of_cons in Hnm as [[= -> _]|Hnm]; [done|].
    rewrite Forall_forall in Hle. specialize (Hle _ Hnm). cbn in Hle. lia. }
  destruct (skip_same_spec n m l Hs Hle) as (l1 & l2 & -> & Hsk & H1 & H2).
  { intros m' Hm'. assert ((n, m') = (n, m)) by (apply Hkey; [apply Hin; by right|done]). congruence. }
  destruct fuel as [|fuel]; [cbn in Hf; lia|]. cbn [send_replies]. rewrite Hsk. cbn [res_bind].
  rewrite (IH fuel l2); [done| | |].
  - cbn in Hf. rewrite length_app in Hf. lia.
  - by apply StronglySorted_app in Hs as (_ & _ & ?).
  - intros x. rewrite Forall_forall in H1, H2, Hlt. specialize (Hin x).
    rewrite !elem_of_cons, elem_of_app in Hin. split.
    + intros Hx. destruct (proj1 Hin) as [->|?]; [auto| |done].
      specialize (H2 _ Hx). cbn in H2. lia.
    + intros Hx. destruct (proj2 Hin) as [->|[Hx1|?]]; [by right| | |done].
      * specialize (Hlt _ Hx). cbn in Hlt. lia.
      * apply H1 in Hx1 as ->. specialize (Hlt _ Hx). cbn in Hlt. lia.
Qed.

(** ** The shards as one store *)

Section Abstract.
Context {ES : Escaping} {ESO : EscapingOk ES} {LV : Live} {HO : HashOrder} {HOK : HashOrderOk HO}.
Context {PH : PathHash}.
Context (who : PublisherId → Publisher) (par : option Referral) (ch : gmap str Referral).

(** The publishers of a path are kept by its own shard, the default publishers
    by every shard. *)
Definition abs (ss : list Store) (e : bool) (q : str) : ids :=
  match ss !! (if e then O else shard_of (length ss) q) with
  | Some s => pubs_at s e q
  | None => ∅
  end.

Record shards_ok (ss : list Store) : Prop := {
  sk_some : (0 < length ss)%nat;
  sk_each : Forall (shard_ok who par ch) ss;
  sk_home i s q : ss !! i = Some s → pubs_at s false q ≠ ∅ → shard_of (length ss) q = i;
  sk_same i j s t q : ss !! i = Some s → ss !! j = Some t → pubs_at s true q = pubs_at t true q
}.

Lemma shards_new_ok k :
  (∀ p, is_Some (ch !! p) → good p) →
  shards_ok (shards_new k par ch) ∧ ∀ e q, abs (shards_new k par ch) e q = ∅.
Proof.
  intros Hch. destruct (Store_new_run_ok who par ch Hch) as (Hr & Hc & Hq).
  assert (Hpar : parent (Store_new par ch) = par).
  { unfold Store_new. generalize (bt_iter ch).*1. intros l.
    assert (H : ∀ s, parent (foldl (fun s child => add_parents s (append child (lit "z"))) s l) =
      parent s) by (induction l as [|p l IH]; intros s; [done|]; cbn [foldl]; by rewrite IH).
    by rewrite H. }
  assert (Hget : ∀ i s, shards_new k par ch !! i = Some s → s = Store_new par ch).
  { intros i s Hi. unfold shards_new in Hi. by apply lookup_replicate in Hi as [-> _]. }
  split.
  - split.
    + unfold shards_new. rewrite length_replicate. pose proof (Nat.pow_nonzero 2 k). lia.
    + apply Forall_replicate. by split_and!.
    + intros i s q ->%Hget Hne. by rewrite Hq in Hne.
    + by intros i j s t q ->%Hget ->%Hget.
  - intros e q. unfold abs. destruct (shards_new k par ch !! _) eqn:E; [|done].
    apply Hget in E as ->. apply Hq.
Qed.

Context (env : WriteEnv) (Hwho : who (pub_id (we_publisher env)) = we_publisher env).
Abbreviation rep := (reply par ch env).
Abbreviation eff := (effect par ch env).

(** A message of one path does nothing elsewhere. *)
Lemma effect_path k m j e q X :
  write_dest k m = Some j → (e = true ∨ shard_of k q ≠ j) → eff e q X m = X.
Proof.
  intros Hd Hcase. unfold effect, due.
  assert (Hskip : ∀ p, shard_of k p = j → (e = false ∧ q = p) → False).
  { intros p Hp [-> ->]. by destruct Hcase. }
  destruct m; cbn in Hd; try done; injection Hd as Hj; cbn [request_of];
    destruct (is_absolute _); cbn [negb]; try done; destruct (referral_of _ _ _); try done;
    try (destruct (may_publish _ _ _) as [[]| |]; try done);
    cbn [snd spec_step]; rewrite decide_False; eauto.
Qed.

Lemma fold_for_shard k i e q X (ms : list (Z * ToWrite)) :
  (e = true ∨ shard_of k q = i) →
  foldl (eff e q) X (for_shard (write_dest k) i ms).*2 = foldl (eff e q) X ms.*2.
Proof.
  intros Hc. revert X; induction ms as [|[n m] ms IH]; intros X; [done|]. unfold for_shard.
  destruct (goes_to (write_dest k m) i) eqn:E.
  - rewrite filter_cons_True by done. apply IH.
  - rewrite filter_cons_False by (cbn; congruence). cbn [fmap list_fmap foldl snd].
    destruct (write_dest k m) as [j|] eqn:Ej; [|done]. cbn in E.
    apply bool_decide_eq_false in E.
    assert (Hc' : e = true ∨ shard_of k q ≠ j) by (destruct Hc; [by left|right; congruence]).
    rewrite (effect_path k m j e q X Ej Hc'). apply IH.
Qed.

Lemma fold_foreign k i q (ms : list (Z * ToWrite)) :
  shard_of k q ≠ i → foldl (eff false q) ∅ (for_shard (write_dest k) i ms).*2 = ∅.
Proof.
  intros Hq. induction ms as [|[n m] ms IH]; [done|]. unfold for_shard.
  destruct (goes_to (write_dest k m) i) eqn:E.
  - rewrite filter_cons_True by done. cbn [fmap list_fmap foldl snd].
    assert (eff false q ∅ m = ∅) as ->; [|apply IH].
    destruct (write_dest k m) as [j|] eqn:Ej.
    + cbn in E. apply bool_decide_eq_true in E as ->. apply (effect_path k m i); auto.
    + unfold effect, due. destruct m; cbn in Ej; try done; cbn [request_of];
        try (destruct (is_absolute _); cbn [negb]; try done; destruct (referral_of _ _ _); try done;
          try (destruct (may_publish _ _ _) as [[]| |]; try done));
        cbn [snd spec_step]; try (rewrite decide_False by (by intros [? _])); set_solver.
  - by rewrite filter_cons_False by (cbn; congruence).
Qed.

Lemma wrote_abs ss ss' n msgs :
  shards_ok ss → Forall (shard_ok who par ch) ss' → wrote par ch env ss ss' (numbered n msgs) →
  shards_ok ss' ∧ ∀ e q, abs ss' e q = foldl (eff e q) (abs ss e q) (counted msgs).
Proof.
  intros Hs Hs' [Hl Hw].
  assert (Hget : ∀ i s', ss' !! i = Some s' → ∃ s, ss !! i = Some s ∧ ∀ e q,
    pubs_at s' e q = foldl (eff e q) (pubs_at s e q)
      (for_shard (write_dest (length ss)) i (numbered n msgs)).*2).
  { intros i s' Hi. assert (i < length ss)%nat as Hlt by (rewrite <- Hl; by eapply lookup_lt_Some).
    destruct (lookup_lt_is_Some_2 ss i Hlt) as [s Hsi]. exists s. split; [done|].
    by apply Hw. }
  split.
  - split; [rewrite Hl; apply Hs|done| |].
    + intros i s' q Hi Hne. rewrite Hl. destruct (Hget i s' Hi) as (s & Hsi & Hq).
      destruct (decide (shard_of (length ss) q = i)) as [|Hn]; [done|]. exfalso. apply Hne.
      rewrite Hq. assert (pubs_at s false q = ∅) as ->; [|by apply fold_foreign].
      destruct (decide (pubs_at s false q = ∅)) as [|Hn2]; [done|].
      by destruct Hn, (sk_home ss Hs i s q).
    + intros i j s t q Hi Hj. destruct (Hget i s Hi) as (s0 & Hsi & Hq1).
      destruct (Hget j t Hj) as (t0 & Htj & Hq2). rewrite Hq1, Hq2.
      rewrite !fold_for_shard by (by left). by rewrite (sk_same ss Hs i j s0 t0).
  - intros e q. unfold abs. rewrite Hl.
    set (i := if e then O else shard_of (length ss) q).
    assert (Hi : (i < length ss)%nat)
      by (unfold i; destruct e; [apply Hs|apply shard_of_lt, Hs]).
    destruct (lookup_lt_is_Some_2 ss' i ltac:(by rewrite Hl)) as [s' Hs2]. rewrite Hs2.
    destruct (Hget i s' Hs2) as (s & -> & ->).
    rewrite fold_for_shard, numbered_snd; [done|]. unfold i. destruct e; [by left|by right].
Qed.

(** [handle_queued_write] and [handle_batch_write] *)
Lemma queued_write_spec max ss msgs :
  shards_ok ss → (length (filter (.= Heartbeat) msgs) < max)%nat →
  Forall (msg_ok env) (counted msgs) →
  ∃ ss' rs, handle_queued_write max env ss msgs = Ok (ss', rs) ∧ shards_ok ss' ∧
    (∀ e q, abs ss' e q = foldl (eff e q) (abs ss e q) (counted msgs)) ∧
    ∀ x, x ∈ rs ↔ x ∈ (fun y : Z * ToWrite => (y.1, rep y.2)) <$> numbered 0 msgs.
Proof.
  intros Hs Hh Hm.
  destruct (write_loop_spec who par ch env Hwho (S (length msgs)) max 0 ss [] msgs)
    as (ss' & rs & Hrun & Hs' & Hw & Hrs); [apply Hs|lia|done|apply Hs| |].
  { rewrite <- (numbered_snd 0) in Hm. by rewrite Forall_fmap in Hm. }
  destruct (wrote_abs ss ss' 0 msgs Hs Hs' Hw) as [Hok Habs].
  exists ss', rs. by split_and!.
Qed.

Lemma batch_write_spec sort max ss msgs :
  (∀ l, sort l ≡ₚ l ∧ StronglySorted (fun x y : Z * FromWrite => x.1 ≤ y.1) (sort l)) →
  shards_ok ss → (length (filter (.= Heartbeat) msgs) < max)%nat →
  Forall (msg_ok env) (counted msgs) →
  ∃ ss', handle_batch_write sort max env ss msgs = Ok (ss', rep <$> counted msgs) ∧
    shards_ok ss' ∧ ∀ e q, abs ss' e q = foldl (eff e q) (abs ss e q) (counted msgs).
Proof.
  intros Hsort Hs Hh Hm.
  destruct (queued_write_spec max ss msgs Hs Hh Hm) as (ss' & rs & Hrun & Hok & Habs & Hrs).
  exists ss'. split; [|done]. unfold handle_batch_write. rewrite Hrun. cbn [res_bind].
  destruct (Hsort rs) as [Hp Hst].
  rewrite (send_replies_spec _ ((fun y : Z * ToWrite => (y.1, rep y.2)) <$> numbered 0 msgs)); cbn.
  - f_equal. f_equal. rewrite <- list_fmap_compose, <- (numbered_snd 0), <- list_fmap_compose. done.
  - rewrite Hp. lia.
  - apply keyed_sorted, numbered_sorted.
  - done.
  - intros x. by rewrite Hp.
Qed.

(** [handle_clear] *)
Lemma published_good s id p : store_ok s → p ∈ published_for_id s id → good p.
Proof.
  intros Hs Hp. apply (so_good s Hs). right. left.
  apply (index_lookup _ _ _ (so_pub s Hs)). apply (elem_ne id).
  by apply (ix_rel _ _ (so_pub s Hs)).
Qed.
Lemma counted_unpublish ps : counted (Unpublish <$> ps) = Unpublish <$> ps.
Proof.
  induction ps as [|p ps IH]; [done|]. cbn [fmap list_fmap]. unfold counted.
  rewrite filter_cons_True by done. by f_equal.
Qed.
(** A message changes nothing about other publishers. *)
Lemma effect_own e q X m :
  eff e q X m ∖ {[pub_id (we_publisher env)]} = X ∖ {[pub_id (we_publisher env)]}.
Proof.
  unfold effect, due. destruct (request_of m) as [p d fl|p d| |]; [| | |done].
  - destruct (is_absolute p); cbn [negb snd]; [|done].
    destruct (referral_of par ch p); cbn [snd]; [done|].
    destruct (may_publish env d p) as [[]| |]; cbn [snd spec_step]; try done.
    destruct (decide _); [set_solver|done].
  - destruct (is_absolute p); cbn [negb snd]; [|done].
    destruct (referral_of par ch p); cbn [snd spec_step]; [done|].
    destruct (decide _); [set_solver|done].
  - cbn [snd spec_step]. set_solver.
Qed.
Lemma fold_own e q ms X :
  foldl (eff e q) X ms ∖ {[pub_id (we_publisher env)]} = X ∖ {[pub_id (we_publisher env)]}.
Proof.
  revert X; induction ms as [|m ms IH]; intros X; [done|]. cbn [foldl].
  rewrite IH. apply effect_own.
Qed.

Lemma handle_clear_spec shuffle max ss :
  (∀ l, shuffle l ≡ₚ l) → (0 < max)%nat → shards_ok ss →
  ∃ ss', handle_clear shuffle max env ss = Ok ss' ∧ shards_ok ss' ∧
    ∀ e q, abs ss' e q = abs ss e q ∖ {[pub_id (we_publisher env)]}.
Proof.
  intros Hsh Hmax Hs. unfold handle_clear.
  set (ps := concat _). assert (Hps : Forall good (shuffle ps)).
  { rewrite (Hsh ps). apply Forall_forall. intros p Hp. unfold ps in Hp.
    apply elem_of_concat in Hp as (l & Hpl & (s & -> & Hs')%list_elem_of_fmap).
    rewrite order_paths_perm in Hpl. apply elem_of_elements in Hpl.
    eapply published_good; [|done].
    pose proof (proj1 (Forall_forall _ _) (sk_each ss Hs) s Hs') as ((Hok & _) & _).
    exact Hok. }
  destruct (queued_write_spec max ss (Unpublish <$> shuffle ps)) as (s1 & r1 & -> & Ho1 & Ha1 & _).
  - done.
  - enough (filter (.= Heartbeat) (Unpublish <$> shuffle ps) = []) as -> by (cbn; lia).
    clear. induction (shuffle ps) as [|p l IH]; [done|]. cbn [fmap list_fmap].
    by rewrite filter_cons_False.
  - rewrite counted_unpublish. apply Forall_fmap. eapply Forall_impl; [exact Hps|].
    intros p Hp. by cbn.
  - destruct (queued_write_spec max s1 [Clear]) as (s2 & r2 & Hrun2 & Ho2 & Ha2 & _); [done|by cbn|by repeat constructor|].
    cbn [res_bind]. rewrite Hrun2. exists s2. split; [done|]. split; [done|]. intros e q.
    rewrite Ha2, Ha1, counted_unpublish. exact (fold_own e q (Unpublish <$> shuffle ps) (abs ss e q)).
Qed.
End Abstract.
