(* ===== verification/ShardRead.v ===== *)
(** Reading from the sharded store: the requests of a batch are answered in
    order, each by the shard that owns its path or by all of them, whose answers
    are merged; no answer is lost or taken for another's, and the publishers an
    answer refers to have been sent before it. *)
From Stdlib Require Import ZArith Lia.
From stdpp Require Import base gmap list strings sorting.
From Stdlib Require Import Strings.Byte.
From S2P Require Import Prelude Varint Pack Containers PackTypes Path PathFacts Order Glob Derive Proto Store StoreFacts StoreRead Permissions Shard ShardWrite.

(** ** The publishers an answer refers to *)

Section Keyed.
Context {ES : Escaping} {LV : Live} {SH : Sha3}.
Abbreviation pubs := (gmap PublisherId Publisher).

Definition keyed (m : pubs) : Prop := ∀ id p, m !! id = Some p → pub_id p = id.

Lemma keyed_union m1 m2 : keyed m1 → keyed m2 → keyed (m1 ∪ m2).
Proof. intros H1 H2 id p [H|[_ H]]%lookup_union_Some_raw; eauto. Qed.
Lemma record_all_keyed s sec m l m' :
  keyed (publishers_by_id s) → keyed m → record_all s sec m l = Ok m' → keyed m'.
Proof.
  intros Hs. revert m; induction l as [|i l IH]; intros m Hm; cbn [record_all].
  { by intros [= <-]. }
  unfold record_publisher. destruct (m !! i) eqn:E; [by apply IH|].
  destruct (publishers_by_id s !! i) as [pb|] eqn:Ep; [|done]. cbn [res_bind]. apply IH.
  intros id p. rewrite lookup_insert. goal_decide Hd; [|apply Hm]. intros [= <-]. subst id.
  specialize (Hs i pb Ep). destruct sec as [[sec uifo]|]; [|done].
  by destruct (sec_of sec i), uifo.
Qed.
Lemma resolve_with_keyed drain sign s sec m path m' x :
  keyed (publishers_by_id s) → keyed m →
  resolve_with drain sign s sec m path = Ok (m', x) → keyed m'.
Proof.
  intros Hs Hm. unfold resolve_with, resolve_default.
  assert (Hrec : ∀ m l k, keyed m → res_bind (record_all s sec m l) k = Ok (m', x) →
    ∃ m1, keyed m1 ∧ k m1 = Ok (m', x)).
  { intros m0 l k Hm0. destruct (record_all s sec m0 l) as [m1| |] eqn:E; try done.
    cbn [res_bind]. intros Hk. exists m1. split; [|done]. by eapply record_all_keyed. }
  assert (Hend : ∀ m fl rs, keyed m →
    match published_by_path s !! path with
    | None => Ok (m, (fl, rs))
    | Some ps => res_bind (record_all s sec m (id_iter ps)) (fun publishers =>
        if decide (rs = []) then Ok (publishers, (get_flags s path, sign <$> id_iter ps))
        else Ok (publishers, (get_flags s path, drain (foldl (fun m id => <[id := sign id]> m)
          (foldl (fun m r => <[pr_id r := r]> m) ∅ rs) (id_iter ps)))))
    end = Ok (m', x) → keyed m').
  { intros m0 fl rs Hm0. destruct (published_by_path s !! path); [|by intros [= <- _]].
    intros (m1 & Hm1 & Hk)%Hrec; [|done]. by destruct (decide _); injection Hk as <- _. }
  destruct (last _) as [[p ps]|]; [destruct (is_parent p path)|]; cbn [res_bind];
    try (by apply Hend).
  destruct (record_all s sec m (id_iter ps)) as [m1| |] eqn:E; try done. cbn [res_bind].
  apply Hend. by eapply record_all_keyed.
Qed.
End Keyed.

(** ** One request in one shard *)

Section One.
Context {ES : Escaping} {ESO : EscapingOk ES} {LV : Live} {SH : Sha3} {GS : Globset}.
Context {HO : HashOrder} {HOK : HashOrderOk HO}.
Context (who : PublisherId → Publisher) (par : option Referral) (ch : gmap str Referral).
Context (env : ReadEnv) (Hwho : ∀ id, pub_id (who id) = id).
Abbreviation pubs := (gmap PublisherId Publisher).
Abbreviation pm := (sec_pmap (re_sec env) (re_pmap env)).

(** The permissions a user has on a path *)
Definition rights (path : str) (perm : Z) : Prop :=
  match pm with
  | None => perm = all_bits
  | Some m => lift_panic (permissions m path (re_uifo env)) = @Ok unit Z perm
  end.
(** The references are signed when there are permissions. *)
Definition ref_to (path : str) (perm : Z) (id : PublisherId) : PublisherRef :=
  match pm with
  | None => unsigned id
  | Some _ => sign (re_sec env) (re_now env) (UInt perm) path id
  end.

(** Requests that make no permission check panic *)
Definition readable (m : ToRead GS) : Prop :=
  match m with
  | TR_Resolve p => referral_of par ch p = None → ∃ perm, rights p perm
  | TR_List p | TR_Table p =>
      referral_of par ch p = None → ∃ b, allowed_opt pm p LIST (re_uifo env) = Ok b
  | TR_GetChangeNr p => ∃ b, allowed_opt pm p LIST (re_uifo env) = Ok b
  | TR_ListMatching set => ∃ b, scope_opt pm LIST (re_uifo env) (gs_raw set) = Ok b
  end.

(** The answers: a referral, a denial, or what the permissions allow to say *)
Definition resolved_as (X : ids) (path : str) (r : FromRead) : Prop :=
  match referral_of par ch path with
  | Some rf => r = FR_Referral rf
  | None => ∃ perm, rights path perm ∧
      if contains perm SUBSCRIBE
      then ∃ rs fl, r = FR_Resolved (MkResolved (re_resolver env) rs (re_now env) fl (UInt perm)) ∧
        (∀ x, x ∈ rs ↔ ∃ id, x = ref_to path perm id ∧ id ∈ X) ∧ NoDup (pr_id <$> rs)
      else r = FR_Denied
  end.
Definition listed_as (path : str) (say : FromRead → Prop) (r : FromRead) : Prop :=
  match referral_of par ch path with
  | Some rf => r = FR_Referral rf
  | None => ∃ ok : bool, allowed_opt pm path LIST (re_uifo env) = Ok ok ∧
      if ok then say r else r = FR_Denied
  end.
Definition matched_as (pms : bool → list (list str)) (refs : list Referral) (set : GlobSet)
    (r : FromRead) : Prop :=
  ∃ ok : bool, scope_opt pm LIST (re_uifo env) (gs_raw set) = Ok ok ∧
    r = FR_ListMatching (MkListMatching (pms ok) refs).

(** What shard [i] answers *)
Definition one (i : nat) (s : Store) (m : ToRead GS) (r : FromRead) : Prop :=
  match m with
  | TR_Resolve p => resolved_as (pubs_at s false p ∪ default_ids s p) p r
  | TR_List p => listed_as p (.= FR_List (list_paths s p)) r
  | TR_Table p => listed_as p (.= FR_Table (table_of s p)) r
  | TR_ListMatching set =>
      matched_as (fun ok => if ok then [list_matching s set] else [])
        (if decide (i = O) then concat ((fun g => referrals_in_scope s (base g) (scope g)) <$> gs_raw set)
         else []) set r
  | TR_GetChangeNr p => ∃ ok : bool, allowed_opt pm p LIST (re_uifo env) = Ok ok ∧
      r = FR_GetChangeNr (MkGetChangeNr (MkZ64 (if ok then get_change_nr s p else 0))
        (re_resolver env) (if decide (i = O) then referrals_in_scope s p Subtree else []))
  end.
(** Publishers that answer the references of a reply *)
Definition covers (ps : pubs) (r : FromRead) : Prop :=
  match r with
  | FR_Resolved d => ∀ x, x ∈ res_publishers d → is_Some (ps !! pr_id x)
  | FR_Publisher _ => False
  | _ => True
  end.

Lemma covers_mono ps ps' r : ps ⊆ ps' → covers ps r → covers ps' r.
Proof. destruct r; try done. cbn. intros Hsub H x Hx. destruct (H x Hx). eauto using lookup_weaken. Qed.

Lemma read_resolve_spec s ps path :
  shard_ok who par ch s → keyed ps → readable (TR_Resolve path) →
  ∃ ps' r, read_resolve s env ps path = Ok (ps', r) ∧ ps ⊆ ps' ∧ keyed ps' ∧ covers ps' r ∧
    resolved_as (pubs_at s false path ∪ default_ids s path) path r.
Proof.
  intros Hs Hps Hm. unfold read_resolve, resolved_as.
  rewrite (referral_of_eq who par ch) by done. cbn in Hm.
  destruct (referral_of par ch path) as [rf|]; [by exists ps, (FR_Referral rf)|].
  destruct (Hm eq_refl) as [perm Hp]. destruct Hs as ((Hok & Hw & _) & _).
  assert (Hk : keyed (publishers_by_id s)) by (intros id p ->%Hw; apply Hwho).
  assert (Hdone : ∀ sgn sec perm, (∀ id, pr_id (sgn id) = id) → ∃ ps' fl rs,
    resolve_with order_refs sgn s sec ps path = Ok (ps', (fl, rs)) ∧ ps ⊆ ps' ∧ keyed ps' ∧
    covers ps' (FR_Resolved (MkResolved (re_resolver env) rs (re_now env) fl perm)) ∧
    (∀ x, x ∈ rs ↔ ∃ id, x = sgn id ∧ id ∈ pubs_at s false path ∪ default_ids s path) ∧
    NoDup (pr_id <$> rs)).
  { intros sgn sec perm' Hsgn.
    destruct (resolve_with_spec order_refs sgn s sec ps path order_refs_perm Hsgn Hok)
      as (ps' & fl & rs & Hr & Hsub & Hrs & Hnd & Hdom & _).
    exists ps', fl, rs. split; [done|]. split; [done|]. split; [exact (resolve_with_keyed _ _ _ _ _ _ _ _ Hk Hps Hr)|].
    split; [|done]. intros x (id & -> & Hid)%Hrs. apply Hdom. rewrite Hsgn. by right. }
  unfold rights, ref_to in *. destruct pm as [m|].
  - rewrite Hp. cbn [res_bind]. destruct (contains perm SUBSCRIBE) eqn:Ec; cbn [negb].
    + unfold resolve_and_sign.
      destruct (Hdone (sign (re_sec env) (re_now env) (UInt perm) path)
        (Some (re_sec env, au_user_info (re_uifo env))) (UInt perm))
        as (ps' & fl & rs & -> & Hsub & Hk' & Hc & Hrs & Hnd).
      { intros id. unfold sign. by destruct (sec_of (re_sec env) id). }
      cbn [res_map]. do 2 eexists. split; [done|]. split_and!; [done..|].
      exists perm. split; [done|]. rewrite Ec. by exists rs, fl.
    + exists ps, FR_Denied. split_and!; [done..|]. exists perm. by rewrite Ec.
  - subst perm. unfold resolve. destruct (Hdone unsigned None (UInt all_bits))
      as (ps' & fl & rs & -> & Hsub & Hk' & Hc & Hrs & Hnd); [done|].
    cbn [res_map]. do 2 eexists. split; [done|]. split_and!; [done..|].
    exists all_bits. split; [done|]. by exists rs, fl.
Qed.

Lemma read_listing_spec s path answer :
  shard_ok who par ch s → readable (TR_List path) →
  ∃ r, read_listing s env path answer = Ok r ∧ listed_as path (.= answer) r.
Proof.
  intros Hs Hm. unfold read_listing, listed_as. rewrite (referral_of_eq who par ch) by done.
  cbn in Hm. destruct (referral_of par ch path) as [rf|]; [eauto|].
  destruct (Hm eq_refl) as [b Hb]. rewrite Hb. exists (if b then answer else FR_Denied).
  split; [done|]. exists b. by destruct b.
Qed.

Lemma process_read_spec i s ps m :
  shard_ok who par ch s → keyed ps → readable m →
  ∃ ps' r, process_read i s env ps m = Ok (ps', r) ∧ ps ⊆ ps' ∧ keyed ps' ∧ covers ps' r ∧
    one i s m r.
Proof.
  intros Hs Hps Hm. destruct m as [p|p|p|set|p]; cbn [process_read one].
  - by apply read_resolve_spec.
  - destruct (read_listing_spec s p (FR_List (list_paths s p)) Hs Hm) as (r & -> & Hr).
    exists ps, r. split_and!; [done..| |done]. unfold listed_as in Hr.
    destruct (referral_of par ch p); [by subst r|]. destruct Hr as ([] & _ & ->); done.
  - destruct (read_listing_spec s p (FR_Table (table_of s p)) Hs Hm) as (r & -> & Hr).
    exists ps, r. split_and!; [done..| |done]. unfold listed_as in Hr.
    destruct (referral_of par ch p); [by subst r|]. destruct Hr as ([] & _ & ->); done.
  - destruct Hm as [b Hb]. unfold read_matching. rewrite Hb. cbn [res_map].
    do 2 eexists. split_and!; [done..|]. by exists b.
  - destruct Hm as [b Hb]. unfold read_change_nr. rewrite Hb. cbn [res_map].
    do 2 eexists. split_and!; [done..|]. by exists b.
Qed.

(** A batch: numbers are kept *)
Definition answer_of (i : nat) (s : Store) (x : Z * ToRead GS) (y : Z * FromRead) : Prop :=
  y.1 = x.1 ∧ one i s x.2 y.2.

Lemma process_read_batch_spec i s ps batch :
  shard_ok who par ch s → keyed ps → Forall (fun x => readable x.2) batch →
  ∃ ps' rs, process_read_batch i s env ps batch = Ok (ps', rs) ∧ ps ⊆ ps' ∧ keyed ps' ∧
    Forall (fun y => covers ps' y.2) rs ∧ Forall2 (answer_of i s) batch rs.
Proof.
  intros Hs Hps Hb. revert ps Hps; induction Hb as [|[n m] batch Hm _ IH]; intros ps Hps.
  { exists ps, []. by split_and!. }
  cbn [process_read_batch].
  destruct (process_read_spec i s ps m Hs Hps Hm) as (ps1 & r & -> & Hsub & Hk & Hc & Ho).
  cbn [res_bind]. destruct (IH ps1 Hk) as (ps2 & rs & -> & Hsub2 & Hk2 & Hc2 & Hrs).
  cbn [res_map]. exists ps2, ((n, r) :: rs). split; [done|]. split; [by etrans|]. split; [done|].
  split; constructor; try done. by eapply covers_mono.
Qed.
End One.

(** ** Routing *)

Fixpoint indexed {A} (n : Z) (ms : list A) : list (Z * A) :=
  match ms with
  | [] => []
  | m :: ms => (n, m) :: indexed (n + 1) ms
  end.

Lemma indexed_fst {A} n (ms : list A) : Forall (fun x => n ≤ x.1) (indexed n ms).
Proof.
  revert n; induction ms as [|m ms IH]; intros n; [constructor|].
  constructor; [cbn; lia|]. eapply Forall_impl; [apply IH|]. cbn. lia.
Qed.
Lemma indexed_snd {A} n (ms : list A) : (indexed n ms).*2 = ms.
Proof. revert n; induction ms as [|m ms IH]; intros n; [done|]. cbn. by rewrite IH. Qed.

Section Queues.
Context {A : Type}.

Lemma front_not n (q : list (Z * A)) : Forall (fun y => n < y.1) q → front_is n q = false.
Proof. destruct q as [|[i x] q]; [done|]. intros [H _]%Forall_cons. cbn in *. by apply Z.eqb_neq; lia. Qed.

Lemma pop_first_spec n j x q (qs : list (list (Z * A))) :
  (∀ t b, (t < j)%nat → qs !! t = Some b → front_is n b = false) →
  qs !! j = Some ((n, x) :: q) → pop_first n qs = Some (x, <[j := q]> qs).
Proof.
  revert j; induction qs as [|b qs IH]; intros j Hlt Hj; [done|]. cbn [pop_first].
  destruct j as [|j].
  - injection Hj as ->. by rewrite Z.eqb_refl.
  - pose proof (Hlt O b ltac:(lia) eq_refl) as Hb. rewrite (IH j);
      [|intros t c Ht; apply (Hlt (S t)); lia|done].
    destruct b as [|[i y] b]; [done|]. cbn in Hb. by rewrite Hb.
Qed.

Lemma pop_all_spec n (qs : list (list (Z * A))) :
  forallb (front_is n) qs = true →
  ∃ xs, pop_all qs = Some (xs, tail <$> qs) ∧ Forall2 (fun q x => ∃ q', q = (n, x) :: q') qs xs.
Proof.
  induction qs as [|q qs IH]; cbn [forallb].
  { intros _. exists []. by split. }
  intros [Hq Hqs]%andb_true_iff. destruct q as [|[i x] q]; [done|]. cbn in Hq.
  apply Z.eqb_eq in Hq as ->. destruct (IH Hqs) as (xs & Hp & Hxs). cbn [pop_all].
  rewrite Hp. exists (x :: xs). split; [done|]. constructor; eauto.
Qed.
End Queues.

Lemma Forall2_fun {A B} (g : A → B) l k : Forall2 (fun a b => b = g a) l k → k = g <$> l.
Proof. induction 1 as [|a b l k -> _ IH]; [done|]. cbn. by rewrite IH. Qed.

(** ** Merging the answers of all shards *)

Section Merge.
Context {ES : Escaping} {ESO : EscapingOk ES} {LV : Live} {SH : Sha3} {GS : Globset}.
Context {HO : HashOrder} {HOK : HashOrderOk HO} {PH : PathHash}.
Context (who : PublisherId → Publisher) (par : option Referral) (ch : gmap str Referral).
Context (env : ReadEnv) (Hwho : ∀ id, pub_id (who id) = id).
Abbreviation pm := (sec_pmap (re_sec env) (re_pmap env)).
Abbreviation oneof := (one par ch env).

(** The default publishers are the same in every shard. *)
Definition abs_defaults (ss : list Store) (path : str) : ids :=
  match ss with s :: _ => default_ids s path | [] => ∅ end.
Definition scope_referrals (path : str) (sc : Scope) : list Referral :=
  referrals_in_scope (MkStore ∅ ∅ ∅ ∅ ∅ ∅ ∅ ∅ ∅ par ch hc_new) path sc.
Definition column (s : Store) (path name : str) : option Z :=
  columns s !! path ≫= fun c => c !! name.
Definition sum (l : list Z) : Z := foldr Z.add 0 l.

(** The answer the shards owe together *)
Definition answer (ss : list Store) (m : ToRead GS) (r : FromRead) : Prop :=
  match m with
  | TR_Resolve p => resolved_as par ch env (abs ss false p ∪ abs_defaults ss p) p r
  | TR_List p => listed_as par ch env p (fun r => ∃ l, r = FR_List l ∧
      ∀ q, q ∈ l ↔ ∃ s, s ∈ ss ∧ q ∈ list_paths s p) r
  | TR_Table p => listed_as par ch env p (fun r => ∃ rows cols, r = FR_Table (MkTable rows cols) ∧
      (∀ q, q ∈ rows ↔ ∃ s, s ∈ ss ∧ q ∈ list_paths s p) ∧
      (∀ name, name ∈ cols.*1 ↔ ∃ s, s ∈ ss ∧ is_Some (column s p name)) ∧ NoDup cols.*1 ∧
      ∀ name c, (name, c) ∈ cols →
        wrap 64 (z64 c) = wrap 64 (sum ((fun s => default 0 (column s p name)) <$> ss))) r
  | TR_ListMatching set => ∃ (ok : bool) ms,
      scope_opt pm LIST (re_uifo env) (gs_raw set) = Ok ok ∧
      r = FR_ListMatching (MkListMatching ms
        (concat ((fun g => scope_referrals (base g) (scope g)) <$> gs_raw set))) ∧
      ∀ q, q ∈ concat ms ↔ ok = true ∧ ∃ s, s ∈ ss ∧ q ∈ list_matching s set
  | TR_GetChangeNr p => ∃ (ok : bool) c, allowed_opt pm p LIST (re_uifo env) = Ok ok ∧
      r = FR_GetChangeNr (MkGetChangeNr (MkZ64 c) (re_resolver env) (scope_referrals p Subtree)) ∧
      wrap 64 c = wrap 64 (if ok then sum ((fun s => get_change_nr s p) <$> ss) else 0)
  end.

Lemma referrals_same s path sc :
  shard_ok who par ch s → referrals_in_scope s path sc = scope_referrals path sc.
Proof. intros (_ & Hc & Hp). unfold scope_referrals, referrals_in_scope. cbn. by rewrite Hc, Hp. Qed.
Lemma one_later i s m r : i ≠ O → oneof i s m r → oneof 1 s m r.
Proof. intros Hi. destruct m; cbn [one]; try done; by rewrite !decide_False by lia. Qed.

Lemma default_ids_same s t path :
  store_ok s → store_ok t → (∀ q, pubs_at s true q = pubs_at t true q) →
  default_ids s path = default_ids t path.
Proof.
  intros Hs Ht Hq. enough (defaults_by_path s = defaults_by_path t) as He
    by (unfold default_ids; by rewrite He).
  apply map_eq. intros q. specialize (Hq q). unfold pubs_at, ids_at in Hq.
  pose proof (ix_path _ _ (so_def s Hs) q). pose proof (ix_path _ _ (so_def t Ht) q).
  destruct (defaults_by_path s !! q), (defaults_by_path t !! q); cbn in Hq; congruence.
Qed.

Lemma resolve_answer ss p s r :
  shards_ok who par ch ss → ss !! shard_of (length ss) p = Some s →
  oneof (shard_of (length ss) p) s (TR_Resolve p) r → answer ss (TR_Resolve p) r.
Proof.
  intros Hss Hs. cbn [one answer]. unfold abs. rewrite Hs.
  enough (abs_defaults ss p = default_ids s p) as -> by done.
  destruct ss as [|s0 ss]; [done|]. cbn [abs_defaults].
  pose proof (sk_each _ _ _ _ Hss) as He. rewrite Forall_lookup in He.
  apply default_ids_same; [apply (He O); done|by eapply He|].
  intros q. by apply (sk_same _ _ _ _ Hss O (shard_of (length (s0 :: ss)) p)).
Qed.

(** *** Tables: the columns are added up *)

Lemma wrap_add a b : wrap 64 (wrap 64 a + b) = wrap 64 (a + b).
Proof. unfold wrap. by rewrite Z.add_mod_idemp_l by lia. Qed.
Lemma wrap_cong a b c : wrap 64 a = wrap 64 b → wrap 64 (a + c) = wrap 64 (b + c).
Proof. intros H. by rewrite <- (wrap_add a), <- (wrap_add b), H. Qed.

Abbreviation z64s l := ((fun '(n, c) => (n, MkZ64 c)) <$> (l : list (str * Z))).

Lemma fold_cols (f : gmap str Z → str → Z → Z) m l name :
  NoDup l.*1 → (∀ m1 m2 p c, m1 !! p = m2 !! p → f m1 p c = f m2 p c) →
  foldl (fun m '(p, c) => <[p := f m p (z64 c)]> m) m (z64s l) !! name =
    match (list_to_map l : gmap str Z) !! name with
    | Some c => Some (f m name c)
    | None => m !! name
    end.
Proof.
  intros Hnd Hf. revert m; induction l as [|[p c] l IH]; intros m; cbn [fmap list_fmap foldl].
  { reflexivity. }
  apply NoDup_cons in Hnd as [Hp Hnd]. cbn [fst] in Hp. rewrite IH by done.
  rewrite list_to_map_cons. cbn [z64]. destruct (decide (p = name)) as [->|Hne].
  - rewrite (not_elem_of_list_to_map_1 l name Hp). by rewrite !lookup_insert_eq.
  - rewrite !lookup_insert_ne by done. destruct (_ !! name) as [d|]; [|done].
    f_equal. apply Hf. by rewrite lookup_insert_ne.
Qed.

Lemma columns_of_spec s path name :
  NoDup (columns_of order_cols s path).*1 ∧
  (list_to_map (columns_of order_cols s path) : gmap str Z) !! name = column s path name.
Proof.
  unfold columns_of, column. destruct (columns s !! path) as [c|]; cbn [mbind option_bind].
  - assert (Hp : (order_cols c).*1 ≡ₚ (map_to_list c).*1) by (by rewrite order_cols_perm).
    assert (Hnd : NoDup (order_cols c).*1) by (rewrite Hp; apply NoDup_fst_map_to_list).
    split; [done|]. rewrite <- (list_to_map_to_list c) at 2. f_equal.
    by apply list_to_map_proper, order_cols_perm.
  - split; [constructor|]. reflexivity.
Qed.

Abbreviation cols_in s path := (tbl_cols (table_of s path)).

Lemma cols_map_spec s path name : cols_map (cols_in s path) !! name = column s path name.
Proof.
  unfold cols_map, table_of. cbn [tbl_cols]. destruct (columns_of_spec s path name) as [Hnd <-].
  rewrite (fold_cols (fun _ _ c => c)) by done. by destruct (_ !! name).
Qed.
Lemma add_cols_spec m s path name :
  add_cols m (cols_in s path) !! name =
    match column s path name with
    | Some c => Some (wrap 64 (default 0 (m !! name) + c))
    | None => m !! name
    end.
Proof.
  unfold add_cols, table_of. cbn [tbl_cols]. destruct (columns_of_spec s path name) as [Hnd <-].
  rewrite (fold_cols (fun m p c => wrap 64 (default 0 (m !! p) + c))); [done..|].
  by intros m1 m2 p c ->.
Qed.
Lemma sum_cols m ss path name :
  let M := foldl add_cols m ((fun s => cols_in s path) <$> ss) in
  (is_Some (M !! name) ↔ is_Some (m !! name) ∨ ∃ s, s ∈ ss ∧ is_Some (column s path name)) ∧
  wrap 64 (default 0 (M !! name)) =
    wrap 64 (default 0 (m !! name) + sum ((fun s => default 0 (column s path name)) <$> ss)).
Proof.
  cbv zeta. revert m; induction ss as [|s ss IH]; intros m; cbn [fmap list_fmap foldl sum foldr].
  { split; [|by rewrite Z.add_0_r]. split; [by left|]. intros [?|(s & Hs & _)]; [done|].
    by apply elem_of_nil in Hs. }
  destruct (IH (add_cols m (cols_in s path))) as [H1 H2]. rewrite H1, H2.
  rewrite add_cols_spec. split.
  - setoid_rewrite elem_of_cons. destruct (column s path name) as [c|] eqn:E; cbn.
    + split; [|eauto]. intros _. right. exists s. rewrite E. eauto.
    + split; [intros [?|(t & ? & ?)]; eauto|]. intros [?|(t & [->|Ht] & Hc)]; eauto.
      rewrite E in Hc. by destruct Hc.
  - fold (sum ((fun s => default 0 (column s path name)) <$> ss)).
    destruct (column s path name) as [c|]; cbn [default from_option id].
    + rewrite wrap_add. f_equal. lia.
    + done.
Qed.

(** *** The answers of all shards to one request *)

Definition from_all (ss : list Store) (m : ToRead GS) (rs : list FromRead) : Prop :=
  match ss, rs with
  | s :: ss, r :: rs => oneof O s m r ∧ Forall2 (fun s r => oneof 1 s m r) ss rs
  | _, _ => False
  end.

Lemma same_merge m rs : forallb (same_reply m) rs = true → (m = FR_Denied ∨ ∃ r, m = FR_Referral r) →
  merge_replies m rs = Ok m.
Proof. by intros Hf [->|[r ->]]; cbn [merge_replies]; rewrite Hf. Qed.
Lemma same_all {A} m (l : list A) : same_reply m m = true → forallb (same_reply m) ((fun _ => m) <$> l) = true.
Proof. intros H. induction l; [done|]. cbn. by rewrite H. Qed.
Lemma referral_refl r : same_reply (FR_Referral r) (FR_Referral r) = true.
Proof.
  cbn. unfold referral_eq. induction (ref_addrs r) as [|a l IH]; [done|]. cbn.
  by rewrite bool_decide_true.
Qed.
Lemma as_lists_spec {A} (g : A → list str) l : as_lists ((fun s => FR_List (g s)) <$> l) = Some (g <$> l).
Proof. induction l as [|a l IH]; [done|]. cbn. by rewrite IH. Qed.
Lemma as_tables_spec {A} (g : A → Table) l : as_tables ((fun s => FR_Table (g s)) <$> l) = Some (g <$> l).
Proof. induction l as [|a l IH]; [done|]. cbn. by rewrite IH. Qed.
Lemma as_matching_spec {A} (g : A → ListMatching) l :
  as_matching ((fun s => FR_ListMatching (g s)) <$> l) = Some (g <$> l).
Proof. induction l as [|a l IH]; [done|]. cbn. by rewrite IH. Qed.
Lemma as_change_nrs_spec {A} (g : A → Z) a b (l : list A) :
  as_change_nrs ((fun s => FR_GetChangeNr (MkGetChangeNr (MkZ64 (g s)) a b)) <$> l) = Some (g <$> l).
Proof. induction l as [|x l IH]; [done|]. cbn. by rewrite IH. Qed.

(** What every shard refuses in the same way is refused. *)
Lemma listed_merge (g : Store → FromRead) p ss r rs s (say : FromRead → Prop) :
  listed_as par ch env p (.= g s) r → Forall2 (fun s r => listed_as par ch env p (.= g s) r) ss rs →
  (r = g s → rs = g <$> ss → ∃ r', merge_replies r rs = Ok r' ∧ say r') →
  ∃ r', merge_replies r rs = Ok r' ∧ listed_as par ch env p say r'.
Proof.
  unfold listed_as. destruct (referral_of par ch p) as [rf|].
  { intros -> Hrs _. apply (Forall2_fun (fun _ => FR_Referral rf)) in Hrs as ->.
    exists (FR_Referral rf). split; [|done].
    apply same_merge; [apply same_all, referral_refl|eauto]. }
  intros (ok & Hok & Hr) Hrs Hsay.
  assert (Hrs' : Forall2 (fun s r => r = if ok then g s else FR_Denied) ss rs).
  { eapply Forall2_impl; [exact Hrs|]. cbn. intros s' r' (ok' & Hok' & Hr').
    assert (ok' = ok) as -> by congruence. by destruct ok. }
  apply (Forall2_fun (fun s => if ok then g s else FR_Denied)) in Hrs' as ->. destruct ok.
  - destruct (Hsay Hr eq_refl) as (r' & Hm & Hs'). exists r'. split; [done|]. by exists true.
  - subst r. exists FR_Denied. split; [apply same_merge; [by apply same_all|by left]|].
    by exists false.
Qed.

Lemma wrap_fold a cs : wrap 64 (foldl (fun a c => wrap 64 (a + c)) a cs) = wrap 64 (a + sum cs).
Proof.
  revert a; induction cs as [|c cs IH]; intros a; cbn [foldl sum foldr].
  { by rewrite Z.add_0_r. }
  fold (sum cs). rewrite IH, wrap_add. f_equal. lia.
Qed.
Lemma sum_zeros {A} (l : list A) : sum ((fun _ => 0) <$> l) = 0.
Proof. induction l as [|a l IH]; [done|]. exact IH. Qed.

Lemma elem_union_lists {A} (f : A → list str) l q :
  q ∈ ⋃ ((fun a => list_to_set (C := gset str) (f a)) <$> l) ↔ ∃ a, a ∈ l ∧ q ∈ f a.
Proof.
  rewrite elem_of_union_list. setoid_rewrite list_elem_of_fmap. split.
  - intros (X & (a & -> & Ha) & Hq). apply elem_of_list_to_set in Hq. eauto.
  - intros (a & Ha & Hq). eexists. split; [eauto|]. by apply elem_of_list_to_set.
Qed.
Lemma elem_some_cons (P : Store → Prop) s ss : (∃ t, t ∈ s :: ss ∧ P t) ↔ P s ∨ ∃ t, t ∈ ss ∧ P t.
Proof.
  setoid_rewrite elem_of_cons. split.
  - intros (t & [->|Ht] & HP); eauto.
  - intros [?|(t & Ht & HP)]; eauto.
Qed.
Lemma rows_merge (f : Store → list str) s ss q :
  q ∈ order_paths (list_to_set (f s) ∪ ⋃ ((fun t => list_to_set (f t)) <$> ss)) ↔
  ∃ t, t ∈ s :: ss ∧ q ∈ f t.
Proof.
  rewrite order_paths_perm, elem_of_elements, elem_of_union, elem_of_list_to_set, elem_union_lists.
  by rewrite (elem_some_cons (fun t => q ∈ f t)).
Qed.

Lemma merged_list p s ss r rs :
  from_all (s :: ss) (TR_List p) (r :: rs) →
  ∃ r', merge_replies r rs = Ok r' ∧ answer (s :: ss) (TR_List p) r'.
Proof.
  intros [Hr Hrs]. apply (listed_merge (fun s => FR_List (list_paths s p)) p ss r rs s _ Hr Hrs).
  intros -> ->. cbn [merge_replies]. rewrite (as_lists_spec (fun s => list_paths s p)).
  cbn [from_option_panic res_map]. rewrite <- list_fmap_compose. eexists. split; [done|].
  eexists. split; [done|]. intros q. apply (rows_merge (fun s => list_paths s p)).
Qed.

Lemma table_cols m s ss p :
  (∀ name, m !! name = column s p name) →
  let cols := (fun '(q, c) => (q, MkZ64 c)) <$>
    order_cols (foldl add_cols m ((fun s => cols_in s p) <$> ss)) in
  (∀ name, name ∈ cols.*1 ↔ ∃ t, t ∈ s :: ss ∧ is_Some (column t p name)) ∧ NoDup cols.*1 ∧
  ∀ name c, (name, c) ∈ cols →
    wrap 64 (z64 c) = wrap 64 (sum ((fun s => default 0 (column s p name)) <$> s :: ss)).
Proof.
  intros Hm. cbv zeta. set (M := foldl add_cols m _).
  assert (Hfst : ((fun '(q, c) => (q, MkZ64 c)) <$> order_cols M).*1 = (order_cols M).*1).
  { rewrite <- list_fmap_compose. apply list_fmap_ext. by intros i [q c] _. }
  assert (Hdom : ∀ name, name ∈ (order_cols M).*1 ↔ is_Some (M !! name)).
  { intros name. rewrite order_cols_perm. rewrite list_elem_of_fmap. split.
    - intros ([q c] & -> & Hq%elem_of_map_to_list). eauto.
    - intros [c Hc%elem_of_map_to_list]. by exists (name, c). }
  assert (Hsum := sum_cols m ss p). cbv zeta in Hsum. fold M in Hsum.
  rewrite Hfst. split; [|split].
  - intros name. rewrite Hdom. destruct (Hsum name) as [-> _]. rewrite Hm.
    by rewrite (elem_some_cons (fun t => is_Some (column t p name))).
  - rewrite order_cols_perm. apply NoDup_fst_map_to_list.
  - intros name c ([q c'] & [= -> ->] & Hc)%list_elem_of_fmap. cbn [z64].
    rewrite order_cols_perm in Hc. apply elem_of_map_to_list in Hc.
    destruct (Hsum q) as [_ Hs]. rewrite Hc, Hm in Hs. exact Hs.
Qed.

Lemma merged_table p s ss r rs :
  from_all (s :: ss) (TR_Table p) (r :: rs) →
  ∃ r', merge_replies r rs = Ok r' ∧ answer (s :: ss) (TR_Table p) r'.
Proof.
  intros [Hr Hrs]. apply (listed_merge (fun s => FR_Table (table_of s p)) p ss r rs s _ Hr Hrs).
  intros -> ->. cbn [merge_replies]. rewrite (as_tables_spec (fun s => table_of s p)).
  cbn [from_option_panic res_map]. rewrite <- !list_fmap_compose. eexists. split; [done|].
  do 2 eexists. split; [done|].
  split; [intros q; apply (rows_merge (fun s => list_paths s p))|].
  apply (table_cols (cols_map (cols_in s p)) s ss p). intros name. apply cols_map_spec.
Qed.

Lemma merged_matching set s ss r rs :
  shard_ok who par ch s → from_all (s :: ss) (TR_ListMatching set) (r :: rs) →
  ∃ r', merge_replies r rs = Ok r' ∧ answer (s :: ss) (TR_ListMatching set) r'.
Proof.
  intros Hs [(ok & Hok & ->) Hrs].
  set (g := fun s : Store => MkListMatching (if ok then [list_matching s set] else []) []).
  assert (rs = (fun s => FR_ListMatching (g s)) <$> ss) as ->.
  { apply Forall2_fun. eapply Forall2_impl; [exact Hrs|]. intros t r (ok' & Hok' & ->).
    assert (ok' = ok) as -> by congruence. done. }
  cbn [merge_replies]. rewrite as_matching_spec. cbn [from_option_panic res_map lm_matched lm_referrals].
  eexists. split; [done|]. exists ok. eexists. split; [done|]. split.
  - f_equal. f_equal. rewrite decide_True by done. f_equal. apply list_fmap_ext.
    intros i x _. by apply referrals_same.
  - intros q. rewrite (elem_some_cons (fun t => q ∈ list_matching t set)).
    rewrite <- list_fmap_compose. destruct ok; cbn [app concat].
    + rewrite elem_of_app.
      assert (Hc : q ∈ concat (concat ((lm_matched ∘ g) <$> ss)) ↔ ∃ t, t ∈ ss ∧ q ∈ list_matching t set).
      { induction ss as [|t ss IH]; [split; [by intros ?%elem_of_nil|by intros (? & ?%elem_of_nil & _)]|].
        rewrite (elem_some_cons (fun t => q ∈ list_matching t set)), <- IH.
        - cbn. by rewrite elem_of_app.
        - by inversion Hrs; subst. }
      tauto.
    + split; [|by intros [? _]].
      assert (concat ((lm_matched ∘ g) <$> ss) = []) as ->; [|by intros ?%elem_of_nil].
      clear. by induction ss.
Qed.

Lemma merged_change_nr p s ss r rs :
  shard_ok who par ch s → from_all (s :: ss) (TR_GetChangeNr p) (r :: rs) →
  ∃ r', merge_replies r rs = Ok r' ∧ answer (s :: ss) (TR_GetChangeNr p) r'.
Proof.
  intros Hs [(ok & Hok & ->) Hrs].
  set (g := fun s : Store => if ok then get_change_nr s p else 0).
  assert (rs = (fun s => FR_GetChangeNr (MkGetChangeNr (MkZ64 (g s)) (re_resolver env) [])) <$> ss) as ->.
  { apply Forall2_fun. eapply Forall2_impl; [exact Hrs|]. intros t r (ok' & Hok' & ->).
    assert (ok' = ok) as -> by congruence. done. }
  cbn [merge_replies]. rewrite as_change_nrs_spec.
  cbn [from_option_panic res_map gcn_change_number z64 gcn_resolver gcn_referrals].
  eexists. split; [done|]. exists ok. eexists. split; [done|]. split.
  - f_equal. rewrite decide_True by done. f_equal. by apply referrals_same.
  - rewrite wrap_fold. f_equal. unfold g. destruct ok; [done|]. by rewrite sum_zeros.
Qed.

Lemma merged_answer m s ss r rs :
  shard_ok who par ch s → read_dest (length (s :: ss)) m = None → from_all (s :: ss) m (r :: rs) →
  ∃ r', merge_replies r rs = Ok r' ∧ answer (s :: ss) m r'.
Proof.
  intros Hs Hd Hall. destruct m as [p|p|p|set|p]; [done| | | |].
  - by apply merged_list.
  - by apply merged_table.
  - by apply merged_matching.
  - by apply merged_change_nr.
Qed.

(** One shard's answer is passed on as it is. *)
Lemma single_answer s m r :
  shards_ok who par ch [s] → oneof O s m r → answer [s] m r.
Proof.
  intros Hs Ho. pose proof (sk_each _ _ _ _ Hs) as Hk. rewrite Forall_singleton in Hk.
  assert (Hin : ∀ P : Store → Prop, (∃ t, t ∈ [s] ∧ P t) ↔ P s).
  { intros P. setoid_rewrite list_elem_of_singleton. split; [by intros (? & -> & ?)|eauto]. }
  assert (Hl : ∀ p (g : FromRead) (say : FromRead → Prop), say g →
    listed_as par ch env p (.= g) r → listed_as par ch env p say r).
  { intros p g say Hg. unfold listed_as. destruct (referral_of par ch p); [done|].
    intros (ok & Hok & H). exists ok. split; [done|]. destruct ok; [by subst r|done]. }
  destruct m as [p|p|p|set|p]; cbn [one] in Ho; cbn [answer].
  - assert (shard_of 1 p = O) as H0 by (pose proof (shard_of_lt 1 p); lia).
    apply (resolve_answer [s] p s); [done| |exact Ho]. cbn [length]. by rewrite H0.
  - eapply Hl; [|exact Ho]. eexists. split; [done|]. intros q. by rewrite Hin.
  - eapply Hl; [|exact Ho]. exists (list_paths s p), (cols_in s p).
    split; [done|]. split; [intros q; by rewrite Hin|].
    destruct (columns_of_spec s p []) as [Hnd _].
    assert (Hfst : (cols_in s p).*1 = (columns_of order_cols s p).*1).
    { cbn [table_of tbl_cols]. rewrite <- list_fmap_compose. apply list_fmap_ext.
      by intros i [q c] _. }
    assert (Hcol : ∀ q c, (q, c) ∈ columns_of order_cols s p ↔ column s p q = Some c).
    { intros q c. destruct (columns_of_spec s p q) as [_ <-]. by apply elem_of_list_to_map. }
    rewrite Hfst. split; [|split; [done|]].
    + intros name. rewrite Hin, list_elem_of_fmap. split.
      * intros ([q c] & -> & Hq%Hcol). eauto.
      * intros [c Hc%Hcol]. by exists (name, c).
    + intros name c ([q c'] & [= -> ->] & Hq%Hcol)%list_elem_of_fmap. cbn.
      rewrite Hq. cbn. by rewrite Z.add_0_r.
  - destruct Ho as (ok & Hok & ->). exists ok. eexists. split; [done|]. split.
    + f_equal. f_equal. rewrite decide_True by done. f_equal. apply list_fmap_ext.
      intros i x _. by apply referrals_same.
    + intros q. rewrite Hin. destruct ok; cbn; rewrite ?app_nil_r; [tauto|].
      split; [by intros ?%elem_of_nil|by intros [? _]].
  - destruct Ho as (ok & Hok & ->). exists ok. eexists. split; [done|]. split.
    + f_equal. rewrite decide_True by done. f_equal. by apply referrals_same.
    + destruct ok; cbn; [by rewrite Z.add_0_r|done].
Qed.
End Merge.

(** ** The whole batch *)

Section Batch.
Context {ES : Escaping} {ESO : EscapingOk ES} {LV : Live} {SH : Sha3} {GS : Globset}.
Context {HO : HashOrder} {HOK : HashOrderOk HO} {PH : PathHash}.
Context (who : PublisherId → Publisher) (par : option Referral) (ch : gmap str Referral).
Context (env : ReadEnv) (Hwho : ∀ id, pub_id (who id) = id).
Abbreviation pubs := (gmap PublisherId Publisher).
Abbreviation ans_of := (answer_of par ch env).

Lemma fill_read_spec max k c n by_shard msgs :
  ∃ taken rest, msgs = taken ++ rest ∧
  let '(f, n', bs, r) := fill_read max k c n by_shard msgs in
  r = rest ∧ n' = n + zlen taken ∧ (f = true → rest = []) ∧
  (taken = [] → c < max → rest = [] ∧ f = true) ∧ length bs = length by_shard ∧
  ∀ i, bs !! i = (fun b => b ++ for_shard (read_dest k) i (indexed n taken)) <$> by_shard !! i.
Proof.
  revert c n by_shard; induction msgs as [|m msgs IH]; intros c n by_shard; cbn [fill_read].
  - exists [], []. split; [done|].
    assert (Hz : ∀ i, by_shard !! i = (fun b => b ++ for_shard (read_dest k) i []) <$> by_shard !! i).
    { intros i. destruct (by_shard !! i); [|done]. cbn. by rewrite app_nil_r. }
    rewrite zlen_nil, Z.add_0_r. destruct (max <=? c) eqn:E; [apply Z.leb_le in E|];
      split_and!; try done; lia.
  - destruct (max <=? c) eqn:E.
    + exists [], (m :: msgs). split; [done|]. rewrite zlen_nil, Z.add_0_r.
      apply Z.leb_le in E. split_and!; try done; [lia|].
      intros i. destruct (by_shard !! i); [|done]. cbn. by rewrite app_nil_r.
    + destruct (IH (c + read_cost m) (n + 1) (push_to (read_dest k m) (n, m) by_shard))
        as (taken & rest & -> & Hf).
      exists (m :: taken), rest. split; [done|].
      destruct (fill_read _ _ _ _ _ _) as [[[f n'] bs] r].
      destruct Hf as (-> & -> & Hf & _ & Hl & Hb). rewrite push_to_length in Hl.
      rewrite zlen_cons. split_and!; try done; [lia|].
      intros i. rewrite Hb, push_to_lookup. destruct (by_shard !! i) as [b|]; [|done].
      cbn [fmap option_fmap option_map indexed]. unfold for_shard.
      destruct (goes_to (read_dest k m) i) eqn:Eg.
      * rewrite filter_cons_True by done. by rewrite <- app_assoc.
      * by rewrite filter_cons_False by (cbn; congruence).
Qed.

Lemma run_reads_spec i ss bs :
  length bs = length ss → Forall (shard_ok who par ch) ss →
  Forall (Forall (fun x => readable par ch env x.2)) bs →
  ∃ ps rss, run_reads env i ss bs = Ok (ps, rss) ∧ keyed ps ∧ length rss = length ss ∧
    Forall (Forall (fun y => covers ps y.2)) rss ∧
    ∀ j s b, ss !! j = Some s → bs !! j = Some b →
      ∃ rs, rss !! j = Some rs ∧ Forall2 (ans_of (i + j) s) b rs.
Proof.
  intros Hl Hs. revert i bs Hl; induction Hs as [|s ss Hs _ IH]; intros i [|b bs] Hl Hb; try done.
  { exists ∅, []. split_and!; try done. }
  apply Forall_cons in Hb as [Hb Hbs]. cbn [run_reads].
  assert (Hk0 : keyed (∅ : pubs)) by (by intros id p ?%lookup_empty_Some).
  destruct (process_read_batch_spec who par ch env Hwho i s ∅ b Hs Hk0 Hb)
    as (ps1 & r & -> & _ & Hk1 & Hc1 & Hr). cbn [res_bind].
  destruct (IH (S i) bs ltac:(by injection Hl) Hbs) as (ps2 & rss & -> & Hk2 & Hl2 & Hc2 & Hrss).
  cbn [res_map]. exists (ps2 ∪ ps1), (r :: rss). split; [done|].
  assert (Hcov : ∀ q x, covers ps1 x ∨ covers ps2 x → q = ps2 ∪ ps1 → covers q x).
  { intros q x Hx ->. destruct x; try done; cbn in *; try tauto.
    intros y Hy. apply lookup_union_is_Some. destruct Hx as [Hx|Hx]; eauto. }
  split; [by apply keyed_union|]. split; [cbn; by rewrite Hl2|]. split.
  - constructor; [eapply Forall_impl; [exact Hc1|]; intros y Hy; eapply Hcov; eauto|].
    eapply Forall_impl; [exact Hc2|]. cbn. intros q Hq. eapply Forall_impl; [exact Hq|].
    intros y Hy. eapply Hcov; eauto.
  - intros [|j] t c; cbn; intros Ht Hc.
    + injection Ht as <-. injection Hc as <-. rewrite Nat.add_0_r. eauto.
    + rewrite Nat.add_succ_r. by apply Hrss.
Qed.

(** *** Taking the next answer off the queues *)

Context (ss : list Store) (Hss : shards_ok who par ch ss).
Abbreviation dest := (read_dest (length ss)).
Abbreviation pending j n msgs := (for_shard dest j (indexed n msgs)).

Definition queued (n : Z) (msgs : list (ToRead GS)) (rss : list (list (Z * FromRead))) : Prop :=
  length rss = length ss ∧
  ∀ j s q, ss !! j = Some s → rss !! j = Some q → Forall2 (ans_of j s) (pending j n msgs) q.
Abbreviation all_covered ps rss := (Forall (Forall (fun y : Z * FromRead => covers ps y.2)) rss).

Lemma pending_later j s n msgs q :
  Forall2 (ans_of j s) (pending j (n + 1) msgs) q → front_is n q = false.
Proof.
  intros Hq. apply front_not. apply Forall_forall. intros y Hy.
  apply list_elem_of_lookup_1 in Hy as [i Hy].
  destruct (Forall2_lookup_r _ _ _ _ _ Hq Hy) as (x & Hx & He & _). rewrite He.
  apply list_elem_of_lookup_2, list_elem_of_filter in Hx as [_ Hx].
  pose proof (proj1 (Forall_forall _ _) (indexed_fst (n + 1) msgs) x Hx). cbn in *. lia.
Qed.

Lemma pending_cons j s n m msgs q :
  Forall2 (ans_of j s) (pending j n (m :: msgs)) q →
  if goes_to (dest m) j
  then ∃ r q', q = (n, r) :: q' ∧ one par ch env j s m r ∧
    Forall2 (ans_of j s) (pending j (n + 1) msgs) q'
  else front_is n q = false ∧ Forall2 (ans_of j s) (pending j (n + 1) msgs) q.
Proof.
  unfold for_shard. cbn [indexed]. destruct (goes_to (dest m) j) eqn:E.
  - rewrite filter_cons_True by done. intros Hq.
    inversion Hq as [|x [n' r] l q' [Hn Ho] Hq']; subst. cbn in Hn, Ho. subst. eauto.
  - rewrite filter_cons_False by (cbn; congruence). intros Hq. split; [|done].
    by eapply pending_later.
Qed.

Lemma queued_lookup n msgs rss j q :
  queued n msgs rss → rss !! j = Some q → ∃ s, ss !! j = Some s ∧
    Forall2 (ans_of j s) (pending j n msgs) q.
Proof.
  intros [Hl Hq] Hj.
  assert (Hlt : (j < length ss)%nat) by (rewrite <- Hl; by eapply lookup_lt_Some).
  destruct (lookup_lt_is_Some_2 ss j Hlt) as [s Hs]. eauto.
Qed.

Lemma answer_covers ps m r : dest m = None → answer par ch env ss m r → covers ps r.
Proof.
  intros Hd. destruct m as [p|p|p|set|p]; [done| | | |]; cbn [answer]; unfold listed_as;
    try (destruct (referral_of par ch p); [by intros ->|]).
  - intros (ok & _ & H). destruct ok; [by destruct H as (? & -> & _)|by subst].
  - intros (ok & _ & H). destruct ok; [by destruct H as (? & ? & -> & _)|by subst].
  - by intros (ok & ms & _ & -> & _).
  - by intros (ok & c & _ & -> & _).
Qed.

Definition merges (n : Z) (m : ToRead GS) (msgs : list (ToRead GS))
    (rss : list (list (Z * FromRead))) : Prop :=
  ∃ r rss', merge_one n rss = Ok (r, rss') ∧ queued (n + 1) msgs rss' ∧
    answer par ch env ss m r ∧
    ∀ ps, all_covered ps rss → all_covered ps rss' ∧ covers ps r.

(** The answer of one shard *)
Lemma merge_owned n m msgs rss j :
  queued n (m :: msgs) rss → (j < length ss)%nat → goes_to (dest m) j = true →
  (∀ t, t ≠ j → (t < length ss)%nat → goes_to (dest m) t = false) →
  (∀ s r, ss !! j = Some s → one par ch env j s m r → answer par ch env ss m r) →
  merges n m msgs rss.
Proof.
  intros Hq Hj Hgo Hother Hans. pose proof Hq as [Hl Hall].
  destruct (lookup_lt_is_Some_2 rss j ltac:(by rewrite Hl)) as [q Hqj].
  destruct (queued_lookup _ _ _ _ _ Hq Hqj) as (s & Hs & Hp).
  apply pending_cons in Hp. rewrite Hgo in Hp. destruct Hp as (r & q' & -> & Ho & Hp).
  assert (Hoth : ∀ t b, t ≠ j → rss !! t = Some b → front_is n b = false ∧
    ∀ u, ss !! t = Some u → Forall2 (ans_of t u) (pending t (n + 1) msgs) b).
  { intros t b Hne Hb. destruct (queued_lookup _ _ _ _ _ Hq Hb) as (u & Hu & Hp').
    apply pending_cons in Hp'. rewrite Hother in Hp'; [|done|by eapply lookup_lt_Some].
    destruct Hp' as [? Hp']. split; [done|]. intros u' Hu'. by simplify_eq. }
  assert (Hc : bool_decide (length rss = 1%nat) || negb (forallb (front_is n) rss) = true).
  { apply orb_true_iff. destruct (decide (length rss = 1%nat)) as [|Hne];
      [left; by apply bool_decide_eq_true|]. right. apply negb_true_iff.
    apply not_true_is_false. rewrite forallb_forall. intros Hf.
    set (t := if decide (j = O) then 1%nat else O).
    assert (Ht : t ≠ j ∧ (t < length rss)%nat) by (unfold t; case_decide; lia).
    destruct (lookup_lt_is_Some_2 rss t ltac:(tauto)) as [b Hb].
    destruct (Hoth t b ltac:(tauto) Hb) as [Hno _].
    rewrite Hf in Hno; [done|]. by apply list_elem_of_In, (list_elem_of_lookup_2 _ t). }
  exists r, (<[j := q']> rss). split; [|split; [|split]].
  - unfold merge_one. rewrite Hc. rewrite (pop_first_spec n j r q' rss); [done| |done].
    intros t b Ht Hb. apply (Hoth t b); [lia|done].
  - split; [by rewrite length_insert|]. intros t u b Hu Hb.
    destruct (decide (j = t)) as [<-|Hne].
    + rewrite list_lookup_insert_eq in Hb by lia. by simplify_eq.
    + rewrite list_lookup_insert_ne in Hb by done. by apply (Hoth t b).
  - by eapply Hans.
  - intros ps Hps. pose proof Hps as Hps'. rewrite Forall_lookup in Hps'.
    apply Hps' in Hqj. apply Forall_cons in Hqj as [? ?].
    split; [by apply Forall_insert|done].
Qed.

(** The answers of all shards *)
Lemma merge_shared n m msgs rss :
  queued n (m :: msgs) rss → dest m = None → length rss ≠ 1%nat → merges n m msgs rss.
Proof.
  intros Hq Hd Hne. pose proof Hq as [Hl Hall].
  assert (Hp : ∀ j s q, ss !! j = Some s → rss !! j = Some q → ∃ r q', q = (n, r) :: q' ∧
    one par ch env j s m r ∧ Forall2 (ans_of j s) (pending j (n + 1) msgs) q').
  { intros j s q Hs Hj. specialize (Hall j s q Hs Hj). apply pending_cons in Hall.
    by rewrite Hd in Hall. }
  assert (Hf : forallb (front_is n) rss = true).
  { apply forallb_forall. intros q Hin%list_elem_of_In%list_elem_of_lookup_1.
    destruct Hin as [j Hj]. destruct (queued_lookup _ _ _ _ _ Hq Hj) as (s & Hs & _).
    destruct (Hp j s q Hs Hj) as (r & q' & -> & _). cbn. apply Z.eqb_refl. }
  destruct (pop_all_spec n rss Hf) as (xs & Hpop & Hxs).
  assert (Hone : ∀ j s x, ss !! j = Some s → xs !! j = Some x → one par ch env j s m x).
  { intros j s x Hs Hx. destruct (Forall2_lookup_r _ _ _ _ _ Hxs Hx) as (q & Hj & q' & ->).
    destruct (Hp j s _ Hs Hj) as (r & q2 & He & Ho & _). by simplify_eq. }
  assert (Hlx : length xs = length ss) by (rewrite <- Hl; symmetry; by eapply Forall2_length).
  pose proof (sk_some _ _ _ _ Hss) as Hpos. pose proof (sk_each _ _ _ _ Hss) as Heach.
  unfold merges, merge_one. rewrite bool_decide_false, Hf by done. cbn [orb negb]. rewrite Hpop.
  assert (∃ s ss', ss = s :: ss') as (s & ss' & Ess) by (destruct ss; [cbn in Hpos; lia|eauto]).
  destruct xs as [|x xs]; [rewrite Ess in Hlx; done|].
  rewrite Ess in Heach, Hlx, Hone, Hd. apply Forall_cons in Heach as [Hs _].
  destruct (merged_answer who par ch env m s ss' x xs Hs Hd) as (r & -> & Hans).
  { split; [exact (Hone O s x eq_refl eq_refl)|].
    apply Forall2_same_length_lookup_2; [by injection Hlx|].
    intros j t y Ht Hy. apply (one_later par ch env (S j)); [done|]. by apply (Hone (S j)). }
  rewrite <- Ess in Hd, Hans.
  cbn [res_map]. exists r, (tail <$> rss). split; [done|]. split; [|split; [done|]].
  - split; [by rewrite length_fmap|]. intros j t q Ht Hj. rewrite list_lookup_fmap in Hj.
    destruct (rss !! j) as [q0|] eqn:Ej; [|done]. injection Hj as <-.
    by destruct (Hp j t q0 Ht Ej) as (r0 & q' & -> & _ & ?).
  - intros ps Hps. split; [|by eapply answer_covers].
    apply Forall_fmap. eapply Forall_impl; [exact Hps|]. cbn. intros q Hc.
    destruct Hc; [constructor|done].
Qed.

Lemma merge_one_spec n m msgs rss : queued n (m :: msgs) rss → merges n m msgs rss.
Proof.
  intros Hq. pose proof (sk_some _ _ _ _ Hss) as Hpos. destruct (dest m) as [j|] eqn:Hd.
  - destruct m as [p| | | |]; cbn in Hd; try done. injection Hd as <-.
    apply (merge_owned n _ msgs rss (shard_of (length ss) p)); [done|by apply shard_of_lt| | |].
    + cbn. by apply bool_decide_eq_true.
    + intros t Hne _. cbn. by apply bool_decide_eq_false.
    + intros s r Hs Ho. by eapply resolve_answer.
  - destruct (decide (length rss = 1%nat)) as [H1|H1]; [|by apply merge_shared].
    destruct Hq as [Hl Hq]. rewrite H1 in Hl.
    assert (∃ s, ss = [s]) as [s Es].
    { destruct ss as [|s [|]]; [done|eauto|done]. }
    apply (merge_owned n m msgs rss O); [by split; [rewrite H1|]|done|by rewrite Hd| |].
    + intros t Hne Ht. lia.
    + intros s' r. rewrite Es. intros [= <-] Ho. apply (single_answer who); [|done].
      by rewrite <- Es.
Qed.

Lemma merge_from_spec n msgs rss :
  queued n msgs rss →
  ∃ out, merge_from (length msgs) n rss = Ok out ∧ Forall2 (answer par ch env ss) msgs out ∧
    ∀ ps, all_covered ps rss → Forall (covers ps) out.
Proof.
  revert n rss; induction msgs as [|m msgs IH]; intros n rss Hq; cbn [length merge_from].
  { exists []. by split_and!. }
  destruct (merge_one_spec n m msgs rss Hq) as (r & rss' & -> & Hq' & Hr & Hc).
  cbn [res_bind]. destruct (IH (n + 1) rss' Hq') as (out & -> & Ho & Hc').
  cbn [res_map]. exists (r :: out). split; [done|]. split; [by constructor|].
  intros ps Hps. destruct (Hc ps Hps). constructor; auto.
Qed.

(** *** The messages sent *)

Definition is_publisher (r : FromRead) : Prop := match r with FR_Publisher _ => True | _ => False end.
#[local] Instance is_publisher_dec r : Decision (is_publisher r).
Proof. destruct r; apply _. Defined.
Definition replies_of (out : list FromRead) : list FromRead := filter (fun r => ¬ is_publisher r) out.
Lemma replies_sub out r : r ∈ replies_of out → r ∈ out.
Proof. unfold replies_of. by intros [_ ?]%list_elem_of_filter. Qed.
(** Every publisher referred to has been described before. *)
Definition introduced (out : list FromRead) : Prop :=
  ∀ a d b, out = a ++ FR_Resolved d :: b → ∀ x, x ∈ res_publishers d →
    ∃ p, FR_Publisher p ∈ a ∧ pub_id p = pr_id x.

Lemma split_inside {A} (l1 l2 a b : list A) x :
  l1 ++ l2 = a ++ x :: b → (∃ l, l1 = a ++ x :: l) ∨ ∃ l, a = l1 ++ l ∧ l2 = l ++ x :: b.
Proof.
  intros He. apply app_eq_app in He as (l & [[-> Hl]|[-> ->]]); [|eauto].
  destruct l as [|y l]; [|injection Hl as <- ->; eauto].
  right. exists []. rewrite !app_nil_r. cbn in Hl. eauto.
Qed.
Lemma introduced_app l1 l2 : introduced l1 → introduced l2 → introduced (l1 ++ l2).
Proof.
  intros H1 H2 a d b [[l Hl]|(l & -> & Hl)]%split_inside x Hx; [by eapply H1|].
  destruct (H2 _ _ _ Hl x Hx) as (p & Hp & He). exists p. split; [|done]. apply elem_of_app; auto.
Qed.
Lemma introduced_chunk ps out :
  keyed ps → Forall (covers ps) out → introduced ((FR_Publisher <$> order_pubs ps) ++ out).
Proof.
  intros Hk Hc a d b [[l Hl]|(l & -> & ->)]%split_inside x Hx.
  { assert (Hin : FR_Resolved d ∈ FR_Publisher <$> order_pubs ps)
      by (rewrite Hl; apply elem_of_app; right; by left).
    by apply list_elem_of_fmap in Hin as (? & ? & _). }
  apply Forall_app in Hc as [_ [Hd _]%Forall_cons]. destruct (Hd x Hx) as [p Hp].
  exists p. split; [|by apply Hk]. apply elem_of_app. left. apply list_elem_of_fmap_2.
  rewrite order_pubs_perm. apply list_elem_of_fmap. exists (pr_id x, p).
  split; [done|]. by apply elem_of_map_to_list.
Qed.
Lemma replies_chunk ps out :
  Forall (covers ps) out → replies_of ((FR_Publisher <$> order_pubs ps) ++ out) = out.
Proof.
  intros Hc. unfold replies_of. rewrite filter_app.
  assert (filter (fun r => ¬ is_publisher r) (FR_Publisher <$> order_pubs ps) = []) as ->.
  { induction (order_pubs ps) as [|p l IH]; [done|]. cbn [fmap list_fmap].
    by rewrite filter_cons_False by (intros H; by apply H). }
  induction Hc as [|r out Hr _ IH]; [done|]. cbn [app] in IH |- *.
  rewrite filter_cons_True by (destruct r; cbn in *; tauto). by rewrite IH.
Qed.

Lemma somewhere_read (x : Z * ToRead GS) l :
  x ∈ l → ∃ i, (i < length ss)%nat ∧ x ∈ for_shard dest i l.
Proof.
  intros Hx. pose proof (sk_some _ _ _ _ Hss) as Hpos. unfold for_shard.
  destruct (dest x.2) as [j|] eqn:E.
  - exists j. split.
    + destruct (x.2); cbn in E; try done. injection E as <-. by apply shard_of_lt.
    + apply list_elem_of_filter. rewrite E. cbn. by rewrite bool_decide_true.
  - exists O. split; [done|]. apply list_elem_of_filter. by rewrite E.
Qed.

Lemma read_loop_spec fuel max msgs :
  0 < max → (length msgs < fuel)%nat → Forall (readable par ch env) msgs →
  ∃ out, read_loop fuel max env ss msgs = Ok out ∧
    Forall2 (answer par ch env ss) msgs (replies_of out) ∧ introduced out.
Proof.
  intros Hmax. revert msgs; induction fuel as [|fuel IH]; intros msgs Hf Hm; [lia|].
  cbn [read_loop].
  destruct (fill_read_spec max (length ss) 0 0 (replicate (length ss) []) msgs)
    as (taken & rest & -> & Hfill).
  destruct (fill_read max (length ss) 0 0 (replicate (length ss) []) (taken ++ rest))
    as [[[f n] bs] r]. destruct Hfill as (-> & -> & Hfin & Hnone & Hl & Hb).
  rewrite length_replicate in Hl. apply Forall_app in Hm as [Hm Hrest]. rewrite length_app in Hf.
  assert (Hbs : ∀ i b, bs !! i = Some b → b = pending i 0 taken).
  { intros i b. rewrite Hb. destruct (replicate (length ss) [] !! i) as [b0|] eqn:Er; [|done].
    apply lookup_replicate in Er as [-> _]. by intros [= <-]. }
  destruct (decide (taken = [])) as [->|Hne].
  { destruct (Hnone eq_refl Hmax) as [-> ->].
    rewrite (proj2 (all_empty bs)) by (by intros i b ->%Hbs). exists []. split; [done|].
    split; [constructor|]. by intros [|] ?? ?. }
  assert (Hsome : forallb is_empty bs = false).
  { apply not_true_is_false. intros He. destruct taken as [|m taken]; [done|].
    destruct (somewhere_read (0, m) (indexed 0 (m :: taken))) as (i & Hi & Hin); [by left|].
    destruct (lookup_lt_is_Some_2 bs i ltac:(by rewrite Hl)) as [b Hbi].
    rewrite all_empty in He. pose proof (He i b Hbi) as ->. apply Hbs in Hbi.
    rewrite <- Hbi in Hin. by apply elem_of_nil in Hin. }
  rewrite Hsome.
  destruct (run_reads_spec 0 ss bs Hl (sk_each _ _ _ _ Hss)) as (ps & rss & -> & Hk & Hl2 & Hc & Hrss).
  { apply Forall_lookup. intros i b ->%Hbs. unfold for_shard. apply Forall_filter.
    rewrite <- (indexed_snd 0 taken) in Hm. by rewrite Forall_fmap in Hm. }
  cbn [res_bind]. rewrite Z.add_0_l. unfold zlen. rewrite Nat2Z.id.
  destruct (merge_from_spec 0 taken rss) as (out & -> & Ho & Hco).
  { split; [done|]. intros j s q Hs Hq.
    destruct (lookup_lt_is_Some_2 bs j) as [b Hbj];
      [rewrite Hl; by eapply lookup_lt_Some|].
    destruct (Hrss j s b Hs Hbj) as (rs & Hrs & Hans). simplify_eq.
    by rewrite <- (Hbs j b Hbj). }
  cbn [res_bind]. specialize (Hco ps Hc).
  pose proof (introduced_chunk ps out Hk Hco) as Hint. pose proof (replies_chunk ps out Hco) as Hrep.
  destruct f.
  - rewrite (Hfin eq_refl), app_nil_r. eexists. split; [done|]. by rewrite Hrep.
  - destruct (IH rest) as (out2 & -> & Ho2 & Hi2); [destruct taken; [done|cbn in Hf; lia]|done|].
    cbn [res_map]. eexists. split; [done|]. split; [|by apply introduced_app].
    unfold replies_of in *. rewrite filter_app, Hrep. by apply Forall2_app.
Qed.
End Batch.
