(* ===== verification/Server.v ===== *)
(** The resolver server (netidx/src/resolver_server/mod.rs, secctx.rs and the
    address check of netidx-core/src/utils.rs): the table of publishers, the ways
    a publisher opens or takes up a session, and the loop of a write connection.
    Everything done under the lock on the table is one step, and a handshake or a
    batch is run without interruption. What the peer sends,
    random numbers, the clock and the answers of Kerberos, TLS, the local
    authenticator and the user mapper are inputs of a step. *)
From Stdlib Require Import ZArith Lia.
From stdpp Require Import base gmap list strings sorting.
From Stdlib Require Import Strings.Byte.
From S2P Require Import Prelude Varint Pack Containers PackTypes Path PathFacts Order Glob Derive Proto Store Permissions Shard.

#[export] Instance PublisherPriority_eq_dec : EqDecision PublisherPriority.
Proof. solve_decision. Defined.

(** ** [utils::check_addr] *)

Definition is_loopback (a : SocketAddr) : bool :=
  match a with
  | V4 (o :: _) _ => bZ o =? 127
  | V6 s _ _ _ => bool_decide (uval <$> s = [0; 0; 0; 0; 0; 0; 0; 1])
  | V4 [] _ => false
  end.
Definition is_unspecified (a : SocketAddr) : bool :=
  match a with
  | V4 o _ => forallb (fun b => bZ b =? 0) o
  | V6 s _ _ _ => forallb (fun b => uval b =? 0) s
  end.
Definition is_multicast (a : SocketAddr) : bool :=
  match a with
  | V4 (o :: _) _ => (224 <=? bZ o) && (bZ o <=? 239)
  | V6 (s :: _) _ _ _ => Z.land (uval s) 65280 =? 65280
  | _ => false
  end.
Definition is_private (a : SocketAddr) : bool :=
  match a with
  | V4 (o :: p :: _) _ =>
      (bZ o =? 10) || ((bZ o =? 172) && (16 <=? bZ p) && (bZ p <=? 31)) ||
      ((bZ o =? 192) && (bZ p =? 168))
  | _ => false
  end.
Definition is_link_local (a : SocketAddr) : bool :=
  match a with
  | V4 (o :: p :: _) _ => (bZ o =? 169) && (bZ p =? 254)
  | _ => false
  end.
Definition is_broadcast (a : SocketAddr) : bool :=
  match a with
  | V4 o _ => forallb (fun b => bZ b =? 255) o
  | V6 _ _ _ _ => false
  end.
Definition is_v6 (a : SocketAddr) : bool := match a with V6 _ _ _ _ => true | V4 _ _ => false end.
Definition check_addr (ip : SocketAddr) (resolvers : list SocketAddr) : bool :=
  negb (is_link_local ip) && negb (is_broadcast ip) &&
  (negb (is_private ip) ||
   forallb (fun a => is_v6 a || is_private a || is_loopback a) resolvers) &&
  negb (is_unspecified ip) && negb (is_multicast ip) &&
  (negb (is_loopback ip) || forallb is_loopback resolvers).

(** ** State *)

(** [SecCtx]: how this server authenticates *)
Inductive SecCtx := ScAnonymous | ScKrb5 | ScLocal | ScTls.
(** [K5SecData], [LocalSecData], [TlsSecData]: the secret shared with a publisher,
    and the user it authenticated as; a TLS user is read off each connection. *)
Record SecData := MkSecData { sd_secret : u128; sd_user : option str }.
(** [ClientInfo::Running]: the connection whose loop holds the other end of
    [stop]. [CleaningUp] is set and removed under one lock. *)
Record ClientInfo := MkClientInfo { ci_publisher : Publisher; ci_stop : Z }.

Record Server := MkServer {
  sv_sec : SecCtx; sv_id : SocketAddr; sv_pmap : PMap;
  sv_users : UserDb; sv_data : gmap PublisherId SecData;
  clinfos : gmap SocketAddr ClientInfo; sv_next : Z; sv_shards : list Store }.

Definition set_users (st : Server) x := MkServer (sv_sec st) (sv_id st) (sv_pmap st) x
  (sv_data st) (clinfos st) (sv_next st) (sv_shards st).
Definition set_data (st : Server) x := MkServer (sv_sec st) (sv_id st) (sv_pmap st) (sv_users st)
  x (clinfos st) (sv_next st) (sv_shards st).
Definition set_clinfos (st : Server) x := MkServer (sv_sec st) (sv_id st) (sv_pmap st)
  (sv_users st) (sv_data st) x (sv_next st) (sv_shards st).
Definition set_next (st : Server) x := MkServer (sv_sec st) (sv_id st) (sv_pmap st) (sv_users st)
  (sv_data st) (clinfos st) x (sv_shards st).
Definition set_shards (st : Server) x := MkServer (sv_sec st) (sv_id st) (sv_pmap st)
  (sv_users st) (sv_data st) (clinfos st) (sv_next st) x.

(** Steps that can be refused, and that keep what they changed before *)
Inductive refusal := NotPermitted | IllegalPriority | NoSession | Missing | Denied | NotOwner
  | Unsupported | BadAddr | Lost | Rejected.
Definition srv (A : Type) := Server → res refusal A * Server.
Definition sret {A} (a : A) : srv A := fun st => (Ok a, st).
Definition refuse {A} (r : refusal) : srv A := fun st => (Err r, st).
Definition sbind {A B} (m : srv A) (k : A → srv B) : srv B := fun st =>
  match m st with
  | (Ok a, st) => k a st
  | (Err r, st) => (Err r, st)
  | (Panic, st) => (Panic, st)
  end.
Declare Scope server_scope.
Delimit Scope server_scope with server.
Notation "'let*' x := m 'in' k" := (sbind m (fun x => k))
  (at level 10, x pattern, m at level 100, k at level 200) : server_scope.
Notation "m ;* k" := (sbind m (fun _ => k)) (at level 100, right associativity) : server_scope.
Open Scope server_scope.

Definition modify (f : Server → Server) : srv unit := fun st => (Ok (), f st).
Definition ask {A} (f : Server → A) : srv A := fun st => (Ok (f st), st).
Definition require (b : bool) (r : refusal) : srv unit := if b then sret () else refuse r.
Definition need {A} (o : option A) (r : refusal) : srv A :=
  match o with Some a => sret a | None => refuse r end.

(** [SecCtx::read] *)
Definition guard (st : Server) : SecCtxDataReadGuard :=
  match sv_sec st with
  | ScAnonymous => SecAnonymous
  | ScKrb5 => SecKrb5 (sd_secret <$> sv_data st)
  | ScLocal => SecLocal (sd_secret <$> sv_data st)
  | ScTls => SecTls (sd_secret <$> sv_data st)
  end.
Definition write_env (st : Server) (uifo : AuthUser) (p : Publisher) : WriteEnv :=
  MkWriteEnv (guard st) (sv_pmap st) uifo p.

(** [SecCtx::remove], [SecCtxData::insert] *)
Definition secctx_remove (id : PublisherId) (st : Server) : Server :=
  match sv_sec st with
  | ScAnonymous => st
  | ScKrb5 | ScLocal | ScTls => set_data st (delete id (sv_data st))
  end.
Definition secctx_insert (id : PublisherId) (d : SecData) (st : Server) : Server :=
  set_data st (<[id := d]> (delete id (sv_data st))).

Section Server.
Context {ES : Escaping} {LV : Live} {SH : Sha3} {HO : HashOrder} {PH : PathHash}.
Context (sort : list (Z * FromWrite) → list (Z * FromWrite)) (shuffle : list str → list str).
Context (max : nat).

Definition lift_write {A} (f : list Store → res unit (list Store * A)) : srv A := fun st =>
  match f (sv_shards st) with
  | Ok (ss, a) => (Ok a, set_shards st ss)
  | Err _ => (Err Lost, st)
  | Panic => (Panic, st)
  end.
Definition clear_store (uifo : AuthUser) (p : Publisher) : srv unit :=
  let* st := ask id in
  lift_write (fun ss => res_map (fun ss => (ss, ())) (handle_clear shuffle max (write_env st uifo p) ss)).

(** ** The table of publishers *)

(** [ClinfosInner::remove] *)
Definition remove (p : Publisher) (uifo : AuthUser) : srv unit :=
  let* st := ask id in
  match clinfos st !! pub_addr p with
  | None => sret ()
  | Some _ =>
      modify (secctx_remove (pub_id p)) ;*
      clear_store uifo p ;*
      modify (fun st => set_clinfos st (delete (pub_addr p) (clinfos st)))
  end.

(** [ClinfosInner::insert] for the connection [cid]: the publisher and whether it
    is a new one. The [loop] runs again after clearing the old publisher. *)
Fixpoint insert_loop (fuel : nat) (cid : Z) (uifo : AuthUser) (hello : ClientHelloWrite)
  : srv (Publisher * bool) :=
  match fuel with
  | O => fun st => (Panic, st)
  | S fuel =>
      let addr := chw_write_addr hello in
      let* st := ask id in
      match clinfos st !! addr with
      | None =>
          let* target := need (target_auth_try_from (chw_auth hello)) NoSession in
          let '(id, next) := atomic_id_new (sv_next st) in
          let p := MkPublisher (sv_id st) id addr Sha3_512 target None (chw_priority hello) in
          modify (fun st => set_next (set_clinfos st (<[addr := MkClientInfo p cid]> (clinfos st))) next) ;*
          sret (p, true)
      | Some (MkClientInfo p _) =>
          let kill_it :=
            modify (secctx_remove (pub_id p)) ;*
            clear_store uifo p ;*
            modify (fun st => set_clinfos st (delete addr (clinfos st))) ;*
            insert_loop fuel cid uifo hello in
          let reuse :=
            modify (fun st => set_clinfos st (<[addr := MkClientInfo p cid]> (clinfos st))) ;*
            sret (p, false) in
          let same := bool_decide (pub_priority p = chw_priority hello) in
          match chw_auth hello with
          | AW_Anonymous =>
              if is_anonymous (pub_target_auth p) then if same then reuse else kill_it
              else refuse NotPermitted
          | AW_Reuse => if same then reuse else refuse IllegalPriority
          | AW_Krb5 _ | AW_Local | AW_Tls _ => kill_it
          end
      end
  end.
Definition insert_client := insert_loop 2.

(** [ClinfosInner::id] *)
Definition client_id (st : Server) (addr : SocketAddr) : option PublisherId :=
  (fun i => pub_id (ci_publisher i)) <$> clinfos st !! addr.

(** ** Opening a session *)

(** The inputs of a handshake *)
Record Peer := MkPeer {
  pe_sent : bool;              (** the server's hello could be sent *)
  pe_user : option (option str);
      (** the user the local token, Kerberos or the certificate stands for, if valid *)
  pe_ttl : option Z;           (** the remaining life of a Kerberos context, in seconds *)
  pe_nonce : u128;             (** the random challenge *)
  pe_answer : option str;      (** the answer to it *)
  pe_secret : u128;            (** the random secret offered *)
  pe_ready : bool;             (** the secret was taken and the client is ready *)
  pe_version : option Z;       (** the version the listener speaks *)
  pe_groups : str → option (str * list str); pe_now : Z; pe_later : Z; pe_anon : AuthUser }.

(** The answer to a challenge *)
Definition proof_of (n secret : u128) : str :=
  make_sha3_token [be_bytes 16 (uval n); be_bytes 16 (uval secret)].

Definition users_ifo (pe : Peer) (user : option str) : srv AuthUser := fun st =>
  match ifo (pe_groups pe) (pe_now pe) (pe_later pe) (pe_anon pe) (sv_users st) (sv_id st) user with
  | (Ok u, db) => (Ok u, set_users st db)
  | (Err _, db) => (Err Rejected, set_users st db)
  | (Panic, db) => (Panic, set_users st db)
  end.

(** [challenge_auth] *)
Definition challenge_auth (pe : Peer) (secret : u128) : srv unit :=
  let* token := need (pe_answer pe) Lost in
  require (bool_decide (token = proof_of (pe_nonce pe) secret)) Denied.

(** [ownership_check]: the listener at the address must know the secret *)
Definition ownership_check (pe : Peer) : srv u128 :=
  require (pe_ready pe) Lost ;*
  let* v := need (pe_version pe) Lost in
  require (v =? 3) NotOwner ;*
  let* token := need (pe_answer pe) Lost in
  require (bool_decide (token = proof_of (pe_nonce pe) (pe_secret pe))) NotOwner ;*
  sret (pe_secret pe).

(** The end of the anonymous and of the three [reuse] handshakes: the session is
    dropped again if the hello cannot be sent. *)
Definition say_hello (pe : Peer) (p : Publisher) (uifo : AuthUser) : srv unit :=
  if pe_sent pe then sret () else (remove p uifo ;* refuse Lost).

(** [write_client_anonymous_auth] *)
Definition write_client_anonymous_auth (cid : Z) (pe : Peer) (hello : ClientHelloWrite)
  : srv (AuthUser * Publisher * bool) :=
  let uifo := pe_anon pe in
  let* (p, ttl_expired) := insert_client cid uifo hello in
  say_hello pe p uifo ;*
  sret (uifo, p, ttl_expired).

(** [write_client_local_auth] *)
Definition write_client_local_auth (cid : Z) (pe : Peer) (hello : ClientHelloWrite)
  : srv (AuthUser * Publisher * bool) :=
  let* cred := need (pe_user pe) Rejected in
  let* user := need cred Rejected in
  let* uifo := users_ifo pe (Some user) in
  require (pe_sent pe) Lost ;*
  let* secret := ownership_check pe in
  let* (p, _) := insert_client cid uifo hello in
  modify (secctx_insert (pub_id p) (MkSecData secret (Some user))) ;*
  sret (uifo, p, true).

(** [write_client_krb5_auth] *)
Definition write_client_krb5_auth (cid : Z) (pe : Peer) (hello : ClientHelloWrite)
  : srv (AuthUser * Publisher * bool) :=
  let* cred := need (pe_user pe) Rejected in
  require (pe_sent pe) Lost ;*
  let* secret := ownership_check pe in
  let* user := need cred Rejected in
  let* uifo := users_ifo pe (Some user) in
  let* (p, _) := insert_client cid uifo hello in
  modify (secctx_insert (pub_id p) (MkSecData secret (Some user))) ;*
  sret (uifo, p, true).

(** [write_client_tls_auth]; a certificate without names is anonymous *)
Definition write_client_tls_auth (cid : Z) (pe : Peer) (hello : ClientHelloWrite)
  : srv (AuthUser * Publisher * bool) :=
  let* cred := need (pe_user pe) Rejected in
  let* uifo := users_ifo pe cred in
  require (pe_sent pe) Lost ;*
  let* secret := ownership_check pe in
  let* (p, _) := insert_client cid uifo hello in
  modify (secctx_insert (pub_id p) (MkSecData secret None)) ;*
  sret (uifo, p, true).

(** The session at the address and its secret *)
Definition session (addr : SocketAddr) : srv SecData :=
  let* id := ask (fun st => client_id st addr) in
  let* id := need id Missing in
  let* d := ask (fun st => sv_data st !! id) in
  need d Missing.
(** The end of a [reuse] handshake *)
Definition take_up (cid : Z) (pe : Peer) (uifo : AuthUser) (hello : ClientHelloWrite) (secret : u128)
  : srv (AuthUser * Publisher * bool) :=
  challenge_auth pe secret ;*
  let* (p, ttl_expired) := insert_client cid uifo hello in
  say_hello pe p uifo ;*
  sret (uifo, p, ttl_expired).

(** [write_client_reuse_local], [write_client_reuse_krb5], [write_client_reuse_tls] *)
Definition write_client_reuse_local (cid : Z) (pe : Peer) (hello : ClientHelloWrite) :=
  let* d := session (chw_write_addr hello) in
  let* user := need (sd_user d) Missing in
  let* uifo := users_ifo pe (Some user) in
  take_up cid pe uifo hello (sd_secret d).
Definition write_client_reuse_krb5 (cid : Z) (pe : Peer) (hello : ClientHelloWrite) :=
  let* d := session (chw_write_addr hello) in
  require (match pe_ttl pe with Some t => 0 <? t | None => false end) Missing ;*
  let* user := need (sd_user d) Rejected in
  let* uifo := users_ifo pe (Some user) in
  take_up cid pe uifo hello (sd_secret d).
Definition write_client_reuse_tls (cid : Z) (pe : Peer) (hello : ClientHelloWrite) :=
  let* cred := need (pe_user pe) Rejected in
  let* d := session (chw_write_addr hello) in
  let* uifo := users_ifo pe cred in
  take_up cid pe uifo hello (sd_secret d).

(** [hello_client_write]: the user, the publisher and [ttl_expired] *)
Definition hello_client_write (cid : Z) (pe : Peer) (hello : ClientHelloWrite)
  : srv (AuthUser * Publisher * bool) :=
  let* st := ask id in
  require (check_addr (chw_write_addr hello) [sv_id st]) BadAddr ;*
  match chw_auth hello, sv_sec st with
  | AW_Anonymous, _ => write_client_anonymous_auth cid pe hello
  | AW_Local, ScLocal => write_client_local_auth cid pe hello
  | AW_Krb5 _, ScKrb5 => write_client_krb5_auth cid pe hello
  | AW_Tls _, ScTls => write_client_tls_auth cid pe hello
  | AW_Reuse, ScLocal => write_client_reuse_local cid pe hello
  | AW_Reuse, ScKrb5 => write_client_reuse_krb5 cid pe hello
  | AW_Reuse, ScTls => write_client_reuse_tls cid pe hello
  | _, _ => refuse Unsupported
  end.

(** [hello_client_read]: the user a read connection acts as *)
Definition hello_client_read (pe : Peer) (hello : AuthRead) : srv AuthUser :=
  let* st := ask id in
  match hello, sv_sec st with
  | AR_Anonymous, _ => require (pe_sent pe) Lost ;* sret (pe_anon pe)
  | AR_Local, ScLocal =>
      let* cred := need (pe_user pe) Rejected in
      let* user := need cred Rejected in
      let* uifo := users_ifo pe (Some user) in
      require (pe_sent pe) Lost ;* sret uifo
  | AR_Krb5, ScKrb5 =>
      let* cred := need (pe_user pe) Rejected in
      require (pe_sent pe) Lost ;*
      let* user := need cred Rejected in
      users_ifo pe (Some user)
  | AR_Tls, ScTls =>
      let* cred := need (pe_user pe) Rejected in
      let* uifo := users_ifo pe cred in
      require (pe_sent pe) Lost ;* sret uifo
  | _, _ => refuse Unsupported
  end.

(** ** A batch of a write connection *)

(** The messages before the first [Clear], and those after it *)
Fixpoint split_clear (batch : list ToWrite) : option (list ToWrite * list ToWrite) :=
  match batch with
  | [] => None
  | Clear :: batch => Some ([], batch)
  | m :: batch => (fun '(a, b) => (m :: a, b)) <$> split_clear batch
  end.
(** The replies to the messages a [Clear] makes pointless *)
Definition courtesy (m : ToWrite) : option FromWrite :=
  match m with
  | Heartbeat => None
  | Publish _ | PublishDefault _ | PublishWithFlags _ _ | PublishDefaultWithFlags _ _ =>
      Some FW_Published
  | Unpublish _ | UnpublishDefault _ | Clear => Some FW_Unpublished
  end.
Fixpoint client_batch_loop (fuel : nat) (uifo : AuthUser) (p : Publisher) (batch : list ToWrite)
  : srv (list FromWrite) :=
  match fuel with
  | O => fun st => (Panic, st)
  | S fuel =>
      match split_clear batch with
      | Some (before, rest) =>
          clear_store uifo p ;*
          let* rs := client_batch_loop fuel uifo p rest in
          sret (omap courtesy before ++ FW_Unpublished :: rs)
      | None =>
          let* st := ask id in
          lift_write (fun ss => handle_batch_write sort max (write_env st uifo p) ss batch)
      end
  end.
(** The arm of [client_loop_write] that handles a batch *)
Definition client_batch (uifo : AuthUser) (p : Publisher) (batch : list ToWrite)
  : srv (list FromWrite) :=
  if decide (batch = [Heartbeat]) then sret []
  else client_batch_loop (S (length batch)) uifo p batch.

(** ** Connections *)

(** The local state of [client_loop_write] *)
Record Conn := MkConn { cn_publisher : Publisher; cn_uifo : AuthUser; cn_con : bool; cn_act : bool }.
(** The server, its write connections and [CId::new] *)
Record World := MkWorld { w_server : Server; w_conns : gmap Z Conn; w_cid : Z }.

Inductive event :=
| EvHello (pe : Peer) (hello : ClientHelloWrite)    (** a write client says hello *)
| EvBatch (cid : Z) (batch : list ToWrite)          (** a batch is received *)
| EvLost (cid : Z)                                  (** the connection breaks *)
| EvTick (cid : Z).                                 (** [writer_ttl] has passed *)

(** [rx_stop]: the other end has been replaced or dropped *)
Definition stopped (st : Server) (cid : Z) (c : Conn) : bool :=
  match clinfos st !! pub_addr (cn_publisher c) with
  | Some i => negb (ci_stop i =? cid)
  | None => true
  end.
Definition keep (w : World) (cid : Z) (c : Conn) (st : Server) : World :=
  MkWorld st (<[cid := c]> (w_conns w)) (w_cid w).
Definition drop (w : World) (cid : Z) (st : Server) : World :=
  MkWorld st (delete cid (w_conns w)) (w_cid w).

(** One turn of a connection's loop. [select_biased!] looks at [rx_stop] first. *)
Definition turn (w : World) (cid : Z) (f : Conn → World) : World :=
  match w_conns w !! cid with
  | None => w
  | Some c => if stopped (w_server w) cid c then drop w cid (w_server w) else f c
  end.
Definition serve (w : World) (ev : event) : World :=
  match ev with
  | EvHello pe hello =>
      match hello_client_write (w_cid w) pe hello (w_server w) with
      | (Ok (uifo, p, _), st) =>
          MkWorld st (<[w_cid w := MkConn p uifo true false]> (w_conns w)) (w_cid w + 1)
      | (_, st) => MkWorld st (w_conns w) (w_cid w + 1)
      end
  | EvBatch cid batch => turn w cid (fun c =>
      if cn_con c then
        match client_batch (cn_uifo c) (cn_publisher c) batch (w_server w) with
        | (Ok _, st) => keep w cid (MkConn (cn_publisher c) (cn_uifo c) true true) st
        | (_, st) => keep w cid (MkConn (cn_publisher c) (cn_uifo c) false true) st
        end
      else w)
  | EvLost cid => turn w cid (fun c =>
      keep w cid (MkConn (cn_publisher c) (cn_uifo c) false (cn_act c)) (w_server w))
  | EvTick cid => turn w cid (fun c =>
      if cn_act c then keep w cid (MkConn (cn_publisher c) (cn_uifo c) (cn_con c) false) (w_server w)
      else drop w cid (remove (cn_publisher c) (cn_uifo c) (w_server w)).2)
  end.
End Server.
