(* ===== verification/ServerFacts.v ===== *)
(** The resolver server keeps its tables consistent: everything published belongs
    to a publisher with a session, whichever way sessions are opened, taken up,
    replaced and dropped. *)
From Stdlib Require Import ZArith Lia.
From stdpp Require Import base gmap list strings sorting.
From Stdlib Require Import Strings.Byte.
From S2P Require Import Prelude Varint Pack Containers PackTypes Path PathFacts Order Glob Derive Proto Store StoreFacts StoreRead Permissions Shard ShardWrite Server.

(** ** Messages that cannot make a shard panic *)

Section Static.
Context {ES : Escaping}.

Definition sound (m : ToWrite) : Prop :=
  match request_of m with
  | AskPublish p _ _ => (is_absolute p = true → good p) ∧ ∃ l, dirnames_list p = Ok l
  | AskUnpublish p _ => is_absolute p = true → good p
  | AskClear => True
  | AskNothing => False
  end.
Definition batch_sound (max : nat) (batch : list ToWrite) : Prop :=
  Forall sound (counted batch) ∧ (length (filter (.= Heartbeat) batch) < max)%nat.

Lemma sound_ok env m : sound m → msg_ok env m.
Proof.
  unfold sound, msg_ok. destruct (request_of m) as [p d fl|p d| |]; try done.
  intros [Hg [l Hl]]. split; [done|]. unfold may_publish, allowed_opt.
  destruct (sec_pmap _ _) as [pm|]; [|eauto]. unfold allowed, permissions. rewrite Hl. cbn. eauto.
Qed.

Lemma counted_app a b : counted (a ++ b) = counted a ++ counted b.
Proof. apply filter_app. Qed.
Lemma counted_cons m b : m ≠ Heartbeat → counted (m :: b) = m :: counted b.
Proof. intros Hm. by apply filter_cons_True. Qed.

Lemma split_clear_spec batch before rest :
  split_clear batch = Some (before, rest) → batch = before ++ Clear :: rest.
Proof.
  revert before; induction batch as [|m batch IH]; intros before; cbn [split_clear]; [done|].
  destruct m; try (intros [= <- <-]; done);
    destruct (split_clear batch) as [[a b]|]; try done; intros [= <- <-]; cbn; by rewrite <- IH.
Qed.
Lemma split_clear_none batch : split_clear batch = None → Clear ∉ batch.
Proof.
  induction batch as [|m batch IH]; cbn [split_clear]; [intros _; apply not_elem_of_nil|].
  destruct m; try done; destruct (split_clear batch) as [[a b]|]; try done;
    intros _; apply not_elem_of_cons; eauto.
Qed.
End Static.

(** ** One connection's batch *)

Section Batch.
Context {ES : Escaping} {ESO : EscapingOk ES} {LV : Live} {HO : HashOrder} {HOK : HashOrderOk HO}.
Context {PH : PathHash}.
Context (sort : list (Z * FromWrite) → list (Z * FromWrite)) (shuffle : list str → list str).
Context (max : nat) (par : option Referral) (ch : gmap str Referral).
Context (Hsort : ∀ l, sort l ≡ₚ l ∧ StronglySorted (fun x y : Z * FromWrite => x.1 ≤ y.1) (sort l)).
Context (Hshuffle : ∀ l, shuffle l ≡ₚ l) (Hmax : (0 < max)%nat).

Lemma clear_store_spec who st uifo p :
  who (pub_id p) = p → shards_ok who par ch (sv_shards st) →
  ∃ ss, clear_store shuffle max uifo p st = (Ok (), set_shards st ss) ∧ shards_ok who par ch ss ∧
    ∀ e q, abs ss e q = abs (sv_shards st) e q ∖ {[pub_id p]}.
Proof.
  intros Hw Hs.
  destruct (handle_clear_spec who par ch (write_env st uifo p) Hw shuffle max (sv_shards st))
    as (ss & Hrun & Hok & Habs); [done..|].
  exists ss. split; [|done]. unfold clear_store, sbind, ask, lift_write. cbn [id].
  by rewrite Hrun.
Qed.

(** The replies: those a [Clear] overtakes are answered without looking. *)
Fixpoint expected (env : WriteEnv) (batch : list ToWrite) : list FromWrite :=
  match batch with
  | [] => []
  | m :: batch =>
      match courtesy m with
      | None => expected env batch
      | Some r => (if decide (Clear ∈ batch) then r else reply par ch env m) :: expected env batch
      end
  end.

Lemma expected_split env a b :
  expected env (a ++ Clear :: b) = omap courtesy a ++ FW_Unpublished :: expected env b.
Proof.
  induction a as [|m a IH]; cbn [app expected].
  - cbn. by destruct (decide _).
  - cbn [omap list_omap]. destruct (courtesy m); [|exact IH].
    rewrite decide_True by (apply elem_of_app; right; by left). cbn. by rewrite IH.
Qed.
Lemma expected_plain env b : Clear ∉ b → expected env b = reply par ch env <$> counted b.
Proof.
  induction b as [|m b IH]; [done|]. intros [Hm Hb]%not_elem_of_cons. cbn [expected].
  destruct (decide (m = Heartbeat)) as [->|Hne].
  - cbn [courtesy]. unfold counted. rewrite filter_cons_False by (by intros ?). by apply IH.
  - rewrite counted_cons by done. rewrite IH by done. destruct m; try done; cbn [courtesy fmap list_fmap];
      by rewrite decide_False.
Qed.

Lemma write_env_shards st ss uifo p : write_env (set_shards st ss) uifo p = write_env st uifo p.
Proof. done. Qed.

Lemma batch_loop_spec who fuel st uifo p batch :
  let env := write_env st uifo p in
  who (pub_id p) = p → shards_ok who par ch (sv_shards st) → batch_sound max batch →
  (length batch < fuel)%nat →
  ∃ ss, client_batch_loop sort shuffle max fuel uifo p batch st =
      (Ok (expected env batch), set_shards st ss) ∧
    shards_ok who par ch ss ∧
    ∀ e q, abs ss e q = foldl (effect par ch env e q) (abs (sv_shards st) e q) (counted batch).
Proof.
  intros env Hw. revert st env batch; induction fuel as [|fuel IH];
    intros st env batch Hs [Hsnd Hh] Hf; [lia|]. cbn [client_batch_loop].
  destruct (split_clear batch) as [[before rest]|] eqn:E.
  - apply split_clear_spec in E as ->.
    destruct (clear_store_spec who st uifo p Hw Hs) as (s1 & Hc & Hs1 & Ha1).
    rewrite counted_app, (counted_cons Clear) in Hsnd by done.
    apply Forall_app in Hsnd as [_ [_ Hsnd]%Forall_cons].
    rewrite length_app in Hf. cbn in Hf.
    destruct (IH (set_shards st s1) rest) as (s2 & Hb & Hs2 & Ha2); [done| |lia|].
    { split; [done|]. rewrite filter_app, length_app, filter_cons_False in Hh by done. lia. }
    exists s2. unfold sbind, sret. rewrite Hc, Hb. split; [by rewrite expected_split|].
    split; [done|]. intros e q. rewrite Ha2, counted_app, (counted_cons Clear), foldl_app by done.
    cbn [foldl sv_shards set_shards]. f_equal. rewrite Ha1.
    symmetry. apply (fold_own who par ch env Hw).
  - destruct (batch_write_spec who par ch env Hw sort max (sv_shards st) batch) as (ss & Hrun & Hok & Ha);
      [done|done|done|eapply Forall_impl; [exact Hsnd|apply sound_ok]|].
    exists ss. unfold sbind, ask, lift_write. cbn [id]. fold env. rewrite Hrun.
    split; [|done]. by rewrite expected_plain by (by apply split_clear_none).
Qed.

Lemma client_batch_spec who st uifo p batch :
  let env := write_env st uifo p in
  who (pub_id p) = p → shards_ok who par ch (sv_shards st) → batch_sound max batch →
  ∃ ss, client_batch sort shuffle max uifo p batch st =
      (Ok (expected env batch), set_shards st ss) ∧
    shards_ok who par ch ss ∧
    ∀ e q, abs ss e q = foldl (effect par ch env e q) (abs (sv_shards st) e q) (counted batch).
Proof.
  intros env Hw Hs Hb. unfold client_batch. case_decide as Hh.
  - subst batch. exists (sv_shards st). split; [by destruct st|done].
  - apply batch_loop_spec; [done..|lia].
Qed.
End Batch.

(** ** The tables agree *)

Section Tables.
Context {ES : Escaping} {ESO : EscapingOk ES} {LV : Live} {SH : Sha3}.
Context {HO : HashOrder} {HOK : HashOrderOk HO} {PH : PathHash}.
Context (shuffle : list str → list str).
Context (max : nat) (par : option Referral) (ch : gmap str Referral).
Context (Hshuffle : ∀ l, shuffle l ≡ₚ l) (Hmax : (0 < max)%nat).

(** A publisher with a session *)
Definition owned (st : Server) (id : PublisherId) : Prop :=
  ∃ a i, clinfos st !! a = Some i ∧ pub_id (ci_publisher i) = id.

Record server_ok (st : Server) : Prop := {
  sv_pos : 0 ≤ sv_next st;
  sv_addr a i : clinfos st !! a = Some i → pub_addr (ci_publisher i) = a;
  sv_range a i : clinfos st !! a = Some i → inner (pub_id (ci_publisher i)) < sv_next st;
  sv_uniq a b i j : clinfos st !! a = Some i → clinfos st !! b = Some j →
    pub_id (ci_publisher i) = pub_id (ci_publisher j) → a = b;
  sv_owned e q id : id ∈ abs (sv_shards st) e q → owned st id;
  sv_secret id : is_Some (sv_data st !! id) → owned st id;
  sv_anonymous : sv_sec st = ScAnonymous → sv_data st = ∅;
  sv_who : ∃ who, (∀ id, pub_id (who id) = id) ∧
    (∀ a i, clinfos st !! a = Some i → who (pub_id (ci_publisher i)) = ci_publisher i) ∧
    shards_ok who par ch (sv_shards st)
}.

Lemma pubs_in_abs who ss i s e q id :
  shards_ok who par ch ss → ss !! i = Some s → id ∈ pubs_at s e q → id ∈ abs ss e q.
Proof.
  intros Hss Hs Hid. unfold abs. destruct e.
  - pose proof (sk_some _ _ _ _ Hss) as Hpos.
    destruct (lookup_lt_is_Some_2 ss O Hpos) as [s0 H0]. rewrite H0.
    by rewrite (sk_same _ _ _ _ Hss O i s0 s).
  - rewrite (sk_home _ _ _ _ Hss i s q Hs) by (by eapply elem_ne). by rewrite Hs.
Qed.

Lemma known_in_abs who ss s id :
  shards_ok who par ch ss → s ∈ ss → is_Some (publishers_by_id s !! id) →
  ∃ e q, id ∈ abs ss e q.
Proof.
  intros Hss [i Hi]%list_elem_of_lookup_1 Hid.
  pose proof (sk_each _ _ _ _ Hss) as He. rewrite Forall_lookup in He.
  destruct (He i s Hi) as ((Hs & _) & _). apply (so_known s Hs) in Hid as [Hid|Hid].
  - apply (index_lookup_id _ _ _ (so_pub s Hs)) in Hid. apply set_choose_L in Hid as [p Hp].
    exists false, p. eapply pubs_in_abs; [done..|]. by apply (ix_rel _ _ (so_pub s Hs)).
  - apply (index_lookup_id _ _ _ (so_def s Hs)) in Hid. apply set_choose_L in Hid as [p Hp].
    exists true, p. eapply pubs_in_abs; [done..|]. by apply (ix_rel _ _ (so_def s Hs)).
Qed.

Lemma shards_who who who' ss :
  shards_ok who par ch ss → (∀ e q id, id ∈ abs ss e q → who' id = who id) →
  shards_ok who' par ch ss.
Proof.
  intros Hss Hw. split; [apply Hss| |apply Hss|apply Hss].
  apply Forall_forall. intros s Hin.
  pose proof (proj1 (Forall_forall _ _) (sk_each _ _ _ _ Hss) s Hin) as ((Hs & Hk & Hc) & Hrest).
  split; [|done]. split; [done|]. split; [|done]. intros id p Hp.
  destruct (known_in_abs who ss s id Hss Hin ltac:(eauto)) as (e & q & Hid).
  rewrite (Hw e q id Hid). by apply Hk.
Qed.

Lemma server_ok_users st db : server_ok st → server_ok (set_users st db).
Proof. intros []. by split. Qed.

(** Dropping the session of a publisher *)
Definition dropped (st : Server) (a : SocketAddr) (id : PublisherId) (ss : list Store) : Server :=
  set_clinfos (set_shards (secctx_remove id st) ss) (delete a (clinfos st)).

Lemma secctx_remove_fields id st :
  let st' := secctx_remove id st in
  clinfos st' = clinfos st ∧ sv_shards st' = sv_shards st ∧ sv_next st' = sv_next st ∧
  sv_sec st' = sv_sec st ∧
  (sv_sec st = ScAnonymous ∧ st' = st ∨ sv_data st' = delete id (sv_data st)).
Proof. cbv zeta. unfold secctx_remove. destruct (sv_sec st) eqn:E; cbn; split_and!; auto. Qed.

Lemma drop_spec st a i uifo :
  server_ok st → clinfos st !! a = Some i →
  let p := ci_publisher i in
  ∃ ss, clear_store shuffle max uifo p (secctx_remove (pub_id p) st) =
      (Ok (), set_shards (secctx_remove (pub_id p) st) ss) ∧
    (∀ e q, abs ss e q = abs (sv_shards st) e q ∖ {[pub_id p]}) ∧
    server_ok (dropped st a (pub_id p) ss).
Proof.
  intros Hst Hi p. destruct (sv_who st Hst) as (who & Hid & Hwho & Hss).
  pose proof (secctx_remove_fields (pub_id p) st) as (Hc & Hs & Hn & Hsec & Hd).
  destruct (clear_store_spec shuffle max par ch Hshuffle Hmax who (secctx_remove (pub_id p) st) uifo p)
    as (ss & Hrun & Hss' & Ha); [by eapply Hwho|by rewrite Hs|].
  rewrite Hs in Ha. exists ss. split; [done|]. split; [done|].
  assert (Hown : ∀ id, id ≠ pub_id p → owned st id → owned (dropped st a (pub_id p) ss) id).
  { intros id Hne (b & j & Hj & He). exists b, j. split; [|done]. cbn.
    rewrite lookup_delete_ne; [done|]. intros <-. apply Hne. rewrite <- He. unfold p. congruence. }
  assert (Hsub : ∀ b j, clinfos (dropped st a (pub_id p) ss) !! b = Some j → clinfos st !! b = Some j).
  { intros b j. cbn. by intros [_ ?]%lookup_delete_Some. }
  split.
  - cbn. rewrite Hn. apply Hst.
  - intros b j Hj%Hsub. by apply (sv_addr st Hst).
  - intros b j Hj%Hsub. cbn. rewrite Hn. by eapply (sv_range st Hst).
  - intros b c j k Hj%Hsub Hk%Hsub. by apply (sv_uniq st Hst).
  - intros e q id. cbn [sv_shards dropped set_clinfos set_shards]. rewrite Ha. intros Hin.
    apply Hown; [set_solver|]. eapply (sv_owned st Hst e q). set_solver.
  - intros id. cbn [sv_data dropped set_clinfos set_shards].
    destruct Hd as [[Hanon ->]| ->].
    + rewrite (sv_anonymous st Hst Hanon). by intros [? ?].
    + intros [d [Hne Hin]%lookup_delete_Some]. apply Hown; [done|]. apply (sv_secret st Hst). eauto.
  - cbn. rewrite Hsec. intros Hanon. destruct Hd as [[_ ->]| ->];
      rewrite (sv_anonymous st Hst Hanon); [done|apply delete_empty].
  - exists who. split; [done|]. split; [|done]. intros b j Hj%Hsub. by eapply Hwho.
Qed.

(** [ClinfosInner::remove] by the publisher whose session it is *)
Lemma remove_spec st p i uifo :
  server_ok st → clinfos st !! pub_addr p = Some i → ci_publisher i = p →
  ∃ st', remove shuffle max p uifo st = (Ok (), st') ∧ server_ok st' ∧
    clinfos st' = delete (pub_addr p) (clinfos st) ∧ sv_next st' = sv_next st ∧
    sv_sec st' = sv_sec st ∧
    ∀ e q, abs (sv_shards st') e q = abs (sv_shards st) e q ∖ {[pub_id p]}.
Proof.
  intros Hst Hi <-. destruct (drop_spec st _ i uifo Hst Hi) as (ss & Hrun & Ha & Hok).
  pose proof (secctx_remove_fields (pub_id (ci_publisher i)) st) as (Hc & _ & Hn & Hsc & _).
  exists (dropped st (pub_addr (ci_publisher i)) (pub_id (ci_publisher i)) ss).
  split; [|split_and!; done].
  unfold remove, sbind, ask, modify. cbn [id]. rewrite Hi, Hrun. unfold dropped. cbn.
  by rewrite Hc.
Qed.

Lemma vacant_spec st cid hello target :
  server_ok st → sv_next st + 1 < 2 ^ 64 → clinfos st !! chw_write_addr hello = None →
  let addr := chw_write_addr hello in
  let p := MkPublisher (sv_id st) (MkId (sv_next st)) addr Sha3_512 target None (chw_priority hello) in
  server_ok (set_next (set_clinfos st (<[addr := MkClientInfo p cid]> (clinfos st)))
    (wrap 64 (sv_next st + 1))).
Proof.
  intros Hst Hn Hv addr p. pose proof (sv_pos st Hst) as Hpos.
  assert (Hw : wrap 64 (sv_next st + 1) = sv_next st + 1) by (apply wrap_small; unfold in_u; lia).
  set (st' := set_next _ _).
  assert (Hget : ∀ a i, clinfos st' !! a = Some i →
    (a = addr ∧ i = MkClientInfo p cid) ∨ (a ≠ addr ∧ clinfos st !! a = Some i)).
  { intros a i. cbn. rewrite lookup_insert. goal_decide Hd; [intros [= <-]; auto|auto]. }
  assert (Hown : ∀ id, owned st id → owned st' id).
  { intros id (b & j & Hj & He). exists b, j. split; [|done]. cbn.
    rewrite lookup_insert_ne; [done|]. intros <-. unfold addr in Hj. congruence. }
  split.
  - cbn. rewrite Hw. lia.
  - intros a i [[-> ->]|[_ Hi]]%Hget; [done|by apply (sv_addr st Hst)].
  - intros a i [[-> ->]|[_ Hi]]%Hget; cbn; rewrite Hw; [lia|].
    pose proof (sv_range st Hst a i Hi). lia.
  - intros a b i j [[-> ->]|[Ha Hi]]%Hget [[-> ->]|[Hb Hj]]%Hget; cbn; [done| | |].
    + intros He. pose proof (sv_range st Hst b j Hj) as Hr. rewrite <- He in Hr. cbn in Hr. lia.
    + intros He. pose proof (sv_range st Hst a i Hi) as Hr. rewrite He in Hr. cbn in Hr. lia.
    + by apply (sv_uniq st Hst).
  - intros e q id Hid. by eapply Hown, (sv_owned st Hst).
  - intros id Hid. by apply Hown, (sv_secret st Hst).
  - apply (sv_anonymous st Hst).
  - destruct (sv_who st Hst) as (who & Hid & Hwho & Hss).
    assert (Hnew : ∀ a i, clinfos st !! a = Some i → pub_id (ci_publisher i) ≠ MkId (sv_next st)).
    { intros a i Hi He. pose proof (sv_range st Hst a i Hi) as Hr. rewrite He in Hr. cbn in Hr. lia. }
    exists (fun id => if decide (id = MkId (sv_next st)) then p else who id). split; [|split].
    + intros id. by destruct (decide _) as [->|].
    + intros a i [[-> ->]|[_ Hi]]%Hget; cbn; [by rewrite decide_True|].
      rewrite decide_False by (by eapply Hnew). by eapply Hwho.
    + eapply shards_who; [exact Hss|]. intros e q id Hin.
      destruct (sv_owned st Hst e q id Hin) as (a & i & Hi & <-).
      by rewrite decide_False by (by eapply Hnew).
Qed.

(** [ClinfosInner::insert] *)
Definition insert_post (cid : Z) (hello : ClientHelloWrite) (st : Server)
    (r : res refusal (Publisher * bool)) (st' : Server) : Prop :=
  server_ok st' ∧ sv_next st ≤ sv_next st' ≤ sv_next st + 1 ∧ sv_sec st' = sv_sec st ∧
  (∀ a, a ≠ chw_write_addr hello → clinfos st' !! a = clinfos st !! a) ∧
  match r with
  | Ok (p, _) => clinfos st' !! chw_write_addr hello = Some (MkClientInfo p cid)
  | Err _ => clinfos st' !! chw_write_addr hello = clinfos st !! chw_write_addr hello ∨
      clinfos st' !! chw_write_addr hello = None
  | Panic => False
  end.

Lemma insert_vacant fuel cid uifo hello st :
  server_ok st → sv_next st + 1 < 2 ^ 64 → clinfos st !! chw_write_addr hello = None →
  let '(r, st') := insert_loop shuffle max (S fuel) cid uifo hello st in
  insert_post cid hello st r st'.
Proof.
  intros Hst Hn Hv. cbn [insert_loop]. unfold sbind, ask, need, refuse, sret, modify. cbn [id].
  rewrite Hv. pose proof (sv_pos st Hst).
  destruct (target_auth_try_from (chw_auth hello)) as [t|].
  - pose proof (vacant_spec st cid hello t Hst Hn Hv) as Hok. cbv zeta in Hok. cbn.
    split; [exact Hok|]. cbn.
    rewrite wrap_small by (unfold in_u; lia). split; [lia|]. split; [done|].
    split; [|by rewrite lookup_insert_eq]. intros a Ha. by rewrite lookup_insert_ne.
  - split; [done|]. split; [lia|]. split_and!; auto.
Qed.

Lemma reuse_spec cid hello st p c :
  server_ok st → clinfos st !! chw_write_addr hello = Some (MkClientInfo p c) →
  insert_post cid hello st (Ok (p, false))
    (set_clinfos st (<[chw_write_addr hello := MkClientInfo p cid]> (clinfos st))).
Proof.
  intros Hst E. split; [|split; [cbn; lia|]; split; [done|]; cbn; split; [|by rewrite lookup_insert_eq];
    intros a Ha; by rewrite lookup_insert_ne].
  assert (Hget : ∀ a i, <[chw_write_addr hello := MkClientInfo p cid]> (clinfos st) !! a = Some i →
    ∃ j, clinfos st !! a = Some j ∧ ci_publisher j = ci_publisher i).
  { intros a i. rewrite lookup_insert. goal_decide Hd; [intros [= <-]; subst; eauto|eauto]. }
  assert (Hown : ∀ id, owned st id → owned
    (set_clinfos st (<[chw_write_addr hello := MkClientInfo p cid]> (clinfos st))) id).
  { intros id (b & j & Hj & He). destruct (decide (b = chw_write_addr hello)) as [->|Hne].
    - exists (chw_write_addr hello), (MkClientInfo p cid). cbn. rewrite lookup_insert_eq.
      split; [done|]. rewrite E in Hj. by injection Hj as <-.
    - exists b, j. cbn. by rewrite lookup_insert_ne. }
  split; cbn.
  - apply Hst.
  - intros a i (j & Hj & <-)%Hget. by apply (sv_addr st Hst).
  - intros a i (j & Hj & <-)%Hget. by eapply (sv_range st Hst).
  - intros a b i i' (j & Hj & <-)%Hget (j' & Hj' & <-)%Hget. by apply (sv_uniq st Hst).
  - intros e q id Hid. by eapply Hown, (sv_owned st Hst).
  - intros id Hid. by apply Hown, (sv_secret st Hst).
  - apply (sv_anonymous st Hst).
  - destruct (sv_who st Hst) as (who & Hid & Hwho & Hss). exists who. split; [done|].
    split; [|done]. intros a i (j & Hj & <-)%Hget. by eapply Hwho.
Qed.

Lemma insert_spec cid uifo hello st :
  server_ok st → sv_next st + 1 < 2 ^ 64 →
  let '(r, st') := insert_client shuffle max cid uifo hello st in insert_post cid hello st r st'.
Proof.
  intros Hst Hn. destruct (clinfos st !! chw_write_addr hello) as [[p c]|] eqn:E;
    [|by apply insert_vacant].
  pose proof (reuse_spec cid hello st p c Hst E) as Hsame.
  assert (Hrefuse : ∀ r, insert_post cid hello st (Err r) st)
    by (intros r; split; [done|]; split; [lia|auto]).
  destruct (drop_spec st _ _ uifo Hst E) as (ss & Hrun & _ & Hok). cbn [ci_publisher] in Hrun, Hok.
  pose proof (secctx_remove_fields (pub_id p) st) as (Hc & _ & Hnx & Hsec & _).
  unfold insert_client. remember 1%nat as k eqn:Hk.
  set (loop1 := insert_loop shuffle max k cid uifo hello).
  assert (Hkill : let '(r, st') := loop1 (dropped st (chw_write_addr hello) (pub_id p) ss) in
    insert_post cid hello st r st').
  { pose proof (insert_vacant O cid uifo hello (dropped st (chw_write_addr hello) (pub_id p) ss) Hok) as Hv.
    rewrite <- Hk in Hv. fold loop1 in Hv. destruct (loop1 _) as [r st'].
    destruct Hv as (Hok' & Hnx' & Hsec' & Hother & Hr); [cbn; by rewrite Hnx|cbn; apply lookup_delete_eq|].
    cbn in Hnx', Hsec', Hother, Hr. rewrite Hnx in Hnx'. split; [done|]. split; [done|].
    split; [congruence|]. split; [intros a Ha; rewrite Hother by done; by rewrite lookup_delete_ne|].
    destruct r as [[p' b]|e|]; try done. right. destruct Hr as [->|?]; [|done].
    apply lookup_delete_eq. }
  assert (Heq : dropped st (chw_write_addr hello) (pub_id p) ss =
    set_clinfos (set_shards (secctx_remove (pub_id p) st) ss)
      (delete (chw_write_addr hello) (clinfos (secctx_remove (pub_id p) st))))
    by (unfold dropped; by rewrite Hc).
  rewrite Heq in Hkill. cbn [insert_loop]. fold loop1.
  unfold sbind at 1, ask. cbn [id]. rewrite E. unfold sbind, sret, modify.
  destruct (chw_auth hello); try (rewrite Hrun; exact Hkill);
    [destruct (is_anonymous _)|]; try exact (Hrefuse _);
    destruct (bool_decide _); try exact Hsame; try exact (Hrefuse _); rewrite Hrun; exact Hkill.
Qed.

(** ** Handshakes *)

(** What a step ensures from the states that satisfy [P] *)
Definition triple {A} (P : Server → Prop) (m : srv A) (Q : res refusal A → Server → Prop) : Prop :=
  ∀ st, P st → Q (m st).1 (m st).2.

Lemma triple_bind {A B} P (m : srv A) (k : A → srv B) Q (R : A → Server → Prop) :
  triple P m (fun r st => match r with
    | Ok a => R a st | Err e => Q (Err e) st | Panic => Q Panic st end) →
  (∀ a, triple (R a) (k a) Q) → triple P (sbind m k) Q.
Proof.
  intros Hm Hk st Hst. specialize (Hm st Hst). unfold sbind.
  destruct (m st) as [[a|e|] st']; cbn in Hm; [by apply Hk|done|done].
Qed.

(** A handshake of [cid] at an address: another's session is untouched, and the
    address is [cid]'s, or as it was, or free. *)
Definition shake_post {A} (cid : Z) (addr : SocketAddr) (pub : A → Publisher) (st : Server)
    (r : res refusal A) (st' : Server) : Prop :=
  server_ok st' ∧ sv_next st ≤ sv_next st' ≤ sv_next st + 1 ∧ sv_sec st' = sv_sec st ∧
  (∀ a, a ≠ addr → clinfos st' !! a = clinfos st !! a) ∧
  match r with
  | Ok x => clinfos st' !! addr = Some (MkClientInfo (pub x) cid)
  | _ => clinfos st' !! addr = clinfos st !! addr ∨ clinfos st' !! addr = None
  end.
(** Only the user database has changed. *)
Definition quiet (st0 st : Server) : Prop := ∃ db, st = set_users st0 db.

Context (cid : Z) (pe : Peer) (hello : ClientHelloWrite) (st0 : Server).
Context (Hst0 : server_ok st0) (Hnext : sv_next st0 + 1 < 2 ^ 64).
Abbreviation addr := (chw_write_addr hello).
Abbreviation post := (shake_post cid addr (fun x : AuthUser * Publisher * bool => x.1.2) st0).

Lemma quiet_post st r : quiet st0 st → (∀ a, r ≠ Ok a) → post r st.
Proof.
  intros [db ->] Hr. split; [by apply server_ok_users|]. split; [cbn; lia|]. split; [done|].
  split; [done|]. destruct r; [by destruct (Hr a)|by left|by left].
Qed.
Lemma quiet_require b r (k : unit → srv (AuthUser * Publisher * bool)) :
  triple (quiet st0) (k ()) post → triple (quiet st0) (sbind (require b r) k) post.
Proof.
  intros Hk st Hst. unfold sbind, require. destruct b; cbn; [by apply Hk|].
  by apply quiet_post.
Qed.
Lemma quiet_need {A} (o : option A) r (k : A → srv (AuthUser * Publisher * bool)) :
  (∀ a, triple (quiet st0) (k a) post) → triple (quiet st0) (sbind (need o r) k) post.
Proof.
  intros Hk st Hst. unfold sbind, need. destruct o; cbn; [by apply Hk|]. by apply quiet_post.
Qed.
Lemma quiet_ask {A} (f : Server → A) (k : A → srv (AuthUser * Publisher * bool)) :
  (∀ a, triple (quiet st0) (k a) post) → triple (quiet st0) (sbind (ask f) k) post.
Proof. intros Hk st Hst. by apply Hk. Qed.
Lemma quiet_ifo user (k : AuthUser → srv (AuthUser * Publisher * bool)) :
  (∀ a, triple (quiet st0) (k a) post) → triple (quiet st0) (sbind (users_ifo pe user) k) post.
Proof.
  intros Hk st Hst. unfold sbind, users_ifo.
  assert (Hq : ∀ db, quiet st0 (set_users st db)) by (intros db; destruct Hst as [d ->]; by exists db).
  destruct (ifo _ _ _ _ _ _ _) as [[u|e|] db]; cbn; [by apply Hk|by apply quiet_post..].
Qed.
Lemma quiet_check (k : u128 → srv (AuthUser * Publisher * bool)) :
  (∀ a, triple (quiet st0) (k a) post) → triple (quiet st0) (sbind (ownership_check pe) k) post.
Proof.
  intros Hk st Hst. unfold ownership_check, sbind, require, need, sret, refuse.
  repeat match goal with
  | |- context [if ?b then _ else _] => destruct b; cbn; [|by apply quiet_post]
  | |- context [match ?o with Some _ => _ | None => _ end] =>
      destruct o; cbn; [|by apply quiet_post]
  end. by apply Hk.
Qed.
Lemma quiet_session (k : SecData → srv (AuthUser * Publisher * bool)) :
  (∀ a, triple (quiet st0) (k a) post) → triple (quiet st0) (sbind (session addr) k) post.
Proof.
  intros Hk st Hst. unfold session, sbind, need, ask, sret, refuse.
  destruct (client_id st addr) as [i|]; cbn; [|by apply quiet_post].
  destruct (sv_data st !! i); cbn; [|by apply quiet_post]. by apply Hk.
Qed.

Lemma quiet_challenge secret (k : unit → srv (AuthUser * Publisher * bool)) :
  triple (quiet st0) (k ()) post → triple (quiet st0) (sbind (challenge_auth pe secret) k) post.
Proof.
  intros Hk st Hst. unfold challenge_auth, sbind, need, require, sret, refuse.
  destruct (pe_answer pe); cbn; [|by apply quiet_post].
  destruct (bool_decide _); cbn; [by apply Hk|by apply quiet_post].
Qed.

Lemma insert_then uifo (k : Publisher * bool → srv (AuthUser * Publisher * bool)) :
  (∀ x, triple (shake_post cid addr fst st0 (Ok x)) (k x) post) →
  triple (quiet st0) (sbind (insert_client shuffle max cid uifo hello) k) post.
Proof.
  intros Hk st [db ->]. unfold sbind.
  pose proof (insert_spec cid uifo hello (set_users st0 db) (server_ok_users _ _ Hst0) Hnext) as Hi.
  destruct (insert_client shuffle max cid uifo hello (set_users st0 db)) as [[[p b]|e|] st'];
    destruct Hi as (Hok & Hn & Hsc & Ho & Hr); [|exact (conj Hok (conj Hn (conj Hsc (conj Ho Hr))))|done].
  apply Hk. exact (conj Hok (conj Hn (conj Hsc (conj Ho Hr)))).
Qed.
Lemma end_with uifo p b :
  triple (shake_post cid addr fst st0 (Ok (p, b)))
    (sbind (say_hello shuffle max pe p uifo) (fun _ => sret (uifo, p, b))) post.
Proof.
  intros st (Hok & Hn & Hsc & Ho & Hr). cbn in Hr. unfold say_hello, sbind. destruct (pe_sent pe); [done|].
  pose proof (sv_addr st Hok _ _ Hr) as Ha. cbn in Ha.
  destruct (remove_spec st p (MkClientInfo p cid) uifo Hok) as (st' & -> & Hok' & Hc & Hn' & Hsc' & _);
    [by rewrite Ha|done|]. cbn. split; [done|]. rewrite Hc, Hn', Ha. split; [done|].
    split; [by rewrite Hsc'|].
  split; [intros a Hne; rewrite lookup_delete_ne by done; by apply Ho|].
  right. apply lookup_delete_eq.
Qed.
Lemma keep_secret uifo p (b : bool) d :
  sv_sec st0 ≠ ScAnonymous →
  triple (shake_post cid addr fst st0 (Ok (p, b)))
    (sbind (modify (secctx_insert (pub_id p) d)) (fun _ => sret (uifo, p, true))) post.
Proof.
  intros Hsec st (Hok & Hn & Hs & Ho & Hr). cbn in Hr |- *.
  split; [|exact (conj Hn (conj Hs (conj Ho Hr)))].
  destruct Hok as [H1 H2 H3 H4 H5 H6 H7 H8]. split; cbn; try done.
  - intros id. rewrite lookup_insert. goal_decide Hd.
    + intros _. subst id. by exists addr, (MkClientInfo p cid).
    + rewrite lookup_delete. goal_decide Hd2; [by intros [? ?]|apply H6].
  - congruence.
Qed.

Ltac shake :=
  repeat first
    [ apply quiet_require | apply quiet_need; intros ? | apply quiet_ifo; intros ?
    | apply quiet_check; intros ? | apply quiet_challenge | apply quiet_session; intros ? | apply quiet_ask; intros ?
    | apply insert_then; intros [? ?] | apply end_with
    | apply keep_secret ].

(** [hello_client_write] *)
Lemma hello_spec :
  triple (fun st => st = st0) (hello_client_write shuffle max cid pe hello) post.
Proof.
  intros st ->. assert (Hq : quiet st0 st0) by (exists (sv_users st0); by destruct st0).
  unfold hello_client_write. unfold sbind at 1, ask. cbn [id].
  match goal with |- _ (?m st0).1 _ => enough (H : triple (quiet st0) m post) by exact (H st0 Hq) end.
  apply quiet_require.
  assert (Hno : triple (quiet st0) (refuse Unsupported) post) by (intros st Hst; by apply quiet_post).
  destruct (chw_auth hello), (sv_sec st0) eqn:Hsec; try exact Hno;
    unfold write_client_anonymous_auth, write_client_local_auth, write_client_krb5_auth,
      write_client_tls_auth, write_client_reuse_local, write_client_reuse_krb5,
      write_client_reuse_tls, take_up; shake; congruence.
Qed.
End Tables.

(** ** Connections *)

Section Worlds.
Context {ES : Escaping} {ESO : EscapingOk ES} {LV : Live} {SH : Sha3}.
Context {HO : HashOrder} {HOK : HashOrderOk HO} {PH : PathHash}.
Context (sort : list (Z * FromWrite) → list (Z * FromWrite)) (shuffle : list str → list str).
Context (max : nat) (par : option Referral) (ch : gmap str Referral).
Context (Hsort : ∀ l, sort l ≡ₚ l ∧ StronglySorted (fun x y : Z * FromWrite => x.1 ≤ y.1) (sort l)).
Context (Hshuffle : ∀ l, shuffle l ≡ₚ l) (Hmax : (0 < max)%nat).
Abbreviation okay := (server_ok par ch).
Abbreviation serve := (serve sort shuffle max).

Record world_ok (w : World) : Prop := {
  wo_server : okay (w_server w);
  wo_conn cid c i : w_conns w !! cid = Some c →
    clinfos (w_server w) !! pub_addr (cn_publisher c) = Some i → ci_stop i = cid →
    ci_publisher i = cn_publisher c;
  wo_cid cid : is_Some (w_conns w !! cid) → cid < w_cid w;
  wo_stop a i : clinfos (w_server w) !! a = Some i → ci_stop i < w_cid w
}.

Definition event_ok (ev : event) : Prop :=
  match ev with EvBatch _ batch => batch_sound max batch | _ => True end.

Lemma batch_okay st uifo p i batch :
  okay st → clinfos st !! pub_addr p = Some i → ci_publisher i = p → batch_sound max batch →
  ∃ ss, client_batch sort shuffle max uifo p batch st =
      (Ok (expected par ch (write_env st uifo p) batch), set_shards st ss) ∧
    okay (set_shards st ss) ∧
    ∀ e q, abs ss e q =
      foldl (effect par ch (write_env st uifo p) e q) (abs (sv_shards st) e q) (counted batch).
Proof.
  intros Hst Hi <- Hb. destruct (sv_who par ch st Hst) as (who & Hid & Hwho & Hss).
  destruct (client_batch_spec sort shuffle max par ch Hsort Hshuffle Hmax who st uifo (ci_publisher i) batch)
    as (ss & Hrun & Hss' & Ha); [by eapply Hwho|done|done|].
  exists ss. split; [done|]. split; [|done].
  destruct Hst as [H1 H2 H3 H4 H5 H6 H7 H8]. split; try done; [|by exists who].
  intros e q id Hin. cbn in Hin. destruct (decide (id = pub_id (ci_publisher i))) as [->|Hne].
  { by exists (pub_addr (ci_publisher i)), i. }
  apply (H5 e q). rewrite Ha in Hin.
  pose proof (fold_own who par ch (write_env st uifo (ci_publisher i)) ltac:(by eapply Hwho) e q
    (counted batch) (abs (sv_shards st) e q)) as Hown. cbn [we_publisher write_env] in Hown.
  assert (Hx : id ∈ abs (sv_shards st) e q ∖ {[pub_id (ci_publisher i)]})
    by (rewrite <- Hown; apply elem_of_difference; split; [done|by rewrite elem_of_singleton]).
  by apply elem_of_difference in Hx as [? _].
Qed.

Lemma turn_spec w cid f (P : World → Prop) :
  world_ok w → P w → (∀ st, st = w_server w → P (drop w cid st)) →
  (∀ c, w_conns w !! cid = Some c →
     clinfos (w_server w) !! pub_addr (cn_publisher c) = Some (MkClientInfo (cn_publisher c) cid) →
     P (f c)) → P (turn w cid f).
Proof.
  intros Hw HP Hd Hf. unfold turn. destruct (w_conns w !! cid) as [c|] eqn:E; [|done].
  destruct (stopped (w_server w) cid c) eqn:Es; [by apply Hd|]. apply Hf; [done|].
  unfold stopped in Es. destruct (clinfos (w_server w) !! pub_addr (cn_publisher c)) as [[p s]|] eqn:Ei; [|done].
  apply negb_false_iff, Z.eqb_eq in Es. cbn in Es. subst s.
  pose proof (wo_conn w Hw cid c _ E Ei eq_refl) as Hp. cbn in Hp. by rewrite Hp.
Qed.

Lemma drop_ok w cid : world_ok w → world_ok (drop w cid (w_server w)).
Proof.
  intros []. split; cbn; try done.
  - intros d c i [_ Hc]%lookup_delete_Some. eauto.
  - intros d [c [_ Hc]%lookup_delete_Some]. eauto.
Qed.
Lemma keep_ok w cid c c' st :
  world_ok w → okay st → clinfos st = clinfos (w_server w) →
  w_conns w !! cid = Some c → cn_publisher c' = cn_publisher c → world_ok (keep w cid c' st).
Proof.
  intros [H1 H2 H3 H4] Hst Hcl Hc Hp. split; cbn; try done; rewrite ?Hcl.
  - intros d c2 i. rewrite lookup_insert. goal_decide Hd; [|apply H2].
    intros [= <-]. subst d. rewrite Hp. by apply H2.
  - intros d. rewrite lookup_insert. goal_decide Hd; [|apply H3]. intros _. subst d. eauto.
  - done.
Qed.

Lemma serve_ok w ev :
  world_ok w → event_ok ev → sv_next (w_server w) + 1 < 2 ^ 64 →
  world_ok (serve w ev) ∧
  sv_next (w_server w) ≤ sv_next (w_server (serve w ev)) ≤ sv_next (w_server w) + 1.
Proof.
  intros Hw Hev Hn.
  assert (Hstay : ∀ w', world_ok w' → sv_next (w_server w') = sv_next (w_server w) → world_ok w' ∧
    sv_next (w_server w) ≤ sv_next (w_server w') ≤ sv_next (w_server w) + 1) by (intros; split; [done|lia]).
  destruct ev as [pe hello|cid batch|cid|cid]; cbn [Server.serve].
  - pose proof (hello_spec shuffle max par ch Hshuffle Hmax (w_cid w) pe hello
      (w_server w) (wo_server w Hw) Hn (w_server w) eq_refl) as H.
    destruct (hello_client_write shuffle max (w_cid w) pe hello (w_server w)) as [r st].
    destruct H as (Hok & Hnx & _ & Ho & Hr). cbn [fst snd] in Hok, Hnx, Ho, Hr. destruct Hw as [H1 H2 H3 H4].
    assert (Hstop : ∀ a i, clinfos st !! a = Some i →
      (a = chw_write_addr hello ∧ ci_stop i = w_cid w) ∨ clinfos (w_server w) !! a = Some i).
    { intros a i Hi. destruct (decide (a = chw_write_addr hello)) as [->|Hne].
      - destruct r as [[[u p] b]|e|]; [rewrite Hr in Hi; injection Hi as <-; auto|..];
          destruct Hr as [Hr|Hr]; rewrite Hr in Hi; auto; done.
      - rewrite Ho in Hi; auto. }
    assert (Hconn : ∀ cid c i, w_conns w !! cid = Some c →
      clinfos st !! pub_addr (cn_publisher c) = Some i → ci_stop i = cid →
      ci_publisher i = cn_publisher c).
    { intros cid c i Hc [[_ Hs]|Hi]%Hstop He; [|by eapply H2].
      pose proof (H3 cid ltac:(eauto)). lia. }
    assert (Hcid : ∀ a i, clinfos st !! a = Some i → ci_stop i < w_cid w + 1).
    { intros a i [[_ ->]|Hi%H4]%Hstop; lia. }
    destruct r as [[[u p] b]|e|].
    + split; [|done]. split; [done| | |done].
      * intros cid c i. cbn. rewrite lookup_insert. goal_decide Hd; [|apply Hconn].
        intros [= <-] Hi _. cbn in Hi.
        pose proof (sv_addr _ _ st Hok _ _ Hr) as Ha. cbn in Ha. rewrite Ha, Hr in Hi.
        by injection Hi as <-.
      * intros cid. cbn. rewrite lookup_insert. goal_decide Hd; [intros _; lia|].
        intros ?%H3. lia.
    + split; [|done]. split; [done|done| |done]. intros cid ?%H3. cbn. lia.
    + split; [|done]. split; [done|done| |done]. intros cid ?%H3. cbn. lia.
  - apply turn_spec; [done|by apply Hstay|intros st ->; apply Hstay; [by apply drop_ok|done]|].
    intros c Hc Hi. destruct (cn_con c); [|by apply Hstay].
    destruct (batch_okay (w_server w) (cn_uifo c) (cn_publisher c) _ batch (wo_server w Hw) Hi eq_refl Hev)
      as (ss & -> & Hok & _). apply Hstay; [|done]. by eapply keep_ok.
  - apply turn_spec; [done|by apply Hstay|intros st ->; apply Hstay; [by apply drop_ok|done]|].
    intros c Hc Hi. apply Hstay; [|done]. eapply keep_ok; [done|apply Hw|done|done|done].
  - apply turn_spec; [done|by apply Hstay|intros st ->; apply Hstay; [by apply drop_ok|done]|].
    intros c Hc Hi. destruct (cn_act c).
    + apply Hstay; [|done]. eapply keep_ok; [done|apply Hw|done|done|done].
    + destruct (remove_spec shuffle max par ch Hshuffle Hmax (w_server w) (cn_publisher c) _
        (cn_uifo c) (wo_server w Hw) Hi eq_refl) as (st' & -> & Hok & Hcl & Hnx & _).
      apply Hstay; [|done]. destruct Hw as [H1 H2 H3 H4]. split; cbn; [done|..]; rewrite ?Hcl.
      * intros d c2 i [_ Hc2]%lookup_delete_Some [_ Hi2]%lookup_delete_Some. eauto.
      * intros d [c2 [_ Hc2]%lookup_delete_Some]. eauto.
      * intros a i [_ Hi2]%lookup_delete_Some. eauto.
Qed.

Lemma run_serve w evs :
  world_ok w → Forall event_ok evs → sv_next (w_server w) + zlen evs < 2 ^ 64 →
  world_ok (foldl serve w evs).
Proof.
  intros Hw Hev. revert w Hw; induction Hev as [|ev evs He _ IH]; intros w Hw Hn; [done|].
  rewrite zlen_cons in Hn. pose proof (zlen_nonneg evs). cbn [foldl].
  destruct (serve_ok w ev Hw He) as [Hw' Hn']; [lia|]. apply IH; [done|lia].
Qed.

(** The server as it starts *)
Definition world_new (k : nat) sec id pm db : World :=
  MkWorld (MkServer sec id pm db ∅ ∅ 0 (shards_new k par ch)) ∅ 0.
Lemma world_new_ok k sec id pm db :
  (∀ p, is_Some (ch !! p) → good p) → world_ok (world_new k sec id pm db).
Proof.
  intros Hch. set (who := fun i => MkPublisher id i id Sha3_512 TA_Anonymous None Normal).
  destruct (shards_new_ok who par ch k Hch) as [Hs Ha].
  split; cbn; try done; [|by intros ? [? ?]]. split; cbn; try done.
  - intros e q pid. by rewrite Ha.
  - intros pid [? ?]. done.
  - exists who. by split_and!.
Qed.
End Worlds.
