(* ===== verification/ServerClaims.v ===== *)
(** What the resolver server promises: write batches have the effect and the
    replies of the abstract relation, read batches are answered in order, sessions
    own what is published and cannot be taken over without a proof, and where the
    code falls short of this. *)
From Stdlib Require Import ZArith Lia.
From stdpp Require Import base gmap list strings sorting.
From Stdlib Require Import Strings.Byte.
From S2P Require Import Prelude Varint Pack Containers PackTypes Path PathFacts Order Glob Derive Proto Store StoreFacts StoreRead StoreClaims Permissions Shard ShardWrite ShardRead Server ServerFacts.

(** ** Steps that succeed *)

Lemma sbind_ok {A B} (m : srv A) (k : A → srv B) st b st' :
  sbind m k st = (Ok b, st') → ∃ a st1, m st = (Ok a, st1) ∧ k a st1 = (Ok b, st').
Proof. unfold sbind. destruct (m st) as [[a|e|] st1]; try done. eauto. Qed.
Lemma need_ok {A} (o : option A) r st a st' : need o r st = (Ok a, st') → o = Some a ∧ st' = st.
Proof. destruct o; [by intros [= -> ->]|done]. Qed.
Lemma require_ok b r st u st' : require b r st = (Ok u, st') → b = true ∧ st' = st.
Proof. destruct b; [by intros [= <- ->]|done]. Qed.

(** Takes a run of steps that succeeded apart. *)
Ltac steps :=
  repeat match goal with
  | H : sbind _ _ _ = (Ok _, _) |- _ => apply sbind_ok in H as (? & ? & ? & ?)
  | H : need _ _ _ = (Ok _, _) |- _ => apply need_ok in H as (? & ->)
  | H : require _ _ _ = (Ok _, _) |- _ => apply require_ok in H as (? & ->)
  | H : ask _ _ = (Ok _, _) |- _ => injection H as <- <-
  | H : sret _ _ = (Ok _, _) |- _ => injection H as <- <-
  | H : refuse _ _ = (Ok _, _) |- _ => discriminate H
  | x : _ * _ |- _ => destruct x
  end.

Section Sessions.
Context {ES : Escaping} {LV : Live} {SH : Sha3} {HO : HashOrder} {PH : PathHash}.
Context (shuffle : list str → list str) (max : nat).

Lemma users_ifo_quiet pe user st u st' :
  users_ifo pe user st = (Ok u, st') → ∃ db, st' = set_users st db.
Proof. unfold users_ifo. destruct (ifo _ _ _ _ _ _ _) as [[]]; try done. intros [= _ <-]. eauto. Qed.
Lemma ownership_proved pe st s st' :
  ownership_check pe st = (Ok s, st') →
  st' = st ∧ s = pe_secret pe ∧ pe_ready pe = true ∧ pe_version pe = Some 3 ∧
  pe_answer pe = Some (proof_of (pe_nonce pe) (pe_secret pe)).
Proof.
  unfold ownership_check. intros H. steps. split; [done|]. split; [done|]. split; [done|].
  repeat match goal with
  | H : (_ =? _) = true |- _ => apply Z.eqb_eq in H as ->
  | H : bool_decide _ = true |- _ => apply bool_decide_eq_true in H as ->
  end. done.
Qed.
Lemma challenge_proved pe secret st u st' :
  challenge_auth pe secret st = (Ok u, st') →
  st' = st ∧ pe_answer pe = Some (proof_of (pe_nonce pe) secret).
Proof.
  unfold challenge_auth. intros H. steps. split; [done|].
  match goal with H : bool_decide _ = true |- _ => apply bool_decide_eq_true in H as -> end. done.
Qed.

(** An authenticated session is not given to an anonymous client, and taking it
    up keeps the publisher. *)
Lemma insert_anonymous fuel cid uifo hello st i r st' :
  clinfos st !! chw_write_addr hello = Some i →
  is_anonymous (pub_target_auth (ci_publisher i)) = false → chw_auth hello = AW_Anonymous →
  insert_loop shuffle max (S fuel) cid uifo hello st = (Ok r, st') → False.
Proof.
  intros Hi Hanon Hauth. cbn [insert_loop]. unfold sbind at 1, ask. cbn [id]. rewrite Hi.
  destruct i as [p c]. cbn in Hanon. by rewrite Hauth, Hanon.
Qed.
Lemma insert_reuse fuel cid uifo hello st i p b st' :
  clinfos st !! chw_write_addr hello = Some i → chw_auth hello = AW_Reuse →
  insert_loop shuffle max (S fuel) cid uifo hello st = (Ok (p, b), st') →
  p = ci_publisher i ∧ b = false ∧ pub_priority p = chw_priority hello.
Proof.
  intros Hi Hauth. cbn [insert_loop]. unfold sbind at 1, ask. cbn [id]. rewrite Hi.
  destruct i as [q c]. rewrite Hauth. destruct (bool_decide _) eqn:E; [|done].
  apply bool_decide_eq_true in E. unfold sbind, modify, sret. by intros [= -> -> _].
Qed.
End Sessions.

(** ** What a batch can change *)

Section Changes.
Context (par : option Referral) (ch : gmap str Referral) (env : WriteEnv).
Context {ES : Escaping}.
Abbreviation own := (pub_id (we_publisher env)).

Definition granted (e : bool) (q : str) (m : ToWrite) : Prop :=
  (∃ fl, request_of m = AskPublish q e fl) ∧ referral_of par ch q = None ∧
  may_publish env e q = Ok true.

Lemma effect_new e q X m id :
  id ∈ effect par ch env e q X m → id ∉ X → id = own ∧ granted e q m.
Proof.
  unfold effect, due, granted. destruct (request_of m) as [p d fl|p d| |] eqn:Er; cbn [snd]; try done.
  - destruct (is_absolute p); cbn [negb snd]; [|done].
    destruct (referral_of par ch p) eqn:Ef; cbn [snd]; [done|].
    destruct (may_publish env d p) as [[]| |] eqn:Em; cbn [snd spec_step]; try done.
    destruct (decide _) as [[-> ->]|]; [|done]. intros [Hx%elem_of_singleton|]%elem_of_union; [|done].
    intros _. split; [done|]. split_and!; eauto.
  - destruct (is_absolute p); cbn [negb snd]; [|done].
    destruct (referral_of par ch p); cbn [snd spec_step]; [done|].
    destruct (decide _); [|done]. by intros [? _]%elem_of_difference.
  - cbn [spec_step]. by intros [? _]%elem_of_difference.
Qed.
Lemma effect_old e q X m id : id ∈ X → id ∉ effect par ch env e q X m → id = own.
Proof.
  intros Hx. unfold effect, due. destruct (request_of m) as [p d fl|p d| |]; cbn [snd]; try done.
  - destruct (is_absolute p); cbn [negb snd]; [|done].
    destruct (referral_of par ch p); cbn [snd]; [done|].
    destruct (may_publish env d p) as [[]| |]; cbn [snd spec_step]; try done.
    destruct (decide _); [|done]. intros Hn. destruct Hn. apply elem_of_union. by right.
  - destruct (is_absolute p); cbn [negb snd]; [|done].
    destruct (referral_of par ch p); cbn [snd spec_step]; [done|].
    destruct (decide _); [|done]. rewrite elem_of_difference, elem_of_singleton.
    destruct (decide (id = own)); tauto.
  - cbn [spec_step]. rewrite elem_of_difference, elem_of_singleton.
    destruct (decide (id = own)); tauto.
Qed.

Lemma fold_new e q ms X id :
  id ∈ foldl (effect par ch env e q) X ms → id ∉ X → id = own ∧ ∃ m, m ∈ ms ∧ granted e q m.
Proof.
  revert X; induction ms as [|m ms IH]; intros X Hin Hx; [done|]. cbn [foldl] in Hin.
  destruct (decide (id ∈ effect par ch env e q X m)) as [He|He].
  - destruct (effect_new e q X m id He Hx) as [-> Hg]. split; [done|]. exists m. split; [by left|done].
  - destruct (IH _ Hin He) as (-> & m' & Hm' & Hg). split; [done|]. exists m'. split; [by right|done].
Qed.
Lemma fold_old e q ms X id : id ∈ X → id ∉ foldl (effect par ch env e q) X ms → id = own.
Proof.
  revert X; induction ms as [|m ms IH]; intros X Hx Hn; [done|]. cbn [foldl] in Hn.
  destruct (decide (id ∈ effect par ch env e q X m)) as [He|He]; [by apply (IH _ He)|].
  by eapply effect_old.
Qed.
End Changes.

(** ** The contract *)

Section Theorems.
Context {ES : Escaping} {ESO : EscapingOk ES} {LV : Live} {SH : Sha3}.
Context {HO : HashOrder} {HOK : HashOrderOk HO} {PH : PathHash}.
Context (par : option Referral) (ch : gmap str Referral).

Abbreviation sorts := (fun sort : list (Z * FromWrite) → list (Z * FromWrite) =>
  ∀ l, sort l ≡ₚ l ∧ StronglySorted (fun x y : Z * FromWrite => x.1 ≤ y.1) (sort l)).
Abbreviation shuffles := (fun shuffle : list str → list str => ∀ l, shuffle l ≡ₚ l).



(** C9: A session that was authenticated is not taken over without a proof. When
    a client is let in at an address that holds an authenticated publisher, then
    either it takes the session up, as the same publisher and priority, having
    answered a challenge with the secret stored for that publisher; or it
    authenticated anew and the listener at the address knew the fresh secret. *)
Theorem takeover_needs_proof shuffle max cid pe hello st i u p b st' :
  hello_client_write shuffle max cid pe hello st = (Ok (u, p, b), st') →
  clinfos st !! chw_write_addr hello = Some i →
  is_anonymous (pub_target_auth (ci_publisher i)) = false →
  check_addr (chw_write_addr hello) [sv_id st] = true ∧
  ((chw_auth hello = AW_Reuse ∧ p = ci_publisher i ∧ pub_priority p = chw_priority hello ∧ b = false ∧
    ∃ d, sv_data st !! pub_id p = Some d ∧
      pe_answer pe = Some (proof_of (pe_nonce pe) (sd_secret d))) ∨
   (chw_auth hello ≠ AW_Reuse ∧ chw_auth hello ≠ AW_Anonymous ∧ is_Some (pe_user pe) ∧
    pe_ready pe = true ∧ pe_version pe = Some 3 ∧
    pe_answer pe = Some (proof_of (pe_nonce pe) (pe_secret pe)))).
Proof.
  intros H Hi Hanon. unfold hello_client_write in H. steps. split; [done|].
  assert (Hanew : ∀ a s1 s2, ownership_check pe s1 = (Ok a, s2) → is_Some (pe_user pe) →
    chw_auth hello ≠ AW_Reuse → chw_auth hello ≠ AW_Anonymous →
    chw_auth hello ≠ AW_Reuse ∧ chw_auth hello ≠ AW_Anonymous ∧ is_Some (pe_user pe) ∧
    pe_ready pe = true ∧ pe_version pe = Some 3 ∧
    pe_answer pe = Some (proof_of (pe_nonce pe) (pe_secret pe))).
  { intros a s1 s2 (_ & _ & Hr & Hv & Ha)%ownership_proved Hu ? ?. by split_and!. }
  assert (Hup : ∀ d uifo s1 db, chw_auth hello = AW_Reuse → s1 = set_users st db →
    sv_data st !! pub_id (ci_publisher i) = Some d →
    take_up shuffle max cid pe uifo hello (sd_secret d) s1 = (Ok (u, p, b), st') →
    p = ci_publisher i ∧ pub_priority p = chw_priority hello ∧ b = false ∧
    ∃ d, sv_data st !! pub_id p = Some d ∧
      pe_answer pe = Some (proof_of (pe_nonce pe) (sd_secret d))).
  { intros d uifo s1 db Hauth -> Hd Ht. unfold take_up in Ht. steps.
    match goal with H : challenge_auth _ _ _ = _ |- _ => apply challenge_proved in H as [-> ?] end.
    match goal with H : insert_client _ _ _ _ _ _ = _ |- _ =>
      apply (insert_reuse shuffle max 1 _ _ _ _ i) in H as (-> & -> & ?); [|done|done] end.
    split_and!; eauto. }
  assert (Hses : ∀ s2 d, session (chw_write_addr hello) st = (Ok d, s2) →
    s2 = st ∧ sv_data st !! pub_id (ci_publisher i) = Some d).
  { intros s2 d Hs. unfold session in Hs. steps. split; [done|].
    unfold client_id in *. rewrite Hi in *. by simplify_option_eq. }
  destruct (chw_auth hello) eqn:Hauth, (sv_sec st);
    try (match goal with H : refuse _ _ = _ |- _ => discriminate H end);
    unfold write_client_anonymous_auth, write_client_local_auth, write_client_krb5_auth,
      write_client_tls_auth, write_client_reuse_local, write_client_reuse_krb5,
      write_client_reuse_tls in *; steps.
  all: try (match goal with H : insert_client _ _ _ _ _ _ = _ |- _ =>
    exfalso; eapply (insert_anonymous shuffle max 1); eassumption end).
  all: try (right; eapply Hanew; [eassumption|eauto|done|done]).
  all: left; split; [done|].
  all: match goal with H : session _ _ = _ |- _ => apply Hses in H as [-> Hd] end.
  all: match goal with H : users_ifo _ _ _ = _ |- _ => apply users_ifo_quiet in H as [db Hq] end.
  all: eapply Hup; eauto.
Qed.


(** C7: What is published can be resolved. After a publisher with a session
    publishes a path it may publish and this server is responsible for, a client
    that may subscribe to the path gets an answer that refers to the publisher,
    which has been described to it before. *)
Theorem publish_then_resolve {GS : Globset} sort shuffle max rmax st uifo p i path env perm :
  sorts sort → shuffles shuffle → (0 < max)%nat → 0 < rmax → server_ok par ch st →
  clinfos st !! pub_addr p = Some i → ci_publisher i = p →
  is_absolute path = true → good path → (∃ l, dirnames_list path = Ok l) →
  referral_of par ch path = None → may_publish (write_env st uifo p) false path = Ok true →
  rights env path perm → contains perm SUBSCRIBE = true →
  ∃ st' a d b, client_batch sort shuffle max uifo p [Publish path] st = (Ok [FW_Published], st') ∧
    handle_batch_read rmax env (sv_shards st') [TR_Resolve (GS := GS) path] =
      Ok (a ++ FR_Resolved d :: b) ∧ replies_of (a ++ FR_Resolved d :: b) = [FR_Resolved d] ∧
    ref_to env path perm (pub_id p) ∈ res_publishers d ∧
    ∃ q, FR_Publisher q ∈ a ∧ pub_id q = pub_id p.
Proof.
  intros Hsort Hsh Hmax Hrmax Hst Hi Hp Habs Hg Hdn Href Hmay Hr Hsub.
  assert (Hb : batch_sound max [Publish path]) by (split; [by repeat constructor|done]).
  destruct (batch_okay sort shuffle max par ch Hsort Hsh Hmax st uifo p i _ Hst Hi Hp Hb)
    as (ss & Hrun & Hok & Ha).
  assert (Hexp : expected par ch (write_env st uifo p) [Publish path] = [FW_Published]).
  { cbn. unfold reply, due. cbn. rewrite Habs, Href, Hmay. by destruct (decide _). }
  rewrite Hexp in Hrun. destruct (sv_who _ _ _ Hok) as (who & Hid & _ & Hss).
  destruct (read_loop_spec (GS := GS) who par ch env Hid ss Hss 3 rmax [TR_Resolve path])
    as (out & Hout & Hans & Hint); [done|cbn; lia|repeat constructor; cbn; eauto|].
  apply Forall2_cons_inv_l in Hans as (r & rs & Hrr & Hnil & Hrs).
  apply Forall2_nil_inv_l in Hnil as ->.
  cbn [answer] in Hrr. unfold resolved_as in Hrr. rewrite Href in Hrr.
  destruct Hrr as (perm' & Hr' & Hd).
  assert (perm' = perm) as ->.
  { unfold rights in *. destruct (sec_pmap _ _); congruence. }
  rewrite Hsub in Hd. destruct Hd as (refs & fl & -> & Hrefs & _).
  assert (Hin : FR_Resolved (MkResolved (re_resolver env) refs (re_now env) fl (UInt perm)) ∈ out).
  { apply replies_sub. rewrite Hrs. by left. }
  apply list_elem_of_split in Hin as (a & b & ->).
  assert (Hme : ref_to env path perm (pub_id p) ∈ refs).
  { apply Hrefs. exists (pub_id p). split; [done|]. apply elem_of_union. left. rewrite Ha.
    change (counted [Publish path]) with [Publish path]. cbn [foldl].
    unfold effect, due. cbn [request_of]. rewrite Habs, Href, Hmay. cbn [negb snd spec_step].
    rewrite decide_True by done. apply elem_of_union. left. by apply elem_of_singleton. }
  eexists _, a, _, b. split; [exact Hrun|]. split; [exact Hout|]. split; [done|]. split; [done|].
  destruct (Hint a _ b eq_refl _ Hme) as (q & Hq & He). exists q. split; [done|]. rewrite He.
  unfold ref_to. destruct (sec_pmap _ _); [|done]. unfold sign. by destruct (sec_of _ _).
Qed.

(** C8: A batch changes only its own publisher's entries, and adds one only where
    this server is responsible, the user may publish and the batch asks for it. *)
Theorem writes_stay_permitted sort shuffle max st uifo p i batch rs st' e q id :
  sorts sort → shuffles shuffle → server_ok par ch st →
  clinfos st !! pub_addr p = Some i → ci_publisher i = p → batch_sound max batch →
  client_batch sort shuffle max uifo p batch st = (Ok rs, st') →
  (id ∈ abs (sv_shards st') e q → id ∉ abs (sv_shards st) e q →
     id = pub_id p ∧ referral_of par ch q = None ∧
     may_publish (write_env st uifo p) e q = Ok true ∧
     ∃ m fl, m ∈ batch ∧ request_of m = AskPublish q e fl) ∧
  (id ∈ abs (sv_shards st) e q → id ∉ abs (sv_shards st') e q → id = pub_id p).
Proof.
  intros Hsort Hsh Hst Hi Hp Hb Hrun. assert (Hmax : (0 < max)%nat) by (destruct Hb; lia).
  destruct (batch_okay sort shuffle max par ch Hsort Hsh Hmax st uifo p i batch Hst Hi Hp Hb)
    as (ss & Hrun' & _ & Ha). rewrite Hrun' in Hrun. injection Hrun as <- <-.
  cbn [sv_shards set_shards]. rewrite Ha. split; intros H1 H2.
  - destruct (fold_new _ _ _ _ _ _ _ _ H1 H2) as (Hid & m & Hm & [fl Hreq] & Href & Hmay).
    split; [exact Hid|]. split_and!; [done..|]. exists m, fl. split; [|done].
    by apply list_elem_of_filter in Hm as [_ ?].
  - exact (fold_old _ _ _ _ _ _ _ _ H1 H2).
Qed.


(** As many heartbeats in a row as a batch may be long stop the server: no
    message is dispatched and the assertion that all have been read fails. *)
Theorem heartbeat_batch_panics sort shuffle max env ss rest st uifo p :
  (1 < max)%nat →
  handle_queued_write max env ss (replicate max Heartbeat ++ rest) = Panic ∧
  client_batch sort shuffle max uifo p (replicate max Heartbeat) st = (Panic, st).
Proof.
  intros Hmax.
  assert (Hfill : ∀ k n ss' bs rest, fill_write k ss' n bs (replicate k Heartbeat ++ rest) =
    (false, n, bs, rest)) by (intros k; induction k as [|k IH]; intros; [done|apply IH]).
  assert (Hempty : ∀ k, forallb is_empty (replicate k ([] : list (Z * ToWrite))) = true)
    by (intros k; by induction k).
  assert (Hq : ∀ env ss rest, handle_queued_write max env ss (replicate max Heartbeat ++ rest) = Panic).
  { intros env' ss' rest'. unfold handle_queued_write. cbn [write_loop]. by rewrite Hfill, Hempty. }
  split; [apply Hq|]. unfold client_batch.
  rewrite decide_False by (intros He; apply (f_equal length) in He; rewrite length_replicate in He; cbn in He; lia).
  cbn [client_batch_loop].
  assert (split_clear (replicate max Heartbeat) = None) as ->
    by (clear; induction max as [|k IH]; [done|]; cbn; by rewrite IH).
  unfold sbind, ask, lift_write, handle_batch_write. cbn [id].
  rewrite <- (app_nil_r (replicate max Heartbeat)), Hq. done.
Qed.
End Theorems.

(** ** The theorems at concrete servers *)

Definition demo_orders : HashOrder := {|
  order_refs m := (map_to_list m).*2; order_paths s := elements s;
  order_cols m := map_to_list m; order_pubs m := (map_to_list m).*2 |}.
#[local] Instance demo_orders_ok : HashOrderOk demo_orders.
Proof. by split. Qed.
Definition demo_hash : PathHash := fun s => zlen s.
#[local] Existing Instances prefix_globs escaping_ref demo_live demo_sha demo_orders demo_hash.
Definition key_le (x y : Z * FromWrite) : Prop := x.1 ≤ y.1.
#[local] Instance key_le_dec : RelDecision key_le.
Proof. intros x y. unfold key_le. apply _. Defined.
Definition demo_sort (l : list (Z * FromWrite)) : list (Z * FromWrite) := merge_sort key_le l.
Lemma demo_sorts l :
  demo_sort l ≡ₚ l ∧ StronglySorted (fun x y : Z * FromWrite => x.1 ≤ y.1) (demo_sort l).
Proof.
  split; [apply merge_sort_Permutation|]. apply StronglySorted_merge_sort.
  - intros x y z. unfold key_le. lia.
  - intros x y. unfold key_le. lia.
Qed.

Lemma demo_shuffles (l : list str) : id l ≡ₚ l.
Proof. done. Qed.

Definition demo_max : nat := 8.
Definition host (n : Z) : SocketAddr := V4 (map Zb [10; 0; 0; n]) (UInt 5000).
Definition no_pmap : PMap := MkPMap ∅ ∅ ∅.
Definition demo_peer (answer : option str) : Peer :=
  MkPeer true (Some (Some (lit "eve"))) None (UInt 7) answer (UInt 9) true (Some 3)
    (fun _ => Some (lit "staff", [])) 0 0 (anonymous 0).
Definition good_answer : str := proof_of (UInt 7) (UInt 9).

Abbreviation dserve := (serve
  demo_sort id demo_max).
Abbreviation dworld sec := (world_new None ∅ 1 sec (host 1) no_pmap (UserDb_new 60)).

(** A server with one publisher and one path, and one with an authenticated
    publisher *)
Definition demo_path : str := lit "/app/x".
Definition demo_hello (a : AuthWrite) : ClientHelloWrite := MkClientHelloWrite (host 2) a Normal.
Definition open_events : list event :=
  [EvHello (demo_peer None) (demo_hello AW_Anonymous); EvBatch 0 [Publish demo_path]].
Definition open_world : World := foldl dserve (dworld ScAnonymous) open_events.
Definition local_events : list event := [EvHello (demo_peer (Some good_answer)) (demo_hello AW_Local)].
Definition local_world : World := foldl dserve (dworld ScLocal) local_events.
Definition first_pub (a : TargetAuth) : Publisher :=
  MkPublisher (host 1) (MkId 0) (host 2) Sha3_512 a None Normal.

Lemma demo_sound : batch_sound demo_max [Publish demo_path].
Proof.
  split; [|rewrite filter_cons_False by done; vm_compute; lia].
  apply Forall_cons_2; [|constructor].
  split; [intros _; exact (good_lit [lit "app"; lit "x"] eq_refl)|]. eexists. by vm_compute.
Qed.
Lemma open_events_ok : Forall (event_ok demo_max) open_events.
Proof. apply Forall_cons_2; [done|]. apply Forall_cons_2; [apply demo_sound|constructor]. Qed.
Lemma demo_world_ok sec evs :
  Forall (event_ok demo_max) evs → zlen evs < 2 ^ 64 →
  world_ok None ∅ (foldl dserve (dworld sec) evs).
Proof.
  intros Hev Hn.
  apply (run_serve
    demo_sort id demo_max None ∅ demo_sorts);
    [done|vm_compute; lia| |done|cbn; lia].
  apply world_new_ok. by intros p [? ?].
Qed.

Abbreviation dbatch := (client_batch
  demo_sort id demo_max).
Abbreviation open_server := (w_server open_world).
Lemma open_ok : server_ok None ∅ open_server.
Proof. apply wo_server, (demo_world_ok ScAnonymous open_events open_events_ok). by vm_compute. Qed.
Lemma open_session : clinfos open_server !! pub_addr (first_pub TA_Anonymous) =
  Some (MkClientInfo (first_pub TA_Anonymous) 0).
Proof. by vm_compute. Qed.



Abbreviation dhello := (hello_client_write
  id demo_max).
Abbreviation local_server := (w_server local_world).
Abbreviation reuse_run := (dhello 1 (demo_peer (Some good_answer)) (demo_hello AW_Reuse) local_server).
Lemma reuse_runs : ∃ u, reuse_run.1 = Ok (u, first_pub TA_Local, false).
Proof. eexists. by vm_compute. Qed.
Lemma local_session : clinfos local_server !! host 2 = Some (MkClientInfo (first_pub TA_Local) 0).
Proof. by vm_compute. Qed.

Lemma takeover_needs_proof_witness :
  ∃ d, sv_data local_server !! MkId 0 = Some d ∧
    Some good_answer = Some (proof_of (UInt 7) (sd_secret d)).
Proof.
  destruct reuse_runs as [u Hu].
  destruct (takeover_needs_proof id demo_max 1 (demo_peer (Some good_answer))
    (demo_hello AW_Reuse) local_server (MkClientInfo (first_pub TA_Local) 0) u (first_pub TA_Local)
    false reuse_run.2 (eq_trans (surjective_pairing _) (f_equal2 pair Hu eq_refl))
    local_session eq_refl) as [_ [(_ & _ & _ & _ & Hd)|(Hne & _)]]; [exact Hd|].
  destruct Hne. reflexivity.
Defined.

Definition demo_read : ReadEnv := MkReadEnv SecAnonymous no_pmap (host 1) (UInt 0) (anonymous 0).

Definition more_path : str := lit "/app/y".
Lemma publish_then_resolve_witness :
  ∃ st a d b, dbatch (anonymous 0) (first_pub TA_Anonymous) [Publish more_path] open_server =
      (Ok [FW_Published], st) ∧
    handle_batch_read (GS := prefix_globs) MAX_READ_BATCH demo_read (sv_shards st)
      [TR_Resolve more_path] = Ok (a ++ FR_Resolved d :: b) ∧
    MkPublisherRef (MkId 0) [] ∈ res_publishers d.
Proof.
  destruct (publish_then_resolve (GS := prefix_globs) None ∅ demo_sort id demo_max MAX_READ_BATCH
    open_server (anonymous 0) (first_pub TA_Anonymous) _ more_path demo_read all_bits demo_sorts
    demo_shuffles ltac:(vm_compute; lia) eq_refl open_ok open_session eq_refl eq_refl
    (good_lit [lit "app"; lit "y"] eq_refl) ltac:(eexists; by vm_compute)
    ltac:(by vm_compute) ltac:(by vm_compute) eq_refl ltac:(by vm_compute))
    as (st & a & d & b & Hw & Hr & _ & Hin & _).
  exists st, a, d, b. split; [exact Hw|]. split; [exact Hr|exact Hin].
Defined.

Abbreviation withdraw_run :=
  (dbatch (anonymous 0) (first_pub TA_Anonymous) [Unpublish demo_path] open_server).
Lemma withdraw_runs : withdraw_run.1 = Ok [FW_Unpublished].
Proof. by vm_compute. Qed.
Lemma withdraw_sound : batch_sound demo_max [Unpublish demo_path].
Proof.
  split; [|vm_compute; lia]. apply Forall_cons_2; [|constructor].
  intros _. exact (good_lit [lit "app"; lit "x"] eq_refl).
Qed.
Lemma writes_stay_permitted_witness : MkId 0 = pub_id (first_pub TA_Anonymous).
Proof.
  refine (proj2 (writes_stay_permitted None ∅ demo_sort id demo_max open_server (anonymous 0)
    (first_pub TA_Anonymous) _ [Unpublish demo_path] [FW_Unpublished] withdraw_run.2 false demo_path
    (MkId 0) demo_sorts demo_shuffles open_ok open_session eq_refl withdraw_sound
    (eq_trans (surjective_pairing _) (f_equal2 pair withdraw_runs eq_refl))) _ _);
    apply (bool_decide_eq_true_1 _); by vm_compute.
Defined.


Lemma heartbeat_batch_panics_witness :
  dbatch (anonymous 0) (first_pub TA_Anonymous) (replicate demo_max Heartbeat) open_server =
    (Panic, open_server).
Proof.
  exact (proj2 (heartbeat_batch_panics demo_sort id demo_max
    (write_env open_server (anonymous 0) (first_pub TA_Anonymous)) [] [] open_server (anonymous 0)
    (first_pub TA_Anonymous) ltac:(vm_compute; lia))).
Defined.
