(* ===== verification/Channel.v ===== *)
(** Framed message channels (netidx/src/channel.rs). A write channel collects
    encoded messages and cuts them into chunks at message boundaries, the flush
    task frames each chunk with its length, the read task cuts the byte stream
    back into chunks wherever it was segmented, and the read channel decodes the
    messages. The room in the queue between the tasks, the segmentation of the
    stream and the encryption of a Kerberos context are inputs. *)
From Stdlib Require Import ZArith Lia.
From stdpp Require Import base list strings.
From Stdlib Require Import Strings.Byte.
From S2P Require Import Prelude Varint Pack Containers.

Definition LEN_MASK : Z := 0x7FFFFFFF.
Definition MAX_BATCH : Z := 0x3FFFFFFF.
Definition ENC_MASK : Z := 0x80000000.

Inductive ChanError := TooBig | PackErr (e : PackError) | ClosedChan | Eof
  | NeedsEncryption | NoEncryption | BadToken | Encrypted | MoreThanOne.

(** The [n]-th message wrapped and unwrapped by a Kerberos context *)
Class K5Ctx := {
  k5_wrap : nat → str → option str;
  k5_unwrap : nat → str → option str
}.
Class K5CtxOk (K : K5Ctx) : Prop := {
  k5_inverse n d m : k5_wrap n d = Some m → k5_unwrap n m = Some d;
  k5_short n d m : zlen d ≤ MAX_BATCH → k5_wrap n d = Some m → zlen m ≤ LEN_MASK
}.

(** ** Writing *)

Record WriteChannel := MkWriteChannel { wc_buf : str; boundries : list Z }.
Definition WriteChannel_new : WriteChannel := MkWriteChannel [] [].

Definition sum_z (l : list Z) : Z := foldr Z.add 0 l.
(** [BytesMut::resize] *)
Definition resize (l : str) (n : nat) : str := take n l ++ replicate (n - length l) "000"%byte.

(** [WriteChannel::queue_send] *)
Definition queue_send {A} (P : Pack A) (w : WriteChannel) (msg : A) : res ChanError unit * WriteChannel :=
  let len := encoded_len P msg in
  if MAX_BATCH <? len then (Err TooBig, w)
  else
    let buf_len := zlen (wc_buf w) in
    let prev := default 0 (last (boundries w)) in
    let pushed := MAX_BATCH <? (buf_len - prev) + len in
    if (buf_len <? prev) || (pushed && (buf_len <? sum_z (boundries w))) then (Panic, w) else
    let bs := if pushed then boundries w ++ [buf_len - sum_z (boundries w)] else boundries w in
    match encode P msg with
    | (bytes, Ok _) => (Ok (), MkWriteChannel (wc_buf w ++ bytes) bs)
    | (bytes, Err e) =>
        (Err (PackErr e), MkWriteChannel (resize (wc_buf w ++ bytes) (length (wc_buf w)))
           (if pushed then removelast bs else bs))
    | (_, Panic) => (Panic, w)
    end.

(** [WriteChannel::clear] *)
Definition wc_clear (w : WriteChannel) : WriteChannel := MkWriteChannel [] [].

(** What [try_send] to the flush task answers *)
Inductive slot := Accepts | Full | Closed.

(** [WriteChannel::try_flush]: the chunks sent, the answer and the channel; the
    queue is full when [slots] runs out. *)
Fixpoint try_flush_loop (fuel : nat) (slots : list slot) (w : WriteChannel)
  : list str * res ChanError bool * WriteChannel :=
  match fuel with
  | O => ([], Panic, w)
  | S fuel =>
      match wc_buf w with
      | [] => ([], Ok true, w)
      | _ =>
          let boundry := default (zlen (wc_buf w)) (head (boundries w)) in
          if zlen (wc_buf w) <? boundry then ([], Panic, w)
          else
            let chunk := take (Z.to_nat boundry) (wc_buf w) in
            let rest := drop (Z.to_nat boundry) (wc_buf w) in
            match default Full (head slots) with
            | Accepts =>
                let '(sent, r, w) := try_flush_loop fuel (tail slots) (MkWriteChannel rest (tail (boundries w))) in
                (chunk :: sent, r, w)
            | Full => ([], Ok false, MkWriteChannel (chunk ++ rest) (boundries w))
            | Closed => ([], Err ClosedChan, MkWriteChannel rest (boundries w))
            end
      end
  end.
Definition try_flush (slots : list slot) (w : WriteChannel) :=
  try_flush_loop (S (S (length (boundries w)))) slots w.

(** [WriteChannel::flush]: one element of [rounds] for each turn of the loop, the
    answers to [try_send] and whether [poll_ready] then succeeds; [Ok false] while
    it waits *)
Fixpoint flush (rounds : list (list slot * bool)) (w : WriteChannel)
  : list str * res ChanError bool * WriteChannel :=
  match rounds with
  | [] => ([], Ok false, w)
  | (slots, ready) :: rounds =>
      match try_flush slots w with
      | (sent, Ok false, w) =>
          if ready then let '(more, r, w) := flush rounds w in (sent ++ more, r, w)
          else (sent, Err ClosedChan, w)
      | done => done
      end
  end.

(** ** The wire *)

Section Wire.
Context {K : K5Ctx}.

(** [flush_buf] *)
Definition flush_buf (buf : str) (encrypted : bool) : str :=
  let len := wrap 32 (zlen buf) in
  be_bytes 4 (if encrypted then Z.lor len ENC_MASK else len) ++ buf.

(** [flush_task]: the bytes written for a sequence of chunks; [None] if the
    context cannot encrypt *)
Fixpoint flush_task (ctx : bool) (n : nat) (chunks : list str) : option str :=
  match chunks with
  | [] => Some []
  | data :: chunks =>
      if ctx then
        match k5_wrap n data with
        | None => None
        | Some msg => app (flush_buf msg true) <$> flush_task ctx (S n) chunks
        end
      else app (flush_buf data false) <$> flush_task ctx n chunks
  end.

(** ** Reading *)

Record PBuf := MkPBuf { pb_data : str; pb_pos : nat }.
Definition PBuf_default : PBuf := MkPBuf [] 0.
(** [deref], [remaining], [advance] *)
Definition pb_bytes (b : PBuf) : str := drop (pb_pos b) (pb_data b).
Definition pb_remaining (b : PBuf) : Z := zlen (pb_data b) - Z.of_nat (pb_pos b).
Definition pb_advance (b : PBuf) (n : nat) : PBuf := MkPBuf (pb_data b) (pb_pos b + n).
Definition pb_extend (b : PBuf) (d : str) : PBuf := MkPBuf (pb_data b ++ d) (pb_pos b).
Definition pb_resize (b : PBuf) (n : nat) : PBuf := MkPBuf (resize (pb_data b) (pb_pos b + n)) (pb_pos b).

(** [PBuf::split_to]: the part split off and what [self] becomes *)
Definition split_to (b : PBuf) (len : nat) : res ChanError (PBuf * PBuf) :=
  let rem := pb_remaining b in
  if rem <? Z.of_nat len then Panic
  else if rem =? Z.of_nat len then Ok (b, PBuf_default)
  else if Z.of_nat len <? rem - Z.of_nat len then
    let new := pb_extend PBuf_default (take len (pb_bytes b)) in
    let b := pb_advance b len in
    let pos := pb_pos b in
    let rem := Z.to_nat (pb_remaining b) in
    if (2 * rem <? pos)%nat then
      (** [copy_within(pos..pos + rem, 0)] *)
      let data := take rem (drop pos (pb_data b)) ++ drop rem (pb_data b) in
      Ok (new, pb_resize (MkPBuf data 0) rem)
    else Ok (new, b)
  else
    let new := pb_extend PBuf_default (drop len (pb_bytes b)) in
    Ok (pb_resize b len, new).

(** The inner loop of [read_task]: the chunks passed on, how it ends ([Ok] when
    more input is needed), the buffer and the messages unwrapped *)
Fixpoint read_frames (fuel : nat) (ctx : bool) (n : nat) (b : PBuf)
  : list str * res ChanError unit * PBuf * nat :=
  match fuel with
  | O => ([], Panic, b, n)
  | S fuel =>
      if pb_remaining b <? 4 then ([], Ok (), b, n)
      else
        let hdr := be_int (take 4 (pb_bytes b)) in
        let encrypted := LEN_MASK <? hdr in
        let len := Z.to_nat (if encrypted then Z.land hdr LEN_MASK else hdr) in
        if pb_remaining b - 4 <? Z.of_nat len then ([], Ok (), b, n)
        else if negb encrypted then
          if ctx then ([], Err NeedsEncryption, b, n)
          else
            match split_to (pb_advance b 4) len with
            | Ok (chunk, b) =>
                let '(out, r, b, n) := read_frames fuel ctx n b in (pb_bytes chunk :: out, r, b, n)
            | Err e => ([], Err e, b, n)
            | Panic => ([], Panic, b, n)
            end
        else if ctx then
          match split_to (pb_advance b 4) len with
          | Ok (chunk, b) =>
              match k5_unwrap n (pb_bytes chunk) with
              | None => ([], Err BadToken, b, n)
              | Some d =>
                  let '(out, r, b, n) := read_frames fuel ctx (S n) b in (d :: out, r, b, n)
              end
          | Err e => ([], Err e, b, n)
          | Panic => ([], Panic, b, n)
          end
        else ([], Err NoEncryption, b, n)
  end.

(** [read_task] on a stream that arrives in segments, an empty one at its end;
    [Ok] while it waits for more *)
Fixpoint read_task (ctx : bool) (n : nat) (b : PBuf) (segs : list str)
  : list str * res ChanError unit * PBuf :=
  match read_frames (S (Z.to_nat (pb_remaining b))) ctx n b with
  | (out, Ok _, b, n) =>
      match segs with
      | [] => (out, Ok (), b)
      | [] :: _ => (out, Err Eof, b)
      | seg :: segs =>
          let '(more, r, b) := read_task ctx n (pb_extend b seg) segs in (out ++ more, r, b)
      end
  | (out, r, b, _) => (out, r, b)
  end.
End Wire.

(** [ReadChannel]: the bytes left of the current chunk, and the chunks to come *)
Record ReadChannel := MkReadChannel { rc_buf : str; incoming : list str }.

Definition pack_err {A} (r : res PackError A) : res ChanError A :=
  match r with Ok a => Ok a | Err e => Err (PackErr e) | Panic => Panic end.

(** [ReadChannel::fill_buffer], [receive], [receive_batch] *)
Definition fill_buffer (rc : ReadChannel) : res ChanError unit * ReadChannel :=
  match incoming rc with
  | chunk :: rest => (Ok (), MkReadChannel chunk rest)
  | [] => (Err Eof, rc)
  end.
Definition receive {A} (P : Pack A) (rc : ReadChannel) : res ChanError A * ReadChannel :=
  match (match rc_buf rc with [] => fill_buffer rc | _ => (Ok (), rc) end) with
  | (Ok _, rc) =>
      let '(r, rest) := decode P (rc_buf rc) in (pack_err r, MkReadChannel rest (incoming rc))
  | (Err e, rc) => (Err e, rc)
  | (Panic, rc) => (Panic, rc)
  end.
(** The loop of [receive_batch]: what it pushed, also when it fails *)
Fixpoint drain_batch {A} (fuel : nat) (P : Pack A) (rc : ReadChannel)
  : list A * res ChanError unit * ReadChannel :=
  match fuel with
  | O => ([], Panic, rc)
  | S fuel =>
      match rc_buf rc with
      | [] => ([], Ok (), rc)
      | _ =>
          match decode P (rc_buf rc) with
          | (Ok a, rest) =>
              let '(l, r, rc) := drain_batch fuel P (MkReadChannel rest (incoming rc)) in (a :: l, r, rc)
          | (r, rest) => ([], res_map (fun _ => ()) (pack_err r), MkReadChannel rest (incoming rc))
          end
      end
  end.
Definition receive_batch {A} (P : Pack A) (rc : ReadChannel) (batch : list A)
  : list A * res ChanError unit * ReadChannel :=
  match receive P rc with
  | (Ok a, rc) =>
      let '(l, r, rc) := drain_batch (S (length (rc_buf rc))) P rc in (batch ++ a :: l, r, rc)
  | (r, rc) => (batch, res_map (fun _ => ()) r, rc)
  end.

(** ** Single messages before the channel exists *)

(** [write_raw]: the bytes written *)
Definition write_raw {A} (P : Pack A) (msg : A) : res ChanError str :=
  if MAX_BATCH <? encoded_len P msg then Err TooBig
  else
    match encode P msg with
    | (bytes, Ok _) => Ok (be_bytes 4 (wrap 32 (zlen bytes)) ++ bytes)
    | (_, Err e) => Err (PackErr e)
    | (_, Panic) => Panic
    end.
(** [read_raw] from the bytes of a socket, and those left *)
Definition read_raw {A} (P : Pack A) (max : Z) (soc : str) : res ChanError A * str :=
  if max <? 4 then (Panic, soc)
  else if zlen soc <? 4 then (Err Eof, [])
  else
    let len := be_int (take 4 soc) in
    let soc := drop 4 soc in
    if LEN_MASK <? len then (Err Encrypted, soc)
    else if max <? len then (Err TooBig, soc)
    else if zlen soc <? len then (Err Eof, [])
    else
      match decode P (take (Z.to_nat len) soc) with
      | (Ok a, []) => (Ok a, drop (Z.to_nat len) soc)
      | (Ok _, _) => (Err MoreThanOne, drop (Z.to_nat len) soc)
      | (r, _) => (pack_err r, drop (Z.to_nat len) soc)
      end.
