(* ===== verification/ChannelFacts.v ===== *)
(** Channels deliver: the chunks sent hold the queued messages in order and cut at
    message boundaries, the reader finds the same chunks however the stream was
    segmented, and decodes the messages. *)
From Stdlib Require Import ZArith Lia.
From stdpp Require Import base list strings.
From Stdlib Require Import Strings.Byte.
From S2P Require Import Prelude Varint Pack Containers Channel.

(** ** The write channel as a list of groups of messages *)

Abbreviation cat := (@concat byte).
Abbreviation glen g := (zlen (concat (g : list str))).

(** Every group but the last is closed by a boundary. *)
Record holds (w : WriteChannel) (gs : list (list str)) : Prop := {
  ho_buf : wc_buf w = concat (cat <$> gs);
  ho_boundries : boundries w = (fun g => glen g) <$> removelast gs;
  ho_groups : Forall (fun g => g ≠ [] ∧ Forall (.≠ []) g ∧ glen g ≤ MAX_BATCH) gs
}.

Lemma holds_new : holds WriteChannel_new [].
Proof. by split. Qed.

Lemma zlen_concat (ls : list str) : zlen (concat ls) = sum_z (zlen <$> ls).
Proof. induction ls as [|l ls IH]; [done|]. cbn. by rewrite zlen_app, IH. Qed.
Lemma sum_z_cons x l : sum_z (x :: l) = x + sum_z l.
Proof. done. Qed.
Lemma sum_z_app a b : sum_z (a ++ b) = sum_z a + sum_z b.
Proof. induction a as [|x a IH]; [done|]. rewrite <- app_comm_cons, !sum_z_cons. lia. Qed.
Lemma sum_z_last l : Forall (fun x => 0 ≤ x) l → default 0 (last l) ≤ sum_z l ∧ 0 ≤ sum_z l.
Proof.
  intros H. assert (Hn : ∀ l, Forall (fun x => 0 ≤ x) l → 0 ≤ sum_z l)
    by (induction 1; rewrite ?sum_z_cons; [done|lia]).
  destruct l as [|x l _] using rev_ind; [done|]. apply Forall_app in H as [Hl Hx].
  rewrite Forall_singleton in Hx. rewrite last_snoc, sum_z_app, sum_z_cons. cbn. specialize (Hn l Hl). lia.
Qed.
Lemma resize_app (l x : str) : resize (l ++ x) (length l) = l.
Proof.
  unfold resize. rewrite take_app_length, length_app.
  replace (length l - (length l + length x))%nat with O by lia. apply app_nil_r.
Qed.

Section Queue.
Context {A : Type} (P : Pack A).

Lemma queue_spec w gs msg bytes :
  holds w gs → encode P msg = (bytes, Ok ()) → zlen bytes = encoded_len P msg →
  0 < encoded_len P msg ≤ MAX_BATCH →
  ∃ w' gs', queue_send P w msg = (Ok (), w') ∧ holds w' gs' ∧ concat gs' = concat gs ++ [bytes].
Proof.
  intros [Hb Hbs Hg] He Hl Hlen. unfold queue_send. rewrite He.
  destruct (Z.ltb_spec MAX_BATCH (encoded_len P msg)) as [?|_]; [lia|].
  assert (Hne : bytes ≠ []) by (intros ->; rewrite zlen_nil in Hl; lia).
  assert (Hnew : [bytes] ≠ [] ∧ Forall (.≠ []) [bytes] ∧ glen [bytes] ≤ MAX_BATCH).
  { split; [done|]. split; [by constructor|]. cbn. rewrite app_nil_r. lia. }
  destruct gs as [|g gs _] using rev_ind.
  { cbn in Hb, Hbs. rewrite Hb, Hbs. cbn [last default sum_z foldr zlen length].
    change (zlen (A := byte) [] - 0) with 0.
    destruct (Z.ltb_spec MAX_BATCH (0 + encoded_len P msg)) as [?|_]; [lia|].
    cbn [andb orb]. eexists _, [[bytes]]. split; [done|]. split; [|done]. split; [|done|by constructor].
    cbn. by rewrite !app_nil_r. }
  apply Forall_app in Hg as [Hgs Hg]. rewrite Forall_singleton in Hg. destruct Hg as (Hgn & Hgb & Hgl).
  rewrite removelast_last in Hbs.
  assert (Hlen_buf : zlen (wc_buf w) = sum_z (boundries w) + glen g).
  { rewrite Hb, fmap_app, concat_app, zlen_app. cbn. rewrite app_nil_r. f_equal.
    rewrite zlen_concat, Hbs. by rewrite <- list_fmap_compose. }
  assert (Hpos : Forall (fun x => 0 ≤ x) (boundries w)).
  { rewrite Hbs. apply Forall_fmap, Forall_true. intros x. apply zlen_nonneg. }
  destruct (sum_z_last _ Hpos) as [Hlast Hsum].
  pose proof (zlen_nonneg (concat g)) as Hg0. cbv zeta.
  destruct (Z.ltb_spec (zlen (wc_buf w)) (default 0 (last (boundries w)))) as [?|_]; [lia|].
  destruct (Z.ltb_spec (zlen (wc_buf w)) (sum_z (boundries w))) as [?|_]; [lia|].
  rewrite andb_false_r. cbn [orb].
  destruct (Z.ltb_spec MAX_BATCH (zlen (wc_buf w) - default 0 (last (boundries w)) + encoded_len P msg))
    as [Hp|Hp].
  - eexists _, ((gs ++ [g]) ++ [[bytes]]). split; [done|]. split; [split|].
    + cbn. rewrite Hb, !fmap_app, !concat_app. cbn. by rewrite !app_nil_r.
    + cbn [boundries]. rewrite removelast_last, Hbs, fmap_app. cbn.
      rewrite Hlen_buf, Hbs. do 2 f_equal. lia.
    + apply Forall_app. split; [|by constructor]. apply Forall_app. split; [done|by constructor].
    + rewrite !concat_app. cbn. by rewrite !app_nil_r.
  - eexists _, (gs ++ [g ++ [bytes]]). split; [done|]. split; [split|].
    + cbn. rewrite Hb, !fmap_app, !concat_app. cbn. rewrite !concat_app. cbn.
      by rewrite !app_nil_r, <- app_assoc.
    + cbn [boundries]. by rewrite removelast_last.
    + apply Forall_app. split; [done|]. constructor; [|done]. split; [by destruct g|].
      split; [apply Forall_app; split; [done|by constructor]|].
      rewrite concat_app, zlen_app. cbn. rewrite app_nil_r. lia.
    + rewrite !concat_app. cbn. by rewrite !app_nil_r, app_assoc.
Qed.

Lemma queue_error w msg r w' : queue_send P w msg = (Err r, w') → w' = w.
Proof.
  unfold queue_send. destruct (_ <? _) eqn:E1; [by intros [= _ <-]|].
  cbv zeta. destruct (_ || _); [done|].
  destruct (encode P msg) as [bytes [u|e|]]; try done. intros [= _ <-].
  rewrite resize_app. destruct w as [b bs]. cbn [wc_buf boundries].
  match goal with |- context [if ?c then _ else _] => destruct c end; [by rewrite removelast_last|done].
Qed.

Fixpoint queue_all (w : WriteChannel) (msgs : list A) : res ChanError unit * WriteChannel :=
  match msgs with
  | [] => (Ok (), w)
  | m :: msgs =>
      match queue_send P w m with
      | (Ok _, w) => queue_all w msgs
      | other => other
      end
  end.

Context (wf : A → Prop) `{!PackOk P wf}.
Definition sendable (m : A) : Prop := wf m ∧ 0 < encoded_len P m ≤ MAX_BATCH.
Definition bytes_of (m : A) : str := (encode P m).1.

Lemma sendable_encode m : sendable m →
  encode P m = (bytes_of m, Ok ()) ∧ zlen (bytes_of m) = encoded_len P m ∧
  ∀ rest, zlen (bytes_of m ++ rest) < MAX_BUF → decode P (bytes_of m ++ rest) = (Ok m, rest).
Proof.
  intros [Hw Hl]. destruct (encode_spec m Hw) as (bs & He & Hz & Hd); [unfold MAX_BATCH, MAX_BUF in *; lia|].
  unfold bytes_of. rewrite He. done.
Qed.

Lemma queue_all_spec w gs msgs :
  holds w gs → Forall sendable msgs →
  ∃ w' gs', queue_all w msgs = (Ok (), w') ∧ holds w' gs' ∧
    concat gs' = concat gs ++ (bytes_of <$> msgs).
Proof.
  intros Hw Hm. revert w gs Hw; induction Hm as [|m msgs Hm _ IH]; intros w gs Hw.
  { exists w, gs. cbn. by rewrite app_nil_r. }
  destruct (sendable_encode m Hm) as (He & Hl & _). cbn [queue_all].
  destruct (queue_spec w gs m (bytes_of m) Hw He Hl) as (w1 & gs1 & -> & Hw1 & Hc1); [apply Hm|].
  destruct (IH w1 gs1 Hw1) as (w2 & gs2 & -> & Hw2 & Hc2). exists w2, gs2.
  split; [done|]. split; [done|]. rewrite Hc2, Hc1. cbn. by rewrite <- app_assoc.
Qed.
End Queue.

(** ** Flushing *)

Lemma holds_tail w g gs :
  holds w (g :: gs) → zlen (wc_buf w) = glen g + zlen (concat (cat <$> gs)) ∧
  (gs = [] → boundries w = []) ∧ (gs ≠ [] → head (boundries w) = Some (glen g)) ∧ g ≠ [] ∧ concat g ≠ [] ∧
  holds (MkWriteChannel (concat (cat <$> gs)) (tail (boundries w))) gs.
Proof.
  intros [Hb Hbs Hg]. apply Forall_cons in Hg as [(Hn & Hblk & Hl) Hg]. rewrite Hb. cbn.
  rewrite zlen_app. split; [done|]. rewrite Hbs. split; [by intros ->|].
  split; [by destruct gs|]. split; [done|].
  split; [destruct g as [|b g]; [done|]; apply Forall_cons in Hblk as [? _]; by destruct b|].
  split; cbn; [done|by destruct gs|done].
Qed.

Lemma try_flush_spec fuel slots w gs :
  holds w gs → (length gs < fuel)%nat →
  let '(sent, r, w') := try_flush_loop fuel slots w in
  ∃ k, sent = cat <$> take k gs ∧ (k ≤ length gs)%nat ∧
    match r with
    | Ok b => holds w' (drop k gs) ∧ (b = true ↔ k = length gs) ∧
        (head slots = Some Accepts → gs ≠ [] → (0 < k)%nat)
    | Err e => e = ClosedChan ∧ Closed ∈ slots
    | Panic => False
    end.
Proof.
  revert slots w gs; induction fuel as [|fuel IH]; intros slots w gs Hw Hf; [lia|].
  cbn [try_flush_loop]. destruct gs as [|g gs].
  { destruct w as [b bs]. pose proof (ho_buf _ _ Hw) as Hb. cbn in Hb. subst b. exists O. by split_and!. }
  destruct (holds_tail w g gs Hw) as (Hlen & Hlast & Hhead & Hgn & Hcn & Htail).
  pose proof (ho_buf _ _ Hw) as Hb. cbn in Hb.
  assert (Hbd : default (zlen (wc_buf w)) (head (boundries w)) = glen g).
  { destruct gs as [|g2 gs]; [|by rewrite Hhead]. rewrite Hlast by done.
    cbn [head default]. rewrite Hlen. change (zlen (concat (cat <$> []))) with 0. apply Z.add_0_r. }
  assert (Hto : Z.to_nat (glen g) = length (concat g)) by (unfold zlen; lia).
  rewrite Hbd. destruct (wc_buf w) as [|c buf] eqn:Ebuf; [by destruct (concat g)|].
  pose proof (zlen_nonneg (concat (cat <$> gs))) as Hnn.
  destruct (Z.ltb_spec (zlen (c :: buf)) (glen g)) as [?|_]; [lia|].
  rewrite Hto, Hb, take_app_length, drop_app_length.
  destruct slots as [|[] slots]; cbn [head default].
  - exists O. split; [done|]. split; [lia|]. split; [|split; [split; [done|cbn; lia]|done]].
    rewrite <- Hb, <- Ebuf. by destruct w.
  - cbn in Hf. specialize (IH slots _ gs Htail ltac:(lia)). cbn [tail].
    destruct (try_flush_loop fuel slots _) as [[sent r] w']. destruct IH as (k & -> & Hk & Hr).
    exists (S k). split; [done|]. split; [cbn; lia|]. destruct r as [b|e|]; [|split; [apply Hr|right; apply Hr]|done].
    destruct Hr as (Hh & Hb' & _). split; [done|]. split; [|lia]. rewrite Hb'. cbn. lia.
  - exists O. split; [done|]. split; [lia|]. split; [|split; [split; [done|cbn; lia]|done]].
    rewrite <- Hb, <- Ebuf. by destruct w.
  - exists O. split; [done|]. split; [lia|]. split; [done|by left].
Qed.

Lemma flush_spec rounds w gs :
  holds w gs →
  let '(sent, r, w') := flush rounds w in
  ∃ k, sent = cat <$> take k gs ∧ (k ≤ length gs)%nat ∧
    match r with
    | Ok b => holds w' (drop k gs) ∧ (b = true → k = length gs) ∧
        (Forall (fun s => head (s.1) = Some Accepts) rounds → (length gs < length rounds)%nat → b = true)
    | Err e => e = ClosedChan ∧ ∃ s, s ∈ rounds ∧ (Closed ∈ s.1 ∨ s.2 = false)
    | Panic => False
    end.
Proof.
  revert w gs; induction rounds as [|[slots ready] rounds IH]; intros w gs Hw; cbn [flush].
  { exists O. split; [done|]. split; [lia|]. split; [done|]. split; [done|cbn; lia]. }
  assert (Hf : (length gs < S (S (length (boundries w))))%nat).
  { rewrite (ho_boundries _ _ Hw), length_fmap. destruct gs as [|g gs _] using rev_ind; [cbn; lia|].
    rewrite removelast_last, length_app. cbn. lia. }
  pose proof (try_flush_spec _ slots w gs Hw Hf) as H. unfold try_flush.
  destruct (try_flush_loop _ slots w) as [[sent r] w1]. destruct H as (k & -> & Hk & Hr).
  destruct r as [[]|e|].
  - exists k. split; [done|]. split; [done|]. destruct Hr as (Hh & Hb & _). split; [done|].
    split; [|done]. intros _. by apply Hb.
  - destruct Hr as (Hh & Hb & Hacc). destruct ready.
    2:{ exists k. split; [done|]. split; [done|]. split; [done|]. exists (slots, false). split; [left|by right]. }
    specialize (IH w1 (drop k gs) Hh).
    destruct (flush rounds w1) as [[more r2] w2]. destruct IH as (k2 & -> & Hk2 & Hr2).
    rewrite length_drop in Hk2. exists (k + k2)%nat. split; [|split; [lia|]].
    { rewrite <- fmap_app. f_equal. rewrite <- (take_drop k (take (k + k2) gs)), take_take, take_drop_commute.
      f_equal; f_equal; lia. }
    destruct r2 as [b|e|]; [|destruct Hr2 as (-> & s & Hs & Hc); split; [done|]; exists s; by split; [right|]|done].
    destruct Hr2 as (Hh2 & Hb2 & Hrun). rewrite drop_drop in Hh2. split; [done|].
    rewrite length_drop in Hb2, Hrun. split; [intros Hb'; specialize (Hb2 Hb'); lia|].
    intros [Ha Hall]%Forall_cons Hlen. apply Hrun; [done|]. cbn in Hlen.
    assert (gs = [] ∨ gs ≠ []) as [->|Hne] by (destruct gs; auto).
    { exfalso. cbn in Hk. assert (Hk0 : k = O) by lia. by apply Hb in Hk0. }
    specialize (Hacc Ha Hne). lia.
  - exists k. split; [done|]. split; [done|]. destruct Hr as [-> Hr]. split; [done|].
    exists (slots, ready). split; [left|by left].
  - done.
Qed.

(** ** The read buffer *)

Definition pb_ok (b : PBuf) : Prop := (pb_pos b ≤ length (pb_data b))%nat.
Lemma pb_remaining_bytes b : pb_ok b → pb_remaining b = zlen (pb_bytes b).
Proof. unfold pb_ok, pb_remaining, pb_bytes, zlen. intros H. rewrite length_drop. lia. Qed.
Lemma pb_extend_bytes b d : pb_ok b → pb_ok (pb_extend b d) ∧ pb_bytes (pb_extend b d) = pb_bytes b ++ d.
Proof.
  unfold pb_ok, pb_bytes, pb_extend. cbn. intros H. rewrite length_app. split; [lia|].
  by rewrite drop_app_le.
Qed.
Lemma pb_advance_bytes b n : pb_ok b → (n ≤ length (pb_bytes b))%nat →
  pb_ok (pb_advance b n) ∧ pb_bytes (pb_advance b n) = drop n (pb_bytes b).
Proof.
  unfold pb_ok, pb_bytes, pb_advance. cbn. intros H. rewrite length_drop. intros Hn.
  split; [lia|]. by rewrite drop_drop.
Qed.
Lemma pb_resize_bytes b n : pb_ok b → (n ≤ length (pb_bytes b))%nat →
  pb_ok (pb_resize b n) ∧ pb_bytes (pb_resize b n) = take n (pb_bytes b).
Proof.
  unfold pb_ok, pb_bytes, pb_resize, resize. cbn. intros H. rewrite length_drop. intros Hn.
  replace (pb_pos b + n - length (pb_data b))%nat with O by lia. rewrite app_nil_r, length_take.
  split; [lia|]. by rewrite skipn_firstn_comm, Nat.add_comm, Nat.add_sub.
Qed.

Lemma split_to_spec b len :
  pb_ok b → (len ≤ length (pb_bytes b))%nat →
  ∃ c b', split_to b len = Ok (c, b') ∧ pb_ok b' ∧
    pb_bytes c = take len (pb_bytes b) ∧ pb_bytes b' = drop len (pb_bytes b).
Proof.
  intros Hb Hlen. unfold split_to. rewrite pb_remaining_bytes by done. unfold zlen.
  destruct (Z.ltb_spec (Z.of_nat (length (pb_bytes b))) (Z.of_nat len)) as [?|_]; [lia|].
  destruct (Z.eqb_spec (Z.of_nat (length (pb_bytes b))) (Z.of_nat len)) as [He|Hne].
  { assert (length (pb_bytes b) = len) by lia. exists b, PBuf_default. split; [done|].
    split; [unfold pb_ok; cbn; lia|]. rewrite firstn_all2, drop_ge by lia. done. }
  assert (Hd : pb_ok PBuf_default) by (unfold pb_ok; cbn; lia).
  destruct (Z.ltb_spec (Z.of_nat len) (Z.of_nat (length (pb_bytes b)) - Z.of_nat len)) as [Hs|Hs].
  - destruct (pb_advance_bytes b len Hb Hlen) as [Ha Hab].
    rewrite pb_remaining_bytes, Hab by done. unfold zlen. rewrite Nat2Z.id.
    set (rem := length (drop len (pb_bytes b))).
    destruct (2 * rem <? pb_pos (pb_advance b len))%nat.
    + eexists _, _. split; [done|].
      assert (Htake : take rem (drop (pb_pos (pb_advance b len)) (pb_data (pb_advance b len))) =
        drop len (pb_bytes b)).
      { change (drop (pb_pos (pb_advance b len)) (pb_data (pb_advance b len))) with
          (pb_bytes (pb_advance b len)). rewrite Hab. unfold rem. by rewrite firstn_all. }
      rewrite Htake. set (data := drop len (pb_bytes b) ++ _).
      destruct (pb_resize_bytes (MkPBuf data 0) rem) as [Hr1 Hr2];
        [unfold pb_ok; cbn; lia|change (pb_bytes (MkPBuf data 0)) with data; unfold data;
          rewrite length_app; fold rem; lia|].
      split; [done|]. split; [done|]. rewrite Hr2. change (pb_bytes (MkPBuf data 0)) with data.
      unfold data, rem. by rewrite take_app_length.
    + eexists _, _. split; [done|]. split; [done|]. split; [done|exact Hab].
  - eexists _, _. split; [done|]. destruct (pb_resize_bytes b len Hb Hlen) as [Hr1 Hr2].
    split; [unfold pb_ok; cbn; lia|]. split; [exact Hr2|done].
Qed.

(** ** The stream *)

Section Stream.
Context {K : K5Ctx} {KO : K5CtxOk K}.

(** The header of a chunk *)
Lemma header_spec (enc : bool) (c : str) :
  zlen c ≤ LEN_MASK →
  let hdr := be_int (be_bytes 4 (if enc then Z.lor (wrap 32 (zlen c)) ENC_MASK else wrap 32 (zlen c))) in
  (LEN_MASK <? hdr) = enc ∧ Z.to_nat (if enc then Z.land hdr LEN_MASK else hdr) = length c.
Proof.
  intros Hc. pose proof (zlen_nonneg c) as H0. unfold LEN_MASK in *. cbv zeta. rewrite be_int_bytes.
  assert (Hw : wrap 32 (zlen c) = zlen c) by (apply wrap_small; unfold in_u; lia). rewrite Hw.
  destruct enc.
  - assert (Hl : Z.lor (zlen c) ENC_MASK = zlen c + 1 * 2 ^ 31) by (apply (lor_shiftl_add _ 1 31); lia).
    rewrite Hl, wrap_small by (unfold in_u; lia). split; [apply Z.ltb_lt; lia|].
    change 0x7FFFFFFF with (Z.ones 31). rewrite Z.land_ones, Z.mod_add, Z.mod_small by lia.
    unfold zlen. lia.
  - rewrite wrap_small by (unfold in_u; lia). split; [apply Z.ltb_ge; lia|]. unfold zlen. lia.
Qed.

(** The number of wrapped messages after [k] more chunks *)
Definition ahead (ctx : bool) (n k : nat) : nat := if ctx then (n + k)%nat else n.
Lemma ahead_0 ctx n : ahead ctx n 0 = n.
Proof. destruct ctx; [apply Nat.add_0_r|done]. Qed.
Lemma ahead_S ctx n k : ahead ctx (ahead ctx n 1) k = ahead ctx n (S k).
Proof. destruct ctx; [cbn; lia|done]. Qed.

(** A chunk on the wire *)
Definition on_wire (ctx : bool) (n : nat) (c p : str) : Prop :=
  if ctx then k5_wrap n c = Some p else p = c.
Lemma flush_task_cons ctx n c cs bytes :
  flush_task ctx n (c :: cs) = Some bytes →
  ∃ p rest, on_wire ctx n c p ∧ bytes = flush_buf p ctx ++ rest ∧ flush_task ctx (ahead ctx n 1) cs = Some rest.
Proof.
  cbn [flush_task]. unfold on_wire, ahead. rewrite Nat.add_1_r. destruct ctx.
  - destruct (k5_wrap n c) as [p|]; [|done]. destruct (flush_task true (S n) cs) as [rest|]; [|done].
    intros [= <-]. eauto.
  - destruct (flush_task false n cs) as [rest|]; [|done]. intros [= <-]. eauto.
Qed.

Lemma on_wire_len ctx n c p : zlen c ≤ MAX_BATCH → on_wire ctx n c p → zlen p ≤ LEN_MASK.
Proof.
  unfold on_wire. destruct ctx; [intros Hc Hw; by eapply k5_short|].
  intros Hc ->. unfold MAX_BATCH, LEN_MASK in *. lia.
Qed.

Lemma read_frames_spec fuel ctx n b cs t bytes :
  pb_ok b → Forall (fun c => zlen c ≤ MAX_BATCH) cs → flush_task ctx n cs = Some bytes →
  pb_bytes b ++ t = bytes → (length (pb_bytes b) < fuel)%nat →
  ∃ k b' rest, read_frames fuel ctx n b = (take k cs, Ok (), b', ahead ctx n k) ∧ pb_ok b' ∧
    (k ≤ length cs)%nat ∧ flush_task ctx (ahead ctx n k) (drop k cs) = Some rest ∧ pb_bytes b' ++ t = rest ∧
    (t = [] → k = length cs).
Proof.
  revert n b cs bytes; induction fuel as [|fuel IH]; intros n b cs bytes Hb Hcs Hw Heq Hf; [lia|].
  cbn [read_frames]. rewrite pb_remaining_bytes by done.
  assert (Hstop : (t = [] → cs = []) → ∃ k b' rest, ([] : list str, @Ok ChanError unit (), b, n) =
    (take k cs, Ok (), b', ahead ctx n k) ∧ pb_ok b' ∧ (k ≤ length cs)%nat ∧
    flush_task ctx (ahead ctx n k) (drop k cs) = Some rest ∧ pb_bytes b' ++ t = rest ∧
    (t = [] → k = length cs)).
  { intros Ht. exists O, b, bytes. rewrite ahead_0. split_and!; try done; [lia|].
    intros H. by rewrite (Ht H). }
  destruct (Z.ltb_spec (zlen (pb_bytes b)) 4) as [Hshort|Hlong].
  { apply Hstop. intros ->. rewrite app_nil_r in Heq. destruct cs as [|c cs]; [done|].
    apply flush_task_cons in Hw as (p & rest & _ & -> & _). exfalso.
    rewrite Heq in Hshort. unfold flush_buf in Hshort.
    rewrite !zlen_app, be_bytes_zlen in Hshort. pose proof (zlen_nonneg p). pose proof (zlen_nonneg rest). lia. }
  destruct cs as [|c cs].
  { injection Hw as <-. apply app_nil in Heq as [He _]. rewrite He in Hlong. cbn in Hlong. done. }
  apply flush_task_cons in Hw as (p & rest & Hp & -> & Hrest). apply Forall_cons in Hcs as [Hc Hcs].
  pose proof (on_wire_len ctx n c p Hc Hp) as Hpl.
  destruct (header_spec ctx p Hpl) as [Henc Hlen]. cbv zeta in Henc, Hlen.
  assert (Htake : take 4 (pb_bytes b) =
    be_bytes 4 (if ctx then Z.lor (wrap 32 (zlen p)) ENC_MASK else wrap 32 (zlen p))).
  { apply (f_equal (take 4)) in Heq. unfold zlen in Hlong. rewrite take_app_le in Heq by lia.
    rewrite Heq. unfold flush_buf. rewrite <- app_assoc, take_app_le by (by rewrite be_bytes_length).
    apply firstn_all2. by rewrite be_bytes_length. }
  rewrite Htake, Henc. cbv zeta.
  assert (Hfull : drop 4 (pb_bytes b) ++ t = p ++ rest).
  { apply (f_equal (drop 4)) in Heq. unfold zlen in Hlong. rewrite drop_app_le in Heq by lia.
    rewrite Heq. unfold flush_buf. rewrite <- app_assoc. apply drop_app_length'. by rewrite be_bytes_length. }
  replace (Z.of_nat (Z.to_nat (if ctx then Z.land _ LEN_MASK else _))) with (zlen p)
    by (rewrite Hlen; done).
  assert (Hd4 : (length (drop 4 (pb_bytes b)) = length (pb_bytes b) - 4)%nat) by (by rewrite length_drop).
  destruct (Z.ltb_spec (zlen (pb_bytes b) - 4) (zlen p)) as [Hpart|Hwhole].
  { apply Hstop. intros ->. exfalso. rewrite app_nil_r in Hfull. apply (f_equal length) in Hfull.
    rewrite length_app in Hfull. unfold zlen in *. lia. }
  destruct (pb_advance_bytes b 4 Hb) as [Ha Hab]; [unfold zlen in Hlong; lia|].
  destruct (split_to_spec (pb_advance b 4) (length p) Ha) as (ck & b2 & Hsp & Hb2 & Hck & Hrem).
  { rewrite Hab. unfold zlen in *. lia. }
  assert (Hckp : pb_bytes ck = p ∧ pb_bytes b2 ++ t = rest).
  { rewrite Hck, Hrem, Hab. apply app_inj_1; [|].
    - rewrite length_take. unfold zlen in *. lia.
    - rewrite app_assoc, take_drop. exact Hfull. }
  destruct Hckp as [Hckp Hb2t].
  destruct (IH (ahead ctx n 1) b2 cs rest Hb2 Hcs Hrest Hb2t)
    as (k & b' & rest' & Hrun & Hb' & Hk & Hw' & Hbt & Hend).
  { rewrite Hrem, Hab, length_drop. unfold zlen in *. lia. }
  rewrite ahead_S in Hrun, Hw'.
  exists (S k), b', rest'. rewrite Hlen, Hsp. cbn [take drop]. split; [|split_and!; try done; [cbn; lia|]].
  - unfold on_wire in Hp. destruct ctx; cbn [negb].
    + rewrite Hckp, (k5_inverse _ _ _ Hp). cbn [ahead] in Hrun. rewrite Nat.add_1_r in Hrun. by rewrite Hrun.
    + cbn [ahead] in Hrun. rewrite Hrun, Hckp. by subst p.
  - intros Ht. cbn. by rewrite Hend.
Qed.

Lemma read_task_spec ctx n b cs segs bytes :
  pb_ok b → Forall (fun c => zlen c ≤ MAX_BATCH) cs → flush_task ctx n cs = Some bytes →
  Forall (.≠ []) segs → pb_bytes b ++ concat segs = bytes →
  ∃ b', read_task ctx n b segs = (cs, Ok (), b') ∧ pb_bytes b' = [].
Proof.
  intros Hb Hcs Hw Hs. revert n b cs bytes Hb Hcs Hw;
    induction Hs as [|seg segs Hseg _ IH]; intros n b cs bytes Hb Hcs Hw Heq; cbn [read_task];
    destruct (read_frames_spec (S (Z.to_nat (pb_remaining b))) ctx n b cs _ bytes Hb Hcs Hw Heq)
      as (k & b' & rest & -> & Hb' & Hk & Hw' & Hbt & Hend);
    try (rewrite pb_remaining_bytes by done; unfold zlen; lia).
  - rewrite (Hend eq_refl) in *. rewrite drop_all in Hw'. injection Hw' as <-. cbn in Hbt.
    rewrite app_nil_r in Hbt. exists b'. by rewrite firstn_all.
  - destruct (pb_extend_bytes b' seg Hb') as [He1 He2]. cbn [concat] in Hbt.
    destruct (IH (ahead ctx n k) (pb_extend b' seg) (drop k cs) rest He1) as (b2 & Hrun & Hnil);
      [by apply Forall_drop|done|by rewrite He2, <- app_assoc|].
    rewrite Hrun. exists b2. destruct seg; [done|]. by rewrite take_drop.
Qed.

(** On any bytes at all the reader ends without a panic, and keeps a good buffer. *)
Lemma read_frames_total fuel ctx n b :
  pb_ok b → (length (pb_bytes b) < fuel)%nat →
  let '(_, r, b', _) := read_frames fuel ctx n b in r ≠ Panic ∧ pb_ok b'.
Proof.
  revert n b; induction fuel as [|fuel IH]; intros n b Hb Hf; [lia|]. cbn [read_frames].
  rewrite pb_remaining_bytes by done. destruct (Z.ltb_spec (zlen (pb_bytes b)) 4) as [?|Hlong]; [done|].
  cbv zeta. set (hdr := be_int _). set (len := Z.to_nat _).
  destruct (Z.ltb_spec (zlen (pb_bytes b) - 4) (Z.of_nat len)) as [?|Hwhole]; [done|].
  destruct (pb_advance_bytes b 4 Hb) as [Ha Hab]; [unfold zlen in Hlong; lia|].
  destruct (split_to_spec (pb_advance b 4) len Ha) as (ck & b2 & Hsp & Hb2 & Hck & Hrem).
  { rewrite Hab, length_drop. unfold zlen in *. lia. }
  assert (Hf2 : (length (pb_bytes b2) < fuel)%nat)
    by (rewrite Hrem, Hab, !length_drop; unfold zlen in *; lia).
  rewrite Hsp. destruct (LEN_MASK <? hdr), ctx; cbn [negb]; try done.
  - destruct (k5_unwrap n (pb_bytes ck)) as [d|]; [|done]. specialize (IH (S n) b2 Hb2 Hf2).
    by destruct (read_frames fuel true (S n) b2) as [[[out r] b'] n'].
  - specialize (IH n b2 Hb2 Hf2). by destruct (read_frames fuel false n b2) as [[[out r] b'] n'].
Qed.

Lemma read_task_total ctx n b segs :
  pb_ok b → let '(_, r, b') := read_task ctx n b segs in r ≠ Panic ∧ pb_ok b'.
Proof.
  revert n b; induction segs as [|seg segs IH]; intros n b Hb; cbn [read_task];
    pose proof (read_frames_total (S (Z.to_nat (pb_remaining b))) ctx n b Hb) as H;
    destruct (read_frames _ ctx n b) as [[[out r] b'] n'];
    (destruct H as [Hr Hb']; [rewrite pb_remaining_bytes by done; unfold zlen; lia|]);
    destruct r as [[]|e|]; try done.
  destruct seg as [|c seg]; [done|].
  destruct (pb_extend_bytes b' (c :: seg) Hb') as [He _]. specialize (IH n' _ He).
  by destruct (read_task ctx n' _ segs) as [[more r] b2].
Qed.
End Stream.

(** ** Receiving *)

Section Receive.
Context {A : Type} (P : Pack A) (wf : A → Prop) `{!PackOk P wf}.
Abbreviation ok := (sendable P wf).
Abbreviation bytes := (bytes_of P).

Lemma batch_bytes ms : Forall ok ms → (length ms ≤ length (concat (bytes <$> ms)))%nat.
Proof.
  induction 1 as [|m ms Hm _ IH]; [done|]. cbn. rewrite length_app.
  destruct (sendable_encode P wf m Hm) as (_ & Hl & _). destruct Hm as [_ Hlen].
  unfold zlen in Hl. lia.
Qed.

Lemma drain_batch_spec fuel ms rest :
  Forall ok ms → zlen (concat (bytes <$> ms)) < MAX_BUF → (length ms < fuel)%nat →
  drain_batch fuel P (MkReadChannel (concat (bytes <$> ms)) rest) = (ms, Ok (), MkReadChannel [] rest).
Proof.
  intros Hms. revert fuel; induction Hms as [|m ms Hm _ IH]; intros fuel Hl Hf;
    (destruct fuel as [|fuel]; [cbn in Hf; lia|]); cbn [drain_batch rc_buf]; [done|].
  destruct (sendable_encode P wf m Hm) as (_ & Hz & Hd). cbn [fmap list_fmap concat] in Hl |- *.
  rewrite Hd by done. destruct (bytes m ++ concat (bytes <$> ms)) as [|c l] eqn:E.
  { apply app_nil in E as [E _]. rewrite E in Hz. destruct Hm as [_ Hm]. rewrite zlen_nil in Hz. lia. }
  cbn [incoming]. rewrite IH; [done| |cbn in Hf; lia].
  rewrite <- E, zlen_app in Hl. pose proof (zlen_nonneg (bytes m)). lia.
Qed.

Lemma receive_batch_spec ms rest batch :
  Forall ok ms → ms ≠ [] → zlen (concat (bytes <$> ms)) ≤ MAX_BATCH →
  receive_batch P (MkReadChannel [] (concat (bytes <$> ms) :: rest)) batch =
    (batch ++ ms, Ok (), MkReadChannel [] rest).
Proof.
  intros Hms Hne Hl. assert (Hl' : zlen (concat (bytes <$> ms)) < MAX_BUF)
    by (unfold MAX_BATCH, MAX_BUF in *; lia).
  destruct ms as [|m ms]; [done|]. apply Forall_cons in Hms as [Hm Hms].
  destruct (sendable_encode P wf m Hm) as (_ & _ & Hd).
  unfold receive_batch, receive, fill_buffer. cbn [rc_buf incoming].
  cbn [fmap list_fmap concat] in Hl' |- *. rewrite Hd by done. cbn [pack_err].
  rewrite zlen_app in Hl'. pose proof (zlen_nonneg (bytes m)).
  cbn [rc_buf]. rewrite drain_batch_spec; [done|done|lia|].
  pose proof (batch_bytes ms Hms). lia.
Qed.

(** [receive_batch] again and again, a new vector each time *)
Fixpoint receive_batches (k : nat) (rc : ReadChannel) : res ChanError (list (list A)) * ReadChannel :=
  match k with
  | O => (Ok [], rc)
  | S k =>
      match receive_batch P rc [] with
      | (ms, Ok _, rc) => let '(r, rc) := receive_batches k rc in (res_map (cons ms) r, rc)
      | (_, r, rc) => (res_map (fun _ => []) r, rc)
      end
  end.

Lemma group_messages gs ms :
  concat gs = bytes <$> ms →
  ∃ mss : list (list A), gs = (fun l : list A => bytes <$> l) <$> mss ∧ concat mss = ms.
Proof.
  revert ms; induction gs as [|g gs IH]; intros ms; cbn.
  { intros He. symmetry in He. apply fmap_nil_inv in He as ->. by exists []. }
  intros He. symmetry in He. apply fmap_app_inv in He as (m1 & m2 & -> & Hgs & ->).
  destruct (IH m2 Hgs) as (mss & -> & <-). by exists (m1 :: mss).
Qed.

Lemma receive_batches_spec (mss : list (list A)) :
  Forall (fun ms => ms ≠ [] ∧ Forall ok ms ∧ zlen (concat (bytes <$> ms)) ≤ MAX_BATCH) mss →
  receive_batches (length mss) (MkReadChannel [] ((fun ms => concat (bytes <$> ms)) <$> mss)) =
    (Ok mss, MkReadChannel [] []).
Proof.
  induction 1 as [|ms mss (Hne & Hok & Hl) _ IH]; [done|]. cbn [length receive_batches fmap list_fmap].
  rewrite receive_batch_spec by done. cbn [app]. by rewrite IH.
Qed.
End Receive.
