(* ===== verification/ChannelClaims.v ===== *)
(** What channels promise: queued messages arrive, in order and in batches, whatever
    the room in the queues and the segmentation of the stream; flushing ends; the
    reader withstands any bytes; and single messages of the handshake round trip. *)
From Stdlib Require Import ZArith Lia.
From stdpp Require Import base list strings.
From Stdlib Require Import Strings.Byte.
From S2P Require Import Prelude Varint Pack Containers Path Proto Channel ChannelFacts.

(** A context that marks the messages with a counter *)
Definition counter_k5 : K5Ctx := {|
  k5_wrap n d := Some (Zb (Z.of_nat n mod 256) :: d);
  k5_unwrap n m := match m with
    | t :: d => if Byte.eqb t (Zb (Z.of_nat n mod 256)) then Some d else None
    | [] => None
    end
|}.
#[export] Instance counter_k5_ok : K5CtxOk counter_k5.
Proof.
  split.
  - intros n d m [= <-]. cbn. assert (Hb : ∀ b, Byte.eqb b b = true) by (intros []; reflexivity).
    by rewrite Hb.
  - intros n d m Hd [= <-]. unfold zlen, MAX_BATCH, LEN_MASK in *. cbn [length]. lia.
Qed.

Section Delivery.
Context {A : Type} {P : Pack A} {wf : A → Prop} `{!PackOk P wf} {K : K5Ctx} {KO : K5CtxOk K}.

Lemma queued msgs : Forall (sendable P wf) msgs →
  ∃ w gs, queue_all P WriteChannel_new msgs = (Ok (), w) ∧ holds w gs ∧ concat gs = bytes_of P <$> msgs.
Proof.
  intros Hm. destruct (queue_all_spec P wf _ [] msgs holds_new Hm) as (w & gs & Hq & Hw & Hc).
  by exists w, gs.
Qed.

Lemma chunk_sizes w gs : holds w gs → Forall (fun c => 0 < zlen c ≤ MAX_BATCH) (cat <$> gs).
Proof.
  intros Hw. apply Forall_fmap. eapply Forall_impl; [apply (ho_groups _ _ Hw)|].
  intros g (Hne & Hb & Hl). cbn. split; [|done]. destruct g as [|b g]; [done|].
  apply Forall_cons in Hb as [Hb _]. destruct b; [done|]. cbn. unfold zlen. cbn. lia.
Qed.

Lemma concat_chunks gs : concat (cat <$> gs) = concat (concat gs).
Proof. induction gs as [|g gs IH]; [done|]. cbn. by rewrite concat_app, IH. Qed.

Lemma group_count w gs : holds w gs → (length gs ≤ length (concat gs))%nat.
Proof.
  intros Hw. pose proof (ho_groups _ _ Hw) as Hg. clear Hw.
  induction Hg as [|g gs (Hne & _) _ IH]; [done|]. cbn. rewrite length_app. destruct g; [done|]. cbn. lia.
Qed.

(** C22: Messages queued on a new channel and flushed completely, however much room
    each try finds, are read back whatever the stream was cut into, with or without
    encryption: the read task passes on exactly the chunks that were flushed, nothing
    stays behind, and receiving batches gives the messages in order. *)
Theorem channel_delivers msgs w rounds sent w' ctx n bytes segs :
  Forall (sendable P wf) msgs → queue_all P WriteChannel_new msgs = (Ok (), w) →
  flush rounds w = (sent, Ok true, w') → flush_task ctx n sent = Some bytes →
  Forall (.≠ []) segs → concat segs = bytes →
  ∃ b mss, read_task ctx n PBuf_default segs = (sent, Ok (), b) ∧ pb_bytes b = [] ∧
    receive_batches P (length sent) (MkReadChannel [] sent) = (Ok mss, MkReadChannel [] []) ∧
    concat mss = msgs ∧ Forall (.≠ []) mss.
Proof.
  intros Hm Hq Hfl Hwire Hsegs Hcat.
  destruct (queued msgs Hm) as (w0 & gs & Hq' & Hw & Hc). rewrite Hq in Hq'. injection Hq' as <-.
  pose proof (flush_spec rounds w gs Hw) as H. rewrite Hfl in H. destruct H as (k & -> & _ & _ & Hk & _).
  rewrite (Hk eq_refl), firstn_all in *. destruct (group_messages P gs msgs Hc) as (mss & -> & Hmss).
  assert (Hsz : Forall (fun c => zlen c ≤ MAX_BATCH) (cat <$> ((fun l => bytes_of P <$> l) <$> mss)))
    by (eapply Forall_impl; [by eapply chunk_sizes|]; cbn; lia).
  assert (Hpb : pb_ok PBuf_default) by (unfold pb_ok; cbn; lia).
  destruct (read_task_spec ctx n PBuf_default _ segs bytes Hpb Hsz Hwire Hsegs Hcat) as (b & Hread & Hb).
  exists b, mss. split; [done|]. split; [done|].
  assert (Hgood : Forall (fun ms => ms ≠ [] ∧ Forall (sendable P wf) ms ∧
    zlen (concat (bytes_of P <$> ms)) ≤ MAX_BATCH) mss).
  { pose proof (ho_groups _ _ Hw) as Hg. apply Forall_fmap in Hg. apply Forall_forall. intros ms Hin.
    rewrite Forall_forall in Hg. destruct (Hg ms Hin) as (Hne & _ & Hl). split; [by intros ->|].
    split; [|done]. apply Forall_forall. intros m Hmm. rewrite Forall_forall in Hm. apply Hm.
    rewrite <- Hmss. apply list_elem_of_In, in_concat. exists ms. by rewrite <- !list_elem_of_In. }
  rewrite <- list_fmap_compose, length_fmap. split; [by apply (receive_batches_spec P wf)|].
  split; [done|]. eapply Forall_impl; [exact Hgood|]. by intros ms [? _].
Qed.

(** Queueing never fails for messages within the size limit, no chunk sent is empty
    or larger than [MAX_BATCH], and [flush] ends once every turn finds room for a
    chunk: after at most one turn more than there are messages everything is sent. *)
Theorem flush_completes msgs rounds :
  Forall (sendable P wf) msgs →
  Forall (fun s => head (s.1) = Some Accepts ∧ (Closed ∉ s.1) ∧ s.2 = true) rounds →
  (length msgs < length rounds)%nat →
  ∃ w sent, queue_all P WriteChannel_new msgs = (Ok (), w) ∧
    flush rounds w = (sent, Ok true, WriteChannel_new) ∧
    Forall (fun c => 0 < zlen c ≤ MAX_BATCH) sent ∧ concat sent = concat (bytes_of P <$> msgs).
Proof.
  intros Hm Hr Hlen. destruct (queued msgs Hm) as (w & gs & Hq & Hw & Hc).
  pose proof (group_count w gs Hw) as Hg. rewrite Hc, length_fmap in Hg.
  pose proof (flush_spec rounds w gs Hw) as H. destruct (flush rounds w) as [[sent r] w'] eqn:Hfl.
  destruct H as (k & -> & Hk & H). rewrite Forall_forall in Hr. destruct r as [b|e|]; [| |done].
  - destruct H as (Hw' & Hb & Hrun). assert (b = true) as ->.
    { apply Hrun; [|lia]. apply Forall_forall. intros s Hs. by apply Hr. }
    rewrite (Hb eq_refl), drop_all in Hw'. rewrite (Hb eq_refl), firstn_all in Hfl.
    exists w, (cat <$> gs). split; [done|]. rewrite Hfl.
    split; [|split; [by eapply chunk_sizes|by rewrite <- Hc, concat_chunks]].
    destruct w' as [buf bs]. destruct Hw' as [Hbuf Hbs _]. cbn in Hbuf, Hbs. by subst.
  - destruct H as (_ & s & Hs & [Hcl|Hrd]); destruct (Hr s Hs) as (_ & Hno & Hy); [done|congruence].
Qed.
End Delivery.

(** C37: Whatever bytes arrive and however they are cut, the read task ends without a
    panic (it waits for more, or fails with an error), with or without encryption. *)
Theorem read_task_withstands {K : K5Ctx} ctx n segs :
  let '(_, r, _) := read_task ctx n PBuf_default segs in r ≠ Panic.
Proof.
  assert (Hb : pb_ok PBuf_default) by (unfold pb_ok; cbn; lia).
  pose proof (read_task_total ctx n PBuf_default segs Hb) as H.
  destruct (read_task ctx n PBuf_default segs) as [[out r] b]. apply H.
Qed.

(** A message that [write_raw] accepts is what [read_raw] returns, when it fits the
    reader's buffer, and the bytes behind it stay in the socket; a larger one is
    refused before it is decoded. *)
Theorem raw_roundtrip {A} (P : Pack A) (wf : A → Prop) `{!PackOk P wf} m max rest :
  sendable P wf m → 4 ≤ max →
  ∃ frame, write_raw P m = Ok frame ∧
    read_raw P max (frame ++ rest) =
      if encoded_len P m <=? max then (Ok m, rest) else (Err TooBig, bytes_of P m ++ rest).
Proof.
  intros Hm Hmax. destruct (sendable_encode P wf m Hm) as (He & Hl & Hd). destruct Hm as [_ Hlen].
  unfold write_raw. destruct (Z.ltb_spec MAX_BATCH (encoded_len P m)) as [?|_]; [lia|]. rewrite He.
  eexists. split; [done|]. unfold read_raw. destruct (Z.ltb_spec max 4) as [?|_]; [lia|].
  rewrite <- app_assoc.
  assert (H4 : length (be_bytes 4 (wrap 32 (zlen (bytes_of P m)))) = 4%nat) by apply be_bytes_length.
  rewrite (take_app_length' _ _ 4), (drop_app_length' _ _ 4), be_int_bytes by done.
  rewrite !zlen_app. unfold zlen at 1. rewrite H4.
  pose proof (zlen_nonneg (bytes_of P m)) as Hn0. pose proof (zlen_nonneg rest) as Hr0.
  destruct (Z.ltb_spec (Z.of_nat 4 + (zlen (bytes_of P m) + zlen rest)) 4) as [?|_]; [lia|].
  assert (Hin : in_u 32 (zlen (bytes_of P m))) by (unfold in_u; unfold MAX_BATCH in *; lia).
  rewrite !wrap_small by (try rewrite wrap_small by done; done). rewrite Hl in *.
  destruct (Z.ltb_spec LEN_MASK (encoded_len P m)) as [?|_]; [unfold MAX_BATCH, LEN_MASK in *; lia|].
  destruct (Z.leb_spec (encoded_len P m) max) as [Hle|Hgt], (Z.ltb_spec max (encoded_len P m));
    try lia; [|done].
  destruct (Z.ltb_spec (encoded_len P m + zlen rest) (encoded_len P m)) as [?|_]; [lia|].
  assert (Hto : Z.to_nat (encoded_len P m) = length (bytes_of P m)) by (rewrite <- Hl; unfold zlen; lia).
  rewrite Hto, take_app_length, drop_app_length.
  specialize (Hd []). rewrite app_nil_r in Hd. rewrite Hd; [done|]. rewrite Hl. unfold MAX_BATCH, MAX_BUF in *. lia.
Qed.

(** ** Witnesses *)

(** What a publisher might send: two writes around a heartbeat *)
Definition example_msgs : list ToWrite := [Publish (lit "/a/b"); Heartbeat; Clear].
Definition example_pack : Pack ToWrite := ToWrite_pack (ES := escaping_ref) (LY := demo_layout).
Definition example_rounds : list (list slot * bool) := replicate 4 ([Accepts; Full], true).
Definition example_channel : WriteChannel := (queue_all example_pack WriteChannel_new example_msgs).2.
Definition example_sent : list str := (flush example_rounds example_channel).1.1.
Definition example_bytes : str := default [] (flush_task (K := counter_k5) true 7 example_sent).
Definition example_segs : list str := [take 3 example_bytes; take 6 (drop 3 example_bytes); drop 9 example_bytes].

Lemma example_sendable : Forall (sendable example_pack (ToWrite_wf (ES := escaping_ref))) example_msgs.
Proof. repeat (apply List.Forall_cons; [split; vm_compute; intuition congruence|]). apply List.Forall_nil. Qed.

Lemma channel_delivers_witness :
  ∃ b mss, read_task (K := counter_k5) true 7 PBuf_default example_segs = (example_sent, Ok (), b) ∧
    pb_bytes b = [] ∧
    receive_batches example_pack (length example_sent) (MkReadChannel [] example_sent) =
      (Ok mss, MkReadChannel [] []) ∧
    concat mss = example_msgs ∧ Forall (.≠ []) mss.
Proof.
  apply (channel_delivers (P := example_pack) (wf := (ToWrite_wf (ES := escaping_ref))) (K := counter_k5) example_msgs example_channel
    example_rounds example_sent WriteChannel_new true 7 example_bytes).
  - exact example_sendable.
  - vm_compute. reflexivity.
  - vm_compute. reflexivity.
  - vm_compute. reflexivity.
  - vm_compute. repeat (apply List.Forall_cons; [discriminate|]). apply List.Forall_nil.
  - vm_compute. reflexivity.
Defined.

Lemma flush_completes_witness :
  ∃ w sent, queue_all example_pack WriteChannel_new example_msgs = (Ok (), w) ∧
    flush example_rounds w = (sent, Ok true, WriteChannel_new) ∧
    Forall (fun c => 0 < zlen c ≤ MAX_BATCH) sent ∧
    concat sent = concat (bytes_of example_pack <$> example_msgs).
Proof.
  apply (flush_completes (P := example_pack) (wf := (ToWrite_wf (ES := escaping_ref))) example_msgs example_rounds).
  - exact example_sendable.
  - repeat (apply List.Forall_cons; [split; [reflexivity|split; [|reflexivity]]|]); [..|apply List.Forall_nil];
      cbn; rewrite !elem_of_cons, elem_of_nil; intuition congruence.
  - cbn. lia.
Defined.

Lemma raw_roundtrip_witness :
  ∃ frame, write_raw example_pack (Publish (lit "/a/b")) = Ok frame ∧
    read_raw example_pack 8192 (frame ++ lit "xyz") = (Ok (Publish (lit "/a/b")), lit "xyz").
Proof.
  pose proof (Forall_inv example_sendable) as Hs.
  exact (raw_roundtrip example_pack (ToWrite_wf (ES := escaping_ref)) (Publish (lit "/a/b")) 8192 (lit "xyz") Hs ltac:(lia)).
Defined.
