(* ===== verification/Float.v ===== *)
(** The floating point numbers of Rust. An [f32] or [f64] is its bit pattern; the
    operations decode it to the [spec_float] of the Standard Library, compute with
    correct rounding and encode the result. A NaN result is the quiet NaN (Rust
    leaves its sign and payload open). *)
From Stdlib Require Import ZArith Lia.
From stdpp Require Import base list.
From Stdlib Require Import Floats.SpecFloat.
From S2P Require Import Prelude.

(** A format: bits of the fraction and of the exponent *)
Record format := Format { mant_bits : Z; exp_bits : Z }.
Definition binary32 : format := Format 23 8.
Definition binary64 : format := Format 52 11.

Section Ops.
Context (F : format).
Abbreviation mw := (mant_bits F).
Abbreviation ew := (exp_bits F).

Definition prec : Z := mw + 1.
Definition emax : Z := 2 ^ (ew - 1).
(** The magnitude of the infinities; larger ones are NaNs. *)
Definition inf_mag : Z := (2 ^ ew - 1) * 2 ^ mw.

Definition f_sign (x : Z) : bool := Z.testbit x (mw + ew).
Definition f_mag (x : Z) : Z := x mod 2 ^ (mw + ew).
Definition f_bits (s : bool) (mag : Z) : Z := if s then 2 ^ (mw + ew) + mag else mag.
Definition f_nan : Z := inf_mag + 2 ^ (mw - 1).

Definition is_nan (x : Z) : bool := inf_mag <? f_mag x.
Definition is_zero (x : Z) : bool := f_mag x =? 0.

Definition to_sf (x : Z) : spec_float :=
  let m := f_mag x mod 2 ^ mw in
  let e := f_mag x / 2 ^ mw in
  if is_nan x then S754_nan
  else if f_mag x =? inf_mag then S754_infinity (f_sign x)
  else if e =? 0 then
    match m with
    | Zpos p => S754_finite (f_sign x) p (emin prec emax)
    | _ => S754_zero (f_sign x)
    end
  else
    match m + 2 ^ mw with
    | Zpos p => S754_finite (f_sign x) p (e - 1 + emin prec emax)
    | _ => S754_nan
    end.

Definition of_sf (x : spec_float) : Z :=
  match x with
  | S754_nan => f_nan
  | S754_zero s => f_bits s 0
  | S754_infinity s => f_bits s inf_mag
  | S754_finite s p e =>
      if Zpos p <? 2 ^ mw then f_bits s (Zpos p)
      else f_bits s ((e - emin prec emax + 1) * 2 ^ mw + (Zpos p - 2 ^ mw))
  end.

Definition f_add (x y : Z) : Z := of_sf (SFadd prec emax (to_sf x) (to_sf y)).
Definition f_sub (x y : Z) : Z := of_sf (SFsub prec emax (to_sf x) (to_sf y)).
Definition f_mul (x y : Z) : Z := of_sf (SFmul prec emax (to_sf x) (to_sf y)).
Definition f_div (x y : Z) : Z := of_sf (SFdiv prec emax (to_sf x) (to_sf y)).
Definition f_abs (x : Z) : Z := f_mag x.

(** [%]: the exact remainder of the division truncated towards zero *)
Definition f_rem (x y : Z) : Z :=
  match to_sf x, to_sf y with
  | S754_nan, _ | _, S754_nan | S754_infinity _, _ | _, S754_zero _ => f_nan
  | S754_zero _, _ | _, S754_infinity _ => x
  | S754_finite s m1 e1, S754_finite _ m2 e2 =>
      let e := Z.min e1 e2 in
      let r := (Zpos m1 * 2 ^ (e1 - e)) mod (Zpos m2 * 2 ^ (e2 - e)) in
      of_sf (binary_normalize prec emax (if s then - r else r) e s)
  end.

(** [z as f] *)
Definition f_of_int (z : Z) : Z := of_sf (binary_normalize prec emax z 0 false).

(** The integer part of a finite float *)
Definition f_trunc (x : Z) : option Z :=
  match to_sf x with
  | S754_zero _ => Some 0
  | S754_finite s m e =>
      let a := if 0 <=? e then Zpos m * 2 ^ e else Zpos m / 2 ^ (- e) in
      Some (if s then - a else a)
  | _ => None
  end.
(** [x as i]: saturates, a NaN gives 0 *)
Definition f_to_int (lo hi : Z) (x : Z) : Z :=
  match f_trunc x with
  | Some z => Z.max lo (Z.min hi z)
  | None => if is_nan x then 0 else if f_sign x then lo else hi
  end.

(** Floats other than NaN are ordered by sign and magnitude; the zeros are equal. *)
Definition f_key (x : Z) : Z := if f_sign x then - f_mag x else f_mag x.
Definition f_eq (x y : Z) : bool := negb (is_nan x) && negb (is_nan y) && (f_key x =? f_key y).
Definition f_le (x y : Z) : bool := negb (is_nan x) && negb (is_nan y) && (f_key x <=? f_key y).
Definition f_lt (x y : Z) : bool := negb (is_nan x) && negb (is_nan y) && (f_key x <? f_key y).
(** [partial_cmp] *)
Definition f_cmp (x y : Z) : option comparison :=
  if is_nan x || is_nan y then None else Some (f_key x ?= f_key y).
End Ops.

(** [x as g] between the formats *)
Definition f_convert (F G : format) (x : Z) : Z :=
  match to_sf F x with
  | S754_finite s m e => of_sf G (binary_round (prec G) (emax G) s m e)
  | sf => of_sf G sf
  end.

(** The bits below the sign *)
Lemma f_mag_range F x : 0 < mant_bits F → 0 < exp_bits F → 0 ≤ f_mag F x < 2 ^ (mant_bits F + exp_bits F).
Proof. intros. apply Z.mod_pos_bound. apply Z.pow_pos_nonneg; lia. Qed.

Example f_sum : f_add binary64 (f_of_int binary64 3) (f_of_int binary64 4) = f_of_int binary64 7.
Proof. reflexivity. Qed.
Example f_tenth : f_div binary64 (f_of_int binary64 1) (f_of_int binary64 10) = 0x3FB999999999999A.
Proof. reflexivity. Qed.
Example f_third : f_div binary32 (f_of_int binary32 1) (f_of_int binary32 3) = 0x3EAAAAAB.
Proof. reflexivity. Qed.
Example f_narrow : f_convert binary64 binary32 0x3FB999999999999A = 0x3DCCCCCD.
Proof. reflexivity. Qed.
Example f_mod : f_rem binary64 (f_of_int binary64 (-7)) (f_of_int binary64 3) = f_of_int binary64 (-1).
Proof. reflexivity. Qed.
Example f_sat : f_to_int binary64 0 255 (f_of_int binary64 1000) = 255.
Proof. reflexivity. Qed.
Example f_subnormal : f_div binary32 0x00800000 (f_of_int binary32 2) = 0x00400000.
Proof. reflexivity. Qed.
