(* ===== verification/Value.v ===== *)
(** Values (netidx-value/src/lib.rs, typ.rs, pbuf.rs, abstract_type.rs and the Pack
    implementation of array.rs): the type of everything that can be published, its
    types and tags, the registry of user defined types and the wire format. The
    decimal, time and uuid crates, the types a program registers and the ordered map
    of the immutable-chunkmap crate are parameters. *)
From Stdlib Require Import ZArith Lia.
From stdpp Require Import base gmap list strings sorting.
From Stdlib Require Import Strings.Byte.
From S2P Require Import Prelude Varint Pack Containers PackTypes.

(** The types a program registers, their values erased to [Any]. A [TypeId] is a
    number. *)
Class AnyApi := {
  Any : Type;
  type_id : Any → Z;
  any_pack : Z → Pack Any;
  any_eq : Any → Any → bool;
  any_cmp : Any → Any → comparison;
  any_hash : Any → list Z
}.

(** Everything outside of the crate that a value can hold, and the size of a
    [Value] in memory *)
Class ValueApi := {
  va_decimal :: DecimalApi;
  va_time :: ChronoTime;
  va_uuid :: UuidApi;
  va_any :: AnyApi;
  value_size : Z;
  value_size_bound : 0 < value_size ≤ 256
}.

Section Values.
Context {VA : ValueApi}.

(** ** Abstract values *)

(** [Box<dyn Any>]: [UnknownAbstractType] or a value of a registered type *)
Inductive Boxed := UnknownAbstractType (b : str) | Registered (a : Any).

(** A vtable is that of its [TypeId]; [None] is [UnknownAbstractType]'s. *)
Definition box_tid (t : Boxed) : option Z :=
  match t with UnknownAbstractType _ => None | Registered a => Some (type_id a) end.

Record Abstract := MkAbstract { ab_id : Uuid; ab_vtable : option Z; ab_t : Boxed }.

(** ** The type of values *)

#[warnings="-register-all"] Inductive Value :=
| VU8 (v : Z) | VI8 (v : Z) | VU16 (v : Z) | VI16 (v : Z)
| VU32 (v : Z) | VV32 (v : Z) | VI32 (v : Z) | VZ32 (v : Z)
| VU64 (v : Z) | VV64 (v : Z) | VI64 (v : Z) | VZ64 (v : Z)
| VF32 (v : Z) | VF64 (v : Z) | VBool (b : bool) | VNull
| VString (s : str) | VBytes (b : str) | VError (e : Value)
| VArray (a : list Value) | VMap (m : list (Value * Value))
| VDecimal (d : Decimal) | VDateTime (d : DateTime) | VDuration (d : Duration)
| VAbstract (a : Abstract).

(** Induction over the elements of arrays and the entries of maps *)
Lemma Value_induction (Q : Value → Prop) :
  (∀ v, (∀ e, v ≠ VError e) → (∀ a, v ≠ VArray a) → (∀ m, v ≠ VMap m) → Q v) →
  (∀ e, Q e → Q (VError e)) →
  (∀ a, Forall Q a → Q (VArray a)) →
  (∀ m, Forall (fun kv => Q kv.1 ∧ Q kv.2) m → Q (VMap m)) → ∀ v, Q v.
Proof.
  intros Hleaf He Ha Hm. fix IH 1. intros [ | | | | | | | | | | | | | | | | | |e|a|m| | | | ];
    try (apply Hleaf; discriminate).
  - apply He, IH.
  - apply Ha. induction a as [|x a IHa]; constructor; [apply IH|exact IHa].
  - apply Hm. induction m as [|[k x] m IHm]; constructor; [split; apply IH|exact IHm].
Qed.

(** [Typ] *)
Inductive Typ :=
| TU8 | TI8 | TU16 | TI16 | TU32 | TV32 | TI32 | TZ32 | TU64 | TV64 | TI64 | TZ64
| TF32 | TF64 | TBool | TNull | TString | TBytes | TError | TArray | TMap
| TDecimal | TDateTime | TDuration | TAbstract.
#[export] Instance Typ_eq_dec : EqDecision Typ.
Proof. solve_decision. Defined.

(** [typ as u64] *)
Definition typ_bits (t : Typ) : Z :=
  match t with
  | TU8 => 0x00000001 | TI8 => 0x00000002 | TU16 => 0x00000004 | TI16 => 0x00000008
  | TU32 => 0x00000010 | TV32 => 0x00000020 | TI32 => 0x00000040 | TZ32 => 0x00000080
  | TU64 => 0x00000100 | TV64 => 0x00000200 | TI64 => 0x00000400 | TZ64 => 0x00000800
  | TF32 => 0x00001000 | TF64 => 0x00002000 | TBool => 0x00004000 | TNull => 0x00008000
  | TString => 0x80000000 | TBytes => 0x40000000 | TError => 0x20000000 | TArray => 0x10000000
  | TMap => 0x08000000 | TDecimal => 0x04000000 | TDateTime => 0x02000000
  | TDuration => 0x01000000 | TAbstract => 0x00800000
  end.

(** [Value::discriminant]: the tag word of the variant *)
Definition discriminant (v : Value) : Z :=
  match v with
  | VU8 _ => 0x00000001 | VI8 _ => 0x00000002 | VU16 _ => 0x00000004 | VI16 _ => 0x00000008
  | VU32 _ => 0x00000010 | VV32 _ => 0x00000020 | VI32 _ => 0x00000040 | VZ32 _ => 0x00000080
  | VU64 _ => 0x00000100 | VV64 _ => 0x00000200 | VI64 _ => 0x00000400 | VZ64 _ => 0x00000800
  | VF32 _ => 0x00001000 | VF64 _ => 0x00002000 | VBool _ => 0x00004000 | VNull => 0x00008000
  | VString _ => 0x80000000 | VBytes _ => 0x40000000 | VError _ => 0x20000000
  | VArray _ => 0x10000000 | VMap _ => 0x08000000 | VDecimal _ => 0x04000000
  | VDateTime _ => 0x02000000 | VDuration _ => 0x01000000 | VAbstract _ => 0x00800000
  end.

Definition all_typs : list Typ :=
  [TU8; TI8; TU16; TI16; TU32; TV32; TI32; TZ32; TU64; TV64; TI64; TZ64; TF32; TF64; TBool; TNull;
   TString; TBytes; TError; TArray; TMap; TDecimal; TDateTime; TDuration; TAbstract].

(** [Typ::get] transmutes the tag word to the type with these bits. *)
Definition typ_get (v : Value) : option Typ :=
  List.find (fun t => typ_bits t =? discriminant v) all_typs.

(** [Value::is_copy], and [clone]: the copied types are read bitwise, a copied type
    that reaches the match is undefined behaviour. *)
Definition COPY_MAX : Z := 0x00008000.
Definition is_copy (v : Value) : bool := discriminant v <=? COPY_MAX.
Definition clone (v : Value) : res Empty_set Value :=
  if is_copy v then Ok v
  else
    match v with
    | VString s => Ok (VString s) | VBytes b => Ok (VBytes b) | VError e => Ok (VError e)
    | VArray a => Ok (VArray a) | VMap m => Ok (VMap m) | VDecimal d => Ok (VDecimal d)
    | VDateTime d => Ok (VDateTime d) | VDuration d => Ok (VDuration d) | VAbstract a => Ok (VAbstract a)
    | _ => Panic
    end.

(** [Value::number], [Value::integer] *)
Definition number (v : Value) : bool :=
  match v with
  | VU8 _ | VI8 _ | VU16 _ | VI16 _ | VU32 _ | VV32 _ | VI32 _ | VZ32 _ | VU64 _ | VV64 _ | VI64 _ | VZ64 _
  | VF32 _ | VF64 _ | VDecimal _ => true
  | _ => false
  end.
Definition integer (v : Value) : bool :=
  match v with
  | VU8 _ | VI8 _ | VU16 _ | VI16 _ | VU32 _ | VV32 _ | VI32 _ | VZ32 _ | VU64 _ | VV64 _ | VI64 _ | VZ64 _ => true
  | _ => false
  end.
(** [BitFlags<Typ>] of the numeric types and [is_number], [is_integer], ... *)
Definition typ_union (l : list Typ) : Z := foldr Z.lor 0 (typ_bits <$> l).
Definition typ_in (flags : Z) (t : Typ) : bool := Z.land flags (typ_bits t) =? typ_bits t.
Definition signed_integer : Z := typ_union [TI8; TI16; TI32; TZ32; TI64; TZ64].
Definition unsigned_integer : Z := typ_union [TU8; TU16; TU32; TV32; TU64; TV64].
Definition typ_integer : Z :=
  typ_union [TU8; TI8; TU16; TI16; TU32; TV32; TI32; TZ32; TU64; TV64; TI64; TZ64].
Definition typ_real : Z := typ_union [TF32; TF64; TDecimal].
Definition typ_number : Z :=
  typ_union [TU8; TI8; TU16; TI16; TU32; TV32; TI32; TZ32; TU64; TV64; TI64; TZ64; TF32; TF64; TDecimal].

(** [Typ::name], [Typ::from_str] *)
Definition typ_name (t : Typ) : str :=
  lit match t with
  | TU8 => "u8" | TI8 => "i8" | TU16 => "u16" | TI16 => "i16" | TU32 => "u32" | TV32 => "v32"
  | TI32 => "i32" | TZ32 => "z32" | TU64 => "u64" | TI64 => "i64" | TV64 => "v64" | TZ64 => "z64"
  | TF32 => "f32" | TF64 => "f64" | TDecimal => "decimal" | TDateTime => "datetime"
  | TDuration => "duration" | TBool => "bool" | TString => "string" | TBytes => "bytes"
  | TError => "error" | TArray => "array" | TMap => "map" | TNull => "null" | TAbstract => "abstract"
  end.
Definition typ_upper (t : Typ) : str :=
  lit match t with
  | TU8 => "U8" | TI8 => "I8" | TU16 => "U16" | TI16 => "I16" | TU32 => "U32" | TV32 => "V32"
  | TI32 => "I32" | TZ32 => "Z32" | TU64 => "U64" | TV64 => "V64" | TI64 => "I64" | TZ64 => "Z64"
  | TF32 => "F32" | TF64 => "F64" | TDecimal => "Decimal" | TDateTime => "DateTime"
  | TDuration => "Duration" | TBool => "Bool" | TString => "String" | TBytes => "Bytes"
  | TError => "Error" | TArray => "Array" | TMap => "Map" | TNull => "Null" | TAbstract => "Abstract"
  end.
Definition typ_from_str (s : str) : option Typ :=
  List.find (fun t => bool_decide (s = typ_upper t) || bool_decide (s = typ_name t)) all_typs.

(** [Value::flatten]: a stack of arrays and positions; what [next] returns until it
    is [None] *)
Fixpoint flatten_loop (fuel : nat) (stack : list (list Value * nat)) : option (list Value) :=
  match fuel with
  | O => None
  | S fuel =>
      match stack with
      | [] => Some []
      | (elts, pos) :: rest =>
          match elts !! pos with
          | None => flatten_loop fuel rest
          | Some (VArray sub) => flatten_loop fuel ((sub, 0%nat) :: (elts, S pos) :: rest)
          | Some val => cons val <$> flatten_loop fuel ((elts, S pos) :: rest)
          end
      end
  end.
Definition flatten (fuel : nat) (v : Value) : option (list Value) :=
  match v with VArray elts => flatten_loop fuel [(elts, 0%nat)] | val => Some [val] end.

(** ** The registry of abstract types *)

Record Registry := MkRegistry { by_uuid : gmap Z (option Z); by_tid : gmap (option Z) Z }.
Inductive RegError := DifferentTypes | MultipleIds.

(** [Registry::insert] *)
Definition reg_insert (r : Registry) (id : Uuid) (tid : option Z) : res RegError (option Z) * Registry :=
  match by_uuid r !! as_u128 id with
  | Some vt => if bool_decide (vt = tid) then (Ok vt, r) else (Err DifferentTypes, r)
  | None =>
      match by_tid r !! tid with
      | None => (Ok tid, MkRegistry (<[as_u128 id := tid]> (by_uuid r)) (<[tid := as_u128 id]> (by_tid r)))
      | Some _ => (Err MultipleIds, r)
      end
  end.

Definition UNKNOWN_ID : Uuid :=
  from_u128 (be_int (Zb <$> [195; 155; 41; 43; 251; 148; 70; 166; 129; 118; 150; 177; 94; 123; 235; 23])).
(** [REGISTRY] as it is initialised *)
Definition REGISTRY_init : Registry := (reg_insert (MkRegistry ∅ ∅) UNKNOWN_ID None).2.

(** [UnknownAbstractType], and a registered type behind its vtable *)
Definition unknown_pack : Pack Boxed :=
  simple_pack 0 None
    (fun t => match t with UnknownAbstractType b => zlen b | _ => 0 end)
    (fun t => match t with UnknownAbstractType b => put b | _ => ([], Panic) end)
    (fun bs => (Ok (UnknownAbstractType bs), [])).
Definition registered_pack (tid : Z) : Pack Boxed :=
  simple_pack 0 None
    (fun t => match t with Registered a => encoded_len (any_pack tid) a | _ => 0 end)
    (fun t => match t with Registered a => encode (any_pack tid) a | _ => ([], Panic) end)
    (let! a := decode (any_pack tid) in dret (Registered a)).
Definition vtable_pack (vt : option Z) : Pack Boxed :=
  match vt with None => unknown_pack | Some tid => registered_pack tid end.

(** The ordered map of immutable-chunkmap: [map_from_iter] is what iterating over
    [Map::from_iter] gives. Collecting a map into a map changes nothing, and a map
    holds only entries that were put in. *)
Class ChunkMap := {
  map_from_iter : list (Value * Value) → list (Value * Value);
  map_rebuild l : map_from_iter (map_from_iter l) = map_from_iter l;
  map_entries l kv : kv ∈ map_from_iter l → kv ∈ l
}.

(** ** The wire format *)

Section Wire.
Context {LY : Layout} {CM : ChunkMap} (reg : Registry).

Definition Abstract_pack : Pack Abstract :=
  let len a := len_wrapped_len (encoded_len Uuid_pack (ab_id a) + encoded_len (vtable_pack (ab_vtable a)) (ab_t a)) in
  simple_pack (layout "Abstract" []) None len
    (fun a => len_wrapped_encode (len a)
       (encode Uuid_pack (ab_id a) ;;; encode (vtable_pack (ab_vtable a)) (ab_t a)))
    (len_wrapped_decode
       (let! id := decode Uuid_pack in
        match by_uuid reg !! as_u128 id with
        | Some vt => let! t := decode (vtable_pack vt) in dret (MkAbstract id vt t)
        | None => let! t := decode unknown_pack in dret (MkAbstract id None t)
        end)).

(** [PBytes] *)
Definition PBytes_pack : Pack str :=
  simple_pack (layout "PBytes" []) None
    (fun b => varint_len (zlen b) + zlen b)
    (fun b => put (encode_varint (zlen b)) ;;; put b)
    (let! len := decode_varint in
     let! rem := dremaining in
     if rem <? len then dthrow TooBig else dtake len).

(** [ValArray], and [Map] with the guard of pack.rs, over the format of values *)
Definition ValArray_pack (V : Pack Value) : Pack (list Value) :=
  simple_pack (layout "ValArray" []) None (seq_len V) (seq_encode_checked V (size_of V)) (Vec_decode V).
Definition Map_pack (V : Pack Value) : Pack (list (Value * Value)) :=
  simple_pack (layout "Map" []) None
    (seq_len (entry_pack V V)) (seq_encode_checked (entry_pack V V) (size_of V + size_of V))
    (let! elts := decode_varint in
     let! _ := check_sz elts (size_of V + size_of V) in
     let! l := decode_n (entry_pack V V) (Z.to_nat elts) in
     dret (map_from_iter l)).

Definition tag (t : Z) : enc PackError := encode u8_pack (UInt t).

(** [impl Pack for Value], each level of nesting using one unit of [fuel] *)
Fixpoint value_pack (fuel : nat) : Pack Value :=
  match fuel with
  | O => simple_pack value_size None (fun _ => 0) (fun _ => ([], Panic)) dpanic
  | S fuel =>
    let V := value_pack fuel in
    simple_pack value_size None
      (fun v => 1 + match v with
       | VU8 v => encoded_len u8_pack (UInt v)
       | VI8 v => encoded_len i8_pack (SInt v)
       | VU16 v => encoded_len u16_pack (UInt v)
       | VI16 v => encoded_len i16_pack (SInt v)
       | VU32 v => encoded_len u32_pack (UInt v)
       | VV32 v => varint_len v
       | VI32 v => encoded_len i32_pack (SInt v)
       | VZ32 v => varint_len (i32_zz v)
       | VU64 v => encoded_len u64_pack (UInt v)
       | VV64 v => varint_len v
       | VI64 v => encoded_len i64_pack (SInt v)
       | VZ64 v => varint_len (i64_zz v)
       | VF32 v => encoded_len f32_pack (FBits v)
       | VF64 v => encoded_len f64_pack (FBits v)
       | VDateTime d => encoded_len DateTime_pack d
       | VDuration d => encoded_len Duration_pack d
       | VString c => encoded_len ArcStr_pack c
       | VBytes b => encoded_len PBytes_pack b
       | VBool _ | VNull => 0
       | VError (VString s) => encoded_len ArcStr_pack s
       | VError v => encoded_len V v
       | VArray elts => encoded_len (ValArray_pack V) elts
       | VDecimal d => encoded_len Decimal_pack d
       | VMap m => encoded_len (Map_pack V) m
       | VAbstract v => encoded_len Abstract_pack v
       end)
      (fun v => match v with
       | VU32 i => tag 0 ;;; encode u32_pack (UInt i)
       | VV32 i => tag 1 ;;; put (encode_varint i)
       | VI32 i => tag 2 ;;; encode i32_pack (SInt i)
       | VZ32 i => tag 3 ;;; put (encode_varint (i32_zz i))
       | VU64 i => tag 4 ;;; encode u64_pack (UInt i)
       | VV64 i => tag 5 ;;; put (encode_varint i)
       | VI64 i => tag 6 ;;; encode i64_pack (SInt i)
       | VZ64 i => tag 7 ;;; put (encode_varint (i64_zz i))
       | VF32 i => tag 8 ;;; encode f32_pack (FBits i)
       | VF64 i => tag 9 ;;; encode f64_pack (FBits i)
       | VDateTime dt => tag 10 ;;; encode DateTime_pack dt
       | VDuration d => tag 11 ;;; encode Duration_pack d
       | VString s => tag 12 ;;; encode ArcStr_pack s
       | VBytes b => tag 13 ;;; encode PBytes_pack b
       | VBool true => tag 14
       | VBool false => tag 15
       | VNull => tag 16
       | VArray elts => tag 19 ;;; encode (ValArray_pack V) elts
       | VDecimal d => tag 20 ;;; encode Decimal_pack d
       | VMap m => tag 21 ;;; encode (Map_pack V) m
       | VError (VString s) => tag 18 ;;; encode ArcStr_pack s
       | VError v => tag 22 ;;; encode V v
       | VU8 i => tag 23 ;;; encode u8_pack (UInt i)
       | VI8 i => tag 24 ;;; encode i8_pack (SInt i)
       | VU16 i => tag 25 ;;; encode u16_pack (UInt i)
       | VI16 i => tag 26 ;;; encode i16_pack (SInt i)
       | VAbstract v => tag 27 ;;; encode Abstract_pack v
       end)
      (let! t := decode u8_pack in
       match uval t with
       | 0 => let! x := decode u32_pack in dret (VU32 (uval x))
       | 1 => let! x := decode_varint in dret (VV32 (wrap 32 x))
       | 2 => let! x := decode i32_pack in dret (VI32 (sval x))
       | 3 => let! x := decode_varint in dret (VZ32 (i32_uzz (wrap 32 x)))
       | 4 => let! x := decode u64_pack in dret (VU64 (uval x))
       | 5 => let! x := decode_varint in dret (VV64 x)
       | 6 => let! x := decode i64_pack in dret (VI64 (sval x))
       | 7 => let! x := decode_varint in dret (VZ64 (i64_uzz x))
       | 8 => let! x := decode f32_pack in dret (VF32 (fval x))
       | 9 => let! x := decode f64_pack in dret (VF64 (fval x))
       | 10 => let! x := decode DateTime_pack in dret (VDateTime x)
       | 11 => let! x := decode Duration_pack in dret (VDuration x)
       | 12 => let! x := decode ArcStr_pack in dret (VString x)
       | 13 => let! x := decode PBytes_pack in dret (VBytes x)
       | 14 => dret (VBool true)
       | 15 => dret (VBool false)
       | 16 => dret VNull
       | 17 => dret VNull
       | 18 => let! x := decode ArcStr_pack in dret (VError (VString x))
       | 19 => let! x := decode (ValArray_pack V) in dret (VArray x)
       | 20 => let! x := decode Decimal_pack in dret (VDecimal x)
       | 21 => let! x := decode (Map_pack V) in dret (VMap x)
       | 22 => let! x := decode V in dret (VError x)
       | 23 => let! x := decode u8_pack in dret (VU8 (uval x))
       | 24 => let! x := decode i8_pack in dret (VI8 (sval x))
       | 25 => let! x := decode u16_pack in dret (VU16 (uval x))
       | 26 => let! x := decode i16_pack in dret (VI16 (sval x))
       | 27 => let! x := decode Abstract_pack in dret (VAbstract x)
       | _ => dthrow UnknownTag
       end)
  end.

(** The nesting of a value *)
Fixpoint depth (v : Value) : nat :=
  match v with
  | VError e => S (depth e)
  | VArray a => S (foldr (fun x n => Nat.max (depth x) n) 0%nat a)
  | VMap m => S (foldr (fun kv n => Nat.max (Nat.max (depth kv.1) (depth kv.2)) n) 0%nat m)
  | _ => 0%nat
  end.

(** [impl Pack for Value]: a value is encoded with the fuel of its nesting, and every
    level of nesting takes at least a byte of the buffer. *)
Definition Value_pack : Pack Value :=
  simple_pack value_size None
    (fun v => encoded_len (value_pack (S (depth v))) v)
    (fun v => encode (value_pack (S (depth v))) v)
    (fun bs => decode (value_pack (S (length bs))) bs).
End Wire.
End Values.
