(* ===== verification/ValuePack.v ===== *)
(** Values on the wire: every well formed value encodes to the announced length and
    decodes to itself, however deeply it is nested; the decoder always ends, and
    panics only where [Duration::new] does; the registry keeps types and ids apart. *)
From Stdlib Require Import ZArith Lia.
From stdpp Require Import base gmap list strings sorting.
From Stdlib Require Import Strings.Byte.
From S2P Require Import Prelude Varint Pack Containers PackTypes Value.

(** What a registered type promises: its values round trip, its decoder is safe *)
Class AnyOk {AA : AnyApi} := {
  any_wf : Any → Prop;
  any_ok tid : PackOk (any_pack tid) (fun a => type_id a = tid ∧ any_wf a);
  any_safe tid : PackSafe (any_pack tid)
}.

Section Facts.
Context {VA : ValueApi} {LY : Layout} {CM : ChunkMap} {AO : AnyOk}.

(** ** Well formed values *)

Definition abstract_wf (reg : Registry) (a : Abstract) : Prop :=
  ab_vtable a = box_tid (ab_t a) ∧ in_u 62 (encoded_len (vtable_pack (ab_vtable a)) (ab_t a)) ∧
  default None (by_uuid reg !! as_u128 (ab_id a)) = ab_vtable a ∧
  match ab_t a with Registered x => any_wf x | _ => True end.

Fixpoint value_wf (reg : Registry) (v : Value) : Prop :=
  match v with
  | VU8 z => in_u 8 z | VI8 z => in_i 8 z | VU16 z => in_u 16 z | VI16 z => in_i 16 z
  | VU32 z | VV32 z | VF32 z => in_u 32 z | VI32 z | VZ32 z => in_i 32 z
  | VU64 z | VV64 z | VF64 z => in_u 64 z | VI64 z | VZ64 z => in_i 64 z
  | VBool _ | VNull | VDecimal _ | VDateTime _ => True
  | VString s => str_wf s
  | VBytes b => bytes_wf b
  | VDuration d => duration_wf d
  | VError e => value_wf reg e
  | VArray a => foldr (fun x P => value_wf reg x ∧ P) True a ∧ in_u 63 (zlen a) ∧ zlen a * value_size ≤ MAX_VEC
  | VMap m => foldr (fun kv P => (value_wf reg kv.1 ∧ value_wf reg kv.2) ∧ P) True m ∧ in_u 63 (zlen m) ∧
      zlen m * (value_size + value_size) ≤ MAX_VEC ∧ map_from_iter m = m
  | VAbstract a => abstract_wf reg a
  end.

Lemma foldr_Forall {A} (P : A → Prop) l : foldr (fun x Q => P x ∧ Q) True l ↔ Forall P l.
Proof. induction l as [|x l IH]; cbn; [by rewrite Forall_nil|]. by rewrite Forall_cons, IH. Qed.

Lemma foldr_max {A} (f : A → nat) l n :
  (foldr (fun x m => Nat.max (f x) m) 0%nat l < n)%nat ↔ (0 < n)%nat ∧ Forall (fun x => (f x < n)%nat) l.
Proof.
  induction l as [|x l IH]; cbn; [rewrite Forall_nil; intuition lia|].
  rewrite Forall_cons. split.
  - intros H. assert (foldr (fun x m => Nat.max (f x) m) 0%nat l < n)%nat as [? ?]%IH by lia. intuition lia.
  - intros (H0 & Hx & Hl). destruct IH as [_ IH]. specialize (IH (conj H0 Hl)). lia.
Qed.

(** ** The components *)

#[export] Instance PBytes_ok : PackOk PBytes_pack bytes_wf.
Proof.
  split; intros b Hb; cbn [encoded_len PBytes_pack simple_pack];
    destruct (varint_len_bounds _ (in_u_63_64 _ Hb)) as [? _]; pose proof (zlen_nonneg b); [lia|].
  intros _. exists (encode_varint (zlen b) ++ b). split; [done|].
  split; [rewrite zlen_app, encode_varint_zlen; [done|by apply in_u_63_64]|]. intros rest _.
  cbn [decode PBytes_pack simple_pack]. rewrite <- app_assoc.
  rewrite (dbind_ok _ _ _ _ _ (decode_encode_varint _ _ (in_u_63_64 _ Hb))).
  unfold dbind. cbn [dremaining]. rewrite zlen_app. pose proof (zlen_nonneg rest).
  destruct (Z.ltb_spec (zlen b + zlen rest) (zlen b)); [lia|]. unfold dtake. rewrite zlen_app.
  destruct (Z.ltb_spec (zlen b + zlen rest) (zlen b)); [lia|].
  assert (Hn : Z.to_nat (zlen b) = length b) by (unfold zlen; lia).
  by rewrite Hn, take_app_length, drop_app_length.
Qed.

Lemma vtable_encode reg a : abstract_wf reg a → encoded_len (vtable_pack (ab_vtable a)) (ab_t a) < MAX_BUF →
  ∃ bs, encode (vtable_pack (ab_vtable a)) (ab_t a) = (bs, Ok ()) ∧
    zlen bs = encoded_len (vtable_pack (ab_vtable a)) (ab_t a) ∧
    decode (vtable_pack (ab_vtable a)) bs = (Ok (ab_t a), []).
Proof.
  destruct a as [id vt t]. cbn. intros (Hvt & _ & _ & Hx) Hl. cbn in *. subst vt.
  destruct t as [b|x]; cbn [box_tid vtable_pack] in *; [by exists b|].
  destruct (encode_spec (PackOk := any_ok (type_id x)) x (conj eq_refl Hx) Hl) as (bs & He & Hz & Hd).
  exists bs. split; [done|]. split; [done|]. cbn [decode registered_pack simple_pack].
  specialize (Hd []). rewrite app_nil_r in Hd. cbn in Hl. rewrite <- Hz in Hl. by rewrite (dbind_ok _ _ _ _ _ (Hd Hl)).
Qed.

#[export] Instance Abstract_ok reg : PackOk (Abstract_pack reg) (abstract_wf reg).
Proof.
  split; intros a Ha; pose proof Ha as (Hvt & Hlen & Hreg & _);
    cbn [encoded_len encode Abstract_pack simple_pack];
    set (n := encoded_len (vtable_pack (ab_vtable a)) (ab_t a)) in *; change (encoded_len Uuid_pack (ab_id a)) with 16;
    assert (H63 : in_u 63 (16 + n)) by (unfold in_u in *; lia);
    pose proof (len_wrapped_len_ge _ H63) as Hge; [unfold in_u in *; lia|].
  intros Hlt. destruct (vtable_encode reg a Ha ltac:(lia)) as (bs & He & Hz & Hd).
  set (u := be_bytes 16 (as_u128 (ab_id a))).
  assert (Hview : zlen (u ++ bs) = 16 + n) by (unfold u; rewrite zlen_app, be_bytes_zlen, Hz; done).
  exists (encode_varint (len_wrapped_len (16 + n)) ++ u ++ bs). rewrite He. split; [done|].
  destruct (len_wrapped_len_fixpoint _ H63) as [H64 Hfix].
  split; [rewrite zlen_app, encode_varint_zlen, Hview by done; lia|]. intros rest _.
  cbn [decode Abstract_pack simple_pack].
  rewrite <- app_assoc, <- Hview, len_wrapped_decode_view by (by rewrite Hview).
  f_equal. rewrite (dbind_ok _ _ _ (ab_id a) bs).
  2:{ unfold u. cbn [decode Uuid_pack simple_pack]. unfold u128_pack.
      rewrite dbind_u by apply as_u128_range. cbn [uval]. by rewrite from_as_u128. }
  destruct (by_uuid reg !! as_u128 (ab_id a)) as [vt|] eqn:E; cbn in Hreg; subst.
  - rewrite (dbind_ok _ _ _ _ _ Hd). by destruct a.
  - rewrite <- Hreg in Hd. cbn [vtable_pack] in Hd. rewrite (dbind_ok _ _ _ _ _ Hd). destruct a. cbn in *.
    by rewrite Hreg.
Qed.

(** ** Arrays and maps of values *)

Lemma sum_len_ge {A} (P : Pack A) c l : Forall (fun x => c ≤ encoded_len P x) l → zlen l * c ≤ sum_len P l.
Proof.
  induction 1 as [|x l Hx _ IH]; [done|]. rewrite sum_len_cons, zlen_cons. lia.
Qed.

Lemma ValArray_ok (P : Pack Value) (wf : Value → Prop) `{HP : !PackOk P wf} :
  PackOk (ValArray_pack P) (seq_wf P (size_of P) wf).
Proof. split; intros; by apply (Vec_ok P wf). Qed.

Lemma Map_ok (P : Pack Value) (wf : Value → Prop) `{HP : !PackOk P wf} :
  PackOk (Map_pack P) (fun m =>
    seq_wf (entry_pack P P) (size_of P + size_of P) (fun kv => wf kv.1 ∧ wf kv.2) m ∧ map_from_iter m = m).
Proof.
  apply (container_ok (entry_pack P P) (fun kv => wf kv.1 ∧ wf kv.2) _ (size_of P + size_of P) id map_from_iter).
  - done.
  - intros m [(_ & _ & Hm & _) _]. by apply seq_encode_checked_ok.
  - done.
  - intros m [Hs Hm]. done.
Qed.

(** ** One level of the format *)

(** [e] encodes [v] in [len] bytes, and [D] decodes it. *)
Definition carries (D : dec PackError Value) (v : Value) (len : Z) (e : enc PackError) : Prop :=
  1 ≤ len ∧ (len < MAX_BUF → ∃ bs, e = (bs, Ok ()) ∧ zlen bs = len ∧
    ∀ rest, zlen (bs ++ rest) < MAX_BUF → D (bs ++ rest) = (Ok v, rest)).

(** A variant behind its tag *)
Lemma tagged {A} (P : Pack A) (wf : A → Prop) `{HP : !PackOk P wf} t (f : A → Value) (D : dec PackError Value) a :
  wf a → (∀ bs, D (Zb t :: bs) = (let! x := decode P in dret (f x)) bs) →
  carries D (f a) (1 + encoded_len P a) (tag t ;;; encode P a).
Proof.
  intros Ha HD. pose proof (encoded_len_nonneg (P := P) a Ha). split; [lia|]. intros Hlt.
  destruct (encode_spec (P := P) a Ha ltac:(lia)) as (bs & He & Hl & Hd).
  exists (Zb t :: bs). rewrite He. split; [done|]. split; [rewrite zlen_cons; lia|]. intros rest Hs.
  cbn [app] in *. rewrite zlen_cons in Hs. rewrite HD. rewrite (dbind_ok _ _ _ _ _ (Hd rest ltac:(lia))). done.
Qed.

Lemma tagged_varint t z v (g : Z → Value) (D : dec PackError Value) :
  in_u 64 z → g z = v → (∀ bs, D (Zb t :: bs) = (let! x := decode_varint in dret (g x)) bs) →
  carries D v (1 + varint_len z) (tag t ;;; put (encode_varint z)).
Proof.
  intros Hz Hg HD. destruct (varint_len_bounds _ Hz) as [? _]. split; [lia|]. intros _.
  exists (Zb t :: encode_varint z). split; [done|].
  split; [rewrite zlen_cons, encode_varint_zlen by done; lia|]. intros rest _. cbn [app].
  rewrite HD, (dbind_ok _ _ _ _ _ (decode_encode_varint _ _ Hz)). by rewrite <- Hg.
Qed.

Lemma tagged_alone t v (D : dec PackError Value) :
  (∀ bs, D (Zb t :: bs) = (Ok v, bs)) → carries D v (1 + 0) (tag t).
Proof. intros HD. split; [lia|]. intros _. exists [Zb t]. split; [done|]. split; [done|]. intros rest _. apply HD. Qed.

Lemma zigzag32 z : in_i 32 z → in_u 32 (i32_zz z) ∧ i32_uzz (i32_zz z) = z.
Proof.
  intros Hz. destruct (zz_uzz_inverse 32 z ltac:(lia) Hz) as [Hu Hi].
  rewrite i32_zz_spec by done. split; [done|]. by rewrite i32_uzz_spec.
Qed.
Lemma zigzag64 z : in_i 64 z → in_u 64 (i64_zz z) ∧ i64_uzz (i64_zz z) = z.
Proof.
  intros Hz. destruct (zz_uzz_inverse 64 z ltac:(lia) Hz) as [Hu Hi].
  rewrite i64_zz_spec by done. split; [done|]. by rewrite i64_uzz_spec.
Qed.
Lemma in_u_32_64 z : in_u 32 z → in_u 64 z.
Proof. unfold in_u. lia. Qed.

Definition level_wf (reg : Registry) (n : nat) (v : Value) : Prop := value_wf reg v ∧ (depth v < n)%nat.

Lemma value_pack_size reg n : size_of (value_pack reg n) = value_size.
Proof. by destruct n. Qed.

Section Level.
Context (reg : Registry) (n : nat) {IH : PackOk (value_pack reg n) (level_wf reg n)}.
Context (IHpos : ∀ v, level_wf reg n v → 1 ≤ encoded_len (value_pack reg n) v).

Lemma array_level a : level_wf reg (S n) (VArray a) →
  seq_wf (value_pack reg n) (size_of (value_pack reg n)) (level_wf reg n) a.
Proof.
  intros [(Hf & H63 & Hm) Hd]. cbn [depth] in Hd. apply foldr_Forall in Hf.
  assert (Hd' : (foldr (λ x m, Nat.max (depth x) m) 0%nat a < n)%nat) by lia.
  apply foldr_max in Hd' as [_ Hd']. rewrite value_pack_size.
  assert (Hw : Forall (level_wf reg n) a) by (apply Forall_and; done).
  split; [done|]. split; [done|]. split; [done|].
  assert (Hs : zlen a * 1 ≤ sum_len (value_pack reg n) a)
    by (apply sum_len_ge; eapply Forall_impl; [exact Hw|exact IHpos]).
  pose proof value_size_bound. pose proof (zlen_nonneg a). nia.
Qed.

Lemma map_level m : level_wf reg (S n) (VMap m) →
  seq_wf (entry_pack (value_pack reg n) (value_pack reg n)) (size_of (value_pack reg n) + size_of (value_pack reg n))
    (fun kv => level_wf reg n kv.1 ∧ level_wf reg n kv.2) m ∧ map_from_iter m = m.
Proof.
  intros [(Hf & H63 & Hm & Hmap) Hd]. cbn [depth] in Hd. apply foldr_Forall in Hf. split; [|done].
  assert (Hd' : (foldr (λ kv k, Nat.max (Nat.max (depth kv.1) (depth kv.2)) k) 0%nat m < n)%nat) by lia.
  apply foldr_max in Hd' as [_ Hd']. rewrite value_pack_size.
  assert (Hw : Forall (fun kv => level_wf reg n kv.1 ∧ level_wf reg n kv.2) m).
  { apply Forall_forall. intros kv Hin. rewrite Forall_forall in Hf, Hd'.
    destruct (Hf kv Hin). specialize (Hd' kv Hin). cbn in Hd'. unfold level_wf. intuition lia. }
  split; [done|]. split; [done|]. split; [done|].
  assert (Hs : zlen m * 2 ≤ sum_len (entry_pack (value_pack reg n) (value_pack reg n)) m).
  { apply sum_len_ge. eapply Forall_impl; [exact Hw|]. intros kv [H1 H2]. cbn.
    specialize (IHpos _ H1) as Hp1. specialize (IHpos _ H2) as Hp2. lia. }
  pose proof value_size_bound. pose proof (zlen_nonneg m). nia.
Qed.

Lemma error_level e : level_wf reg (S n) (VError e) → level_wf reg n e.
Proof. intros [Hw Hd]. cbn in Hd. split; [done|lia]. Qed.

Ltac behind_tag t := intros bs; cbn [decode value_pack simple_pack];
  rewrite (dbind_ok _ _ _ _ _ (decode_tag t bs ltac:(lia))); reflexivity.
Ltac variant P wf t f a := apply (tagged P wf t f _ a); [assumption|behind_tag t].

Lemma value_level v : level_wf reg (S n) v →
  carries (decode (value_pack reg (S n))) v (encoded_len (value_pack reg (S n)) v) (encode (value_pack reg (S n)) v).
Proof.
  intros Hv. pose proof Hv as [Hw _].
  destruct v as [z|z|z|z|z|z|z|z|z|z|z|z|z|z|b| |s|b|e|a|m|d|d|d|a]; cbn [value_wf] in Hw.
  - variant u8_pack (@uint_wf 1) 23 (fun x : u8 => VU8 (uval x)) (UInt (n := 1) z).
  - variant i8_pack (@sint_wf 1) 24 (fun x : sint 1 => VI8 (sval x)) (SInt (n := 1) z).
  - variant u16_pack (@uint_wf 2) 25 (fun x : u16 => VU16 (uval x)) (UInt (n := 2) z).
  - variant i16_pack (@sint_wf 2) 26 (fun x : sint 2 => VI16 (sval x)) (SInt (n := 2) z).
  - variant u32_pack (@uint_wf 4) 0 (fun x : u32 => VU32 (uval x)) (UInt (n := 4) z).
  - apply (tagged_varint 1 z _ (fun x => VV32 (wrap 32 x))); [by apply in_u_32_64| |behind_tag 1].
    f_equal. by apply wrap_small.
  - variant i32_pack (@sint_wf 4) 2 (fun x : sint 4 => VI32 (sval x)) (SInt (n := 4) z).
  - destruct (zigzag32 z Hw) as [Hu Hi].
    apply (tagged_varint 3 (i32_zz z) _ (fun x => VZ32 (i32_uzz (wrap 32 x)))); [by apply in_u_32_64| |behind_tag 3].
    f_equal. rewrite wrap_small; [exact Hi|exact Hu].
  - variant u64_pack (@uint_wf 8) 4 (fun x : u64 => VU64 (uval x)) (UInt (n := 8) z).
  - apply (tagged_varint 5 z _ VV64); [done|done|behind_tag 5].
  - variant i64_pack (@sint_wf 8) 6 (fun x : sint 8 => VI64 (sval x)) (SInt (n := 8) z).
  - destruct (zigzag64 z Hw) as [Hu Hi].
    apply (tagged_varint 7 (i64_zz z) _ (fun x => VZ64 (i64_uzz x))); [done|by f_equal|behind_tag 7].
  - variant f32_pack (@fbits_wf 4) 8 (fun x : fbits 4 => VF32 (fval x)) (FBits (n := 4) z).
  - variant f64_pack (@fbits_wf 8) 9 (fun x : fbits 8 => VF64 (fval x)) (FBits (n := 8) z).
  - destruct b; [apply (tagged_alone 14); behind_tag 14|apply (tagged_alone 15); behind_tag 15].
  - apply (tagged_alone 16); behind_tag 16.
  - variant ArcStr_pack str_wf 12 VString s.
  - variant PBytes_pack bytes_wf 13 VBytes b.
  - apply error_level in Hv. destruct e;
      lazymatch goal with
      | |- carries _ (VError (VString _)) _ _ => variant ArcStr_pack str_wf 18 (fun s => VError (VString s)) s
      | _ => apply (tagged (value_pack reg n) (level_wf reg n) 22 VError); [exact Hv|behind_tag 22]
      end.
  - pose proof (ValArray_ok (value_pack reg n) (level_wf reg n)). apply array_level in Hv.
    variant (ValArray_pack (value_pack reg n))
      (seq_wf (value_pack reg n) (size_of (value_pack reg n)) (level_wf reg n)) 19 VArray a.
  - pose proof (Map_ok (value_pack reg n) (level_wf reg n)) as HM. apply map_level in Hv.
    apply (tagged (Map_pack (value_pack reg n)) _ 21 VMap _ m Hv). behind_tag 21.
  - variant Decimal_pack (fun _ : Decimal => True) 20 VDecimal d.
  - variant DateTime_pack (fun _ : DateTime => True) 10 VDateTime d.
  - variant Duration_pack duration_wf 11 VDuration d.
  - variant (Abstract_pack reg) (abstract_wf reg) 27 VAbstract a.
Qed.
End Level.

#[export] Instance value_pack_ok reg n : PackOk (value_pack reg n) (level_wf reg n).
Proof.
  enough (H : PackOk (value_pack reg n) (level_wf reg n) ∧
    ∀ v, level_wf reg n v → 1 ≤ encoded_len (value_pack reg n) v) by apply H.
  induction n as [|n [IH IHpos]]; [split; [split|]; intros v [_ Hd]; lia|].
  split; [split|]; intros v Hv; destruct (value_level reg n IHpos v Hv) as [Hp Hc]; [lia|exact Hc|exact Hp].
Qed.

(** ** Decoding anything *)

(** A [Duration] whose nanoseconds carry past the last second *)
Definition bad_duration (bs : str) : Prop :=
  ∃ pre s n post, bs = pre ++ Zb 11 :: be_bytes 8 s ++ be_bytes 4 n ++ post ∧
    in_u 64 s ∧ in_u 32 n ∧ 2 ^ 64 ≤ s + n / 1000000000.

Lemma bad_duration_suffix bs bs' : bs' `suffix_of` bs → bad_duration bs' → bad_duration bs.
Proof.
  intros [l ->] (pre & s & n & post & -> & H). exists (l ++ pre), s, n, post. by rewrite <- app_assoc.
Qed.

(** On inputs shorter than [k], [m] leaves a suffix and panics only at such a
    duration. *)
Definition guarded {A} (k : nat) (m : dec PackError A) : Prop :=
  ∀ bs, (length bs < k)%nat → (m bs).2 `suffix_of` bs ∧ ((m bs).1 = Panic → bad_duration bs).

Lemma safe_guarded {A} k (m : dec PackError A) : safe m → guarded k m.
Proof.
  intros Hm bs _. destruct (Hm bs) as [Hp Hs]. split; [done|]. intros He. by rewrite He in Hp.
Qed.
Lemma guarded_ret {A} k (a : A) : guarded k (dret a).
Proof. apply safe_guarded, safe_ret. Qed.
Lemma guarded_bind {A B} k (m : dec PackError A) (f : A → dec PackError B) :
  guarded k m → (∀ a, guarded k (f a)) → guarded k (dbind m f).
Proof.
  intros Hm Hf bs Hk. destruct (Hm bs Hk) as [Hs Hp]. unfold dbind.
  destruct (m bs) as [[a|e|] bs']; cbn in *; [|done|by split; [|auto]].
  destruct (Hf a bs') as [Hs' Hp']; [apply suffix_length in Hs; lia|].
  split; [by etrans|]. intros H. eapply bad_duration_suffix; eauto.
Qed.
Lemma guarded_mono {A} k j (m : dec PackError A) : (j ≤ k)%nat → guarded k m → guarded j m.
Proof. intros Hj Hm bs Hb. apply Hm. lia. Qed.
Lemma guarded_if {A} k (c : bool) (m1 m2 : dec PackError A) :
  guarded k m1 → guarded k m2 → guarded k (if c then m1 else m2).
Proof. by destruct c. Qed.

Lemma decode_n_guarded {A} (P : Pack A) k n : guarded k (decode P) → guarded k (decode_n P n).
Proof.
  intros HP. induction n as [|n IH]; cbn [decode_n]; [apply guarded_ret|].
  apply guarded_bind; [done|]. intros x. apply guarded_bind; [done|]. intros l. apply guarded_ret.
Qed.
Lemma seq_guarded {A B} (P : Pack A) k size (b : list A → B) : guarded k (decode P) →
  guarded k (let! elts := decode_varint in let! _ := check_sz elts size in
             let! l := decode_n P (Z.to_nat elts) in dret (b l)).
Proof.
  intros HP. apply guarded_bind; [apply safe_guarded; eauto with netidx|]. intros elts.
  apply guarded_bind; [apply safe_guarded, check_sz_safe|]. intros _.
  apply guarded_bind; [by apply decode_n_guarded|]. intros l. apply guarded_ret.
Qed.

(** Behind a byte, decoders for shorter inputs suffice. *)
Lemma guarded_tag {A} k (f : u8 → dec PackError A) :
  (∀ t bs, (length bs < k)%nat → 0 ≤ t < 256 → (f (UInt t) bs).2 `suffix_of` bs ∧
     ((f (UInt t) bs).1 = Panic → bad_duration (Zb t :: bs))) →
  guarded (S k) (dbind (decode u8_pack) f).
Proof.
  intros Hf [|c bs] Hk; [by split|]. cbn in Hk. rewrite <- (Zb_bZ c). pose proof (bZ_range c) as Hc.
  rewrite (dbind_ok _ _ _ _ _ (decode_tag (bZ c) bs Hc)).
  destruct (Hf (bZ c) bs ltac:(lia) Hc) as [Hs Hp]. split; [|done]. by apply suffix_cons_r.
Qed.

Lemma decode_uint_inv n bs x rest : decode (uint_pack n) bs = (Ok x, rest) →
  bs = be_bytes n (uval x) ++ rest ∧ in_u (8 * Z.of_nat n) (uval x).
Proof.
  cbn [decode uint_pack simple_pack]. unfold get_fixed, dbind. cbn [dremaining].
  destruct (Z.ltb_spec (zlen bs) (Z.of_nat n)) as [|Hn]; [done|]. unfold dtake.
  destruct (Z.ltb_spec (zlen bs) (Z.of_nat n)) as [|_]; [lia|]. rewrite Nat2Z.id.
  intros [= <- <-]. cbn [uval].
  assert (Hl : length (take n bs) = n) by (rewrite length_take; unfold zlen in Hn; lia).
  split; [by rewrite be_bytes_int, take_drop|]. rewrite <- Hl at 1. apply (be_int_range (take n bs)).
Qed.

Lemma Duration_panics bs : (decode Duration_pack bs).2 `suffix_of` bs ∧
  ((decode Duration_pack bs).1 = Panic → bad_duration (Zb 11 :: bs)).
Proof.
  cbn [decode Duration_pack simple_pack]. unfold dbind.
  destruct (decode_safe (P := u64_pack) bs) as [Hp Hs].
  destruct (decode u64_pack bs) as [[s|e|] bs1] eqn:E1; cbn in Hp, Hs; [|done|done].
  destruct (decode_safe (P := u32_pack) bs1) as [Hp1 Hs1].
  destruct (decode u32_pack bs1) as [[n|e|] bs2] eqn:E2; cbn in Hp1, Hs1;
    [|split; [by etrans|done]|done].
  split; [by etrans|]. cbn [fst]. unfold duration_new.
  destruct (Z.ltb_spec (uval s + uval n / 1000000000) (2 ^ 64)) as [|Hbig]; [done|]. intros _.
  apply decode_uint_inv in E1 as [-> Hu1]. apply decode_uint_inv in E2 as [-> Hu2].
  by exists [], (uval s), (uval n), bs2.
Qed.

Lemma unknown_safe : safe (decode unknown_pack).
Proof. intros bs. split; [done|]. apply suffix_nil. Qed.
Lemma vtable_safe vt : safe (decode (vtable_pack vt)).
Proof.
  destruct vt as [tid|]; [|apply unknown_safe]. cbn [decode vtable_pack registered_pack simple_pack].
  apply safe_bind; [apply any_safe|]. intros a. apply safe_ret.
Qed.
Lemma Abstract_safe reg : safe (decode (Abstract_pack reg)).
Proof.
  cbn [decode Abstract_pack simple_pack]. apply len_wrapped_decode_safe, safe_bind; [apply decode_safe|].
  intros id. destruct (by_uuid reg !! as_u128 id); (apply safe_bind; [|intros; apply safe_ret]);
    [apply vtable_safe|apply unknown_safe].
Qed.
Lemma PBytes_safe : safe (decode PBytes_pack).
Proof.
  cbn [decode PBytes_pack simple_pack]. apply safe_bind; [eauto with netidx|]. intros len bs.
  unfold dbind. cbn [dremaining]. destruct (Z.ltb_spec (zlen bs) len); [by split|]. unfold dtake.
  destruct (Z.ltb_spec (zlen bs) len); [lia|]. split; [done|]. apply suffix_drop.
Qed.

Lemma ValArray_guarded (V : Pack Value) k : guarded k (decode V) → guarded k (decode (ValArray_pack V)).
Proof.
  intros HV bs Hk. cbn [decode ValArray_pack simple_pack]. rewrite Vec_decode_build.
  by apply (seq_guarded V k (size_of V) id).
Qed.
Lemma Map_guarded (V : Pack Value) k : guarded k (decode V) → guarded k (decode (Map_pack V)).
Proof.
  intros HV. apply (seq_guarded (entry_pack V V)). cbn [decode entry_pack simple_pack].
  apply guarded_bind; [done|]. intros x. apply guarded_bind; [done|]. intros y. apply guarded_ret.
Qed.

(** The decoders behind the tags *)
Lemma value_guarded reg n : guarded n (decode (value_pack reg n)).
Proof.
  induction n as [|n IH]; [intros bs; lia|]. cbn [decode value_pack simple_pack].
  apply guarded_tag. intros t bs Hk Ht. cbn [uval].
  assert (Hfin : ∀ {A} (m : dec PackError A) (f : A → Value), guarded n m →
    (dbind m (fun x => dret (f x)) bs).2 `suffix_of` bs ∧
    ((dbind m (fun x => dret (f x)) bs).1 = Panic → bad_duration (Zb t :: bs))).
  { intros A m f Hm. destruct (guarded_bind n m (fun x => dret (f x)) Hm ltac:(intros; apply guarded_ret) bs Hk)
      as [Hs Hp]. split; [done|]. intros H. eapply bad_duration_suffix; [|by apply Hp]. by apply suffix_cons_r. }
  assert (Hret : ∀ v : Value, (@dret PackError _ v bs).2 `suffix_of` bs ∧
    ((@dret PackError _ v bs).1 = Panic → bad_duration (Zb t :: bs))) by done.
  assert (Hdur : t = 11 → ∀ f : Duration → Value,
    (dbind (decode Duration_pack) (fun x => dret (f x)) bs).2 `suffix_of` bs ∧
    ((dbind (decode Duration_pack) (fun x => dret (f x)) bs).1 = Panic → bad_duration (Zb t :: bs))).
  { intros -> f. destruct (Duration_panics bs) as [Hs Hp]. unfold dbind.
    destruct (decode Duration_pack bs) as [[d|e|] bs']; (split; [exact Hs|]); [discriminate|discriminate|intros _; exact (Hp eq_refl)]. }
  destruct t as [|p|p]; [| |lia]; [apply Hfin, safe_guarded, decode_safe|].
  repeat (destruct p as [p|p|];
    try lazymatch goal with
    | |- context [dthrow UnknownTag] => fail
    | |- _ => first [apply Hret | apply (Hdur eq_refl)
        | apply Hfin; first
          [exact IH|by apply ValArray_guarded|by apply Map_guarded
          |apply safe_guarded; first [apply decode_safe|apply Abstract_safe|apply PBytes_safe|solve [eauto with netidx]]]]
    end; try (split; [reflexivity|discriminate])).
Qed.

(** ** Fuel *)

(** On inputs shorter than [k] the second decoder does what the first one does,
    except that it may go on ([weak]) where the first runs out of fuel. *)
Definition extends {A} (weak : bool) (k : nat) (m1 m2 : dec PackError A) : Prop :=
  ∀ bs, (length bs < k)%nat → (m1 bs).2 `suffix_of` bs ∧ (m1 bs = m2 bs ∨ weak = true ∧ (m1 bs).1 = Panic).

Lemma extends_bind {A B} w k (m1 m2 : dec PackError A) (f1 f2 : A → dec PackError B) :
  extends w k m1 m2 → (∀ a, extends w k (f1 a) (f2 a)) → extends w k (dbind m1 f1) (dbind m2 f2).
Proof.
  intros Hm Hf bs Hk. destruct (Hm bs Hk) as [Hs He]. unfold dbind.
  destruct (m1 bs) as [[a|e|] bs'] eqn:E; cbn in Hs.
  - destruct He as [<-|[_ He]]; [|done]. destruct (Hf a bs') as [Hs' He']; [apply suffix_length in Hs; lia|].
    split; [by etrans|done].
  - destruct He as [<-|[_ He]]; [|done]. split; [done|by left].
  - split; [done|]. destruct He as [<-|[-> _]]; [by left|by right].
Qed.
Lemma extends_refl {A} w k (m : dec PackError A) : (∀ bs, (m bs).2 `suffix_of` bs) → extends w k m m.
Proof. intros Hm bs _. split; [apply Hm|by left]. Qed.
Lemma safe_extends {A} w k (m : dec PackError A) : safe m → extends w k m m.
Proof. intros Hm. apply extends_refl. intros bs. apply Hm. Qed.
Lemma extends_ret {A} w k (a : A) : extends w k (dret a) (dret a).
Proof. apply safe_extends, safe_ret. Qed.

Lemma decode_n_extends {A} (P Q : Pack A) w k n :
  extends w k (decode P) (decode Q) → extends w k (decode_n P n) (decode_n Q n).
Proof.
  intros HP. induction n as [|n IH]; cbn [decode_n]; [apply extends_ret|].
  apply extends_bind; [done|]. intros x. apply extends_bind; [done|]. intros l. apply extends_ret.
Qed.
Lemma seq_extends {A B} (P Q : Pack A) w k size (b : list A → B) :
  extends w k (decode P) (decode Q) →
  extends w k (let! elts := decode_varint in let! _ := check_sz elts size in
               let! l := decode_n P (Z.to_nat elts) in dret (b l))
              (let! elts := decode_varint in let! _ := check_sz elts size in
               let! l := decode_n Q (Z.to_nat elts) in dret (b l)).
Proof.
  intros HP. apply extends_bind; [apply safe_extends; eauto with netidx|]. intros elts.
  apply extends_bind; [apply safe_extends, check_sz_safe|]. intros _.
  apply extends_bind; [by apply decode_n_extends|]. intros l. apply extends_ret.
Qed.

Section Extends.
Context (reg : Registry) (w : bool) (k n m : nat).
Context (HV : extends w k (decode (value_pack reg n)) (decode (value_pack reg m))).

Lemma ValArray_extends :
  extends w k (decode (ValArray_pack (value_pack reg n))) (decode (ValArray_pack (value_pack reg m))).
Proof.
  intros bs Hk. cbn [decode ValArray_pack simple_pack]. rewrite !Vec_decode_build, !value_pack_size.
  by apply (seq_extends _ _ w k value_size id).
Qed.
Lemma Map_extends :
  extends w k (decode (Map_pack (value_pack reg n))) (decode (Map_pack (value_pack reg m))).
Proof.
  cbn [decode Map_pack simple_pack]. rewrite !value_pack_size.
  apply seq_extends. cbn [decode entry_pack simple_pack].
  apply extends_bind; [done|]. intros x. apply extends_bind; [done|]. intros y. apply extends_ret.
Qed.

Lemma value_extends : extends w (S k) (decode (value_pack reg (S n))) (decode (value_pack reg (S m))).
Proof.
  intros [|c bs] Hk; [split; [done|by left]|]. cbn in Hk. rewrite <- (Zb_bZ c). pose proof (bZ_range c) as Ht.
  set (t := bZ c) in *. clearbody t. cbn [decode value_pack simple_pack].
  rewrite !(dbind_ok _ _ _ _ _ (decode_tag t bs Ht)). cbn [uval].
  assert (Hgo : ∀ m1 m2 : dec PackError Value, extends w k m1 m2 →
    (m1 bs).2 `suffix_of` Zb t :: bs ∧ (m1 bs = m2 bs ∨ w = true ∧ (m1 bs).1 = Panic)).
  { intros m1 m2 Hm. destruct (Hm bs ltac:(lia)) as [Hs He]. split; [by apply suffix_cons_r|done]. }
  assert (Hfin : ∀ {A} (m1 m2 : dec PackError A) (f : A → Value), extends w k m1 m2 →
    (dbind m1 (fun x => dret (f x)) bs).2 `suffix_of` Zb t :: bs ∧
    (dbind m1 (fun x => dret (f x)) bs = dbind m2 (fun x => dret (f x)) bs ∨
      w = true ∧ (dbind m1 (fun x => dret (f x)) bs).1 = Panic)).
  { intros A m1 m2 f Hm. apply Hgo, extends_bind; [done|]. intros a. apply extends_ret. }
  assert (Hdur : extends w k (decode Duration_pack) (decode Duration_pack)).
  { apply extends_refl. intros bs'. apply Duration_panics. }
  clear Hk.
  destruct t as [|p|p]; [| |lia]; [apply Hfin, safe_extends, decode_safe|].
  repeat (destruct p as [p|p|];
    try lazymatch goal with
    | |- context [dthrow UnknownTag] => fail
    | |- _ => first [apply Hgo, extends_ret | apply Hfin; first
          [exact HV|exact ValArray_extends|exact Map_extends|exact Hdur
          |apply safe_extends; first [apply decode_safe|apply Abstract_safe|apply PBytes_safe|solve [eauto with netidx]]]]
    end; try (apply Hgo, safe_extends, safe_throw)).
Qed.
End Extends.

(** With more fuel than bytes the fuel does not matter, and a decoder that does not
    panic is not changed by more fuel. *)
Lemma value_fuel_enough reg k n m : (k ≤ n)%nat → (k ≤ m)%nat →
  extends false k (decode (value_pack reg n)) (decode (value_pack reg m)).
Proof.
  revert n m; induction k as [|k IH]; intros n m Hn Hm; [intros bs; lia|].
  destruct n as [|n], m as [|m]; try lia. apply value_extends, IH; lia.
Qed.
Lemma value_fuel_mono reg k n m : (n ≤ m)%nat →
  extends true k (decode (value_pack reg n)) (decode (value_pack reg m)).
Proof.
  revert n m; induction k as [|k IH]; intros n m Hn; [intros bs; lia|].
  destruct n as [|n]; [intros bs _; split; [done|by right]|]. destruct m as [|m]; [lia|].
  apply value_extends, IH; lia.
Qed.

#[export] Instance Value_ok reg : PackOk (Value_pack reg) (value_wf reg).
Proof.
  split; intros v Hv; cbn [encoded_len encode decode Value_pack simple_pack];
    assert (Hl : level_wf reg (S (depth v)) v) by (split; [done|lia]);
    [by apply (encoded_len_nonneg (P := value_pack reg (S (depth v))))|]. intros Hlt.
  destruct (encode_spec (P := value_pack reg (S (depth v))) v Hl Hlt) as (bs & He & Hz & Hd).
  exists bs. split; [done|]. split; [done|]. intros rest Hs. specialize (Hd rest Hs).
  set (k := S (length (bs ++ rest))). set (N := Nat.max (S (depth v)) k).
  destruct (value_fuel_mono reg k (S (depth v)) N ltac:(lia) (bs ++ rest) ltac:(lia)) as [_ [Hm|[_ Hm]]];
    [|rewrite Hd in Hm; done].
  destruct (value_fuel_enough reg k N k ltac:(lia) ltac:(lia) (bs ++ rest) ltac:(lia)) as [_ [Hf|[? _]]]; [|done].
  by rewrite <- Hf, <- Hm.
Qed.
End Facts.
