(* ===== verification/ValueOrd.v ===== *)
(** Comparing and hashing values (netidx-value/src/op.rs, lines 14-228, and the
    comparisons of array.rs and abstract_type.rs): equality, the order that the maps
    of values rely on, and what is fed to a hasher. *)
From Stdlib Require Import ZArith Lia.
From stdpp Require Import base gmap list strings sorting.
From Stdlib Require Import Strings.Byte.
From S2P Require Import Prelude Varint Pack Containers PackTypes Order Float Value.

(** ** Three way comparisons *)

Definition thenc (c d : comparison) : comparison := match c with Eq => d | _ => c end.
(** What two comparisons in a row say about the ends *)
Definition ctrans (c d : comparison) : option comparison :=
  match c, d with
  | Eq, d => Some d
  | c, Eq => Some c
  | Lt, Lt => Some Lt
  | Gt, Gt => Some Gt
  | _, _ => None
  end.

(** The law of [Ord] *)
Class TotalCmp {A} (cmp : A → A → comparison) : Prop := {
  tc_sym x y : cmp y x = CompOpp (cmp x y);
  tc_trans x y z c : ctrans (cmp x y) (cmp y z) = Some c → cmp x z = c
}.

Lemma tc_refl `{TotalCmp A cmp} x : cmp x x = Eq.
Proof. pose proof (tc_sym x x) as Hs. by destruct (cmp x x). Qed.

Lemma thenc_trans c1 c2 c3 d1 d2 d3 e :
  (∀ e, ctrans c1 c2 = Some e → c3 = e) →
  (c1 = Eq → c2 = Eq → ∀ e, ctrans d1 d2 = Some e → d3 = e) →
  ctrans (thenc c1 d1) (thenc c2 d2) = Some e → thenc c3 d3 = e.
Proof.
  intros H1 H2 He. destruct c1, c2; try discriminate; rewrite (H1 _ eq_refl); unfold thenc, ctrans in *;
    [by apply H2|destruct d1; congruence|destruct d1; congruence|destruct d2; congruence|congruence
    |destruct d2; congruence|congruence].
Qed.
Lemma thenc_opp c d : CompOpp (thenc c d) = thenc (CompOpp c) (CompOpp d).
Proof. by destruct c. Qed.

#[export] Instance Z_compare_total : TotalCmp Z.compare.
Proof.
  split; [intros; apply Z.compare_antisym|]. intros x y z c.
  destruct (Z.compare_spec x y), (Z.compare_spec y z); cbn; intros [= <-]; subst;
    rewrite ?Z.compare_eq_iff, ?Z.compare_lt_iff, ?Z.compare_gt_iff; lia.
Qed.
Lemma key_total {A B} (f : A → B) (cmp : B → B → comparison) `{!TotalCmp cmp} :
  TotalCmp (fun x y => cmp (f x) (f y)).
Proof. split; intros; [apply tc_sym|by eapply tc_trans]. Qed.
#[export] Instance str_cmp_total : TotalCmp str_cmp.
Proof.
  split; [intros; apply str_cmp_antisym|]. intros x y z c.
  destruct (str_cmp x y) eqn:E1, (str_cmp y z) eqn:E2; cbn; intros [= <-];
    rewrite ?str_cmp_eq in *; subst; try done; try by rewrite ?E1, ?E2.
  - by apply (str_lt_trans x y z).
  - rewrite str_cmp_antisym. apply (f_equal CompOpp) in E1, E2. rewrite <- str_cmp_antisym in E1, E2.
    by rewrite (str_lt_trans z y x E2 E1).
Qed.

(** ** The other crates *)

(** Equality, order and hash of decimals, times and registered types: lawful [Eq],
    [Ord] and [Hash] implementations *)
Class ValueCmp {VA : ValueApi} := {
  decimal_cmp : Decimal → Decimal → comparison;
  datetime_cmp : DateTime → DateTime → comparison;
  decimal_hash : Decimal → list Z;
  datetime_hash : DateTime → list Z;
  decimal_total :: TotalCmp decimal_cmp;
  datetime_total :: TotalCmp datetime_cmp;
  any_total :: TotalCmp any_cmp;
  any_eq_cmp a b : any_eq a b = true ↔ any_cmp a b = Eq;
  decimal_hash_eq a b : decimal_cmp a b = Eq → decimal_hash a = decimal_hash b;
  datetime_hash_eq a b : datetime_cmp a b = Eq → datetime_hash a = datetime_hash b;
  any_hash_eq a b : any_cmp a b = Eq → any_hash a = any_hash b
}.

Section Compare.
Context {VA : ValueApi} {VC : ValueCmp}.

Definition is_eq (c : comparison) : bool := match c with Eq => true | _ => false end.
Definition bool_cmp (a b : bool) : comparison := Z.compare (Z.b2z a) (Z.b2z b).
Definition duration_cmp (a b : Duration) : comparison :=
  thenc (as_secs a ?= as_secs b) (subsec_nanos a ?= subsec_nanos b).

(** [vtable.eq]: [downcast_ref] on both sides, [vtable.ord]: [type_id] is called on the
    two [&Abstract] and so always agrees, the [unwrap] of the second downcast panics *)
Definition abstract_eq (a b : Abstract) : bool :=
  match ab_t a, ab_t b with
  | UnknownAbstractType x, UnknownAbstractType y => bool_decide (x = y)
  | Registered x, Registered y => bool_decide (type_id x = type_id y) && any_eq x y
  | _, _ => false
  end.
Definition abstract_cmp (a b : Abstract) : res Empty_set comparison :=
  match ab_t a, ab_t b with
  | UnknownAbstractType x, UnknownAbstractType y => Ok (str_cmp x y)
  | Registered x, Registered y => if bool_decide (type_id x = type_id y) then Ok (any_cmp x y) else Panic
  | _, _ => Panic
  end.

(** [==] on floats with every NaN equal *)
Definition float_eq (F : format) (l r : Z) : bool :=
  if is_nan F l && is_nan F r then true else f_eq F l r.
Definition float_cmp (F : format) (l r : Z) : option comparison :=
  match is_nan F l, is_nan F r with
  | true, true => Some Eq
  | true, false => Some Lt
  | false, true => Some Gt
  | false, false => f_cmp F l r
  end.

(** [==] on slices *)
Section Slice.
Context {A : Type} (eqv : A → A → bool) (cmp : A → A → res Empty_set (option comparison)).
Fixpoint slice_eq (l r : list A) : bool :=
  match l, r with
  | [], [] => true
  | x :: l, y :: r => eqv x y && slice_eq l r
  | _, _ => false
  end.
(** [partial_cmp] on slices *)
Fixpoint slice_cmp (l r : list A) : res Empty_set (option comparison) :=
  match l, r with
  | [], [] => Ok (Some Eq)
  | [], _ => Ok (Some Lt)
  | _, [] => Ok (Some Gt)
  | x :: l, y :: r =>
      match cmp x y with
      | Ok (Some Eq) => slice_cmp l r
      | other => other
      end
  end.
End Slice.

(** [PartialEq for Value]; a map compares as the sequence of its entries *)
Fixpoint value_eq (x y : Value) {struct x} : bool :=
  bool_decide (typ_get x = typ_get y) &&
  match x, y with
  | VU8 l, VU8 r | VI8 l, VI8 r | VU16 l, VU16 r | VI16 l, VI16 r | VU32 l, VU32 r | VV32 l, VV32 r
  | VI32 l, VI32 r | VZ32 l, VZ32 r | VU64 l, VU64 r | VV64 l, VV64 r | VI64 l, VI64 r | VZ64 l, VZ64 r => l =? r
  | VF32 l, VF32 r => float_eq binary32 l r
  | VF64 l, VF64 r => float_eq binary64 l r
  | VDecimal l, VDecimal r => is_eq (decimal_cmp l r)
  | VDateTime l, VDateTime r => is_eq (datetime_cmp l r)
  | VDuration l, VDuration r => (as_secs l =? as_secs r) && (subsec_nanos l =? subsec_nanos r)
  | VBool l, VBool r => Bool.eqb l r
  | VNull, VNull => true
  | VString l, VString r => bool_decide (l = r)
  | VBytes l, VBytes r => bool_decide (l = r)
  | VError l, VError r => value_eq l r
  | VArray l, VArray r => slice_eq value_eq l r
  | VMap l, VMap r => slice_eq (fun a b => value_eq a.1 b.1 && value_eq a.2 b.2) l r
  | VAbstract l, VAbstract r => abstract_eq l r
  | _, _ => false
  end.

(** [PartialOrd for Value] *)
Fixpoint partial_cmp (x y : Value) {struct x} : res Empty_set (option comparison) :=
  match discriminant x ?= discriminant y with
  | Gt => Ok (Some Gt)
  | Lt => Ok (Some Lt)
  | Eq =>
      match x, y with
      | VU8 l, VU8 r | VI8 l, VI8 r | VU16 l, VU16 r | VI16 l, VI16 r | VU32 l, VU32 r | VV32 l, VV32 r
      | VI32 l, VI32 r | VZ32 l, VZ32 r | VU64 l, VU64 r | VV64 l, VV64 r | VI64 l, VI64 r | VZ64 l, VZ64 r =>
          Ok (Some (l ?= r))
      | VF32 l, VF32 r => Ok (float_cmp binary32 l r)
      | VF64 l, VF64 r => Ok (float_cmp binary64 l r)
      | VDecimal l, VDecimal r => Ok (Some (decimal_cmp l r))
      | VDateTime l, VDateTime r => Ok (Some (datetime_cmp l r))
      | VDuration l, VDuration r => Ok (Some (duration_cmp l r))
      | VBool l, VBool r => Ok (Some (bool_cmp l r))
      | VNull, VNull => Ok (Some Eq)
      | VString l, VString r => Ok (Some (str_cmp l r))
      | VBytes l, VBytes r => Ok (Some (str_cmp l r))
      | VError l, VError r => partial_cmp l r
      | VArray l, VArray r => slice_cmp partial_cmp l r
      | VMap l, VMap r =>
          slice_cmp (fun a b => match partial_cmp a.1 b.1 with
                     | Ok (Some Eq) => partial_cmp a.2 b.2
                     | other => other
                     end) l r
      | VAbstract l, VAbstract r => res_map Some (abstract_cmp l r)
      | _, _ => Panic
      end
  end.
(** [Ord::cmp] unwraps it. *)
Definition value_cmp (x y : Value) : res Empty_set comparison :=
  match partial_cmp x y with
  | Ok (Some c) => Ok c
  | Ok None | Panic => Panic
  | Err e => Err e
  end.

(** [Hash for Value]: what is written to the hasher *)
Definition float_hash (F : format) (mask : Z) (v : Z) : list Z :=
  if is_nan F v then [Z.lor (Z.land v mask) 1] else [v].
Definition str_hash (s : str) : list Z := (bZ <$> s) ++ [0xFF].
Definition bytes_hash (s : str) : list Z := zlen s :: (bZ <$> s).
Definition abstract_hash (a : Abstract) : list Z :=
  match ab_t a with UnknownAbstractType b => bytes_hash b | Registered x => any_hash x end.
Fixpoint value_hash (v : Value) : list Z :=
  match v with
  | VU32 v => [0; v] | VV32 v => [1; v] | VI32 v => [2; v] | VZ32 v => [3; v]
  | VU64 v => [4; v] | VV64 v => [5; v] | VI64 v => [6; v] | VZ64 v => [7; v]
  | VF32 v => 8 :: float_hash binary32 0xFF000000 v
  | VF64 v => 9 :: float_hash binary64 0xFFE0000000000000 v
  | VDateTime d => 10 :: datetime_hash d
  | VDuration d => [11; as_secs d; subsec_nanos d]
  | VString c => 12 :: str_hash c
  | VBytes b => 13 :: bytes_hash b
  | VBool true => [14] | VBool false => [15] | VNull => [16]
  | VError (VString e) => 18 :: str_hash e
  | VError v => 21 :: value_hash v
  | VArray a => 19 :: concat (value_hash <$> a)
  | VDecimal d => 20 :: decimal_hash d
  | VMap m => 21 :: concat ((fun kv => value_hash kv.1 ++ value_hash kv.2) <$> m)
  | VU8 v => [22; v] | VI8 v => [23; v] | VU16 v => [24; v] | VI16 v => [25; v]
  | VAbstract v => 26 :: abstract_hash v
  end.

(** ** The order as a total function *)

(** NaNs below everything else *)
Definition float_key (F : format) (x : Z) : Z :=
  if is_nan F x then - 2 ^ (mant_bits F + exp_bits F) else f_key F x.
Definition box_cmp (a b : Boxed) : comparison :=
  match a, b with
  | UnknownAbstractType x, UnknownAbstractType y => str_cmp x y
  | Registered x, Registered y => any_cmp x y
  | _, _ => Eq
  end.

Section Lex.
Context {A : Type} (cmp : A → A → comparison).
Fixpoint lex (l r : list A) : comparison :=
  match l, r with
  | [], [] => Eq
  | [], _ => Lt
  | _, [] => Gt
  | x :: l, y :: r => thenc (cmp x y) (lex l r)
  end.
End Lex.

Fixpoint vcmp (x y : Value) {struct x} : comparison :=
  thenc (discriminant x ?= discriminant y)
    match x, y with
    | VU8 l, VU8 r | VI8 l, VI8 r | VU16 l, VU16 r | VI16 l, VI16 r | VU32 l, VU32 r | VV32 l, VV32 r
    | VI32 l, VI32 r | VZ32 l, VZ32 r | VU64 l, VU64 r | VV64 l, VV64 r | VI64 l, VI64 r | VZ64 l, VZ64 r => l ?= r
    | VF32 l, VF32 r => float_key binary32 l ?= float_key binary32 r
    | VF64 l, VF64 r => float_key binary64 l ?= float_key binary64 r
    | VDecimal l, VDecimal r => decimal_cmp l r
    | VDateTime l, VDateTime r => datetime_cmp l r
    | VDuration l, VDuration r => duration_cmp l r
    | VBool l, VBool r => bool_cmp l r
    | VString l, VString r | VBytes l, VBytes r => str_cmp l r
    | VError l, VError r => vcmp l r
    | VArray l, VArray r => lex vcmp l r
    | VMap l, VMap r => lex (fun a b => thenc (vcmp a.1 b.1) (vcmp a.2 b.2)) l r
    | VAbstract l, VAbstract r => box_cmp (ab_t l) (ab_t r)
    | _, _ => Eq
    end.

(** All abstract values inside are of the type [t]. *)
Fixpoint same_abs (t : option Z) (v : Value) : Prop :=
  match v with
  | VError e => same_abs t e
  | VArray a => foldr (fun x P => same_abs t x ∧ P) True a
  | VMap m => foldr (fun kv P => (same_abs t kv.1 ∧ same_abs t kv.2) ∧ P) True m
  | VAbstract a => box_tid (ab_t a) = t
  | _ => True
  end.

Lemma float_cmp_key F l r : 0 < mant_bits F → 0 < exp_bits F →
  float_cmp F l r = Some (float_key F l ?= float_key F r).
Proof.
  intros Hm He. pose proof (f_mag_range F l Hm He) as Hl. pose proof (f_mag_range F r Hm He) as Hr.
  unfold float_cmp, float_key, f_cmp, f_key.
  destruct (is_nan F l) eqn:E1, (is_nan F r) eqn:E2; cbn [orb]; f_equal; symmetry.
  - apply Z.compare_refl.
  - apply Z.compare_lt_iff. destruct (f_sign F r); lia.
  - apply Z.compare_gt_iff. destruct (f_sign F l); lia.
Qed.

Lemma slice_cmp_lex {A} (f : A → A → res Empty_set (option comparison)) (g : A → A → comparison) (D : A → Prop) l :
  Forall (fun x => ∀ y, D y → f x y = Ok (Some (g x y))) l →
  ∀ r, Forall D r → slice_cmp f l r = Ok (Some (lex g l r)).
Proof.
  induction 1 as [|x l Hx _ IH]; intros [|y r] Hr; try done. apply Forall_cons in Hr as [Hy Hr].
  cbn [slice_cmp lex]. rewrite (Hx y Hy). destruct (g x y); cbn [thenc]; auto.
Qed.

Lemma same_abs_array t a : same_abs t (VArray a) ↔ Forall (same_abs t) a.
Proof. cbn. induction a as [|x a IH]; cbn; [by rewrite Forall_nil|]. by rewrite Forall_cons, IH. Qed.
Lemma same_abs_map t m :
  same_abs t (VMap m) ↔ Forall (fun kv => same_abs t kv.1 ∧ same_abs t kv.2) m.
Proof. cbn. induction m as [|x m IH]; cbn; [by rewrite Forall_nil|]. by rewrite Forall_cons, IH. Qed.

(** [partial_cmp] computes the order on values with one abstract type. *)
Lemma partial_cmp_vcmp t x : same_abs t x → ∀ y, same_abs t y → partial_cmp x y = Ok (Some (vcmp x y)).
Proof.
  induction x as [x He Ha Hm|e IH|a IH|m IH] using Value_induction; intros Hx y Hy.
  - destruct x as [ | | | | | | | | | | | | | | | | | |e|a|m| | | |a], y;
      try reflexivity; try (by edestruct He); try (by edestruct Ha); try (by edestruct Hm).
    + cbn. by rewrite float_cmp_key.
    + cbn. by rewrite float_cmp_key.
    + cbn in *. unfold abstract_cmp, box_cmp. destruct (ab_t a), (ab_t a0); cbn in *; try congruence; try done.
      rewrite bool_decide_eq_true_2 by congruence. done.
  - destruct y; try reflexivity. cbn in *. by apply IH.
  - destruct y as [ | | | | | | | | | | | | | | | | | | |b| | | | | ]; try reflexivity.
    apply same_abs_array in Hx, Hy. cbn [partial_cmp vcmp discriminant]. rewrite Z.compare_refl. cbn [thenc].
    apply (slice_cmp_lex _ _ (same_abs t)); [|done]. rewrite Forall_forall in IH, Hx |- *. auto.
  - destruct y as [ | | | | | | | | | | | | | | | | | | | |b| | | | ]; try reflexivity.
    apply same_abs_map in Hx, Hy. cbn [partial_cmp vcmp discriminant]. rewrite Z.compare_refl. cbn [thenc].
    apply (slice_cmp_lex _ _ (fun kv => same_abs t kv.1 ∧ same_abs t kv.2)); [|done].
    rewrite Forall_forall in IH, Hx |- *. intros kv Hin kv' [H1 H2]. destruct (IH kv Hin) as [I1 I2].
    destruct (Hx kv Hin) as [X1 X2]. rewrite I1 by done. destruct (vcmp kv.1 kv'.1); cbn [thenc]; auto.
Qed.

(** *** The laws of the order *)

Lemma lex_sym {A} (cmp : A → A → comparison) l :
  Forall (fun x => ∀ y, cmp y x = CompOpp (cmp x y)) l → ∀ r, lex cmp r l = CompOpp (lex cmp l r).
Proof.
  induction 1 as [|x l Hx _ IH]; intros [|y r]; try done. cbn. by rewrite thenc_opp, Hx, IH.
Qed.
Lemma lex_trans {A} (cmp : A → A → comparison) (D : A → Prop) l :
  Forall (fun x => ∀ y z c, D y → D z → ctrans (cmp x y) (cmp y z) = Some c → cmp x z = c) l →
  ∀ r s c, Forall D r → Forall D s → ctrans (lex cmp l r) (lex cmp r s) = Some c → lex cmp l s = c.
Proof.
  induction 1 as [|x l Hx _ IH]; intros [|y r] [|z s] c Hr Hs; cbn; try congruence.
  - destruct (thenc (cmp y z) (lex cmp r s)); cbn; congruence.
  - destruct (thenc (cmp x y) (lex cmp l r)); cbn; congruence.
  - apply Forall_cons in Hr as [Hy Hr], Hs as [Hz Hs]. apply thenc_trans; [eauto|].
    intros _ _ e. by apply IH.
Qed.

#[export] Instance bool_total : TotalCmp bool_cmp.
Proof. apply (key_total Z.b2z Z.compare). Qed.
#[export] Instance duration_total : TotalCmp duration_cmp.
Proof.
  split; intros.
  - unfold duration_cmp. by rewrite thenc_opp, <- !Z.compare_antisym.
  - unfold duration_cmp in *. eapply thenc_trans; [| |eassumption].
    + intros e. apply tc_trans.
    + intros _ _ e. apply tc_trans.
Qed.
Lemma box_sym a b : box_cmp b a = CompOpp (box_cmp a b).
Proof. destruct a, b; cbn; try done; apply tc_sym. Qed.
Lemma box_trans t a b d c : box_tid a = t → box_tid b = t → box_tid d = t →
  ctrans (box_cmp a b) (box_cmp b d) = Some c → box_cmp a d = c.
Proof. destruct a, b, d; cbn; intros <-; try congruence; intros _ _; apply tc_trans. Qed.

Lemma vcmp_sym x : ∀ y, vcmp y x = CompOpp (vcmp x y).
Proof.
  induction x as [x He Ha Hm|e IH|a IH|m IH] using Value_induction; intros y.
  - destruct x as [ | | | | | | | | | | | | | | | | | |e|a|m| | | |a], y;
      try reflexivity; try (by edestruct He); try (by edestruct Ha); try (by edestruct Hm);
      cbn; rewrite ?Z.compare_refl; cbn; first [apply Z.compare_antisym|apply str_cmp_antisym|apply box_sym|apply tc_sym].
  - destruct y; try reflexivity. cbn. by rewrite IH.
  - destruct y; try reflexivity. cbn. rewrite ?Z.compare_refl. by apply lex_sym.
  - destruct y; try reflexivity. cbn. rewrite ?Z.compare_refl. apply lex_sym.
    eapply Forall_impl; [exact IH|]. intros kv [I1 I2] kv'. by rewrite thenc_opp, I1, I2.
Qed.

Definition payload_cmp (x y : Value) : comparison :=
  match x, y with
  | VU8 l, VU8 r | VI8 l, VI8 r | VU16 l, VU16 r | VI16 l, VI16 r | VU32 l, VU32 r | VV32 l, VV32 r
  | VI32 l, VI32 r | VZ32 l, VZ32 r | VU64 l, VU64 r | VV64 l, VV64 r | VI64 l, VI64 r | VZ64 l, VZ64 r => l ?= r
  | VF32 l, VF32 r => float_key binary32 l ?= float_key binary32 r
  | VF64 l, VF64 r => float_key binary64 l ?= float_key binary64 r
  | VDecimal l, VDecimal r => decimal_cmp l r
  | VDateTime l, VDateTime r => datetime_cmp l r
  | VDuration l, VDuration r => duration_cmp l r
  | VBool l, VBool r => bool_cmp l r
  | VString l, VString r | VBytes l, VBytes r => str_cmp l r
  | VError l, VError r => vcmp l r
  | VArray l, VArray r => lex vcmp l r
  | VMap l, VMap r => lex (fun a b => thenc (vcmp a.1 b.1) (vcmp a.2 b.2)) l r
  | VAbstract l, VAbstract r => box_cmp (ab_t l) (ab_t r)
  | _, _ => Eq
  end.
Lemma vcmp_payload x y : vcmp x y = thenc (discriminant x ?= discriminant y) (payload_cmp x y).
Proof. by destruct x. Qed.

Lemma vcmp_trans t x : same_abs t x →
  ∀ y z c, same_abs t y → same_abs t z → ctrans (vcmp x y) (vcmp y z) = Some c → vcmp x z = c.
Proof.
  induction x as [x He Ha Hm|x IH|l IH|l IH] using Value_induction; intros Hx y z c Hy Hz;
    rewrite !vcmp_payload; (apply thenc_trans; [intros e; apply tc_trans|]);
    rewrite !Z.compare_eq_iff; intros E1 E2 e.
  - destruct x as [ | | | | | | | | | | | | | | | | | |v|v|v| | | |a]; try (by edestruct He);
      try (by edestruct Ha); try (by edestruct Hm);
      destruct y; try discriminate E1; destruct z; try discriminate E2; cbn [payload_cmp];
      try apply tc_trans; try (by eapply box_trans); cbn; congruence.
  - destruct y; try discriminate E1; destruct z; try discriminate E2. cbn [payload_cmp]. by apply IH.
  - destruct y; try discriminate E1; destruct z; try discriminate E2. cbn [payload_cmp].
    apply same_abs_array in Hx, Hy, Hz. apply (lex_trans vcmp (same_abs t)); [|done|done].
    rewrite Forall_forall in IH, Hx |- *. intros v Hin. apply (IH v Hin), Hx, Hin.
  - destruct y; try discriminate E1; destruct z; try discriminate E2. cbn [payload_cmp].
    apply same_abs_map in Hx, Hy, Hz.
    apply (lex_trans _ (fun kv => same_abs t kv.1 ∧ same_abs t kv.2)); [|done|done].
    rewrite Forall_forall in IH, Hx |- *. intros kv Hin ky kz d [] []. destruct (IH kv Hin) as [I1 I2].
    destruct (Hx kv Hin). apply thenc_trans; [intros e'; by apply I1|]. intros _ _ e'. by apply I2.
Qed.

Lemma vcmp_refl x : vcmp x x = Eq.
Proof. pose proof (vcmp_sym x x) as Hs. by destruct (vcmp x x). Qed.

(** *** Equality agrees with the order *)

Lemma float_eq_key F l r : 0 < mant_bits F → 0 < exp_bits F →
  float_eq F l r = true ↔ float_key F l = float_key F r.
Proof.
  intros Hm He. pose proof (f_mag_range F l Hm He) as Hl. pose proof (f_mag_range F r Hm He) as Hr.
  unfold float_eq, float_key, f_eq, f_key. destruct (is_nan F l), (is_nan F r); cbn [andb negb].
  - done.
  - split; [done|]. destruct (f_sign F r); lia.
  - split; [done|]. destruct (f_sign F l); lia.
  - by rewrite Z.eqb_eq.
Qed.

Lemma thenc_eq c d : thenc c d = Eq ↔ c = Eq ∧ d = Eq.
Proof. destruct c; cbn; intuition congruence. Qed.
Lemma slice_eq_lex {A} (f : A → A → bool) (g : A → A → comparison) (D : A → Prop) l :
  Forall (fun x => ∀ y, D y → f x y = true ↔ g x y = Eq) l →
  ∀ r, Forall D r → slice_eq f l r = true ↔ lex g l r = Eq.
Proof.
  induction 1 as [|x l Hx _ IH]; intros [|y r] Hr; try done. apply Forall_cons in Hr as [Hy Hr]. cbn.
  by rewrite andb_true_iff, thenc_eq, Hx, IH.
Qed.
Lemma typ_get_discriminant x y : discriminant x ≠ discriminant y → typ_get x ≠ typ_get y.
Proof. destruct x, y; cbn; congruence. Qed.
Lemma is_eq_true c : is_eq c = true ↔ c = Eq.
Proof. by destruct c. Qed.
Lemma box_eq_cmp a b : (box_tid (ab_t a) = box_tid (ab_t b)) →
  abstract_eq a b = true ↔ box_cmp (ab_t a) (ab_t b) = Eq.
Proof.
  unfold abstract_eq. destruct (ab_t a), (ab_t b); cbn; try done; intros Ht.
  - by rewrite bool_decide_eq_true, str_cmp_eq.
  - rewrite bool_decide_eq_true_2 by congruence. cbn. apply any_eq_cmp.
Qed.

Lemma value_eq_vcmp t x : same_abs t x → ∀ y, same_abs t y → value_eq x y = true ↔ vcmp x y = Eq.
Proof.
  induction x as [x He Ha Hm|x IH|l IH|l IH] using Value_induction; intros Hx y Hy;
    rewrite vcmp_payload, thenc_eq, Z.compare_eq_iff.
  - destruct (decide (discriminant x = discriminant y)) as [Hd|Hd].
    2:{ pose proof (typ_get_discriminant x y Hd). split; [|by intros [? _]].
        destruct x; cbn [value_eq]; rewrite bool_decide_eq_false_2 by done; done. }
    transitivity (payload_cmp x y = Eq); [|by intuition].
    destruct x as [ | | | | | | | | | | | | | | | | | |v|v|v| | | |a]; try (by edestruct He);
      try (by edestruct Ha); try (by edestruct Hm); destruct y; try discriminate Hd; cbn [value_eq payload_cmp];
      (rewrite bool_decide_eq_true_2 by reflexivity); cbn [andb];
      try (by rewrite Z.eqb_eq, Z.compare_eq_iff); try (by rewrite is_eq_true);
      try (by rewrite bool_decide_eq_true, str_cmp_eq).
    + by rewrite float_eq_key, Z.compare_eq_iff.
    + by rewrite float_eq_key, Z.compare_eq_iff.
    + destruct b, b0; done.
    + done.
    + unfold duration_cmp. by rewrite andb_true_iff, thenc_eq, !Z.eqb_eq, !Z.compare_eq_iff.
    + apply box_eq_cmp. cbn in *. congruence.
  - destruct y; try (split; [done|intros [? _]; done]). cbn [value_eq].
    rewrite bool_decide_eq_true_2 by reflexivity. cbn [andb payload_cmp]. rewrite IH by done. intuition.
  - destruct y; try (split; [done|intros [? _]; done]). apply same_abs_array in Hx, Hy.
    transitivity (lex vcmp l a = Eq); [|cbn; intuition]. cbn [value_eq].
    rewrite bool_decide_eq_true_2 by done. cbn [andb]. apply (slice_eq_lex _ _ (same_abs t)); [|done].
    rewrite Forall_forall in IH, Hx |- *. intros v Hin. apply (IH v Hin), Hx, Hin.
  - destruct y; try (split; [done|intros [? _]; done]). apply same_abs_map in Hx, Hy.
    transitivity (payload_cmp (VMap l) (VMap m) = Eq); [|cbn; intuition]. cbn [value_eq payload_cmp].
    rewrite bool_decide_eq_true_2 by done. cbn [andb].
    apply (slice_eq_lex _ _ (fun kv => same_abs t kv.1 ∧ same_abs t kv.2)); [|done].
    rewrite Forall_forall in IH, Hx |- *. intros kv Hin ky []. destruct (IH kv Hin) as [I1 I2].
    destruct (Hx kv Hin). by rewrite andb_true_iff, thenc_eq, I1, I2.
Qed.

(** *** Hashes *)

(** No float inside is a NaN or a zero. *)
Fixpoint plain_floats (v : Value) : Prop :=
  match v with
  | VF32 z => is_nan binary32 z = false ∧ is_zero binary32 z = false ∧ in_u 32 z
  | VF64 z => is_nan binary64 z = false ∧ is_zero binary64 z = false ∧ in_u 64 z
  | VError e => plain_floats e
  | VArray a => foldr (fun x P => plain_floats x ∧ P) True a
  | VMap m => foldr (fun kv P => (plain_floats kv.1 ∧ plain_floats kv.2) ∧ P) True m
  | _ => True
  end.
Lemma plain_array a : plain_floats (VArray a) ↔ Forall plain_floats a.
Proof. cbn. induction a as [|x a IH]; cbn; [by rewrite Forall_nil|]. by rewrite Forall_cons, IH. Qed.
Lemma plain_map m : plain_floats (VMap m) ↔ Forall (fun kv => plain_floats kv.1 ∧ plain_floats kv.2) m.
Proof. cbn. induction m as [|x m IH]; cbn; [by rewrite Forall_nil|]. by rewrite Forall_cons, IH. Qed.

Lemma float_key_inj F l r :
  0 < mant_bits F → 0 < exp_bits F → in_u (mant_bits F + exp_bits F + 1) l → in_u (mant_bits F + exp_bits F + 1) r →
  is_nan F l = false → is_nan F r = false → is_zero F l = false → float_key F l = float_key F r → l = r.
Proof.
  intros Hm He Hl Hr Nl Nr Zl. unfold float_key. rewrite Nl, Nr. unfold f_key, is_zero in *.
  apply Z.eqb_neq in Zl. pose proof (f_mag_range F l Hm He). pose proof (f_mag_range F r Hm He).
  assert (Hdec : ∀ x, in_u (mant_bits F + exp_bits F + 1) x →
    x = f_bits F (f_sign F x) (f_mag F x)).
  { intros x Hx. unfold f_bits, f_sign, f_mag. set (w := mant_bits F + exp_bits F) in *.
    rewrite Z.testbit_odd, Z.shiftr_div_pow2 by lia. unfold in_u in Hx.
    rewrite Z.pow_add_r in Hx by lia. change (2 ^ 1) with 2 in Hx. assert (0 < 2 ^ w) by (apply Z.pow_pos_nonneg; lia).
    pose proof (Z.div_mod x (2 ^ w) ltac:(lia)).
    assert (0 ≤ x / 2 ^ w < 2) by (split; [apply Z.div_pos; lia|apply Z.div_lt_upper_bound; lia]).
    assert (x / 2 ^ w = 0 ∨ x / 2 ^ w = 1) as [Hq|Hq] by lia; rewrite Hq in *; cbn [Z.odd]; lia. }
  intros Hk. rewrite (Hdec l Hl), (Hdec r Hr). unfold f_bits.
  destruct (f_sign F l), (f_sign F r); lia.
Qed.

(** Equal values without NaNs and zeros feed the hasher the same. *)
Lemma value_hash_eq t x : same_abs t x → plain_floats x →
  ∀ y, same_abs t y → plain_floats y → vcmp x y = Eq → value_hash x = value_hash y.
Proof.
  induction x as [x He Ha Hm|x IH|l IH|l IH] using Value_induction; intros Hx Px y Hy Py;
    rewrite vcmp_payload, thenc_eq, Z.compare_eq_iff; intros [Hd Hp].
  - destruct x as [ | | | | | | | | | | | | | | | | | |v|v|v| | | |a]; try (by edestruct He);
      try (by edestruct Ha); try (by edestruct Hm); destruct y; try discriminate Hd; cbn [payload_cmp value_hash] in *;
      try (apply Z.compare_eq_iff in Hp; congruence); try (by rewrite ?(str_cmp_eq _ _) in Hp; subst).
    + apply Z.compare_eq_iff in Hp. cbn in Px, Py. f_equal. unfold float_hash.
      destruct Px as (N1 & Z1 & U1), Py as (N2 & Z2 & U2). rewrite N1, N2.
      by rewrite (float_key_inj binary32 v v0).
    + apply Z.compare_eq_iff in Hp. cbn in Px, Py. f_equal. unfold float_hash.
      destruct Px as (N1 & Z1 & U1), Py as (N2 & Z2 & U2). rewrite N1, N2.
      by rewrite (float_key_inj binary64 v v0).
    + destruct b, b0; done.
    + f_equal. by apply decimal_hash_eq.
    + f_equal. by apply datetime_hash_eq.
    + unfold duration_cmp in Hp. rewrite thenc_eq, !Z.compare_eq_iff in Hp. destruct Hp. congruence.
    + f_equal. unfold abstract_hash. cbn in Hx, Hy.
      destruct (ab_t a), (ab_t a0); cbn in *; try congruence.
      * apply str_cmp_eq in Hp. by subst.
      * by apply any_hash_eq.
  - destruct y as [ | | | | | | | | | | | | | | | | | |y| | | | | | ]; try discriminate Hd.
    cbn [payload_cmp same_abs plain_floats] in *. specialize (IH Hx Px y Hy Py Hp).
    rewrite vcmp_payload, thenc_eq, Z.compare_eq_iff in Hp. destruct Hp as [Hd' _].
    destruct x; destruct y; try discriminate Hd'; cbn [value_hash] in *; congruence.
  - destruct y as [ | | | | | | | | | | | | | | | | | | |r| | | | | ]; try discriminate Hd.
    apply same_abs_array in Hx, Hy. apply plain_array in Px, Py. cbn [payload_cmp value_hash] in *.
    f_equal. f_equal. clear Hd. revert r Hy Py Hp. induction IH as [|x l Hhx _ IHl]; intros [|y r] Hy Py Hp; try done.
    apply Forall_cons in Hx as [Hx Hxs], Hy as [Hy Hys], Px as [Px Pxs], Py as [Py Pys].
    cbn in Hp. apply thenc_eq in Hp as [Hp1 Hp2]. cbn. f_equal; auto.
  - destruct y as [ | | | | | | | | | | | | | | | | | | | |r| | | | ]; try discriminate Hd.
    apply same_abs_map in Hx, Hy. apply plain_map in Px, Py. cbn [payload_cmp value_hash] in *.
    f_equal. f_equal. clear Hd. revert r Hy Py Hp. induction IH as [|x l Hhx _ IHl]; intros [|y r] Hy Py Hp; try done.
    apply Forall_cons in Hx as [[X1 X2] Hxs], Hy as [[Y1 Y2] Hys], Px as [[P1 P2] Pxs], Py as [[Q1 Q2] Pys].
    cbn in Hp. rewrite !thenc_eq in Hp. destruct Hp as [[Hp1 Hp2] Hp3]. destruct Hhx as [H1 H2].
    cbn. f_equal; [|by auto]. rewrite (H1 X1 P1 y.1) by done. by rewrite (H2 X2 P2 y.2).
Qed.
End Compare.
