(* ===== verification/ValArray.v ===== *)
(** Arrays of values and their slices (netidx-value/src/array.rs): an array is a base
    or a window into one, and [subslice] makes a window without copying. The theorems
    compare it with indexing the elements by the same range. Arithmetic on [usize]
    that would overflow panics. *)
From Stdlib Require Import ZArith Lia.
From stdpp Require Import base list.
From S2P Require Import Prelude Varint Pack Containers.

Section Arrays.
Context {A : Type}.

(** [ValArrayInner] and its bounds *)
Inductive ValArray :=
| Base (a : list A)
| Slice (base : list A) (start stop : Bound Z).

(** Indexing a slice by a pair of bounds: [None] is the panic *)
Definition index (l : list A) (start stop : Bound Z) : option (list A) :=
  let i := match start with Unbounded => 0 | Included i => i | Excluded i => i + 1 end in
  let j := match stop with Unbounded => zlen l | Included j => j + 1 | Excluded j => j end in
  if (i <=? j) && (j <=? zlen l) then Some (drop (Z.to_nat i) (take (Z.to_nat j) l)) else None.

(** [Deref] *)
Definition deref (v : ValArray) : option (list A) :=
  match v with Base a => Some a | Slice base start stop => index base start stop end.

Inductive SliceError := OutOfBounds | Backwards.

Definition checked_add (x y : Z) : res SliceError Z := if x + y <? 2 ^ 64 then Ok (x + y) else Panic.

(** [check_bounds] *)
Definition check_bounds (a : list A) (start stop : Bound Z) : res SliceError unit :=
  let len := zlen a in
  res_bind match start with
    | Unbounded => Ok ()
    | Excluded i => if len <? 1 then Panic else if len - 1 <? i then Err OutOfBounds else Ok ()
    | Included i => if len <? i then Err OutOfBounds else Ok ()
    end (fun _ =>
  res_bind match stop with
    | Unbounded => Ok ()
    | Excluded i => if len <? i then Err OutOfBounds else Ok ()
    | Included i => if len <=? i then Err OutOfBounds else Ok ()
    end (fun _ =>
  match start, stop with
  | Unbounded, _ | _, Unbounded => Ok ()
  | Included i, Included j | Excluded i, Included j | Included i, Excluded j =>
      if j <? i then Err Backwards else Ok ()
  | Excluded i, Excluded j => if j <=? i then Err Backwards else Ok ()
  end)).

(** The start of a slice of a slice: its index and offset, and the new bound *)
Definition slice_start (max_i : Z) (s start : Bound Z) : res SliceError (Z * Z * Bound Z) :=
  match s, start with
  | Unbounded, Unbounded => Ok (0, 0, Unbounded)
  | Unbounded, Excluded i => if max_i <=? i then Err OutOfBounds else Ok (i, i, Excluded i)
  | Unbounded, Included i => if max_i <? i then Err OutOfBounds else Ok (i, i, Included i)
  | Excluded i, Unbounded => Ok (i, 0, Excluded i)
  | Excluded i, Included j | Excluded i, Excluded j =>
      res_bind (checked_add i j) (fun si => if max_i <=? si then Err OutOfBounds else Ok (si, j, Excluded si))
  | Included i, Unbounded => Ok (i, 0, Included i)
  | Included i, Included j =>
      res_bind (checked_add i j) (fun si => if max_i <? si then Err OutOfBounds else Ok (si, j, Included si))
  | Included i, Excluded j =>
      res_bind (checked_add i j) (fun si => if max_i <=? si then Err OutOfBounds else Ok (si, j, Excluded si))
  end.

(** The end: [over r] is the test of the branch *)
Definition slice_end (start_i start_off : Z) (over : Z → bool) (j : Z) (mk : Z → Bound Z) : res SliceError (Bound Z) :=
  if j <? start_off then Err Backwards
  else res_bind (checked_add start_i (j - start_off)) (fun r => if over r then Err OutOfBounds else Ok (mk r)).
Definition slice_stop (max_i start_i start_off : Z) (s stop : Bound Z) : res SliceError (Bound Z) :=
  match s, stop with
  | Unbounded, Unbounded => Ok Unbounded
  | Unbounded, Excluded j => slice_end start_i start_off (fun r => max_i <? r) j Excluded
  | Unbounded, Included j => slice_end start_i start_off (fun r => max_i <? r) j Included
  | Excluded i, Unbounded => Ok (Excluded i)
  | Excluded i, Excluded j => slice_end start_i start_off (fun r => i <? r) j Excluded
  | Excluded i, Included j => slice_end start_i start_off (fun r => i <=? r) j Included
  | Included i, Unbounded => Ok (Included i)
  | Included i, Excluded j => slice_end start_i start_off (fun r => i + 1 <? r) j Excluded
  | Included i, Included j => slice_end start_i start_off (fun r => i <? r) j Included
  end.

(** [ValArray::subslice] *)
Definition subslice (v : ValArray) (start stop : Bound Z) : res SliceError ValArray :=
  match v with
  | Base a => res_bind (check_bounds a start stop) (fun _ => Ok (Slice a start stop))
  | Slice base s_start s_stop =>
      let max_i := match s_stop with Unbounded => zlen base | Excluded i => i | Included i => i end in
      res_bind match start, stop with
        | Excluded i, Excluded j => if j <=? i then Err Backwards else Ok ()
        | Included i, Included j => if j <? i then Err Backwards else Ok ()
        | _, _ => Ok ()
        end (fun _ =>
      res_bind (slice_start max_i s_start start) (fun '(start_i, start_off, start') =>
      res_bind (slice_stop max_i start_i start_off s_stop stop) (fun stop' =>
      Ok (Slice base start' stop'))))
  end.

(** ** Windows that can be sliced again *)

Definition bound_pos (b : Bound Z) : Prop :=
  match b with Unbounded => True | Included i | Excluded i => in_u 62 i end.

(** A base, or a window [i..j], [i..], [..j] inside of its base *)
Definition regular (v : ValArray) : Prop :=
  match v with
  | Base a => in_u 62 (zlen a)
  | Slice base start stop =>
      in_u 62 (zlen base) ∧ bound_pos start ∧ bound_pos stop ∧ is_Some (index base start stop) ∧
      match start with Excluded _ => False | _ => True end ∧ match stop with Included _ => False | _ => True end
  end.

(** The ranges [subslice] treats like indexing: not the empty range that ends with the
    index before its start, nor one that starts behind an index on an empty base, nor
    one that ends with an index on a window without an end *)
Definition handled (v : ValArray) (start stop : Bound Z) : Prop :=
  match start, stop with Included i, Included j => i ≠ j + 1 | _, _ => True end ∧
  match v with
  | Base a => a = [] → match start with Excluded _ => False | _ => True end
  | Slice _ _ Unbounded => match stop with Included _ => False | _ => True end
  | _ => True
  end.
Definition half_open (start stop : Bound Z) : Prop :=
  match start with Excluded _ => False | _ => True end ∧ match stop with Included _ => False | _ => True end.

(** The window of a pair of bounds *)
Definition lo (b : Bound Z) : Z := match b with Unbounded => 0 | Included i => i | Excluded i => i + 1 end.
Definition hi (len : Z) (b : Bound Z) : Z := match b with Unbounded => len | Included j => j + 1 | Excluded j => j end.
Definition window (l : list A) (i j : Z) : list A := drop (Z.to_nat i) (take (Z.to_nat j) l).

Lemma index_window l start stop :
  index l start stop =
    if (lo start <=? hi (zlen l) stop) && (hi (zlen l) stop <=? zlen l)
    then Some (window l (lo start) (hi (zlen l) stop)) else None.
Proof. by destruct start, stop. Qed.
Lemma index_some l start stop l' : index l start stop = Some l' →
  lo start ≤ hi (zlen l) stop ≤ zlen l ∧ l' = window l (lo start) (hi (zlen l) stop).
Proof.
  rewrite index_window. destruct (Z.leb_spec (lo start) (hi (zlen l) stop)); [|done].
  destruct (Z.leb_spec (hi (zlen l) stop) (zlen l)); [|done]. by intros [= <-].
Qed.
Lemma index_make l start stop : lo start ≤ hi (zlen l) stop ≤ zlen l →
  index l start stop = Some (window l (lo start) (hi (zlen l) stop)).
Proof.
  intros [H1 H2]. rewrite index_window. destruct (Z.leb_spec (lo start) (hi (zlen l) stop)); [|lia].
  by destruct (Z.leb_spec (hi (zlen l) stop) (zlen l)); [|lia].
Qed.

Lemma window_length l i j : 0 ≤ i → i ≤ j ≤ zlen l → zlen (window l i j) = j - i.
Proof. intros. unfold window, zlen in *. rewrite length_drop, length_take. lia. Qed.
Lemma window_window l i j a b : 0 ≤ i → 0 ≤ a → 0 ≤ b → b ≤ j - i →
  window (window l i j) a b = window l (i + a) (i + b).
Proof.
  intros. unfold window. rewrite take_drop_commute, drop_drop, take_take. f_equal; [lia|]. f_equal. lia.
Qed.

(** What a window of a window must be *)
Definition refines (v : ValArray) (base : list A) (i j : Z) (start stop : Bound Z) : Prop :=
  if (lo start <=? hi (j - i) stop) && (hi (j - i) stop <=? j - i)
  then ∃ start' stop', subslice v start stop = Ok (Slice base start' stop') ∧
    lo start' = i + lo start ∧ hi (zlen base) stop' = i + hi (j - i) stop ∧
    bound_pos start' ∧ bound_pos stop' ∧ (half_open start stop → half_open start' stop')
  else ∃ e, subslice v start stop = Err e.

Ltac bounds_step :=
  match goal with
  | |- context [(?a <? ?b)] => destruct (Z.ltb_spec a b); try lia
  | |- context [(?a <=? ?b)] => destruct (Z.leb_spec a b); try lia
  end; cbn [andb res_bind].

Lemma base_refines a start stop : in_u 62 (zlen a) → bound_pos start → bound_pos stop →
  handled (Base a) start stop → refines (Base a) a 0 (zlen a) start stop.
Proof.
  intros Ha Hs He [Hii Hh]. unfold refines, subslice, check_bounds. rewrite Z.sub_0_r.
  assert (Hne : match start with Excluded _ => 1 ≤ zlen a | _ => True end).
  { destruct start; [done| |done]. destruct a as [|x a]; [by destruct (Hh eq_refl)|].
    rewrite zlen_cons. pose proof (zlen_nonneg a). lia. }
  unfold in_u in *. destruct start as [|i|i], stop as [|j|j]; cbn [lo hi bound_pos] in *; unfold in_u in *;
    cbn [res_bind]; repeat bounds_step; first [by eexists | eexists _, _; split; [reflexivity|]];
    cbn [lo hi bound_pos half_open]; unfold in_u, half_open; intuition lia.
Qed.

Lemma slice_refines base s_start s_stop start stop :
  regular (Slice base s_start s_stop) → bound_pos start → bound_pos stop →
  handled (Slice base s_start s_stop) start stop →
  refines (Slice base s_start s_stop) base (lo s_start) (hi (zlen base) s_stop) start stop.
Proof.
  intros (Hb & Hs1 & Hs2 & [l Hl] & Ho1 & Ho2) Hs He [Hii Hh]. apply index_some in Hl as [[Hl1 Hl2] _].
  unfold refines, subslice, slice_start, slice_stop, slice_end, checked_add.
  unfold in_u in *.
  destruct s_start as [|si|si]; [|done|]; (destruct s_stop as [|sj|sj]; [| |done]);
    destruct start as [|i|i], stop as [|j|j]; cbn [lo hi bound_pos handled] in *; unfold in_u in *; try done;
    cbn [res_bind]; repeat bounds_step; first [by eexists | eexists _, _; split; [reflexivity|]];
    cbn [lo hi bound_pos half_open]; unfold in_u, half_open; intuition lia.
Qed.

Lemma subslice_spec v l start stop :
  regular v → deref v = Some l → bound_pos start → bound_pos stop → handled v start stop →
  match index l start stop with
  | Some l' => ∃ v', subslice v start stop = Ok v' ∧ deref v' = Some l' ∧ (half_open start stop → regular v')
  | None => ∃ e, subslice v start stop = Err e
  end.
Proof.
  intros Hv Hl Hs He Hh.
  assert (∃ base i j, refines v base i j start stop ∧ l = window base i j ∧ 0 ≤ i ≤ j ∧ j ≤ zlen base ∧
    in_u 62 (zlen base)) as (base & i & j & Href & -> & Hij & Hj & Hb).
  { destruct v as [a|base s_start s_stop].
    - exists a, 0, (zlen a). injection Hl as <-. split; [by apply base_refines|].
      unfold window. rewrite drop_0, firstn_all2 by (unfold zlen; lia). cbn in Hv. unfold in_u in *.
      pose proof (zlen_nonneg a). intuition lia.
    - exists base, (lo s_start), (hi (zlen base) s_stop). split; [by apply slice_refines|].
      cbn in Hl. apply index_some in Hl as [[? ?] ->]. destruct Hv as (? & Hp & _).
      split; [done|]. split; [|done]. destruct s_start; cbn in *; unfold in_u in *; lia. }
  unfold refines in Href. rewrite index_window, window_length by lia.
  assert (Hlo : 0 ≤ lo start) by (destruct start; cbn in *; unfold in_u in *; lia).
  destruct (Z.leb_spec (lo start) (hi (j - i) stop)); [|done].
  destruct (Z.leb_spec (hi (j - i) stop) (j - i)); [|done]. cbn [andb] in *.
  destruct Href as (start' & stop' & Heq & Hlo' & Hhi' & Hp1 & Hp2 & Hho).
  exists (Slice base start' stop'). split; [done|]. cbn [deref regular].
  assert (Hidx : index base start' stop' = Some (window base (i + lo start) (i + hi (j - i) stop))).
  { rewrite index_make by lia. by rewrite Hlo', Hhi'. }
  rewrite window_window by lia. split; [done|]. intros Hhalf. destruct (Hho Hhalf). rewrite Hidx. eauto 10.
Qed.
End Arrays.
Arguments ValArray : clear implicits.
