(* ===== verification/ValueOps.v ===== *)
(** Casting values and arithmetic on them (netidx-value/src/lib.rs, cast;
    op.rs, from line 230). The printer and parser of values (print.rs, parser.rs), the
    decimals and the times are parameters; the durations of the standard library and
    the numbers are modelled. Recursion uses fuel; a parsed string can be any value. *)
From Stdlib Require Import ZArith Lia.
From stdpp Require Import base gmap list strings sorting.
From Stdlib Require Import Strings.Byte.
From S2P Require Import Prelude Varint Pack Containers PackTypes Order Float Value ValueOrd.

(** Printing and parsing; parsing fails with the text of the error *)
Class ValueText {VA : ValueApi} := {
  display : Value → str;
  parse_value : str → res str Value
}.

Inductive ArithOp := Add | Sub | Mul | Div | Rem.

(** rust_decimal: checked arithmetic and conversions *)
Class DecimalOps {VA : ValueApi} := {
  dec_of_int : Z → Decimal;
  dec_of_float : format → Z → str + Decimal;
  dec_to_int : Z → Z → Decimal → option Z;
  dec_to_float : format → Decimal → option Z;
  dec_arith : ArithOp → Decimal → Decimal → option Decimal;
  dec_to_int_range lo hi d z : dec_to_int lo hi d = Some z → lo ≤ z ≤ hi
}.

(** chrono: [from_std], [DateTime + Duration] which panics out of range, and the
    nanoseconds since the epoch *)
Class TimeOps {VA : ValueApi} := {
  va_duration :: ChronoDuration;
  from_std : Duration → str + CDuration;
  dt_shift : bool → DateTime → CDuration → option DateTime;
  timestamp_nanos_opt : DateTime → option Z
}.

(** ** The standard library's durations *)

Definition dur_ns (d : Duration) : Z := as_secs d * 1000000000 + subsec_nanos d.
Definition dur_of_ns (n : Z) : option Duration :=
  if (0 <=? n) && (n / 1000000000 <? 2 ^ 64)
  then Some (MkDuration (n / 1000000000) (n mod 1000000000)) else None.
Definition dur_checked_add (a b : Duration) : option Duration := dur_of_ns (dur_ns a + dur_ns b).
Definition dur_checked_sub (a b : Duration) : option Duration := dur_of_ns (dur_ns a - dur_ns b).
Definition dur_checked_mul (a : Duration) (n : Z) : option Duration := dur_of_ns (dur_ns a * n).
Definition dur_checked_div (a : Duration) (n : Z) : option Duration :=
  if n =? 0 then None else dur_of_ns (dur_ns a / n).
(** [as_secs_f64] and [as_secs_f32] *)
Definition as_secs_f (F : format) (d : Duration) : Z :=
  f_add F (f_of_int F (as_secs d)) (f_div F (f_of_int F (subsec_nanos d)) (f_of_int F 1000000000)).
(** [try_from_secs_f64]: rounds to the nearest nanosecond, ties to even; negative and
    too large numbers and NaNs are errors *)
Definition round_half_even (n d : Z) : Z :=
  let q := n / d in
  match 2 * (n mod d) ?= d with
  | Lt => q
  | Gt => q + 1
  | Eq => if Z.even q then q else q + 1
  end.
Definition try_from_secs_f64 (x : Z) : option Duration :=
  match to_sf binary64 x with
  | SpecFloat.S754_zero _ => Some (MkDuration 0 0)
  | SpecFloat.S754_finite false m e =>
      dur_of_ns (if 0 <=? e then Zpos m * 2 ^ e * 1000000000
                 else round_half_even (Zpos m * 1000000000) (2 ^ (- e)))
  | _ => None
  end.

(** ** Integer types *)

Record ity := MkIty { isigned : bool; ibits : Z }.
Definition U8 := MkIty false 8.
Definition I8 := MkIty true 8.
Definition U16 := MkIty false 16.
Definition I16 := MkIty true 16.
Definition U32 := MkIty false 32.
Definition I32 := MkIty true 32.
Definition U64 := MkIty false 64.
Definition I64 := MkIty true 64.
Definition imin (t : ity) : Z := if isigned t then - 2 ^ (ibits t - 1) else 0.
Definition imax (t : ity) : Z := if isigned t then 2 ^ (ibits t - 1) - 1 else 2 ^ ibits t - 1.
Definition in_ity (t : ity) (z : Z) : bool := (imin t <=? z) && (z <=? imax t).
(** [z as t] *)
Definition as_int (t : ity) (z : Z) : Z := if isigned t then swrap (ibits t) z else wrap (ibits t) z.

Definition int_exact (op : ArithOp) (x y : Z) : option Z :=
  match op with
  | Add => Some (x + y) | Sub => Some (x - y) | Mul => Some (x * y)
  | Div => if y =? 0 then None else Some (Z.quot x y)
  | Rem => if y =? 0 then None else Some (Z.rem x y)
  end.
(** [checked_add], ...; [checked_rem] also fails where the division overflows. *)
Definition int_checked (t : ity) (op : ArithOp) (x y : Z) : option Z :=
  match op with
  | Rem => if isigned t && (x =? imin t) && (y =? -1) then None else int_exact op x y
  | _ => match int_exact op x y with Some z => if in_ity t z then Some z else None | None => None end
  end.
Definition int_wrapping (t : ity) (op : ArithOp) (x y : Z) : option Z := as_int t <$> int_exact op x y.

Inductive Mode := Wrapping | Checked.
(** The mode of the operators: [/] and [%] are checked *)
Definition op_mode (op : ArithOp) : Mode := match op with Div | Rem => Checked | _ => Wrapping end.

Definition float_op (F : format) (op : ArithOp) : Z → Z → Z :=
  match op with Add => f_add F | Sub => f_sub F | Mul => f_mul F | Div => f_div F | Rem => f_rem F end.

Section Ops.
Context {VA : ValueApi} {CM : ChunkMap} {VT : ValueText} {DO : DecimalOps} {TO : TimeOps}.

Inductive Stop := OutOfFuel.
Abbreviation run := (res Stop).

(** [Value::error] *)
Definition error (s : str) : Value := VError (VString s).

(** ** Numbers *)

Inductive Num := NInt (t : ity) (z : Z) | NFloat (F : format) (x : Z) | NDec (d : Decimal).
Definition as_num (v : Value) : option Num :=
  match v with
  | VU8 z => Some (NInt U8 z) | VI8 z => Some (NInt I8 z)
  | VU16 z => Some (NInt U16 z) | VI16 z => Some (NInt I16 z)
  | VU32 z | VV32 z => Some (NInt U32 z) | VI32 z | VZ32 z => Some (NInt I32 z)
  | VU64 z | VV64 z => Some (NInt U64 z) | VI64 z | VZ64 z => Some (NInt I64 z)
  | VF32 x => Some (NFloat binary32 x) | VF64 x => Some (NFloat binary64 x)
  | VDecimal d => Some (NDec d)
  | _ => None
  end.
Definition of_int (t : ity) (z : Z) : Value :=
  match isigned t, ibits t with
  | false, 8 => VU8 z | true, 8 => VI8 z | false, 16 => VU16 z | true, 16 => VI16 z
  | false, 32 => VU32 z | true, 32 => VI32 z | false, _ => VU64 z | true, _ => VI64 z
  end.
Definition of_float (F : format) (x : Z) : Value := if mant_bits F =? 23 then VF32 x else VF64 x.

(** [int_op!], [checked_decimal!] *)
Definition int_op (mode : Mode) (t : ity) (op : ArithOp) (x y : Z) : Value :=
  match (match mode with Wrapping => int_wrapping t op x y | Checked => int_checked t op x y end) with
  | Some z => of_int t z
  | None => error (lit "arithmetic error")
  end.
Definition checked_decimal (op : ArithOp) (a b : Decimal) : Value :=
  match dec_arith op a b with
  | Some d => VDecimal d
  | None => error (lit "decimal arithmetic error")
  end.
Definition conversion_error (e : str) : Value := error (lit "could not convert " ++ e ++ lit " to decimal").

(** The arms of [apply_op!] for two numbers, with [apply_op_mixed_int!],
    [apply_op_mixed_float!] and [apply_op_mixed_decimal!]: integers compute in the
    wider type, and in the left one if they are as wide; a float on the left keeps its
    type; decimals win. *)
Definition num_op (mode : Mode) (op : ArithOp) (l r : Num) : Value :=
  match l, r with
  | NInt tl x, NInt tr y =>
      if ibits tl <? ibits tr then int_op mode tr op (as_int tr x) y
      else int_op mode tl op x (as_int tl y)
  | NInt _ x, NFloat F y => of_float F (float_op F op (f_of_int F x) y)
  | NInt _ x, NDec d => checked_decimal op (dec_of_int x) d
  | NFloat F x, NInt _ y => of_float F (float_op F op x (f_of_int F y))
  | NFloat F x, NFloat G y => of_float F (float_op F op x (f_convert G F y))
  | NFloat F x, NDec d =>
      match dec_of_float F x with inr x => checked_decimal op x d | inl e => conversion_error e end
  | NDec d, NInt _ y => checked_decimal op d (dec_of_int y)
  | NDec d, NFloat F y =>
      match dec_of_float F y with inr y => checked_decimal op d y | inl e => conversion_error e end
  | NDec a, NDec b => checked_decimal op a b
  end.

(** ** Casts *)

(** [cast_number!]: [v as i64], [v as f64] of the number *)
Definition num_as_int (t : ity) (n : Num) : Z :=
  match n with
  | NInt _ z => as_int t z
  | NFloat F x => f_to_int F (imin t) (imax t) x
  | NDec _ => 0
  end.
Definition num_as_float (F : format) (n : Num) : Z :=
  match n with NInt _ z => f_of_int F z | NFloat G x => f_convert G F x | NDec _ => 0 end.
Definition cast_number (self : Value) (n : Num) (typ : Typ) : run (option Value) :=
  match typ with
  | TU8 => Ok (Some (VU8 (num_as_int U8 n)))
  | TI8 => Ok (Some (VI8 (num_as_int I8 n)))
  | TU16 => Ok (Some (VU16 (num_as_int U16 n)))
  | TI16 => Ok (Some (VI16 (num_as_int I16 n)))
  | TU32 => Ok (Some (VU32 (num_as_int U32 n)))
  | TV32 => Ok (Some (VV32 (num_as_int U32 n)))
  | TI32 => Ok (Some (VI32 (num_as_int I32 n)))
  | TZ32 => Ok (Some (VZ32 (num_as_int I32 n)))
  | TU64 => Ok (Some (VU64 (num_as_int U64 n)))
  | TV64 => Ok (Some (VV64 (num_as_int U64 n)))
  | TI64 => Ok (Some (VI64 (num_as_int I64 n)))
  | TZ64 => Ok (Some (VZ64 (num_as_int I64 n)))
  | TF32 => Ok (Some (VF32 (num_as_float binary32 n)))
  | TF64 => Ok (Some (VF64 (num_as_float binary64 n)))
  | TDecimal =>
      Ok match n with
         | NInt _ z => Some (VDecimal (dec_of_int z))
         | NFloat F x => match dec_of_float F x with inr d => Some (VDecimal d) | inl _ => None end
         | NDec d => Some (VDecimal d)
         end
  | TDateTime => Ok (VDateTime <$> from_timestamp (num_as_int I64 n) 0)
  | TDuration =>
      match try_from_secs_f64 (num_as_float binary64 n) with Some d => Ok (Some (VDuration d)) | None => Panic end
  | TBool => Ok (Some (VBool (0 <? num_as_int I64 n)))
  | TString => Ok (Some (VString (display self)))
  | TArray => Ok (Some (VArray [self]))
  | TNull => Ok (Some VNull)
  | TBytes | TError | TMap | TAbstract => Ok None
  end.

Definition cast_decimal (d : Decimal) (typ : Typ) : option Value :=
  let int t mk := mk <$> dec_to_int (imin t) (imax t) d in
  match typ with
  | TDecimal => Some (VDecimal d)
  | TU8 => int U8 VU8 | TI8 => int I8 VI8 | TU16 => int U16 VU16 | TI16 => int I16 VI16
  | TU32 => int U32 VU32 | TV32 => int U32 VV32 | TI32 => int I32 VI32 | TZ32 => int I32 VZ32
  | TU64 => int U64 VU64 | TV64 => int U64 VV64 | TI64 => int I64 VI64 | TZ64 => int I64 VZ64
  | TF32 => VF32 <$> dec_to_float binary32 d
  | TF64 => VF64 <$> dec_to_float binary64 d
  | TString => Some (VString (display (VDecimal d)))
  | _ => None
  end.

Definition cast_datetime (d : DateTime) (typ : Typ) : run (option Value) :=
  let ts := timestamp d in
  let int t mk := Ok (if in_ity t ts then Some (mk ts) else None) in
  let secs := match timestamp_nanos_opt d with
    | Some ns => Some (f_add binary64 (f_of_int binary64 ts) (f_of_int binary64 (Z.quot ns 1000000000)))
    | None => None
    end in
  match typ with
  | TU8 | TI8 | TU16 | TI16 => Ok None
  | TU32 => int U32 VU32 | TV32 => int U32 VV32 | TI32 => int I32 VI32 | TZ32 => int I32 VZ32
  | TU64 => Ok (if ts <? 0 then None else Some (VU64 ts))
  | TV64 => Ok (if ts <? 0 then None else Some (VV64 ts))
  | TI64 => Ok (Some (VI64 ts)) | TZ64 => Ok (Some (VZ64 ts))
  | TF32 => Ok ((fun x => VF32 (f_convert binary64 binary32 x)) <$> secs)
  | TF64 => Ok (VF64 <$> secs)
  | TDateTime => Ok (Some (VDateTime d))
  | TArray => Ok (Some (VArray [VDateTime d]))
  | TNull => Ok (Some VNull)
  | TString => Panic
  | _ => Ok None
  end.

Definition cast_duration (d : Duration) (typ : Typ) : run (option Value) :=
  match typ with
  | TU32 => Ok (Some (VU32 (as_int U32 (as_secs d)))) | TV32 => Ok (Some (VV32 (as_int U32 (as_secs d))))
  | TI32 => Ok (Some (VI32 (as_int I32 (as_secs d)))) | TZ32 => Ok (Some (VZ32 (as_int I32 (as_secs d))))
  | TU64 => Ok (Some (VU64 (as_int U64 (as_secs d)))) | TV64 => Ok (Some (VV64 (as_int U64 (as_secs d))))
  | TI64 => Ok (Some (VI64 (as_int I64 (as_secs d)))) | TZ64 => Ok (Some (VZ64 (as_int I64 (as_secs d))))
  | TF32 => Ok (Some (VF32 (as_secs_f binary32 d)))
  | TF64 => Ok (Some (VF64 (as_secs_f binary64 d)))
  | TArray => Ok (Some (VArray [VDuration d]))
  | TDuration => Ok (Some (VDuration d))
  | TNull => Ok (Some VNull)
  | TString => Panic
  | _ => Ok None
  end.

Definition cast_bool (b : bool) (typ : Typ) : run (option Value) :=
  let z := Z.b2z b in
  match typ with
  | TU8 => Ok (Some (VU8 z)) | TI8 => Ok (Some (VI8 z)) | TU16 => Ok (Some (VU16 z)) | TI16 => Ok (Some (VI16 z))
  | TU32 => Ok (Some (VU32 z)) | TV32 => Ok (Some (VV32 z)) | TI32 => Ok (Some (VI32 z)) | TZ32 => Ok (Some (VZ32 z))
  | TU64 => Ok (Some (VU64 z)) | TV64 => Ok (Some (VV64 z)) | TI64 => Ok (Some (VI64 z)) | TZ64 => Ok (Some (VZ64 z))
  | TF32 => Ok (Some (VF32 (f_of_int binary32 z)))
  | TF64 => Ok (Some (VF64 (f_of_int binary64 z)))
  | TBool => Ok (Some (VBool b))
  | TArray => Ok (Some (VArray [VBool b]))
  | TNull => Ok (Some VNull)
  | TString => Panic
  | _ => Ok None
  end.

(** Every element with [f], stopping at the first that has no result *)
Section Collect.
Context {A B : Type} (f : A → run (option B)).
Fixpoint collect (l : list A) : run (option (list B)) :=
  match l with
  | [] => Ok (Some [])
  | x :: l =>
      match f x with
      | Ok (Some y) => res_map (option_map (cons y)) (collect l)
      | Ok None => Ok None
      | Err e => Err e
      | Panic => Panic
      end
  end.
End Collect.

(** [<(Value, Value)>::from_value] *)
Definition pair_from_value (cast : Value → Typ → run (option Value)) (v : Value) : run (option (Value * Value)) :=
  let pair a := match a with [x; y] => Some (x, y) | _ => None end in
  match v with
  | VArray a => Ok (pair a)
  | v =>
      match cast v TArray with
      | Ok (Some (VArray a)) => Ok (pair a)
      | Ok _ => Ok None
      | Err e => Err e
      | Panic => Panic
      end
  end.

(** [Value::cast] *)
Fixpoint cast (fuel : nat) (v : Value) (typ : Typ) : run (option Value) :=
  match fuel with
  | O => Err OutOfFuel
  | S fuel =>
      match v with
      | VString s =>
          match typ with
          | TString => Ok (Some (VString s))
          | TError => Ok (Some (VError (VString s)))
          | TArray => Ok (Some (VArray [VString s]))
          | _ => match parse_value s with Ok v => cast fuel v typ | Err _ => Ok None | Panic => Panic end
          end
      | _ =>
          if bool_decide (typ = TString) then Ok (Some (VString (display v)))
          else
            match v with
            | VMap m =>
                match typ with
                | TMap => Ok (Some (VMap m))
                | TArray => Ok (Some (VArray ((fun kv => VArray [kv.1; kv.2]) <$> m)))
                | _ => Ok None
                end
            | VArray elts =>
                match typ with
                | TArray => Ok (Some (VArray elts))
                | TMap =>
                    res_map (option_map (fun l => VMap (map_from_iter l)))
                      (collect (pair_from_value (cast fuel)) elts)
                | typ => match elts with v :: _ => cast fuel v typ | [] => Ok None end
                end
            | VDecimal d => Ok (cast_decimal d typ)
            | VDateTime d => cast_datetime d typ
            | VDuration d => cast_duration d typ
            | VBool b => cast_bool b typ
            | VBytes b => Ok (if bool_decide (typ = TBytes) then Some (VBytes b) else None)
            | VError _ => cast fuel (VBool false) typ
            | VNull => Ok (if bool_decide (typ = TNull) then Some VNull else None)
            | VAbstract a => Ok (if bool_decide (typ = TAbstract) then Some (VAbstract a) else None)
            | v => match as_num v with Some n => cast_number v n typ | None => Ok None end
            end
      end
  end.

(** ** Arithmetic *)

Definition checked_dur (d : option Duration) : Value :=
  match d with Some d => VDuration d | None => error (lit "duration arithmetic error") end.

(** Moving a time by a duration *)
Definition shift_time (back : bool) (dt : DateTime) (d : Duration) : run Value :=
  match from_std d with
  | inr cd => match dt_shift back dt cd with Some dt => Ok (VDateTime dt) | None => Panic end
  | inl e => Ok (error e)
  end.
(** [d * n] and [d / n] for the integers of 32 and 64 bits and the floats *)
Definition dur_scale (int : Duration → Z → option Duration) (flt : Z → Z → Z) (msg : str) (d : Duration) (v : Value)
  : option Value :=
  let secs := as_secs_f binary64 d in
  match v with
  | VU32 n | VV32 n => Some (checked_dur (int d n))
  | VI32 n | VZ32 n | VI64 n | VZ64 n =>
      Some (if n <? 0 then error msg else checked_dur (int d (as_int U32 n)))
  | VU64 n | VV64 n => Some (checked_dur (int d (as_int U32 n)))
  | VF32 s => Some (checked_dur (try_from_secs_f64 (flt secs (f_convert binary32 binary64 s))))
  | VF64 s => Some (checked_dur (try_from_secs_f64 (flt secs s)))
  | _ => None
  end.
(** The arms for durations and times *)
Definition time_op (op : ArithOp) (l r : Value) : run Value :=
  match op with
  | Add | Sub =>
      match l, r with
      | VDateTime dt, VDuration d | VDuration d, VDateTime dt =>
          shift_time (match op with Sub => true | _ => false end) dt d
      | VDuration a, VDuration b =>
          Ok (checked_dur (match op with Sub => dur_checked_sub a b | _ => dur_checked_add a b end))
      | _, _ => Ok (error match op with Sub => lit "can't sub datetime/duration" | _ => lit "can't add to datetime/duration" end)
      end
  | Mul =>
      let bad := error (lit "can't mul datetime/duration") in
      let scale := dur_scale dur_checked_mul (f_mul binary64) (lit "can't multiply duration by negative") in
      match l, r with
      | VDuration d, v => Ok (default bad (scale d v))
      | v, VDuration d => Ok (default bad (scale d v))
      | _, _ => Ok bad
      end
  | Div =>
      let bad := error (lit "can't div datetime/duration") in
      match l with
      | VDuration d =>
          Ok (default bad (dur_scale dur_checked_div (f_div binary64) (lit "can't divide duration by negative") d r))
      | _ => Ok bad
      end
  | Rem => Ok (error (lit "can't mod datetime/duration"))
  end.

(** The neutral element a shorter array is filled up with *)
Definition op_id (op : ArithOp) : Value :=
  VF64 (f_of_int binary64 match op with Add | Sub => 0 | _ => 1 end).

Definition is_time (v : Value) : bool := match v with VDateTime _ | VDuration _ => true | _ => false end.

(** All results, or the first failure *)
Section Sequence.
Context {A B : Type} (f : A → run B).
Fixpoint sequence (l : list A) : run (list B) :=
  match l with
  | [] => Ok []
  | x :: l => res_bind (f x) (fun y => res_map (cons y) (sequence l))
  end.
End Sequence.

(** [apply_op!]: the nested operations are the operators, whatever the mode *)
Fixpoint apply_op (fuel : nat) (mode : Mode) (op : ArithOp) (l r : Value) : run Value :=
  match fuel with
  | O => Err OutOfFuel
  | S fuel =>
    let go := apply_op fuel (op_mode op) op in
    match as_num l, as_num r with
    | Some x, Some y => Ok (num_op mode op x y)
    | _, _ =>
      match l, r with
      | VString s, n => match parse_value s with Err e => Ok (error e) | Ok v => go v n | Panic => Panic end
      | n, VString s => match parse_value s with Err e => Ok (error e) | Ok v => go n v | Panic => Panic end
      | VArray e0, VArray e1 =>
          let '(e0, e1) := if zlen e0 <? zlen e1 then (e0, e1) else (e1, e0) in
          let l := zip (e0 ++ replicate (length e1 - length e0) (op_id op)) e1 in
          res_map VArray (sequence (fun p => go p.1 p.2) l)
      | VArray e, n =>
          match cast fuel n TArray with
          | Ok None => Ok (error (lit "can't add to array"))
          | Ok (Some r) => go (VArray e) r
          | Err x => Err x
          | Panic => Panic
          end
      | n, VArray e =>
          match cast fuel n TArray with
          | Ok None => Ok (error (lit "can't add to array"))
          | Ok (Some l) => go l (VArray e)
          | Err x => Err x
          | Panic => Panic
          end
      | VMap _, _ | _, VMap _ => Ok (error (lit "can't apply to Map"))
      | VBytes _, _ | _, VBytes _ => Ok (error (lit "can't add bytes"))
      | VNull, _ | _, VNull => Ok (error (lit "can't add null"))
      | VError _, _ | _, VError _ => Ok (error (lit "can't add error types"))
      | VAbstract _, _ | _, VAbstract _ => Ok (error (lit "can't add abstract types"))
      | VBool true, n => go (VU32 1) n
      | n, VBool true => go n (VU32 1)
      | VBool false, n => go (VU32 0) n
      | n, VBool false => go n (VU32 0)
      | l, r => time_op op l r
      end
    end
  end.

(** The operators and [Value::checked_add], ... *)
Definition arith (fuel : nat) (op : ArithOp) : Value → Value → run Value := apply_op fuel (op_mode op) op.
Definition checked (fuel : nat) (op : ArithOp) : Value → Value → run Value := apply_op fuel Checked op.

(** [!v] *)
Definition not_int (t : ity) (z : Z) : Z := as_int t (Z.lnot z).
Fixpoint value_not (v : Value) : Value :=
  match v with
  | VBool b => VBool (negb b)
  | VNull => VNull
  | VU8 z => VU8 (not_int U8 z) | VI8 z => VI8 (not_int I8 z)
  | VU16 z => VU16 (not_int U16 z) | VI16 z => VI16 (not_int I16 z)
  | VU32 z => VU32 (not_int U32 z) | VV32 z => VV32 (not_int U32 z)
  | VI32 z => VI32 (not_int I32 z) | VZ32 z => VZ32 (not_int I32 z)
  | VU64 z => VU64 (not_int U64 z) | VV64 z => VV64 (not_int U64 z)
  | VI64 z => VI64 (not_int I64 z) | VZ64 z => VZ64 (not_int I64 z)
  | VF32 _ => error (lit "can't apply not to F32")
  | VF64 _ => error (lit "can't apply not to F64")
  | VDecimal _ => error (lit "can't apply not to Decimal")
  | VDateTime _ => error (lit "can't apply not to DateTime")
  | VDuration _ => error (lit "can't apply not to Duration")
  | VString _ => error (lit "can't apply not to String")
  | VBytes _ => error (lit "can't apply not to Bytes")
  | VError _ => error (lit "can't apply not to Error")
  | VMap _ => error (lit "can't apply not to Map")
  | VAbstract _ => error (lit "can't apply not to Abstract")
  | VArray elts => VArray (value_not <$> elts)
  end.
End Ops.
