(* ===== verification/ValueArith.v ===== *)
(** Casts and arithmetic do what they say: a cast has the type asked for, integer
    arithmetic is exact up to the width of the wider operand, every operation ends. *)
From Stdlib Require Import ZArith Lia.
From stdpp Require Import base gmap list strings sorting.
From Stdlib Require Import Strings.Byte.
From S2P Require Import Prelude Varint Pack Containers PackTypes Order Float Value ValueOrd ValueOps.

Section Facts.
Context {VA : ValueApi} {CM : ChunkMap} {VT : ValueText} {DO : DecimalOps} {TO : TimeOps}.

(** ** Types *)

Lemma cast_number_typ self n typ v : cast_number self n typ = Ok (Some v) → typ_get v = Some typ.
Proof.
  destruct typ; cbn; try (by intros [= <-]); try done.
  - destruct n; [by intros [= <-]|destruct (dec_of_float _ _); [done|by intros [= <-]]|by intros [= <-]].
  - destruct (from_timestamp _ _); [by intros [= <-]|done].
  - destruct (try_from_secs_f64 _); [by intros [= <-]|done].
Qed.
Lemma fmap_typ {A} (mk : A → Value) typ o v :
  (∀ x, typ_get (mk x) = Some typ) → mk <$> o = Some v → typ_get v = Some typ.
Proof. intros Hmk. by destruct o; intros [= <-]. Qed.
Lemma cast_decimal_typ d typ v : cast_decimal d typ = Some v → typ_get v = Some typ.
Proof. destruct typ; cbn [cast_decimal]; try done; try (by intros [= <-]); by apply fmap_typ. Qed.
Lemma cast_datetime_typ d typ v : cast_datetime d typ = Ok (Some v) → typ_get v = Some typ.
Proof.
  destruct typ; cbn -[in_ity]; try done; try (by intros [= <-]); intros [= Hv]; revert Hv;
    first [by apply fmap_typ|destruct (in_ity _ _); by intros [= <-]
          |destruct (timestamp d <? 0); by intros [= <-]].
Qed.
Lemma cast_duration_typ d typ v : cast_duration d typ = Ok (Some v) → typ_get v = Some typ.
Proof. destruct typ; cbn; try done; by intros [= <-]. Qed.
Lemma cast_bool_typ b typ v : cast_bool b typ = Ok (Some v) → typ_get v = Some typ.
Proof. destruct typ; cbn; try done; by intros [= <-]. Qed.

Lemma cast_typ fuel v typ v' : cast fuel v typ = Ok (Some v') → typ_get v' = Some typ.
Proof.
  revert v v'; induction fuel as [|fuel IH]; intros v v'; [done|]. cbn [cast].
  destruct v as [z|z|z|z|z|z|z|z|z|z|z|z|z|z|b| |s|b|e|a|m|d|d|d|a];
    try (destruct (bool_decide_reflect (typ = TString)) as [->|Hne]; [by intros [= <-]|]);
    cbn [as_num]; try apply cast_number_typ.
  - apply cast_bool_typ.
  - destruct (bool_decide_reflect (typ = TNull)) as [->|]; [by intros [= <-]|done].
  - destruct typ; try (by intros [= <-]); (destruct (parse_value s) as [w|?|]; [apply IH|done..]).
  - destruct (bool_decide_reflect (typ = TBytes)) as [->|]; [by intros [= <-]|done].
  - apply IH.
  - destruct typ; try (by intros [= <-]); try (destruct a as [|x a]; [done|apply IH]).
    destruct (collect _ a) as [[l|]| |]; cbn; [by intros [= <-]|done..].
  - destruct typ; try done; by intros [= <-].
  - intros [= Hc]. by apply (cast_decimal_typ d).
  - apply cast_datetime_typ.
  - apply cast_duration_typ.
  - destruct (bool_decide_reflect (typ = TAbstract)) as [->|]; [by intros [= <-]|done].
Qed.

(** ** Integers *)

Definition std_ity (t : ity) : Prop := t ∈ [U8; I8; U16; I16; U32; I32; U64; I64].
Lemma of_int_num t z : std_ity t → as_num (of_int t z) = Some (NInt t z).
Proof.
  unfold std_ity. rewrite !elem_of_cons, elem_of_nil.
  intros [->|[->|[->|[->|[->|[->|[->|[->|[]]]]]]]]]; done.
Qed.
Lemma std_bits t : std_ity t → 8 ≤ ibits t ≤ 64.
Proof.
  unfold std_ity. rewrite !elem_of_cons, elem_of_nil.
  intros [->|[->|[->|[->|[->|[->|[->|[->|[]]]]]]]]]; cbn; lia.
Qed.

Lemma as_int_cong t z : std_ity t → as_int t z mod 2 ^ ibits t = z mod 2 ^ ibits t.
Proof.
  intros Ht%std_bits. unfold as_int. destruct (isigned t).
  - destruct (swrap_cong (ibits t) z ltac:(lia)) as [k ->]. apply Z_mod_plus_full.
  - unfold wrap. apply Zmod_mod.
Qed.
Lemma as_int_range t z : std_ity t → in_ity t (as_int t z) = true.
Proof.
  intros Ht%std_bits. unfold as_int, in_ity, imin, imax. destruct (isigned t).
  - pose proof (swrap_range (ibits t) z ltac:(lia)) as Hr. unfold in_i in Hr. lia.
  - pose proof (wrap_range (ibits t) z ltac:(lia)) as Hr. unfold in_u in Hr. lia.
Qed.
Lemma as_int_small t z : std_ity t → in_ity t z = true → as_int t z = z.
Proof.
  intros Ht%std_bits. unfold as_int, in_ity, imin, imax. destruct (isigned t); intros H.
  - apply swrap_small; [lia|]. unfold in_i. lia.
  - apply wrap_small. unfold in_u. lia.
Qed.

(** The type the result has: the wider one, the left one if they are as wide *)
Definition result_ity (tl tr : ity) : ity := if ibits tl <? ibits tr then tr else tl.
Lemma result_std tl tr : std_ity tl → std_ity tr → std_ity (result_ity tl tr).
Proof. unfold result_ity. by case_match. Qed.

Definition ring_op (op : ArithOp) : Prop := op = Add ∨ op = Sub ∨ op = Mul.
Lemma ring_op_cong op m x x' y y' : ring_op op → x mod m = x' mod m → y mod m = y' mod m →
  ∃ a b, int_exact op x y = Some a ∧ int_exact op x' y' = Some b ∧ a mod m = b mod m.
Proof.
  intros [->|[->| ->]] Hx Hy; cbn; do 2 eexists; (split; [done|split; [done|]]).
  - by rewrite Zplus_mod, Hx, Hy, <-Zplus_mod.
  - by rewrite Zminus_mod, Hx, Hy, <-Zminus_mod.
  - by rewrite Zmult_mod, Hx, Hy, <-Zmult_mod.
Qed.

Lemma num_op_int mode op tl tr x y : std_ity tl → std_ity tr → in_ity tl x = true → in_ity tr y = true →
  let t := result_ity tl tr in
  num_op mode op (NInt tl x) (NInt tr y) = int_op mode t op (as_int t x) (as_int t y).
Proof.
  intros Hl Hr Hx Hy. cbn. unfold result_ity. destruct (ibits tl <? ibits tr).
  - by rewrite (as_int_small tr y).
  - by rewrite (as_int_small tl x).
Qed.

Lemma wrapping_cong op t x y : std_ity t → ring_op op →
  ∃ z w, int_op Wrapping t op (as_int t x) (as_int t y) = of_int t z ∧ in_ity t z = true ∧
    int_exact op x y = Some w ∧ z mod 2 ^ ibits t = w mod 2 ^ ibits t.
Proof.
  intros Ht Hop.
  destruct (ring_op_cong op (2 ^ ibits t) (as_int t x) x (as_int t y) y Hop) as (a & b & Ha & Hb & Hab);
    [by apply as_int_cong..|].
  exists (as_int t a), b. unfold int_op, int_wrapping. rewrite Ha. cbn.
  split; [done|]. split; [by apply as_int_range|]. split; [done|]. by rewrite as_int_cong.
Qed.

Lemma rem_range t x y : in_ity t x = true → in_ity t y = true → y ≠ 0 → in_ity t (Z.rem x y) = true.
Proof.
  unfold in_ity, imin, imax. intros Hx Hy Hn.
  pose proof (Z.rem_bound_abs x y Hn) as Hb.
  destruct (Z_le_gt_dec 0 x) as [H0|H0].
  - pose proof (Z.rem_nonneg x y Hn H0). pose proof (Z.rem_le x (Z.abs y) H0 ltac:(lia)) as Hle.
    rewrite Z.rem_abs_r in Hle by done. destruct (isigned t); lia.
  - pose proof (Z.rem_nonpos x y Hn ltac:(lia)). pose proof (Z.rem_le (- x) (Z.abs y) ltac:(lia) ltac:(lia)) as Hle.
    rewrite Z.rem_abs_r, Z.rem_opp_l in Hle by done. destruct (isigned t); lia.
Qed.

(** What the checked operations return when they return a number *)
Lemma checked_exact t op x y z : int_checked t op x y = Some z →
  int_exact op x y = Some z.
Proof. destruct op; cbn; repeat case_match; congruence. Qed.
Lemma checked_range t op x y z : in_ity t x = true → in_ity t y = true →
  int_checked t op x y = Some z → in_ity t z = true.
Proof.
  intros Hx Hy. destruct op; cbn; repeat case_match; try congruence.
  intros [= <-]. apply rem_range; [done..|]. lia.
Qed.
(** ... and when they do not *)
Lemma checked_none t op x y : in_ity t x = true → in_ity t y = true → int_checked t op x y = None →
  match int_exact op x y with
  | Some z => in_ity t (match op with Rem => Z.quot x y | _ => z end) = false
  | None => True
  end.
Proof.
  intros Hx Hy. destruct op; cbn; repeat case_match; try congruence; try done.
  intros _. destruct t as [[] b]; unfold in_ity, imin, imax in *; cbn in *; try lia.
  assert (y = -1) as -> by lia. assert (Z.quot x (-1) = - x) as ->; [|lia].
  change (-1) with (- (1)). by rewrite Z.quot_opp_r, Z.quot_1_r.
Qed.

(** ** Termination *)

Abbreviation run := (res Stop).
(** Enough fuel gives a result, and more fuel the same one. *)
Definition settles {A} (f : nat → run A) (r : run A) : Prop :=
  r ≠ Err OutOfFuel ∧ ∃ k, ∀ m, (k ≤ m)%nat → f m = r.
Definition total {A} (f : nat → run A) : Prop := ∃ r, settles f r.

Lemma total_now {A} (r : run A) : r ≠ Err OutOfFuel → total (fun _ => r).
Proof. intros Hr. exists r. split; [done|]. by exists 0%nat. Qed.
Lemma total_step {A} (f g : nat → run A) : (∀ m, f (S m) = g m) → total g → total f.
Proof.
  intros Hfg (r & Hr & k & Hk). exists r. split; [done|]. exists (S k). intros [|m] Hm; [lia|].
  rewrite Hfg. apply Hk. lia.
Qed.
Lemma total_ext {A} (f g : nat → run A) : (∀ m, f m = g m) → total g → total f.
Proof. intros Hfg (r & Hr & k & Hk). exists r. split; [done|]. exists k. intros m Hm. rewrite Hfg. auto. Qed.
(** One step that needs no fuel *)
Lemma total_done {A} (f : nat → run A) r : (∀ m, f (S m) = r) → r ≠ Err OutOfFuel → total f.
Proof. intros Hf Hr. eapply total_step; [exact Hf|]. by apply total_now. Qed.
Lemma total_case {A B} (f : nat → run A) (g : nat → run A → run B) :
  total f → (∀ r, r ≠ Err OutOfFuel → (∃ k, f k = r) → total (fun m => g m r)) → total (fun m => g m (f m)).
Proof.
  intros (r & Hr & k & Hk) Hg. destruct (Hg r Hr) as (r' & Hr' & k' & Hk'); [exists k; auto|].
  exists r'. split; [done|]. exists (k `max` k')%nat. intros m Hm. rewrite Hk by lia. apply Hk'. lia.
Qed.
Lemma total_map {A B} (h : A → B) f : total f → total (fun m => res_map h (f m)).
Proof. intros Hf. apply (total_case f (fun _ r => res_map h r)); [done|]. intros [a|[]|] Hr _; by apply total_now. Qed.

Lemma total_sequence {A B} (f : nat → A → run B) l :
  Forall (fun x => total (fun m => f m x)) l → total (fun m => sequence (f m) l).
Proof.
  induction 1 as [|x l Hx _ IH]; cbn [sequence]; [by apply total_now|].
  apply (total_case (fun m => f m x) (fun m r => res_bind r (fun y => res_map (cons y) (sequence (f m) l)))); [done|].
  intros [y|[]|] Hr _; cbn; [by apply total_map|done|by apply total_now].
Qed.
Lemma total_collect {A B} (f : nat → A → run (option B)) l :
  Forall (fun x => total (fun m => f m x)) l → total (fun m => collect (f m) l).
Proof.
  induction 1 as [|x l Hx _ IH]; cbn [collect]; [by apply total_now|].
  apply (total_case (fun m => f m x) (fun m r => match r with
      | Ok (Some y) => res_map (option_map (cons y)) (collect (f m) l)
      | Ok None => Ok None | Err e => Err e | Panic => Panic end)); [done|].
  intros [[y|]|[]|] Hr _; cbn; [by apply total_map|by apply total_now|done|by apply total_now].
Qed.

(** The length of the longest string in a value, plus one *)
Fixpoint longest (v : Value) : nat :=
  match v with
  | VString s => S (length s)
  | VError e => longest e
  | VArray a => foldr (fun x n => longest x `max` n)%nat 0%nat a
  | VMap m => foldr (fun kv n => (longest kv.1 `max` longest kv.2) `max` n)%nat 0%nat m
  | _ => 0%nat
  end.
Lemma longest_elem x a : x ∈ a → (longest x ≤ longest (VArray a))%nat.
Proof. induction 1 as [|x y a _ IH]; cbn in *; lia. Qed.
Lemma longest_entry kv m : kv ∈ m → (longest kv.1 ≤ longest (VMap m))%nat ∧ (longest kv.2 ≤ longest (VMap m))%nat.
Proof. induction 1 as [|x y a _ IH]; cbn in *; lia. Qed.
Lemma longest_bound a n : (∀ x, x ∈ a → (longest x ≤ n)%nat) → (longest (VArray a) ≤ n)%nat.
Proof.
  induction a as [|x a IH]; intros H; cbn; [lia|].
  pose proof (H x ltac:(left)). pose proof (IH ltac:(intros; apply H; by right)) as Hl. cbn in Hl. lia.
Qed.
End Facts.

(** The interface of the parser: what it returns is smaller than its text. *)
Class ParseOk {VA : ValueApi} {VT : ValueText} : Prop :=
  parse_shorter : ∀ s v, parse_value s = Ok v → (longest v ≤ length s)%nat.

Section Termination.
Context {VA : ValueApi} {CM : ChunkMap} {VT : ValueText} {DO : DecimalOps} {TO : TimeOps} {PO : ParseOk}.

Lemma cast_number_fuel v n typ : cast_number v n typ ≠ Err OutOfFuel.
Proof. destruct typ; cbn; try done. by case_match. Qed.
Lemma cast_datetime_fuel d typ : cast_datetime d typ ≠ Err OutOfFuel.
Proof. by destruct typ. Qed.
Lemma cast_duration_fuel d typ : cast_duration d typ ≠ Err OutOfFuel.
Proof. by destruct typ. Qed.
Lemma cast_bool_fuel b typ : cast_bool b typ ≠ Err OutOfFuel.
Proof. by destruct typ. Qed.
Hint Resolve cast_number_fuel cast_datetime_fuel cast_duration_fuel cast_bool_fuel : core.

Abbreviation run := (res Stop).
Abbreviation casts v typ := (total (fun m => cast m v typ)).

(** A string is the display of anything but a string. *)
Lemma cast_string_total v : (∀ s, v ≠ VString s) → casts v TString.
Proof.
  intros Hs. apply (total_done _ (Ok (Some (VString (display v))))); [|done].
  intros m. destruct v; first [done|by edestruct Hs].
Qed.
(** What needs no recursion *)
Definition flat (v : Value) : Prop :=
  match v with VString _ | VError _ | VArray _ => False | _ => True end.
Lemma cast_flat_total v typ : flat v → casts v typ.
Proof.
  intros Hv. destruct (decide (typ = TString)) as [->|Hne].
  { apply cast_string_total. intros s ->. done. }
  destruct v; try done;
    (eapply total_done; [intros ?; cbn [cast as_num]; rewrite bool_decide_false by done; reflexivity|]);
    auto; destruct typ; done.
Qed.
Lemma cast_error_total e typ : casts (VError e) typ.
Proof.
  destruct (decide (typ = TString)) as [->|Hne]; [by apply cast_string_total|].
  apply (total_step _ (fun m => cast m (VBool false) typ)); [|by apply cast_flat_total].
  intros m. cbn [cast]. by rewrite bool_decide_false.
Qed.
(** To an array there is at most one step. *)
Lemma cast_array_total v : casts v TArray.
Proof.
  destruct v as [ | | | | | | | | | | | | | | | | | |e|a| | | | | ];
    try (apply cast_flat_total; exact I); try apply cast_error_total;
    (eapply total_done; [intros ?; cbn [cast]; rewrite ?bool_decide_false by done; reflexivity|done]).
Qed.
Lemma pair_total v : total (fun m => pair_from_value (cast m) v).
Proof.
  assert ((∃ a, v = VArray a) ∨ ∀ a, v ≠ VArray a) as [[a ->]|Ha];
    [destruct v; first [by right|left; by eexists]|cbn [pair_from_value]; by apply total_now|].
  apply (total_ext _ (fun m => match cast m v TArray with
    | Ok (Some (VArray [x; y])) => Ok (Some (x, y)) | Ok _ => Ok None | Err e => Err e | Panic => Panic end)).
  - intros m. destruct v; try (by edestruct Ha); cbn [pair_from_value]; by repeat case_match.
  - apply (total_case (fun m => cast m v TArray) (fun _ r => match r with
      | Ok (Some (VArray [x; y])) => Ok (Some (x, y)) | Ok _ => Ok None | Err e => Err e | Panic => Panic end));
      [apply cast_array_total|].
    intros [o|[]|] Hr _; [|done|by apply total_now]. apply total_now. by repeat case_match.
Qed.

Lemma cast_total v : ∀ typ, casts v typ.
Proof.
  remember (longest v) as n eqn:Hn. assert (longest v ≤ n)%nat as Hle by lia. clear Hn. revert v Hle.
  induction (lt_wf n) as [n _ IHn]. intros v.
  induction v as [v He Ha Hm|e _|a IHa|m _] using Value_induction; intros Hle typ.
  - destruct v as [ | | | | | | | | | | | | | | | |s| |e|a| | | | | ];
      try (apply cast_flat_total; exact I); [|by edestruct He|by edestruct Ha].
    destruct (decide (typ ∈ [TString; TError; TArray])) as [Ht|Ht].
    + rewrite !elem_of_cons, elem_of_nil in Ht. destruct Ht as [->|[->|[->|[]]]];
        (eapply total_done; [intros ?; cbn [cast]; rewrite ?bool_decide_false by done; reflexivity|done]).
    + apply (total_step _ (fun m => match parse_value s with
        Ok v => cast m v typ | Err _ => Ok None | Panic => Panic end)).
      { intros m. destruct typ; try done; exfalso; apply Ht; set_solver. }
      destruct (parse_value s) as [w|e|] eqn:Hp; [|by apply total_now..].
      apply parse_shorter in Hp. cbn in Hle. apply (IHn (longest w)); lia.
  - apply cast_error_total.
  - destruct (decide (typ = TString)) as [->|Hs]; [by apply cast_string_total|].
    destruct (decide (typ = TArray)) as [->|Hta]; [apply cast_array_total|].
    destruct (decide (typ = TMap)) as [->|Htm].
    + apply (total_step _ (fun m => res_map (option_map (fun l => VMap (map_from_iter l)))
        (collect (pair_from_value (cast m)) a))); [done|].
      apply total_map, total_collect. apply Forall_true. apply pair_total.
    + apply (total_step _ (fun m => match a with v :: _ => cast m v typ | [] => Ok None end)).
      { intros m. cbn [cast]. rewrite bool_decide_false by done. by destruct typ. }
      destruct a as [|x a]; [by apply total_now|]. apply Forall_cons_1 in IHa as [IHx _].
      apply IHx. pose proof (longest_elem x (x :: a) ltac:(left)). lia.
  - by apply cast_flat_total.
Qed.

Lemma cast_array_shape k v r : cast k v TArray = Ok (Some r) →
  ∃ c, r = VArray c ∧ (longest r ≤ longest v)%nat ∧ (depth r ≤ S (depth v))%nat.
Proof.
  destruct k as [|k]; [done|]. cbn [cast]. rewrite (bool_decide_false (TArray = TString)) by done.
  destruct v as [ | | | | | | | | | | | | | | | | | |e|a|m| | | | ]; cbn; try done;
    try (intros [= <-]; eexists; cbn; split; [done|lia]).
  - destruct k as [|k]; [done|]. cbn. intros [= <-]. eexists; split; [done|]. cbn. lia.
  - intros [= <-]. eexists. split; [done|]. induction m as [|kv m IH]; [cbn; lia|].
    rewrite fmap_cons. cbn [longest depth foldr fst snd] in IH |- *. lia.
Qed.

Lemma depth_elem x a : x ∈ a → (depth x < depth (VArray a))%nat.
Proof. induction 1 as [|x y a _ IH]; cbn in *; lia. Qed.
Lemma time_op_fuel op l r : time_op op l r ≠ Err OutOfFuel.
Proof. destruct op, l; cbn; try done; destruct r; cbn; try done; unfold shift_time; by repeat case_match. Qed.

Abbreviation computes op l r := (∀ mode, total (fun m => apply_op m mode op l r)).

(** Elements in pairs: the shorter array filled up with the neutral element *)
Lemma arrays_total op n d a b :
  (∀ l r, longest l + longest r ≤ n → depth l + depth r < d → computes op l r)%nat →
  (longest (VArray a) + longest (VArray b) ≤ n)%nat → (depth (VArray a) + depth (VArray b) ≤ S d)%nat →
  computes op (VArray a) (VArray b).
Proof.
  intros IH Hn Hd mode. assert (∀ c, 0 < depth (VArray c))%nat as Hpos by (intros; cbn; lia).
  pose proof (Hpos a). pose proof (Hpos b).
  set (ab := if zlen a <? zlen b then (a, b) else (b, a)).
  apply (total_step _ (fun m => res_map VArray (sequence (fun p => apply_op m (op_mode op) op p.1 p.2)
    (zip (ab.1 ++ replicate (length ab.2 - length ab.1) (op_id op)) ab.2)))).
  { intros m. unfold ab. cbn [apply_op as_num]. by destruct (zlen a <? zlen b). }
  apply total_map, (total_sequence (fun m p => apply_op m (op_mode op) op p.1 p.2)).
  apply Forall_forall. intros [x y] Hz. pose proof (elem_of_zip_l _ _ _ _ Hz) as Hx. pose proof (elem_of_zip_r _ _ _ _ Hz) as Hy. cbn. apply IH.
  all: assert (ab = (a, b) ∨ ab = (b, a)) as [E|E] by (unfold ab; case_match; auto); rewrite E in Hx, Hy; cbn in Hx, Hy.
  all: apply elem_of_app in Hx as [Hx|[-> _]%elem_of_replicate].
  all: first [pose proof (longest_elem _ _ Hx)|idtac]; first [pose proof (depth_elem _ _ Hx)|idtac];
    pose proof (longest_elem _ _ Hy); pose proof (depth_elem _ _ Hy); cbn [op_id longest depth]; lia.
Qed.

(** Neither a string nor an array *)
Definition plain (v : Value) : bool := match v with VString _ | VArray _ => false | _ => true end.
Lemma number_total op l r x y : as_num l = Some x → as_num r = Some y → computes op l r.
Proof.
  intros Hl Hr mode. apply (total_done _ (Ok (num_op mode op x y))); [|done].
  intros m. cbn [apply_op]. by rewrite Hl, Hr.
Qed.
Ltac op_step :=
  eapply total_step; [intros ?; cbn [apply_op as_num]; reflexivity|];
  try (apply total_now; first [apply time_op_fuel|discriminate]).
Lemma plain_total op l r : plain l → plain r → computes op l r.
Proof.
  intros Hl Hr mode.
  destruct l; try exact (False_ind _ Hl); destruct r; try exact (False_ind _ Hr); op_step;
    repeat match goal with b : bool |- _ => destruct b end;
    first [eapply number_total; reflexivity|op_step]; eapply number_total; reflexivity.
Qed.

(** A string computes as the value it denotes, an array with another value as with
    the array the value casts to. *)
Lemma string_total op s r :
  (∀ w, parse_value s = Ok w → computes op w r) → computes op (VString s) r.
Proof.
  intros IH mode. op_step. destruct (parse_value s) as [w|e|] eqn:Hp; [by apply IH|by apply total_now..].
Qed.
Lemma string_total_r op l s : (∀ s', l ≠ VString s') →
  (∀ w, parse_value s = Ok w → computes op l w) → computes op l (VString s).
Proof.
  intros Hl IH mode. apply (total_step _ (fun m => match parse_value s with
    | Err e => Ok (error e) | Ok v => apply_op m (op_mode op) op l v | Panic => Panic end)).
  { intros m. destruct l as [ | | | | | | | | | | | | | | [] | | | | | | | | | | ];
      try exact (False_ind _ (Hl _ eq_refl)); reflexivity. }
  destruct (parse_value s) as [w|e|] eqn:Hp; [by apply IH|by apply total_now..].
Qed.
Definition with_array (r : run (option Value)) (go : Value → run Value) : run Value :=
  match r with
  | Ok None => Ok (error (lit "can't add to array"))
  | Ok (Some v) => go v
  | Err x => Err x
  | Panic => Panic
  end.
Lemma with_array_total v (go : nat → Value → run Value) :
  (∀ c, longest (VArray c) ≤ longest v → depth (VArray c) ≤ S (depth v) → total (fun m => go m (VArray c)))%nat →
  total (fun m => with_array (cast m v TArray) (go m)).
Proof.
  intros Hgo. apply (total_case (fun m => cast m v TArray) (fun m r => with_array r (go m))); [apply cast_array_total|].
  intros [[w|]|[]|] Hr [k Hk]; cbn; try done; try by apply total_now.
  apply cast_array_shape in Hk as (c & -> & Hc1 & Hc2). by apply Hgo.
Qed.

Lemma apply_op_total op l r : computes op l r.
Proof.
  remember (longest l + longest r)%nat as n eqn:Hn. assert (longest l + longest r ≤ n)%nat as Hln by lia. clear Hn.
  revert l r Hln. induction (lt_wf n) as [n _ IHn]. intros l r.
  remember (depth l + depth r)%nat as d eqn:Hd. assert (depth l + depth r ≤ d)%nat as Hld by lia. clear Hd.
  revert l r Hld. induction (lt_wf d) as [d _ IHd]. intros l r Hd Hn.
  assert (∀ l r, longest l + longest r ≤ n → depth l + depth r < d → computes op l r)%nat as IHp.
  { intros l' r' Hn' Hd'. apply (IHd _ Hd'); lia. }
  destruct (decide (plain l)) as [Hl|Hl], (decide (plain r)) as [Hr|Hr].
  - by apply plain_total.
  - destruct r; try by destruct Hr.
    + apply string_total_r; [by intros ? ->|]. intros w Hw%parse_shorter. cbn in Hn. apply (IHn (longest l + longest w)%nat); lia.
    + intros mode. apply (total_step _ (fun m => with_array (cast m l TArray) (fun l => apply_op m (op_mode op) op l (VArray a)))).
      { intros m. destruct l as [ | | | | | | | | | | | | | | [] | | | | | | | | | | ]; first [by destruct Hl|reflexivity]. }
      apply (with_array_total l (fun m l => apply_op m (op_mode op) op l (VArray a))).
      intros c Hc1 Hc2. apply (arrays_total op n d); [done|lia..].
  - destruct l; try by destruct Hl.
    + apply string_total. intros w Hw%parse_shorter. cbn in Hn. apply (IHn (longest w + longest r)%nat); lia.
    + intros mode. apply (total_step _ (fun m => with_array (cast m r TArray) (apply_op m (op_mode op) op (VArray a)))).
      { intros m. destruct r; first [by destruct Hr|reflexivity]. }
      apply (with_array_total r (fun m => apply_op m (op_mode op) op (VArray a))).
      intros c Hc1 Hc2. apply (arrays_total op n d); [done|lia..].
  - destruct l; try by destruct Hl.
    + apply string_total. intros w Hw%parse_shorter. cbn in Hn. apply (IHn (longest w + longest r)%nat); lia.
    + destruct r; try by destruct Hr.
      * apply string_total_r; [done|]. intros w Hw%parse_shorter.
        apply (IHn (longest (VArray a) + longest w)%nat); cbn [longest] in *; lia.
      * apply (arrays_total op n d); [done|lia..].
Qed.
End Termination.
