(* ===== verification/ValueConvert.v ===== *)
(** Conversions between Rust types and values (netidx-value/src/convert.rs) and
    [Value::approx_eq] (lib.rs), which uses one. A type is converted by a record of the
    two functions of [FromValue] and of its [From] for [Value]. *)
From Stdlib Require Import ZArith Lia.
From stdpp Require Import base gmap list strings sorting.
From Stdlib Require Import Strings.Byte.
From S2P Require Import Prelude Varint Pack Containers PackTypes Path Order Float Value ValueOrd ValueOps ValueArith.

Abbreviation run := (res Stop).

Section Convert.
Context {VA : ValueApi} {CM : ChunkMap} {VT : ValueText} {DO : DecimalOps} {TO : TimeOps}.

(** [Result<T>], with the text of the error, and [FromValue] with [From<T> for Value];
    the casts in them take the fuel. *)
Abbreviation conv A := (run (str + A)).
Record Convert (A : Type) := MkConvert {
  from_value : nat → Value → conv A;
  get : nat → Value → run (option A);
  into : A → Value
}.
Arguments MkConvert {A}.
Arguments from_value {A} c fuel v.
Arguments get {A} c fuel v.
Arguments into {A} c a.

Definition fail {A} (msg : string) : conv A := Ok (inl (lit msg)).
Definition cbind {A B} (r : conv A) (k : A → conv B) : conv B :=
  res_bind r (fun x => match x with inr a => k a | inl e => Ok (inl e) end).
(** [ok()] *)
Definition conv_ok {A} (r : conv A) : run (option A) :=
  res_map (fun x => match x with inr a => Some a | inl _ => None end) r.
(** [v.cast(typ).ok_or_else(|| anyhow!("can't cast"))] *)
Definition cast_or (fuel : nat) (v : Value) (typ : Typ) : conv Value :=
  res_map (fun o => match o with Some v => inr v | None => inl (lit "can't cast") end) (cast fuel v typ).

(** The shape of most conversions: what [direct] recognises, else a cast to [typ],
    of which [exact] takes the payload *)
Definition via_cast {A} (typ : Typ) (direct exact : Value → option A) (fuel : nat) (v : Value) : conv A :=
  match direct v with
  | Some a => Ok (inr a)
  | None =>
      cbind (cast_or fuel v typ) (fun v => match exact v with Some a => Ok (inr a) | None => fail "can't cast" end)
  end.
(** ... for which a [get] that does not cast is [direct] *)
Definition plain_convert {A} (typ : Typ) (direct exact : Value → option A) (mk : A → Value) : Convert A :=
  MkConvert (via_cast typ direct exact) (fun _ v => Ok (direct v)) mk.

(** ** Scalars *)

Definition Value_convert : Convert Value :=
  MkConvert (fun _ v => Ok (inr v)) (fun _ v => Ok (Some v)) (fun v => v).

(** The 32 and 64 bit integers in another integer type *)
Definition get_int (t : ity) (v : Value) : option Z :=
  match v with
  | VU32 v | VV32 v | VU64 v | VV64 v | VI32 v | VZ32 v | VI64 v | VZ64 v => Some (as_int t v)
  | _ => None
  end.
Definition u32_convert : Convert Z :=
  plain_convert TU32 (get_int U32) (fun v => match v with VU32 z => Some z | _ => None end) VU32.
Definition i32_convert : Convert Z :=
  plain_convert TI32 (get_int I32) (fun v => match v with VI32 z => Some z | _ => None end) VI32.
Definition u64_convert : Convert Z :=
  plain_convert TU64 (get_int U64) (fun v => match v with VU64 z => Some z | _ => None end) VU64.
Definition usize_convert : Convert Z :=
  plain_convert TU64 (get_int U64) (fun v => match v with VU64 z => Some z | _ => None end) VU64.
Definition i64_convert : Convert Z :=
  plain_convert TI64 (get_int I64) (fun v => match v with VI64 z => Some z | _ => None end) VI64.

(** The smaller ones check the range of the 32 bit integer, but [get] does not. *)
Definition small_from (C : Convert Z) (t : ity) (fuel : nat) (v : Value) : conv Z :=
  cbind (from_value C fuel v) (fun z => if in_ity t z then Ok (inr z) else fail "can't cast").
Definition u8_convert : Convert Z :=
  MkConvert (small_from u32_convert U8) (fun _ v => Ok (get_int U8 v)) VU32.
Definition i8_convert : Convert Z :=
  MkConvert (small_from i32_convert I8) (fun _ v => Ok (get_int I8 v)) VI32.
Definition u16_convert : Convert Z :=
  MkConvert (small_from u32_convert U16) (fun _ v => Ok (get_int U16 v)) VU32.
Definition i16_convert : Convert Z :=
  MkConvert (small_from i32_convert I16) (fun _ v => Ok (get_int I16 v)) VI32.

Definition f32_convert : Convert Z :=
  plain_convert TF32
    (fun v => match v with VF32 v => Some v | VF64 v => Some (f_convert binary64 binary32 v) | _ => None end)
    (fun v => match v with VF32 v => Some v | _ => None end) VF32.
Definition f64_convert : Convert Z :=
  plain_convert TF64
    (fun v => match v with VF64 v => Some v | VF32 v => Some (f_convert binary32 binary64 v) | _ => None end)
    (fun v => match v with VF64 v => Some v | _ => None end) VF64.

(** One constructor *)
Definition exact_convert {A} (typ : Typ) (exact : Value → option A) (mk : A → Value) : Convert A :=
  plain_convert typ exact exact mk.
Definition as_string (v : Value) : option str := match v with VString s => Some s | _ => None end.
Definition as_array (v : Value) : option (list Value) := match v with VArray a => Some a | _ => None end.
Definition Decimal_convert : Convert Decimal :=
  exact_convert TDecimal (fun v => match v with VDecimal d => Some d | _ => None end) VDecimal.
Definition Bytes_convert : Convert (list byte) :=
  exact_convert TBytes (fun v => match v with VBytes b => Some b | _ => None end) VBytes.
Definition ArcStr_convert : Convert str := exact_convert TString as_string VString.
Definition CompactString_convert : Convert str := exact_convert TString as_string VString.
Definition DateTime_convert : Convert DateTime :=
  exact_convert TDateTime (fun v => match v with VDateTime d => Some d | _ => None end) VDateTime.
Definition Duration_convert : Convert Duration :=
  exact_convert TDuration (fun v => match v with VDuration d => Some d | _ => None end) VDuration.
Definition bool_convert : Convert bool :=
  exact_convert TBool (fun v => match v with VBool b => Some b | _ => None end) VBool.
Definition ValArray_convert : Convert (list Value) := exact_convert TArray as_array VArray.

(** Built on [ArcStr] *)
Definition String_convert : Convert str :=
  MkConvert (from_value ArcStr_convert) (fun _ v => Ok (as_string v)) VString.
Definition Path_convert {ES : Escaping} : Convert str :=
  MkConvert (fun fuel v => cbind (from_value ArcStr_convert fuel v) (fun s => Ok (inr (path_from s))))
    (fun _ v => Ok (path_from <$> as_string v)) VString.

(** ** Collections *)

Section Elements.
Context {A : Type} (f : Value → conv A).
Fixpoint try_map (l : list Value) : conv (list A) :=
  match l with
  | [] => Ok (inr [])
  | v :: l => cbind (f v) (fun a => cbind (try_map l) (fun l => Ok (inr (a :: l))))
  end.
End Elements.

(** An array, or what casts to one, with [convert!] *)
Definition array_from {B} (convert : nat → list Value → conv B) (fuel : nat) (v : Value) : conv B :=
  match v with
  | VArray a => convert fuel a
  | v =>
      cbind (cast_or fuel v TArray) (fun v =>
        match v with VArray a => convert fuel a | _ => fail "can't cast" end)
  end.
Definition array_get {B} (convert : nat → list Value → run (option B)) (fuel : nat) (v : Value) : run (option B) :=
  match v with VArray a => convert fuel a | _ => Ok None end.

(** Elements converted one by one and collected with [build] *)
Definition coll_from {A B} (C : Convert A) (build : list A → B) : nat → Value → conv B :=
  array_from (fun fuel a => cbind (try_map (from_value C fuel) a) (fun l => Ok (inr (build l)))).
Definition coll_get {A B} (C : Convert A) (build : list A → B) : nat → Value → run (option B) :=
  array_get (fun fuel a => res_map (option_map build) (collect (get C fuel) a)).
Definition coll_convert {A B} (C : Convert A) (build : list A → B) (items : B → list A) : Convert B :=
  MkConvert (coll_from C build) (coll_get C build) (fun b => VArray (into C <$> items b)).

Definition Vec_convert {A} (C : Convert A) : Convert (list A) := coll_convert C id id.
Definition SmallVec_convert {A} (C : Convert A) : Convert (list A) := coll_convert C id id.
(** The pooled vectors cast in [get] too. *)
Definition LPooledVec_convert {A} (C : Convert A) : Convert (list A) :=
  MkConvert (coll_from C id) (fun fuel v => conv_ok (coll_from C id fuel v)) (fun l => VArray (into C <$> l)).
Definition GPooledVec_convert {A} (C : Convert A) : Convert (list A) :=
  MkConvert (coll_from C id) (fun fuel v => conv_ok (coll_from C id fuel v)) (fun l => VArray (into C <$> l)).

(** [[T; S]] *)
Definition array_convert {A} (S : nat) (C : Convert A) : Convert (list A) :=
  MkConvert
    (array_from (fun fuel a => if bool_decide (length a = S) then try_map (from_value C fuel) a else fail "size mismatch"))
    (array_get (fun fuel a => if bool_decide (length a = S) then collect (get C fuel) a else Ok None))
    (fun l => VArray (into C <$> l)).

(** The instances of [tuple!]: a tuple is the list of conversions of its fields. The
    message of a length that does not fit leaves the length out. *)
Fixpoint tuple (ts : list Type) : Type :=
  match ts with [] => unit | T :: ts => T * tuple ts end.
Inductive fields : list Type → Type :=
| FNil : fields []
| FCons {T ts} (C : Convert T) (fs : fields ts) : fields (T :: ts).
Fixpoint tuple_from {ts} (fs : fields ts) (fuel : nat) : list Value → conv (tuple ts) :=
  match fs in fields ts return list Value → conv (tuple ts) with
  | FNil => fun _ => Ok (inr tt)
  | FCons C fs => fun a =>
      match a with
      | v :: a => cbind (from_value C fuel v) (fun x => cbind (tuple_from fs fuel a) (fun y => Ok (inr (x, y))))
      | [] => Panic
      end
  end.
Fixpoint tuple_into {ts} (fs : fields ts) : tuple ts → list Value :=
  match fs in fields ts return tuple ts → list Value with
  | FNil => fun _ => []
  | FCons C fs => fun p => into C p.1 :: tuple_into fs p.2
  end.
Definition tuple_value {ts} (fs : fields ts) : nat → Value → conv (tuple ts) :=
  array_from (fun fuel a => if bool_decide (length a = length ts) then tuple_from fs fuel a else fail "not a tuple").
Definition tuple_convert {ts} (fs : fields ts) : Convert (tuple ts) :=
  MkConvert (tuple_value fs) (fun fuel v => conv_ok (tuple_value fs fuel v)) (fun p => VArray (tuple_into fs p)).
(** [(K, V)] *)
Definition pair_convert {K V} (CK : Convert K) (CV : Convert V) : Convert (K * V) :=
  let T := tuple_convert (FCons CK (FCons CV FNil)) in
  let pair (p : tuple [K; V]) := (p.1, p.2.1) in
  MkConvert (fun fuel v => cbind (from_value T fuel v) (fun p => Ok (inr (pair p))))
    (fun fuel v => res_map (option_map pair) (get T fuel v))
    (fun kv => into T (kv.1, (kv.2, tt))).

(** Maps and sets; [order] is the order they enumerate their entries in. *)
Definition HashMap_convert {K V} `{Countable K} (order : gmap K V → list (K * V))
    (CK : Convert K) (CV : Convert V) : Convert (gmap K V) :=
  coll_convert (pair_convert CK CV) (map_of ∅) order.
Definition HashSet_convert {K} `{Countable K} (order : gset K → list K) (CK : Convert K) : Convert (gset K) :=
  coll_convert CK (set_of ∅) order.
Definition BTreeMap_convert {K V} `{Countable K} (R : K → K → Prop) `{!RelDecision R}
    (CK : Convert K) (CV : Convert V) : Convert (gmap K V) :=
  HashMap_convert (fun m => merge_sort (by_key R) (map_to_list m)) CK CV.
Definition BTreeSet_convert {K} `{Countable K} (R : K → K → Prop) `{!RelDecision R} (CK : Convert K) : Convert (gset K) :=
  HashSet_convert (fun s => merge_sort R (elements s)) CK.
Definition IndexMap_convert {K V} `{EqDecision K} (CK : Convert K) (CV : Convert V) : Convert (list (K * V)) :=
  coll_convert (pair_convert CK CV) (index_of []) id.
(** An index set is an index map of units. *)
Definition IndexSet_convert {K} `{EqDecision K} (CK : Convert K) : Convert (list K) :=
  coll_convert CK (fun l => fst <$> index_of [] ((fun k => (k, tt)) <$> l)) id.

(** ** The rest *)

Definition Option_convert {A} (C : Convert A) : Convert (option A) :=
  MkConvert
    (fun fuel v => match v with VNull => Ok (inr None) | v => cbind (from_value C fuel v) (fun a => Ok (inr (Some a))) end)
    (fun fuel v => match v with VNull => Ok (Some None) | v => res_map (option_map Some) (get C fuel v) end)
    (fun o => match o with Some a => into C a | None => VNull end).

(** enumflags2: the bits of a set of flags, and the set with some bits if they all
    are flags *)
Definition BitFlags_convert {T} (bits : T → Z) (from_bits : Z → option T) (C : Convert Z) : Convert T :=
  MkConvert
    (fun fuel v => cbind (from_value C fuel v) (fun b =>
       match from_bits b with Some t => Ok (inr t) | None => fail "invalid bits" end))
    (fun fuel v => res_map (fun o => match o with Some b => from_bits b | None => None end) (get C fuel v))
    (fun t => into C (bits t)).

(** uuid: the text of an id *)
Definition Uuid_convert (to_string : Uuid → str) (parse : str → str + Uuid) : Convert Uuid :=
  let from v := match v with VString s => Ok (parse s) | _ => fail "can't cast" end in
  MkConvert (fun _ => from) (fun _ v => conv_ok (from v)) (fun id => VString (to_string id)).

(** ** Approximate equality *)

Definition EPSILON (F : format) : Z := if mant_bits F =? 23 then 0x34000000 else 0x3CB0000000000000.
Definition float_approx (F : format) (l r : Z) : bool :=
  if is_nan F l && is_nan F r then true
  else if is_zero F l && is_zero F r then true
  else f_le F (f_mag F (f_sub F l r)) (EPSILON F).

Section AllPairs.
Context {A B : Type} (f : A → B → run bool).
Fixpoint all_pairs (l : list A) (r : list B) : run bool :=
  match l, r with
  | x :: l, y :: r => res_bind (f x y) (fun b => if b then all_pairs l r else Ok false)
  | _, _ => Ok true
  end.
End AllPairs.

(** Two values of which one is a number *)
Definition number_approx (fuel : nat) (l r : Value) : run bool :=
  if number l || number r then
    res_bind (from_value f64_convert fuel l) (fun l =>
    res_bind (from_value f64_convert fuel r) (fun r =>
      match l, r with
      | inr l, inr r => Ok (float_approx binary64 l r)
      | _, _ => Ok false
      end))
  else Ok false.

Fixpoint approx_eq {VC : ValueCmp} (fuel : nat) (x y : Value) {struct x} : run bool :=
  match x, y with
  | (VU32 l | VV32 l), (VU32 r | VV32 r) => Ok (l =? r)
  | (VI32 l | VZ32 l), (VI32 r | VZ32 r) => Ok (l =? r)
  | (VU64 l | VV64 l), (VU64 r | VV64 r) => Ok (l =? r)
  | (VI64 l | VZ64 l), (VI64 r | VZ64 r) => Ok (l =? r)
  | VF32 l, VF32 r => Ok (float_approx binary32 l r)
  | VF64 l, VF64 r => Ok (float_approx binary64 l r)
  | VDecimal l, VDecimal r => Ok (is_eq (decimal_cmp l r))
  | VDateTime l, VDateTime r => Ok (is_eq (datetime_cmp l r))
  | VDuration l, VDuration r =>
      Ok (f_le binary64 (f_mag binary64 (f_sub binary64 (as_secs_f binary64 l) (as_secs_f binary64 r))) (EPSILON binary64))
  | VString l, VString r => Ok (bool_decide (l = r))
  | VBytes l, VBytes r => Ok (bool_decide (l = r))
  | VBool l, VBool r => Ok (Bool.eqb l r)
  | VNull, VNull => Ok true
  | VError l, VError r => approx_eq fuel l r
  | VArray l, VArray r => if zlen l =? zlen r then all_pairs (approx_eq fuel) l r else Ok false
  | VMap l, VMap r =>
      if zlen l =? zlen r
      then all_pairs (fun a b => res_bind (approx_eq fuel a.1 b.1) (fun k => if k then approx_eq fuel a.2 b.2 else Ok false)) l r
      else Ok false
  | VArray _, _ | _, VArray _ => Ok false
  | l, r => number_approx fuel l r
  end.
End Convert.

Arguments MkConvert {VA A}.
Arguments from_value {VA A} c fuel v.
Arguments get {VA A} c fuel v.
Arguments into {VA A} c a.
