(* ===== verification/ConvertFacts.v ===== *)
(** The conversions of convert.rs give back what they were given, and a [get] agrees
    with the cast of the same value. *)
From Stdlib Require Import ZArith Lia.
From stdpp Require Import base gmap list strings sorting.
From Stdlib Require Import Strings.Byte.
From S2P Require Import Prelude Varint Pack Containers PackTypes Path Order Float Value ValueOrd ValueOps ValueArith ValueConvert.

Section Laws.
Context {VA : ValueApi} {CM : ChunkMap} {VT : ValueText} {DO : DecimalOps} {TO : TimeOps}.

(** A value made from [a] converts back to it, with a cast and without. *)
Class ConvertOk {A} (C : Convert A) (wf : A → Prop) : Prop := {
  from_into fuel a : wf a → from_value C fuel (into C a) = Ok (inr a);
  get_into fuel a : wf a → get C fuel (into C a) = Ok (Some a)
}.
(** What [get] returns is what the cast returns. *)
Class ConvertGet {A} (C : Convert A) : Prop :=
  get_from : ∀ fuel v a, get C fuel v = Ok (Some a) → from_value C fuel v = Ok (inr a).
(** No value of the type is null. *)
Class NonNull {A} (C : Convert A) : Prop := into_non_null : ∀ a, into C a ≠ VNull.

Lemma via_cast_direct {A} typ (direct exact : Value → option A) fuel v a :
  direct v = Some a → via_cast typ direct exact fuel v = Ok (inr a).
Proof. unfold via_cast. by intros ->. Qed.
Lemma plain_ok {A} typ (direct exact : Value → option A) mk (wf : A → Prop) :
  (∀ a, wf a → direct (mk a) = Some a) → ConvertOk (plain_convert typ direct exact mk) wf.
Proof. intros H. split; intros fuel a Ha; cbn; [by apply via_cast_direct, H|by rewrite H]. Qed.
#[export] Instance plain_conv_get {A} typ (direct exact : Value → option A) mk :
  ConvertGet (plain_convert typ direct exact mk).
Proof. intros fuel v a [= H]. by apply via_cast_direct. Qed.
#[export] Instance exact_conv_get {A} typ (exact : Value → option A) mk : ConvertGet (exact_convert typ exact mk).
Proof. apply plain_conv_get. Qed.

Definition fits (t : ity) (z : Z) : Prop := in_ity t z = true.
Hint Unfold fits : core.
Lemma std_mem t : t ∈ [U8; I8; U16; I16; U32; I32; U64; I64] → std_ity t.
Proof. done. Qed.
Ltac std := apply std_mem; rewrite !elem_of_cons; tauto.

#[export] Instance Value_conv_ok : ConvertOk Value_convert (fun _ => True).
Proof. by split. Qed.
#[export] Instance u32_conv_ok : ConvertOk u32_convert (fits U32).
Proof. apply plain_ok. intros z Hz. cbn -[as_int]. f_equal. apply as_int_small; [std|done]. Qed.
#[export] Instance i32_conv_ok : ConvertOk i32_convert (fits I32).
Proof. apply plain_ok. intros z Hz. cbn -[as_int]. f_equal. apply as_int_small; [std|done]. Qed.
#[export] Instance u64_conv_ok : ConvertOk u64_convert (fits U64).
Proof. apply plain_ok. intros z Hz. cbn -[as_int]. f_equal. apply as_int_small; [std|done]. Qed.
#[export] Instance usize_conv_ok : ConvertOk usize_convert (fits U64).
Proof. apply plain_ok. intros z Hz. cbn -[as_int]. f_equal. apply as_int_small; [std|done]. Qed.
#[export] Instance i64_conv_ok : ConvertOk i64_convert (fits I64).
Proof. apply plain_ok. intros z Hz. cbn -[as_int]. f_equal. apply as_int_small; [std|done]. Qed.

(** The small integers are carried in the 32 bit ones. *)
Lemma small_ok (C : Convert Z) t T mk :
  (∀ z, into C z = mk z) → std_ity t → (∀ z, fits t z → fits T z) → ConvertOk C (fits T) →
  (∀ z, get_int t (mk z) = Some (as_int t z)) →
  ConvertOk (MkConvert (small_from C t) (fun _ v => Ok (get_int t v)) mk) (fits t).
Proof.
  intros Hmk Ht HT HC Hget. split; intros fuel z Hz; cbn.
  - unfold small_from. rewrite <-Hmk, from_into by auto. cbn. by rewrite Hz.
  - rewrite Hget. by rewrite as_int_small.
Qed.
Lemma fits_wider t T : imin T ≤ imin t → imax t ≤ imax T → ∀ z, fits t z → fits T z.
Proof. unfold fits, in_ity. lia. Qed.
Ltac small HC := refine (small_ok _ _ _ _ _ _ _ HC _); [done|std|by apply fits_wider|done].
#[export] Instance u8_conv_ok : ConvertOk u8_convert (fits U8).
Proof. small u32_conv_ok. Qed.
#[export] Instance i8_conv_ok : ConvertOk i8_convert (fits I8).
Proof. small i32_conv_ok. Qed.
#[export] Instance u16_conv_ok : ConvertOk u16_convert (fits U16).
Proof. small u32_conv_ok. Qed.
#[export] Instance i16_conv_ok : ConvertOk i16_convert (fits I16).
Proof. small i32_conv_ok. Qed.

#[export] Instance f32_conv_ok : ConvertOk f32_convert (fun _ => True).
Proof. by apply plain_ok. Qed.
#[export] Instance f64_conv_ok : ConvertOk f64_convert (fun _ => True).
Proof. by apply plain_ok. Qed.
#[export] Instance Decimal_conv_ok : ConvertOk Decimal_convert (fun _ => True).
Proof. by apply plain_ok. Qed.
#[export] Instance Bytes_conv_ok : ConvertOk Bytes_convert (fun _ => True).
Proof. by apply plain_ok. Qed.
#[export] Instance ArcStr_conv_ok : ConvertOk ArcStr_convert (fun _ => True).
Proof. by apply plain_ok. Qed.
#[export] Instance CompactString_conv_ok : ConvertOk CompactString_convert (fun _ => True).
Proof. by apply plain_ok. Qed.
#[export] Instance DateTime_conv_ok : ConvertOk DateTime_convert (fun _ => True).
Proof. by apply plain_ok. Qed.
#[export] Instance Duration_conv_ok : ConvertOk Duration_convert (fun _ => True).
Proof. by apply plain_ok. Qed.
#[export] Instance bool_conv_ok : ConvertOk bool_convert (fun _ => True).
Proof. by apply plain_ok. Qed.
#[export] Instance ValArray_conv_ok : ConvertOk ValArray_convert (fun _ => True).
Proof. by apply plain_ok. Qed.
#[export] Instance String_conv_ok : ConvertOk String_convert (fun _ => True).
Proof. by split. Qed.
#[export] Instance Path_conv_ok `{Escaping} : ConvertOk Path_convert (fun p => path_from p = p).
Proof. split; intros fuel p Hp; cbn; by rewrite Hp. Qed.
#[export] Instance String_conv_get : ConvertGet String_convert.
Proof. intros fuel v a [= H]. by apply via_cast_direct. Qed.
#[export] Instance Path_conv_get `{Escaping} : ConvertGet Path_convert.
Proof.
  intros fuel v a [= Hv]. cbn. destruct v; try discriminate Hv. injection Hv as <-. done.
Qed.

(** ** Collections *)

Section Coll.
Context {A : Type} (C : Convert A) (wf : A → Prop) `{HC : !ConvertOk C wf}.
Lemma try_map_into fuel l : Forall wf l → try_map (from_value C fuel) (into C <$> l) = Ok (inr l).
Proof. induction 1 as [|a l Ha _ IH]; [done|]. cbn. rewrite from_into by done. cbn. by rewrite IH. Qed.
Lemma collect_into fuel l : Forall wf l → collect (get C fuel) (into C <$> l) = Ok (Some l).
Proof. induction 1 as [|a l Ha _ IH]; [done|]. cbn. rewrite get_into by done. cbn. by rewrite IH. Qed.
Lemma coll_ok {B} (build : list A → B) items (wfB : B → Prop) :
  (∀ b, wfB b → Forall wf (items b) ∧ build (items b) = b) → ConvertOk (coll_convert C build items) wfB.
Proof.
  intros H. split; intros fuel b [Hb Hbuild]%H; cbn.
  - unfold coll_from, array_from. rewrite try_map_into by done. cbn. by rewrite Hbuild.
  - unfold coll_get, array_get. rewrite collect_into by done. cbn. by rewrite Hbuild.
Qed.
#[export] Instance Vec_conv_ok : ConvertOk (Vec_convert C) (Forall wf).
Proof. by apply coll_ok. Qed.
#[export] Instance SmallVec_conv_ok : ConvertOk (SmallVec_convert C) (Forall wf).
Proof. by apply coll_ok. Qed.
#[export] Instance LPooledVec_conv_ok : ConvertOk (LPooledVec_convert C) (Forall wf).
Proof. split; intros fuel l Hl; cbn; unfold coll_from, array_from; by rewrite try_map_into. Qed.
#[export] Instance GPooledVec_conv_ok : ConvertOk (GPooledVec_convert C) (Forall wf).
Proof. split; intros fuel l Hl; cbn; unfold coll_from, array_from; by rewrite try_map_into. Qed.
#[export] Instance array_conv_ok n : ConvertOk (array_convert n C) (fun l => length l = n ∧ Forall wf l).
Proof.
  split; intros fuel l [Hn Hl]; cbn; rewrite length_fmap, bool_decide_true by done; [by apply try_map_into|].
  by apply collect_into.
Qed.

#[export] Instance Option_conv_ok {HN : NonNull C} : ConvertOk (Option_convert C) (from_option wf True).
Proof.
  split; intros fuel [a|] Ha; cbn; try done; pose proof (into_non_null a) as Hn.
  - destruct (into C a) eqn:E; try done; by rewrite <-E, from_into.
  - destruct (into C a) eqn:E; try done; by rewrite <-E, get_into.
Qed.
End Coll.

Section Gets.
Context {A : Type} (C : Convert A) `{HC : !ConvertGet C}.
Lemma collect_try_map fuel vs l : collect (get C fuel) vs = Ok (Some l) → try_map (from_value C fuel) vs = Ok (inr l).
Proof.
  revert l. induction vs as [|v vs IH]; intros l; cbn; [by intros [= <-]|].
  destruct (get C fuel v) as [[a|]| |] eqn:Hv; try done. rewrite (get_from _ _ _ Hv). cbn.
  destruct (collect (get C fuel) vs) as [[l'|]| |] eqn:Hvs; try done. cbn. intros [= <-].
  by rewrite (IH l').
Qed.
#[export] Instance coll_conv_get {B} (build : list A → B) items : ConvertGet (coll_convert C build items).
Proof.
  intros fuel v b. destruct v; try done. cbn.
  destruct (collect (get C fuel) a) as [[l|]| |] eqn:Hl; try done. intros [= <-].
  unfold coll_from, array_from. by rewrite (collect_try_map _ _ _ Hl).
Qed.
#[export] Instance array_conv_get n : ConvertGet (array_convert n C).
Proof. intros fuel v l. destruct v; try done. cbn. case_bool_decide; [|done]. apply collect_try_map. Qed.
#[export] Instance Option_conv_get : ConvertGet (Option_convert C).
Proof.
  intros fuel v o. cbn. destruct v; try (by intros [= <-]);
    (destruct (get C fuel _) as [[x|]| |] eqn:Hx; try done; intros [= <-]; by rewrite (get_from _ _ _ Hx)).
Qed.
End Gets.
(** [get] by [ok()] *)
Lemma conv_ok_some {A} (r : res Stop (str + A)) a : conv_ok r = Ok (Some a) → r = Ok (inr a).
Proof. destruct r as [[|]| |]; try done. by intros [= ->]. Qed.

(** ** Tuples and maps *)

Inductive fields_ok : ∀ {ts}, fields ts → (tuple ts → Prop) → Prop :=
| fields_nil : fields_ok FNil (fun _ => True)
| fields_cons {T ts} (C : Convert T) (fs : fields ts) wf wfs :
    ConvertOk C wf → fields_ok fs wfs → fields_ok (FCons C fs) (fun p => wf p.1 ∧ wfs p.2).
Lemma tuple_from_into {ts} (fs : fields ts) wf fuel p : fields_ok fs wf → wf p →
  tuple_from fs fuel (tuple_into fs p) = Ok (inr p).
Proof.
  intros Hfs. revert p. induction Hfs as [|T ts C fs wf wfs HC Hfs IH]; intros p Hp; cbn; [by destruct p|].
  destruct p as [x p], Hp as [Hx Hp]. cbn in *. rewrite from_into by done. cbn. by rewrite IH.
Qed.
Lemma tuple_into_length {ts} (fs : fields ts) p : length (tuple_into fs p) = length ts.
Proof. induction fs as [|T ts C fs IH]; cbn; [done|]. by rewrite IH. Qed.
Lemma tuple_conv_ok {ts} (fs : fields ts) wf : fields_ok fs wf → ConvertOk (tuple_convert fs) wf.
Proof.
  intros Hfs. split; intros fuel p Hp; cbn; unfold tuple_value, array_from;
    rewrite bool_decide_true by apply tuple_into_length; by rewrite (tuple_from_into fs wf).
Qed.
#[export] Instance pair_conv_ok {K V} (CK : Convert K) (CV : Convert V) wfK wfV :
  ConvertOk CK wfK → ConvertOk CV wfV → ConvertOk (pair_convert CK CV) (fun p => wfK p.1 ∧ wfV p.2).
Proof.
  intros HK HV.
  assert (ConvertOk (tuple_convert (FCons CK (FCons CV FNil))) (fun p => wfK p.1 ∧ wfV p.2.1 ∧ True)) as HT.
  { apply tuple_conv_ok. exact (fields_cons _ _ _ _ HK (fields_cons _ _ _ _ HV fields_nil)). }
  split; intros fuel [k v] [Hk Hv]; cbn -[tuple_convert].
  - by rewrite from_into.
  - by rewrite get_into.
Qed.
#[export] Instance pair_conv_get {K V} (CK : Convert K) (CV : Convert V) : ConvertGet (pair_convert CK CV).
Proof.
  intros fuel v [k x]. cbn. destruct (conv_ok _) as [[p|]| |] eqn:Hp; try done. intros [= <- <-].
  by rewrite (conv_ok_some _ _ Hp).
Qed.

Section MapOk.
Context {K V : Type} `{Countable K} (CK : Convert K) (CV : Convert V) (wfK : K → Prop) (wfV : V → Prop).
Context `{HK : !ConvertOk CK wfK} `{HV : !ConvertOk CV wfV}.
Definition entries_wf (m : gmap K V) : Prop := map_Forall (fun k v => wfK k ∧ wfV v) m.
Lemma HashMap_conv_ok order : (∀ m, order m ≡ₚ map_to_list m) → ConvertOk (HashMap_convert order CK CV) entries_wf.
Proof.
  intros Ho. eapply coll_ok; [apply (pair_conv_ok CK CV wfK wfV); done|]. intros m Hm. split.
  - rewrite Ho. apply map_Forall_to_list in Hm. eapply Forall_impl; [exact Hm|]. by intros [k v].
  - by apply map_of_enumeration.
Qed.
Lemma HashSet_conv_ok order : (∀ s, order s ≡ₚ elements s) → ConvertOk (HashSet_convert order CK) (set_Forall wfK).
Proof.
  intros Ho. apply (coll_ok CK wfK). intros s Hs. split.
  - rewrite Ho. by apply set_Forall_elements.
  - by apply set_of_enumeration.
Qed.
Lemma IndexMap_conv_ok : ConvertOk (IndexMap_convert CK CV) (fun l => NoDup l.*1 ∧ Forall (fun p => wfK p.1 ∧ wfV p.2) l).
Proof.
  eapply coll_ok; [apply (pair_conv_ok CK CV wfK wfV); done|]. intros l [Hd Hl]. split; [done|].
  by apply index_of_distinct.
Qed.
Lemma IndexSet_conv_ok : ConvertOk (IndexSet_convert CK) (fun l => NoDup l ∧ Forall wfK l).
Proof.
  apply (coll_ok CK wfK). intros l [Hd Hl]. split; [done|].
  assert (((fun k : K => (k, tt)) <$> l).*1 = l) as E.
  { rewrite <-list_fmap_compose. apply list_fmap_id. }
  unfold id. rewrite index_of_distinct; [exact E|]. rewrite app_nil_l. by rewrite E.
Qed.
End MapOk.

#[export] Instance BitFlags_conv_ok {T} (bits : T → Z) from_bits (C : Convert Z) wf :
  ConvertOk C wf → (∀ t, from_bits (bits t) = Some t) → ConvertOk (BitFlags_convert bits from_bits C) (fun t => wf (bits t)).
Proof.
  intros HC Hb. split; intros fuel t Ht; cbn.
  - rewrite from_into by done. cbn. by rewrite Hb.
  - rewrite get_into by done. cbn. by rewrite Hb.
Qed.
#[export] Instance Uuid_conv_ok to_string parse :
  (∀ id, parse (to_string id) = inr id) → ConvertOk (Uuid_convert to_string parse) (fun _ => True).
Proof. intros H. split; intros fuel id _; cbn; by rewrite H. Qed.
End Laws.
