(* ===== verification/PubProto.v ===== *)
(** The messages between publishers and subscribers (netidx-netproto/src/publisher.rs,
    [To] and [From]), which carry values. *)
From Stdlib Require Import ZArith Lia.
From stdpp Require Import base gmap list strings sorting.
From Stdlib Require Import Strings.Byte.
From S2P Require Import Prelude Varint Pack Containers PackTypes Path PathFacts Order Glob Derive Proto Float Value ValuePack.

Section Messages.
Context {ES : Escaping} {LY : Layout} {VA : ValueApi} {CM : ChunkMap} (reg : Registry).

Inductive To :=
| To_Subscribe (path : str) (resolver : SocketAddr) (timestamp : u64) (permissions : u32) (token : str)
| To_Unsubscribe (id : Id)
| To_Write (id : Id) (r : bool) (v : Value) (wid : WriteId).

Inductive From :=
| From_NoSuchValue (p : str)
| From_Denied (p : str)
| From_Unsubscribed (id : Id)
| From_Subscribed (p : str) (id : Id) (v : Value)
| From_Update (id : Id) (v : Value)
| From_Heartbeat
| From_WriteResult (id : Id) (v : Value) (wid : WriteId).

(** [next] is the id [WriteId::default] takes from the counter for a peer that does
    not send one. *)
Context (next : WriteId).

Definition To_pack : Pack To := derive_enum false (layout "To" []) [
  Var 0 [F Path_pack; F SocketAddr_pack; F u64_pack; F u32_pack; F Bytes_pack]
    (fun v => To_Subscribe v.1 v.2.1 v.2.2.1 v.2.2.2.1 v.2.2.2.2.1)
    (fun a => match a with To_Subscribe p r t s k => Some (p, (r, (t, (s, (k, ()))))) | _ => None end);
  Var 1 [F (atomic_id_pack "Id")] (fun v => To_Unsubscribe v.1)
    (fun a => match a with To_Unsubscribe i => Some (i, ()) | _ => None end);
  Var 2 [F (atomic_id_pack "Id"); F bool_pack; F (Value_pack reg); Fdef (atomic_id_pack "WriteId") next]
    (fun v => To_Write v.1 v.2.1 v.2.2.1 v.2.2.2.1)
    (fun a => match a with To_Write i r v w => Some (i, (r, (v, (w, ())))) | _ => None end)
] None.

Definition From_pack : Pack From := derive_enum false (layout "From" []) [
  Var 0 [F Path_pack] (fun v => From_NoSuchValue v.1)
    (fun a => match a with From_NoSuchValue p => Some (p, ()) | _ => None end);
  Var 1 [F Path_pack] (fun v => From_Denied v.1)
    (fun a => match a with From_Denied p => Some (p, ()) | _ => None end);
  Var 2 [F (atomic_id_pack "Id")] (fun v => From_Unsubscribed v.1)
    (fun a => match a with From_Unsubscribed i => Some (i, ()) | _ => None end);
  Var 3 [F Path_pack; F (atomic_id_pack "Id"); F (Value_pack reg)] (fun v => From_Subscribed v.1 v.2.1 v.2.2.1)
    (fun a => match a with From_Subscribed p i v => Some (p, (i, (v, ()))) | _ => None end);
  Var 4 [F (atomic_id_pack "Id"); F (Value_pack reg)] (fun v => From_Update v.1 v.2.1)
    (fun a => match a with From_Update i v => Some (i, (v, ())) | _ => None end);
  Var 5 [] (fun _ => From_Heartbeat)
    (fun a => match a with From_Heartbeat => Some () | _ => None end);
  Var 6 [F (atomic_id_pack "Id"); F (Value_pack reg); Fdef (atomic_id_pack "WriteId") next]
    (fun v => From_WriteResult v.1 v.2.1 v.2.2.1)
    (fun a => match a with From_WriteResult i v w => Some (i, (v, (w, ()))) | _ => None end)
] None.
End Messages.

Section Laws.
Context {ES : Escaping} {ESO : EscapingOk ES} {LY : Layout} {VA : ValueApi} {CM : ChunkMap} {AO : AnyOk}.
Context (reg : Registry) (next : WriteId).

Definition id_wf {name} (i : atomic_id name) : Prop := in_u 64 (inner i).
Definition To_wf (m : To) : Prop :=
  match m with
  | To_Subscribe p r t s k => path_wf p ∧ addr_wf r ∧ uint_wf t ∧ uint_wf s ∧ bytes_wf k
  | To_Unsubscribe i => id_wf i
  | To_Write i _ v w => id_wf i ∧ value_wf reg v ∧ id_wf w
  end.
Definition From_wf (m : From) : Prop :=
  match m with
  | From_NoSuchValue p | From_Denied p => path_wf p
  | From_Unsubscribed i => id_wf i
  | From_Subscribed p i v => path_wf p ∧ id_wf i ∧ value_wf reg v
  | From_Update i v => id_wf i ∧ value_wf reg v
  | From_Heartbeat => True
  | From_WriteResult i v w => id_wf i ∧ value_wf reg v ∧ id_wf w
  end.
#[export] Instance To_ok : PackOk (To_pack reg next) To_wf.
Proof. unfold To_pack. derive_enum_law. Qed.
#[export] Instance From_ok : PackOk (From_pack reg next) From_wf.
Proof. unfold From_pack. derive_enum_law. Qed.
End Laws.
