(* ===== verification/ValueClaims.v ===== *)
(** What values promise: they and the messages that carry them travel unchanged, their
    decoder ends, they are totally ordered, casts have the type asked for, integer
    arithmetic is exact up to its width, casts and arithmetic end, conversions give
    back what they were given, windows of arrays are what they should be. *)
From Stdlib Require Import ZArith Lia.
From stdpp Require Import base gmap list strings sorting.
From Stdlib Require Import Strings.Byte.
From S2P Require Import Prelude Varint Pack Containers PackTypes Path PathFacts Order Glob Derive Proto.
From S2P Require Import Float Value ValuePack ValueOrd ValArray ValueOps ValueArith ValueConvert ConvertFacts PubProto.

(** ** Flattening *)

Section Flatten.
Context {VA : ValueApi}.
(** The leaves of a value from left to right *)
Fixpoint leaves (v : Value) : list Value :=
  match v with VArray a => concat (leaves <$> a) | v => [v] end.
(** Steps the loop takes for a value *)
Fixpoint steps (v : Value) : nat :=
  match v with VArray a => S (foldr (fun x n => S (steps x) + n)%nat 0%nat a) | _ => 0%nat end.
Definition steps_all (l : list Value) : nat := foldr (fun x n => S (steps x) + n)%nat 0%nat l.

Lemma leaf_case v : (∃ a, v = VArray a) ∨ (leaves v = [v] ∧ ∀ T (f : list Value → T) x,
  match v with VArray a => f a | _ => x end = x).
Proof. destruct v; try (by right); left; by eexists. Qed.

Lemma flatten_loop_stack stack n :
  (foldr (fun s m => S (steps_all (drop s.2 s.1)) + m)%nat 0%nat stack < n)%nat →
  flatten_loop n stack = Some (concat ((fun s => concat (leaves <$> drop s.2 s.1)) <$> stack)).
Proof.
  revert stack. induction n as [|n IH]; intros stack Hn; [lia|].
  destruct stack as [|[elts pos] rest]; [done|]. cbn [flatten_loop].
  cbn [foldr fst snd] in Hn.
  destruct (elts !! pos) as [v|] eqn:Hv.
  - assert (drop pos elts = v :: drop (S pos) elts) as Hd by (by apply drop_S).
    rewrite Hd in Hn. change (steps_all (v :: drop (S pos) elts)) with (S (steps v) + steps_all (drop (S pos) elts))%nat in Hn.
    rewrite fmap_cons. cbn [concat fst snd]. rewrite Hd, fmap_cons. cbn [concat].
    destruct (leaf_case v) as [[a ->]|[Hl Hc]].
    + change (steps (VArray a)) with (S (steps_all a)) in Hn.
      rewrite IH by (cbn [foldr fst snd]; rewrite drop_0; lia). cbn. by rewrite drop_0, <-app_assoc.
    + rewrite Hc, Hl. rewrite IH by (cbn [foldr fst snd]; lia). done.
  - rewrite IH by lia. rewrite fmap_cons. cbn [concat fst snd].
    by rewrite drop_ge by (by apply lookup_ge_None).
Qed.
End Flatten.

(** ** The registry *)

Section Reg.
Context {VA : ValueApi}.
(** Ids and types are in bijection. *)
Definition reg_inv (r : Registry) : Prop := ∀ i t, by_uuid r !! i = Some t ↔ by_tid r !! t = Some i.
Definition reg_run (r : Registry) (l : list (Uuid * option Z)) : Registry :=
  foldl (fun r x => (reg_insert r x.1 x.2).2) r l.

Lemma reg_insert_inv r id tid : reg_inv r → reg_inv (reg_insert r id tid).2.
Proof.
  intros Hr. unfold reg_insert. destruct (by_uuid r !! as_u128 id) as [vt|] eqn:Hi; [by case_match|].
  destruct (by_tid r !! tid) as [i|] eqn:Ht; [done|]. intros j t. cbn.
  destruct (decide (j = as_u128 id)) as [->|Hj], (decide (t = tid)) as [->|Htt];
    rewrite ?lookup_insert_eq, ?lookup_insert_ne by done; try done.
  - split; [congruence|]. intros Hb. apply Hr in Hb. congruence.
  - split; [|congruence]. intros Hb. apply Hr in Hb. congruence.
Qed.
Lemma reg_insert_mono r id tid i t : by_uuid r !! i = Some t → by_uuid (reg_insert r id tid).2 !! i = Some t.
Proof.
  intros Hi. unfold reg_insert. repeat case_match; try done. cbn.
  rewrite lookup_insert_ne; [done|]. congruence.
Qed.
Lemma reg_insert_result r id tid : reg_inv r →
  match (reg_insert r id tid).1 with
  | Ok t => t = tid ∧ by_uuid (reg_insert r id tid).2 !! as_u128 id = Some tid
  | Err _ => (reg_insert r id tid).2 = r ∧ by_uuid r !! as_u128 id ≠ Some tid
  | Panic => False
  end.
Proof.
  intros Hr. unfold reg_insert. destruct (by_uuid r !! as_u128 id) as [vt|] eqn:Hi.
  - case_bool_decide as Hv; cbn; [by subst|]. split; [done|]. congruence.
  - destruct (by_tid r !! tid) eqn:Ht; cbn; [done|]. by rewrite lookup_insert_eq.
Qed.
Lemma reg_run_inv r l : reg_inv r → reg_inv (reg_run r l).
Proof.
  revert r. induction l as [|x l IH]; intros r Hr; [done|]. by apply IH, reg_insert_inv.
Qed.
Lemma reg_run_mono r l i t : by_uuid r !! i = Some t → by_uuid (reg_run r l) !! i = Some t.
Proof. revert r. induction l as [|x l IH]; intros r Hr; [done|]. by apply IH, reg_insert_mono. Qed.
Lemma reg_init_inv : reg_inv REGISTRY_init.
Proof. apply reg_insert_inv. by intros i t. Qed.
End Reg.

(** ** Theorems *)

Section Wire.
Context {ES : Escaping} {ESO : EscapingOk ES} {LY : Layout} {VA : ValueApi} {CM : ChunkMap} {AO : AnyOk}.
Context (reg : Registry).

(** C24: A well formed value, however deeply nested, and every message between
    publishers and subscribers that carries one, encodes to exactly the announced
    number of bytes and decodes to itself, leaving what follows. *)
Theorem value_messages_roundtrip next :
  PackOk (Value_pack reg) (value_wf reg) ∧
  PackOk (To_pack reg next) (To_wf reg) ∧ PackOk (From_pack reg next) (From_wf reg).
Proof. split_and!; apply _. Qed.

(** C30: Decoding a value from arbitrary bytes ends: the nesting cannot exceed the
    input, so the number of levels looked at does not matter once it does. What is
    left is a suffix of the input, and the only panic is that of a duration whose
    nanoseconds carry its seconds past [u64]. *)
Theorem value_decode_ends bs n :
  (length bs < n)%nat →
  decode (value_pack reg n) bs = decode (Value_pack reg) bs ∧
  (decode (Value_pack reg) bs).2 `suffix_of` bs ∧
  ((decode (Value_pack reg) bs).1 = Panic → bad_duration bs).
Proof.
  intros Hn.
  assert (Hv : decode (Value_pack reg) bs = decode (value_pack reg (S (length bs))) bs) by done.
  rewrite Hv. split; [|apply value_guarded; lia]. symmetry.
  destruct (value_fuel_enough reg (S (length bs)) (S (length bs)) n ltac:(lia) ltac:(lia) bs) as [_ [H|[[=] _]]];
    [lia|done].
Qed.

(** The registry of abstract types keeps ids and types in bijection whatever a
    program registers, in whatever order: a registered id never changes its type, a
    registration either holds afterwards or changes nothing and is refused because it
    could not hold. *)
Theorem registry_keeps_types_apart (l : list (Uuid * option Z)) id tid :
  let r := reg_run REGISTRY_init l in
  reg_inv r ∧
  (∀ l' i t, by_uuid r !! i = Some t → by_uuid (reg_run r l') !! i = Some t) ∧
  match (reg_insert r id tid).1 with
  | Ok t => t = tid ∧ by_uuid (reg_insert r id tid).2 !! as_u128 id = Some tid
  | Err _ => (reg_insert r id tid).2 = r ∧ by_uuid r !! as_u128 id ≠ Some tid
  | Panic => False
  end.
Proof.
  intros r. assert (Hr : reg_inv r) by apply reg_run_inv, reg_init_inv.
  split; [done|]. split; [intros; by apply reg_run_mono|]. by apply reg_insert_result.
Qed.
End Wire.

Section Ordered.
Context {VA : ValueApi} {VC : ValueCmp}.

(** C25: Values whose abstract parts are of one type are totally ordered: comparing
    never panics and is never undecided, not even on NaNs; it is antisymmetric and
    transitive, equal exactly for values that are [==], and equal values without
    NaNs and zeros hash alike. *)
Theorem value_order_total tid x y z :
  same_abs tid x → same_abs tid y → same_abs tid z →
  ∃ c d, value_cmp x y = Ok c ∧ value_cmp y z = Ok d ∧ value_cmp y x = Ok (CompOpp c) ∧
    (∀ e, ctrans c d = Some e → value_cmp x z = Ok e) ∧
    (value_eq x y = true ↔ c = Eq) ∧
    (plain_floats x → plain_floats y → c = Eq → value_hash x = value_hash y).
Proof.
  intros Hx Hy Hz. exists (vcmp x y), (vcmp y z). unfold value_cmp.
  rewrite !(partial_cmp_vcmp tid) by done. split_and!; try done.
  - by rewrite vcmp_sym.
  - intros e He. by rewrite (vcmp_trans tid x Hx y z e Hy Hz He).
  - by apply (value_eq_vcmp tid).
  - intros Px Py He. by apply (value_hash_eq tid).
Qed.
End Ordered.

Section Compute.
Context {VA : ValueApi} {CM : ChunkMap} {VT : ValueText} {DO : DecimalOps} {TO : TimeOps}.

(** C26: A cast that succeeds has the type that was asked for, whatever it was cast
    from. *)
Theorem cast_typed fuel v typ v' : cast fuel v typ = Ok (Some v') → typ_get v' = Some typ.
Proof. apply cast_typ. Qed.


(** C28: Casts and arithmetic always end, with one result: beyond some amount of fuel
    the result does not change and is not the lack of fuel, for every value, type,
    operator and mode, even where strings denote values that hold strings again. *)
Theorem casts_and_arithmetic_end {PO : ParseOk} v typ mode op l r :
  total (fun fuel => cast fuel v typ) ∧ total (fun fuel => apply_op fuel mode op l r).
Proof. split; [apply cast_total|apply apply_op_total]. Qed.

(** [flatten] returns the leaves of a value from left to right. *)
Theorem flatten_leaves v fuel : (steps v < fuel)%nat → flatten fuel v = Some (leaves v).
Proof.
  intros Hf. destruct v; try done. cbn [flatten]. change (steps (VArray a)) with (S (steps_all a)) in Hf.
  rewrite flatten_loop_stack by (cbn [foldr fst snd]; rewrite drop_0; lia). cbn. by rewrite drop_0, app_nil_r.
Qed.
End Compute.

Section Conversions.
Context {VA : ValueApi} {CM : ChunkMap} {VT : ValueText} {DO : DecimalOps} {TO : TimeOps}.

(** C29: Conversions of Rust types to values and back lose nothing: integers,
    strings and canonical paths, collections of convertible elements, options of types that are never null and
    maps in whatever order they enumerate, with and without a cast. *)
Theorem conversions_roundtrip {ES : Escaping} :
  (ConvertOk u8_convert (fits U8) ∧ ConvertOk i8_convert (fits I8) ∧ ConvertOk u16_convert (fits U16) ∧
   ConvertOk i16_convert (fits I16) ∧ ConvertOk u32_convert (fits U32) ∧ ConvertOk i32_convert (fits I32) ∧
   ConvertOk u64_convert (fits U64) ∧ ConvertOk i64_convert (fits I64) ∧
   ConvertOk String_convert (fun _ => True) ∧ ConvertOk Path_convert (fun p => path_from p = p)) ∧
  (∀ A (C : Convert A) wf, ConvertOk C wf →
     ConvertOk (Vec_convert C) (Forall wf) ∧ ConvertOk (LPooledVec_convert C) (Forall wf) ∧
     (∀ n, ConvertOk (array_convert n C) (fun l => length l = n ∧ Forall wf l)) ∧
     (NonNull C → ConvertOk (Option_convert C) (from_option wf True))) ∧
  (∀ ts (fs : fields ts) wf, fields_ok fs wf → ConvertOk (tuple_convert fs) wf) ∧
  (∀ K V (HE : EqDecision K) (HC : Countable K) (CK : Convert K) (CV : Convert V) wfK wfV order,
     ConvertOk CK wfK → ConvertOk CV wfV → (∀ m, order m ≡ₚ map_to_list m) →
     ConvertOk (HashMap_convert order CK CV) (entries_wf wfK wfV)).
Proof.
  split; [split_and!; apply _|]. split; [intros A C wf HC; split_and!; intros; apply _|].
  split; [intros ts fs wf; apply tuple_conv_ok|].
  intros K V HE HCK CK CV wfK wfV order HK HV Ho. by apply HashMap_conv_ok.
Qed.

(** [get_as] never disagrees with [cast_to] on the 32 and 64 bit integers and on
    collections, but on the small integers it does: it returns a truncated number
    where the cast is an error, and nothing for the value of the type itself. *)
Theorem get_agrees_with_cast :
  (ConvertGet u32_convert ∧ ConvertGet i32_convert ∧ ConvertGet u64_convert ∧ ConvertGet i64_convert) ∧
  (∀ A (C : Convert A), ConvertGet C → ConvertGet (Vec_convert C) ∧ ConvertGet (Option_convert C)) ∧
  (∀ n, get u8_convert n (VU32 300) = Ok (Some 44) ∧
        from_value u8_convert n (VU32 300) = Ok (inl (lit "can't cast"))) ∧
  (∀ n, get u8_convert n (VU8 7) = Ok None ∧ from_value u8_convert (S n) (VU8 7) = Ok (inr 7)).
Proof. split; [split_and!; apply _|]. split; [intros A C HC; split; apply _|]. by split. Qed.
End Conversions.

(** A window of an array or of a window holds exactly the elements of the range
    asked for, and a range outside is an error and not a panic, for the ranges the
    bounds arithmetic handles. *)
Theorem subslice_exact {A} (v : ValArray A) l start stop :
  regular v → deref v = Some l → bound_pos start → bound_pos stop → handled v start stop →
  match index l start stop with
  | Some l' => ∃ v', subslice v start stop = Ok v' ∧ deref v' = Some l' ∧ (half_open start stop → regular v')
  | None => ∃ e, subslice v start stop = Err e
  end.
Proof. apply subslice_spec. Qed.

(** ** The classes can be met *)

(** Decimals as sixteen bytes, one registered type of bytes *)
Program Definition raw_decimal : DecimalApi := {|
  Decimal := { l : list byte | bool_decide (length l = 16%nat) = true };
  serialize d := `d;
  deserialize l := exist _ (take 16 (l ++ replicate 16 (Zb 0))) _
|}.
Next Obligation. intros l. apply bool_decide_eq_true. rewrite length_take, length_app, length_replicate. lia. Qed.
Next Obligation. intros [l H]. exact (bool_decide_eq_true_1 _ H). Qed.
Next Obligation.
  intros [l H]. apply sig_eq_pi; [intros ?; apply _|]. cbn. apply bool_decide_eq_true_1 in H.
  rewrite take_app_length' by done. done.
Qed.
Definition demo_any : AnyApi := {|
  Any := u8; type_id _ := 7; any_pack _ := u8_pack;
  any_eq a b := uval a =? uval b; any_cmp a b := uval a ?= uval b; any_hash a := [uval a]
|}.
Program Definition demo_values : ValueApi := {|
  va_decimal := raw_decimal; va_time := clock; va_uuid := uuid_numbers; va_any := demo_any; value_size := 16
|}.
Next Obligation. lia. Qed.
#[local] Existing Instance demo_values.
Lemma demo_any_laws tid : PackOk (any_pack (AnyApi := demo_any) tid) (fun a => type_id a = tid ∧ uint_wf (a : u8)).
Proof. eapply PackOk_impl; [apply (uint_ok 1)|]. by intros a [_ H]. Qed.
Definition demo_any_ok : AnyOk (AA := demo_any) :=
  @Build_AnyOk demo_any (fun a : u8 => uint_wf a) demo_any_laws (fun _ => uint_safe 1).
(** A map that keeps its entries as they are *)
Definition demo_map_api : ChunkMap := {|
  map_from_iter l := l; map_rebuild l := eq_refl; map_entries l kv H := H
|}.
(** A syntax of nulls only *)
Definition demo_text : ValueText := {|
  display _ := lit "null";
  parse_value s := if bool_decide (s = lit "null") then Ok VNull else Err (lit "syntax error")
|}.
Lemma demo_parse_ok : ParseOk (VT := demo_text).
Proof. intros s v. cbn. case_bool_decide; [|done]. intros [= <-]. cbn. lia. Qed.
Definition zero_decimal : Decimal := deserialize [].
Program Definition demo_decimals : DecimalOps := {|
  dec_of_int _ := zero_decimal; dec_of_float _ _ := inr zero_decimal; dec_to_int _ _ _ := None;
  dec_to_float _ _ := None; dec_arith _ _ _ := Some zero_decimal
|}.
Next Obligation. done. Qed.
Definition demo_nanoseconds (d : Z) : option Z := if bool_decide (in_i 64 d) then Some d else None.
Lemma demo_nanoseconds_num d i : demo_nanoseconds d = Some i → in_i 64 i ∧ i = d.
Proof. unfold demo_nanoseconds. case_bool_decide; [|done]. by intros [= <-]. Qed.
Definition demo_durations : ChronoDuration := {|
  CDuration := Z; num_nanoseconds := demo_nanoseconds; nanoseconds z := z; nanoseconds_num := demo_nanoseconds_num
|}.
Definition demo_times : TimeOps := {|
  va_duration := demo_durations;
  from_std d := inr (dur_ns d);
  dt_shift back t d := from_timestamp (timestamp t + (if back then - (d / 10 ^ 9) else d / 10 ^ 9)) 0;
  timestamp_nanos_opt t := Some (timestamp t * 10 ^ 9 + timestamp_subsec_nanos t)
|}.
Program Definition demo_cmp : ValueCmp := {|
  decimal_cmp a b := str_cmp (serialize a) (serialize b);
  datetime_cmp a b := timestamp a ?= timestamp b;
  decimal_hash a := bZ <$> serialize a;
  datetime_hash a := [timestamp a]
|}.
Next Obligation. apply (key_total serialize). apply _. Qed.
Next Obligation. apply (key_total timestamp). apply _. Qed.
Next Obligation. apply (key_total uval). apply _. Qed.
Next Obligation. intros a b. cbn. by rewrite Z.eqb_eq, Z.compare_eq_iff. Qed.
Next Obligation. intros a b H%str_cmp_eq. exact (f_equal (fmap bZ) H). Qed.
Next Obligation. intros a b H%Z.compare_eq_iff. exact (f_equal (fun z => [z]) H). Qed.
Next Obligation. intros a b H%Z.compare_eq_iff. exact (f_equal (fun z => [z]) H). Qed.

(** ** The theorems at concrete inputs *)

Definition demo_value : Value :=
  VArray [VI32 (-5); VMap [(VString (lit "k"), VF64 0x3FF8000000000000)]; VError (VString (lit "no")); VArray []].

Lemma value_messages_roundtrip_witness :
  PackOk (Value_pack (LY := demo_layout) (CM := demo_map_api) REGISTRY_init)
    (value_wf (CM := demo_map_api) (AO := demo_any_ok) REGISTRY_init) ∧
  value_wf (CM := demo_map_api) (AO := demo_any_ok) REGISTRY_init demo_value.
Proof.
  split; [|unfold demo_value; cbn [value_wf foldr fst snd];
    unfold str_wf, bytes_wf, in_u, in_i; split_and!; by first [exact I|reflexivity|vm_compute]].
  exact (proj1 (value_messages_roundtrip (ES := escaping_ref) (LY := demo_layout) (CM := demo_map_api) (AO := demo_any_ok)
    REGISTRY_init (MkId 1))).
Defined.

Lemma value_decode_ends_witness :
  (decode (Value_pack (LY := demo_layout) (CM := demo_map_api) REGISTRY_init) [Zb 16; Zb 3]).2 `suffix_of` [Zb 16; Zb 3].
Proof.
  apply (value_decode_ends (LY := demo_layout) (CM := demo_map_api) (AO := demo_any_ok) REGISTRY_init [Zb 16; Zb 3] 5). cbn. lia.
Defined.

Lemma value_order_total_witness :
  ∃ c d, value_cmp (VC := demo_cmp) demo_value VNull = Ok c ∧ value_cmp (VC := demo_cmp) VNull (VF64 0) = Ok d.
Proof.
  destruct (@value_order_total _ demo_cmp None demo_value VNull (VF64 0)) as (c & d & Hc & Hd & _);
    [by vm_compute..|]. by exists c, d.
Defined.

Lemma cast_typed_witness : typ_get (VU8 44) = Some TU8.
Proof.
  apply (@cast_typed _ demo_map_api demo_text demo_decimals demo_times 3 (VArray [VI64 300]) TU8 (VU8 44)).
  reflexivity.
Defined.


Lemma casts_and_arithmetic_end_witness :
  total (fun fuel => cast (CM := demo_map_api) (VT := demo_text) (DO := demo_decimals) (TO := demo_times)
    fuel (VString (lit "null")) TU8).
Proof.
  apply (@casts_and_arithmetic_end _ demo_map_api demo_text demo_decimals demo_times demo_parse_ok
    (VString (lit "null")) TU8 Checked Add VNull VNull).
Defined.

Lemma flatten_leaves_witness :
  flatten 10 (VArray [VU8 1; VArray [VU8 2; VArray []]; VU8 3]) = Some [VU8 1; VU8 2; VU8 3].
Proof. apply (flatten_leaves (VArray [VU8 1; VArray [VU8 2; VArray []]; VU8 3])). cbn. lia. Defined.

Lemma subslice_exact_witness :
  ∃ v', subslice (Slice [1; 2; 3; 4; 5] (Included 1) (Excluded 5)) (Included 1) (Excluded 3) = Ok v' ∧
    deref v' = Some [3; 4].
Proof.
  destruct (subslice_exact (Slice [1; 2; 3; 4; 5] (Included 1) (Excluded 5)) [2; 3; 4; 5] (Included 1) (Excluded 3))
    as (v' & H1 & H2 & _); [..|by exists v'].
  - split_and!; try done.
  - done.
  - done.
  - done.
  - done.
Defined.
