(* ===== verification/Publisher.v ===== *)
(** The publisher's tables (netidx/src/publisher/mod.rs): the published values with
    their paths and aliases, who is subscribed, the paths still to be told to the
    resolver, default publishers and advertisements, batches of updates. The operations
    a program calls are functions of the state; what is under the lock is one step.
    Channels and waiting tasks are numbers: the state records what was sent on them,
    which are closed is part of it. Which subscriber sets are shared by other values
    (reference counts) is a parameter, as in the store. *)
From Stdlib Require Import ZArith Lia.
From stdpp Require Import base gmap list strings sorting.
From Stdlib Require Import Strings.Byte.
From S2P Require Import Prelude Varint Pack Containers PackTypes Path PathFacts Order Glob Derive Proto.
From S2P Require Import Float Value ValuePack ValueOrd PubProto.

Abbreviation ClId := (atomic_id "ClId").
Abbreviation ChanId := (atomic_id "ChanId").
(** A channel to the program, and a task that waits *)
Abbreviation Chan := Z.
Abbreviation Waiter := Z.

(** [PublishFlags] *)
Definition USE_EXISTING : Z := 0x01.
Definition DESTROY_ON_IDLE : Z := 0x02.
Definition ISOLATED : Z := 0x04.
Definition PREFER_LOCAL : Z := 0x08.
Definition FORCE_LOCAL : Z := 0x10.
Definition flags_contains (flags f : Z) : bool := Z.land flags f =? f.
Definition flags_remove (flags f : Z) : Z := Z.ldiff flags f.
(** [if flags.is_empty() { None } else { Some(flags.bits()) }] *)
Definition flags_opt (flags : Z) : option Z := if flags =? 0 then None else Some flags.

Section Publisher.
Context {VA : ValueApi}.

Inductive Event := Destroyed (id : Id) | Subscribe (id : Id) (cl : ClId) | Unsubscribe (id : Id) (cl : ClId).
Definition event_id (e : Event) : Id := match e with Destroyed id | Subscribe id _ | Unsubscribe id _ => id end.

Record Update := MkUpdate { updates : list From; unsubscribes : option (list Id) }.
Definition Update_new : Update := MkUpdate [] None.

Inductive BatchMsg := UpdateChanged (id : Id) (v : Value) | BUpdate (cl : option ClId) (id : Id) (v : Value).

(** [msg_queue] holds what was sent and not yet received *)
Record Client := MkClient {
  msg_queue : list (option Duration * Update);
  cl_subscribed : gmap Id Z;
  user : option UserInfo
}.
Record Published := MkPublished {
  current : Value;
  subscribed : gset ClId;
  pb_path : str;
  aliases : option (gset str)
}.

(** What the channels of the process hold: closed channels, events and default
    requests that were sent, waiting tasks that were woken, triggers for the publish
    loop, and the counters of the ids *)
Record Io := MkIo {
  closed : gset Chan;
  events : list (Chan * Event);
  requests : list (Chan * str * Waiter);
  woken : list Waiter;
  triggers : list (option Waiter);
  next_id : Z;
  next_chan : Z;
  next_waiter : Z
}.

(** [PublisherInner]; [alive] is [stop.is_some()] *)
Record PublisherInner := MkPublisherInner {
  alive : bool;
  clients : gmap ClId Client;
  hc_subscribed : gmap (gset ClId) (gset ClId);
  by_path : gmap str Id;
  by_id : gmap Id Published;
  destroy_on_idle : gset Id;
  on_write_chans : gmap Chan (ChanId * gset Id);
  on_event_chans : list Chan;
  on_event_by_id_chans : gmap Id (list Chan);
  extended_auth : option (ClId → Id → option UserInfo → bool);
  on_write : gmap Id (list (ChanId * Chan));
  advertised : gmap str (gset str);
  to_publish : gmap str (option Z);
  to_publish_default : gmap str (option Z);
  to_unpublish : gset str;
  to_unpublish_default : gset str;
  to_unsubscribe : gmap Id (gset ClId);
  publish_triggered : bool;
  wait_clients : gmap Id (list Waiter);
  wait_any_client : list Waiter;
  defaults : gmap str Chan;
  io : Io
}.

(** Field updates *)
Definition io_closed (f : gset Chan → gset Chan) (o : Io) : Io :=
  MkIo (f (closed o)) (events o) (requests o) (woken o) (triggers o) (next_id o) (next_chan o) (next_waiter o).
Definition io_events (f : list (Chan * Event) → list (Chan * Event)) (o : Io) : Io :=
  MkIo (closed o) (f (events o)) (requests o) (woken o) (triggers o) (next_id o) (next_chan o) (next_waiter o).
Definition io_requests (f : list (Chan * str * Waiter) → list (Chan * str * Waiter)) (o : Io) : Io :=
  MkIo (closed o) (events o) (f (requests o)) (woken o) (triggers o) (next_id o) (next_chan o) (next_waiter o).
Definition io_woken (f : list Waiter → list Waiter) (o : Io) : Io :=
  MkIo (closed o) (events o) (requests o) (f (woken o)) (triggers o) (next_id o) (next_chan o) (next_waiter o).
Definition io_triggers (f : list (option Waiter) → list (option Waiter)) (o : Io) : Io :=
  MkIo (closed o) (events o) (requests o) (woken o) (f (triggers o)) (next_id o) (next_chan o) (next_waiter o).
Definition io_next_id (f : Z → Z) (o : Io) : Io :=
  MkIo (closed o) (events o) (requests o) (woken o) (triggers o) (f (next_id o)) (next_chan o) (next_waiter o).
Definition io_next_chan (f : Z → Z) (o : Io) : Io :=
  MkIo (closed o) (events o) (requests o) (woken o) (triggers o) (next_id o) (f (next_chan o)) (next_waiter o).
Definition io_next_waiter (f : Z → Z) (o : Io) : Io :=
  MkIo (closed o) (events o) (requests o) (woken o) (triggers o) (next_id o) (next_chan o) (f (next_waiter o)).
Definition upd_alive (f : bool → bool) (s : PublisherInner) : PublisherInner :=
  MkPublisherInner (f (alive s)) (clients s) (hc_subscribed s) (by_path s) (by_id s) (destroy_on_idle s) (on_write_chans s) (on_event_chans s) (on_event_by_id_chans s) (extended_auth s) (on_write s) (advertised s) (to_publish s) (to_publish_default s) (to_unpublish s) (to_unpublish_default s) (to_unsubscribe s) (publish_triggered s) (wait_clients s) (wait_any_client s) (defaults s) (io s).
Definition upd_clients (f : (gmap ClId Client) → (gmap ClId Client)) (s : PublisherInner) : PublisherInner :=
  MkPublisherInner (alive s) (f (clients s)) (hc_subscribed s) (by_path s) (by_id s) (destroy_on_idle s) (on_write_chans s) (on_event_chans s) (on_event_by_id_chans s) (extended_auth s) (on_write s) (advertised s) (to_publish s) (to_publish_default s) (to_unpublish s) (to_unpublish_default s) (to_unsubscribe s) (publish_triggered s) (wait_clients s) (wait_any_client s) (defaults s) (io s).
Definition upd_hc_subscribed (f : (gmap (gset ClId) (gset ClId)) → (gmap (gset ClId) (gset ClId))) (s : PublisherInner) : PublisherInner :=
  MkPublisherInner (alive s) (clients s) (f (hc_subscribed s)) (by_path s) (by_id s) (destroy_on_idle s) (on_write_chans s) (on_event_chans s) (on_event_by_id_chans s) (extended_auth s) (on_write s) (advertised s) (to_publish s) (to_publish_default s) (to_unpublish s) (to_unpublish_default s) (to_unsubscribe s) (publish_triggered s) (wait_clients s) (wait_any_client s) (defaults s) (io s).
Definition upd_by_path (f : (gmap str Id) → (gmap str Id)) (s : PublisherInner) : PublisherInner :=
  MkPublisherInner (alive s) (clients s) (hc_subscribed s) (f (by_path s)) (by_id s) (destroy_on_idle s) (on_write_chans s) (on_event_chans s) (on_event_by_id_chans s) (extended_auth s) (on_write s) (advertised s) (to_publish s) (to_publish_default s) (to_unpublish s) (to_unpublish_default s) (to_unsubscribe s) (publish_triggered s) (wait_clients s) (wait_any_client s) (defaults s) (io s).
Definition upd_by_id (f : (gmap Id Published) → (gmap Id Published)) (s : PublisherInner) : PublisherInner :=
  MkPublisherInner (alive s) (clients s) (hc_subscribed s) (by_path s) (f (by_id s)) (destroy_on_idle s) (on_write_chans s) (on_event_chans s) (on_event_by_id_chans s) (extended_auth s) (on_write s) (advertised s) (to_publish s) (to_publish_default s) (to_unpublish s) (to_unpublish_default s) (to_unsubscribe s) (publish_triggered s) (wait_clients s) (wait_any_client s) (defaults s) (io s).
Definition upd_destroy_on_idle (f : (gset Id) → (gset Id)) (s : PublisherInner) : PublisherInner :=
  MkPublisherInner (alive s) (clients s) (hc_subscribed s) (by_path s) (by_id s) (f (destroy_on_idle s)) (on_write_chans s) (on_event_chans s) (on_event_by_id_chans s) (extended_auth s) (on_write s) (advertised s) (to_publish s) (to_publish_default s) (to_unpublish s) (to_unpublish_default s) (to_unsubscribe s) (publish_triggered s) (wait_clients s) (wait_any_client s) (defaults s) (io s).
Definition upd_on_write_chans (f : (gmap Chan (ChanId * gset Id)) → (gmap Chan (ChanId * gset Id))) (s : PublisherInner) : PublisherInner :=
  MkPublisherInner (alive s) (clients s) (hc_subscribed s) (by_path s) (by_id s) (destroy_on_idle s) (f (on_write_chans s)) (on_event_chans s) (on_event_by_id_chans s) (extended_auth s) (on_write s) (advertised s) (to_publish s) (to_publish_default s) (to_unpublish s) (to_unpublish_default s) (to_unsubscribe s) (publish_triggered s) (wait_clients s) (wait_any_client s) (defaults s) (io s).
Definition upd_on_event_chans (f : (list Chan) → (list Chan)) (s : PublisherInner) : PublisherInner :=
  MkPublisherInner (alive s) (clients s) (hc_subscribed s) (by_path s) (by_id s) (destroy_on_idle s) (on_write_chans s) (f (on_event_chans s)) (on_event_by_id_chans s) (extended_auth s) (on_write s) (advertised s) (to_publish s) (to_publish_default s) (to_unpublish s) (to_unpublish_default s) (to_unsubscribe s) (publish_triggered s) (wait_clients s) (wait_any_client s) (defaults s) (io s).
Definition upd_on_event_by_id_chans (f : (gmap Id (list Chan)) → (gmap Id (list Chan))) (s : PublisherInner) : PublisherInner :=
  MkPublisherInner (alive s) (clients s) (hc_subscribed s) (by_path s) (by_id s) (destroy_on_idle s) (on_write_chans s) (on_event_chans s) (f (on_event_by_id_chans s)) (extended_auth s) (on_write s) (advertised s) (to_publish s) (to_publish_default s) (to_unpublish s) (to_unpublish_default s) (to_unsubscribe s) (publish_triggered s) (wait_clients s) (wait_any_client s) (defaults s) (io s).
Definition upd_extended_auth (f : (option (ClId → Id → option UserInfo → bool)) → (option (ClId → Id → option UserInfo → bool))) (s : PublisherInner) : PublisherInner :=
  MkPublisherInner (alive s) (clients s) (hc_subscribed s) (by_path s) (by_id s) (destroy_on_idle s) (on_write_chans s) (on_event_chans s) (on_event_by_id_chans s) (f (extended_auth s)) (on_write s) (advertised s) (to_publish s) (to_publish_default s) (to_unpublish s) (to_unpublish_default s) (to_unsubscribe s) (publish_triggered s) (wait_clients s) (wait_any_client s) (defaults s) (io s).
Definition upd_on_write (f : (gmap Id (list (ChanId * Chan))) → (gmap Id (list (ChanId * Chan)))) (s : PublisherInner) : PublisherInner :=
  MkPublisherInner (alive s) (clients s) (hc_subscribed s) (by_path s) (by_id s) (destroy_on_idle s) (on_write_chans s) (on_event_chans s) (on_event_by_id_chans s) (extended_auth s) (f (on_write s)) (advertised s) (to_publish s) (to_publish_default s) (to_unpublish s) (to_unpublish_default s) (to_unsubscribe s) (publish_triggered s) (wait_clients s) (wait_any_client s) (defaults s) (io s).
Definition upd_advertised (f : (gmap str (gset str)) → (gmap str (gset str))) (s : PublisherInner) : PublisherInner :=
  MkPublisherInner (alive s) (clients s) (hc_subscribed s) (by_path s) (by_id s) (destroy_on_idle s) (on_write_chans s) (on_event_chans s) (on_event_by_id_chans s) (extended_auth s) (on_write s) (f (advertised s)) (to_publish s) (to_publish_default s) (to_unpublish s) (to_unpublish_default s) (to_unsubscribe s) (publish_triggered s) (wait_clients s) (wait_any_client s) (defaults s) (io s).
Definition upd_to_publish (f : (gmap str (option Z)) → (gmap str (option Z))) (s : PublisherInner) : PublisherInner :=
  MkPublisherInner (alive s) (clients s) (hc_subscribed s) (by_path s) (by_id s) (destroy_on_idle s) (on_write_chans s) (on_event_chans s) (on_event_by_id_chans s) (extended_auth s) (on_write s) (advertised s) (f (to_publish s)) (to_publish_default s) (to_unpublish s) (to_unpublish_default s) (to_unsubscribe s) (publish_triggered s) (wait_clients s) (wait_any_client s) (defaults s) (io s).
Definition upd_to_publish_default (f : (gmap str (option Z)) → (gmap str (option Z))) (s : PublisherInner) : PublisherInner :=
  MkPublisherInner (alive s) (clients s) (hc_subscribed s) (by_path s) (by_id s) (destroy_on_idle s) (on_write_chans s) (on_event_chans s) (on_event_by_id_chans s) (extended_auth s) (on_write s) (advertised s) (to_publish s) (f (to_publish_default s)) (to_unpublish s) (to_unpublish_default s) (to_unsubscribe s) (publish_triggered s) (wait_clients s) (wait_any_client s) (defaults s) (io s).
Definition upd_to_unpublish (f : (gset str) → (gset str)) (s : PublisherInner) : PublisherInner :=
  MkPublisherInner (alive s) (clients s) (hc_subscribed s) (by_path s) (by_id s) (destroy_on_idle s) (on_write_chans s) (on_event_chans s) (on_event_by_id_chans s) (extended_auth s) (on_write s) (advertised s) (to_publish s) (to_publish_default s) (f (to_unpublish s)) (to_unpublish_default s) (to_unsubscribe s) (publish_triggered s) (wait_clients s) (wait_any_client s) (defaults s) (io s).
Definition upd_to_unpublish_default (f : (gset str) → (gset str)) (s : PublisherInner) : PublisherInner :=
  MkPublisherInner (alive s) (clients s) (hc_subscribed s) (by_path s) (by_id s) (destroy_on_idle s) (on_write_chans s) (on_event_chans s) (on_event_by_id_chans s) (extended_auth s) (on_write s) (advertised s) (to_publish s) (to_publish_default s) (to_unpublish s) (f (to_unpublish_default s)) (to_unsubscribe s) (publish_triggered s) (wait_clients s) (wait_any_client s) (defaults s) (io s).
Definition upd_to_unsubscribe (f : (gmap Id (gset ClId)) → (gmap Id (gset ClId))) (s : PublisherInner) : PublisherInner :=
  MkPublisherInner (alive s) (clients s) (hc_subscribed s) (by_path s) (by_id s) (destroy_on_idle s) (on_write_chans s) (on_event_chans s) (on_event_by_id_chans s) (extended_auth s) (on_write s) (advertised s) (to_publish s) (to_publish_default s) (to_unpublish s) (to_unpublish_default s) (f (to_unsubscribe s)) (publish_triggered s) (wait_clients s) (wait_any_client s) (defaults s) (io s).
Definition upd_publish_triggered (f : bool → bool) (s : PublisherInner) : PublisherInner :=
  MkPublisherInner (alive s) (clients s) (hc_subscribed s) (by_path s) (by_id s) (destroy_on_idle s) (on_write_chans s) (on_event_chans s) (on_event_by_id_chans s) (extended_auth s) (on_write s) (advertised s) (to_publish s) (to_publish_default s) (to_unpublish s) (to_unpublish_default s) (to_unsubscribe s) (f (publish_triggered s)) (wait_clients s) (wait_any_client s) (defaults s) (io s).
Definition upd_wait_clients (f : (gmap Id (list Waiter)) → (gmap Id (list Waiter))) (s : PublisherInner) : PublisherInner :=
  MkPublisherInner (alive s) (clients s) (hc_subscribed s) (by_path s) (by_id s) (destroy_on_idle s) (on_write_chans s) (on_event_chans s) (on_event_by_id_chans s) (extended_auth s) (on_write s) (advertised s) (to_publish s) (to_publish_default s) (to_unpublish s) (to_unpublish_default s) (to_unsubscribe s) (publish_triggered s) (f (wait_clients s)) (wait_any_client s) (defaults s) (io s).
Definition upd_wait_any_client (f : (list Waiter) → (list Waiter)) (s : PublisherInner) : PublisherInner :=
  MkPublisherInner (alive s) (clients s) (hc_subscribed s) (by_path s) (by_id s) (destroy_on_idle s) (on_write_chans s) (on_event_chans s) (on_event_by_id_chans s) (extended_auth s) (on_write s) (advertised s) (to_publish s) (to_publish_default s) (to_unpublish s) (to_unpublish_default s) (to_unsubscribe s) (publish_triggered s) (wait_clients s) (f (wait_any_client s)) (defaults s) (io s).
Definition upd_defaults (f : (gmap str Chan) → (gmap str Chan)) (s : PublisherInner) : PublisherInner :=
  MkPublisherInner (alive s) (clients s) (hc_subscribed s) (by_path s) (by_id s) (destroy_on_idle s) (on_write_chans s) (on_event_chans s) (on_event_by_id_chans s) (extended_auth s) (on_write s) (advertised s) (to_publish s) (to_publish_default s) (to_unpublish s) (to_unpublish_default s) (to_unsubscribe s) (publish_triggered s) (wait_clients s) (wait_any_client s) (f (defaults s)) (io s).
Definition upd_io (f : Io → Io) (s : PublisherInner) : PublisherInner :=
  MkPublisherInner (alive s) (clients s) (hc_subscribed s) (by_path s) (by_id s) (destroy_on_idle s) (on_write_chans s) (on_event_chans s) (on_event_by_id_chans s) (extended_auth s) (on_write s) (advertised s) (to_publish s) (to_publish_default s) (to_unpublish s) (to_unpublish_default s) (to_unsubscribe s) (publish_triggered s) (wait_clients s) (wait_any_client s) (defaults s) (f (io s)).

Definition is_closed (s : PublisherInner) (c : Chan) : bool := bool_decide (c ∈ closed (io s)).
Definition wake (ws : list Waiter) (s : PublisherInner) : PublisherInner := upd_io (io_woken (fun l => l ++ ws)) s.

(** ** [PublisherInner] *)

(** [is_advertised] *)
Definition is_advertised {ES : Escaping} (s : PublisherInner) (path : str) : bool :=
  existsb (fun bs : str * gset str => is_parent bs.1 path && bool_decide (path ∈ bs.2)) (map_to_list (advertised s)).

Inductive PubError := Relative | Dead | AlreadyPublished | NoSuchId | DefaultPublished | NotUnderDefault | NotSamePublisher.

Definition check_publish (s : PublisherInner) (path : str) : res PubError unit :=
  if negb (is_absolute path) then Err Relative
  else if negb (alive s) then Err Dead
  else if bool_decide (is_Some (by_path s !! path)) then Err AlreadyPublished
  else Ok ().

Definition trigger_publish (s : PublisherInner) : PublisherInner :=
  if publish_triggered s then s
  else upd_io (io_triggers (fun l => l ++ [None])) (upd_publish_triggered (fun _ => true) s).

Definition inner_publish (id : Id) (flags : Z) (path : str) (s : PublisherInner) : PublisherInner :=
  let s := upd_by_path <[path := id]> s in
  let s := upd_to_unpublish (fun t => t ∖ {[path]}) s in
  trigger_publish (upd_to_publish <[path := flags_opt flags]> s).

Definition inner_unpublish {ES : Escaping} (path : str) (s : PublisherInner) : PublisherInner :=
  let s := upd_by_path (delete path) s in
  if is_advertised s path then s
  else trigger_publish (upd_to_unpublish (union {[path]}) (upd_to_publish (delete path) s)).

(** [send_event]: a channel that is closed is dropped *)
Definition send_event (e : Event) (s : PublisherInner) : PublisherInner :=
  let send l s := upd_io (io_events (fun ev => ev ++ ((fun c => (c, e)) <$> l))) s in
  let live l := filter (fun c => is_closed s c = false) l in
  let s := send (live (on_event_chans s)) (upd_on_event_chans live s) in
  match on_event_by_id_chans s !! event_id e with
  | None => s
  | Some chans =>
      let s := send (live chans) s in
      upd_on_event_by_id_chans (fun m =>
        if bool_decide (live chans = []) then delete (event_id e) m else <[event_id e := live chans]> m) s
  end.

(** Forgetting the write channels of a value *)
Definition drop_write_chan (id : Id) (c : Chan) (m : gmap Chan (ChanId * gset Id)) : gmap Chan (ChanId * gset Id) :=
  match m !! c with
  | None => m
  | Some (cid, ids) =>
      if bool_decide (ids ∖ {[id]} = ∅) then delete c m else <[c := (cid, ids ∖ {[id]})]> m
  end.

(** The orders in which hash sets are enumerated *)
Class PubOrder := {
  path_order : gset str → list str;
  id_order : gset Id → list Id
}.
Class PubOrderOk (PO : PubOrder) : Prop := {
  path_order_perm s : path_order s ≡ₚ elements s;
  id_order_perm s : id_order s ≡ₚ elements s
}.

(** All paths of a value, the first one first *)
Definition val_paths {PO : PubOrder} (p : Published) : list str :=
  pb_path p :: (match aliases p with Some a => path_order a | None => [] end).

(** [destroy_val], which dropping a [Val] calls *)
Definition destroy_val {ES : Escaping} {PO : PubOrder} (id : Id) (s : PublisherInner) : PublisherInner :=
  match by_id s !! id with
  | None => s
  | Some pbl =>
      let s := upd_by_id (delete id) s in
      let s := foldl (fun s p => inner_unpublish p s) s (val_paths pbl) in
      let s := upd_wait_clients (delete id) s in
      let s :=
        match on_write s !! id with
        | None => s
        | Some chans =>
            upd_on_write_chans (fun m => foldl (fun m c => drop_write_chan id c.2 m) m chans)
              (upd_on_write (delete id) s)
        end in
      let s := send_event (Destroyed id) s in
      let s := upd_on_event_by_id_chans (delete id) s in
      if decide (subscribed pbl = ∅) then s
      else upd_to_unsubscribe <[id := subscribed pbl]> s
  end.

(** [writes] *)
Definition inner_writes (id : Id) (tx : Chan) (s : PublisherInner) : PublisherInner :=
  match by_id s !! id with
  | None => s
  | Some _ =>
      let '(cid, ids, s) :=
        match on_write_chans s !! tx with
        | Some (cid, ids) => (cid, ids, s)
        | None =>
            let '(cid, next) := atomic_id_new (next_chan (io s)) in
            (cid, ∅, upd_io (io_next_chan (fun _ => next)) s)
        end in
      let s := upd_on_write_chans <[tx := (cid, {[id]} ∪ ids)]> s in
      let ow := default [] (on_write s !! id) in
      let gc := filter (fun c => is_closed s c.2 = true) ow in
      let ow := filter (fun c => is_closed s c.2 = false) ow in
      let s := upd_on_write <[id := ow ++ [(cid, tx)]]> s in
      upd_on_write_chans (fun m => foldl (fun m c => delete c.2 m) m gc) s
  end.

(** ** [Publisher] *)

Definition publisher_new : PublisherInner :=
  MkPublisherInner true ∅ ∅ ∅ ∅ ∅ ∅ [] ∅ None ∅ ∅ ∅ ∅ ∅ ∅ ∅ false ∅ [] ∅
    (MkIo ∅ [] [] [] [] 0 0 0).

(** [hc_subscribed.entry(set).or_insert(set)] *)
Definition hc_entry (set : gset ClId) (s : PublisherInner) : gset ClId * PublisherInner :=
  match hc_subscribed s !! set with
  | Some shared => (shared, s)
  | None => (set, upd_hc_subscribed <[set := set]> s)
  end.

(** [publish_with_flags_and_writes]; [publish_with_flags] and [publish] are it without
    a channel and without flags. *)
Definition publish_with_flags_and_writes (flags : Z) (path : str) (init : Value) (tx : option Chan) (s : PublisherInner)
  : res PubError Id * PublisherInner :=
  let '(id, next) := atomic_id_new (next_id (io s)) in
  let s := upd_io (io_next_id (fun _ => next)) s in
  let destroy := flags_contains flags DESTROY_ON_IDLE in
  let flags := flags_remove flags DESTROY_ON_IDLE in
  match check_publish s path with
  | Ok _ =>
      let '(subs, s) := hc_entry ∅ s in
      let s := upd_by_id <[id := MkPublished init subs path None]> s in
      let s := if destroy then upd_destroy_on_idle (union {[id]}) s else s in
      let s := match tx with Some tx => inner_writes id tx s | None => s end in
      (Ok id, inner_publish id flags path s)
  | Err e => (Err e, s)
  | Panic => (Panic, s)
  end.

Definition set_aliases (a : option (gset str)) (p : Published) : Published :=
  MkPublished (current p) (subscribed p) (pb_path p) a.

(** [alias_with_flags] *)
Definition alias_with_flags (id : Id) (flags : Z) (path : str) (s : PublisherInner) : res PubError unit * PublisherInner :=
  let flags := flags_remove flags DESTROY_ON_IDLE in
  if bool_decide (by_id s !! id = None) then (Err NoSuchId, s)
  else
    match check_publish s path with
    | Ok _ =>
        let s := inner_publish id flags path s in
        match by_id s !! id with
        | None => (Panic, s)
        | Some v => (Ok (), upd_by_id <[id := set_aliases (Some ({[path]} ∪ default ∅ (aliases v))) v]> s)
        end
    | Err e => (Err e, s)
    | Panic => (Panic, s)
    end.

Section Paths.
Context {ES : Escaping} {PO : PubOrder}.

Definition remove_alias (id : Id) (path : str) (s : PublisherInner) : PublisherInner :=
  match by_id s !! id with
  | None => s
  | Some v =>
      match aliases v with
      | None => s
      | Some al =>
          if decide (path ∈ al)
          then inner_unpublish path (upd_by_id <[id := set_aliases (Some (al ∖ {[path]})) v]> s)
          else s
      end
  end.
Definition remove_all_aliases (id : Id) (s : PublisherInner) : PublisherInner :=
  match by_id s !! id with
  | None => s
  | Some v =>
      match aliases v with
      | None => s
      | Some al =>
          foldl (fun s p => inner_unpublish p s) (upd_by_id <[id := set_aliases None v]> s) (path_order al)
      end
  end.

(** [publish_default_with_flags]; [tx] is the channel of the new handle *)
Definition publish_default_with_flags (flags : Z) (base : str) (tx : Chan) (s : PublisherInner)
  : res PubError unit * PublisherInner :=
  if negb (is_absolute base) then (Err Relative, s)
  else if bool_decide (is_Some (defaults s !! base)) then (Err DefaultPublished, s)
  else if negb (alive s) then (Err Dead, s)
  else
    let s := upd_to_unpublish (fun t => t ∖ {[base]}) s in
    let s := upd_to_publish_default <[base := flags_opt flags]> s in
    (Ok (), trigger_publish (upd_defaults <[base := tx]> s)).

(** [DefaultHandle::advertise_with_flags] of the handle at [base] *)
Definition advertise_with_flags (base : str) (flags : Z) (path : str) (s : PublisherInner)
  : res PubError unit * PublisherInner :=
  if negb (is_parent base path) then (Err NotUnderDefault, s)
  else
    let set := default ∅ (advertised s !! base) in
    let inserted := bool_decide (path ∉ set) in
    let s := upd_advertised <[base := {[path]} ∪ set]> s in
    if inserted && bool_decide (by_path s !! path = None) then
      let flags := flags_remove flags DESTROY_ON_IDLE in
      let s := upd_to_unpublish (fun t => t ∖ {[path]}) s in
      (Ok (), trigger_publish (upd_to_publish <[path := flags_opt flags]> s))
    else (Ok (), s).

Definition remove_advertisement (base : str) (path : str) (s : PublisherInner) : PublisherInner :=
  match advertised s !! base with
  | None => s
  | Some set =>
      let removed := bool_decide (path ∈ set) in
      let set := set ∖ {[path]} in
      let s := upd_advertised (fun m => if bool_decide (set = ∅) then delete base m else <[base := set]> m) s in
      if removed && bool_decide (by_path s !! path = None)
      then trigger_publish (upd_to_publish (delete path) (upd_to_unpublish (union {[path]}) s))
      else s
  end.

(** [Drop for DefaultHandle] *)
Definition drop_default (base : str) (s : PublisherInner) : PublisherInner :=
  let s := upd_defaults (delete base) s in
  let s := upd_to_unpublish_default (union {[base]}) s in
  let s :=
    match advertised s !! base with
    | None => s
    | Some paths =>
        foldl (fun s path =>
          if bool_decide (by_path s !! path = None)
          then upd_to_unpublish (union {[path]}) (upd_to_publish (delete path) s)
          else s) (upd_advertised (delete base) s) (path_order paths)
    end in
  trigger_publish s.
End Paths.

(** [shutdown], up to clearing the resolver *)
Definition shutdown (s : PublisherInner) : PublisherInner :=
  upd_by_id (fun _ => ∅) (upd_clients (fun _ => ∅) (upd_alive (fun _ => false) s)).

(** Waiting: [Some] is the task that was queued *)
Definition new_waiter (s : PublisherInner) : Waiter * PublisherInner :=
  (next_waiter (io s), upd_io (io_next_waiter (fun n => n + 1)) s).
Definition wait_any_new_client (s : PublisherInner) : option Waiter * PublisherInner :=
  let '(w, s) := new_waiter s in (Some w, upd_wait_any_client (fun l => l ++ [w]) s).
Definition pub_wait_any_client (s : PublisherInner) : option Waiter * PublisherInner :=
  if bool_decide (clients s = ∅) then wait_any_new_client s else (None, s).
Definition wait_client (id : Id) (s : PublisherInner) : option Waiter * PublisherInner :=
  match by_id s !! id with
  | None => (None, s)
  | Some ut =>
      if decide (subscribed ut = ∅) then
        let '(w, s) := new_waiter s in
        (Some w, upd_wait_clients <[id := default [] (wait_clients s !! id) ++ [w]]> s)
      else (None, s)
  end.
Definition flushed (s : PublisherInner) : Waiter * PublisherInner :=
  let '(w, s) := new_waiter s in (w, upd_io (io_triggers (fun l => l ++ [Some w])) s).

(** Queries *)
Definition pub_id_of (path : str) (s : PublisherInner) : option Id := by_path s !! path.
Definition pub_path_of (id : Id) (s : PublisherInner) : option str := pb_path <$> by_id s !! id.
Definition pub_aliases (id : Id) (s : PublisherInner) : gset str :=
  match by_id s !! id with Some v => default ∅ (aliases v) | None => ∅ end.
Definition pub_current (id : Id) (s : PublisherInner) : option Value := current <$> by_id s !! id.
Definition pub_subscribed (id : Id) (s : PublisherInner) : gset ClId := from_option subscribed ∅ (by_id s !! id).
Definition is_subscribed (id : Id) (cl : ClId) (s : PublisherInner) : bool :=
  match by_id s !! id with Some p => bool_decide (cl ∈ subscribed p) | None => false end.
Definition pub_user (cl : ClId) (s : PublisherInner) : option UserInfo := clients s !! cl ≫= user.

Definition stop_writes (id : Id) : PublisherInner → PublisherInner := upd_on_write (delete id).
Definition add_events (tx : Chan) : PublisherInner → PublisherInner := upd_on_event_chans (fun l => l ++ [tx]).
Definition events_for_id (id : Id) (tx : Chan) (s : PublisherInner) : PublisherInner :=
  upd_on_event_by_id_chans <[id := default [] (on_event_by_id_chans s !! id) ++ [tx]]> s.
Definition set_extended_authorization f : PublisherInner → PublisherInner := upd_extended_auth (fun _ => f).

(** ** Batches *)

(** [UpdateBatch] *)
Record UpdateBatch := MkUpdateBatch { b_updates : list BatchMsg; b_unsubscribes : option (list (ClId * Id)) }.
Definition start_batch : UpdateBatch := MkUpdateBatch [] None.
Definition queue_msg (m : BatchMsg) (b : UpdateBatch) : UpdateBatch := MkUpdateBatch (b_updates b ++ [m]) (b_unsubscribes b).
Definition val_update (id : Id) (v : Value) := queue_msg (BUpdate None id v).
Definition val_update_changed (id : Id) (v : Value) := queue_msg (UpdateChanged id v).
Definition val_update_subscriber (id : Id) (dst : ClId) (v : Value) := queue_msg (BUpdate (Some dst) id v).
Definition val_unsubscribe (id : Id) (dst : ClId) (b : UpdateBatch) : UpdateBatch :=
  MkUpdateBatch (b_updates b) (Some (default [] (b_unsubscribes b) ++ [(dst, id)])).
(** [merge_from] of two batches of one publisher: the other one is left empty *)
Definition batch_merge_from (b other : UpdateBatch) : UpdateBatch * UpdateBatch :=
  let ups := b_updates b ++ b_updates other in
  match b_unsubscribes b, b_unsubscribes other with
  | None, None | Some _, None => (MkUpdateBatch ups (b_unsubscribes b), MkUpdateBatch [] None)
  | None, Some r => (MkUpdateBatch ups (Some r), MkUpdateBatch [] None)
  | Some l, Some r => (MkUpdateBatch ups (Some (l ++ r)), MkUpdateBatch [] (Some []))
  end.

(** What a commit collects for each client; the clients of a value are visited in
    any order, each has an entry of its own. *)
Abbreviation outbox := (gmap ClId Update).
Definition push_update (m : From) (cl : ClId) (b : outbox) : outbox :=
  let u := default Update_new (b !! cl) in <[cl := MkUpdate (updates u ++ [m]) (unsubscribes u)]> b.
Definition push_unsub (id : Id) (cl : ClId) (b : outbox) : outbox :=
  let u := default Update_new (b !! cl) in
  <[cl := MkUpdate (updates u) (Some (default [] (unsubscribes u) ++ [id]))]> b.
Definition set_current (v : Value) (p : Published) : Published := MkPublished v (subscribed p) (pb_path p) (aliases p).
Definition update_all (id : Id) (v : Value) (pbl : Published) (sb : PublisherInner * outbox) : PublisherInner * outbox :=
  (upd_by_id <[id := set_current v pbl]> sb.1,
   foldr (push_update (From_Update id v)) sb.2 (elements (subscribed pbl))).
Definition commit_msg {VC : ValueCmp} (sb : PublisherInner * outbox) (m : BatchMsg) : PublisherInner * outbox :=
  match m with
  | BUpdate None id v =>
      match by_id sb.1 !! id with Some pbl => update_all id v pbl sb | None => sb end
  | UpdateChanged id v =>
      match by_id sb.1 !! id with
      | Some pbl => if value_eq (current pbl) v then sb else update_all id v pbl sb
      | None => sb
      end
  | BUpdate (Some cl) id v => (sb.1, push_update (From_Update id v) cl sb.2)
  end.
Definition enqueue (m : option Duration * Update) (c : Client) : Client :=
  MkClient (msg_queue c ++ [m]) (cl_subscribed c) (user c).
(** [commit] under the lock: what it is about to send to the clients that are there.
    Each message is then sent on its own, see [send_update]. *)
Definition commit {VC : ValueCmp} (batch : UpdateBatch) (s : PublisherInner) : outbox * PublisherInner :=
  if bool_decide (b_updates batch = []) && bool_decide (default [] (b_unsubscribes batch) = []) then (∅, s)
  else
    let '(s, b) := foldl commit_msg (s, ∅) (b_updates batch) in
    let b := foldl (fun b ci => push_unsub ci.2 ci.1 b) b (default [] (b_unsubscribes batch)) in
    (filter (fun cu => is_Some (clients s !! cu.1)) b, s).
(** [q.send((timeout, batch))]: nothing happens if the client has gone *)
Definition send_update (timeout : option Duration) (cl : ClId) (u : Update) : PublisherInner → PublisherInner :=
  upd_clients (alter (enqueue (timeout, u)) cl).

(** ** The publish loop *)

(** What a turn tells the resolver *)
Inductive Told := TPublish (m : gmap str (option Z)) | TPublishDefault (m : gmap str (option Z))
  | TUnpublish (s : gset str) | TUnpublishDefault (s : gset str).
Record Work := MkWork { w_told : list Told; w_unsubscribe : gmap Id (gset ClId); w_reply : option Waiter }.

(** Taking the work, under the lock *)
Definition loop_take (reply : option Waiter) (s : PublisherInner) : Work * PublisherInner :=
  (MkWork
     ((if bool_decide (to_publish s = ∅) then [] else [TPublish (to_publish s)]) ++
      (if bool_decide (to_publish_default s = ∅) then [] else [TPublishDefault (to_publish_default s)]) ++
      (if bool_decide (to_unpublish s = ∅) then [] else [TUnpublish (to_unpublish s)]) ++
      (if bool_decide (to_unpublish_default s = ∅) then [] else [TUnpublishDefault (to_unpublish_default s)]))
     (to_unsubscribe s) reply,
   upd_publish_triggered (fun _ => false) (upd_to_unsubscribe (fun _ => ∅)
     (upd_to_unpublish_default (fun _ => ∅) (upd_to_unpublish (fun _ => ∅)
     (upd_to_publish_default (fun _ => ∅) (upd_to_publish (fun _ => ∅) s)))))).
(** ... the batch that ends the subscriptions of values that are gone, committed once the
    resolver has answered *)
Definition loop_batch (w : Work) : UpdateBatch :=
  MkUpdateBatch [] (Some (concat ((fun ic => (fun cl => (cl, ic.1)) <$> elements ic.2) <$> map_to_list (w_unsubscribe w)))).
Definition loop_commit {VC : ValueCmp} (w : Work) (s : PublisherInner) : outbox * PublisherInner :=
  if bool_decide (w_unsubscribe w = ∅) then (∅, s) else commit (loop_batch w) s.
(** ... and the answer to who waits for the turn *)
Definition loop_reply (w : Work) (s : PublisherInner) : PublisherInner :=
  match w_reply w with Some r => wake [r] s | None => s end.
End Publisher.
