(* ===== verification/PubServer.v ===== *)
(** The publisher's side of a connection (netidx/src/publisher/server.rs): how a
    subscriber is greeted and identified, how its subscriptions, writes and
    unsubscriptions are handled, how updates reach it, and what happens when it goes.
    A turn of the loop of a connection is one step, its input is what [select_biased!]
    found ready. A message is put on the write channel unless it is too large for it
    (see [Channel]). *)
From Stdlib Require Import ZArith Lia.
From stdpp Require Import base gmap list strings sorting.
From Stdlib Require Import Strings.Byte.
From S2P Require Import Prelude Varint Pack Containers PackTypes Path PathFacts Order Glob Derive Proto.
From S2P Require Import Store Permissions Channel Float Value ValuePack ValueOrd PubProto Publisher.

Definition MAX_DEFERRED : Z := 1000000.

(** [DesiredAuth], without the names of the credentials *)
Inductive DesiredAuth := DA_Anonymous | DA_Krb5 | DA_Local | DA_Tls.
#[export] Instance DesiredAuth_eq_dec : EqDecision DesiredAuth.
Proof. solve_decision. Defined.

Section Server.
Context {ES : Escaping} {LY : Layout} {VA : ValueApi} {CM : ChunkMap} {VC : ValueCmp} {SH : Sha3} {PO : PubOrder}.
(** The registry of abstract types, whether a set of subscribers is shared by another
    value, and the write id an old peer is taken to have sent *)
Context (reg : Registry) (arc_shared : gset ClId → bool) (next_wid : WriteId).

(** ** The context of a connection *)

Record WriteRequest := MkWriteRequest {
  wr_id : Id; wr_path : str; wr_client : ClId; wr_value : Value; wr_send_result : option Waiter }.

(** A write that waits for room in its channel, or for a reply *)
Inductive BlockedWriteFut := BWSend (c : Chan) (batch : list WriteRequest) | BWReply (id : Id) (wid : WriteId) (w : Waiter).

Record ClientCtx := MkClientCtx {
  desired_auth : DesiredAuth;
  client : ClId;
  write_batches : gmap ChanId (list WriteRequest * Chan);
  blocked_writes : list BlockedWriteFut;
  flushing_updates : option Z;
  flush_timeout : option Duration;
  deferred_subs : list (str * Z * Waiter);
  deferred_subs_batch : list (str * Z);
  wait_write_res : list (Id * WriteId * Waiter);
  gc_on_write : list Chan;
  msg_sent : bool
}.
Definition ClientCtx_new (cl : ClId) (auth : DesiredAuth) : ClientCtx :=
  MkClientCtx auth cl ∅ [] None None [] [] [] [] false.

(** The state a handler works on: the publisher under its lock, the context, and the
    messages put on the write channel *)
Record Conn := MkConn { pub : PublisherInner; ctx : ClientCtx; con : list From }.
Definition on_pub (f : PublisherInner → PublisherInner) (c : Conn) : Conn := MkConn (f (pub c)) (ctx c) (con c).
Definition on_ctx (f : ClientCtx → ClientCtx) (c : Conn) : Conn := MkConn (pub c) (f (ctx c)) (con c).

Definition set_deferred (l : list (str * Z * Waiter)) (b : list (str * Z)) (x : ClientCtx) : ClientCtx :=
  MkClientCtx (desired_auth x) (client x) (write_batches x) (blocked_writes x) (flushing_updates x) (flush_timeout x)
    l b (wait_write_res x) (gc_on_write x) (msg_sent x).
Definition set_writes (wb : gmap ChanId (list WriteRequest * Chan)) (wait : list (Id * WriteId * Waiter)) (gc : list Chan)
    (x : ClientCtx) : ClientCtx :=
  MkClientCtx (desired_auth x) (client x) wb (blocked_writes x) (flushing_updates x) (flush_timeout x)
    (deferred_subs x) (deferred_subs_batch x) wait gc (msg_sent x).
Definition set_blocked (l : list BlockedWriteFut) (x : ClientCtx) : ClientCtx :=
  MkClientCtx (desired_auth x) (client x) (write_batches x) l (flushing_updates x) (flush_timeout x)
    (deferred_subs x) (deferred_subs_batch x) (wait_write_res x) (gc_on_write x) (msg_sent x).
Definition set_flush (since : option Z) (timeout : option Duration) (sent : bool) (x : ClientCtx) : ClientCtx :=
  MkClientCtx (desired_auth x) (client x) (write_batches x) (blocked_writes x) since timeout
    (deferred_subs x) (deferred_subs_batch x) (wait_write_res x) (gc_on_write x) sent.

(** A failing handler ends the connection but keeps what it did. *)
Inductive Closing := TooLarge | TokenTooShort | InvalidBits | TimedOut | ReadFailed | NotSupported | NoSecret | AuthDone.
Definition hnd (A : Type) : Type := Conn → res Closing A * Conn.
Definition hret {A} (a : A) : hnd A := fun c => (Ok a, c).
Definition hfail {A} (e : Closing) : hnd A := fun c => (Err e, c).
Definition hbind {A B} (m : hnd A) (k : A → hnd B) : hnd B := fun c =>
  match m c with
  | (Ok a, c) => k a c
  | (Err e, c) => (Err e, c)
  | (Panic, c) => (Panic, c)
  end.
Definition hupd (f : Conn → Conn) : hnd unit := fun c => (Ok (), f c).
Definition hask {A} (f : Conn → A) : hnd A := fun c => (Ok (f c), c).
Fixpoint hiter {A} (f : A → hnd unit) (l : list A) : hnd unit :=
  match l with [] => hret () | x :: l => hbind (f x) (fun _ => hiter f l) end.

(** [con.queue_send(m)?] *)
Definition sendable (m : From) : bool :=
  negb (MAX_BATCH <? encoded_len (From_pack reg next_wid) m) &&
  match (encode (From_pack reg next_wid) m).2 with Ok _ => true | _ => false end.
Definition queue_send (m : From) : hnd unit := fun c =>
  if sendable m then (Ok (), MkConn (pub c) (ctx c) (con c ++ [m])) else (Err TooLarge, c).

(** ** Subscribing *)

(** The default publisher at the greatest base at or before the path is asked if the
    path starts with it; a handle that is gone is passed over. *)
Fixpoint ask_default (bases : list (str * Chan)) (path : str) (permissions : Z) : hnd unit :=
  match bases with
  | [] => queue_send (From_NoSuchValue path)
  | (base, chan) :: bases => fun c =>
      if starts_with path base && (1 + zlen (deferred_subs (ctx c)) <? MAX_DEFERRED) then
        if is_closed (pub c) chan then ask_default bases path permissions c
        else
          let '(w, p) := new_waiter (pub c) in
          let p := upd_io (io_requests (fun l => l ++ [(chan, path, w)])) p in
          (Ok (), MkConn p (set_deferred (deferred_subs (ctx c) ++ [(path, permissions, w)]) (deferred_subs_batch (ctx c)) (ctx c)) (con c))
      else queue_send (From_NoSuchValue path) c
  end.

Definition set_subscribed (subs : gset ClId) (p : Published) : Published := MkPublished (current p) subs (pb_path p) (aliases p).
Definition set_cl_subscribed (m : gmap Id Z) (c : Client) : Client := MkClient (msg_queue c) m (user c).

(** Entering a client in the tables *)
Definition add_subscriber (cl : ClId) (id : Id) (permissions : Z) (ut : Published) (s : PublisherInner) : PublisherInner :=
  let s := upd_clients (alter (fun c => set_cl_subscribed (<[id := permissions]> (cl_subscribed c)) c) cl) s in
  let '(subs, s) := hc_entry ({[cl]} ∪ subscribed ut) s in
  upd_by_id <[id := set_subscribed subs ut]> s.

(** [subscribe] *)
Definition subscribe (path : str) (permissions : Z) : hnd unit := fun c =>
  let t := pub c in
  let cl := client (ctx c) in
  match by_path t !! path with
  | None => ask_default (reverse (bt_range Unbounded (Included path) (defaults t))) path permissions c
  | Some id =>
      match by_id t !! id with
      | None => (Ok (), c)
      | Some ut =>
          let allowed :=
            match extended_auth t with
            | None => true
            | Some eauth => match clients t !! cl with Some x => eauth cl id (user x) | None => false end
            end in
          if negb allowed then queue_send (From_Denied path) c
          else
            let c := on_pub (add_subscriber cl id permissions ut) c in
            hbind (queue_send (From_Subscribed path id (current ut)))
              (fun _ => hupd (on_pub (fun s =>
                 let s := match wait_clients s !! id with
                   | Some ws => wake ws (upd_wait_clients (delete id) s)
                   | None => s
                   end in
                 send_event (Subscribe id cl) s))) c
      end
  end.

(** [unsubscribe] *)
Definition unsubscribe (cl : ClId) (id : Id) (s : PublisherInner) : PublisherInner :=
  match by_id s !! id with
  | None => s
  | Some ut =>
      let current_subs := subscribed ut in
      let '(subs, s) := hc_entry (current_subs ∖ {[cl]}) s in
      let s := upd_by_id <[id := set_subscribed subs ut]> s in
      let s := upd_hc_subscribed (fun m => if arc_shared current_subs then m else delete current_subs m) s in
      let s := upd_clients (alter (fun c => set_cl_subscribed (delete id (cl_subscribed c)) c) cl) s in
      let s := send_event (Unsubscribe id cl) s in
      if bool_decide (subs = ∅) && bool_decide (id ∈ destroy_on_idle s)
      then destroy_val id (upd_destroy_on_idle (fun d => d ∖ {[id]}) s)
      else s
  end.
Definition hc_retain : PublisherInner → PublisherInner :=
  upd_hc_subscribed (filter (fun kv => arc_shared kv.1 = true)).

(** ** Writing *)

Definition write_error (m : string) : Value := VError (VString (lit m)).
(** [or_qwe!]: an error reply if one is wanted *)
Definition refuse_write (r : bool) (id : Id) (wid : WriteId) (m : string) : hnd unit :=
  if r then queue_send (From_WriteResult id (write_error m) wid) else hret ().

(** [write] *)
Definition write (id : Id) (r : bool) (v : Value) (wid : WriteId) : hnd unit := fun c =>
  let t := pub c in
  let cl := client (ctx c) in
  match clients t !! cl ≫= (fun x => cl_subscribed x !! id) with
  | None => refuse_write r id wid "cannot write to unsubscribed value" c
  | Some perms =>
      if negb (Z.land perms WRITE =? WRITE) then refuse_write r id wid "write permission denied" c
      else
        match on_write t !! id with
        | None => refuse_write r id wid "writes not accepted" c
        | Some ow =>
            let gone := filter (fun x => is_closed t x.2 = true) ow in
            let ow := filter (fun x => is_closed t x.2 = false) ow in
            let t := upd_on_write <[id := ow]> t in
            let x := ctx c in
            let gc := gc_on_write x ++ gone.*2 in
            if bool_decide (ow = [])
            then refuse_write r id wid "writes not accepted" (MkConn t (set_writes (write_batches x) (wait_write_res x) gc x) (con c))
            else
              let '(send_result, t) := if r then let '(w, t) := new_waiter t in (Some w, t) else (None, t) in
              let wait := wait_write_res x ++ match send_result with Some w => [(id, wid, w)] | None => [] end in
              let wb :=
                match by_id t !! id with
                | None => write_batches x
                | Some pbv =>
                    let req := MkWriteRequest id (pb_path pbv) cl v send_result in
                    foldl (fun wb ch =>
                      let '(l, tx) := default ([], ch.2) (wb !! ch.1) in <[ch.1 := (l ++ [req], tx)]> wb) (write_batches x) ow
                end in
              (Ok (), MkConn t (set_writes wb wait gc x) (con c))
        end
  end.

(** ** Permission to subscribe *)

Definition all_permissions : Z := 0x3F.
(** [check_token] *)
Definition check_token (token : str) (now : Z) (secret : u128) (timestamp : u64) (permissions : u32) (path : str)
  : res Closing (bool * Z) :=
  if zlen token <? 8 then Err TokenTooShort
  else
    let expected := make_sha3_token (sign_data secret timestamp permissions path) in
    let p := uval permissions in
    if negb (Z.land p all_permissions =? p) then Err InvalidBits
    else
      let age := Z.max (Z.max 0 (now - uval timestamp)) (Z.max 0 (uval timestamp - now)) in
      Ok ((age <=? 300) && (Z.land p SUBSCRIBE =? SUBSCRIBE) && bool_decide (token = expected), p).

(** [set_user] *)
Definition set_user (secrets : gmap SocketAddr u128) (cl : ClId) (ifo : option UserInfo) (s : PublisherInner) : PublisherInner :=
  match ifo with
  | None => s
  | Some ifo =>
      match secrets !! ui_resolver ifo with
      | None => s
      | Some secret =>
          if bool_decide (ui_token ifo = make_sha3_token (user_token_data secret ifo))
          then upd_clients (alter (fun c => MkClient (msg_queue c) (cl_subscribed c) (Some ifo)) cl) s
          else s
      end
  end.

(** [client_arrived] *)
Definition client_arrived (s : PublisherInner) : PublisherInner :=
  wake (wait_any_client s) (upd_wait_any_client (fun _ => []) s).

(** ** Greeting *)

(** What the subscriber and the libraries contribute: its greeting, whether Kerberos
    and TLS authenticated it, the challenge of a resolver *)
Record Greeting := MkGreeting { g_hello : Hello; g_krb5 : bool; g_tls : bool; g_challenge : AuthChallenge }.
(** The replies of [hello]: the greeting or the answer to the challenge *)
Inductive HelloReply := HRHello (h : Hello) | HRToken (t : str).

(** [hello], after the versions were exchanged: the reply and whether the connection
    goes on *)
Definition hello (secrets : gmap SocketAddr u128) (g : Greeting) : Conn → list HelloReply * res Closing unit * Conn := fun c =>
  let cl := client (ctx c) in
  let welcome reply uifo := ([HRHello reply], Ok (), on_pub (fun s => client_arrived (set_user secrets cl uifo s)) c) in
  match g_hello g with
  | H_Anonymous => ([HRHello H_Anonymous], Ok (), on_pub client_arrived c)
  | H_Local uifo => welcome (H_Local None) uifo
  | H_Krb5 uifo =>
      match desired_auth (ctx c) with
      | DA_Anonymous | DA_Tls => ([], Err NotSupported, c)
      | DA_Local => welcome (H_Local None) uifo
      | DA_Krb5 => if g_krb5 g then welcome (H_Krb5 None) uifo else ([], Err NotSupported, c)
      end
  | H_Tls uifo =>
      match desired_auth (ctx c) with
      | DA_Anonymous | DA_Krb5 => ([], Err NotSupported, c)
      | DA_Local => welcome (H_Local None) uifo
      | DA_Tls => if g_tls g then welcome (H_Tls None) uifo else ([], Err NotSupported, c)
      end
  | H_ResolverAuthenticate id =>
      match secrets !! id with
      | None => ([], Err NoSecret, c)
      | Some secret =>
          ([HRToken (make_sha3_token [be_bytes 16 (uval (challenge (g_challenge g))); be_bytes 16 (uval secret)])], Err AuthDone, c)
      end
  end.

(** ** Handling a batch *)

(** One message of [handle_batch_inner] *)
Definition handle_msg (secrets : gmap SocketAddr u128) (now : Z) (m : To) : hnd unit :=
  match m with
  | To_Subscribe path resolver timestamp permissions token => fun c =>
      match desired_auth (ctx c) with
      | DA_Anonymous => subscribe path all_permissions c
      | DA_Krb5 | DA_Local | DA_Tls =>
          match secrets !! resolver with
          | None => queue_send (From_Denied path) c
          | Some secret =>
              match check_token token now secret timestamp permissions path with
              | Ok (valid, p) => if valid then subscribe path p c else queue_send (From_Denied path) c
              | Err e => (Err e, c)
              | Panic => (Panic, c)
              end
          end
      end
  | To_Write id r v wid => write id r v wid
  | To_Unsubscribe id => fun c =>
      queue_send (From_Unsubscribed id) (on_pub (unsubscribe (client (ctx c)) id) c)
  end.

Definition is_gc (m : To) : bool := match m with To_Write _ _ _ _ => false | _ => true end.

(** [handle_batch_inner] *)
Definition handle_batch_inner (secrets : gmap SocketAddr u128) (now : Z) (batch : list To) : hnd unit :=
  hbind (hiter (handle_msg secrets now) batch) (fun _ =>
  hbind (hupd (on_pub (if existsb is_gc batch then hc_retain else id))) (fun _ => fun c =>
    let x := ctx c in
    (Ok (), MkConn (upd_on_write_chans (fun m => foldl (fun m ch => delete ch m) m (gc_on_write x)) (pub c))
       (set_writes (write_batches x) (wait_write_res x) [] x) (con c)))).

(** [handle_batch]: the writes are started *)
Definition handle_batch (secrets : gmap SocketAddr u128) (now : Z) (batch : list To) : hnd unit :=
  hbind (handle_batch_inner secrets now batch) (fun _ => hupd (on_ctx (fun x =>
    set_blocked (blocked_writes x ++ ((fun b => BWSend b.2.2 b.2.1) <$> map_to_list (write_batches x))
                 ++ ((fun w => BWReply w.1.1 w.1.2 w.2) <$> wait_write_res x))
      (set_writes ∅ [] (gc_on_write x) x)))).

(** [handle_deferred_sub] *)
Definition handle_deferred_sub (item : option (str * Z)) : hnd unit := fun c =>
  match item with
  | Some v => (Ok (), on_ctx (fun x => set_deferred (deferred_subs x) (deferred_subs_batch x ++ [v]) x) c)
  | None =>
      let batch := deferred_subs_batch (ctx c) in
      hiter (fun pp => fun c =>
          if bool_decide (by_path (pub c) !! pp.1 = None) then queue_send (From_NoSuchValue pp.1) c
          else subscribe pp.1 pp.2 c) batch
        (on_ctx (fun x => set_deferred (deferred_subs x) [] x) c)
  end.

(** [handle_updates] *)
Definition handle_updates (secrets : gmap SocketAddr u128) (now : Z) (u : option Duration * Update) : hnd unit :=
  hbind (hiter queue_send (updates u.2)) (fun _ =>
  hbind (match unsubscribes u.2 with
         | Some ((_ :: _) as l) => handle_batch secrets now (To_Unsubscribe <$> l)
         | _ => hret ()
         end) (fun _ =>
  hupd (fun c =>
    match con c with
    | [] => c
    | _ => on_ctx (fun x => set_flush (Some (default now (flushing_updates x))) u.1 true x) c
    end))).

(** ** The loop of a connection *)

(** What a turn finds ready; [elapsed] is the nanoseconds the updates have been
    flushing for *)
Inductive Ready :=
| RFlushed
| RTick (elapsed : Z)
| RDeferred (i : nat) (batch_end : bool)
| RBatch (batch : list To)
| RWrote (i : nat)
| RReply (i : nat) (v : Value)
| RUpdates
| RReadFailed.

(** A turn of [run]: what was flushed to the socket and the new state. A turn that
    cannot happen leaves the state alone. *)
Definition turn (secrets : gmap SocketAddr u128) (now : Z) (r : Ready) (c : Conn) : list From * res Closing unit * Conn :=
  let plain (h : hnd unit) := let '(o, c) := h c in ([], o, c) in
  match r with
  | RFlushed => (con c, Ok (), MkConn (pub c) (set_flush None None (msg_sent (ctx c)) (ctx c)) [])
  | RTick elapsed =>
      plain (hbind (if msg_sent (ctx c) then hret () else queue_send From_Heartbeat) (fun _ =>
        hbind (hupd (on_ctx (fun x => set_flush (flushing_updates x) (flush_timeout x) false x))) (fun _ => fun c =>
          match flushing_updates (ctx c), flush_timeout (ctx c) with
          | Some ts, Some timeout => if as_secs timeout * 1000000000 + subsec_nanos timeout <? elapsed then (Err TimedOut, c) else (Ok (), c)
          | _, _ => (Ok (), c)
          end)))
  | RDeferred i batch_end =>
      if batch_end then plain (handle_deferred_sub None)
      else
        match deferred_subs (ctx c) !! i with
        | None => ([], Ok (), c)
        | Some (path, p, _) =>
            plain (hbind (hupd (on_ctx (fun x => set_deferred (delete i (deferred_subs x)) (deferred_subs_batch x) x)))
              (fun _ => handle_deferred_sub (Some (path, p))))
        end
  | RBatch batch => match blocked_writes (ctx c) with [] => plain (handle_batch secrets now batch) | _ => ([], Ok (), c) end
  | RWrote i =>
      match blocked_writes (ctx c) !! i with
      | Some (BWSend _ _) => ([], Ok (), on_ctx (fun x => set_blocked (delete i (blocked_writes x)) x) c)
      | _ => ([], Ok (), c)
      end
  | RReply i v =>
      match blocked_writes (ctx c) !! i with
      | Some (BWReply id wid _) =>
          plain (hbind (hupd (on_ctx (fun x => set_blocked (delete i (blocked_writes x)) x))) (fun _ =>
            hbind (queue_send (From_WriteResult id v wid)) (fun _ =>
              hupd (on_ctx (fun x => set_flush (flushing_updates x) (flush_timeout x) true x)))))
      | _ => ([], Ok (), c)
      end
  | RUpdates =>
      if bool_decide (is_Some (flushing_updates (ctx c))) then ([], Ok (), c)
      else
        match clients (pub c) !! client (ctx c) with
        | Some (MkClient (u :: q) subs usr) =>
            plain (fun c => handle_updates secrets now u
              (on_pub (upd_clients <[client (ctx c) := MkClient q subs usr]>) c))
        | _ => ([], Ok (), c)
        end
  | RReadFailed => ([], Err ReadFailed, c)
  end.

(** ** Accepting and losing connections *)

(** [start]: a connection is refused when there are too many *)
Definition accept (max_clients : Z) (next : Z) (s : PublisherInner) : option ClId * Z * PublisherInner :=
  let '(clid, next) := atomic_id_new next in
  if Z.of_nat (size (clients s)) <? max_clients
  then (Some clid, next, upd_clients <[clid := MkClient [] ∅ None]> s)
  else (None, next, s).
(** ... and the end of its task *)
Definition disconnect (clid : ClId) (s : PublisherInner) : PublisherInner :=
  match clients s !! clid with
  | None => s
  | Some cl =>
      let s := upd_clients (delete clid) s in
      hc_retain (foldl (fun s id => unsubscribe clid id s) s (id_order (dom (cl_subscribed cl))))
  end.
End Server.
