(* ===== verification/PubFacts.v ===== *)
(** The publisher's tables stay consistent: paths and values agree, a client is in the
    subscriber set of a value exactly if the value is among its subscriptions, and
    shared sets are what they are filed under. *)
From Stdlib Require Import ZArith Lia.
From stdpp Require Import base gmap list strings sorting.
From Stdlib Require Import Strings.Byte.
From S2P Require Import Prelude Varint Pack Containers PackTypes Path PathFacts Order Glob Derive Proto.
From S2P Require Import Store Permissions Channel Float Value ValuePack ValueOrd PubProto Publisher PubServer.

Section Facts.
Context {ES : Escaping} {LY : Layout} {VA : ValueApi} {CM : ChunkMap} {VC : ValueCmp} {SH : Sha3}.
Context {PO : PubOrder} {POK : PubOrderOk PO}.
Context (reg : Registry) (arc_shared : gset ClId → bool) (next_wid : WriteId).

(** ** What matters of the state *)

Record Core := MkCore {
  k_clients : gmap ClId Client; k_hc : gmap (gset ClId) (gset ClId); k_by_path : gmap str Id; k_by_id : gmap Id Published;
  k_adv : gmap str (gset str); k_pub : gmap str (option Z); k_pubd : gmap str (option Z); k_unpub : gset str;
  k_unpubd : gset str; k_unsub : gmap Id (gset ClId); k_default : gmap str Chan; k_next : Z
}.
Definition core (s : PublisherInner) : Core :=
  MkCore (clients s) (hc_subscribed s) (by_path s) (by_id s) (advertised s) (to_publish s) (to_publish_default s)
    (to_unpublish s) (to_unpublish_default s) (to_unsubscribe s) (defaults s) (next_id (io s)).

Lemma core_trigger s : core (trigger_publish s) = core s.
Proof. unfold trigger_publish. by destruct (publish_triggered s). Qed.
Lemma core_send_event e s : core (send_event e s) = core s.
Proof. unfold send_event. by case_match. Qed.
Lemma core_wake ws s : core (wake ws s) = core s.
Proof. done. Qed.
Lemma core_writes id tx s : core (inner_writes id tx s) = core s.
Proof. unfold inner_writes. destruct (by_id s !! id); [|done]. by destruct (on_write_chans s !! tx) as [[]|]. Qed.
Lemma core_new_waiter s : core (new_waiter s).2 = core s.
Proof. done. Qed.

(** ** The invariant *)

Definition all_paths (v : Published) : gset str := {[pb_path v]} ∪ default ∅ (aliases v).
Definition subscribes (cls : gmap ClId Client) (cl : ClId) (id : Id) : Prop :=
  ∃ c, cls !! cl = Some c ∧ is_Some (cl_subscribed c !! id).

Record tables_core (k : Core) : Prop := {
  t_path p id : k_by_path k !! p = Some id → ∃ v, k_by_id k !! id = Some v ∧ p ∈ all_paths v;
  t_id id v p : k_by_id k !! id = Some v → p ∈ all_paths v → k_by_path k !! p = Some id;
  t_alias id v : k_by_id k !! id = Some v → pb_path v ∉ (default ∅ (aliases v) : gset str);
  t_subs id v cl : k_by_id k !! id = Some v → cl ∈ subscribed v ↔ subscribes (k_clients k) cl id;
  t_hc e v : k_hc k !! e = Some v → v = e;
  t_fresh id : is_Some (k_by_id k !! id) ∨ (∃ cl, subscribes (k_clients k) cl id) → inner id < k_next k;
  t_adv b set p : k_adv k !! b = Some set → p ∈ set → is_parent b p = true
}.
Definition tables (s : PublisherInner) : Prop := tables_core (core s).
Lemma tables_ext s s' : core s' = core s → tables s → tables s'.
Proof. unfold tables. by intros ->. Qed.

Lemma tables_new : tables publisher_new.
Proof.
  split; try done. intros id [[? H]|[cl (c & H & _)]]; [done|]. cbn in H. by rewrite lookup_empty in H.
Qed.

(** ** Unpublishing paths *)

(** [inner_unpublish] in terms of the tables that matter *)
Definition unpublish_core (p : str) (k : Core) : Core :=
  let adv := existsb (fun bs : str * gset str => is_parent bs.1 p && bool_decide (p ∈ bs.2)) (map_to_list (k_adv k)) in
  MkCore (k_clients k) (k_hc k) (delete p (k_by_path k)) (k_by_id k) (k_adv k)
    (if adv then k_pub k else delete p (k_pub k)) (k_pubd k)
    (if adv then k_unpub k else {[p]} ∪ k_unpub k) (k_unpubd k) (k_unsub k) (k_default k) (k_next k).
Lemma core_unpublish p s : core (inner_unpublish p s) = unpublish_core p (core s).
Proof.
  unfold inner_unpublish, unpublish_core, is_advertised. cbn [advertised upd_by_path core k_adv].
  destruct (existsb _ _) eqn:E; [done|]. by rewrite core_trigger.
Qed.
Lemma core_unpublish_all l s :
  core (foldl (fun s p => inner_unpublish p s) s l) = foldl (fun k p => unpublish_core p k) (core s) l.
Proof. revert s. induction l as [|p l IH]; intros s; [done|]. cbn. by rewrite IH, core_unpublish. Qed.
Lemma unpublish_all_frame l k :
  let k' := foldl (fun k p => unpublish_core p k) k l in
  k_clients k' = k_clients k ∧ k_hc k' = k_hc k ∧ k_by_id k' = k_by_id k ∧ k_adv k' = k_adv k ∧ k_next k' = k_next k ∧
  k_pubd k' = k_pubd k ∧ k_unpubd k' = k_unpubd k ∧ k_default k' = k_default k ∧ k_unsub k' = k_unsub k ∧
  ∀ p, k_by_path k' !! p = if decide (p ∈ l) then None else k_by_path k !! p.
Proof.
  revert k. induction l as [|q l IH]; intros k; cbn [foldl].
  - by split_and!.
  - destruct (IH (unpublish_core q k)) as (-> & -> & -> & -> & -> & -> & -> & -> & -> & H). split_and!; try done.
    intros p. rewrite H. cbn. destruct (decide (p ∈ l)) as [Hl|Hl].
    + rewrite decide_True; [done|]. by right.
    + destruct (decide (p = q)) as [->|Hne].
      * by rewrite lookup_delete_eq, decide_True by (by left).
      * rewrite lookup_delete_ne by done. rewrite decide_False; [done|]. rewrite elem_of_cons. tauto.
Qed.
Lemma val_paths_all v p : p ∈ val_paths v ↔ p ∈ all_paths v.
Proof.
  unfold val_paths, all_paths. rewrite elem_of_cons, elem_of_union, elem_of_singleton.
  destruct (aliases v) as [a|]; cbn; [|set_solver]. rewrite path_order_perm, elem_of_elements. done.
Qed.

Definition with_by_id (m : gmap Id Published) (k : Core) : Core :=
  MkCore (k_clients k) (k_hc k) (k_by_path k) m (k_adv k) (k_pub k) (k_pubd k) (k_unpub k) (k_unpubd k) (k_unsub k)
    (k_default k) (k_next k).
Definition with_unsub (m : gmap Id (gset ClId)) (k : Core) : Core :=
  MkCore (k_clients k) (k_hc k) (k_by_path k) (k_by_id k) (k_adv k) (k_pub k) (k_pubd k) (k_unpub k) (k_unpubd k) m
    (k_default k) (k_next k).
Definition destroy_core (id : Id) (v : Published) (k : Core) : Core :=
  let k := foldl (fun k p => unpublish_core p k) (with_by_id (delete id (k_by_id k)) k) (val_paths v) in
  if decide (subscribed v = ∅) then k else with_unsub (<[id := subscribed v]> (k_unsub k)) k.
Lemma core_destroy id s v : by_id s !! id = Some v → core (destroy_val id s) = destroy_core id v (core s).
Proof.
  intros Hv. unfold destroy_val. rewrite Hv.
  set (s1 := foldl _ _ _). set (s2 := upd_wait_clients _ s1).
  assert (H1 : core s2 = foldl (fun k p => unpublish_core p k) (with_by_id (delete id (k_by_id (core s))) (core s)) (val_paths v)).
  { unfold s2. change (core s1 = foldl (fun k p => unpublish_core p k) (core (upd_by_id (delete id) s)) (val_paths v)).
    by rewrite <-core_unpublish_all. }
  set (s3 := match on_write s2 !! id with Some _ => _ | None => _ end).
  assert (H2 : core s3 = core s2) by (unfold s3; by destruct (on_write s2 !! id)).
  set (s4 := upd_on_event_by_id_chans _ _).
  assert (H3 : core s4 = core s2).
  { rewrite <-H2, <-(core_send_event (Destroyed id) s3). done. }
  unfold destroy_core. rewrite <-H1, <-H3. by destruct (decide (subscribed v = ∅)).
Qed.
Lemma destroy_none id s : by_id s !! id = None → destroy_val id s = s.
Proof. intros H. unfold destroy_val. by rewrite H. Qed.

(** What a value's removal leaves *)
Lemma destroy_frame id v k :
  let k' := destroy_core id v k in
  k_clients k' = k_clients k ∧ k_hc k' = k_hc k ∧ k_by_id k' = delete id (k_by_id k) ∧ k_adv k' = k_adv k ∧
  k_next k' = k_next k ∧ k_pubd k' = k_pubd k ∧ k_unpubd k' = k_unpubd k ∧ k_default k' = k_default k ∧
  ∀ p, k_by_path k' !! p = if decide (p ∈ all_paths v) then None else k_by_path k !! p.
Proof.
  unfold destroy_core.
  destruct (unpublish_all_frame (val_paths v) (with_by_id (delete id (k_by_id k)) k))
    as (H1 & H2 & H3 & H4 & H5 & H6 & H7 & H8 & H9 & H10).
  assert (Hp : ∀ p, k_by_path (foldl (fun k p => unpublish_core p k) (with_by_id (delete id (k_by_id k)) k) (val_paths v)) !! p
    = if decide (p ∈ all_paths v) then None else k_by_path k !! p).
  { intros p. rewrite H10. by rewrite (decide_ext _ _ _ _ (val_paths_all v p)). }
  by destruct (decide (subscribed v = ∅)); cbn; split_and!.
Qed.

Lemma tables_destroy_core id v k : tables_core k → k_by_id k !! id = Some v → tables_core (destroy_core id v k).
Proof.
  intros Hk Hv. destruct (destroy_frame id v k) as (E1 & E2 & E3 & E4 & E5 & _ & _ & _ & E6).
  split; rewrite ?E1, ?E2, ?E3, ?E4, ?E5.
  - intros p i. rewrite E6. destruct (decide _) as [|Hp]; [done|]. intros H.
    destruct (t_path _ Hk p i H) as (w & Hw & Hpw). exists w. split; [|done].
    rewrite lookup_delete_ne; [done|]. intros ->. congruence.
  - intros i w p Hw Hp. apply lookup_delete_Some in Hw as [Hi Hw]. rewrite E6.
    rewrite decide_False; [by eapply t_id|]. intros Hpv.
    pose proof (t_id _ Hk id v p Hv Hpv). pose proof (t_id _ Hk i w p Hw Hp). congruence.
  - intros i w [_ Hw]%lookup_delete_Some. by eapply t_alias.
  - intros i w cl [_ Hw]%lookup_delete_Some. by apply t_subs.
  - apply (t_hc _ Hk).
  - intros i [[w Hw]|Hs]; [|by apply (t_fresh _ Hk); right]. apply lookup_delete_Some in Hw as [_ Hw].
    apply (t_fresh _ Hk). left. by eexists.
  - apply (t_adv _ Hk).
Qed.
Lemma tables_destroy id s : tables s → tables (destroy_val id s).
Proof.
  intros Hs. destruct (by_id s !! id) as [v|] eqn:Hv; [|by rewrite destroy_none].
  unfold tables. rewrite (core_destroy id s v Hv). by apply tables_destroy_core.
Qed.

(** ** Publishing *)

Lemma core_publish id flags path s :
  core (inner_publish id flags path s) =
  MkCore (clients s) (hc_subscribed s) (<[path := id]> (by_path s)) (by_id s) (advertised s)
    (<[path := flags_opt flags]> (to_publish s)) (to_publish_default s) (to_unpublish s ∖ {[path]}) (to_unpublish_default s)
    (to_unsubscribe s) (defaults s) (next_id (io s)).
Proof. unfold inner_publish. by rewrite core_trigger. Qed.

(** A new path of a value *)
Lemma tables_add_path k id w w' path :
  tables_core k → k_by_path k !! path = None → k_by_id k !! id = Some w →
  all_paths w' = {[path]} ∪ all_paths w → pb_path w' ∉ (default ∅ (aliases w') : gset str) → subscribed w' = subscribed w →
  tables_core (MkCore (k_clients k) (k_hc k) (<[path := id]> (k_by_path k)) (<[id := w']> (k_by_id k)) (k_adv k) (k_pub k)
    (k_pubd k) (k_unpub k) (k_unpubd k) (k_unsub k) (k_default k) (k_next k)).
Proof.
  intros Hk Hp Hw Hpaths Hal Hsub. split; cbn.
  - intros p i. destruct (decide (p = path)) as [->|Hne].
    + rewrite lookup_insert_eq. intros [= <-]. exists w'. rewrite lookup_insert_eq. split; [done|]. set_solver.
    + rewrite lookup_insert_ne by done. intros (x & Hx & Hpx)%(t_path _ Hk).
      destruct (decide (i = id)) as [->|Hi]; [|exists x; by rewrite lookup_insert_ne].
      exists w'. rewrite lookup_insert_eq. split; [done|]. assert (x = w) as -> by congruence. set_solver.
  - intros i x p Hx Hpx. destruct (decide (i = id)) as [->|Hi].
    + rewrite lookup_insert_eq in Hx. injection Hx as <-. rewrite Hpaths in Hpx.
      destruct (decide (p = path)) as [->|Hne]; [by rewrite lookup_insert_eq|]. rewrite lookup_insert_ne by done.
      apply (t_id _ Hk id w); [done|]. set_solver.
    + rewrite lookup_insert_ne in Hx by done. pose proof (t_id _ Hk i x p Hx Hpx) as Hb.
      rewrite lookup_insert_ne; [done|]. intros ->. congruence.
  - intros i x Hx. destruct (decide (i = id)) as [->|Hi].
    + rewrite lookup_insert_eq in Hx. by injection Hx as <-.
    + rewrite lookup_insert_ne in Hx by done. by eapply t_alias.
  - intros i x cl Hx. destruct (decide (i = id)) as [->|Hi].
    + rewrite lookup_insert_eq in Hx. injection Hx as <-. rewrite Hsub. by apply (t_subs _ Hk).
    + rewrite lookup_insert_ne in Hx by done. by apply (t_subs _ Hk).
  - apply (t_hc _ Hk).
  - intros i [[x Hx]|Hs]; [|by apply (t_fresh _ Hk); right]. apply (t_fresh _ Hk). left.
    destruct (decide (i = id)) as [->|Hi]; [by eexists|]. rewrite lookup_insert_ne in Hx by done. by eexists.
  - apply (t_adv _ Hk).
Qed.

(** A new value *)
Lemma tables_add_value k id v hc :
  tables_core k → inner id = k_next k → subscribed v = ∅ → aliases v = None → k_by_path k !! pb_path v = None →
  (∀ e x, hc !! e = Some x → x = e) →
  tables_core (MkCore (k_clients k) hc (<[pb_path v := id]> (k_by_path k)) (<[id := v]> (k_by_id k)) (k_adv k) (k_pub k)
    (k_pubd k) (k_unpub k) (k_unpubd k) (k_unsub k) (k_default k) (k_next k + 1)).
Proof.
  intros Hk Hid Hsub Hal Hp Hhc.
  assert (Hno : k_by_id k !! id = None).
  { destruct (k_by_id k !! id) as [x|] eqn:E; [|done].
    pose proof (t_fresh _ Hk id (or_introl (mk_is_Some _ _ E))). lia. }
  assert (Hall : all_paths v = {[pb_path v]}) by (unfold all_paths; rewrite Hal; set_solver).
  split; cbn.
  - intros p i. destruct (decide (p = pb_path v)) as [->|Hne].
    + rewrite lookup_insert_eq. intros [= <-]. exists v. rewrite lookup_insert_eq. set_solver.
    + rewrite lookup_insert_ne by done. intros (x & Hx & Hpx)%(t_path _ Hk).
      exists x. rewrite lookup_insert_ne; [done|]. congruence.
  - intros i x p Hx Hpx. destruct (decide (i = id)) as [->|Hi].
    + rewrite lookup_insert_eq in Hx. injection Hx as <-. rewrite Hall in Hpx.
      apply elem_of_singleton in Hpx as ->. by rewrite lookup_insert_eq.
    + rewrite lookup_insert_ne in Hx by done. pose proof (t_id _ Hk i x p Hx Hpx).
      rewrite lookup_insert_ne; [done|]. intros <-. congruence.
  - intros i x Hx. destruct (decide (i = id)) as [->|Hi].
    + rewrite lookup_insert_eq in Hx. injection Hx as <-. rewrite Hal. set_solver.
    + rewrite lookup_insert_ne in Hx by done. by eapply t_alias.
  - intros i x cl Hx. destruct (decide (i = id)) as [->|Hi].
    + rewrite lookup_insert_eq in Hx. injection Hx as <-. rewrite Hsub. split; [set_solver|].
      intros Hs. pose proof (t_fresh _ Hk id (or_intror (ex_intro _ cl Hs))). lia.
    + rewrite lookup_insert_ne in Hx by done. by apply (t_subs _ Hk).
  - done.
  - intros i [[x Hx]|Hs]; [|pose proof (t_fresh _ Hk i (or_intror Hs)); lia].
    destruct (decide (i = id)) as [->|Hi]; [lia|]. rewrite lookup_insert_ne in Hx by done.
    pose proof (t_fresh _ Hk i (or_introl (mk_is_Some _ _ Hx))). lia.
  - apply (t_adv _ Hk).
Qed.

Lemma tables_next k n : tables_core k → k_next k ≤ n →
  tables_core (MkCore (k_clients k) (k_hc k) (k_by_path k) (k_by_id k) (k_adv k) (k_pub k) (k_pubd k) (k_unpub k) (k_unpubd k)
    (k_unsub k) (k_default k) n).
Proof. intros Hk Hn. split; try apply Hk. intros id H. pose proof (t_fresh _ Hk id H). cbn. lia. Qed.
(** The tables do not depend on what is queued for the resolver. *)
Lemma tables_queue k pub pubd unpub unpubd unsub df :
  tables_core k → tables_core (MkCore (k_clients k) (k_hc k) (k_by_path k) (k_by_id k) (k_adv k) pub pubd unpub unpubd unsub df (k_next k)).
Proof. intros Hk. split; apply Hk. Qed.

Lemma hc_entry_ok set s : (∀ e v, hc_subscribed s !! e = Some v → v = e) →
  ∃ hc, hc_entry set s = (set, upd_hc_subscribed (fun _ => hc) s) ∧ ∀ e v, hc !! e = Some v → v = e.
Proof.
  intros H. unfold hc_entry. destruct (hc_subscribed s !! set) as [v|] eqn:E.
  - exists (hc_subscribed s). split; [|done]. rewrite (H _ _ E). by destruct s.
  - exists (<[set := set]> (hc_subscribed s)). split; [done|]. intros e v.
    destruct (decide (e = set)) as [->|Hne]; [rewrite lookup_insert_eq; by intros [= <-]|].
    rewrite lookup_insert_ne by done. apply H.
Qed.

Lemma check_publish_ok s path : check_publish s path = Ok () →
  is_absolute path = true ∧ alive s = true ∧ by_path s !! path = None.
Proof.
  unfold check_publish. destruct (is_absolute path); [|done]. destruct (alive s); [|done]. cbn.
  case_bool_decide as H; [done|]. intros _. split_and!; try done. by apply eq_None_not_Some.
Qed.

Lemma publish_spec flags path init tx s id s' :
  publish_with_flags_and_writes flags path init tx s = (Ok id, s') →
  tables s → 0 ≤ next_id (io s) → next_id (io s) + 1 < 2 ^ 64 →
  id = MkId (next_id (io s)) ∧ is_absolute path = true ∧ alive s = true ∧ by_path s !! path = None ∧
  ∃ hc, (∀ e v, hc !! e = Some v → v = e) ∧
  core s' = MkCore (clients s) hc (<[path := id]> (by_path s)) (<[id := MkPublished init ∅ path None]> (by_id s)) (advertised s)
    (<[path := flags_opt (flags_remove flags DESTROY_ON_IDLE)]> (to_publish s)) (to_publish_default s) (to_unpublish s ∖ {[path]})
    (to_unpublish_default s) (to_unsubscribe s) (defaults s) (next_id (io s) + 1).
Proof.
  intros Hp Hs H0 Hn. unfold publish_with_flags_and_writes, atomic_id_new in Hp.
  rewrite wrap_small in Hp by (unfold in_u; lia).
  set (s0 := upd_io _ s) in Hp. destruct (check_publish s0 path) as [[]| |] eqn:Hc; try done.
  apply check_publish_ok in Hc as (Ha & Hal & Hb).
  destruct (hc_entry_ok ∅ s0 (t_hc _ Hs)) as (hc & He & Hhc). rewrite He in Hp.
  injection Hp as <- <-. split_and!; try done. exists hc. split; [done|]. rewrite core_publish.
  set (s1 := if flags_contains flags DESTROY_ON_IDLE then _ else _).
  assert (H1 : core s1 = core (upd_by_id <[MkId (next_id (io s)) := MkPublished init ∅ path None]> (upd_hc_subscribed (fun _ => hc) s0)))
    by (unfold s1; by destruct (flags_contains flags DESTROY_ON_IDLE)).
  set (s2 := match tx with Some _ => _ | None => _ end).
  assert (H2 : core s2 = core s1) by (unfold s2; destruct tx; [apply core_writes|done]).
  rewrite H1 in H2. unfold core in H2. by injection H2 as -> -> -> -> -> -> -> -> -> -> -> ->.
Qed.
Lemma publish_err flags path init tx s e s' :
  publish_with_flags_and_writes flags path init tx s = (Err e, s') →
  s' = upd_io (io_next_id (fun _ => wrap 64 (next_id (io s) + 1))) s.
Proof.
  unfold publish_with_flags_and_writes, atomic_id_new. destruct (check_publish _ _) as [[]| |]; [|by intros [= _ <-]|done].
  by destruct (hc_entry _ _).
Qed.
Lemma publish_no_panic flags path init tx s : (publish_with_flags_and_writes flags path init tx s).1 ≠ Panic.
Proof.
  unfold publish_with_flags_and_writes, atomic_id_new. destruct (check_publish _ _) as [[]| |] eqn:E; [by destruct (hc_entry _ _)|done|].
  exfalso. revert E. unfold check_publish. by repeat case_match.
Qed.
Lemma tables_publish flags path init tx s :
  tables s → 0 ≤ next_id (io s) → next_id (io s) + 1 < 2 ^ 64 →
  tables (publish_with_flags_and_writes flags path init tx s).2.
Proof.
  intros Hs H0 Hn. destruct (publish_with_flags_and_writes flags path init tx s) as [[id|e|] s'] eqn:Hp; cbn.
  - destruct (publish_spec _ _ _ _ _ _ _ Hp Hs H0 Hn) as (-> & _ & _ & Hb & hc & Hhc & Hk).
    unfold tables. rewrite Hk.
    refine (tables_queue (MkCore (clients s) hc (<[path := MkId (next_id (io s))]> (by_path s))
      (<[MkId (next_id (io s)) := MkPublished init ∅ path None]> (by_id s)) (advertised s) (to_publish s) (to_publish_default s)
      (to_unpublish s) (to_unpublish_default s) (to_unsubscribe s) (defaults s) (next_id (io s) + 1)) _ _ _ _ _ _ _).
    exact (tables_add_value (core s) (MkId (next_id (io s))) (MkPublished init ∅ path None) hc Hs eq_refl eq_refl eq_refl Hb Hhc).
  - rewrite (publish_err _ _ _ _ _ _ _ Hp), wrap_small by (unfold in_u; lia).
    apply (tables_next (core s)); [done|]. cbn. lia.
  - pose proof (publish_no_panic flags path init tx s). by rewrite Hp in *.
Qed.

Lemma tables_alias id flags path s : tables s → tables (alias_with_flags id flags path s).2.
Proof.
  intros Hs. unfold alias_with_flags. case_bool_decide as Hid; [done|].
  destruct (check_publish s path) as [[]| |] eqn:Hc; try done. apply check_publish_ok in Hc as (_ & _ & Hb).
  assert (E : by_id (inner_publish id (flags_remove flags DESTROY_ON_IDLE) path s) = by_id s).
  { exact (f_equal k_by_id (core_publish id (flags_remove flags DESTROY_ON_IDLE) path s)). }
  rewrite E. destruct (by_id s !! id) as [v|] eqn:Hv; [|done]. cbn [snd].
  pose proof (core_publish id (flags_remove flags DESTROY_ON_IDLE) path s) as Hk.
  set (s1 := inner_publish _ _ _ _) in *.
  set (v' := set_aliases (Some ({[path]} ∪ default ∅ (aliases v))) v).
  assert (Hout : path ∉ all_paths v) by (intros H; pose proof (t_id _ Hs id v path Hv H); cbn in *; congruence).
  unfold tables, core. cbn. unfold core in Hk. injection Hk as -> -> -> -> -> -> -> -> -> -> -> ->.
  refine (tables_queue (MkCore (clients s) (hc_subscribed s) (<[path := id]> (by_path s)) (<[id := v']> (by_id s)) (advertised s)
    (to_publish s) (to_publish_default s) (to_unpublish s) (to_unpublish_default s) (to_unsubscribe s) (defaults s) (next_id (io s)))
    _ _ _ _ _ _ _).
  refine (tables_add_path (core s) id v v' path Hs Hb Hv _ _ eq_refl).
  - unfold all_paths. cbn. set_solver.
  - cbn. pose proof (t_alias _ Hs id v Hv). unfold all_paths in Hout. set_solver.
Qed.

(** ** Changing a value *)

(** A value keeps its path and loses aliases. *)
Lemma tables_drop_paths k id w w' bp :
  tables_core k → k_by_id k !! id = Some w → pb_path w' = pb_path w → subscribed w' = subscribed w →
  (default ∅ (aliases w') : gset str) ⊆ default ∅ (aliases w) →
  (∀ p, bp !! p = if decide (p ∈ all_paths w ∖ all_paths w') then None else k_by_path k !! p) →
  tables_core (MkCore (k_clients k) (k_hc k) bp (<[id := w']> (k_by_id k)) (k_adv k) (k_pub k)
    (k_pubd k) (k_unpub k) (k_unpubd k) (k_unsub k) (k_default k) (k_next k)).
Proof.
  intros Hk Hw Hpath Hsub Hal Hbp.
  assert (Hall : all_paths w' ⊆ all_paths w) by (unfold all_paths; rewrite Hpath; by apply union_mono_l).
  split; cbn.
  - intros p i. rewrite Hbp. destruct (decide _) as [|Hd]; [done|]. intros (x & Hx & Hpx)%(t_path _ Hk).
    destruct (decide (i = id)) as [->|Hi]; [|exists x; by rewrite lookup_insert_ne].
    exists w'. rewrite lookup_insert_eq. split; [done|]. assert (x = w) as -> by congruence.
    destruct (decide (p ∈ all_paths w')); [done|]. exfalso. apply Hd. by apply elem_of_difference.
  - intros i x p Hx Hpx. rewrite Hbp. destruct (decide (i = id)) as [->|Hi].
    + rewrite lookup_insert_eq in Hx. injection Hx as <-. rewrite decide_False by (by intros [_ ?]%elem_of_difference).
      apply (t_id _ Hk id w); [done|]. by apply Hall.
    + rewrite lookup_insert_ne in Hx by done. pose proof (t_id _ Hk i x p Hx Hpx) as Hb.
      rewrite decide_False; [done|]. intros [Hp _]%elem_of_difference.
      pose proof (t_id _ Hk id w p Hw Hp). congruence.
  - intros i x Hx. destruct (decide (i = id)) as [->|Hi].
    + rewrite lookup_insert_eq in Hx. injection Hx as <-. rewrite Hpath. intros ?. apply (t_alias _ Hk id w Hw). by apply Hal.
    + rewrite lookup_insert_ne in Hx by done. by eapply t_alias.
  - intros i x cl Hx. destruct (decide (i = id)) as [->|Hi].
    + rewrite lookup_insert_eq in Hx. injection Hx as <-. rewrite Hsub. by apply (t_subs _ Hk).
    + rewrite lookup_insert_ne in Hx by done. by apply (t_subs _ Hk).
  - apply (t_hc _ Hk).
  - intros i [[x Hx]|Hs]; [|by apply (t_fresh _ Hk); right]. apply (t_fresh _ Hk). left.
    destruct (decide (i = id)) as [->|Hi]; [by eexists|]. rewrite lookup_insert_ne in Hx by done. by eexists.
  - apply (t_adv _ Hk).
Qed.
Lemma tables_remove_alias id path s : tables s → tables (remove_alias id path s).
Proof.
  intros Hs. unfold remove_alias. destruct (by_id s !! id) as [v|] eqn:Hv; [|done].
  destruct (aliases v) as [al|] eqn:Hal; [|done]. destruct (decide (path ∈ al)) as [Hin|]; [|done].
  set (v' := set_aliases _ v). unfold tables. rewrite core_unpublish. unfold unpublish_core. cbn.
  pose proof (t_alias _ Hs id v Hv) as Hno. rewrite Hal in Hno. cbn in Hno.
  refine (tables_queue (MkCore (clients s) (hc_subscribed s) (delete path (by_path s)) (<[id := v']> (by_id s)) (advertised s)
    (to_publish s) (to_publish_default s) (to_unpublish s) (to_unpublish_default s) (to_unsubscribe s) (defaults s) (next_id (io s)))
    _ _ _ _ _ _ _).
  refine (tables_drop_paths (core s) id v v' _ Hs Hv eq_refl eq_refl _ _).
  - cbn. rewrite Hal. cbn. set_solver.
  - intros p. assert (Hd : p ∈ all_paths v ∖ all_paths v' ↔ p = path).
    { unfold all_paths, v'. cbn. rewrite Hal. cbn. split; [|intros ->; set_solver].
      rewrite elem_of_difference, !elem_of_union, elem_of_difference, !elem_of_singleton.
      destruct (decide (p = path)); [done|]. tauto. }
    rewrite (decide_ext _ _ _ _ Hd).
    change (delete path (by_path s) !! p = if decide (p = path) then None else by_path s !! p). destruct (decide (p = path)) as [->|]; [by rewrite lookup_delete_eq|by rewrite lookup_delete_ne].
Qed.
Lemma tables_remove_all_aliases id s : tables s → tables (remove_all_aliases id s).
Proof.
  intros Hs. unfold remove_all_aliases. destruct (by_id s !! id) as [v|] eqn:Hv; [|done].
  destruct (aliases v) as [al|] eqn:Hal; [|done]. set (v' := set_aliases _ v). unfold tables. rewrite core_unpublish_all.
  pose proof (t_alias _ Hs id v Hv) as Hno. rewrite Hal in Hno. cbn in Hno.
  set (k0 := core _). destruct (unpublish_all_frame (path_order al) k0) as (E1 & E2 & E3 & E4 & E5 & _ & _ & _ & _ & E6).
  set (k1 := foldl _ k0 _) in *.
  assert (Ek : k1 = MkCore (clients s) (hc_subscribed s) (k_by_path k1) (<[id := v']> (by_id s)) (advertised s)
    (k_pub k1) (k_pubd k1) (k_unpub k1) (k_unpubd k1) (k_unsub k1) (k_default k1) (next_id (io s))).
  { destruct k1. cbn in *. by subst. }
  rewrite Ek.
  refine (tables_queue (MkCore (clients s) (hc_subscribed s) (k_by_path k1) (<[id := v']> (by_id s)) (advertised s)
    (to_publish s) (to_publish_default s) (to_unpublish s) (to_unpublish_default s) (to_unsubscribe s) (defaults s) (next_id (io s)))
    _ _ _ _ _ _ _).
  refine (tables_drop_paths (core s) id v v' _ Hs Hv eq_refl eq_refl _ _).
  - cbn. set_solver.
  - intros p. rewrite E6. cbn.
    assert (Hd : p ∈ path_order al ↔ p ∈ all_paths v ∖ all_paths v').
    { rewrite path_order_perm, elem_of_elements. unfold all_paths, v'. cbn. rewrite Hal. cbn.
      rewrite elem_of_difference, !elem_of_union, !elem_of_singleton. set_solver. }
    by rewrite (decide_ext _ _ _ _ Hd).
Qed.
Lemma tables_set_current id v x k : tables_core k → k_by_id k !! id = Some v →
  tables_core (with_by_id (<[id := set_current x v]> (k_by_id k)) k).
Proof.
  intros Hk Hv. refine (tables_drop_paths k id v (set_current x v) (k_by_path k) Hk Hv eq_refl eq_refl _ _); [done|].
  intros p. by rewrite decide_False by (unfold all_paths; cbn; set_solver).
Qed.

(** ** Advertisements and default publishers *)

Lemma tables_adv k adv : tables_core k → (∀ b set p, adv !! b = Some set → p ∈ set → is_parent b p = true) →
  tables_core (MkCore (k_clients k) (k_hc k) (k_by_path k) (k_by_id k) adv (k_pub k) (k_pubd k) (k_unpub k) (k_unpubd k)
    (k_unsub k) (k_default k) (k_next k)).
Proof. intros Hk Ha. split; try apply Hk. done. Qed.
Lemma tables_publish_default flags base tx s : tables s → tables (publish_default_with_flags flags base tx s).2.
Proof.
  intros Hs. unfold publish_default_with_flags. repeat (case_match; [done|]). cbn [snd].
  apply (tables_ext _ _ (core_trigger _)). by apply (tables_queue (core s)).
Qed.
Lemma tables_advertise base flags path s : tables s → tables (advertise_with_flags base flags path s).2.
Proof.
  intros Hs. unfold advertise_with_flags. destruct (is_parent base path) eqn:Hp; [|done]. cbn [negb].
  set (s1 := upd_advertised _ s). assert (H1 : tables s1).
  { refine (tables_adv (core s) (<[base := {[path]} ∪ default ∅ (advertised s !! base)]> (advertised s)) Hs _).
    intros b set p. destruct (decide (b = base)) as [->|Hb].
    - rewrite lookup_insert_eq. intros [= <-] [->%elem_of_singleton|Hin]%elem_of_union; [done|].
      destruct (advertised s !! base) as [st|] eqn:E; [|set_solver]. by apply (t_adv _ Hs base st).
    - rewrite lookup_insert_ne by done. apply (t_adv _ Hs). }
  case_match; [|done]. cbn [snd]. apply (tables_ext _ _ (core_trigger _)). by apply (tables_queue (core s1)).
Qed.
Lemma tables_remove_advertisement base path s : tables s → tables (remove_advertisement base path s).
Proof.
  intros Hs. unfold remove_advertisement. destruct (advertised s !! base) as [set|] eqn:Ha; [|done].
  set (s1 := upd_advertised _ s). assert (H1 : tables s1).
  { refine (tables_adv (core s) (if bool_decide (set ∖ {[path]} = ∅) then delete base (advertised s)
      else <[base := set ∖ {[path]}]> (advertised s)) Hs _). intros b st p. case_bool_decide.
    - intros [_ Hb]%lookup_delete_Some. by apply (t_adv _ Hs).
    - destruct (decide (b = base)) as [->|Hb].
      + rewrite lookup_insert_eq. intros [= <-] Hp. apply (t_adv _ Hs base set); [done|]. set_solver.
      + rewrite lookup_insert_ne by done. apply (t_adv _ Hs). }
  case_match; [|done]. apply (tables_ext _ _ (core_trigger _)). by apply (tables_queue (core s1)).
Qed.
Lemma tables_drop_default base s : tables s → tables (drop_default base s).
Proof.
  intros Hs. unfold drop_default. apply (tables_ext _ _ (core_trigger _)).
  set (s1 := upd_to_unpublish_default _ _). assert (H1 : tables s1) by by apply (tables_queue (core s)).
  destruct (advertised s1 !! base) as [paths|]; [|done].
  set (s2 := upd_advertised _ s1). assert (H2 : tables s2).
  { refine (tables_adv (core s1) (delete base (advertised s1)) H1 _). intros b st p [_ Hb]%lookup_delete_Some. by apply (t_adv _ H1). }
  generalize (path_order paths). clearbody s2. intros l. revert s2 H2. induction l as [|p l IH]; intros s2 H2; [done|]. cbn. apply IH.
  case_match; [|done]. by apply (tables_queue (core s2)).
Qed.
End Facts.
