(* ===== verification/PubSubs.v ===== *)
(** Subscribing, unsubscribing, committing a batch and losing a client keep the
    publisher's tables consistent. *)
From Stdlib Require Import ZArith Lia.
From stdpp Require Import base gmap list strings sorting.
From Stdlib Require Import Strings.Byte.
From S2P Require Import Prelude Varint Pack Containers PackTypes Path PathFacts Order Glob Derive Proto.
From S2P Require Import Store Permissions Channel Float Value ValuePack ValueOrd PubProto Publisher PubServer PubFacts.

Section Subs.
Context {ES : Escaping} {LY : Layout} {VA : ValueApi} {CM : ChunkMap} {VC : ValueCmp} {SH : Sha3}.
Context {PO : PubOrder} {POK : PubOrderOk PO}.
Context (reg : Registry) (arc_shared : gset ClId → bool) (next_wid : WriteId).

(** ** Who subscribes *)

Definition with_clients (m : gmap ClId Client) (k : Core) : Core :=
  MkCore m (k_hc k) (k_by_path k) (k_by_id k) (k_adv k) (k_pub k) (k_pubd k) (k_unpub k) (k_unpubd k) (k_unsub k)
    (k_default k) (k_next k).
Definition with_hc (m : gmap (gset ClId) (gset ClId)) (k : Core) : Core :=
  MkCore (k_clients k) m (k_by_path k) (k_by_id k) (k_adv k) (k_pub k) (k_pubd k) (k_unpub k) (k_unpubd k) (k_unsub k)
    (k_default k) (k_next k).
Lemma tables_hc k hc : tables_core k → (∀ e v, hc !! e = Some v → v = e) → tables_core (with_hc hc k).
Proof. intros Hk Hh. split; try apply Hk. done. Qed.
Lemma tables_clients k cls : tables_core k →
  (∀ cl id, subscribes cls cl id ↔ subscribes (k_clients k) cl id) → tables_core (with_clients cls k).
Proof.
  intros Hk Hc. split; try apply Hk.
  - intros id v cl Hv. cbn. rewrite Hc. by apply (t_subs _ Hk).
  - intros id [H|(cl & H)]; apply (t_fresh _ Hk); [by left|]. right. exists cl. by apply Hc.
Qed.
(** The subscribers of one value change, in its set and for the clients alike. *)
Lemma tables_subs k id w subs cls :
  tables_core k → k_by_id k !! id = Some w →
  (∀ cl, cl ∈ subs ↔ subscribes cls cl id) →
  (∀ cl i, i ≠ id → subscribes cls cl i ↔ subscribes (k_clients k) cl i) →
  tables_core (with_clients cls (with_by_id (<[id := set_subscribed subs w]> (k_by_id k)) k)).
Proof.
  intros Hk Hw Hs Ho. split; cbn.
  - intros p i (x & Hx & Hp)%(t_path _ Hk). destruct (decide (i = id)) as [->|Hi].
    + exists (set_subscribed subs w). rewrite lookup_insert_eq. split; [done|]. by assert (x = w) as -> by congruence.
    + exists x. by rewrite lookup_insert_ne.
  - intros i x p Hx Hp. destruct (decide (i = id)) as [->|Hi].
    + rewrite lookup_insert_eq in Hx. injection Hx as <-. by apply (t_id _ Hk id w).
    + rewrite lookup_insert_ne in Hx by done. by apply (t_id _ Hk i x).
  - intros i x Hx. destruct (decide (i = id)) as [->|Hi].
    + rewrite lookup_insert_eq in Hx. injection Hx as <-. by apply (t_alias _ Hk id w).
    + rewrite lookup_insert_ne in Hx by done. by eapply t_alias.
  - intros i x cl Hx. destruct (decide (i = id)) as [->|Hi].
    + rewrite lookup_insert_eq in Hx. injection Hx as <-. apply Hs.
    + rewrite lookup_insert_ne in Hx by done. rewrite Ho by done. by apply (t_subs _ Hk).
  - apply (t_hc _ Hk).
  - intros i Hi. apply (t_fresh _ Hk). destruct (decide (i = id)) as [->|Hne]; [left; by eexists|].
    destruct Hi as [[x Hx]|[cl Hcl]].
    + left. rewrite lookup_insert_ne in Hx by done. by eexists.
    + right. exists cl. by apply Ho.
  - apply (t_adv _ Hk).
Qed.

Lemma subscribes_insert cls x c cl id :
  subscribes (<[x := c]> cls) cl id ↔ if decide (cl = x) then is_Some (cl_subscribed c !! id) else subscribes cls cl id.
Proof.
  unfold subscribes. destruct (decide (cl = x)) as [->|Hne].
  - rewrite lookup_insert_eq. split; [by intros (? & [= <-] & ?)|by exists c].
  - by rewrite lookup_insert_ne.
Qed.
Lemma subscribes_alter cls f x cl id :
  (∀ c, cl_subscribed (f c) = cl_subscribed c) → subscribes (alter f x cls) cl id ↔ subscribes cls cl id.
Proof.
  intros Hf. unfold subscribes. destruct (decide (x = cl)) as [->|Hne]; [|by rewrite lookup_alter_ne].
  rewrite lookup_alter_eq. destruct (cls !! cl) as [c|]; cbn; [|by split; intros (? & ? & _)].
  split; intros (c' & [= <-] & H); [exists c|exists (f c)]; by rewrite Hf in *.
Qed.
Lemma subscribes_none cls cl id : cls !! cl = None → ¬ subscribes cls cl id.
Proof. intros H (c & Hc & _). congruence. Qed.

(** ** Subscribing *)

Lemma core_add_subscriber cl id p ut s :
  (∀ e v, hc_subscribed s !! e = Some v → v = e) →
  ∃ hc, (∀ e v, hc !! e = Some v → v = e) ∧
  core (add_subscriber cl id p ut s) =
  with_hc hc (with_clients (alter (fun c => set_cl_subscribed (<[id := p]> (cl_subscribed c)) c) cl (clients s))
    (with_by_id (<[id := set_subscribed ({[cl]} ∪ subscribed ut) ut]> (by_id s)) (core s))).
Proof.
  intros H. unfold add_subscriber. set (s1 := upd_clients _ s).
  destruct (hc_entry_ok ({[cl]} ∪ subscribed ut) s1 H) as (hc & -> & Hhc). by exists hc.
Qed.
Lemma tables_add_subscriber cl id p ut s c :
  tables s → by_id s !! id = Some ut → clients s !! cl = Some c → tables (add_subscriber cl id p ut s).
Proof.
  intros Hs Hid Hcl. destruct (core_add_subscriber cl id p ut s (t_hc _ Hs)) as (hc & Hhc & E).
  unfold tables. rewrite E. apply tables_hc; [|done].
  assert (Ha : alter (fun c => set_cl_subscribed (<[id := p]> (cl_subscribed c)) c) cl (clients s)
    = <[cl := set_cl_subscribed (<[id := p]> (cl_subscribed c)) c]> (clients s)).
  { apply map_eq. intros i. destruct (decide (cl = i)) as [<-|Hi].
    - by rewrite lookup_alter_eq, lookup_insert_eq, Hcl.
    - by rewrite lookup_alter_ne, lookup_insert_ne. }
  rewrite Ha. refine (tables_subs (core s) id ut _ _ Hs Hid _ _).
  - intros x. rewrite subscribes_insert, elem_of_union, elem_of_singleton. cbn. rewrite lookup_insert_eq.
    destruct (decide (x = cl)) as [->|Hx]; [by split; [eauto|left]|]. rewrite (t_subs _ Hs id ut x Hid). cbn. tauto.
  - intros x i Hi. rewrite subscribes_insert. cbn. rewrite lookup_insert_ne by done.
    destruct (decide (x = cl)) as [->|]; [|done]. cbn. unfold subscribes. rewrite Hcl.
    split; [by exists c|by intros (? & [= <-] & ?)].
Qed.

(** ** Unsubscribing *)

Definition unsubscribed_core (cl : ClId) (id : Id) (ut : Published) (hc : gmap (gset ClId) (gset ClId)) (k : Core) : Core :=
  with_hc hc (with_clients (alter (fun c => set_cl_subscribed (delete id (cl_subscribed c)) c) cl (k_clients k))
    (with_by_id (<[id := set_subscribed (subscribed ut ∖ {[cl]}) ut]> (k_by_id k)) k)).
Lemma unsubscribe_spec cl id ut s :
  (∀ e v, hc_subscribed s !! e = Some v → v = e) → by_id s !! id = Some ut →
  ∃ hc s1, (∀ e v, hc !! e = Some v → v = e) ∧ core s1 = unsubscribed_core cl id ut hc (core s) ∧
    (unsubscribe arc_shared cl id s = s1 ∨
     subscribed ut ∖ {[cl]} = ∅ ∧ unsubscribe arc_shared cl id s = destroy_val id s1).
Proof.
  intros Hhc Hid. unfold unsubscribe. rewrite Hid.
  destruct (hc_entry_ok (subscribed ut ∖ {[cl]}) s Hhc) as (hc & -> & Hhc').
  set (s1 := send_event _ _).
  set (hc' := if arc_shared (subscribed ut) then hc else delete (subscribed ut) hc).
  assert (E : core s1 = unsubscribed_core cl id ut hc' (core s)) by (unfold s1; by rewrite core_send_event).
  assert (Hok : ∀ e v, hc' !! e = Some v → v = e).
  { unfold hc'. case_match; [done|]. intros e v [_ ?]%lookup_delete_Some. by apply Hhc'. }
  destruct (bool_decide (subscribed ut ∖ {[cl]} = ∅)) eqn:Ee; cbn [andb].
  - apply bool_decide_eq_true in Ee. case_bool_decide.
    + exists hc', (upd_destroy_on_idle (fun d => d ∖ {[id]}) s1). split_and!; [done|done|by right].
    + exists hc', s1. split_and!; [done|done|by left].
  - exists hc', s1. split_and!; [done|done|by left].
Qed.
Lemma unsubscribe_none cl id s : by_id s !! id = None → unsubscribe arc_shared cl id s = s.
Proof. intros H. unfold unsubscribe. by rewrite H. Qed.

Lemma alter_forget (cls : gmap ClId Client) cl id x i :
  subscribes (alter (fun c => set_cl_subscribed (delete id (cl_subscribed c)) c) cl cls) x i ↔
  subscribes cls x i ∧ (x = cl → i ≠ id).
Proof.
  unfold subscribes. destruct (decide (cl = x)) as [->|Hne].
  - rewrite lookup_alter_eq. destruct (cls !! x) as [c|]; cbn; [|split; [by intros (? & ? & _)|by intros [(? & ? & _) _]]].
    split.
    + intros (c' & [= <-] & H). cbn in H. apply lookup_delete_is_Some in H as [Hn H]. split; [by exists c|congruence].
    + intros [(c' & [= <-] & H) Hn]. eexists. split; [done|]. cbn. apply lookup_delete_is_Some. split; [|done].
      intros ->. by apply Hn.
  - rewrite lookup_alter_ne by done. split; [intros H; split; [done|congruence]|by intros [H _]].
Qed.
Lemma tables_unsubscribed cl id ut hc k :
  tables_core k → k_by_id k !! id = Some ut → (∀ e v, hc !! e = Some v → v = e) →
  tables_core (unsubscribed_core cl id ut hc k).
Proof.
  intros Hk Hid Hhc. apply tables_hc; [|done]. refine (tables_subs k id ut _ _ Hk Hid _ _).
  - intros x. rewrite alter_forget, elem_of_difference, elem_of_singleton, (t_subs _ Hk id ut x Hid). naive_solver.
  - intros x i Hi. rewrite alter_forget. naive_solver.
Qed.
Lemma tables_unsubscribe cl id s : tables s → tables (unsubscribe arc_shared cl id s).
Proof.
  intros Hs. destruct (by_id s !! id) as [ut|] eqn:Hid; [|by rewrite unsubscribe_none].
  destruct (unsubscribe_spec cl id ut s (t_hc _ Hs) Hid) as (hc & s1 & Hhc & E & Hu).
  assert (H1 : tables s1) by (unfold tables; rewrite E; by apply tables_unsubscribed).
  destruct Hu as [->|[_ ->]]; [done|]. by apply tables_destroy.
Qed.
Lemma tables_hc_retain s : tables s → tables (hc_retain arc_shared s).
Proof.
  intros Hs. refine (tables_hc (core s) _ Hs _). intros e v [H _]%map_lookup_filter_Some. by apply (t_hc _ Hs).
Qed.

(** ** Losing a client *)

(** The tables with a client that is no longer there *)
Definition readd (cl : ClId) (c : Client) (k : Core) : Core := with_clients (<[cl := c]> (k_clients k)) k.
Lemma readd_destroy cl c id v k : readd cl c (destroy_core id v k) = destroy_core id v (readd cl c k).
Proof.
  unfold destroy_core. change (k_by_id (readd cl c k)) with (k_by_id k).
  assert (H : ∀ l k, readd cl c (foldl (fun k p => unpublish_core p k) k l) = foldl (fun k p => unpublish_core p k) (readd cl c k) l).
  { intros l. induction l as [|p l IH]; intros k'; [done|]. cbn. by rewrite IH. }
  change (with_by_id (delete id (k_by_id k)) (readd cl c k)) with (readd cl c (with_by_id (delete id (k_by_id k)) k)). rewrite <-H.
  by destruct (decide _).
Qed.
Lemma readd_unsubscribe cl id c s :
  clients s !! cl = None → tables_core (readd cl c (core s)) →
  clients (unsubscribe arc_shared cl id s) !! cl = None ∧
  tables_core (readd cl (set_cl_subscribed (delete id (cl_subscribed c)) c) (core (unsubscribe arc_shared cl id s))).
Proof.
  intros Hcl Hk. set (c' := set_cl_subscribed _ c).
  assert (Hins : ∀ m : gmap ClId Client, <[cl := c']> m = alter (fun c => set_cl_subscribed (delete id (cl_subscribed c)) c) cl (<[cl := c]> m))
    by (intros m; by rewrite alter_insert_eq).
  destruct (by_id s !! id) as [ut|] eqn:Hid.
  - destruct (unsubscribe_spec cl id ut s (t_hc _ Hk) Hid) as (hc & s1 & Hhc & E & Hu).
    assert (Hc1 : clients s1 = clients s).
    { change (k_clients (core s1) = clients s). rewrite E. by apply alter_id'. }
    assert (H1 : tables_core (readd cl c' (core s1))).
    { rewrite E. replace (readd cl c' _) with (unsubscribed_core cl id ut hc (readd cl c (core s))); [by apply tables_unsubscribed|].
      unfold unsubscribed_core, readd, with_hc, with_clients, with_by_id. cbn. f_equal. rewrite <-Hins. f_equal. symmetry.
      by apply alter_id'. }
    destruct Hu as [->|[_ ->]]; [by rewrite Hc1|].
    destruct (by_id s1 !! id) as [v|] eqn:Hv; [|rewrite destroy_none by done; by rewrite Hc1].
    rewrite (core_destroy id s1 v Hv), readd_destroy. split; [|by apply tables_destroy_core].
    change (k_clients (core (destroy_val id s1)) !! cl = None). rewrite (core_destroy id s1 v Hv).
    destruct (destroy_frame id v (core s1)) as (-> & _). cbn. by rewrite Hc1.
  - rewrite unsubscribe_none by done. split; [done|].
    change (tables_core (with_clients (<[cl := c']> (clients s)) (core s))). rewrite Hins.
    split; try apply Hk.
    + intros i v x Hv. cbn. rewrite alter_forget. rewrite (t_subs _ Hk i v x Hv). cbn.
      split; [|by intros [? _]]. intros ?. split; [done|]. intros _ ->. cbn in Hv. congruence.
    + intros i [H|(x & H)]; apply (t_fresh _ Hk); [by left|]. right. exists x. by apply alter_forget in H as [H _].
Qed.
Lemma readd_forget cl ids c s :
  clients s !! cl = None → tables_core (readd cl c (core s)) →
  let s' := foldl (fun s id => unsubscribe arc_shared cl id s) s ids in
  clients s' !! cl = None ∧
  tables_core (readd cl (set_cl_subscribed (foldl (fun m id => delete id m) (cl_subscribed c) ids) c) (core s')).
Proof.
  revert c s. induction ids as [|id ids IH]; intros c s Hcl Hk; cbn [foldl].
  - split; [done|]. by destruct c.
  - destruct (readd_unsubscribe cl id c s Hcl Hk) as [Hcl' Hk']. exact (IH _ _ Hcl' Hk').
Qed.
Lemma foldl_delete {A} (ids : list Id) (m : gmap Id A) i :
  foldl (fun m id => delete id m) m ids !! i = if decide (i ∈ ids) then None else m !! i.
Proof.
  revert m. induction ids as [|x ids IH]; intros m; cbn; [done|]. rewrite IH.
  destruct (decide (i ∈ ids)) as [Hi|Hi]; [by rewrite decide_True by (by right)|].
  destruct (decide (i = x)) as [->|Hx]; [by rewrite lookup_delete_eq, decide_True by (by left)|].
  rewrite lookup_delete_ne by done. rewrite decide_False; [done|]. rewrite elem_of_cons. tauto.
Qed.
Lemma tables_disconnect cl s : tables s → tables (disconnect arc_shared cl s) ∧ clients (disconnect arc_shared cl s) !! cl = None.
Proof.
  intros Hs. unfold disconnect. destruct (clients s !! cl) as [c|] eqn:Hcl; [|done].
  set (s1 := upd_clients _ s). assert (H1 : clients s1 !! cl = None) by apply lookup_delete_eq.
  assert (Hk : tables_core (readd cl c (core s1))).
  { unfold readd, s1. cbn. rewrite insert_delete_id by done. by destruct (core s). }
  destruct (readd_forget cl (id_order (dom (cl_subscribed c))) c s1 H1 Hk) as [H2 Hk']. cbn in H2, Hk'.
  set (s2 := foldl _ s1 _) in *. split; [|done]. apply tables_hc_retain.
  replace (core s2) with (with_clients (k_clients (core s2)) (readd cl (set_cl_subscribed (foldl (fun m id => delete id m) (cl_subscribed c)
    (id_order (dom (cl_subscribed c)))) c) (core s2))) by done.
  refine (tables_clients _ (clients s2) Hk' _). intros x i. cbn. rewrite subscribes_insert.
  destruct (decide (x = cl)) as [->|]; [|done]. cbn. rewrite foldl_delete. split; [intros H; by apply subscribes_none in H|].
  destruct (decide _) as [|Hi]; [by intros []|]. intros Hsome. exfalso. apply Hi.
  rewrite id_order_perm, elem_of_elements. by apply elem_of_dom.
Qed.
Lemma accept_fresh max next s cl next' s' : accept max next s = (Some cl, next', s') →
  s' = upd_clients <[cl := MkClient [] ∅ None]> s ∧ inner cl = next ∧ Z.of_nat (size (clients s)) < max.
Proof.
  unfold accept, atomic_id_new. case_match eqn:E; [|done]. intros [= <- <- <-]. split_and!; try done. lia.
Qed.
Lemma tables_accept cl s : tables s → clients s !! cl = None → tables (upd_clients <[cl := MkClient [] ∅ None]> s).
Proof.
  intros Hs Hcl. refine (tables_clients (core s) (<[cl := MkClient [] ∅ None]> (clients s)) Hs _). intros x i. rewrite subscribes_insert.
  destruct (decide (x = cl)) as [->|]; [|done]. cbn. rewrite lookup_empty.
  split; [by intros []|]. intros H. by apply subscribes_none in H.
Qed.
Lemma tables_alter f cl s : (∀ c, cl_subscribed (f c) = cl_subscribed c) → tables s → tables (upd_clients (alter f cl) s).
Proof. intros Hf Hs. refine (tables_clients (core s) (alter f cl (clients s)) Hs _). intros x i. by apply subscribes_alter. Qed.
Lemma tables_set_user secrets cl ifo s : tables s → tables (set_user secrets cl ifo s).
Proof. intros Hs. unfold set_user. repeat case_match; try done. by apply tables_alter. Qed.

(** ** Committing a batch *)

Lemma tables_commit_msg sb m : tables sb.1 → tables (commit_msg sb m).1.
Proof.
  intros Hs. unfold commit_msg, update_all. repeat case_match; try done; cbn [fst]; by apply (tables_set_current _ _ _ (core sb.1)).
Qed.
Lemma tables_commit_msgs l sb : tables sb.1 → tables (foldl commit_msg sb l).1.
Proof. revert sb. induction l as [|m l IH]; intros sb Hs; [done|]. apply IH. by apply tables_commit_msg. Qed.
Lemma tables_commit batch s : tables s → tables (commit batch s).2.
Proof.
  intros Hs. unfold commit. case_match; [done|].
  pose proof (tables_commit_msgs (b_updates batch) (s, ∅) Hs). by destruct (foldl _ _ _) as [s1 b].
Qed.
Lemma tables_send_update timeout cl u s : tables s → tables (send_update timeout cl u s).
Proof. by apply tables_alter. Qed.

(** ** The publish loop *)

Lemma tables_loop_take reply s : tables s → tables (loop_take reply s).2.
Proof.
  intros Hs. unfold loop_take, tables, core.
  cbn [snd clients hc_subscribed by_path by_id advertised to_publish to_publish_default to_unpublish to_unpublish_default
    to_unsubscribe defaults io upd_publish_triggered upd_to_unsubscribe upd_to_unpublish_default upd_to_unpublish
    upd_to_publish_default upd_to_publish].
  exact (tables_queue (core s) ∅ ∅ ∅ ∅ ∅ (defaults s) Hs).
Qed.
Lemma tables_loop_commit w s : tables s → tables (loop_commit w s).2.
Proof. intros Hs. unfold loop_commit. case_match; [done|by apply tables_commit]. Qed.
Lemma tables_loop_reply w s : tables s → tables (loop_reply w s).
Proof. intros Hs. unfold loop_reply. by case_match. Qed.
End Subs.
