(* ===== verification/PubTurn.v ===== *)
(** What a turn of a connection may do to the publisher, as a step relation, and that
    the handlers do nothing else. The steps say which subscriptions, writes and messages
    there can be and why; the theorems about runs of the publisher are proved of the
    steps. *)
From Stdlib Require Import ZArith Lia.
From stdpp Require Import base gmap list strings sorting relations.
From Stdlib Require Import Strings.Byte.
From S2P Require Import Prelude Varint Pack Containers PackTypes Path PathFacts Order Glob Derive Proto.
From S2P Require Import Store Permissions Channel Float Value ValuePack ValueOrd PubProto Publisher PubServer PubFacts PubSubs.

Section Turn.
Context {ES : Escaping} {LY : Layout} {VA : ValueApi} {CM : ChunkMap} {VC : ValueCmp} {SH : Sha3}.
Context {PO : PubOrder} {POK : PubOrderOk PO}.
Context (reg : Registry) (arc_shared : gset ClId → bool) (next_wid : WriteId).

(** The messages that carry the value of a subscription *)
Definition news (id : Id) (m : From) : option Value :=
  match m with
  | From_Subscribed _ i v | From_Update i v => if decide (i = id) then Some v else None
  | _ => None
  end.
Definition no_news (m : From) : Prop := ∀ id, news id m = None.

Definition loopv (s : PublisherInner) : bool * list (option Waiter) := (publish_triggered s, triggers (io s)).

(** A write that is on its way to the program *)
Definition has_req (x : ClientCtx) (r : WriteRequest) : Prop :=
  (∃ ch l tx, write_batches x !! ch = Some (l, tx) ∧ r ∈ l) ∨ (∃ tx l, BWSend tx l ∈ blocked_writes x ∧ r ∈ l).

(** [c'] differs from [c] in nothing that matters *)
Record quiet (c c' : Conn) : Prop := {
  q_core : core (pub c') = core (pub c);
  q_loop : loopv (pub c') = loopv (pub c);
  q_client : client (ctx c') = client (ctx c);
  q_auth : desired_auth (ctx c') = desired_auth (ctx c)
}.
Definition same_deferred (c c' : Conn) : Prop :=
  deferred_subs (ctx c') = deferred_subs (ctx c) ∧ deferred_subs_batch (ctx c') = deferred_subs_batch (ctx c).
Definition fewer_reqs (c c' : Conn) : Prop := ∀ r, has_req (ctx c') r → has_req (ctx c) r.
Definition on_clients (f : gmap ClId Client → gmap ClId Client) : Conn → Conn := on_pub (upd_clients f).
Definition append_con (l : list From) (c : Conn) : Conn := MkConn (pub c) (ctx c) (con c ++ l).

(** [ok] is false once the connection is about to end; [G path p] says that the peer was
    granted the permissions [p] on the path. *)
Inductive cstep (ok : bool) (G : str → Z → Prop) (c : Conn) : Conn → Prop :=
| c_quiet c' : quiet c c' → same_deferred c c' → fewer_reqs c c' → con c' = con c → cstep ok G c c'
| c_reply m : no_news m → sendable reg next_wid m = true → cstep ok G c (append_con [m] c)
| c_subscribe path p id ut c' :
    G path p → by_path (pub c) !! path = Some id → by_id (pub c) !! id = Some ut →
    quiet (on_pub (add_subscriber (client (ctx c)) id p ut) c) c' → same_deferred c c' → fewer_reqs c c' →
    con c' = con c ++ [From_Subscribed path id (current ut)] → cstep ok G c c'
| c_subscribe_lost path p id ut :
    ok = false → G path p → by_path (pub c) !! path = Some id → by_id (pub c) !! id = Some ut →
    cstep ok G c (on_pub (add_subscriber (client (ctx c)) id p ut) c)
| c_unsubscribe id : cstep ok G c (on_pub (unsubscribe arc_shared (client (ctx c)) id) c)
| c_retain : cstep ok G c (on_pub (hc_retain arc_shared) c)
| c_defer path p w c' :
    G path p → quiet c c' → deferred_subs (ctx c') = deferred_subs (ctx c) ++ [(path, p, w)] →
    deferred_subs_batch (ctx c') = deferred_subs_batch (ctx c) → fewer_reqs c c' → con c' = con c → cstep ok G c c'
| c_resume i path p w :
    deferred_subs (ctx c) !! i = Some (path, p, w) →
    cstep ok G c (on_ctx (fun x => set_deferred (delete i (deferred_subs x)) (deferred_subs_batch x ++ [(path, p)]) x) c)
| c_take_deferred : cstep ok G c (on_ctx (fun x => set_deferred (deferred_subs x) [] x) c)
| c_write id p cl c' :
    clients (pub c) !! client (ctx c) = Some cl → cl_subscribed cl !! id = Some p → Z.land p WRITE = WRITE →
    quiet c c' → same_deferred c c' → con c' = con c →
    (∀ r, has_req (ctx c') r → has_req (ctx c) r ∨ wr_id r = id ∧ wr_client r = client (ctx c)) → cstep ok G c c'
| c_pop u q subs usr l rest :
    clients (pub c) !! client (ctx c) = Some (MkClient (u :: q) subs usr) → updates u.2 = l ++ rest → (ok = true → rest = []) →
    cstep ok G c (append_con l (on_clients <[client (ctx c) := MkClient q subs usr]> c)).

Lemma cstep_weaken ok ok' G G' c c' :
  (ok' = true → ok = true) → (∀ path p, G path p → G' path p) → cstep ok G c c' → cstep ok' G' c c'.
Proof.
  intros Hok HG H. destruct H.
  - by apply c_quiet.
  - by apply c_reply.
  - eapply c_subscribe; eauto.
  - eapply c_subscribe_lost; eauto. subst ok. by destruct ok'; [discriminate Hok|].
  - apply c_unsubscribe.
  - apply c_retain.
  - eapply c_defer; eauto.
  - by eapply c_resume.
  - by eapply c_take_deferred.
  - eapply c_write; eauto.
  - eapply c_pop; eauto.
Qed.
Lemma csteps_weaken ok ok' G G' c c' :
  (ok' = true → ok = true) → (∀ path p, G path p → G' path p) → rtc (cstep ok G) c c' → rtc (cstep ok' G') c c'.
Proof. intros Hok HG. apply (rtc_congruence id). intros x y. by apply cstep_weaken. Qed.

(** A handler takes such steps *)
Definition outcome {A} (G : str → Z → Prop) (c : Conn) (o : res Closing A * Conn) : Prop :=
  match o with
  | (Ok _, c') => rtc (cstep true G) c c'
  | (Err _, c') => rtc (cstep false G) c c'
  | (Panic, _) => False
  end.
Lemma outcome_bind {A B} G (m : hnd A) (k : A → hnd B) c :
  outcome G c (m c) → (∀ a c', m c = (Ok a, c') → outcome G c' (k a c')) → outcome G c (hbind m k c).
Proof.
  unfold hbind. destruct (m c) as [[a|e|] c'] eqn:E; cbn; [|done..]. intros Hm Hk. specialize (Hk a c' eq_refl).
  destruct (k a c') as [[b|e|] c'']; cbn in *; [by trans c'| |done]. trans c'; [|done].
  revert Hm. by apply csteps_weaken.
Qed.
Lemma outcome_iter {A} G (f : A → hnd unit) l c :
  (∀ x c', x ∈ l → rtc (cstep true G) c c' → outcome G c' (f x c')) → outcome G c (hiter f l c).
Proof.
  revert c. induction l as [|x l IH]; intros c Hf; cbn [hiter]; [exact (rtc_refl _ _)|].
  assert (H1 : outcome G c (f x c)) by (apply Hf; [by left|done]). apply outcome_bind; [done|].
  intros a c' E. rewrite E in H1. apply IH. intros y c'' Hy Hc. apply Hf; [by right|]. by trans c'.
Qed.
Lemma outcome_then {A} G c c' (o : res Closing A * Conn) : cstep true G c c' → outcome G c' o → outcome G c o.
Proof.
  intros H. destruct o as [[a|e|] c'']; cbn; [by apply rtc_l| |done]. apply rtc_l.
  revert H. by apply cstep_weaken.
Qed.
Lemma outcome_step {A} G c c' (a : A) : cstep true G c c' → outcome G c (Ok a, c').
Proof. apply rtc_once. Qed.
Lemma outcome_refl {A} G c (a : A) : outcome G c (Ok a, c).
Proof. apply rtc_refl. Qed.
Lemma outcome_fail {A} G c e : outcome G c ((Err e, c) : res Closing A * Conn).
Proof. apply rtc_refl. Qed.
Lemma outcome_send G m c : no_news m → outcome G c (queue_send reg next_wid m c).
Proof.
  intros Hm. unfold queue_send. destruct (sendable reg next_wid m) eqn:E; [|apply outcome_fail].
  apply outcome_step. by apply (c_reply true G c m).
Qed.
Lemma quiet_refl c : quiet c c.
Proof. by split. Qed.

(** ** The handlers *)

Lemma ask_default_steps G bases path p c : G path p → outcome G c (ask_default reg next_wid bases path p c).
Proof.
  intros HG. revert c. induction bases as [|[base chan] bases IH]; intros c; cbn [ask_default]; [by apply outcome_send|].
  case_match; [|by apply outcome_send]. case_match; [apply IH|]. apply outcome_step. cbn.
  eapply (c_defer true G c path p); [done|by split|done|done|by intros r|done].
Qed.

Lemma subscribe_steps G path p c : G path p → outcome G c (subscribe reg next_wid path p c).
Proof.
  intros HG. unfold subscribe. destruct (by_path (pub c) !! path) as [id|] eqn:Hp; [|by apply ask_default_steps].
  destruct (by_id (pub c) !! id) as [ut|] eqn:Hid; [|apply outcome_refl].
  match goal with |- context [if negb ?a then _ else _] => destruct (negb a) end; [by apply outcome_send|].
  unfold hbind, queue_send. destruct (sendable _ _ _).
  - apply outcome_step. eapply (c_subscribe true G c path p id ut); [done..| |done|by intros r|done]. split; try done.
    + set (s := pub _). cbn. rewrite core_send_event. by case_match.
    + cbn. set (s := match _ with Some _ => _ | None => _ end).
      assert (Es : ∀ e, loopv (send_event e s) = loopv s) by (intros e; unfold send_event; by case_match).
      rewrite Es. unfold s. by case_match.
  - apply rtc_once. by apply (c_subscribe_lost false G c path p id ut).
Qed.

Lemma refuse_steps G r id wid m c : outcome G c (refuse_write reg next_wid r id wid m c).
Proof. unfold refuse_write. case_match; [by apply outcome_send|apply outcome_refl]. Qed.

(** Requests are filed under the channels of the value. *)
Lemma file_requests (req : WriteRequest) ow (wb : gmap ChanId (list WriteRequest * Chan)) ch l tx r :
  foldl (fun wb ch => let '(l, tx) := default ([], ch.2) (wb !! ch.1) in <[ch.1 := (l ++ [req], tx)]> wb) wb ow !! ch = Some (l, tx) →
  r ∈ l → (∃ l' tx', wb !! ch = Some (l', tx') ∧ r ∈ l') ∨ r = req.
Proof.
  revert wb. induction ow as [|o ow IH]; intros wb; cbn [foldl]; [intros H Hr; left; by eauto|].
  intros H Hr. destruct (IH _ H Hr) as [(l' & tx' & H' & Hr')|]; [|by right].
  destruct (wb !! o.1) as [[l0 tx0]|] eqn:E; cbn in H'.
  - destruct (decide (ch = o.1)) as [->|Hne]; [|rewrite lookup_insert_ne in H' by done; left; by eauto].
    rewrite lookup_insert_eq in H'. injection H' as <- <-. apply elem_of_app in Hr' as [Hr'| ->%list_elem_of_singleton]; [left|by right].
    by eauto.
  - destruct (decide (ch = o.1)) as [->|Hne]; [|rewrite lookup_insert_ne in H' by done; left; by eauto].
    rewrite lookup_insert_eq in H'. injection H' as <- <-. apply list_elem_of_singleton in Hr' as ->. by right.
Qed.

Lemma write_steps G id r v wid c : outcome G c (write reg next_wid id r v wid c).
Proof.
  unfold write. destruct (clients (pub c) !! client (ctx c)) as [cl|] eqn:Hcl; [|apply refuse_steps]. cbn [mbind option_bind].
  destruct (cl_subscribed cl !! id) as [p|] eqn:Hp; [|apply refuse_steps].
  destruct (Z.land p WRITE =? WRITE) eqn:Hw; cbn [negb]; [|apply refuse_steps]. apply Z.eqb_eq in Hw.
  destruct (on_write (pub c) !! id) as [ow|]; [|apply refuse_steps].
  case_bool_decide; [eapply outcome_then; [|apply refuse_steps]; apply c_quiet; [by split|done|by intros ?|done]|].
  set (ow' := filter _ ow). set (t := upd_on_write _ _).
  destruct (if r then _ else _) as [sr t'] eqn:Et.
  assert (Ht : core t' = core (pub c) ∧ loopv t' = loopv (pub c)) by (destruct r; by injection Et as <- <-).
  apply outcome_step. eapply (c_write true G c id p cl); [done..|by split; try apply Ht|done|done|].
  intros req [(ch & l & tx & Hch & Hreq)|(tx & l & Hin & Hreq)]; cbn in *; [|left; right; by eauto].
  destruct (by_id t' !! id) as [pbv|] eqn:Hpb; [|left; left; by eauto].
  destruct (file_requests _ _ _ _ _ _ _ Hch Hreq) as [(l' & tx' & H' & Hr')| ->]; [left; left; by eauto|]. by right.
Qed.

(** The permissions a batch of messages was granted *)
Definition granted (secrets : gmap SocketAddr u128) (auth : DesiredAuth) (now : Z) (batch : list To) (path : str) (p : Z) : Prop :=
  ∃ resolver ts perms token, To_Subscribe path resolver ts perms token ∈ batch ∧
  if decide (auth = DA_Anonymous) then p = all_permissions
  else ∃ secret, secrets !! resolver = Some secret ∧ check_token token now secret ts perms path = Ok (true, p).

Lemma cstep_ctx ok G c c' : cstep ok G c c' → client (ctx c') = client (ctx c) ∧ desired_auth (ctx c') = desired_auth (ctx c).
Proof.
  intros H; destruct H; repeat match goal with Hq : quiet _ _ |- _ => destruct Hq end; try done; by split.
Qed.
Lemma csteps_ctx ok G c c' : rtc (cstep ok G) c c' → client (ctx c') = client (ctx c) ∧ desired_auth (ctx c') = desired_auth (ctx c).
Proof.
  induction 1 as [|x y z H _ IH]; [done|]. destruct (cstep_ctx _ _ _ _ H) as [-> ->] in IH. done.
Qed.

Lemma handle_msg_steps secrets now batch m c :
  m ∈ batch → outcome (granted secrets (desired_auth (ctx c)) now batch) c (handle_msg reg arc_shared next_wid secrets now m c).
Proof.
  intros Hm. destruct m as [path resolver ts perms token|id|id r v wid]; cbn [handle_msg].
  - destruct (desired_auth (ctx c)).
    { apply subscribe_steps. by exists resolver, ts, perms, token. }
    all: destruct (secrets !! resolver) as [secret|] eqn:Hs; [|by apply outcome_send].
    all: destruct (check_token token now secret ts perms path) as [[[] p]|e|] eqn:Hc;
      [|by apply outcome_send|apply outcome_fail|exfalso; revert Hc; unfold check_token; by repeat case_match].
    all: apply subscribe_steps; exists resolver, ts, perms, token; (split; [done|]); by exists secret.
  - eapply outcome_then; [apply (c_unsubscribe _ _ _ id)|]. by apply outcome_send.
  - apply write_steps.
Qed.
Lemma handle_batch_steps secrets now batch c :
  outcome (granted secrets (desired_auth (ctx c)) now batch) c (handle_batch reg arc_shared next_wid secrets now batch c).
Proof.
  unfold handle_batch, handle_batch_inner. repeat apply outcome_bind.
  - apply outcome_iter. intros m c' Hm Hc. apply csteps_ctx in Hc as [_ <-]. by apply handle_msg_steps.
  - intros _ c1 _. apply outcome_bind.
    + apply outcome_step. case_match; [apply c_retain|]. apply c_quiet; [by split|done|by intros r|done].
    + intros _ c2 _. apply outcome_step. apply c_quiet; [by split|done| |done].
      intros r [H|H]; [left|right]; exact H.
  - intros _ c1 _. apply outcome_step. apply c_quiet; [by split|done| |done].
    intros r [(ch & l & tx & H & _)|(tx & l & H & Hr)]; cbn in *; [by rewrite lookup_empty in H|].
    rewrite !elem_of_app in H. destruct H as [H|[H|H]]; [right; by eauto| |].
    + apply list_elem_of_fmap in H as ([ch [l' tx']] & [= -> ->] & Hin%elem_of_map_to_list). left. by eauto.
    + by apply list_elem_of_fmap in H as (? & ? & _).
Qed.

Lemma handle_deferred_steps c :
  outcome (fun path p => (path, p) ∈ deferred_subs_batch (ctx c)) c (handle_deferred_sub reg next_wid None c).
Proof.
  cbn [handle_deferred_sub]. eapply outcome_then; [apply c_take_deferred|]. apply outcome_iter. intros [path p] c' Hin _. cbn [fst snd].
  case_bool_decide; [by apply outcome_send|by apply subscribe_steps].
Qed.

(** The updates of a batch are sent in order *)
Lemma send_all l c : ∃ l1 l2, l = l1 ++ l2 ∧
  (hiter (queue_send reg next_wid) l c = (Ok (), append_con l1 c) ∧ l2 = [] ∨
   hiter (queue_send reg next_wid) l c = (Err TooLarge, append_con l1 c)).
Proof.
  revert c. induction l as [|m l IH]; intros c; cbn [hiter].
  - exists [], []. split; [done|]. left. split; [|done]. unfold append_con. rewrite app_nil_r. by destruct c.
  - unfold hbind. unfold queue_send at 1 3. destruct (sendable reg next_wid m).
    + destruct (IH (append_con [m] c)) as (l1 & l2 & -> & H). exists (m :: l1), l2. split; [done|].
      assert (E : append_con l1 (append_con [m] c) = append_con (m :: l1) c) by (unfold append_con; cbn; by rewrite <-app_assoc).
      rewrite E in H. exact H.
    + exists [], (m :: l). split; [done|]. right. unfold append_con. rewrite app_nil_r. by destruct c.
Qed.
Lemma handle_updates_steps secrets now u q subs usr c :
  clients (pub c) !! client (ctx c) = Some (MkClient (u :: q) subs usr) →
  outcome (fun _ _ => False) c
    (handle_updates reg arc_shared next_wid secrets now u (on_clients <[client (ctx c) := MkClient q subs usr]> c)).
Proof.
  intros Hcl. unfold handle_updates. set (c0 := on_clients _ c).
  destruct (send_all (updates u.2) c0) as (l1 & l2 & E & [[Hs ->]|Hs]); unfold hbind at 1; rewrite Hs.
  - rewrite app_nil_r in E.
    assert (H1 : cstep true (fun _ _ => False) c (append_con l1 c0)) by (eapply (c_pop _ _ c u q subs usr l1 []); [done| |done]; by rewrite app_nil_r).
    eapply outcome_then; [exact H1|]. apply outcome_bind.
    + destruct (unsubscribes u.2) as [[|i l]|]; [apply outcome_refl| |apply outcome_refl].
      pose proof (handle_batch_steps secrets now (To_Unsubscribe <$> i :: l) (append_con l1 c0)) as H.
      assert (HG : ∀ path p, granted secrets (desired_auth (ctx (append_con l1 c0))) now (To_Unsubscribe <$> i :: l) path p → False).
      { intros path p (? & ? & ? & ? & (? & ? & _)%list_elem_of_fmap & _). done. }
      revert H. destruct (handle_batch _ _ _ _ _ _ _) as [[[]|e|] c']; cbn; [| |done]; apply csteps_weaken; [done|exact HG|done|exact HG].
    + intros _ c1 _. apply outcome_step. apply c_quiet; cbn; case_match; try done; by intros r.
  - apply rtc_once. by eapply (c_pop _ _ c u q subs usr l1 l2).
Qed.

(** ** A turn *)

Definition turn_grants (secrets : gmap SocketAddr u128) (now : Z) (r : Ready) (c : Conn) (path : str) (p : Z) : Prop :=
  match r with
  | RBatch batch => granted secrets (desired_auth (ctx c)) now batch path p
  | RDeferred _ true => (path, p) ∈ deferred_subs_batch (ctx c)
  | _ => False
  end.
Lemma fewer_unblock c i : fewer_reqs c (on_ctx (fun x => set_blocked (delete i (blocked_writes x)) x) c).
Proof.
  intros r [H|(tx & l & H & Hr)]; [left; exact H|right; exists tx, l; split; [|done]].
  cbn in H. apply list_elem_of_lookup in H as [j Hj]. apply list_elem_of_lookup.
  destruct (decide (j < i)%nat); [rewrite list_lookup_delete_lt in Hj by done; by eexists|].
  rewrite list_lookup_delete_ge in Hj by lia. by eexists.
Qed.
Lemma turn_steps secrets now r c fl o c' :
  turn reg arc_shared next_wid secrets now r c = (fl, o, c') →
  match r with
  | RFlushed => fl = con c ∧ o = Ok () ∧ quiet c c' ∧ same_deferred c c' ∧ fewer_reqs c c' ∧ con c' = []
  | _ => fl = [] ∧ outcome (turn_grants secrets now r c) c (o, c')
  end.
Proof.
  destruct r as [|elapsed|i last|batch|i|i v| |]; cbn [turn turn_grants].
  - intros [= <- <- <-].  split_and!; try done; first [by split|by intros r].
  - destruct (hbind _ _ c) as [o' c''] eqn:E. intros [= <- <- <-]. split; [done|]. rewrite <-E.
    apply outcome_bind; [case_match; [apply outcome_refl|by apply outcome_send]|]. intros _ c1 _.
    apply outcome_bind; [apply outcome_step; apply c_quiet; [by split|done|by intros r|done]|]. intros _ c2 _.
    repeat case_match; try apply outcome_refl; apply outcome_fail.
  - destruct last.
    + destruct (handle_deferred_sub _ _ None c) as [o' c''] eqn:E. intros [= <- <- <-]. split; [done|]. rewrite <-E.
      apply handle_deferred_steps.
    + destruct (deferred_subs (ctx c) !! i) as [[[path p] w]|] eqn:E; [|intros [= <- <- <-]; split; [done|apply outcome_refl]].
      intros [= <- <- <-]. split; [done|]. exact (rtc_once _ _ (c_resume true _ c i path p w E)).
  - destruct (blocked_writes (ctx c)); [|intros [= <- <- <-]; split; [done|apply outcome_refl]].
    destruct (handle_batch _ _ _ _ _ _ c) as [o' c''] eqn:E. intros [= <- <- <-]. split; [done|]. rewrite <-E. apply handle_batch_steps.
  - destruct (blocked_writes (ctx c) !! i) as [[]|] eqn:E; intros [= <- <- <-]; (split; [done|]);
      try apply outcome_refl. apply outcome_step, c_quiet; [by split|done|by apply fewer_unblock|done].
  - destruct (blocked_writes (ctx c) !! i) as [[|id wid w]|] eqn:E;
      [intros [= <- <- <-]; split; [done|apply outcome_refl]| |intros [= <- <- <-]; split; [done|apply outcome_refl]].
    destruct (hbind _ _ c) as [o' c''] eqn:Eh. intros [= <- <- <-]. split; [done|]. rewrite <-Eh.
    apply outcome_bind; [apply outcome_step, c_quiet; [by split|done|by apply fewer_unblock|done]|]. intros _ c1 _.
    apply outcome_bind; [by apply outcome_send|]. intros _ c2 _. apply outcome_step, c_quiet; [by split|done|by intros r|done].
  - case_bool_decide; [intros [= <- <- <-]; split; [done|apply outcome_refl]|].
    destruct (clients (pub c) !! client (ctx c)) as [[[|u q] subs usr]|] eqn:E; try (intros [= <- <- <-]; split; [done|apply outcome_refl]).
    destruct (handle_updates _ _ _ _ _ _ _) as [o' c''] eqn:Eh. intros [= <- <- <-]. split; [done|]. rewrite <-Eh.
    by apply (handle_updates_steps secrets now u q subs usr c).
  - intros [= <- <- <-]. split; [done|apply outcome_fail].
Qed.
End Turn.
