(* ===== verification/PubSystem.v ===== *)
(** The publisher as a whole: the program's calls, the connections, the commits under
    way and the publish loop, as a machine that takes one input at a time. An input that
    cannot happen in a state leaves it alone. The resolver is what it was told; a batch
    told to it is taken to succeed, the resolver client retries until it does. *)
From Stdlib Require Import ZArith Lia.
From stdpp Require Import base gmap list strings sorting relations.
From Stdlib Require Import Strings.Byte.
From S2P Require Import Prelude Varint Pack Containers PackTypes Path PathFacts Order Glob Derive Proto.
From S2P Require Import Store Permissions Channel Float Value ValuePack ValueOrd PubProto Publisher PubServer PubFacts PubSubs PubTurn.

Section System.
Context {ES : Escaping} {LY : Layout} {VA : ValueApi} {CM : ChunkMap} {VC : ValueCmp} {SH : Sha3}.
Context {PO : PubOrder}.
Context (reg : Registry) (arc_shared : gset ClId → bool) (next_wid : WriteId).
Context (secrets : gmap SocketAddr u128) (auth : DesiredAuth) (max_clients : Z).

Abbreviation outbox := (gmap ClId Update).

(** Where the publish loop is: waiting for a trigger, telling the resolver, sending the
    unsubscriptions *)
Inductive LoopState := Idle | Telling (w : Work) | Sending (w : Work) (b : outbox).

Record Sys := MkSys {
  sp : PublisherInner;
  greeting : gset ClId;
  conns : gmap ClId (ClientCtx * list From);
  sent : gmap ClId (list From);
  sending : list (option Duration * outbox);
  told : gset str;
  told_default : gset str;
  loop : LoopState;
  next_cl : Z
}.
Definition sys_new : Sys := MkSys publisher_new ∅ ∅ ∅ [] ∅ ∅ Idle 0.

Definition set_sp (s : PublisherInner) (y : Sys) : Sys :=
  MkSys s (greeting y) (conns y) (sent y) (sending y) (told y) (told_default y) (loop y) (next_cl y).
Definition set_conns (g : gset ClId) (m : gmap ClId (ClientCtx * list From)) (y : Sys) : Sys :=
  MkSys (sp y) g m (sent y) (sending y) (told y) (told_default y) (loop y) (next_cl y).
Definition set_sent (m : gmap ClId (list From)) (y : Sys) : Sys :=
  MkSys (sp y) (greeting y) (conns y) m (sending y) (told y) (told_default y) (loop y) (next_cl y).
Definition set_sending (l : list (option Duration * outbox)) (y : Sys) : Sys :=
  MkSys (sp y) (greeting y) (conns y) (sent y) l (told y) (told_default y) (loop y) (next_cl y).
Definition set_told (t : gset str) (d : gset str) (y : Sys) : Sys :=
  MkSys (sp y) (greeting y) (conns y) (sent y) (sending y) t d (loop y) (next_cl y).
Definition set_loop (l : LoopState) (y : Sys) : Sys :=
  MkSys (sp y) (greeting y) (conns y) (sent y) (sending y) (told y) (told_default y) l (next_cl y).
Definition set_next_cl (n : Z) (y : Sys) : Sys :=
  MkSys (sp y) (greeting y) (conns y) (sent y) (sending y) (told y) (told_default y) (loop y) n.

(** What the program does through [Publisher], [Val] and [DefaultHandle] while the
    publisher is up. [shutdown] is not among it: it ends the run, and what it leaves behind
    is stated of the state a run has reached. *)
Inductive AppOp :=
| APublish (flags : Z) (path : str) (init : Value) (tx : option Chan)
| AAlias (id : Id) (flags : Z) (path : str)
| ARemoveAlias (id : Id) (path : str)
| ARemoveAllAliases (id : Id)
| ADestroy (id : Id)
| APublishDefault (flags : Z) (base : str) (tx : Chan)
| AAdvertise (base : str) (flags : Z) (path : str)
| ARemoveAdvertisement (base : str) (path : str)
| ADropDefault (base : str)
| AWrites (id : Id) (tx : Chan)
| AStopWrites (id : Id)
| AEvents (tx : Chan)
| AEventsForId (id : Id) (tx : Chan)
| AWaitClient (id : Id)
| AWaitAnyClient
| AFlushed
| AClose (ch : Chan)
| AExtendedAuth (f : option (ClId → Id → option UserInfo → bool)).
Definition app (op : AppOp) (s : PublisherInner) : PublisherInner :=
  match op with
  | APublish flags path init tx => (publish_with_flags_and_writes flags path init tx s).2
  | AAlias id flags path => (alias_with_flags id flags path s).2
  | ARemoveAlias id path => remove_alias id path s
  | ARemoveAllAliases id => remove_all_aliases id s
  | ADestroy id => destroy_val id s
  | APublishDefault flags base tx => (publish_default_with_flags flags base tx s).2
  | AAdvertise base flags path => (advertise_with_flags base flags path s).2
  | ARemoveAdvertisement base path => remove_advertisement base path s
  | ADropDefault base => drop_default base s
  | AWrites id tx => inner_writes id tx s
  | AStopWrites id => stop_writes id s
  | AEvents tx => add_events tx s
  | AEventsForId id tx => events_for_id id tx s
  | AWaitClient id => (wait_client id s).2
  | AWaitAnyClient => (pub_wait_any_client s).2
  | AFlushed => (flushed s).2
  | AClose ch => upd_io (io_closed (union {[ch]})) s
  | AExtendedAuth f => set_extended_authorization f s
  end.

Inductive Input :=
| IApp (op : AppOp)
| ICommit (timeout : option Duration) (batch : UpdateBatch)
| IDeliver (i : nat) (cl : ClId)
| IAccept
| IHello (cl : ClId) (g : option Greeting)
| ITurn (cl : ClId) (now : Z) (r : Ready)
| ILoopTake
| ILoopTell
| ILoopCommit
| ILoopDeliver (cl : ClId)
| ILoopEnd.

(** The end of the task of a connection *)
Definition lose (cl : ClId) (s : PublisherInner) (y : Sys) : Sys :=
  set_sp (disconnect arc_shared cl s) (set_conns (greeting y ∖ {[cl]}) (delete cl (conns y)) y).
Definition tell (t : Told) (y : Sys) : Sys :=
  match t with
  | TPublish m => set_told (told y ∪ dom m) (told_default y) y
  | TPublishDefault m => set_told (told y) (told_default y ∪ dom m) y
  | TUnpublish s => set_told (told y ∖ s) (told_default y) y
  | TUnpublishDefault s => set_told (told y) (told_default y ∖ s) y
  end.

Definition sys_step (y : Sys) (i : Input) : Sys :=
  match i with
  | IApp op => set_sp (app op (sp y)) y
  | ICommit timeout batch =>
      let '(b, s) := commit batch (sp y) in set_sending (sending y ++ [(timeout, b)]) (set_sp s y)
  | IDeliver i cl =>
      match sending y !! i with
      | None => y
      | Some (timeout, b) =>
          match b !! cl with
          | None => y
          | Some u => set_sending (<[i := (timeout, delete cl b)]> (sending y)) (set_sp (send_update timeout cl u (sp y)) y)
          end
      end
  | IAccept =>
      let '(cl, next, s) := accept max_clients (next_cl y) (sp y) in
      let y := set_next_cl next (set_sp s y) in
      match cl with Some cl => set_conns ({[cl]} ∪ greeting y) (conns y) y | None => y end
  | IHello cl g =>
      if decide (cl ∈ greeting y) then
        match g with
        | None => lose cl (sp y) y
        | Some g =>
            let '(_, o, c) := hello secrets g (MkConn (sp y) (ClientCtx_new cl auth) []) in
            match o with
            | Ok _ => set_sp (pub c) (set_conns (greeting y ∖ {[cl]}) (<[cl := (ctx c, con c)]> (conns y)) y)
            | _ => lose cl (pub c) y
            end
        end
      else y
  | ITurn cl now r =>
      match conns y !! cl with
      | None => y
      | Some (x, q) =>
          let '(fl, o, c) := turn reg arc_shared next_wid secrets now r (MkConn (sp y) x q) in
          let y := set_sent (<[cl := default [] (sent y !! cl) ++ fl]> (sent y)) y in
          match o with
          | Ok _ => set_sp (pub c) (set_conns (greeting y) (<[cl := (ctx c, con c)]> (conns y)) y)
          | _ => lose cl (pub c) y
          end
      end
  | ILoopTake =>
      match loop y, triggers (io (sp y)) with
      | Idle, reply :: rest =>
          let '(w, s) := loop_take reply (upd_io (io_triggers (fun _ => rest)) (sp y)) in
          set_loop (Telling w) (set_sp s y)
      | _, _ => y
      end
  | ILoopTell =>
      match loop y with
      | Telling (MkWork (t :: l) u r) => set_loop (Telling (MkWork l u r)) (tell t y)
      | _ => y
      end
  | ILoopCommit =>
      match loop y with
      | Telling (MkWork [] u r) =>
          let '(b, s) := loop_commit (MkWork [] u r) (sp y) in set_loop (Sending (MkWork [] u r) b) (set_sp s y)
      | _ => y
      end
  | ILoopDeliver cl =>
      match loop y with
      | Sending w b =>
          match b !! cl with
          | None => y
          | Some u => set_loop (Sending w (delete cl b)) (set_sp (send_update None cl u (sp y)) y)
          end
      | _ => y
      end
  | ILoopEnd =>
      match loop y with
      | Sending w b => if decide (b = ∅) then set_loop Idle (set_sp (loop_reply w (sp y)) y) else y
      | _ => y
      end
  end.
Definition sys_run (y : Sys) (l : list Input) : Sys := foldl sys_step y l.
End System.
