(* ===== verification/PubInv.v ===== *)
(** The publisher's tables are consistent in every state a run reaches. *)
From Stdlib Require Import ZArith Lia.
From stdpp Require Import base gmap list strings sorting relations.
From Stdlib Require Import Strings.Byte.
From S2P Require Import Prelude Varint Pack Containers PackTypes Path PathFacts Order Glob Derive Proto.
From S2P Require Import Store Permissions Channel Float Value ValuePack ValueOrd PubProto Publisher PubServer PubFacts PubSubs PubTurn PubSystem.

Section Inv.
Context {ES : Escaping} {LY : Layout} {VA : ValueApi} {CM : ChunkMap} {VC : ValueCmp} {SH : Sha3}.
Context {PO : PubOrder} {POK : PubOrderOk PO}.
Context (reg : Registry) (arc_shared : gset ClId → bool) (next_wid : WriteId).
Context (secrets : gmap SocketAddr u128) (auth : DesiredAuth) (max_clients : Z).

Abbreviation step := (sys_step reg arc_shared next_wid secrets auth max_clients).
Abbreviation run := (sys_run reg arc_shared next_wid secrets auth max_clients).

(** ** Turns *)

Lemma dom_clients_core s s' : core s' = core s → clients s' = clients s.
Proof. intros E. exact (f_equal k_clients E). Qed.
Lemma add_subscriber_dom cl id p ut s : dom (clients (add_subscriber cl id p ut s)) = dom (clients s).
Proof. unfold add_subscriber, hc_entry. destruct (hc_subscribed _ !! _); cbn; apply dom_alter_L. Qed.
Lemma add_subscriber_next cl id p ut s : next_id (io (add_subscriber cl id p ut s)) = next_id (io s).
Proof. unfold add_subscriber, hc_entry. by destruct (hc_subscribed _ !! _). Qed.
Lemma destroy_val_frame id s :
  clients (destroy_val id s) = clients s ∧ next_id (io (destroy_val id s)) = next_id (io s) ∧
  advertised (destroy_val id s) = advertised s ∧ to_publish_default (destroy_val id s) = to_publish_default s ∧
  to_unpublish_default (destroy_val id s) = to_unpublish_default s ∧ defaults (destroy_val id s) = defaults s.
Proof.
  destruct (by_id s !! id) as [v|] eqn:Hv; [|by rewrite destroy_none].
  pose proof (core_destroy id s v Hv) as E. destruct (destroy_frame id v (core s)) as (H1 & _ & _ & H4 & H5 & H6 & H7 & H8 & _).
  rewrite <-E in *. done.
Qed.
Lemma unsubscribe_frame cl id s : (∀ e v, hc_subscribed s !! e = Some v → v = e) →
  let s' := unsubscribe arc_shared cl id s in
  dom (clients s') = dom (clients s) ∧ next_id (io s') = next_id (io s) ∧ advertised s' = advertised s ∧
  to_publish_default s' = to_publish_default s ∧ to_unpublish_default s' = to_unpublish_default s ∧ defaults s' = defaults s.
Proof.
  intros Hhc. cbn. destruct (by_id s !! id) as [ut|] eqn:Hid; [|by rewrite unsubscribe_none].
  destruct (unsubscribe_spec arc_shared cl id ut s Hhc Hid) as (hc & s1 & _ & E & Hu).
  assert (H1 : dom (clients s1) = dom (clients s)).
  { change (dom (k_clients (core s1)) = dom (clients s)). rewrite E. cbn. apply dom_alter_L. }
  assert (H2 : next_id (io s1) = next_id (io s) ∧ advertised s1 = advertised s ∧ to_publish_default s1 = to_publish_default s ∧
    to_unpublish_default s1 = to_unpublish_default s ∧ defaults s1 = defaults s).
  { split_and!; [exact (f_equal k_next E)|exact (f_equal k_adv E)|exact (f_equal k_pubd E)|exact (f_equal k_unpubd E)|exact (f_equal k_default E)]. }
  destruct Hu as [->|[_ ->]]; [done|].
  destruct (destroy_val_frame id s1) as (-> & -> & -> & -> & -> & ->). done.
Qed.

(** What holds of a connection that works on the tables *)
Record conn_ok (c : Conn) : Prop := {
  co_tables : tables (pub c);
  co_client : client (ctx c) ∈ dom (clients (pub c))
}.
Lemma cstep_ok ok G c c' : conn_ok c → cstep reg arc_shared next_wid ok G c c' →
  conn_ok c' ∧ dom (clients (pub c')) = dom (clients (pub c)) ∧ next_id (io (pub c')) = next_id (io (pub c)).
Proof.
  intros [Ht Hcl] Hs.
  enough (H : tables (pub c') ∧ dom (clients (pub c')) = dom (clients (pub c)) ∧ next_id (io (pub c')) = next_id (io (pub c))).
  { destruct H as (H1 & H2 & H3). split_and!; try done. split; [done|].
    destruct (cstep_ctx _ _ _ _ _ _ _ Hs) as [-> _]. by rewrite H2. }
  assert (Hq : ∀ s s', core s' = core s → tables s → tables s' ∧ dom (clients s') = dom (clients s) ∧ next_id (io s') = next_id (io s)).
  { intros s s' E H. split_and!; [by apply (tables_ext s)|by rewrite (dom_clients_core s s')|exact (f_equal k_next E)]. }
  destruct Hs as [c' [E _ _ _]|m|path p id ut c' _ Hp Hid [E _ _ _]|path p id ut _ _ Hp Hid|id| |path p w c' _ [E _ _ _]|i path p w| |
    id p cl c' _ _ _ [E _ _ _]|u q subs usr l rest Hq']; try by apply Hq.
  1,2: apply elem_of_dom in Hcl as [cl Hcl];
    pose proof (tables_add_subscriber (client (ctx c)) id p ut (pub c) cl Ht Hid Hcl) as Ha.
  - destruct (Hq _ _ E Ha) as (Ht' & -> & ->). split_and!; [done|apply add_subscriber_dom|apply add_subscriber_next].
  - split_and!; [done|apply add_subscriber_dom|apply add_subscriber_next].
  - destruct (unsubscribe_frame (client (ctx c)) id (pub c) (t_hc _ Ht)) as (H1 & H2 & _). cbn [pub on_pub]. split_and!; try done.
    by apply tables_unsubscribe.
  - split_and!; try done. by apply tables_hc_retain.
  - cbn [pub on_pub append_con on_clients]. split_and!; [|cbn; rewrite dom_insert_L; set_solver|done].
    set (s' := upd_clients _ _).
    assert (Es : s' = upd_clients (alter (fun c => MkClient q (cl_subscribed c) usr) (client (ctx c))) (pub c)).
    { unfold s'. unfold upd_clients. f_equal. apply map_eq. intros j. destruct (decide (client (ctx c) = j)) as [<-|Hj].
      - rewrite lookup_insert_eq, lookup_alter_eq. rewrite Hq'. done.
      - by rewrite lookup_insert_ne, lookup_alter_ne. }
    rewrite Es. by apply tables_alter.
Qed.
Lemma csteps_ok ok G c c' : conn_ok c → rtc (cstep reg arc_shared next_wid ok G) c c' →
  conn_ok c' ∧ dom (clients (pub c')) = dom (clients (pub c)) ∧ next_id (io (pub c')) = next_id (io (pub c)).
Proof.
  intros Hc H. revert Hc. induction H as [|x y z H _ IH]; intros Hc; [done|].
  destruct (cstep_ok _ _ _ _ Hc H) as (H1 & H2 & H3). destruct (IH H1) as (H4 & H5 & H6). split_and!; congruence || done.
Qed.
Lemma turn_ok now r c fl o c' : conn_ok c → turn reg arc_shared next_wid secrets now r c = (fl, o, c') →
  conn_ok c' ∧ dom (clients (pub c')) = dom (clients (pub c)) ∧ next_id (io (pub c')) = next_id (io (pub c)) ∧
  client (ctx c') = client (ctx c) ∧ desired_auth (ctx c') = desired_auth (ctx c).
Proof.
  intros Hc Ht. apply turn_steps in Ht.
  assert (Hrun : ∀ G, outcome reg arc_shared next_wid G c (o, c') → ∃ ok, rtc (cstep reg arc_shared next_wid ok G) c c').
  { intros G. destruct o; cbn; [by exists true|by exists false|done]. }
  assert (Hs : (∃ ok G, rtc (cstep reg arc_shared next_wid ok G) c c') ∨ quiet c c').
  { destruct r; [right; apply Ht|left; destruct Ht as [_ [ok Ht]%Hrun]; by eauto..]. }
  destruct Hs as [(ok & G & Hs)|[E _ E3 E4]].
  - destruct (csteps_ok _ _ _ _ Hc Hs) as (H1 & H2 & H3). destruct (csteps_ctx _ _ _ _ _ _ _ Hs). done.
  - destruct Hc as [H1 H2]. rewrite E3, E4. pose proof (dom_clients_core _ _ E) as Ec. rewrite Ec. split_and!; try done.
    + split; [by apply (tables_ext (pub c))|by rewrite E3, Ec].
    + exact (f_equal k_next E).
Qed.

(** ** Runs *)

Record sys_inv (n : nat) (y : Sys) : Prop := {
  i_tables : tables (sp y);
  i_clients : dom (clients (sp y)) = greeting y ∪ dom (conns y);
  i_apart : greeting y ## dom (conns y);
  i_conn cl x q : conns y !! cl = Some (x, q) → client x = cl ∧ desired_auth x = auth;
  i_next : 0 ≤ next_id (io (sp y)) ≤ Z.of_nat n;
  i_cl cl : cl ∈ dom (clients (sp y)) → inner cl < next_cl y;
  i_next_cl : 0 ≤ next_cl y ≤ Z.of_nat n
}.
Lemma sys_inv_new : sys_inv 0 sys_new.
Proof.
  split; try done. apply tables_new.
Qed.

(** A step that keeps the clients *)
Lemma sys_inv_sp n y s : sys_inv n y → tables s → dom (clients s) = dom (clients (sp y)) →
  0 ≤ next_id (io s) ≤ Z.of_nat n → sys_inv n (set_sp s y).
Proof. intros [] Ht Hc Hn. split; cbn; try done; by rewrite Hc. Qed.
Lemma sys_inv_more n y : sys_inv n y → sys_inv (S n) y.
Proof. intros []. split; try done; lia. Qed.

Lemma tables_app op s : tables s → 0 ≤ next_id (io s) → next_id (io s) + 1 < 2 ^ 64 → tables (app op s).
Proof.
  intros Hs H0 H1. destruct op; cbn [app].
  - by apply tables_publish.
  - by apply tables_alias.
  - by apply tables_remove_alias.
  - by apply tables_remove_all_aliases.
  - by apply tables_destroy.
  - by apply tables_publish_default.
  - by apply tables_advertise.
  - by apply tables_remove_advertisement.
  - by apply tables_drop_default.
  - apply (tables_ext s); [apply core_writes|done].
  - done.
  - done.
  - done.
  - apply (tables_ext s); [|done]. unfold wait_client.
    destruct (by_id s !! id) as [ut|]; [|done]. by destruct (decide (subscribed ut = ∅)).
  - apply (tables_ext s); [|done]. unfold pub_wait_any_client. by case_match.
  - done.
  - done.
  - done.
Qed.

(** The program's calls do not touch the clients. *)
Definition same_clients (s s' : PublisherInner) : Prop := clients s' = clients s ∧ next_id (io s') = next_id (io s).
Lemma same_clients_core s s' : core s' = core s → same_clients s s'.
Proof. intros E. split; [exact (f_equal k_clients E)|exact (f_equal k_next E)]. Qed.
Lemma same_clients_trigger s s' : same_clients s s' → same_clients s (trigger_publish s').
Proof. intros [E1 E2]. destruct (same_clients_core _ _ (core_trigger s')) as [E3 E4]. split; congruence. Qed.
Lemma same_clients_unpublish p s s' : same_clients s s' → same_clients s (inner_unpublish p s').
Proof.
  intros [E1 E2]. pose proof (core_unpublish p s') as E. pose proof (f_equal k_clients E) as E3. pose proof (f_equal k_next E) as E4.
  cbn in E3, E4. split; congruence.
Qed.
Lemma same_clients_unpublish_all l s s' : same_clients s s' → same_clients s (foldl (fun s p => inner_unpublish p s) s' l).
Proof. revert s'. induction l as [|p l IH]; intros s' H; [done|]. apply IH. by apply same_clients_unpublish. Qed.
Lemma app_frame op s : tables s → 0 ≤ next_id (io s) → next_id (io s) + 1 < 2 ^ 64 →
  clients (app op s) = clients s ∧ next_id (io s) ≤ next_id (io (app op s)) ≤ next_id (io s) + 1.
Proof.
  intros Hs H0 H1.
  assert (Hsame : ∀ s', same_clients s s' → clients s' = clients s ∧ next_id (io s) ≤ next_id (io s') ≤ next_id (io s) + 1).
  { intros s' [-> ->]. split; [done|lia]. }
  destruct op as [flags path init tx|id flags path|id path|id|id|flags base tx|base flags path|base path|base| | | | |id| | | |]; cbn [app];
    try (apply Hsame; done).
  - destruct (publish_with_flags_and_writes flags path init tx s) as [[id|e|] s'] eqn:Hp; cbn.
    + destruct (publish_spec _ _ _ _ _ _ _ Hp Hs H0 H1) as (_ & _ & _ & _ & hc & _ & E).
      pose proof (f_equal k_clients E) as E1. pose proof (f_equal k_next E) as E2. cbn in E1, E2. rewrite E1, E2. split; [done|lia].
    + rewrite (publish_err _ _ _ _ _ _ _ Hp), wrap_small by (unfold in_u; lia). cbn. split; [done|lia].
    + pose proof (publish_no_panic flags path init tx s). by rewrite Hp in *.
  - apply Hsame. unfold alias_with_flags. case_bool_decide; [done|]. destruct (check_publish s path); try done.
    pose proof (core_publish id (flags_remove flags DESTROY_ON_IDLE) path s) as E.
    assert (Hi : same_clients s (inner_publish id (flags_remove flags DESTROY_ON_IDLE) path s)).
    { split; [exact (f_equal k_clients E)|exact (f_equal k_next E)]. }
    by destruct (by_id (inner_publish _ _ _ _) !! id).
  - apply Hsame. unfold remove_alias. destruct (by_id s !! id) as [v|]; [|done]. destruct (aliases v) as [al|]; [|done].
    destruct (decide _); [|done]. by apply same_clients_unpublish.
  - apply Hsame. unfold remove_all_aliases. destruct (by_id s !! id) as [v|]; [|done]. destruct (aliases v) as [al|]; [|done].
    by apply same_clients_unpublish_all.
  - apply Hsame. destruct (destroy_val_frame id s) as (? & ? & _). done.
  - apply Hsame. unfold publish_default_with_flags. repeat (case_match; [done|]). by apply same_clients_trigger.
  - apply Hsame. unfold advertise_with_flags. case_match; [done|]. case_match; [|done]. by apply same_clients_trigger.
  - apply Hsame. unfold remove_advertisement. destruct (advertised s !! base); [|done]. case_match; [|done]. by apply same_clients_trigger.
  - apply Hsame. unfold drop_default. apply same_clients_trigger. set (s1 := upd_to_unpublish_default _ _).
    destruct (advertised s1 !! base) as [paths|]; [|done].
    assert (Hf : ∀ l s2, same_clients s s2 → same_clients s (foldl (fun s path => if bool_decide (by_path s !! path = None)
      then upd_to_unpublish (union {[path]}) (upd_to_publish (delete path) s) else s) s2 l)).
    { intros l. induction l as [|p l IH]; intros s2 H2; [done|]. cbn. apply IH. by case_match. }
    by apply Hf.
  - apply Hsame. apply same_clients_core, core_writes.
  - apply Hsame. unfold wait_client. destruct (by_id s !! id) as [ut|]; [|done]. by destruct (decide (subscribed ut = ∅)).
  - apply Hsame. unfold pub_wait_any_client. by case_match.
Qed.
Lemma commit_frame batch s : core (commit batch s).2 = with_by_id (by_id (commit batch s).2) (core s).
Proof.
  unfold commit. case_match; [done|].
  assert (Hl : ∀ l (sb : PublisherInner * gmap ClId Update), core (foldl commit_msg sb l).1 = with_by_id (by_id (foldl commit_msg sb l).1) (core sb.1)).
  { intros l. induction l as [|m l IH]; intros sb; [done|]. cbn [foldl]. rewrite IH.
    assert (Em : core (commit_msg sb m).1 = with_by_id (by_id (commit_msg sb m).1) (core sb.1))
      by (unfold commit_msg, update_all; by repeat case_match).
    by rewrite Em. }
  specialize (Hl (b_updates batch) (s, ∅)). by destruct (foldl _ _ _).
Qed.

Lemma disconnect_frame cl s : tables s → cl ∈ dom (clients s) →
  dom (clients (disconnect arc_shared cl s)) = dom (clients s) ∖ {[cl]} ∧ next_id (io (disconnect arc_shared cl s)) = next_id (io s).
Proof.
  intros Ht [c Hc]%elem_of_dom. unfold disconnect. rewrite Hc.
  set (s1 := upd_clients (delete cl) s). assert (H1 : clients s1 !! cl = None) by apply lookup_delete_eq.
  assert (Hk : tables_core (readd cl c (core s1))).
  { unfold readd, s1. cbn. rewrite insert_delete_id by done. by destruct (core s). }
  assert (Hd : dom (clients s1) = dom (clients s) ∖ {[cl]}) by apply dom_delete_L.
  rewrite <-Hd. change (next_id (io s)) with (next_id (io s1)). generalize (id_order (dom (cl_subscribed c))). clearbody s1. clear Hc Hd.
  intros l. revert s1 c H1 Hk. induction l as [|id l IH]; intros s1 c H1 Hk; [done|]. cbn [foldl].
  destruct (readd_unsubscribe arc_shared cl id c s1 H1 Hk) as [H2 Hk'].
  destruct (unsubscribe_frame cl id s1 (t_hc _ Hk)) as (E1 & E2 & _). rewrite <-E1, <-E2. by apply (IH _ _ H2 Hk').
Qed.
Lemma turned_inv n y cl x q s x' q' : sys_inv n y → conns y !! cl = Some (x, q) → tables s →
  dom (clients s) = dom (clients (sp y)) → next_id (io s) = next_id (io (sp y)) → client x' = cl → desired_auth x' = auth →
  sys_inv n (set_sp s (set_conns (greeting y) (<[cl := (x', q')]> (conns y)) y)).
Proof.
  intros [_ Hc Ha Hx Hi Hl Hnc] Hcl Ht Hd Hn E1 E2.
  assert (Hdom : dom (<[cl := (x', q')]> (conns y)) = dom (conns y)).
  { rewrite dom_insert_L. apply elem_of_dom_2 in Hcl. set_solver. }
  split; cbn; try done.
  - by rewrite Hdom, Hd.
  - by rewrite Hdom.
  - intros c z r. destruct (decide (c = cl)) as [->|Hne]; [rewrite lookup_insert_eq; by intros [= <- <-]|].
    rewrite lookup_insert_ne by done. apply Hx.
  - by rewrite Hn.
  - by rewrite Hd.
Qed.
Lemma greet_inv n y cl s x q : sys_inv n y → cl ∈ greeting y → tables s →
  dom (clients s) = dom (clients (sp y)) → next_id (io s) = next_id (io (sp y)) → x = ClientCtx_new cl auth →
  sys_inv n (set_sp s (set_conns (greeting y ∖ {[cl]}) (<[cl := (x, q)]> (conns y)) y)).
Proof.
  intros [_ Hc Ha Hx Hi Hl Hnc] Hcl Ht Hd Hn ->. split; cbn; try done.
  - rewrite Hd, Hc, dom_insert_L. apply set_eq. intros c. rewrite !elem_of_union, elem_of_difference, elem_of_singleton.
    destruct (decide (c = cl)) as [->|]; naive_solver.
  - rewrite dom_insert_L. set_solver.
  - intros c z r. destruct (decide (c = cl)) as [->|Hne]; [rewrite lookup_insert_eq; by intros [= <- <-]|].
    rewrite lookup_insert_ne by done. apply Hx.
  - by rewrite Hn.
  - by rewrite Hd.
Qed.
Lemma accept_inv n y : sys_inv n y → Z.of_nat n + 1 < 2 ^ 64 → sys_inv (S n) (step y IAccept).
Proof.
  intros Hy Hn. pose proof (sys_inv_more n y Hy) as Hm. cbn [sys_step].
  destruct (accept max_clients (next_cl y) (sp y)) as [[o next] s] eqn:E.
  assert (Enext : next = next_cl y + 1).
  { unfold accept, atomic_id_new in E. destruct Hy. case_match; injection E as <- <- <-; rewrite wrap_small by (unfold in_u; lia); done. }
  destruct o as [cl|].
  - destruct (accept_fresh _ _ _ _ _ _ E) as (-> & Hin & _).
    assert (Hno : cl ∉ dom (clients (sp y))) by (intros H; pose proof (i_cl _ _ Hy cl H); lia).
    destruct Hy as [Ht Hc Ha Hx Hi Hl Hnc]. split; cbn; try done.
    + apply tables_accept; [done|]. by apply not_elem_of_dom.
    + rewrite dom_insert_L, Hc. set_solver.
    + rewrite Hc in Hno. set_solver.
    + lia.
    + intros c. rewrite dom_insert_L. intros [->%elem_of_singleton|H]%elem_of_union; [lia|]. specialize (Hl c H). lia.
    + lia.
  - assert (s = sp y) as ->. { unfold accept, atomic_id_new in E. case_match; by injection E. }
    destruct Hm as [Ht Hc Ha Hx Hi Hl Hnc]. split; cbn; try done; [|destruct Hy; lia]. intros c H. specialize (Hl c H). lia.
Qed.
Lemma lose_inv n y cl s : sys_inv n y → tables s → dom (clients s) = dom (clients (sp y)) →
  next_id (io s) = next_id (io (sp y)) → cl ∈ dom (clients s) → sys_inv n (lose arc_shared cl s y).
Proof.
  intros Hy Ht Hd Hn Hcl. destruct Hy as [_ Hc Ha Hx Hi Hl Hnc].
  destruct (tables_disconnect arc_shared cl s Ht) as [Ht' _].
  assert (Hd' : dom (clients (disconnect arc_shared cl s)) = dom (clients s) ∖ {[cl]} ∧
    next_id (io (disconnect arc_shared cl s)) = next_id (io s)) by by apply disconnect_frame.
  destruct Hd' as [Ed En]. split; cbn.
  - done.
  - rewrite Ed, Hd, Hc, dom_delete_L. set_solver.
  - rewrite dom_delete_L. set_solver.
  - intros c x q [_ H]%lookup_delete_Some. by apply (Hx c x q).
  - by rewrite En, Hn.
  - intros c. rewrite Ed, Hd. intros [H _]%elem_of_difference. by apply Hl.
  - done.
Qed.
Lemma hello_frame g c : let '(_, o, c') := hello secrets g c in
  (tables (pub c) → tables (pub c')) ∧ dom (clients (pub c')) = dom (clients (pub c)) ∧
  next_id (io (pub c')) = next_id (io (pub c)) ∧ ctx c' = ctx c ∧ con c' = con c.
Proof.
  assert (Hu : ∀ cl u s, dom (clients (client_arrived (set_user secrets cl u s))) = dom (clients s) ∧
    next_id (io (client_arrived (set_user secrets cl u s))) = next_id (io s) ∧
    (tables s → tables (client_arrived (set_user secrets cl u s)))).
  { intros cl u s. split_and!; [| |by apply (tables_set_user secrets cl u s)]; unfold client_arrived, set_user; cbn;
      repeat case_match; try done. apply dom_alter_L. }
  assert (Hk : ∀ u, let s := client_arrived (set_user secrets (client (ctx c)) u (pub c)) in
    (tables (pub c) → tables s) ∧ dom (clients s) = dom (clients (pub c)) ∧ next_id (io s) = next_id (io (pub c)) ∧ ctx c = ctx c ∧ con c = con c).
  { intros u. destruct (Hu (client (ctx c)) u (pub c)) as (? & ? & ?). done. }
  unfold hello. destruct (g_hello g); try (by split_and!); repeat case_match; simplify_eq; try (by split_and!); apply Hk.
Qed.
Lemma commit_inv n y batch : sys_inv n y → sys_inv n (set_sp (commit batch (sp y)).2 y).
Proof.
  intros Hy. pose proof (commit_frame batch (sp y)) as E. pose proof (f_equal k_clients E) as E1. pose proof (f_equal k_next E) as E2.
  cbn in E1, E2. apply sys_inv_sp; [done|apply tables_commit, Hy|by rewrite E1|rewrite E2; apply Hy].
Qed.
Lemma send_inv n y timeout cl u : sys_inv n y → sys_inv n (set_sp (send_update timeout cl u (sp y)) y).
Proof. intros Hy. apply sys_inv_sp; [done|apply tables_send_update, Hy|apply dom_alter_L|apply Hy]. Qed.
Lemma step_inv n y i : sys_inv n y → Z.of_nat n + 1 < 2 ^ 64 → sys_inv (S n) (step y i).
Proof.
  intros Hy Hn. pose proof (sys_inv_more n y Hy) as Hm. pose proof (i_tables _ _ Hy) as Ht. pose proof (i_next _ _ Hy) as Hi.
  destruct i as [op|timeout batch|i cl| |cl g|cl now r| | | |cl|]; cbn [sys_step].
  - destruct (app_frame op (sp y) Ht) as [E1 E2]; [lia..|]. apply sys_inv_sp; [done|apply tables_app; [done|lia..]|by rewrite E1|lia].
  - pose proof (commit_inv _ _ batch Hm) as Hs. destruct (commit batch (sp y)) as [b s]. by destruct Hs.
  - destruct (sending y !! i) as [[timeout b]|]; [|done]. destruct (b !! cl) as [u|]; [|done].
    pose proof (send_inv _ _ timeout cl u Hm) as Hs. by destruct Hs.
  - by apply accept_inv.
  - destruct (decide _) as [Hg|]; [|done].
    assert (Hcl : cl ∈ dom (clients (sp y))) by (rewrite (i_clients _ _ Hy); set_solver).
    destruct g as [g|]; [|by apply lose_inv].
    pose proof (hello_frame g (MkConn (sp y) (ClientCtx_new cl auth) [])) as H.
    destruct (hello secrets g _) as [[rs o] c]. destruct H as (H1 & H2 & H3 & H4 & H5). cbn in H1, H2, H3, H4, H5.
    destruct o; [|apply lose_inv; try done; [by apply H1|by rewrite H2]..].
    apply greet_inv; try done. by apply H1.
  - destruct (conns y !! cl) as [[x q]|] eqn:Hx; [|done]. destruct (i_conn _ _ Hy cl x q Hx) as [Ecl Eau].
    assert (Hcl : cl ∈ dom (clients (sp y))).
    { rewrite (i_clients _ _ Hy). apply elem_of_union_r, elem_of_dom. by eexists. }
    destruct (turn _ _ _ _ _ _ _) as [[fl o] c] eqn:Htn.
    assert (Hc0 : conn_ok (MkConn (sp y) x q)) by (split; cbn; [done|by rewrite Ecl]).
    destruct (turn_ok _ _ _ _ _ _ Hc0 Htn) as ([H1 _] & H2 & H3 & H4 & H5). cbn in H2, H3, H4, H5.
    set (y' := set_sent _ y). assert (Hy' : sys_inv (S n) y') by (by destruct Hm).
    destruct o; [|apply lose_inv; try done; by rewrite H2..].
    apply (turned_inv (S n) y' cl x q); try done; congruence.
  - destruct (loop y); try done. destruct (triggers (io (sp y))) as [|reply rest]; [done|].
    pose proof (tables_loop_take reply (upd_io (io_triggers (fun _ => rest)) (sp y)) Ht) as Hl.
    assert (Hs : sys_inv (S n) (set_sp (loop_take reply (upd_io (io_triggers (fun _ => rest)) (sp y))).2 y)) by (apply sys_inv_sp; try done; cbn; lia).
    by destruct Hs.
  - destruct (loop y) as [|[[|t l] u r]|]; try done. by destruct Hm, t.
  - destruct (loop y) as [|[[|t l] u r]|]; try done. unfold loop_commit. case_bool_decide; [by destruct Hm|].
    pose proof (commit_inv _ _ (loop_batch (MkWork [] u r)) Hm) as Hs. destruct (commit _ (sp y)) as [b s]. by destruct Hs.
  - destruct (loop y) as [| |w b]; try done. destruct (b !! cl) as [u|]; [|done].
    pose proof (send_inv _ _ None cl u Hm) as Hs. by destruct Hs.
  - destruct (loop y) as [| |w b]; try done. destruct (decide _); [|done].
    assert (Hs : sys_inv (S n) (set_sp (loop_reply w (sp y)) y)).
    { apply sys_inv_sp; [done|by apply tables_loop_reply|..]; unfold loop_reply; case_match; cbn; done || lia. }
    by destruct Hs.
Qed.
Lemma run_inv l : Z.of_nat (length l) < 2 ^ 64 → sys_inv (length l) (run sys_new l).
Proof.
  induction l as [|i l IH] using rev_ind; intros Hl; [apply sys_inv_new|]. rewrite length_app in *. cbn in *.
  unfold sys_run. rewrite foldl_snoc. replace (length l + 1)%nat with (S (length l)) by lia. apply step_inv; [apply IH|]; lia.
Qed.
End Inv.
