(* ===== verification/PubSync.v ===== *)
(** The resolver is told what it should know: the paths that are published or advertised
    and the default publishers are those the resolver has, up to what is queued for it,
    and what is queued is announced to the publish loop. *)
From Stdlib Require Import ZArith Lia.
From stdpp Require Import base gmap list strings sorting relations.
From Stdlib Require Import Strings.Byte.
From S2P Require Import Prelude Varint Pack Containers PackTypes Path PathFacts Order Glob Derive Proto.
From S2P Require Import Store Permissions Channel Float Value ValuePack ValueOrd PubProto Publisher PubServer PubFacts PubSubs PubTurn PubSystem PubInv.

Section Sync.
Context {ES : Escaping} {LY : Layout} {VA : ValueApi} {CM : ChunkMap} {VC : ValueCmp} {SH : Sha3}.
Context {PO : PubOrder} {POK : PubOrderOk PO}.
Context (reg : Registry) (arc_shared : gset ClId → bool) (next_wid : WriteId).

Definition advertises (adv : gmap str (gset str)) (p : str) : Prop := ∃ b set, adv !! b = Some set ∧ p ∈ set.
(** The paths the resolver should have *)
Definition wanted (s : PublisherInner) (p : str) : Prop := is_Some (by_path s !! p) ∨ advertises (advertised s) p.
(** Something is queued for the resolver *)
Definition pending (s : PublisherInner) : Prop :=
  to_publish s ≠ ∅ ∨ to_publish_default s ≠ ∅ ∨ to_unpublish s ≠ ∅ ∨ to_unpublish_default s ≠ ∅.

(** [T] and [TD] are the paths and the default publishers the resolver has. *)
Record in_sync (T TD : gset str) (s : PublisherInner) : Prop := {
  y_paths p : (p ∈ T ∨ is_Some (to_publish s !! p)) ∧ p ∉ to_unpublish s ↔ wanted s p;
  y_defaults b : (b ∈ TD ∨ is_Some (to_publish_default s !! b)) ∧ b ∉ to_unpublish_default s ↔ is_Some (defaults s !! b);
  y_adv b set p : advertised s !! b = Some set → p ∈ set → is_parent b p = true;
  y_apart b b' set set' p : advertised s !! b = Some set → advertised s !! b' = Some set' → p ∈ set → p ∈ set' → b = b';
  y_pending : pending s → publish_triggered s = true;
  y_trigger : publish_triggered s = true → None ∈ triggers (io s)
}.
(** It depends on these tables only *)
Definition sview (s : PublisherInner) :=
  (by_path s, advertised s, to_publish s, to_publish_default s, to_unpublish s, to_unpublish_default s, defaults s, loopv s).
Lemma in_sync_ext T TD s s' : sview s' = sview s → in_sync T TD s → in_sync T TD s'.
Proof.
  unfold sview, loopv. intros [= E1 E2 E3 E4 E5 E6 E7 E8 E9] [H1 H2 H3 H4 H5 H6].
  split; unfold wanted, pending; rewrite ?E1, ?E2, ?E3, ?E4, ?E5, ?E6, ?E7, ?E8, ?E9; done.
Qed.
Lemma sview_send_event e s : sview (send_event e s) = sview s.
Proof. unfold send_event. by case_match. Qed.
Lemma sview_core s s' : core s' = core s → loopv s' = loopv s → sview s' = sview s.
Proof.
  intros E El. pose proof (f_equal k_by_path E) as E1. pose proof (f_equal k_adv E) as E2. pose proof (f_equal k_pub E) as E3.
  pose proof (f_equal k_pubd E) as E4. pose proof (f_equal k_unpub E) as E5. pose proof (f_equal k_unpubd E) as E6.
  pose proof (f_equal k_default E) as E7. cbn in *. unfold sview. congruence.
Qed.
Lemma sview_writes id tx s : sview (inner_writes id tx s) = sview s.
Proof.
  apply sview_core; [apply core_writes|]. unfold inner_writes. destruct (by_id s !! id); [|done]. by destruct (on_write_chans s !! tx) as [[]|].
Qed.

Lemma in_sync_new : in_sync ∅ ∅ publisher_new.
Proof.
  split; cbn; try done.
  - intros p. unfold wanted, advertises. cbn. rewrite !lookup_empty. split.
    + intros [[H|[]] _]; [set_solver|done].
    + intros [[]|(b & set & H & _)]; [done|]. by rewrite lookup_empty in H.
  - intros b. rewrite !lookup_empty. split; [|by intros []]. intros [[H|[]] _]; [set_solver|done].
  - intros [H|[H|[H|H]]]; done.
Qed.

(** Queueing work announces it *)
Lemma in_sync_trigger T TD s :
  (∀ p, (p ∈ T ∨ is_Some (to_publish s !! p)) ∧ p ∉ to_unpublish s ↔ wanted s p) →
  (∀ b, (b ∈ TD ∨ is_Some (to_publish_default s !! b)) ∧ b ∉ to_unpublish_default s ↔ is_Some (defaults s !! b)) →
  (∀ b set p, advertised s !! b = Some set → p ∈ set → is_parent b p = true) →
  (∀ b b' set set' p, advertised s !! b = Some set → advertised s !! b' = Some set' → p ∈ set → p ∈ set' → b = b') →
  (publish_triggered s = true → None ∈ triggers (io s)) →
  in_sync T TD (trigger_publish s).
Proof.
  intros H1 H2 H3 H4 H5. unfold trigger_publish. destruct (publish_triggered s) eqn:E; [split; try done; intros _; by apply H5|].
  split; try done. cbn. rewrite elem_of_app. intros _. right. by left.
Qed.

Lemma in_sync_publish T TD id flags path s : in_sync T TD s → in_sync T TD (inner_publish id flags path s).
Proof.
  intros [H1 H2 H3 H4 H5 H6]. unfold inner_publish. apply in_sync_trigger; try done.
  intros p. unfold wanted in *. cbn. specialize (H1 p). destruct (decide (p = path)) as [->|Hne].
  - rewrite !lookup_insert_eq. split; [intros _; left; done|]. intros _. split; [right; done|]. set_solver.
  - rewrite !lookup_insert_ne by done. rewrite elem_of_difference, elem_of_singleton. rewrite <-H1. tauto.
Qed.
Lemma is_advertised_iff s p : (∀ b set p, advertised s !! b = Some set → p ∈ set → is_parent b p = true) →
  is_advertised s p = true ↔ advertises (advertised s) p.
Proof.
  intros Ha. unfold is_advertised, advertises. rewrite existsb_exists. split.
  - intros ([b set] & Hin & H). apply andb_true_iff in H as [_ H%bool_decide_eq_true]. apply list_elem_of_In, elem_of_map_to_list in Hin. by exists b, set.
  - intros (b & set & Hb & Hp). exists (b, set). split; [by apply list_elem_of_In, elem_of_map_to_list|]. cbn.
    rewrite (Ha _ _ _ Hb Hp). by apply bool_decide_eq_true.
Qed.
Lemma in_sync_unpublish T TD p s : in_sync T TD s → in_sync T TD (inner_unpublish p s).
Proof.
  intros [H1 H2 H3 H4 H5 H6]. unfold inner_unpublish. set (s1 := upd_by_path _ s).
  destruct (is_advertised s1 p) eqn:Hadv.
  - apply is_advertised_iff in Hadv; [|done]. split; try done. intros q. etrans; [exact (H1 q)|]. unfold wanted. cbn.
    destruct (decide (q = p)) as [->|Hne]; [rewrite lookup_delete_eq; naive_solver|by rewrite lookup_delete_ne].
  - assert (Hno : ¬ advertises (advertised s) p) by (intros H%(is_advertised_iff s1); [congruence|done]).
    apply in_sync_trigger; try done. intros q. unfold wanted in *. cbn. specialize (H1 q). destruct (decide (q = p)) as [->|Hne].
    + rewrite !lookup_delete_eq. split; [set_solver|]. by intros [[]|].
    + rewrite !lookup_delete_ne by done. rewrite not_elem_of_union, not_elem_of_singleton. rewrite <-H1. tauto.
Qed.
Lemma in_sync_unpublish_all T TD l s : in_sync T TD s → in_sync T TD (foldl (fun s p => inner_unpublish p s) s l).
Proof. revert s. induction l as [|p l IH]; intros s H; [done|]. apply IH. by apply in_sync_unpublish. Qed.
Lemma in_sync_destroy T TD id s : in_sync T TD s → in_sync T TD (destroy_val id s).
Proof.
  intros H. unfold destroy_val. destruct (by_id s !! id) as [v|]; [|done].
  set (s1 := foldl _ _ _). assert (H1 : in_sync T TD s1) by (apply in_sync_unpublish_all; by apply (in_sync_ext _ _ s)).
  apply (in_sync_ext _ _ s1); [|done]. set (s2 := match on_write _ !! id with Some _ => _ | None => _ end).
  assert (E2 : sview s2 = sview s1) by (unfold s2; by case_match).
  rewrite <-E2, <-(sview_send_event (Destroyed id) s2). by case_match.
Qed.

(** ** The program's calls *)

(** What a call must respect: a path is advertised under one base at a time; a default is
    published again only once the resolver was told that it had gone, and it is published
    only where no unpublishing of a value or an advertisement at its base is pending. *)
Definition tidy_op (s : PublisherInner) (op : AppOp) : bool :=
  match op with
  | APublishDefault _ base _ => bool_decide (base ∉ to_unpublish s) && bool_decide (base ∉ to_unpublish_default s)
  | AAdvertise base _ path =>
      forallb (fun bs : str * gset str => bool_decide (bs.1 = base) || bool_decide (path ∉ bs.2)) (map_to_list (advertised s))
  | _ => true
  end.

Lemma in_sync_publish_value T TD flags path init tx s :
  in_sync T TD s → in_sync T TD (publish_with_flags_and_writes flags path init tx s).2.
Proof.
  intros H. unfold publish_with_flags_and_writes. destruct (atomic_id_new _) as [id next].
  set (s0 := upd_io _ s). assert (H0 : in_sync T TD s0) by by apply (in_sync_ext _ _ s).
  destruct (check_publish s0 path); [|done|done]. destruct (hc_entry ∅ s0) as [subs s1] eqn:E1.
  assert (H1 : in_sync T TD s1) by (apply (in_sync_ext _ _ s0); [|done]; unfold hc_entry in E1; case_match; by injection E1 as <- <-).
  cbn [snd]. apply in_sync_publish. set (s2 := if flags_contains _ _ then _ else _).
  assert (H2 : in_sync T TD s2) by (apply (in_sync_ext _ _ s1); [|done]; unfold s2; by case_match).
  destruct tx; [|done]. apply (in_sync_ext _ _ s2); [apply sview_writes|done].
Qed.
Lemma in_sync_alias T TD id flags path s : in_sync T TD s → in_sync T TD (alias_with_flags id flags path s).2.
Proof.
  intros H. unfold alias_with_flags. case_bool_decide; [done|]. destruct (check_publish s path); [|done|done].
  set (s1 := inner_publish _ _ _ s). assert (H1 : in_sync T TD s1) by by apply in_sync_publish.
  destruct (by_id s1 !! id); [|done]. by apply (in_sync_ext _ _ s1).
Qed.
Lemma in_sync_remove_alias T TD id path s : in_sync T TD s → in_sync T TD (remove_alias id path s).
Proof.
  intros H. unfold remove_alias. destruct (by_id s !! id) as [v|]; [|done]. destruct (aliases v) as [al|]; [|done].
  destruct (decide _); [|done]. apply in_sync_unpublish. by apply (in_sync_ext _ _ s).
Qed.
Lemma in_sync_remove_all_aliases T TD id s : in_sync T TD s → in_sync T TD (remove_all_aliases id s).
Proof.
  intros H. unfold remove_all_aliases. destruct (by_id s !! id) as [v|]; [|done]. destruct (aliases v) as [al|]; [|done].
  apply in_sync_unpublish_all. by apply (in_sync_ext _ _ s).
Qed.
Lemma in_sync_publish_default T TD flags base tx s : base ∉ to_unpublish s → base ∉ to_unpublish_default s →
  in_sync T TD s → in_sync T TD (publish_default_with_flags flags base tx s).2.
Proof.
  intros Hu Hd [H1 H2 H3 H4 H5 H6]. unfold publish_default_with_flags. case_match; [done|]. case_match; [done|]. case_match; [done|].
  cbn [snd]. apply in_sync_trigger; try done.
  - intros p. unfold wanted in *. cbn. rewrite <-H1. set_solver.
  - intros b. cbn. specialize (H2 b). destruct (decide (b = base)) as [->|Hne].
    + rewrite !lookup_insert_eq. split; [intros _; by eexists|]. intros _. split; [right; by eexists|done].
    + by rewrite !lookup_insert_ne.
Qed.
Lemma advertises_insert adv base path p : advertises (<[base := {[path]} ∪ default ∅ (adv !! base)]> adv) p ↔ p = path ∨ advertises adv p.
Proof.
  unfold advertises. split.
  - intros (b & set & Hb & Hp). destruct (decide (b = base)) as [->|Hne].
    + rewrite lookup_insert_eq in Hb. injection Hb as <-. apply elem_of_union in Hp as [->%elem_of_singleton|Hp]; [by left|].
      right. destruct (adv !! base) as [set|] eqn:E; [by exists base, set|set_solver].
    + rewrite lookup_insert_ne in Hb by done. right. by exists b, set.
  - intros H. assert (Hin : ∀ set, adv !! base = Some set ∨ adv !! base = None ∧ set = ∅ → p = path ∨ p ∈ set →
      ∃ b s, <[base := {[path]} ∪ default ∅ (adv !! base)]> adv !! b = Some s ∧ p ∈ s).
    { intros set Hs Hp. exists base. eexists. rewrite lookup_insert_eq. split; [done|].
      destruct Hs as [->|[-> ->]]; cbn; set_solver. }
    destruct H as [->|(b & set & Hb & Hp)].
    + destruct (adv !! base) as [set|] eqn:E; [apply (Hin set)|apply (Hin ∅)]; naive_solver.
    + destruct (decide (b = base)) as [->|Hne]; [apply (Hin set); naive_solver|].
      exists b, set. by rewrite lookup_insert_ne.
Qed.
Lemma in_sync_advertise T TD base flags path s :
  (∀ b set, advertised s !! b = Some set → b ≠ base → path ∉ set) →
  in_sync T TD s → in_sync T TD (advertise_with_flags base flags path s).2.
Proof.
  intros Hone [H1 H2 H3 H4 H5 H6]. unfold advertise_with_flags. destruct (is_parent base path) eqn:Hp; [|done]. cbn [negb].
  set (adv := <[base := {[path]} ∪ default ∅ (advertised s !! base)]> (advertised s)).
  assert (Hlook : ∀ b set p, adv !! b = Some set → p ∈ set → b = base ∧ p = path ∨ ∃ set', advertised s !! b = Some set' ∧ p ∈ set').
  { intros b set p. unfold adv. destruct (decide (b = base)) as [->|Hne]; [|rewrite lookup_insert_ne by done; by eauto].
    rewrite lookup_insert_eq. intros [= <-] [->%elem_of_singleton|Hin]%elem_of_union; [by left|]. right.
    destruct (advertised s !! base); [by eauto|set_solver]. }
  assert (Hadv : ∀ b set p, adv !! b = Some set → p ∈ set → is_parent b p = true).
  { intros b set p Hb Hin. destruct (Hlook b set p Hb Hin) as [[-> ->]|(set' & Hs & Hin')]; [done|by eapply H3]. }
  assert (Happ : ∀ b b' set set' p, adv !! b = Some set → adv !! b' = Some set' → p ∈ set → p ∈ set' → b = b').
  { intros b b' set set' p Hb Hb' Hin Hin'.
    destruct (Hlook b set p Hb Hin) as [[-> E]|(t & Ht & Hpt)], (Hlook b' set' p Hb' Hin') as [[-> E']|(t' & Ht' & Hpt')]; try done.
    - subst p. destruct (decide (b' = base)) as [->|Hne]; [done|]. by destruct (Hone b' t' Ht' Hne).
    - subst p. destruct (decide (b = base)) as [->|Hne]; [done|]. by destruct (Hone b t Ht Hne).
    - by apply (H4 b b' t t' p). }
  case_match eqn:Hc.
  - apply andb_true_iff in Hc as [_ Hb%bool_decide_eq_true]. cbn [snd]. apply in_sync_trigger; try done.
    intros p. enough (E : (p ∈ T ∨ is_Some (<[path := flags_opt (flags_remove flags DESTROY_ON_IDLE)]> (to_publish s) !! p)) ∧
      p ∉ to_unpublish s ∖ {[path]} ↔ is_Some (by_path s !! p) ∨ advertises adv p) by exact E.
    unfold adv. rewrite advertises_insert. unfold wanted in H1. destruct (decide (p = path)) as [->|Hne].
    + rewrite lookup_insert_eq. split; [tauto|]. intros _. split; [right; by eexists|]. set_solver.
    + rewrite lookup_insert_ne by done. rewrite elem_of_difference, elem_of_singleton. specialize (H1 p). tauto.
  - split; try done. intros p. etrans; [exact (H1 p)|].
    enough (E : wanted s p ↔ is_Some (by_path s !! p) ∨ advertises adv p) by exact E. unfold adv, wanted. rewrite advertises_insert.
    split; [tauto|]. intros [?|[->|?]]; [by left| |by right].
    apply andb_false_iff in Hc as [Hc%bool_decide_eq_false|Hc%bool_decide_eq_false].
    + right. destruct (decide (path ∈ default ∅ (advertised s !! base))) as [Hin|]; [|done].
      destruct (advertised s !! base) as [set|] eqn:E; [by exists base, set|set_solver].
    + left. cbn in Hc. destruct (by_path s !! path); [by eexists|done].
Qed.
(** Fewer paths are advertised *)
Lemma in_sync_retract T TD s adv :
  (∀ b set, adv !! b = Some set → ∃ set', advertised s !! b = Some set' ∧ set ⊆ set') →
  (∀ p, (p ∈ T ∨ is_Some (to_publish s !! p)) ∧ p ∉ to_unpublish s ↔ is_Some (by_path s !! p) ∨ advertises adv p) →
  in_sync T TD s → in_sync T TD (upd_advertised (fun _ => adv) s).
Proof.
  intros Hsub Hp [H1 H2 H3 H4 H5 H6]. split; try done; cbn.
  - intros b set p Hb Hin. destruct (Hsub b set Hb) as (set' & Hs & Hss). eapply H3; [done|set_solver].
  - intros b b' set set' p Hb Hb' Hin Hin'. destruct (Hsub b set Hb) as (t & Ht & Hss). destruct (Hsub b' set' Hb') as (t' & Ht' & Hss').
    eapply (H4 b b' t t' p); set_solver.
Qed.
(** A path that nobody wants any more is withdrawn *)
Lemma in_sync_withdraw T TD s adv path :
  in_sync T TD s → by_path s !! path = None →
  (∀ b set, adv !! b = Some set → ∃ set', advertised s !! b = Some set' ∧ set ⊆ set') →
  (∀ p, advertises adv p ↔ advertises (advertised s) p ∧ p ≠ path) →
  in_sync T TD (trigger_publish (upd_to_publish (delete path) (upd_to_unpublish (union {[path]}) (upd_advertised (fun _ => adv) s)))).
Proof.
  intros [H1 H2 H3 H4 H5 H6] Hb Hsub Hadv. apply in_sync_trigger; try done; cbn.
  - intros p. unfold wanted in *. cbn. rewrite Hadv, not_elem_of_union, not_elem_of_singleton. destruct (decide (p = path)) as [->|Hne].
    + rewrite Hb. split; [tauto|]. intros [[]|[_ ?]]; done.
    + rewrite lookup_delete_ne by done. specialize (H1 p). tauto.
  - intros b set p Hbs Hin. destruct (Hsub b set Hbs) as (set' & Hs & Hss). eapply H3; [done|set_solver].
  - intros b b' set set' p Hbs Hbs' Hin Hin'. destruct (Hsub b set Hbs) as (t & Ht & Hss). destruct (Hsub b' set' Hbs') as (t' & Ht' & Hss').
    eapply (H4 b b' t t' p); set_solver.
Qed.

Lemma advertises_remove s base set path T TD : in_sync T TD s → advertised s !! base = Some set →
  let adv := if bool_decide (set ∖ {[path]} = ∅) then delete base (advertised s) else <[base := set ∖ {[path]}]> (advertised s) in
  (∀ b st, adv !! b = Some st → ∃ set', advertised s !! b = Some set' ∧ st ⊆ set') ∧
  (∀ p, advertises adv p ↔ advertises (advertised s) p ∧ (p ∈ set → p ≠ path)).
Proof.
  intros Hs Hb. cbn. assert (Hlook : ∀ b, (if bool_decide (set ∖ {[path]} = ∅) then delete base (advertised s)
      else <[base := set ∖ {[path]}]> (advertised s)) !! b =
    if decide (b = base) then (if bool_decide (set ∖ {[path]} = ∅) then None else Some (set ∖ {[path]})) else advertised s !! b).
  { intros b. destruct (decide (b = base)) as [->|Hne]; case_bool_decide;
      by rewrite ?lookup_delete_eq, ?lookup_insert_eq, ?lookup_delete_ne, ?lookup_insert_ne. }
  split.
  - intros b st. rewrite Hlook. destruct (decide (b = base)) as [->|Hne]; [|by eauto]. case_bool_decide; [done|].
    intros [= <-]. exists set. split; [done|set_solver].
  - intros p. unfold advertises. split.
    + intros (b & st & Hst & Hp). rewrite Hlook in Hst. destruct (decide (b = base)) as [->|Hne].
      * case_bool_decide; [done|]. injection Hst as <-. split; [exists base, set; set_solver|set_solver].
      * split; [by exists b, st|]. intros Hin. exfalso. apply Hne. by apply (y_apart _ _ _ Hs b base st set p).
    + intros [(b & st & Hst & Hp) Hne]. destruct (decide (b = base)) as [->|Hnb].
      * assert (st = set) as -> by congruence. exists base, (set ∖ {[path]}). rewrite Hlook, decide_True by done.
        rewrite bool_decide_eq_false_2 by set_solver. set_solver.
      * exists b, st. by rewrite Hlook, decide_False.
Qed.
Lemma in_sync_remove_advertisement T TD base path s : in_sync T TD s → in_sync T TD (remove_advertisement base path s).
Proof.
  intros Hs. unfold remove_advertisement. destruct (advertised s !! base) as [set|] eqn:Hb; [|done].
  destruct (advertises_remove s base set path T TD Hs Hb) as [Hsub Hadv]. cbn in Hsub, Hadv.
  set (adv := if bool_decide (set ∖ {[path]} = ∅) then delete base (advertised s) else <[base := set ∖ {[path]}]> (advertised s)) in *.
  case_match eqn:Hc.
  - apply andb_true_iff in Hc as [Hin%bool_decide_eq_true Hp%bool_decide_eq_true].
    apply (in_sync_withdraw T TD s adv path Hs Hp Hsub). intros p. rewrite Hadv. split; [|naive_solver].
    intros [Hp1 Hp2]. split; [done|]. intros ->. by apply Hp2.
  - apply (in_sync_retract T TD s adv Hsub); [|done]. intros p. rewrite (y_paths _ _ _ Hs p). unfold wanted. rewrite Hadv.
    destruct (decide (p = path)) as [->|]; [|naive_solver].
    apply andb_false_iff in Hc as [Hc%bool_decide_eq_false|Hc%bool_decide_eq_false]; [naive_solver|].
    cbn in Hc. destruct (by_path s !! path) as [id|]; [|done]. split; intros _; left; by eexists.
Qed.

Definition withdraw_all (l : list str) (s : PublisherInner) : PublisherInner :=
  foldl (fun s path => if bool_decide (by_path s !! path = None)
    then upd_to_unpublish (union {[path]}) (upd_to_publish (delete path) s) else s) s l.
Lemma withdraw_all_spec l s :
  let s' := withdraw_all l s in
  (∀ p, to_publish s' !! p = if decide (p ∈ l ∧ by_path s !! p = None) then None else to_publish s !! p) ∧
  (∀ p, p ∈ to_unpublish s' ↔ p ∈ to_unpublish s ∨ p ∈ l ∧ by_path s !! p = None) ∧
  by_path s' = by_path s ∧ advertised s' = advertised s ∧ to_publish_default s' = to_publish_default s ∧
  to_unpublish_default s' = to_unpublish_default s ∧ defaults s' = defaults s ∧ loopv s' = loopv s.
Proof.
  revert s. induction l as [|q l IH]; intros s; cbn [withdraw_all foldl].
  { cbv zeta. split_and!; try done. intros p. rewrite elem_of_nil. tauto. }
  case_bool_decide as Hq.
  - destruct (IH (upd_to_unpublish (union {[q]}) (upd_to_publish (delete q) s))) as (H1 & H2 & H3 & H4 & H5 & H6 & H7 & H8).
    cbn in *. split_and!; try done.
    + intros p. rewrite H1. destruct (decide (p = q)) as [->|Hne].
      * rewrite lookup_delete_eq, (decide_True (P := q ∈ q :: l ∧ _)) by (split; [by left|done]). by destruct (decide _).
      * rewrite lookup_delete_ne by done. 
        assert (Hiff : p ∈ l ∧ by_path s !! p = None ↔ p ∈ q :: l ∧ by_path s !! p = None) by (rewrite elem_of_cons; naive_solver).
        by rewrite (decide_ext _ _ _ _ Hiff).
    + intros p. rewrite H2, elem_of_union, elem_of_singleton, elem_of_cons. naive_solver.
  - destruct (IH s) as (H1 & H2 & H3 & H4 & H5 & H6 & H7 & H8). cbn in *. split_and!; try done.
    + intros p. rewrite H1.
      assert (Hiff : p ∈ l ∧ by_path s !! p = None ↔ p ∈ q :: l ∧ by_path s !! p = None) by (rewrite elem_of_cons; naive_solver).
      by rewrite (decide_ext _ _ _ _ Hiff).
    + intros p. rewrite H2, elem_of_cons. naive_solver.
Qed.
Lemma in_sync_drop_default T TD base s : in_sync T TD s → in_sync T TD (drop_default base s).
Proof.
  intros [H1 H2 H3 H4 H5 H6]. unfold drop_default. set (s1 := upd_to_unpublish_default _ _).
  assert (Hd : ∀ b, (b ∈ TD ∨ is_Some (to_publish_default s1 !! b)) ∧ b ∉ to_unpublish_default s1 ↔ is_Some (defaults s1 !! b)).
  { intros b. cbn. specialize (H2 b). rewrite not_elem_of_union, not_elem_of_singleton. destruct (decide (b = base)) as [->|Hne].
    - rewrite lookup_delete_eq. split; [tauto|]. by intros [].
    - rewrite lookup_delete_ne by done. tauto. }
  change (advertised s1) with (advertised s). destruct (advertised s !! base) as [paths|] eqn:Hb; [|by apply in_sync_trigger].
  fold (withdraw_all (path_order paths) (upd_advertised (delete base) s1)).
  destruct (withdraw_all_spec (path_order paths) (upd_advertised (delete base) s1)) as (E1 & E2 & E3 & E4 & E5 & E6 & E7 & E8).
  set (s2 := withdraw_all _ _) in *. cbn in E1, E2, E3, E4, E5, E6, E7.
  assert (Hin : ∀ p, p ∈ path_order paths ↔ p ∈ paths) by (intros p; by rewrite path_order_perm, elem_of_elements).
  assert (Hadv : ∀ p, advertises (advertised s2) p ↔ advertises (advertised s) p ∧ p ∉ paths).
  { intros p. rewrite E4. unfold advertises. split.
    - intros (b & set & [Hne Hs]%lookup_delete_Some & Hp). split; [by exists b, set|]. intros Hp'. apply Hne.
      symmetry. by apply (H4 b base set paths p).
    - intros [(b & set & Hs & Hp) Hno]. exists b, set. split; [|done]. rewrite lookup_delete_ne; [done|]. intros <-. congruence. }
  assert (E1' : ∀ p, to_publish s2 !! p = if decide (p ∈ paths ∧ by_path s !! p = None) then None else to_publish s !! p).
  { intros p. rewrite E1. apply decide_ext. by rewrite Hin. }
  apply in_sync_trigger.
  - intros p. unfold wanted. rewrite E2, E3, Hadv, (Hin p), E1'. specialize (H1 p). unfold wanted in H1.
    destruct (by_path s !! p) as [id|] eqn:Hp.
    + rewrite decide_False by naive_solver. split; [intros _; left; by eexists|]. intros _.
      destruct H1 as [_ [H1 H1']]; [left; by eexists|]. split; [done|]. naive_solver.
    + destruct (decide (p ∈ paths)) as [Hpp|Hpp].
      * split; [intros [_ []]; naive_solver|]. intros [[]|[_ ?]]; done.
      * rewrite decide_False by naive_solver. naive_solver.
  - by rewrite E5, E6, E7.
  - rewrite E4. intros b set p [_ Hs]%lookup_delete_Some. by apply H3.
  - rewrite E4. intros b b' set set' p [_ Hs]%lookup_delete_Some [_ Hs']%lookup_delete_Some. by apply H4.
  - unfold loopv in E8. injection E8 as -> ->. exact H6.
Qed.

Lemma in_sync_app T TD op s : tidy_op s op = true → in_sync T TD s → in_sync T TD (app op s).
Proof.
  intros Hop Hs. destruct op as [flags path init tx|id flags path|id path|id|id|flags base tx|base flags path|base path|base| | | | |id| | | |]; cbn [app].
  - by apply in_sync_publish_value.
  - by apply in_sync_alias.
  - by apply in_sync_remove_alias.
  - by apply in_sync_remove_all_aliases.
  - by apply in_sync_destroy.
  - cbn in Hop. apply andb_true_iff in Hop as [H1%bool_decide_eq_true H2%bool_decide_eq_true]. by apply in_sync_publish_default.
  - apply in_sync_advertise; [|done]. intros b set Hb Hne. cbn in Hop. rewrite forallb_forall in Hop.
    specialize (Hop (b, set)). cbn in Hop.
    assert (Hi : In (b, set) (map_to_list (advertised s))) by (by apply list_elem_of_In, elem_of_map_to_list).
    apply Hop, orb_true_iff in Hi as [Hi%bool_decide_eq_true|Hi%bool_decide_eq_true]; done.
  - by apply in_sync_remove_advertisement.
  - by apply in_sync_drop_default.
  - apply (in_sync_ext _ _ s); [apply sview_writes|done].
  - by apply (in_sync_ext _ _ s).
  - by apply (in_sync_ext _ _ s).
  - by apply (in_sync_ext _ _ s).
  - apply (in_sync_ext _ _ s); [|done]. unfold wait_client. destruct (by_id s !! id) as [ut|]; [|done]. by destruct (decide (subscribed ut = ∅)).
  - apply (in_sync_ext _ _ s); [|done]. unfold pub_wait_any_client. by case_match.
  - destruct Hs as [H1 H2 H3 H4 H5 H6]. split; try done. cbn. intros H%H6. apply elem_of_app. by left.
  - by apply (in_sync_ext _ _ s).
  - by apply (in_sync_ext _ _ s).
Qed.

(** ** Connections *)

Lemma sview_hc_entry set s : sview (hc_entry set s).2 = sview s.
Proof. unfold hc_entry. by case_match. Qed.
Lemma in_sync_unsubscribe T TD cl id s : in_sync T TD s → in_sync T TD (unsubscribe arc_shared cl id s).
Proof.
  intros Hs. unfold unsubscribe. destruct (by_id s !! id) as [ut|]; [|done].
  destruct (hc_entry _ s) as [subs s0] eqn:E. set (s1 := send_event _ _).
  assert (E1 : sview s1 = sview s).
  { unfold s1. rewrite sview_send_event. change (sview s0 = sview s). rewrite <-(sview_hc_entry (subscribed ut ∖ {[cl]}) s). by rewrite E. }
  assert (H1 : in_sync T TD s1) by by apply (in_sync_ext _ _ s). case_match; [|done].
  apply in_sync_destroy. by apply (in_sync_ext _ _ s1).
Qed.
Lemma in_sync_disconnect T TD cl s : in_sync T TD s → in_sync T TD (disconnect arc_shared cl s).
Proof.
  intros Hs. unfold disconnect. destruct (clients s !! cl) as [c|]; [|done]. set (s1 := foldl _ _ _).
  assert (H1 : in_sync T TD s1); [|by apply (in_sync_ext _ _ s1)]. unfold s1. generalize (id_order (dom (cl_subscribed c))).
  assert (H0 : in_sync T TD (upd_clients (delete cl) s)) by by apply (in_sync_ext _ _ s). clear Hs. revert H0.
  generalize (upd_clients (delete cl) s). intros s0 H0 l. revert s0 H0.
  induction l as [|id l IH]; intros s0 H0; [done|]. cbn. apply IH. by apply in_sync_unsubscribe.
Qed.
Lemma sview_add_subscriber cl id p ut s : sview (add_subscriber cl id p ut s) = sview s.
Proof.
  unfold add_subscriber. set (s1 := upd_clients _ s). pose proof (sview_hc_entry ({[cl]} ∪ subscribed ut) s1) as E.
  destruct (hc_entry _ s1). exact E.
Qed.
Lemma in_sync_cstep T TD ok G c c' : cstep reg arc_shared next_wid ok G c c' → in_sync T TD (pub c) → in_sync T TD (pub c').
Proof.
  assert (Hq : ∀ c c', quiet c c' → in_sync T TD (pub c) → in_sync T TD (pub c')).
  { intros x x' [E1 E2 _ _]. apply in_sync_ext. by apply sview_core. }
  assert (Ha : ∀ cl id p ut s, in_sync T TD s → in_sync T TD (add_subscriber cl id p ut s)).
  { intros cl id p ut s. apply in_sync_ext, sview_add_subscriber. }
  intros H Hs. destruct H; try done; try by eapply Hq.
  - eapply Hq; [done|]. by apply Ha.
  - by apply Ha.
  - by apply in_sync_unsubscribe.
  - by apply (in_sync_ext _ _ (pub c)).
  - by apply (in_sync_ext _ _ (pub c)).
Qed.
Lemma in_sync_turn T TD secrets now r c fl o c' :
  turn reg arc_shared next_wid secrets now r c = (fl, o, c') → in_sync T TD (pub c) → in_sync T TD (pub c').
Proof.
  intros Ht Hs. apply turn_steps in Ht.
  assert (Hrun : ∀ G ok, rtc (cstep reg arc_shared next_wid ok G) c c' → in_sync T TD (pub c')).
  { intros G ok H. clear Ht. induction H as [|x y z H _ IH]; [done|]. apply IH. by eapply in_sync_cstep. }
  assert (Ho : ∀ G, outcome reg arc_shared next_wid G c (o, c') → in_sync T TD (pub c')).
  { intros G. destruct o; cbn; [apply Hrun|apply Hrun|done]. }
  destruct r; [destruct Ht as (_ & _ & [E1 E2 _ _] & _); apply (in_sync_ext _ _ (pub c)); [by apply sview_core|done]|
    destruct Ht as [_ Ht]; by eapply Ho..].
Qed.
Lemma sview_hello secrets g c : sview (pub (hello secrets g c).2) = sview (pub c).
Proof.
  assert (Hu : ∀ u, sview (client_arrived (set_user secrets (client (ctx c)) u (pub c))) = sview (pub c)).
  { intros u. unfold client_arrived, set_user. by repeat case_match. }
  unfold hello. destruct (g_hello g); try done; repeat case_match; try done; apply Hu.
Qed.
Lemma sview_commit batch s : sview (commit batch s).2 = sview s.
Proof.
  unfold commit. case_match; [done|].
  assert (Hl : ∀ l (sb : PublisherInner * gmap ClId Update), sview (foldl commit_msg sb l).1 = sview sb.1).
  { intros l. induction l as [|m l IH]; intros sb; [done|]. cbn [foldl]. rewrite IH. unfold commit_msg, update_all. by repeat case_match. }
  specialize (Hl (b_updates batch) (s, ∅)). by destruct (foldl _ _ _).
Qed.

(** ** The whole publisher *)

(** What the resolver will have once the work under way is done *)
Definition tell_sets (t : gset str * gset str) (w : Told) : gset str * gset str :=
  match w with
  | TPublish m => (t.1 ∪ dom m, t.2)
  | TPublishDefault m => (t.1, t.2 ∪ dom m)
  | TUnpublish s => (t.1 ∖ s, t.2)
  | TUnpublishDefault s => (t.1, t.2 ∖ s)
  end.
Definition remaining (y : Sys) : list Told := match loop y with Telling w => w_told w | _ => [] end.
Definition will_know (y : Sys) : gset str * gset str := foldl tell_sets (told y, told_default y) (remaining y).
Definition sys_sync (y : Sys) : Prop := in_sync (will_know y).1 (will_know y).2 (sp y).

Lemma tell_publish t d m : foldl tell_sets (t, d) (if bool_decide (m = ∅) then [] else [TPublish m]) = (t ∪ dom m, d).
Proof. case_bool_decide as H; [|done]. by rewrite H, dom_empty_L, (right_id_L ∅ (∪)). Qed.
Lemma tell_publish_default t d m : foldl tell_sets (t, d) (if bool_decide (m = ∅) then [] else [TPublishDefault m]) = (t, d ∪ dom m).
Proof. case_bool_decide as H; [|done]. by rewrite H, dom_empty_L, (right_id_L ∅ (∪)). Qed.
Lemma tell_unpublish t d s : foldl tell_sets (t, d) (if bool_decide (s = ∅) then [] else [TUnpublish s]) = (t ∖ s, d).
Proof. case_bool_decide as H; [|done]. by rewrite H, difference_empty_L. Qed.
Lemma tell_unpublish_default t d s : foldl tell_sets (t, d) (if bool_decide (s = ∅) then [] else [TUnpublishDefault s]) = (t, d ∖ s).
Proof. case_bool_decide as H; [|done]. by rewrite H, difference_empty_L. Qed.
Lemma loop_take_sync T TD reply rest s :
  in_sync T TD s →
  let '(w, s') := loop_take reply (upd_io (io_triggers (fun _ => rest)) s) in
  in_sync (foldl tell_sets (T, TD) (w_told w)).1 (foldl tell_sets (T, TD) (w_told w)).2 s'.
Proof.
  intros [H1 H2 H3 H4 H5 H6]. unfold loop_take.
  cbn [upd_io to_publish to_publish_default to_unpublish to_unpublish_default to_unsubscribe w_told].
  assert (E : foldl tell_sets (T, TD)
    ((if bool_decide (to_publish s = ∅) then [] else [TPublish (to_publish s)]) ++
     (if bool_decide (to_publish_default s = ∅) then [] else [TPublishDefault (to_publish_default s)]) ++
     (if bool_decide (to_unpublish s = ∅) then [] else [TUnpublish (to_unpublish s)]) ++
     (if bool_decide (to_unpublish_default s = ∅) then [] else [TUnpublishDefault (to_unpublish_default s)])) =
    ((T ∪ dom (to_publish s)) ∖ to_unpublish s, (TD ∪ dom (to_publish_default s)) ∖ to_unpublish_default s)).
  { by rewrite !foldl_app, tell_publish, tell_publish_default, tell_unpublish, tell_unpublish_default. }
  rewrite E. split; cbn; try done.
  - intros p. rewrite lookup_empty. unfold wanted in *. cbn. rewrite <-(H1 p), elem_of_difference, elem_of_union, elem_of_dom.
    split; [intros [[?|[? ?]] _]; done|]. intros ?. split; [by left|set_solver].
  - intros b. rewrite lookup_empty, <-(H2 b), elem_of_difference, elem_of_union, elem_of_dom.
    split; [intros [[?|[? ?]] _]; done|]. intros ?. split; [by left|set_solver].
  - intros [H|[H|[H|H]]]; done.
Qed.

Context (secrets : gmap SocketAddr u128) (auth : DesiredAuth) (max_clients : Z).
Abbreviation step := (sys_step reg arc_shared next_wid secrets auth max_clients).
Abbreviation run := (sys_run reg arc_shared next_wid secrets auth max_clients).

Definition tidy (y : Sys) (i : Input) : bool := match i with IApp op => tidy_op (sp y) op | _ => true end.
Fixpoint tidy_run (y : Sys) (l : list Input) : bool :=
  match l with [] => true | i :: l => tidy y i && tidy_run (step y i) l end.

Lemma sync_sp y s : sview s = sview (sp y) → sys_sync y → sys_sync (set_sp s y).
Proof. intros E. by apply in_sync_ext. Qed.
Lemma step_sync y i : tidy y i = true → sys_sync y → sys_sync (step y i).
Proof.
  intros Hi Hy. destruct i as [op|timeout batch|i cl| |cl g|cl now r| | | |cl|]; cbn [sys_step].
  - by apply in_sync_app.
  - pose proof (sview_commit batch (sp y)) as E. destruct (commit batch (sp y)) as [b s]. by apply sync_sp.
  - destruct (sending y !! i) as [[timeout b]|]; [|done]. destruct (b !! cl) as [u|]; [|done]. by apply sync_sp.
  - destruct (accept max_clients (next_cl y) (sp y)) as [[o next] s] eqn:E.
    assert (Es : sview s = sview (sp y)) by (unfold accept, atomic_id_new in E; case_match; by injection E as <- <- <-).
    destruct o; by apply (in_sync_ext _ _ (sp y)).
  - destruct (decide _); [|done]. destruct g as [g|]; [|by apply in_sync_disconnect].
    pose proof (sview_hello secrets g (MkConn (sp y) (ClientCtx_new cl auth) [])) as E. destruct (hello _ _ _) as [[rs o] c].
    cbn in E. assert (Hc : in_sync (will_know y).1 (will_know y).2 (pub c)) by by apply (in_sync_ext _ _ (sp y)).
    destruct o; [done|by apply in_sync_disconnect..].
  - destruct (conns y !! cl) as [[x q]|]; [|done]. destruct (turn _ _ _ _ _ _ _) as [[fl o] c] eqn:Ht.
    pose proof (in_sync_turn _ _ _ _ _ _ _ _ _ Ht Hy) as Hc. destruct o; [done|by apply in_sync_disconnect..].
  - destruct (loop y) eqn:El; try done. destruct (triggers (io (sp y))) as [|reply rest]; [done|].
    unfold sys_sync, will_know, remaining in Hy. rewrite El in Hy. cbn [foldl fst snd] in Hy.
    pose proof (loop_take_sync _ _ reply rest _ Hy) as Hl. destruct (loop_take _ _) as [w s']. exact Hl.
  - destruct (loop y) as [|[[|t l] u r]|] eqn:El; try done. unfold sys_sync, will_know, remaining in *. rewrite El in Hy.
    cbn [w_told foldl set_loop loop] in *. assert (E : tell_sets (told y, told_default y) t = (told (tell t y), told_default (tell t y))) by by destruct t.
    rewrite E in Hy. by destruct t.
  - destruct (loop y) as [|[[|t l] u r]|] eqn:El; try done. unfold sys_sync, will_know, remaining in *. rewrite El in Hy.
    cbn [w_told foldl] in Hy. unfold loop_commit. case_bool_decide; [done|].
    pose proof (sview_commit (loop_batch (MkWork [] u r)) (sp y)) as E. destruct (commit _ (sp y)) as [b s].
    by apply (in_sync_ext _ _ (sp y)).
  - destruct (loop y) as [| |w b] eqn:El; try done. destruct (b !! cl) as [u|]; [|done].
    unfold sys_sync, will_know, remaining in *. rewrite El in Hy. by apply (in_sync_ext _ _ (sp y)).
  - destruct (loop y) as [| |w b] eqn:El; try done. destruct (decide _); [|done].
    unfold sys_sync, will_know, remaining in *. rewrite El in Hy. apply (in_sync_ext _ _ (sp y)); [|done].
    unfold loop_reply. by case_match.
Qed.
Lemma run_sync_from y l : tidy_run y l = true → sys_sync y → sys_sync (run y l).
Proof.
  revert y. induction l as [|i l IH]; intros y Hl Hy; [done|]. cbn in Hl. apply andb_true_iff in Hl as [H1 H2].
  apply (IH (step y i) H2). by apply step_sync.
Qed.
Lemma run_sync l : tidy_run sys_new l = true → sys_sync (run sys_new l).
Proof. intros Hl. apply run_sync_from; [done|]. apply in_sync_new. Qed.

(** The paths of the resolver *)
Definition wanted_set (s : PublisherInner) : gset str := dom (by_path s) ∪ ⋃ ((map_to_list (advertised s)).*2).
Lemma wanted_set_iff s p : p ∈ wanted_set s ↔ wanted s p.
Proof.
  unfold wanted_set, wanted, advertises. rewrite elem_of_union, elem_of_dom, elem_of_union_list. apply or_iff_compat_l. split.
  - intros (set & Hs & Hp). apply list_elem_of_fmap in Hs as ([b x] & -> & Hb%elem_of_map_to_list). by exists b, x.
  - intros (b & set & Hb & Hp). exists set. split; [|done]. apply list_elem_of_fmap. exists (b, set). split; [done|]. by apply elem_of_map_to_list.
Qed.
(** Nothing is left to do for the loop *)
Definition quiescent (y : Sys) : Prop := loop y = Idle ∧ triggers (io (sp y)) = [].
Lemma quiescent_sync y : sys_sync y → quiescent y → told y = wanted_set (sp y) ∧ told_default y = dom (defaults (sp y)).
Proof.
  intros [H1 H2 H3 H4 H5 H6] [El Et]. unfold will_know, remaining in H1, H2. rewrite El in H1, H2. cbn in H1, H2.
  assert (Hn : ¬ pending (sp y)). { intros H%H5%H6. rewrite Et in H. by apply elem_of_nil in H. }
  assert (E1 : to_publish (sp y) = ∅) by (destruct (decide (to_publish (sp y) = ∅)); [done|]; exfalso; apply Hn; by left).
  assert (E2 : to_publish_default (sp y) = ∅) by (destruct (decide (to_publish_default (sp y) = ∅)); [done|]; exfalso; apply Hn; right; by left).
  assert (E3 : to_unpublish (sp y) = ∅) by (destruct (decide (to_unpublish (sp y) = ∅)); [done|]; exfalso; apply Hn; do 2 right; by left).
  assert (E4 : to_unpublish_default (sp y) = ∅) by (destruct (decide (to_unpublish_default (sp y) = ∅)); [done|]; exfalso; apply Hn; by do 3 right).
  split; apply set_eq; intros p.
  - rewrite wanted_set_iff, <-H1, E1, E3, lookup_empty. split; [intros ?; split; [by left|set_solver]|]. by intros [[?|[]] _].
  - rewrite elem_of_dom, <-H2, E2, E4, lookup_empty. split; [intros ?; split; [by left|set_solver]|]. by intros [[?|[]] _].
Qed.

(** ** The loop catches up *)

Definition is_loop (i : Input) : bool :=
  match i with ILoopTake | ILoopTell | ILoopCommit | ILoopDeliver _ | ILoopEnd => true | _ => false end.
(** What the program has published does not change meanwhile. *)
Definition pview (s : PublisherInner) := (by_path s, advertised s, defaults s).
(** From [y] the loop can get to a state with [P] by itself *)
Definition loop_reaches (P : Sys → Prop) (y : Sys) : Prop :=
  ∃ l, forallb is_loop l = true ∧ pview (sp (run y l)) = pview (sp y) ∧ P (run y l).
Lemma loop_reaches_here (P : Sys → Prop) y : P y → loop_reaches P y.
Proof. by exists []. Qed.
Lemma loop_reaches_step (P : Sys → Prop) i y :
  is_loop i = true → pview (sp (step y i)) = pview (sp y) → loop_reaches P (step y i) → loop_reaches P y.
Proof.
  intros Hi E (l & Hl & El & Hp). exists (i :: l). cbn. rewrite Hi, Hl. split_and!; [done| |done]. exact (eq_trans El E).
Qed.
Lemma sending_ends (P : Sys → Prop) y w b :
  loop y = Sending w b →
  (∀ y', loop y' = Idle → triggers (io (sp y')) = triggers (io (sp y)) → loop_reaches P y') →
  loop_reaches P y.
Proof.
  remember (size b) as n eqn:Hn. revert y b Hn. induction n as [|n IH]; intros y b Hn El Hk.
  - symmetry in Hn. apply map_size_empty_inv in Hn as ->.
    assert (E : step y ILoopEnd = set_loop Idle (set_sp (loop_reply w (sp y)) y)) by (cbn; rewrite El; by rewrite decide_True).
    apply (loop_reaches_step _ ILoopEnd); [done|rewrite E; cbn; unfold loop_reply; by case_match|].
    rewrite E. apply Hk; [done|]. cbn. unfold loop_reply. by case_match.
  - destruct (map_choose b) as (cl & u & Hu). { intros ->. by rewrite map_size_empty in Hn. }
    assert (E : step y (ILoopDeliver cl) = set_loop (Sending w (delete cl b)) (set_sp (send_update None cl u (sp y)) y)) by (cbn; by rewrite El, Hu).
    apply (loop_reaches_step _ (ILoopDeliver cl)); [done|by rewrite E|]. rewrite E.
    apply (IH _ (delete cl b)); [|done|].
    + rewrite map_size_delete_Some by (by eexists). lia.
    + intros y' E1 E2. apply Hk; [done|]. rewrite E2. done.
Qed.
Lemma telling_ends (P : Sys → Prop) y w :
  loop y = Telling w →
  (∀ y', loop y' = Idle → triggers (io (sp y')) = triggers (io (sp y)) → loop_reaches P y') →
  loop_reaches P y.
Proof.
  destruct w as [l u r]. revert y. induction l as [|t l IH]; intros y El Hk.
  - assert (E : step y ILoopCommit = let '(b, s) := loop_commit (MkWork [] u r) (sp y) in set_loop (Sending (MkWork [] u r) b) (set_sp s y))
      by (cbn; by rewrite El).
    assert (Ec : sview (loop_commit (MkWork [] u r) (sp y)).2 = sview (sp y)).
    { unfold loop_commit. case_bool_decide; [done|apply sview_commit]. }
    destruct (loop_commit _ (sp y)) as [b s]. cbn in Ec. unfold sview, loopv in Ec. injection Ec as E1 E2 _ _ _ _ E3 _ E4.
    apply (loop_reaches_step _ ILoopCommit); [done|rewrite E; unfold pview; cbn; by rewrite E1, E2, E3|]. rewrite E.
    apply (sending_ends _ _ (MkWork [] u r) b); [done|]. intros y' H1 H2. apply Hk; [done|]. rewrite H2. exact E4.
  - assert (E : step y ILoopTell = set_loop (Telling (MkWork l u r)) (tell t y)) by (cbn; by rewrite El).
    assert (Et : sp (tell t y) = sp y) by by destruct t.
    apply (loop_reaches_step _ ILoopTell); [done|rewrite E; cbn; by rewrite Et|]. rewrite E. apply IH; [done|].
    intros y' H1 H2. apply Hk; [done|]. rewrite H2. cbn. by rewrite Et.
Qed.
Lemma loop_drains y : loop_reaches quiescent y.
Proof.
  enough (Hidle : ∀ n y, length (triggers (io (sp y))) = n → loop y = Idle → loop_reaches quiescent y).
  { destruct (loop y) as [|w|w b] eqn:El; [by eapply Hidle| |].
    - apply (telling_ends _ y w); [done|]. intros y' H1 _. by eapply Hidle.
    - apply (sending_ends _ y w b); [done|]. intros y' H1 _. by eapply Hidle. }
  clear y. intros n. induction n as [|n IH]; intros y Hn El.
  - apply loop_reaches_here. split; [done|]. by apply nil_length_inv.
  - destruct (triggers (io (sp y))) as [|reply rest] eqn:Et; [done|].
    assert (E : step y ILoopTake = let '(w, s) := loop_take reply (upd_io (io_triggers (fun _ => rest)) (sp y)) in set_loop (Telling w) (set_sp s y))
      by (cbn [sys_step]; by rewrite El, Et).
    apply (loop_reaches_step _ ILoopTake); [done|by rewrite E|]. rewrite E.
    eapply telling_ends; [done|]. intros y' H1 H2. apply IH; [|done]. rewrite H2. cbn in Hn. cbn. lia.
Qed.
Lemma tidy_loop y l : forallb is_loop l = true → tidy_run y l = true.
Proof.
  revert y. induction l as [|i l IH]; intros y Hl; [done|]. cbn in Hl. apply andb_true_iff in Hl as [H1 H2]. cbn.
  rewrite IH by done. by destruct i.
Qed.
Lemma catches_up y : sys_sync y →
  loop_reaches (fun y' => quiescent y' ∧ told y' = wanted_set (sp y) ∧ told_default y' = dom (defaults (sp y))) y.
Proof.
  intros Hy. destruct (loop_drains y) as (l & Hl & E & Hq). exists l. split_and!; try done.
  - pose proof (quiescent_sync _ (run_sync_from y l (tidy_loop y l Hl) Hy) Hq) as [-> _].
    unfold pview in E. injection E as E1 E2 E3. unfold wanted_set. by rewrite E1, E2.
  - pose proof (quiescent_sync _ (run_sync_from y l (tidy_loop y l Hl) Hy) Hq) as [_ ->].
    unfold pview in E. injection E as E1 E2 E3. by rewrite E3.
Qed.
End Sync.
