(* ===== verification/PubAuth.v ===== *)
(** Who may subscribe and write: every subscription goes back to a message that carried a
    token for the path, every write on its way to the program to a subscription that
    allowed it. *)
From Stdlib Require Import ZArith Lia.
From stdpp Require Import base gmap list strings sorting relations.
From Stdlib Require Import Strings.Byte.
From S2P Require Import Prelude Varint Pack Containers PackTypes Path PathFacts Order Glob Derive Proto.
From S2P Require Import Store Permissions Channel Float Value ValuePack ValueOrd PubProto Publisher PubServer PubFacts PubSubs PubTurn PubSystem PubInv.

Section Auth.
Context {ES : Escaping} {LY : Layout} {VA : ValueApi} {CM : ChunkMap} {VC : ValueCmp} {SH : Sha3}.
Context {PO : PubOrder} {POK : PubOrderOk PO}.
Context (reg : Registry) (arc_shared : gset ClId → bool) (next_wid : WriteId).
Context (secrets : gmap SocketAddr u128) (auth : DesiredAuth) (max_clients : Z).
Abbreviation step := (sys_step reg arc_shared next_wid secrets auth max_clients).
Abbreviation run := (sys_run reg arc_shared next_wid secrets auth max_clients).

(** ** What the history of a run says *)

Definition authorised (l : list Input) (cl : ClId) (path : str) (p : Z) : Prop :=
  ∃ now batch, ITurn cl now (RBatch batch) ∈ l ∧ granted secrets auth now batch path p.
Definition published_as (l : list Input) (path : str) (id : Id) : Prop :=
  ∃ pre post, l = pre ++ post ∧ by_path (sp (run sys_new pre)) !! path = Some id.
Definition may (l : list Input) (cl : ClId) (id : Id) (p : Z) : Prop :=
  ∃ path, authorised l cl path p ∧ published_as l path id.
Lemma authorised_more l l' cl path p : authorised l cl path p → authorised (l ++ l') cl path p.
Proof. intros (now & batch & H & Hg). exists now, batch. split; [apply elem_of_app; by left|done]. Qed.
Lemma may_more l l' cl id p : may l cl id p → may (l ++ l') cl id p.
Proof.
  intros (path & H & pre & post & -> & Hp). exists path. split; [by apply authorised_more|]. exists pre, (post ++ l'). by rewrite app_assoc.
Qed.

(** The subscriptions, and the writes on their way, of a state *)
Definition subs_ok (M : ClId → Id → Z → Prop) (s : PublisherInner) : Prop :=
  ∀ cl c id p, clients s !! cl = Some c → cl_subscribed c !! id = Some p → M cl id p.
Record conn_auth (M : ClId → Id → Z → Prop) (A : str → Z → Prop) (x : ClientCtx) : Prop := {
  a_deferred path p w : (path, p, w) ∈ deferred_subs x → A path p;
  a_batch path p : (path, p) ∈ deferred_subs_batch x → A path p;
  a_req r : has_req x r → wr_client r = client x ∧ ∃ p, M (client x) (wr_id r) p ∧ Z.land p WRITE = WRITE
}.

(** Paths only go during a turn *)
Lemma unpublish_all_by_path l s p id :
  by_path (foldl (fun s p => inner_unpublish p s) s l) !! p = Some id → by_path s !! p = Some id.
Proof.
  intros H. pose proof (core_unpublish_all l s) as E. destruct (unpublish_all_frame l (core s)) as (_ & _ & _ & _ & _ & _ & _ & _ & _ & Hp).
  rewrite <-E in Hp. specialize (Hp p). cbn in Hp. rewrite Hp in H. by destruct (decide _).
Qed.
Lemma destroy_by_path i s p id : by_path (destroy_val i s) !! p = Some id → by_path s !! p = Some id.
Proof.
  destruct (by_id s !! i) as [v|] eqn:Hv; [|by rewrite destroy_none]. pose proof (core_destroy i s v Hv) as E.
  destruct (destroy_frame i v (core s)) as (_ & _ & _ & _ & _ & _ & _ & _ & Hp). rewrite <-E in Hp. specialize (Hp p). cbn in Hp.
  rewrite Hp. by destruct (decide _).
Qed.
Lemma unsubscribe_by_path cl i s p id : (∀ e v, hc_subscribed s !! e = Some v → v = e) →
  by_path (unsubscribe arc_shared cl i s) !! p = Some id → by_path s !! p = Some id.
Proof.
  intros Hhc. destruct (by_id s !! i) as [ut|] eqn:Hi; [|by rewrite unsubscribe_none].
  destruct (unsubscribe_spec arc_shared cl i ut s Hhc Hi) as (hc & s1 & _ & E & Hu).
  assert (E1 : by_path s1 = by_path s) by exact (f_equal k_by_path E). rewrite <-E1.
  destruct Hu as [->|[_ ->]]; [done|apply destroy_by_path].
Qed.
Lemma unsubscribe_clients cl i s x : (∀ e v, hc_subscribed s !! e = Some v → v = e) → by_id s !! i = Some x →
  clients (unsubscribe arc_shared cl i s) = alter (fun c => set_cl_subscribed (delete i (cl_subscribed c)) c) cl (clients s).
Proof.
  intros Hhc Hi. destruct (unsubscribe_spec arc_shared cl i x s Hhc Hi) as (hc & s1 & _ & E & Hu).
  assert (E1 : clients s1 = alter (fun c => set_cl_subscribed (delete i (cl_subscribed c)) c) cl (clients s)) by exact (f_equal k_clients E).
  rewrite <-E1. destruct Hu as [->|[_ ->]]; [done|]. by destruct (destroy_val_frame i s1) as (-> & _).
Qed.

Lemma subs_ok_core M s s' : core s' = core s → subs_ok M s → subs_ok M s'.
Proof. intros E H cl c id p. rewrite (dom_clients_core s s' E). apply H. Qed.
Lemma subs_ok_alter M f cl s : (∀ c, cl_subscribed (f c) ⊆ cl_subscribed c) → subs_ok M s → subs_ok M (upd_clients (alter f cl) s).
Proof.
  intros Hf H x c id p. cbn. destruct (decide (cl = x)) as [->|Hne].
  - rewrite lookup_alter_eq. destruct (clients s !! x) as [c0|] eqn:E; [|done]. intros [= <-] Hp. apply (H x c0); [done|].
    by eapply lookup_weaken; [|apply Hf].
  - rewrite lookup_alter_ne by done. apply H.
Qed.
Lemma subs_ok_unsubscribe M cl i s : (∀ e v, hc_subscribed s !! e = Some v → v = e) → subs_ok M s → subs_ok M (unsubscribe arc_shared cl i s).
Proof.
  intros Hhc H. destruct (by_id s !! i) as [x|] eqn:Hi; [|by rewrite unsubscribe_none].
  intros y c id p. rewrite (unsubscribe_clients cl i s x Hhc Hi).
  refine (subs_ok_alter M (fun c => set_cl_subscribed (delete i (cl_subscribed c)) c) cl s _ H y c id p). intros c'. apply delete_subseteq.
Qed.
Lemma subs_ok_add M cl id p ut s : M cl id p → subs_ok M s → subs_ok M (add_subscriber cl id p ut s).
Proof.
  intros HM H. assert (E : clients (add_subscriber cl id p ut s) = alter (fun c => set_cl_subscribed (<[id := p]> (cl_subscribed c)) c) cl (clients s)).
  { unfold add_subscriber, hc_entry. by destruct (hc_subscribed _ !! _). }
  intros x c i q. rewrite E. destruct (decide (cl = x)) as [->|Hne]; [|rewrite lookup_alter_ne by done; apply H].
  rewrite lookup_alter_eq. destruct (clients s !! x) as [c0|] eqn:Ec; [|done]. intros [= <-]. cbn.
  destruct (decide (i = id)) as [->|Hi]; [rewrite lookup_insert_eq; by intros [= <-]|]. rewrite lookup_insert_ne by done. by apply (H x c0).
Qed.

(** ** Turns *)

Section Turns.
Context (M : ClId → Id → Z → Prop) (A : str → Z → Prop) (B : str → Id → Prop) (cl : ClId).
Context (HM : ∀ path p id, A path p → B path id → M cl id p).

Record turn_auth (c : Conn) : Prop := {
  ta_ok : conn_ok c;
  ta_client : client (ctx c) = cl;
  ta_subs : subs_ok M (pub c);
  ta_conn : conn_auth M A (ctx c);
  ta_paths path id : by_path (pub c) !! path = Some id → B path id
}.
Lemma conn_auth_same c c' : client (ctx c') = client (ctx c) → same_deferred c c' → fewer_reqs c c' →
  conn_auth M A (ctx c) → conn_auth M A (ctx c').
Proof.
  intros Hcl [E1 E2] Hf [H1 H2 H3]. split; rewrite ?E1, ?E2, ?Hcl; try done. intros r Hr. by apply H3, Hf.
Qed.
Lemma cstep_auth ok G c c' : (∀ path p, G path p → A path p) → turn_auth c → cstep reg arc_shared next_wid ok G c c' → turn_auth c'.
Proof.
  intros HG [Hok Hcl Hs Hc Hp] Hstep. destruct (cstep_ok _ _ _ _ _ _ _ Hok Hstep) as [Hok' _].
  destruct (cstep_ctx _ _ _ _ _ _ _ Hstep) as [Hcl' _]. rewrite Hcl in Hcl'.
  assert (Hbp : ∀ s s', core s' = core s → by_path s' = by_path s) by (intros s s' E; exact (f_equal k_by_path E)).
  assert (Hadd : ∀ path p id ut, G path p → by_path (pub c) !! path = Some id → by_path (add_subscriber cl id p ut (pub c)) = by_path (pub c) ∧
    subs_ok M (add_subscriber cl id p ut (pub c))).
  { intros path p id ut Hg Hpath. split; [unfold add_subscriber, hc_entry; by destruct (hc_subscribed _ !! _)|].
    apply subs_ok_add; [|done]. eapply HM; [by apply HG|by apply Hp]. }
  destruct Hstep as [c' [E _ Ec _] Hd Hf _|m|path p id ut c' Hg Hpath Hid [E _ Ec _] Hd Hf _|path p id ut _ Hg Hpath Hid|id| |path p w c' Hg [E _ Ec _] Hd1 Hd2 Hf _|
    i path p w Hi| |id p x c' Hx Hxp Hw [E _ Ec _] Hd _ Hr|u q subs usr l rest Hq].
  - split; [done|done|by eapply subs_ok_core|by eapply conn_auth_same|by rewrite (Hbp _ _ E)].
  - by split.
  - cbn [pub on_pub] in E. rewrite Hcl in E. destruct (Hadd path p id ut Hg Hpath) as [E1 E2].
    split; [done|done|by eapply subs_ok_core|by eapply conn_auth_same|]. rewrite (Hbp _ _ E), E1. done.
  - rewrite Hcl. destruct (Hadd path p id ut Hg Hpath) as [E1 E2]. rewrite Hcl in Hok'. split; [done|done|done|done|]. cbn [pub on_pub]. by rewrite E1.
  - pose proof (t_hc _ (co_tables _ Hok)) as Hhc. split; [done|done|by apply subs_ok_unsubscribe|done|].
    intros path i H. apply Hp. exact (unsubscribe_by_path _ _ _ _ _ Hhc H).
  - by split.
  - split; [done|done|by eapply subs_ok_core| |by rewrite (Hbp _ _ E)]. destruct Hc as [H1 H2 H3]. split; rewrite ?Hd1, ?Hd2, ?Ec; [|done|].
    + intros path' p' w' [H|H]%elem_of_app; [by eapply H1|]. apply list_elem_of_singleton in H. injection H as -> -> ->. by apply HG.
    + intros r Hr. by apply H3, Hf.
  - split; try done. destruct Hc as [H1 H2 H3]. split; cbn; [| |done].
    + intros path' p' w' H. apply (H1 path' p' w'). apply list_elem_of_lookup in H as [j Hj]. apply list_elem_of_lookup.
      destruct (decide (j < i)%nat); [rewrite list_lookup_delete_lt in Hj by done|rewrite list_lookup_delete_ge in Hj by lia]; by eexists.
    + intros path' p' [H|H]%elem_of_app; [by apply H2|]. apply list_elem_of_singleton in H. injection H as -> ->.
      eapply H1. by eapply list_elem_of_lookup_2.
  - split; try done. destruct Hc as [H1 H2 H3]. split; cbn; try done. intros path p H. by apply elem_of_nil in H.
  - split; [done|done|by eapply subs_ok_core| |by rewrite (Hbp _ _ E)]. destruct Hc as [H1 H2 H3]. destruct Hd as [Hd1 Hd2].
    split; rewrite ?Hd1, ?Hd2, ?Ec; try done. intros r [H|[<- ->]]%Hr; [by apply H3|]. split; [done|]. exists p. split; [|done].
    by apply (Hs _ x).
  - split; try done. intros y z i p. cbn. destruct (decide (y = client (ctx c))) as [->|Hne].
    + rewrite lookup_insert_eq. intros [= <-]. cbn. by apply (Hs _ _ i p Hq).
    + rewrite lookup_insert_ne by done. apply Hs.
Qed.
Lemma csteps_auth ok G c c' : (∀ path p, G path p → A path p) → turn_auth c → rtc (cstep reg arc_shared next_wid ok G) c c' → turn_auth c'.
Proof. intros HG Hc H. revert Hc. induction H as [|x y z H _ IH]; intros Hc; [done|]. apply IH. by eapply cstep_auth. Qed.
End Turns.

(** ** Runs *)

Record auth_inv (l : list Input) (y : Sys) : Prop := {
  v_subs : subs_ok (may l) (sp y);
  v_conn cl x q : conns y !! cl = Some (x, q) → conn_auth (may l) (authorised l cl) x
}.
Lemma auth_more l l' y : auth_inv l y → auth_inv (l ++ l') y.
Proof.
  intros [H1 H2]. split.
  - intros cl c id p Hc Hp. by apply may_more, (H1 cl c).
  - intros cl x q Hx. destruct (H2 cl x q Hx) as [H3 H4 H5]. split.
    + intros path p w H. by apply authorised_more, (H3 path p w).
    + intros path p H. by apply authorised_more, H4.
    + intros r Hr. destruct (H5 r Hr) as (E & p & Hp & Hw). split; [done|]. exists p. split; [by apply may_more|done].
Qed.
Lemma auth_sp l y s : auth_inv l y → subs_ok (may l) s → auth_inv l (set_sp s y).
Proof. intros [H1 H2] H. by split. Qed.
Lemma subs_ok_same M s s' : clients s' = clients s → subs_ok M s → subs_ok M s'.
Proof. intros E H cl c id p. rewrite E. apply H. Qed.
Lemma subs_ok_disconnect M cl s : tables s → subs_ok M s → subs_ok M (disconnect arc_shared cl s).
Proof.
  intros Ht H. unfold disconnect. destruct (clients s !! cl) as [c|] eqn:Hc; [|done].
  set (s1 := upd_clients (delete cl) s). assert (H1 : clients s1 !! cl = None) by apply lookup_delete_eq.
  assert (Hk : tables_core (readd cl c (core s1))).
  { unfold readd, s1. cbn. rewrite insert_delete_id by done. by destruct (core s). }
  assert (Hs : subs_ok M s1). { intros x z i p Hz. change (delete cl (clients s) !! x = Some z) in Hz. apply lookup_delete_Some in Hz as [_ Hz]. by apply (H x z). }
  generalize (id_order (dom (cl_subscribed c))). intros l.
  enough (Hf : subs_ok M (foldl (fun s id => unsubscribe arc_shared cl id s) s1 l)) by exact Hf.
  clear Ht H Hc. clearbody s1. revert s1 c H1 Hk Hs. induction l as [|i l IH]; intros s1 c H1 Hk Hs; [done|]. cbn.
  destruct (readd_unsubscribe arc_shared cl i c s1 H1 Hk) as [H2 Hk']. apply (IH _ _ H2 Hk').
  apply subs_ok_unsubscribe; [apply (t_hc _ Hk)|done].
Qed.
Lemma hello_subs g c M : subs_ok M (pub c) → subs_ok M (pub (hello secrets g c).2).
Proof.
  intros Hs. assert (Hu : ∀ u, subs_ok M (client_arrived (set_user secrets (client (ctx c)) u (pub c)))).
  { intros u. unfold client_arrived, set_user. repeat case_match; try done. by apply (subs_ok_alter M _ _ (pub c)). }
  unfold hello. destruct (g_hello g); try done; repeat case_match; try done; apply Hu.
Qed.
Lemma lose_auth l y cl s : auth_inv l y → tables s → subs_ok (may l) s → auth_inv l (lose arc_shared cl s y).
Proof.
  intros [H1 H2] Ht Hs. split; [by apply subs_ok_disconnect|]. intros c x q Hx. cbn in Hx. apply lookup_delete_Some in Hx as [_ Hx].
  by apply (H2 c x q).
Qed.

(** A turn of a connection *)
Lemma turn_auth_run l y cl now r x q fl o c :
  sys_inv auth (length l) y → y = run sys_new l → auth_inv l y → conns y !! cl = Some (x, q) →
  turn reg arc_shared next_wid secrets now r (MkConn (sp y) x q) = (fl, o, c) →
  let l' := l ++ [ITurn cl now r] in
  subs_ok (may l') (pub c) ∧ conn_auth (may l') (authorised l' cl) (ctx c).
Proof.
  intros Hi Ey Ha Hx Ht l'. destruct (i_conn _ _ _ Hi cl x q Hx) as [Ecl Eau].
  apply (auth_more l [ITurn cl now r]) in Ha. fold l' in Ha.
  set (B := fun path id => by_path (sp y) !! path = Some id).
  assert (HM : ∀ path p id, authorised l' cl path p → B path id → may l' cl id p).
  { intros path p id H1 H2. exists path. split; [done|]. exists l, [ITurn cl now r]. split; [done|]. by rewrite <-Ey. }
  assert (Hc0 : turn_auth (may l') (authorised l' cl) B cl (MkConn (sp y) x q)).
  { split; cbn; [|done|apply Ha|by apply (v_conn _ _ Ha cl x q)|done]. split; cbn; [apply Hi|]. rewrite (i_clients _ _ _ Hi), Ecl.
    apply elem_of_union_r, elem_of_dom. by eexists. }
  apply turn_steps in Ht.
  enough (Hc : turn_auth (may l') (authorised l' cl) B cl c) by (split; apply Hc).
  assert (HG : ∀ path p, turn_grants secrets now r (MkConn (sp y) x q) path p → authorised l' cl path p).
  { intros path p. destruct r as [| |i []|batch| | | |]; cbn; try done.
    - apply (v_conn _ _ Ha cl x q Hx).
    - intros Hg. exists now, batch. split; [apply elem_of_app; right; by left|]. by rewrite <-Eau. }
  assert (Ho : outcome reg arc_shared next_wid (turn_grants secrets now r (MkConn (sp y) x q)) (MkConn (sp y) x q) (o, c) →
    turn_auth (may l') (authorised l' cl) B cl c).
  { destruct o; cbn; [| |done]; by apply (csteps_auth _ _ _ _ HM). }
  destruct r; [|by apply Ho, Ht..].
  destruct Ht as (_ & _ & [E1 E2 E3 E4] & Hd & Hf & _).
  assert (H1 : turn_auth (may l') (authorised l' cl) B cl (MkConn (pub c) (ctx c) q)).
  { apply (cstep_auth _ _ _ _ HM true (fun _ _ => False) (MkConn (sp y) x q)); [done|exact Hc0|]. by apply c_quiet. }
  destruct H1 as [[] ? ? ? ?]. by split.
Qed.

Lemma turn_step_auth l y cl now r :
  sys_inv auth (length l) y → y = run sys_new l → auth_inv l y → auth_inv (l ++ [ITurn cl now r]) (step y (ITurn cl now r)).
Proof.
  intros Hi Ey Ha. pose proof (auth_more l [ITurn cl now r] y Ha) as Hm. pose proof (i_tables _ _ _ Hi) as Ht. cbn [sys_step].
  destruct (conns y !! cl) as [[x q]|] eqn:Hc; [|done]. destruct (turn _ _ _ _ _ _ _) as [[fl o] c] eqn:Htn.
  destruct (turn_auth_run l y cl now r x q fl o c Hi Ey Ha Hc Htn) as [H1 H2].
  set (y' := set_sent _ y). assert (Hy' : auth_inv (l ++ [ITurn cl now r]) y') by (by destruct Hm).
  destruct (i_conn _ _ _ Hi cl x q Hc) as [Ecl Eau].
  assert (Hc0 : conn_ok (MkConn (sp y) x q)).
  { split; cbn; [done|]. rewrite (i_clients _ _ _ Hi), Ecl. apply elem_of_union_r, elem_of_dom. by eexists. }
  destruct (turn_ok _ _ _ _ _ _ _ _ _ _ Hc0 Htn) as ([Ht' _] & _).
  destruct o; [|by apply lose_auth..]. destruct Hm as [H3 H4]. split; [done|]. intros z x' q'. cbn.
  destruct (decide (z = cl)) as [->|Hne]; [rewrite lookup_insert_eq; by intros [= <- <-]|rewrite lookup_insert_ne by done; apply H4].
Qed.
Lemma step_auth l i : Z.of_nat (length l) + 1 < 2 ^ 64 → auth_inv l (run sys_new l) → auth_inv (l ++ [i]) (step (run sys_new l) i).
Proof.
  intros Hn Ha. pose proof (run_inv reg arc_shared next_wid secrets auth max_clients l ltac:(lia)) as Hi.
  remember (run sys_new l) as y eqn:Ey. pose proof (auth_more l [i] y Ha) as Hm. pose proof (i_tables _ _ _ Hi) as Ht. pose proof (i_next _ _ _ Hi) as Hx.
  destruct i as [op|timeout batch|i cl| |cl g|cl now r| | | |cl|]; cbn [sys_step].
  - apply auth_sp; [done|]. destruct (app_frame op (sp y) Ht) as [E _]; [lia..|]. apply (subs_ok_same _ _ _ E), Hm.
  - pose proof (commit_frame batch (sp y)) as E. destruct (commit batch (sp y)) as [b s]. pose proof (f_equal k_clients E) as E1.
    destruct Hm as [H1 H2]. split; [|done]. by apply (subs_ok_same _ _ _ E1).
  - destruct (sending y !! i) as [[timeout b]|]; [|done]. destruct (b !! cl) as [u|]; [|done].
    destruct Hm as [H1 H2]. split; [|done]. by apply subs_ok_alter.
  - destruct (accept max_clients (next_cl y) (sp y)) as [[o next] s] eqn:E. destruct Hm as [H1 H2].
    assert (Hs : subs_ok (may (l ++ [IAccept])) s).
    { unfold accept, atomic_id_new in E. case_match; injection E as <- <- <-; [|done]. intros c z id p. cbn.
      destruct (decide (c = MkId (next_cl y))) as [->|Hne]; [rewrite lookup_insert_eq; intros [= <-]; cbn; by rewrite lookup_empty|].
      rewrite lookup_insert_ne by done. apply H1. }
    by destruct o.
  - destruct (decide _) as [Hg|]; [|done]. destruct g as [g|]; [|by apply lose_auth; [|done|apply Hm]].
    pose proof (hello_frame secrets g (MkConn (sp y) (ClientCtx_new cl auth) [])) as H.
    pose proof (hello_subs g (MkConn (sp y) (ClientCtx_new cl auth) []) (may (l ++ [IHello cl (Some g)])) (v_subs _ _ Hm)) as Hs.
    destruct (hello secrets g _) as [[rs o] c]. destruct H as (H1 & _ & _ & H4 & _). cbn in H1, H4, Hs.
    destruct o; [|by apply lose_auth; [|by apply H1|]..]. destruct Hm as [H2 H3]. split; [done|]. intros z x q. cbn.
    destruct (decide (z = cl)) as [->|Hne]; [rewrite lookup_insert_eq; intros [= <- <-]|rewrite lookup_insert_ne by done; apply H3].
    rewrite H4. split; cbn; [intros path p w ?%elem_of_nil|intros path p ?%elem_of_nil|intros r [(ch & q' & tx & E & _)|(tx & q' & E%elem_of_nil & _)]]; try done.
  - by apply turn_step_auth.
  - destruct (loop y); try done. destruct (triggers (io (sp y))) as [|reply rest]; [done|]. destruct Hm as [H1 H2]. by split.
  - destruct (loop y) as [|[[|t q] u r]|]; try done. destruct Hm as [H1 H2]. by destruct t.
  - destruct (loop y) as [|[[|t q] u r]|]; try done. destruct Hm as [H1 H2]. unfold loop_commit. case_bool_decide; [done|].
    pose proof (commit_frame (loop_batch (MkWork [] u r)) (sp y)) as E. destruct (commit _ (sp y)) as [b s]. pose proof (f_equal k_clients E) as E1.
    split; [|done]. by apply (subs_ok_same _ _ _ E1).
  - destruct (loop y) as [| |w b]; try done. destruct (b !! cl) as [u|]; [|done]. destruct Hm as [H1 H2]. split; [|done]. by apply subs_ok_alter.
  - destruct (loop y) as [| |w b]; try done. destruct (decide _); [|done]. destruct Hm as [H1 H2]. split; [|done].
    apply (subs_ok_same _ (sp y)); [|done]. unfold loop_reply. by case_match.
Qed.
Lemma run_auth l : Z.of_nat (length l) < 2 ^ 64 → auth_inv l (run sys_new l).
Proof.
  induction l as [|i l IH] using rev_ind; intros Hl.
  - split; [|done]. intros cl c id p H. change ((∅ : gmap ClId Client) !! cl = Some c) in H. by rewrite lookup_empty in H.
  - rewrite length_app in Hl. cbn in Hl. unfold sys_run at 1. rewrite foldl_snoc. apply step_auth; [lia|]. apply IH. lia.
Qed.
End Auth.
