(* ===== verification/PubFresh.v ===== *)
(** What a subscriber is sent ends with the current value: the messages on their way to it
    carry the value the publisher has. *)
From Stdlib Require Import ZArith Lia.
From stdpp Require Import base gmap list strings sorting relations.
From Stdlib Require Import Strings.Byte.
From S2P Require Import Prelude Varint Pack Containers PackTypes Path PathFacts Order Glob Derive Proto.
From S2P Require Import Store Permissions Channel Float Value ValuePack ValueOrd PubProto Publisher PubServer PubFacts PubSubs PubTurn PubSystem PubInv.

Section Fresh.
Context {ES : Escaping} {LY : Layout} {VA : ValueApi} {CM : ChunkMap} {VC : ValueCmp} {SH : Sha3}.
Context {PO : PubOrder} {POK : PubOrderOk PO}.
Context (reg : Registry) (arc_shared : gset ClId → bool) (next_wid : WriteId).
Context (cl : ClId) (id : Id).

(** ** The last value of a stream of messages *)

Definition latest (l : list From) : option Value := last (omap (news id) l).
Lemma latest_app l l' : latest (l ++ l') = match latest l' with Some v => Some v | None => latest l end.
Proof.
  unfold latest. rewrite omap_app. destruct (omap (news id) l') as [|x r] eqn:E using rev_ind.
  - by rewrite app_nil_r.
  - by rewrite app_assoc, !last_snoc.
Qed.
Lemma latest_none m : no_news m → latest [m] = None.
Proof. intros H. unfold latest. cbn. by rewrite H. Qed.

(** The messages queued for the client, and those of the commits under way *)
Definition queued (q : list (option Duration * Update)) : list From := concat ((fun u => updates u.2) <$> q).
Definition updates_for (b : gmap ClId Update) : list From := from_option updates [] (b !! cl).
Definition in_flight (l : list (option Duration * gmap ClId Update)) : list From := concat ((fun u => updates_for u.2) <$> l).
Definition waiting (s : PublisherInner) : list From := from_option (fun c => queued (msg_queue c)) [] (clients s !! cl).
Definition has_sub (s : PublisherInner) : Prop := subscribes (clients s) cl id.

(** [s'] has no new value and no new subscription *)
Record tame (s s' : PublisherInner) : Prop := {
  m_value v' : by_id s' !! id = Some v' → ∃ v, by_id s !! id = Some v ∧ current v = current v';
  m_sub : has_sub s' → has_sub s ∧ waiting s' = waiting s
}.
Lemma tame_refl s : tame s s.
Proof. split; [by eauto|done]. Qed.
Lemma tame_trans s1 s2 s3 : tame s1 s2 → tame s2 s3 → tame s1 s3.
Proof.
  intros [H1 H2] [H3 H4]. split.
  - intros v (v2 & Hv2 & <-)%H3. by apply H1.
  - intros [Hs ->]%H4. by apply H2.
Qed.
Lemma tame_core s s' : by_id s' = by_id s → clients s' = clients s → tame s s'.
Proof. intros E1 E2. split; unfold has_sub, waiting; rewrite ?E1, ?E2; [by eauto|done]. Qed.
Lemma waiting_alter f x s : (∀ c, msg_queue (f c) = msg_queue c) → waiting (upd_clients (alter f x) s) = waiting s.
Proof.
  intros Hf. unfold waiting. cbn. destruct (decide (x = cl)) as [->|Hne]; [|by rewrite lookup_alter_ne].
  rewrite lookup_alter_eq. destruct (clients s !! cl); cbn; [|done]. by rewrite Hf.
Qed.
Lemma tame_destroy i s : tame s (destroy_val i s).
Proof.
  destruct (by_id s !! i) as [v|] eqn:Hv; [|rewrite destroy_none by done; apply tame_refl].
  destruct (destroy_val_frame i s) as (Ec & _). pose proof (core_destroy i s v Hv) as E. destruct (destroy_frame i v (core s)) as (_ & _ & Hb & _).
  rewrite <-E in Hb. cbn in Hb. split; [|unfold has_sub, waiting; by rewrite Ec].
  intros v'. rewrite Hb. intros [_ H]%lookup_delete_Some. by eauto.
Qed.
Lemma tame_unsubscribe x i s : (∀ e v, hc_subscribed s !! e = Some v → v = e) → tame s (unsubscribe arc_shared x i s).
Proof.
  intros Hhc. destruct (by_id s !! i) as [ut|] eqn:Hi; [|rewrite unsubscribe_none by done; apply tame_refl].
  destruct (unsubscribe_spec arc_shared x i ut s Hhc Hi) as (hc & s1 & _ & E & Hu).
  assert (H1 : tame s s1).
  { pose proof (f_equal k_by_id E) as E1. pose proof (f_equal k_clients E) as E2. cbn in E1, E2. split.
    - intros v'. rewrite E1. destruct (decide (id = i)) as [->|Hne].
      + rewrite lookup_insert_eq. intros [= <-]. by exists ut.
      + rewrite lookup_insert_ne by done. by eauto.
    - unfold has_sub. rewrite E2, alter_forget. intros [H _]. split; [done|].
      unfold waiting. rewrite E2. apply (waiting_alter _ x s). done. }
  destruct Hu as [->|[_ ->]]; [done|]. eapply tame_trans; [done|apply tame_destroy].
Qed.
Lemma tame_add x i p ut s : by_id s !! i = Some ut → x ≠ cl ∨ i ≠ id → tame s (add_subscriber x i p ut s).
Proof.
  intros Hi Hne. assert (E2 : clients (add_subscriber x i p ut s) = alter (fun c => set_cl_subscribed (<[i := p]> (cl_subscribed c)) c) x (clients s)).
  { unfold add_subscriber, hc_entry. by destruct (hc_subscribed _ !! _). }
  assert (E1 : ∃ subs, by_id (add_subscriber x i p ut s) = <[i := set_subscribed subs ut]> (by_id s)).
  { unfold add_subscriber, hc_entry. destruct (hc_subscribed _ !! _); by eexists. }
  destruct E1 as [subs E1]. split.
  - intros v'. rewrite E1. destruct (decide (id = i)) as [->|Hd]; [rewrite lookup_insert_eq; intros [= <-]; by exists ut|].
    rewrite lookup_insert_ne by done. by eauto.
  - unfold has_sub, waiting. rewrite E2. intros H. split; [|by apply (waiting_alter _ x s)]. revert H. unfold subscribes.
    destruct (decide (x = cl)) as [->|Hx]; [|by rewrite lookup_alter_ne].
    rewrite lookup_alter_eq. destruct (clients s !! cl) as [c|]; [|by intros (? & ? & _)]. intros (? & [= <-] & H). exists c. split; [done|].
    cbn in H. rewrite lookup_insert_ne in H; [done|]. naive_solver.
Qed.

(** ** Turns *)

Lemma tame_quiet c c' : quiet c c' → tame (pub c) (pub c').
Proof. intros [E _ _ _]. apply tame_core; [exact (f_equal k_by_id E)|exact (f_equal k_clients E)]. Qed.
(** ... of another client *)
Lemma tame_cstep ok G c c' : conn_ok c → client (ctx c) ≠ cl → cstep reg arc_shared next_wid ok G c c' → tame (pub c) (pub c').
Proof.
  intros Hok Hne H. pose proof (t_hc _ (co_tables _ Hok)) as Hhc.
  destruct H as [c' Hq|m|path p i ut c' _ _ Hi Hq|path p i ut _ _ _ Hi|i| |path p w c' _ Hq|i path p w| |i p x c' _ _ _ Hq|u q subs usr l rest Hu];
    try apply tame_refl; try by apply tame_quiet.
  - eapply tame_trans; [|by apply tame_quiet]. apply tame_add; [done|by left].
  - apply tame_add; [done|by left].
  - by apply tame_unsubscribe.
  - by apply tame_core.
  - split; cbn; [by eauto|]. unfold has_sub, subscribes, waiting. cbn. rewrite lookup_insert_ne by done. done.
Qed.
Lemma tame_csteps ok G c c' : conn_ok c → client (ctx c) ≠ cl → rtc (cstep reg arc_shared next_wid ok G) c c' → tame (pub c) (pub c').
Proof.
  intros Hok Hne H. revert Hok Hne. induction H as [|x y z H _ IH]; intros Hok Hne; [apply tame_refl|].
  destruct (cstep_ok _ _ _ _ _ _ _ Hok H) as [Hok' _]. destruct (cstep_ctx _ _ _ _ _ _ _ H) as [E _].
  eapply tame_trans; [by eapply tame_cstep|]. apply IH; [done|by rewrite E].
Qed.

(** ... of the client itself: [S] was sent to it, [F] is under way *)
Definition own_ok (S F : list From) (c : Conn) : Prop :=
  ∀ v, by_id (pub c) !! id = Some v →
  (∀ w, latest (waiting (pub c) ++ F) = Some w → w = current v) ∧
  (has_sub (pub c) → latest (S ++ con c ++ waiting (pub c) ++ F) = Some (current v)).
Lemma own_tame S F c c' :
  tame (pub c) (pub c') → waiting (pub c') = waiting (pub c) → latest (con c') = latest (con c) → own_ok S F c → own_ok S F c'.
Proof.
  intros [H1 H2] Hw Hc H v' Hv'. destruct (H1 v' Hv') as (v & Hv & <-). destruct (H v Hv) as [H3 H4]. rewrite Hw. split; [done|].
  intros [Hs _]%H2. specialize (H4 Hs). rewrite !latest_app in *. by rewrite Hc.
Qed.
Lemma waiting_core s s' : core s' = core s → waiting s' = waiting s.
Proof. intros E. unfold waiting. by rewrite (dom_clients_core _ _ E). Qed.
Lemma waiting_unsubscribe x i s : (∀ e v, hc_subscribed s !! e = Some v → v = e) → waiting (unsubscribe arc_shared x i s) = waiting s.
Proof.
  intros Hhc. destruct (by_id s !! i) as [ut|] eqn:Hi; [|by rewrite unsubscribe_none].
  destruct (unsubscribe_spec arc_shared x i ut s Hhc Hi) as (hc & s1 & _ & E & Hu). pose proof (f_equal k_clients E) as E2. cbn in E2.
  assert (H1 : waiting s1 = waiting s) by (unfold waiting; rewrite E2; by apply (waiting_alter _ x s)).
  destruct Hu as [->|[_ ->]]; [done|]. unfold waiting. destruct (destroy_val_frame i s1) as (-> & _). exact H1.
Qed.
Lemma waiting_add x i p ut s : waiting (add_subscriber x i p ut s) = waiting s.
Proof.
  assert (E2 : clients (add_subscriber x i p ut s) = alter (fun c => set_cl_subscribed (<[i := p]> (cl_subscribed c)) c) x (clients s)).
  { unfold add_subscriber, hc_entry. by destruct (hc_subscribed _ !! _). }
  unfold waiting. rewrite E2. by apply (waiting_alter _ x s).
Qed.
Lemma latest_snoc_none l m : no_news m → latest (l ++ [m]) = latest l.
Proof. intros H. rewrite latest_app. by rewrite latest_none. Qed.
Lemma latest_subscribed path i v : latest [From_Subscribed path i v] = if decide (i = id) then Some v else None.
Proof. unfold latest. cbn. by destruct (decide (i = id)). Qed.
Lemma own_cstep G S F c c' : conn_ok c → client (ctx c) = cl → cstep reg arc_shared next_wid true G c c' → own_ok S F c → own_ok S F c'.
Proof.
  intros Hok Hcl H Ho. pose proof (t_hc _ (co_tables _ Hok)) as Hhc.
  assert (Hq : ∀ c', quiet c c' → con c' = con c → own_ok S F c').
  { intros x Hx Ex. eapply own_tame; [by apply tame_quiet|apply waiting_core, Hx|by rewrite Ex|done]. }
  destruct H as [c' Hx _ _ Ex|m Hm|path p i ut c' _ _ Hi Hx _ _ Ex| |i| |path p w c' _ Hx _ _ _ Ex|i path p w| |i p x c' _ _ _ Hx _ Ex|u q subs usr l rest Hu Hl Hr];
    try by apply Hq.
  - apply (own_tame S F c); [apply tame_refl|done|by apply latest_snoc_none|done].
  - destruct (decide (i = id)) as [->|Hne].
    + destruct Hx as [E _ _ _]. cbn [pub on_pub] in E.
      intros v Hv. pose proof (f_equal k_by_id E) as Eb. cbn in Eb. rewrite Eb in Hv.
      assert (Ev : current v = current ut).
      { unfold add_subscriber, hc_entry in Hv. destruct (hc_subscribed _ !! _); cbn in Hv; rewrite lookup_insert_eq in Hv; by injection Hv as <-. }
      rewrite (waiting_core _ _ E), waiting_add. destruct (Ho ut Hi) as [H1 H2]. rewrite Ev. split; [done|]. intros _.
      rewrite Ex, !latest_app, latest_subscribed, decide_True by done.
      rewrite !latest_app in H1. destruct (latest F) as [w|]; [f_equal; by apply H1|].
      destruct (latest (waiting (pub c))) as [w|]; [f_equal; by apply H1|done].
    + eapply own_tame; [eapply tame_trans; [|by apply tame_quiet]; by apply tame_add; [|right]| | |done].
      * destruct Hx as [E _ _ _]. rewrite (waiting_core _ _ E). apply waiting_add.
      * rewrite Ex, latest_app, latest_subscribed. by rewrite decide_False.
  - apply (own_tame S F c); [by apply tame_unsubscribe|by apply waiting_unsubscribe|done|done].
  - apply (own_tame S F c); [by apply tame_core|done|done|done].
  - rewrite (Hr eq_refl), app_nil_r in Hl. subst l. intros v Hv. destruct (Ho v Hv) as [H1 H2].
    assert (E1 : waiting (pub c) = updates u.2 ++ queued q).
    { unfold waiting. rewrite <-Hcl, Hu. done. }
    assert (E2 : waiting (pub (append_con (updates u.2) (on_clients <[client (ctx c) := MkClient q subs usr]> c))) = queued q).
    { unfold waiting. cbn. by rewrite <-Hcl, lookup_insert_eq. }
    rewrite E2. rewrite E1 in H1, H2. split.
    + intros w Hw. apply H1. rewrite <-app_assoc, latest_app, Hw. done.
    + intros Hs. cbn [con append_con on_clients on_pub]. rewrite <-(H2 ltac:(unfold has_sub, subscribes in *; cbn in Hs; rewrite <-Hcl, lookup_insert_eq in Hs; rewrite <-Hcl, Hu; destruct Hs as (? & [= <-] & Hs); by eexists)).
      by rewrite <-!app_assoc.
Qed.
Lemma own_csteps G S F c c' : conn_ok c → client (ctx c) = cl → rtc (cstep reg arc_shared next_wid true G) c c' → own_ok S F c → own_ok S F c'.
Proof.
  intros Hok Hcl H. revert Hok Hcl. induction H as [|x y z H _ IH]; intros Hok Hcl Ho; [done|].
  destruct (cstep_ok _ _ _ _ _ _ _ Hok H) as [Hok' _]. destruct (cstep_ctx _ _ _ _ _ _ _ H) as [E _].
  apply IH; [done|by rewrite E|]. exact (own_cstep G S F x y Hok Hcl H Ho).
Qed.

(** ** Commits *)

Lemma push_update_for m x b : updates_for (push_update m x b) = updates_for b ++ if decide (x = cl) then [m] else [].
Proof.
  unfold updates_for, push_update. destruct (decide (x = cl)) as [->|Hne].
  - rewrite lookup_insert_eq. cbn. by destruct (b !! cl).
  - by rewrite lookup_insert_ne, app_nil_r.
Qed.
Lemma push_all_for m l b : NoDup l →
  updates_for (foldr (push_update m) b l) = updates_for b ++ if decide (cl ∈ l) then [m] else [].
Proof.
  induction l as [|x l IH]; intros Hl; cbn [foldr].
  { rewrite decide_False by apply not_elem_of_nil. by rewrite app_nil_r. }
  apply NoDup_cons in Hl as [Hx Hl]. rewrite push_update_for, IH by done. destruct (decide (x = cl)) as [->|Hne].
  - rewrite decide_False by done. rewrite app_nil_r. by rewrite decide_True by (by left).
  - rewrite app_nil_r. f_equal. apply decide_ext. rewrite elem_of_cons. naive_solver.
Qed.
Lemma push_unsub_for i x b : updates_for (push_unsub i x b) = updates_for b.
Proof.
  unfold updates_for, push_unsub. destruct (decide (x = cl)) as [->|Hne]; [|by rewrite lookup_insert_ne].
  rewrite lookup_insert_eq. by destruct (b !! cl).
Qed.
(** Everybody who subscribes is sent the new value. *)
Definition committed (L : list From) (sb : PublisherInner * gmap ClId Update) : Prop :=
  ∀ v, by_id sb.1 !! id = Some v → has_sub sb.1 → latest (L ++ updates_for sb.2) = Some (current v).
(** Only a message to everyone changes what the client sees *)
Definition direct (m : BatchMsg) : bool := match m with BUpdate (Some x) i _ => bool_decide (x = cl ∧ i = id) | _ => false end.
Lemma latest_update i v : latest [From_Update i v] = if decide (i = id) then Some v else None.
Proof. unfold latest. cbn. by destruct (decide (i = id)). Qed.
Lemma committed_all L i x pbl sb : tables sb.1 → by_id sb.1 !! i = Some pbl → committed L sb → committed L (update_all i x pbl sb).
Proof.
  intros Ht Hi Hc v Hv Hs. cbn [update_all fst snd] in *. change (has_sub sb.1) in Hs.
  rewrite push_all_for by apply NoDup_elements. rewrite (decide_ext _ _ _ _ (elem_of_elements (subscribed pbl) cl)).
  destruct (decide (i = id)) as [->|Hne].
  - assert (Hin : cl ∈ subscribed pbl) by (by apply (t_subs _ Ht id pbl)). rewrite decide_True by done.
    rewrite app_assoc, latest_app, latest_update, decide_True by done. f_equal.
    change (<[id := set_current x pbl]> (by_id sb.1) !! id = Some v) in Hv. rewrite lookup_insert_eq in Hv. by injection Hv as <-.
  - change (<[i := set_current x pbl]> (by_id sb.1) !! id = Some v) in Hv. rewrite lookup_insert_ne in Hv by done.
    specialize (Hc v Hv Hs). rewrite app_assoc, latest_app. destruct (decide (cl ∈ subscribed pbl)); [|done].
    by rewrite latest_update, decide_False.
Qed.
Lemma committed_msg L m sb : direct m = false → tables sb.1 → committed L sb → committed L (commit_msg sb m).
Proof.
  intros Hd Ht Hc. destruct m as [i x|[y|] i x]; cbn [commit_msg].
  - destruct (by_id sb.1 !! i) as [pbl|] eqn:Hi; [|done]. case_match; [done|]. by apply committed_all.
  - intros v Hv Hs. cbn [fst snd] in *. rewrite push_update_for. specialize (Hc v Hv Hs). rewrite app_assoc, latest_app.
    destruct (decide (y = cl)) as [->|]; [|done]. rewrite latest_update. cbn in Hd. apply bool_decide_eq_false in Hd.
    rewrite decide_False by naive_solver. done.
  - destruct (by_id sb.1 !! i) as [pbl|] eqn:Hi; [|done]. by apply committed_all.
Qed.
Lemma committed_msgs L l sb : forallb (fun m => negb (direct m)) l = true → tables sb.1 → committed L sb → committed L (foldl commit_msg sb l).
Proof.
  revert sb. induction l as [|m l IH]; intros sb Hl Ht Hc; [done|]. cbn in Hl. apply andb_true_iff in Hl as [Hm Hl].
  apply negb_true_iff in Hm. apply IH; [done|by apply tables_commit_msg|by apply committed_msg].
Qed.
Lemma commit_fresh L batch s : tables s → forallb (fun m => negb (direct m)) (b_updates batch) = true →
  (∀ v, by_id s !! id = Some v → has_sub s → latest L = Some (current v)) →
  let '(b, s') := commit batch s in ∀ v, by_id s' !! id = Some v → has_sub s' → latest (L ++ updates_for b) = Some (current v).
Proof.
  intros Ht Hl H. unfold commit. destruct (bool_decide (b_updates batch = []) && _); [cbn; by rewrite app_nil_r|].
  assert (H0 : committed L (s, ∅)) by (intros v; cbn; rewrite app_nil_r; apply H).
  pose proof (committed_msgs L (b_updates batch) (s, ∅) Hl Ht H0) as Hc.
  pose proof (tables_commit_msgs (b_updates batch) (s, ∅) Ht) as Ht'.
  destruct (foldl commit_msg _ _) as [s1 b]. cbn in Hc, Ht'.
  assert (Hu : ∀ l b, updates_for (foldl (fun b (ci : ClId * Id) => push_unsub ci.2 ci.1 b) b l) = updates_for b).
  { intros l. induction l as [|ci l IH]; intros b'; [done|]. cbn. by rewrite IH, push_unsub_for. }
  intros v Hv Hs. rewrite <-(Hc v Hv Hs). cbn [fst snd]. f_equal. f_equal. specialize (Hu (default [] (b_unsubscribes batch)) b).
  destruct Hs as (c & Hcl & _). set (b' := foldl _ b _) in *. rewrite <-Hu. unfold updates_for.
  match goal with |- context [filter ?P b'] => destruct (filter P b' !! cl) as [u|] eqn:E end.
  - apply map_lookup_filter_Some in E as [E _]. by rewrite E.
  - apply map_lookup_filter_None in E as [E|E]; [by rewrite E|]. destruct (b' !! cl) as [u|] eqn:Eb; [|done].
    exfalso. apply (E u eq_refl). by eexists.
Qed.
Lemma commit_empty batch s b s' : b_updates batch = [] → commit batch s = (b, s') → s' = s ∧ ∀ x u, b !! x = Some u → updates u = [].
Proof.
  intros Hb. unfold commit. rewrite Hb. cbn [foldl]. case_match; [intros [= <- <-]; split; [done|]; intros x u; by rewrite lookup_empty|].
  intros [= <- <-]. split; [done|]. intros x u [Hu _]%map_lookup_filter_Some. revert u Hu.
  enough (Hl : ∀ l (b0 : gmap ClId Update), (∀ x u, b0 !! x = Some u → updates u = []) →
    ∀ x u, foldl (fun b (ci : ClId * Id) => push_unsub ci.2 ci.1 b) b0 l !! x = Some u → updates u = []) by (apply Hl; intros ??; by rewrite lookup_empty).
  intros l. induction l as [|ci l IH]; intros b0 H0; [done|]. apply IH. intros y u. unfold push_unsub.
  destruct (decide (y = ci.1)) as [->|Hne]; [|rewrite lookup_insert_ne by done; apply H0].
  rewrite lookup_insert_eq. intros [= <-]. cbn. destruct (b0 !! ci.1) eqn:E; cbn; [by eapply H0|done].
Qed.

(** ** The program's calls *)

Definition keeps_value (s s' : PublisherInner) : Prop :=
  ∀ v', by_id s' !! id = Some v' → ∃ v, by_id s !! id = Some v ∧ current v = current v'.
Lemma keeps_same s s' : by_id s' = by_id s → keeps_value s s'.
Proof. intros E v'. rewrite E. by eauto. Qed.
Lemma keeps_insert s s' i w w' : by_id s !! i = Some w → current w = current w' → by_id s' = <[i := w']> (by_id s) → keeps_value s s'.
Proof.
  intros Hi Hc E v'. rewrite E. destruct (decide (id = i)) as [->|Hne]; [|rewrite lookup_insert_ne by done; by eauto].
  rewrite lookup_insert_eq. intros [= <-]. by eauto.
Qed.
Lemma by_id_trigger s : by_id (trigger_publish s) = by_id s.
Proof. exact (f_equal k_by_id (core_trigger s)). Qed.
Lemma by_id_unpublish_all l s : by_id (foldl (fun s p => inner_unpublish p s) s l) = by_id s.
Proof.
  pose proof (core_unpublish_all l s) as E. destruct (unpublish_all_frame l (core s)) as (_ & _ & H & _). rewrite <-E in H. exact H.
Qed.
Lemma app_keeps op s : tables s → 0 ≤ next_id (io s) → next_id (io s) + 1 < 2 ^ 64 → has_sub s → keeps_value s (app op s).
Proof.
  intros Ht H0 H1 Hs.
  destruct op as [flags path init tx|i flags path|i path|i|i|flags base tx|base flags path|base path|base| | | | |i| | | |]; cbn [app];
    try (by apply keeps_same).
  - destruct (publish_with_flags_and_writes flags path init tx s) as [[i|e|] s'] eqn:Hp; cbn.
    + destruct (publish_spec _ _ _ _ _ _ _ Hp Ht H0 H1) as (-> & _ & _ & _ & hc & _ & E). pose proof (f_equal k_by_id E) as Eb. cbn in Eb.
      intros v'. rewrite Eb. destruct (decide (id = MkId (next_id (io s)))) as [e|Hne]; [|rewrite lookup_insert_ne by done; by eauto].
      pose proof (t_fresh _ Ht id (or_intror (ex_intro _ cl Hs))) as Hf. rewrite e in Hf. cbn in Hf. lia.
    + rewrite (publish_err _ _ _ _ _ _ _ Hp). by apply keeps_same.
    + pose proof (publish_no_panic flags path init tx s). by rewrite Hp in *.
  - unfold alias_with_flags. case_bool_decide as Hi; [by apply keeps_same|]. destruct (check_publish s path); [|by apply keeps_same..].
    pose proof (f_equal k_by_id (core_publish i (flags_remove flags DESTROY_ON_IDLE) path s)) as Eb. cbn in Eb.
    destruct (by_id s !! i) as [w|] eqn:Hw; [|done]. rewrite Eb, Hw. cbn [snd]. eapply (keeps_insert s _ i w); [done| |cbn; by rewrite Eb]. done.
  - unfold remove_alias. destruct (by_id s !! i) as [w|] eqn:Hw; [|by apply keeps_same]. destruct (aliases w) as [al|]; [|by apply keeps_same].
    destruct (decide _); [|by apply keeps_same]. eapply (keeps_insert s _ i w); [done| |exact (f_equal k_by_id (core_unpublish _ _))]. done.
  - unfold remove_all_aliases. destruct (by_id s !! i) as [w|] eqn:Hw; [|by apply keeps_same]. destruct (aliases w) as [al|]; [|by apply keeps_same].
    eapply (keeps_insert s _ i w); [done| |by rewrite by_id_unpublish_all]. done.
  - exact (m_value _ _ (tame_destroy i s)).
  - apply keeps_same. unfold publish_default_with_flags. repeat (case_match; [done|]). cbn [snd]. by rewrite by_id_trigger.
  - apply keeps_same. unfold advertise_with_flags. case_match; [done|]. case_match; [|done]. cbn [snd]. by rewrite by_id_trigger.
  - apply keeps_same. unfold remove_advertisement. destruct (advertised s !! base); [|done]. case_match; [|done]. by rewrite by_id_trigger.
  - apply keeps_same. unfold drop_default. rewrite by_id_trigger. set (s1 := upd_to_unpublish_default _ _).
    destruct (advertised s1 !! base) as [paths|]; [|done].
    assert (Hf : ∀ l s2, by_id s2 = by_id s → by_id (foldl (fun s path => if bool_decide (by_path s !! path = None)
      then upd_to_unpublish (union {[path]}) (upd_to_publish (delete path) s) else s) s2 l) = by_id s).
    { intros l. induction l as [|q l IH]; intros s2 H2; [done|]. cbn. apply IH. by case_match. }
    by apply Hf.
  - apply keeps_same. exact (f_equal k_by_id (core_writes _ _ _)).
  - apply keeps_same. unfold wait_client. destruct (by_id s !! i) as [ut|]; [|done]. by destruct (decide (subscribed ut = ∅)).
  - apply keeps_same. unfold pub_wait_any_client. by case_match.
Qed.

(** ** Runs *)

Context (secrets : gmap SocketAddr u128) (auth : DesiredAuth) (max_clients : Z).
Abbreviation step := (sys_step reg arc_shared next_wid secrets auth max_clients).
Abbreviation run := (sys_run reg arc_shared next_wid secrets auth max_clients).

(** All that was sent to the client or is on its way, in the order it will arrive *)
Definition con_of (y : Sys) : list From := from_option snd [] (conns y !! cl).
Definition stream (y : Sys) : list From :=
  default [] (sent y !! cl) ++ con_of y ++ waiting (sp y) ++ in_flight (sending y).

(** What is assumed of an input: no update is sent to the client alone, the commits under
    way reach its queue in the order they were made, and while the client is not subscribed
    to the value and updates of it wait for the client or are in flight, its connection
    takes no turn at all: neither to subscribe again, nor to send what waits *)
Definition calm (y : Sys) (i : Input) : bool :=
  match i with
  | ICommit _ batch => forallb (fun m => negb (direct m)) (b_updates batch)
  | IDeliver i x => bool_decide (x ≠ cl) || forallb (fun u : option Duration * gmap ClId Update => match u.2 !! cl with None => true | _ => false end) (take i (sending y))
  | ITurn x _ _ =>
      bool_decide (x ≠ cl) ||
      match clients (sp y) !! cl ≫= (fun c => cl_subscribed c !! id) with Some _ => true | None => false end ||
      match latest (waiting (sp y) ++ in_flight (sending y)) with None => true | Some _ => false end
  | _ => true
  end.
Fixpoint calm_run (y : Sys) (l : list Input) : bool :=
  match l with [] => true | i :: l => calm y i && calm_run (step y i) l end.

Record fresh (y : Sys) : Prop := {
  f_value v : by_id (sp y) !! id = Some v → has_sub (sp y) → latest (stream y) = Some (current v);
  f_loop w b x u : loop y = Sending w b → b !! x = Some u → updates u = []
}.
Lemma fresh_tame y y' : tame (sp y) (sp y') → default [] (sent y' !! cl) ++ con_of y' = default [] (sent y !! cl) ++ con_of y →
  in_flight (sending y') = in_flight (sending y) → (∀ w b x u, loop y' = Sending w b → b !! x = Some u → updates u = []) →
  fresh y → fresh y'.
Proof.
  intros [H1 H2] Hc Hf Hl [H3 H4]. split; [|done]. intros v' Hv' Hs'. destruct (H1 v' Hv') as (v & Hv & <-). destruct (H2 Hs') as [Hs Ew].
  rewrite <-(H3 v Hv Hs). unfold stream. rewrite !(app_assoc (default [] _)), Hc, Hf, Ew. done.
Qed.
Lemma tame_disconnect x s : tables s → tame s (disconnect arc_shared x s) ∧ (x = cl → ¬ has_sub (disconnect arc_shared x s)).
Proof.
  intros Ht. destruct (tables_disconnect arc_shared x s Ht) as [_ Hno]. split; [|intros ->; by apply subscribes_none].
  unfold disconnect in *. destruct (clients s !! x) as [c|] eqn:Hc; [|apply tame_refl].
  set (s1 := upd_clients (delete x) s) in *. assert (H1 : clients s1 !! x = None) by apply lookup_delete_eq.
  assert (Hk : tables_core (readd x c (core s1))).
  { unfold readd, s1. cbn. rewrite insert_delete_id by done. by destruct (core s). }
  assert (Hs : tame s s1).
  { split; [by eauto|]. unfold has_sub, subscribes, waiting, s1. cbn. intros (c' & H & Hi). apply lookup_delete_Some in H as [Hne H].
    rewrite lookup_delete_ne by done. by eauto. }
  eapply tame_trans; [exact Hs|]. clear Hs Hno. generalize (id_order (dom (cl_subscribed c))). clearbody s1. clear Ht Hc s.
  intros l. eapply (tame_trans _ (foldl (fun s id => unsubscribe arc_shared x id s) s1 l)); [|by apply tame_core].
  revert s1 c H1 Hk. induction l as [|i l IH]; intros s1 c H1 Hk; [apply tame_refl|]. cbn.
  destruct (readd_unsubscribe arc_shared x i c s1 H1 Hk) as [H2 Hk'].
  eapply tame_trans; [|apply (IH _ _ H2 Hk')]. apply tame_unsubscribe, (t_hc _ Hk).
Qed.
Lemma fresh_gone y : (∀ w b x u, loop y = Sending w b → b !! x = Some u → updates u = []) → ¬ has_sub (sp y) → fresh y.
Proof. intros Hl Hn. split; [|done]. intros v _ Hs. done. Qed.
Lemma fresh_lose y x s : tables s → fresh y → (x ≠ cl → tame (sp y) s) → fresh (lose arc_shared x s y).
Proof.
  intros Ht Hy Hs. destruct (tame_disconnect x s Ht) as [Hd Hg]. destruct (decide (x = cl)) as [e|Hne].
  - apply fresh_gone; [apply (f_loop _ Hy)|by apply Hg].
  - eapply (fresh_tame y); [eapply tame_trans; [by apply Hs|exact Hd]| |done|apply (f_loop _ Hy)|done].
    unfold con_of. cbn. by rewrite lookup_delete_ne.
Qed.
Lemma in_flight_set_other i l timeout b x : x ≠ cl → l !! i = Some (timeout, b) →
  in_flight (<[i := (timeout, delete x b)]> l) = in_flight l.
Proof.
  intros Hne Hi. unfold in_flight. f_equal. rewrite list_fmap_insert. apply list_insert_id. rewrite list_lookup_fmap, Hi. cbn. f_equal.
  unfold updates_for. by rewrite lookup_delete_ne.
Qed.
Lemma in_flight_deliver i l timeout b u : b !! cl = Some u → l !! i = Some (timeout, b) →
  forallb (fun u : option Duration * gmap ClId Update => match u.2 !! cl with None => true | _ => false end) (take i l) = true →
  in_flight l = updates u ++ in_flight (<[i := (timeout, delete cl b)]> l).
Proof.
  intros Hb Hi. revert i Hi. induction l as [|[t' b'] l IH]; intros i Hi; [done|]. destruct i as [|i]; cbn [take forallb list_insert].
  - injection Hi as -> ->. intros _. unfold in_flight. cbn. unfold updates_for. by rewrite Hb, lookup_delete_eq.
  - intros [H1 H2]%andb_true_iff. cbn in Hi, H1. unfold in_flight in *. cbn. unfold updates_for at 1 3. destruct (b' !! cl); [done|]. cbn.
    by rewrite (IH i Hi H2).
Qed.

Lemma tame_send timeout x u s : x ≠ cl → tame s (send_update timeout x u s).
Proof.
  intros Hne. split; [by eauto|]. unfold has_sub, subscribes, waiting. cbn. by rewrite lookup_alter_ne.
Qed.
Lemma waiting_send timeout u s : is_Some (clients s !! cl) → waiting (send_update timeout cl u s) = waiting s ++ updates u.
Proof.
  intros [c Hc]. unfold waiting. cbn. rewrite lookup_alter_eq, Hc. cbn. unfold queued. rewrite fmap_app, concat_app. cbn. by rewrite app_nil_r.
Qed.
Lemma has_sub_send timeout x u s : has_sub (send_update timeout x u s) ↔ has_sub s.
Proof. by apply subscribes_alter. Qed.
Lemma tame_send_none timeout u s : updates u = [] → tame s (send_update timeout cl u s).
Proof.
  intros Hu. split; [by eauto|]. rewrite has_sub_send. intros Hs. split; [done|]. destruct Hs as (c & Hc & _).
  rewrite waiting_send by (by eexists). by rewrite Hu, app_nil_r.
Qed.
Lemma deliver_fresh y timeout u sending' F :
  F = updates u ++ in_flight sending' → in_flight (sending y) = F → fresh y →
  fresh (set_sending sending' (set_sp (send_update timeout cl u (sp y)) y)).
Proof.
  intros EF Ey [H1 H2]. split; [|done]. intros v Hv Hs. apply has_sub_send in Hs. rewrite <-(H1 v Hv Hs). unfold stream, con_of. cbn [sent conns sp sending set_sp set_sending].
  destruct Hs as (c & Hc & _). rewrite waiting_send by (by eexists). by rewrite Ey, EF, <-!app_assoc.
Qed.
Lemma tame_hello g c : tame (pub c) (pub (hello secrets g c).2).
Proof.
  assert (Hu : ∀ u, tame (pub c) (client_arrived (set_user secrets (client (ctx c)) u (pub c)))).
  { intros u. unfold client_arrived, set_user.
    assert (Hr : ∀ f x, (∀ c, cl_subscribed (f c) = cl_subscribed c) → (∀ c, msg_queue (f c) = msg_queue c) → tame (pub c) (upd_clients (alter f x) (pub c))).
    { intros f x H1 H2. split; [by eauto|]. unfold has_sub. cbn. rewrite subscribes_alter by done. intros ?. split; [done|by apply waiting_alter]. }
    repeat case_match; try (by apply tame_core). match goal with |- tame _ (wake _ (upd_wait_any_client _ ?s)) => apply (tame_trans _ s) end; [by apply Hr|by apply tame_core]. }
  unfold hello. destruct (g_hello g); try apply tame_refl; try (by apply tame_core); repeat case_match; try apply tame_refl; apply Hu.
Qed.
Lemma own_start y x q : fresh y → conns y !! cl = Some (x, q) →
  (is_Some (clients (sp y) !! cl ≫= (fun c => cl_subscribed c !! id)) ∨ latest (waiting (sp y) ++ in_flight (sending y)) = None) →
  own_ok (default [] (sent y !! cl)) (in_flight (sending y)) (MkConn (sp y) x q).
Proof.
  intros Hy Hx Hc v Hv. cbn in Hv. cbn [pub con].
  assert (E : stream y = default [] (sent y !! cl) ++ q ++ waiting (sp y) ++ in_flight (sending y)).
  { unfold stream, con_of. by rewrite Hx. }
  pose proof (f_value _ Hy v Hv) as H. rewrite E in H. split; [|done]. intros w Hw. destruct Hc as [Hs|Hn]; [|congruence].
  assert (Hs' : has_sub (sp y)).
  { destruct (clients (sp y) !! cl) as [c|] eqn:Ec; [|by destruct Hs]. exists c. by split. }
  specialize (H Hs'). rewrite !app_assoc, <-app_assoc, latest_app, Hw in H. by injection H.
Qed.
Lemma sent_set y x l : default [] (<[x := default [] (sent y !! x) ++ l]> (sent y) !! cl) =
  default [] (sent y !! cl) ++ if decide (x = cl) then l else [].
Proof.
  destruct (decide (x = cl)) as [e|Hne]; [rewrite e, lookup_insert_eq; done|by rewrite lookup_insert_ne, app_nil_r].
Qed.
Lemma turn_fresh n y x now r : sys_inv auth n y → calm y (ITurn x now r) = true → fresh y → fresh (step y (ITurn x now r)).
Proof.
  intros Hi Hcalm Hy. cbn [sys_step]. destruct (conns y !! x) as [[z q]|] eqn:Hx; [|done].
  destruct (i_conn _ _ _ Hi x z q Hx) as [Ecl _]. destruct (turn _ _ _ _ _ _ _) as [[fl o] c] eqn:Ht.
  assert (Hc0 : conn_ok (MkConn (sp y) z q)).
  { split; cbn; [apply Hi|]. rewrite (i_clients _ _ _ Hi), Ecl. apply elem_of_union_r, elem_of_dom. by eexists. }
  destruct (turn_ok _ _ _ _ _ _ _ _ _ _ Hc0 Ht) as ([Ht' _] & _). apply turn_steps in Ht.
  set (y1 := set_sent _ y). destruct (decide (x = cl)) as [e|Hne].
  - subst x. rewrite e in Hx. destruct o as [[]|er|]; [| |by destruct r; destruct Ht as [? Ht]; [destruct Ht|..]].
    2:{ apply fresh_gone; [apply (f_loop _ Hy)|]. by apply (tame_disconnect (client z) (pub c) Ht'). }
    assert (Hst : own_ok (default [] (sent y !! cl)) (in_flight (sending y)) (MkConn (sp y) z q)).
    { apply own_start; [done|done|]. cbn in Hcalm. apply orb_true_iff in Hcalm as [Hcalm|Hn].
      - left. apply orb_true_iff in Hcalm as [Hn%bool_decide_eq_true|Hn]; [congruence|]. by destruct (_ ≫= _).
      - right. by destruct (latest _). }
    assert (Hend : own_ok (default [] (sent y !! cl) ++ fl) (in_flight (sending y)) c).
    { destruct r; [|destruct Ht as [-> Ht]; cbn in Ht; rewrite app_nil_r;
        by apply (own_csteps _ _ _ _ _ Hc0 ltac:(cbn; congruence) Ht)..].
      destruct Ht as (-> & _ & Hq & _ & _ & Ec). intros v Hv. cbn [con].
      destruct (m_value _ _ (tame_quiet _ _ Hq) v Hv) as (v0 & Hv0 & <-). destruct (Hst v0 Hv0) as [H1 H2].
      rewrite Ec. destruct Hq as [E _ _ _]. rewrite (waiting_core _ _ E). split; [done|]. unfold has_sub.
      rewrite (dom_clients_core _ _ E). intros Hs. rewrite <-(H2 Hs). by rewrite <-app_assoc. }
    split; [|apply (f_loop _ Hy)]. intros v Hv Hs. destruct (Hend v Hv) as [_ H]. specialize (H Hs). rewrite <-H.
    unfold stream, con_of. cbn [sent conns sp sending set_sp set_conns set_sent y1]. rewrite sent_set.
    rewrite decide_True by done. rewrite e, lookup_insert_eq. done.
  - assert (Htame : tame (sp y) (pub c)).
    { assert (Ho : ∀ G, outcome reg arc_shared next_wid G (MkConn (sp y) z q) (o, c) → tame (sp y) (pub c)).
      { intros G. destruct o; cbn; [| |done]; intros H; by apply (tame_csteps _ _ _ _ Hc0 ltac:(cbn; congruence) H). }
      destruct r; [|destruct Ht as [_ Ht]; by eapply Ho..]. destruct Ht as (_ & _ & Hq & _). by apply tame_quiet in Hq. }
    assert (Hy1 : fresh y1).
    { eapply (fresh_tame y); [apply tame_refl| |done|apply (f_loop _ Hy)|done]. cbn [sent set_sent y1]. rewrite sent_set.
      by rewrite decide_False, app_nil_r. }
    destruct o; [|by apply fresh_lose..]. eapply (fresh_tame y1); [done| |done|apply (f_loop _ Hy)|done].
    unfold con_of. cbn. by rewrite !lookup_insert_ne by done.
Qed.

Lemma step_fresh n y i : sys_inv auth n y → Z.of_nat n + 1 < 2 ^ 64 → calm y i = true → fresh y → fresh (step y i).
Proof.
  intros Hi Hn Hcalm Hy. pose proof (i_tables _ _ _ Hi) as Ht. pose proof (i_next _ _ _ Hi) as Hx. pose proof (f_loop _ Hy) as Hl.
  destruct i as [op|timeout batch|i x| |x g|x now r| | | |x|]; [| | | | |by eapply turn_fresh|..]; cbn [sys_step].
  - destruct (app_frame op (sp y) Ht) as [Ec _]; [lia..|]. split; [|done]. intros v' Hv' Hs.
    assert (Hs0 : has_sub (sp y)) by (unfold has_sub in *; cbn in Hs; by rewrite Ec in Hs).
    destruct (app_keeps op (sp y) Ht ltac:(lia) ltac:(lia) Hs0 v' Hv') as (v & Hv & <-). rewrite <-(f_value _ Hy v Hv Hs0).
    unfold stream, waiting. cbn. by rewrite Ec.
  - pose proof (commit_fresh (stream y) batch (sp y) Ht Hcalm (f_value _ Hy)) as H. pose proof (commit_frame batch (sp y)) as E.
    destruct (commit batch (sp y)) as [b s]. pose proof (f_equal k_clients E) as Ec. cbn in Ec. split; [|done]. intros v Hv Hs.
    rewrite <-(H v Hv Hs). unfold stream, waiting, in_flight. cbn. rewrite Ec, fmap_app, concat_app. cbn. by rewrite app_nil_r, <-!app_assoc.
  - destruct (sending y !! i) as [[timeout b]|] eqn:Ei; [|done]. destruct (b !! x) as [u|] eqn:Eb; [|done].
    destruct (decide (x = cl)) as [->|Hne].
    + cbn in Hcalm. rewrite bool_decide_eq_false_2 in Hcalm by (by intros []). cbn in Hcalm.
      apply deliver_fresh with (F := in_flight (sending y)); [|done..]. by apply (in_flight_deliver _ _ timeout b).
    + eapply (fresh_tame y); [by apply tame_send|done|by apply in_flight_set_other|done|done].
  - destruct (accept max_clients (next_cl y) (sp y)) as [[o next] s] eqn:E.
    assert (Hs : tame (sp y) s).
    { unfold accept, atomic_id_new in E. case_match; injection E as <- <- <-; [|apply tame_refl]. split; [by eauto|].
      unfold has_sub. cbn. rewrite subscribes_insert. destruct (decide _) as [->|Hne]; [cbn; rewrite lookup_empty; by intros []|].
      unfold waiting. cbn. by rewrite lookup_insert_ne. }
    destruct o; by eapply (fresh_tame y).
  - destruct (decide _) as [Hg|]; [|done]. destruct g as [g|]; [|apply fresh_lose; [done|done|intros _; apply tame_refl]].
    pose proof (hello_frame secrets g (MkConn (sp y) (ClientCtx_new x auth) [])) as H.
    pose proof (tame_hello g (MkConn (sp y) (ClientCtx_new x auth) [])) as Hh.
    destruct (hello secrets g _) as [[rs o] c]. destruct H as (H1 & _ & _ & _ & H5). cbn in H1, H5, Hh.
    destruct o; [|by apply fresh_lose; [apply H1| |]..]. eapply (fresh_tame y); [done| |done|done|done].
    unfold con_of. cbn. rewrite H5. destruct (decide (x = cl)) as [->|Hne]; [|by rewrite lookup_insert_ne].
    rewrite lookup_insert_eq. assert (conns y !! cl = None) as -> by (apply not_elem_of_dom; pose proof (i_apart _ _ _ Hi); set_solver). done.
  - destruct (loop y); try done. destruct (triggers (io (sp y))) as [|reply rest]; [done|].
    eapply (fresh_tame y); [by apply tame_core|done|done|done|done].
  - destruct (loop y) as [|[[|t q] u r]|] eqn:El; try done. eapply (fresh_tame y); [|by destruct t|by destruct t|done|done].
    destruct t; apply tame_refl.
  - destruct (loop y) as [|[[|t q] u r]|] eqn:El; try done. unfold loop_commit. case_bool_decide.
    + eapply (fresh_tame y); [apply tame_refl|done|done| |done]. intros w b z v [= <- <-]. by rewrite lookup_empty.
    + destruct (commit (loop_batch (MkWork [] u r)) (sp y)) as [b s] eqn:Ec. apply commit_empty in Ec as [-> Hb]; [|done].
      eapply (fresh_tame y); [apply tame_refl|done|done| |done]. intros w b' z v [= <- <-]. apply Hb.
  - destruct (loop y) as [| |w b] eqn:El; try done. destruct (b !! x) as [u|] eqn:Eb; [|done].
    assert (Eu : updates u = []) by (by eapply Hl). eapply (fresh_tame y); [|done|done| |done].
    + destruct (decide (x = cl)) as [->|Hne]; [|by apply tame_send]. by apply tame_send_none.
    + intros w' b' z v [= <- <-] [_ Hz]%lookup_delete_Some. by eapply Hl.
  - destruct (loop y) as [| |w b] eqn:El; try done. destruct (decide _); [|done]. eapply (fresh_tame y); [|done|done|done|done].
    apply tame_core; unfold loop_reply; by case_match.
Qed.
Lemma run_fresh_from l : ∀ y n, sys_inv auth n y → Z.of_nat (n + length l) < 2 ^ 64 → calm_run y l = true → fresh y → fresh (run y l).
Proof.
  induction l as [|i l IH]; intros y n Hi Hn Hc Hy; [done|]. cbn in Hc, Hn. apply andb_true_iff in Hc as [H1 H2].
  apply (IH (step y i) (S n)); [apply step_inv; done || lia|lia|done|]. eapply step_fresh; [done|lia|done|done].
Qed.
Lemma fresh_new : fresh sys_new.
Proof. split; [|done]. intros v H. change ((∅ : gmap Id Published) !! id = Some v) in H. by rewrite lookup_empty in H. Qed.
End Fresh.
