(* ===== verification/PubClaims.v ===== *)
(** What the publisher promises: its tables agree with each other, the resolver is told
    what is published, nobody subscribes or writes without a token for it, and a
    subscriber is sent the current value. Each theorem is applied to a concrete run. *)
From Stdlib Require Import ZArith Lia.
From stdpp Require Import base gmap list strings sorting relations.
From Stdlib Require Import Strings.Byte.
From S2P Require Import Prelude Varint Pack Containers PackTypes Path PathFacts Order Glob Derive Proto.
From S2P Require Import Store StoreClaims Permissions Channel Float Value ValuePack ValueOrd ValueClaims PubProto.
From S2P Require Import Publisher PubServer PubFacts PubSubs PubTurn PubSystem PubInv PubSync PubAuth PubFresh.

Section Claims.
Context {ES : Escaping} {LY : Layout} {VA : ValueApi} {CM : ChunkMap} {VC : ValueCmp} {SH : Sha3}.
Context {PO : PubOrder} {POK : PubOrderOk PO}.
Context (reg : Registry) (arc_shared : gset ClId → bool) (next_wid : WriteId).
Context (secrets : gmap SocketAddr u128) (auth : DesiredAuth) (max_clients : Z).
Abbreviation run := (sys_run reg arc_shared next_wid secrets auth max_clients sys_new).

(** ** Tokens *)

Lemma check_token_true token now secret ts perms path p :
  check_token token now secret ts perms path = Ok (true, p) →
  token = make_sha3_token (sign_data secret ts perms path) ∧ p = uval perms ∧ Z.land p SUBSCRIBE = SUBSCRIBE ∧ Z.abs (now - uval ts) ≤ 300.
Proof.
  unfold check_token. destruct (zlen token <? 8); [done|]. destruct (negb _); [done|]. intros [= Hc <-].
  apply andb_true_iff in Hc as [Hc Ht%bool_decide_eq_true]. apply andb_true_iff in Hc as [Ha Hs]. split_and!; [done|done|lia|lia].
Qed.
Lemma check_token_ok token now secret ts perms path :
  token = make_sha3_token (sign_data secret ts perms path) → 8 ≤ zlen token → Z.land (uval perms) all_permissions = uval perms →
  Z.land (uval perms) SUBSCRIBE = SUBSCRIBE → Z.abs (now - uval ts) ≤ 300 →
  check_token token now secret ts perms path = Ok (true, uval perms).
Proof.
  intros -> Hl Hb Hs Ha. unfold check_token. rewrite (proj2 (Z.ltb_ge _ _)) by lia. rewrite Hb, Z.eqb_refl. cbn [negb].
  rewrite (proj2 (Z.leb_le _ _)) by lia. rewrite (proj2 (Z.eqb_eq _ _) Hs), bool_decide_eq_true_2 by done. done.
Qed.
(** In the run [l] the client sent a token of a resolver for the path, in time *)
Definition token_grant (l : list Input) (cl : ClId) (path : str) (p : Z) : Prop :=
  ∃ now batch resolver ts perms secret,
    ITurn cl now (RBatch batch) ∈ l ∧ secrets !! resolver = Some secret ∧
    To_Subscribe path resolver ts perms (make_sha3_token (sign_data secret ts perms path)) ∈ batch ∧
    p = uval perms ∧ Z.land p SUBSCRIBE = SUBSCRIBE ∧ Z.abs (now - uval ts) ≤ 300.
Lemma authorised_token l cl path p : auth ≠ DA_Anonymous → authorised secrets auth l cl path p → token_grant l cl path p.
Proof.
  intros Ha (now & batch & Hin & resolver & ts & perms & token & Hm & H). rewrite decide_False in H by done.
  destruct H as (secret & Hs & (-> & Hp & Hsub & Hage)%check_token_true). by exists now, batch, resolver, ts, perms, secret.
Qed.

(** A publisher that was shut down *)
Lemma shutdown_spec s :
  let z := shutdown s in
  by_id z = ∅ ∧ clients z = ∅ ∧ by_path z = by_path s ∧
  (∀ flags path init tx, ∃ e z', publish_with_flags_and_writes flags path init tx z = (Err e, z') ∧
     by_path z' = by_path z ∧ by_id z' = ∅ ∧ to_publish z' = to_publish z) ∧
  (∀ flags base tx, ∃ e, publish_default_with_flags flags base tx z = (Err e, z)).
Proof.
  split_and!; [done..| |].
  - intros flags path init tx. unfold publish_with_flags_and_writes, check_publish.
    destruct (atomic_id_new _) as [i next]. cbn.
    destruct (negb (is_absolute path)); by eexists _, _.
  - intros flags base tx. unfold publish_default_with_flags. cbn.
    destruct (negb _); [by eexists|]. case_bool_decide; by eexists.
Qed.

(** ** The theorems *)

(** C10: After any sequence of calls of the program, turns of connections, commits and
    turns of the publish loop, until the publisher is shut down: a path leads to a value
    exactly if it is a path or an alias of it; a client is among the subscribers of a value
    exactly if the value is among the subscriptions of the client; and the clients are the
    connections that are being greeted or served. Shutting it down then drops all values
    and clients at once but keeps the paths, which lead nowhere from then on; nothing can
    be published any more, neither a value nor a default: each attempt is an error. *)
Theorem publisher_tables l : Z.of_nat (length l) < 2 ^ 64 →
  let y := run l in
  (∀ p id, by_path (sp y) !! p = Some id ↔ ∃ v, by_id (sp y) !! id = Some v ∧ p ∈ all_paths v) ∧
  (∀ id v cl, by_id (sp y) !! id = Some v → cl ∈ subscribed v ↔ subscribes (clients (sp y)) cl id) ∧
  (∀ cl, is_Some (clients (sp y) !! cl) ↔ cl ∈ greeting y ∨ is_Some (conns y !! cl)) ∧
  (let z := shutdown (sp y) in
   by_id z = ∅ ∧ clients z = ∅ ∧ by_path z = by_path (sp y) ∧
   (∀ flags path init tx, ∃ e z', publish_with_flags_and_writes flags path init tx z = (Err e, z') ∧
      by_path z' = by_path z ∧ by_id z' = ∅ ∧ to_publish z' = to_publish z) ∧
   (∀ flags base tx, ∃ e, publish_default_with_flags flags base tx z = (Err e, z))).
Proof.
  intros Hl y. pose proof (run_inv reg arc_shared next_wid secrets auth max_clients l Hl) as [Ht Hc Ha Hx Hi Hcl Hn].
  fold y in Ht, Hc. split_and!.
  - intros p id. split; [apply (t_path _ Ht)|]. intros (v & Hv & Hp). by apply (t_id _ Ht id v).
  - intros id v cl. apply (t_subs _ Ht).
  - intros cl. by rewrite <-!elem_of_dom, Hc, elem_of_union.
  - apply shutdown_spec.
Qed.

(** C11: If no path is advertised under two bases at once, no default is published again
    before the resolver was told it had gone, and none is published at a base where the
    unpublishing of a value or an advertisement is still pending, then whenever the publish
    loop has nothing to do the resolver has exactly the paths that are published or
    advertised and exactly the default publishers there are; and whatever is under way, the
    loop gets there by itself. *)
Theorem resolver_catches_up l : tidy_run reg arc_shared next_wid secrets auth max_clients sys_new l = true →
  let y := run l in
  (quiescent y → told y = wanted_set (sp y) ∧ told_default y = dom (defaults (sp y))) ∧
  loop_reaches reg arc_shared next_wid secrets auth max_clients
    (fun y' => quiescent y' ∧ told y' = wanted_set (sp y) ∧ told_default y' = dom (defaults (sp y))) y.
Proof.
  intros Hl y. pose proof (run_sync reg arc_shared next_wid secrets auth max_clients l Hl) as Hs.
  split; [by apply quiescent_sync|by apply catches_up].
Qed.

(** C12: Unless the publisher is anonymous, a client that is subscribed to a value has sent a
    token of one of the publisher's resolvers, made at most five minutes from then, for a
    path and permissions that include subscribing; the value had that path at some time of
    the run, and the client has these permissions on it. *)
Theorem subscriptions_authorised l cl c id p :
  auth ≠ DA_Anonymous → Z.of_nat (length l) < 2 ^ 64 →
  clients (sp (run l)) !! cl = Some c → cl_subscribed c !! id = Some p →
  ∃ path, token_grant l cl path p ∧ ∃ pre post, l = pre ++ post ∧ by_path (sp (run pre)) !! path = Some id.
Proof.
  intros Ha Hl Hc Hp. pose proof (run_auth reg arc_shared next_wid secrets auth max_clients l Hl) as [Hs _].
  destruct (Hs cl c id p Hc Hp) as (path & Hau & Hpub). exists path. split; [by apply authorised_token|done].
Qed.

(** C31: Unless the publisher is anonymous, a write that is on its way to the program comes
    from the client of the connection, and this client has sent a token, as above, for a
    path of the value and permissions that include writing. *)
Theorem writes_authorised l cl x q r :
  auth ≠ DA_Anonymous → Z.of_nat (length l) < 2 ^ 64 →
  conns (run l) !! cl = Some (x, q) → has_req x r →
  wr_client r = cl ∧ ∃ path p, token_grant l cl path p ∧ Z.land p WRITE = WRITE ∧
    ∃ pre post, l = pre ++ post ∧ by_path (sp (run pre)) !! path = Some (wr_id r).
Proof.
  intros Ha Hl Hc Hr. pose proof (run_auth reg arc_shared next_wid secrets auth max_clients l Hl) as [_ Hv].
  pose proof (run_inv reg arc_shared next_wid secrets auth max_clients l Hl) as Hi.
  destruct (i_conn _ _ _ Hi cl x q Hc) as [Ecl _]. destruct (a_req _ _ _ (Hv cl x q Hc) r Hr) as (E & p & (path & Hau & Hpub) & Hw).
  rewrite Ecl in *. split; [done|]. exists path, p. split_and!; [by apply authorised_token|done|done].
Qed.

(** C13: If the program sends no update to the client alone, the commits under way reach its
    queue in the order they were made, and the client's connection takes no turn while the
    client is not subscribed to the value and updates of it from before are waiting or in
    flight (so it does not subscribe again before they are gone), then the last value of a subscription among all that was sent to
    the client and is on its way to it is the current one; so once everything was sent the
    client has the current value. *)
Theorem subscriber_up_to_date l cl id v :
  Z.of_nat (length l) < 2 ^ 64 → calm_run reg arc_shared next_wid cl id secrets auth max_clients sys_new l = true →
  let y := run l in
  by_id (sp y) !! id = Some v → cl ∈ subscribed v →
  latest id (stream cl y) = Some (current v) ∧
  (con_of cl y = [] → waiting cl (sp y) = [] → in_flight cl (sending y) = [] →
   latest id (default [] (sent y !! cl)) = Some (current v)).
Proof.
  intros Hl Hc y Hv Hs. pose proof (run_inv reg arc_shared next_wid secrets auth max_clients l Hl) as Hi. fold y in Hi.
  assert (Hf : fresh cl id y).
  { eapply (run_fresh_from reg arc_shared next_wid cl id secrets auth max_clients l sys_new 0); [apply sys_inv_new|done|done|apply fresh_new]. }
  assert (Hsub : has_sub cl id (sp y)) by (by apply (t_subs _ (i_tables _ _ _ Hi) id v)).
  pose proof (f_value _ _ _ Hf v Hv Hsub) as H. split; [done|]. intros E1 E2 E3. rewrite <-H. unfold stream.
  by rewrite E1, E2, E3, !app_nil_r.
Qed.

(** C32: The token the resolver signs for a publisher is taken by that publisher: if both
    have the same secret and the subscriber uses it within five minutes of its making, with
    permissions that include subscribing, the subscription is entered with these permissions
    and answered with the current value. *)
Theorem signed_reference_admits (sec : SecCtxDataReadGuard) pid secret resolver ts perms path now c cl x id ut :
  (∀ s, zlen (sha3_512 s) = 64) → tables (pub c) →
  sec_of sec pid = Some secret → secrets !! resolver = Some secret → desired_auth (ctx c) ≠ DA_Anonymous →
  Z.land (uval perms) all_permissions = uval perms → Z.land (uval perms) SUBSCRIBE = SUBSCRIBE → Z.abs (now - uval ts) ≤ 300 →
  client (ctx c) = cl → clients (pub c) !! cl = Some x → extended_auth (pub c) = None →
  by_path (pub c) !! path = Some id → by_id (pub c) !! id = Some ut →
  sendable reg next_wid (From_Subscribed path id (current ut)) = true →
  ∃ c', handle_msg reg arc_shared next_wid secrets now
      (To_Subscribe path resolver ts perms (pr_token (sign sec ts perms path pid))) c = (Ok (), c') ∧
    con c' = con c ++ [From_Subscribed path id (current ut)] ∧
    (clients (pub c') !! cl ≫= fun y => cl_subscribed y !! id) = Some (uval perms) ∧
    by_id (pub c') !! id = Some (set_subscribed ({[cl]} ∪ subscribed ut) ut).
Proof.
  intros Hlen Ht Hsec Hres Hauth Hbits Hsub Hage Hcl Hx Hext Hpath Hid Hsend.
  assert (Htok : pr_token (sign sec ts perms path pid) = make_sha3_token (sign_data secret ts perms path)) by (unfold sign; by rewrite Hsec).
  pose proof (check_token_ok _ now secret ts perms path Htok) as Hc. rewrite Htok in *.
  assert (Hl : 8 ≤ zlen (make_sha3_token (sign_data secret ts perms path))) by (unfold make_sha3_token; rewrite Hlen; lia).
  specialize (Hc Hl Hbits Hsub Hage). cbn [handle_msg]. rewrite Hres, Hc.
  enough (∃ c', subscribe reg next_wid path (uval perms) c = (Ok (), c') ∧ con c' = con c ++ [From_Subscribed path id (current ut)] ∧
    (clients (pub c') !! cl ≫= fun y => cl_subscribed y !! id) = Some (uval perms) ∧
    by_id (pub c') !! id = Some (set_subscribed ({[cl]} ∪ subscribed ut) ut)) by (destruct (desired_auth (ctx c)); done).
  unfold subscribe. rewrite Hpath, Hid, Hext. cbn [negb]. unfold hbind, queue_send. rewrite Hsend.
  eexists. split; [reflexivity|]. split; [done|]. rewrite Hcl. cbn [pub on_pub hupd].
  set (s1 := add_subscriber _ _ _ _ _).
  match goal with |- context [send_event ?e ?s] => set (s2 := s); assert (E : core (send_event e s2) = core s1)
    by (rewrite core_send_event; unfold s2; by case_match) end.
  destruct (core_add_subscriber cl id (uval perms) ut (pub c) (t_hc _ Ht)) as (hc & _ & Ea). fold s1 in Ea. rewrite Ea in E.
  pose proof (f_equal k_clients E) as E1. pose proof (f_equal k_by_id E) as E2. cbn [k_clients k_by_id core with_hc with_clients with_by_id] in E1, E2.
  rewrite E1, E2, lookup_alter_eq, Hx, lookup_insert_eq. split; [|done]. cbn. by rewrite lookup_insert_eq.
Qed.
End Claims.

(** ** A publisher with a value, a client and a resolver *)

Definition demo_pub_order : PubOrder := {| path_order s := elements s; id_order s := elements s |}.
#[local] Instance demo_pub_order_ok : PubOrderOk demo_pub_order.
Proof. by split. Qed.
(** A stand-in for the hash with its length *)
Definition demo_hash64 : Sha3 := fun s => take 64 (s ++ replicate 64 (Zb 0)).
#[local] Existing Instances escaping_ref demo_layout demo_values demo_map_api demo_cmp demo_hash64 demo_pub_order.
Definition demo_secrets : gmap SocketAddr u128 := {[ demo_addr := UInt 42 ]}.
Abbreviation pub_run := (sys_run REGISTRY_init (fun _ => true) (MkId 0) demo_secrets DA_Local 768 sys_new).
Definition demo_greeting : Greeting := MkGreeting (H_Local None) true true (MkAuthChallenge Sha3_512 (UInt 0)).
Definition demo_subscribe : To :=
  To_Subscribe (lit "/a") demo_addr (UInt 100) (UInt 6) (make_sha3_token (sign_data (UInt 42) (UInt 100) (UInt 6) (lit "/a"))).
Definition cl0 : ClId := MkId 0.
Definition id0 : Id := MkId 0.
(** A turn of the publish loop that has [n] things to tell *)
Definition loop_turn (n : nat) : list Input := [ILoopTake] ++ replicate n ILoopTell ++ [ILoopCommit; ILoopEnd].
Definition subscribed_run : list Input :=
  [IApp (APublish 0 (lit "/a") (VU32 1) (Some 5)); IAccept; IHello cl0 (Some demo_greeting); ITurn cl0 150 (RBatch [demo_subscribe])].
Definition demo_batch (v : Z) : UpdateBatch := MkUpdateBatch [BUpdate None id0 (VU32 v)] None.
(** ... its value is updated, and it writes *)
Definition updated_run : list Input :=
  subscribed_run ++ [ITurn cl0 151 RFlushed; ICommit None (demo_batch 2); IDeliver 0 cl0; ITurn cl0 152 RUpdates; ITurn cl0 153 RFlushed].
Definition written_run : list Input := subscribed_run ++ [ITurn cl0 151 (RBatch [To_Write id0 false (VU32 7) (MkId 3)])].

(** Outside these conditions the resolver and a subscriber can be left behind. A
    default that is dropped and published again at once is not known to the resolver; a
    path advertised under two bases is withdrawn with the first; a value that gives way to
    a default on its path stays known; and a client that subscribes again while an old
    update waits gets the old value last. *)
Theorem publisher_gaps :
  let base := lit "/d" in
  let y1 := pub_run ([IApp (APublishDefault 0 base 9)] ++ loop_turn 1 ++ [IApp (ADropDefault base); IApp (APublishDefault 0 base 9)] ++ loop_turn 2) in
  let y2 := pub_run ([IApp (APublishDefault 0 base 9); IApp (APublishDefault 0 (lit "/d/e") 9); IApp (AAdvertise base 0 (lit "/d/e/x"));
    IApp (AAdvertise (lit "/d/e") 0 (lit "/d/e/x"))] ++ loop_turn 2 ++ [IApp (ARemoveAdvertisement base (lit "/d/e/x"))] ++ loop_turn 1) in
  let y3 := pub_run ([IApp (APublish 0 base (VU32 1) None)] ++ loop_turn 1 ++ [IApp (ADestroy id0); IApp (APublishDefault 0 base 9)] ++ loop_turn 1) in
  let y4 := pub_run (subscribed_run ++ [ICommit None (demo_batch 2); IDeliver 0 cl0; ITurn cl0 151 (RBatch [To_Unsubscribe id0]);
    ICommit None (demo_batch 3); ITurn cl0 152 (RBatch [demo_subscribe]); ITurn cl0 153 RUpdates; ITurn cl0 154 RFlushed]) in
  (quiescent y1 ∧ base ∈ dom (defaults (sp y1)) ∧ base ∉ told_default y1) ∧
  (quiescent y2 ∧ lit "/d/e/x" ∈ wanted_set (sp y2) ∧ lit "/d/e/x" ∉ told y2) ∧
  (quiescent y3 ∧ (base ∉ wanted_set (sp y3)) ∧ base ∈ told y3) ∧
  (is_subscribed id0 cl0 (sp y4) = true ∧ pub_current id0 (sp y4) = Some (VU32 3) ∧
   stream cl0 y4 = default [] (sent y4 !! cl0) ∧ latest id0 (stream cl0 y4) = Some (VU32 2)).
Proof.
  cbv zeta. split_and!.
  - split; reflexivity.
  - apply (bool_decide_eq_true_1 _). vm_compute. reflexivity.
  - apply (bool_decide_eq_true_1 _). vm_compute. reflexivity.
  - split; reflexivity.
  - apply (bool_decide_eq_true_1 _). vm_compute. reflexivity.
  - apply (bool_decide_eq_true_1 _). vm_compute. reflexivity.
  - split; reflexivity.
  - apply (bool_decide_eq_true_1 _). vm_compute. reflexivity.
  - apply (bool_decide_eq_true_1 _). vm_compute. reflexivity.
  - vm_compute. reflexivity.
  - reflexivity.
  - reflexivity.
  - reflexivity.
Qed.

(** ** The theorems at these runs *)

(** The value and the client after the subscription *)
Definition demo_published (v : Z) : Published := MkPublished (VU32 v) ({[cl0]} ∪ ∅) (lit "/a") None.
Definition demo_client : Client := MkClient [] {[id0 := 6]} None.

Lemma publisher_tables_witness :
  by_path (sp (pub_run subscribed_run)) !! lit "/a" = Some id0 ∧ cl0 ∈ ({[cl0]} ∪ ∅ : gset ClId) ∧
  by_path (shutdown (sp (pub_run subscribed_run))) !! lit "/a" = Some id0.
Proof.
  destruct (publisher_tables REGISTRY_init (fun _ => true) (MkId 0) demo_secrets DA_Local 768 subscribed_run ltac:(cbn; lia)) as (H1 & H2 & _ & _ & _ & H3 & _).
  assert (Ha : by_path (sp (pub_run subscribed_run)) !! lit "/a" = Some id0).
  - apply (proj2 (H1 (lit "/a") id0)). exists (demo_published 1). split; [reflexivity|]. unfold all_paths. cbn. set_solver.
  - split; [exact Ha|]. split; [|by rewrite H3].
    assert (E : by_id (sp (pub_run subscribed_run)) !! id0 = Some (demo_published 1)) by reflexivity.
    apply (proj2 (H2 id0 (demo_published 1) cl0 E)). exists demo_client. split; [reflexivity|]. by eexists.
Defined.
Lemma resolver_catches_up_witness :
  let y := pub_run (subscribed_run ++ loop_turn 1) in quiescent y ∧ told y = wanted_set (sp y).
Proof.
  assert (Hq : quiescent (pub_run (subscribed_run ++ loop_turn 1))) by (split; reflexivity).
  assert (Ht : tidy_run REGISTRY_init (fun _ => true) (MkId 0) demo_secrets DA_Local 768 sys_new (subscribed_run ++ loop_turn 1) = true) by reflexivity.
  pose proof (resolver_catches_up REGISTRY_init (fun _ => true) (MkId 0) demo_secrets DA_Local 768 (subscribed_run ++ loop_turn 1) Ht) as H.
  cbv zeta in H |- *. split; [exact Hq|]. exact (proj1 (proj1 H Hq)).
Defined.
Lemma subscriptions_authorised_witness : ∃ path, token_grant demo_secrets subscribed_run cl0 path 6.
Proof.
  destruct (subscriptions_authorised REGISTRY_init (fun _ => true) (MkId 0) demo_secrets DA_Local 768 subscribed_run cl0 demo_client id0 6
    ltac:(discriminate) ltac:(cbn; lia) eq_refl eq_refl) as (path & H & _).
  by exists path.
Defined.
(** The connection with the write on its way *)
Definition demo_request : WriteRequest := MkWriteRequest id0 (lit "/a") cl0 (VU32 7) None.
Definition demo_ctx : ClientCtx := MkClientCtx DA_Local cl0 ∅ [BWSend 5 [demo_request]] None None [] [] [] [] false.
Lemma writes_authorised_witness : ∃ path p, token_grant demo_secrets written_run cl0 path p ∧ Z.land p WRITE = WRITE.
Proof.
  assert (E : conns (pub_run written_run) !! cl0 = Some (demo_ctx, [From_Subscribed (lit "/a") id0 (VU32 1)])) by reflexivity.
  assert (Hr : has_req demo_ctx demo_request) by (right; exists 5, [demo_request]; split; by left).
  destruct (writes_authorised REGISTRY_init (fun _ => true) (MkId 0) demo_secrets DA_Local 768 written_run cl0 demo_ctx _ demo_request
    ltac:(discriminate) ltac:(cbn; lia) E Hr) as (_ & path & p & H & Hw & _).
  exists path, p. exact (conj H Hw).
Defined.
Lemma subscriber_up_to_date_witness :
  latest id0 (default [] (sent (pub_run updated_run) !! cl0)) = Some (VU32 2).
Proof.
  assert (Hc : calm_run REGISTRY_init (fun _ => true) (MkId 0) cl0 id0 demo_secrets DA_Local 768 sys_new updated_run = true) by reflexivity.
  assert (Hv : by_id (sp (pub_run updated_run)) !! id0 = Some (demo_published 2)) by reflexivity.
  assert (Hs : cl0 ∈ subscribed (demo_published 2)) by (cbn; set_solver).
  pose proof (subscriber_up_to_date REGISTRY_init (fun _ => true) (MkId 0) demo_secrets DA_Local 768 updated_run cl0 id0 (demo_published 2)
    ltac:(cbn; lia) Hc Hv Hs) as H.
  assert (H1 : con_of cl0 (pub_run updated_run) = []) by reflexivity.
  assert (H2 : waiting cl0 (sp (pub_run updated_run)) = []) by reflexivity.
  assert (H3 : in_flight cl0 (sending (pub_run updated_run)) = []) by reflexivity.
  exact (proj2 H H1 H2 H3).
Defined.
Definition greeted_run : list Input := [IApp (APublish 0 (lit "/a") (VU32 1) None); IAccept; IHello cl0 (Some demo_greeting)].
Definition resolver_secrets : SecCtxDataReadGuard := SecLocal {[ (MkId 9 : PublisherId) := UInt 42 ]}.
Lemma demo_hash64_length s : zlen (demo_hash64 s) = 64.
Proof. unfold demo_hash64, zlen. rewrite length_take, length_app, length_replicate. lia. Qed.
Lemma signed_reference_admits_witness :
  ∃ c', handle_msg REGISTRY_init (fun _ => true) (MkId 0) demo_secrets 150
      (To_Subscribe (lit "/a") demo_addr (UInt 100) (UInt 6) (pr_token (sign resolver_secrets (UInt 100) (UInt 6) (lit "/a") (MkId 9))))
      (MkConn (sp (pub_run greeted_run)) (ClientCtx_new cl0 DA_Local) []) = (Ok (), c') ∧
    con c' = [From_Subscribed (lit "/a") id0 (VU32 1)].
Proof.
  set (c := MkConn _ _ _).
  assert (Ht : tables (pub c)) by exact (i_tables _ _ _ (run_inv REGISTRY_init (fun _ => true) (MkId 0) demo_secrets DA_Local 768 greeted_run ltac:(cbn; lia))).
  assert (Hx : clients (pub c) !! cl0 = Some (MkClient [] ∅ None)) by reflexivity.
  assert (Hp : by_path (pub c) !! lit "/a" = Some id0) by reflexivity.
  assert (Hi : by_id (pub c) !! id0 = Some (MkPublished (VU32 1) ∅ (lit "/a") None)) by reflexivity.
  assert (He : extended_auth (pub c) = None) by reflexivity.
  assert (Hs : sendable REGISTRY_init (MkId 0) (From_Subscribed (lit "/a") id0 (VU32 1)) = true) by reflexivity.
  destruct (signed_reference_admits REGISTRY_init (fun _ => true) (MkId 0) demo_secrets resolver_secrets (MkId 9) (UInt 42) demo_addr (UInt 100) (UInt 6)
    (lit "/a") 150 c cl0 _ id0 _ demo_hash64_length Ht eq_refl eq_refl ltac:(discriminate) eq_refl eq_refl ltac:(cbn; lia) eq_refl Hx He Hp Hi Hs)
    as (c' & H1 & H2 & _).
  exists c'. exact (conj H1 H2).
Defined.
