(* ===== verification/SubChoose.v ===== *)
(** How a subscriber chooses one of the publishers of a path
    (netidx/src/subscriber/mod.rs, [choose_addr] and what it calls): at random among the
    best that did not fail recently, one there is a connection to, or one nearby. The
    random choice is the rand crate's and a parameter. *)
From Stdlib Require Import ZArith Lia.
From stdpp Require Import base gmap list strings sorting.
From Stdlib Require Import Strings.Byte.
From S2P Require Import Prelude Varint Pack Containers PackTypes Path PathFacts Order Glob Derive Proto.
From S2P Require Import Float Value ValuePack PubProto Publisher.

#[export] Instance PublisherPriority_eq_dec : EqDecision PublisherPriority.
Proof. solve_decision. Defined.

(** [IteratorRandom::choose]: some element, if there is one; [random_range(0..n)] *)
Class Rand := {
  rand_choose {A} (seed : Z) (l : list A) : option A;
  rand_range (seed n : Z) : Z
}.
Class RandOk (R : Rand) : Prop := {
  rand_some {A} seed (l : list A) x : rand_choose seed l = Some x → x ∈ l;
  rand_none {A} seed (l : list A) : rand_choose seed l = None → l = [];
  rand_range_spec seed n : 0 < n → 0 ≤ rand_range seed n < n
}.

(** A network interface: its address and netmask *)
Inductive Interface := IfV4 (ip netmask : list byte) | IfV6 (ip netmask : list u16).

Record Chosen := MkChosen {
  ch_addr : SocketAddr;
  ch_target_auth : TargetAuth;
  ch_token : str;
  ch_uifo : option UserInfo;
  ch_flags : Z
}.

(** [PublishFlags::from_bits]: none for unknown bits *)
Definition PublishFlags_from_bits (bits : Z) : option Z :=
  if Z.land bits 0x1f =? bits then Some bits else None.

(** [u8] and [u16] bitwise and, element by element *)
Definition mv4 (ip mask : list byte) : list byte := zip_with (fun a b => Zb (Z.land (bZ a) (bZ b))) ip mask.
Definition mv6 (ip mask : list u16) : list u16 := zip_with (fun a b => UInt (Z.land (uval a) (uval b))) ip mask.

(** 0 for an address of this machine, 1 for one in a network of it, 2 otherwise *)
Definition nearness (interfaces : list Interface) (addr : SocketAddr) : Z :=
  foldl (fun cur i =>
    match i, addr with
    | IfV4 ip mask, V4 octets _ =>
        if decide (octets = ip) then 0 else if decide (mv4 ip mask = mv4 octets mask) then Z.min cur 1 else Z.min cur 2
    | IfV6 ip mask, V6 segments _ _ _ =>
        if decide (segments = ip) then 0 else if decide (mv6 ip mask = mv6 segments mask) then Z.min cur 1 else Z.min cur 2
    | _, _ => cur
    end) 2 interfaces.

(** The stable sort of the standard library *)
Fixpoint insert_by_key {A} (key : A → Z) (x : A) (l : list A) : list A :=
  match l with
  | [] => [x]
  | y :: l => if key x <=? key y then x :: y :: l else y :: insert_by_key key x l
  end.
Definition sort_by_key {A} (key : A → Z) (l : list A) : list A := foldr (insert_by_key key) [] l.

Section Choose.
Context {R : Rand} (interfaces : list Interface).
(** The addresses that failed recently, and those there are connections to *)
Context (recently_failed connected : SocketAddr → bool).
Context (publishers : gmap PublisherId Publisher) (resolved : Resolved) (seed : Z).

Definition mk_chosen (flags : Z) (c : PublisherRef * Publisher) : Chosen :=
  MkChosen (pub_addr c.2) (pub_target_auth c.2) (pr_token c.1) (pub_user_info c.2) flags.

(** The references whose publisher is known and satisfies [f] *)
Definition with_pred (f : Publisher → bool) : list (PublisherRef * Publisher) :=
  omap (fun pref => pb ← publishers !! pr_id pref; if f pb then Some (pref, pb) else None) (res_publishers resolved).

Definition choose_random_addr (flags : Z) : option Chosen :=
  let healthy pb := negb (recently_failed (pub_addr pb)) in
  let high pb := bool_decide (pub_priority pb = High) && healthy pb in
  let normal pb := (bool_decide (pub_priority pb = High) || bool_decide (pub_priority pb = Normal)) && healthy pb in
  let try f := mk_chosen flags <$> rand_choose seed (with_pred f) in
  match try high with
  | Some c => Some c
  | None =>
      match try normal with
      | Some c => Some c
      | None =>
          match try healthy with
          | Some c => Some c
          | None => try (fun _ => true)
          end
      end
  end.

(** [buf.sort_by_key(..)] compares keys, so it computes none for fewer than two elements:
    [all_far] then stays true. *)
Definition by_nearness (buf : list (PublisherRef * Publisher)) : list (PublisherRef * Publisher) :=
  sort_by_key (fun c => nearness interfaces (pub_addr c.2)) buf.
Definition all_far (buf : list (PublisherRef * Publisher)) : bool :=
  bool_decide (length buf < 2)%nat || forallb (fun c => negb (nearness interfaces (pub_addr c.2) <? 2)) buf.

(** The part of [choose_local_addr] and [choose_existing_addr] before they call each
    other; [None] stands for that call. *)
Definition nearest_addr (flags : Z) : option (option Chosen) :=
  let buf := with_pred (fun pb => negb (recently_failed (pub_addr pb))) in
  if all_far buf then None else Some (mk_chosen flags <$> head (by_nearness buf)).
Definition existing_addr (flags : Z) : option Chosen :=
  mk_chosen flags <$> head (with_pred (fun pb => connected (pub_addr pb))).

(** [choose_local_addr(true, ..)] *)
Definition choose_local_last (flags : Z) : option Chosen :=
  match nearest_addr flags with Some c => c | None => choose_random_addr flags end.
Definition choose_existing_addr (flags : Z) : option Chosen :=
  let flags := flags_remove flags ISOLATED in
  match existing_addr flags with
  | Some c => Some c
  | None => if flags_contains flags PREFER_LOCAL then choose_local_last flags else choose_random_addr flags
  end.
Definition choose_local_addr (tried_existing : bool) (flags : Z) : option Chosen :=
  match nearest_addr flags with
  | Some c => c
  | None =>
      if negb tried_existing && flags_contains flags USE_EXISTING then choose_existing_addr flags
      else choose_random_addr flags
  end.

Definition choose_addr : option Chosen :=
  flags ← PublishFlags_from_bits (uval (res_flags resolved));
  let flags := if flags_contains flags FORCE_LOCAL && flags_contains flags PREFER_LOCAL
               then flags_remove flags PREFER_LOCAL else flags in
  if flags_contains flags FORCE_LOCAL then choose_local_addr false flags
  else if flags_contains flags USE_EXISTING then choose_existing_addr flags
  else if flags_contains flags PREFER_LOCAL then choose_local_addr false flags
  else choose_random_addr flags.
End Choose.
