(* ===== verification/SubChoice.v ===== *)
(** Which publisher the subscriber chooses among those that were resolved. *)
From Stdlib Require Import ZArith Lia.
From stdpp Require Import base gmap list strings sorting.
From Stdlib Require Import Strings.Byte.
From S2P Require Import Prelude Varint Pack Containers PackTypes Path PathFacts Order Glob Derive Proto.
From S2P Require Import Store Permissions Float Value ValuePack PubProto Publisher SubChoose.

(** ** The stable sort *)

Section Sort.
Context {A : Type} (key : A → Z).
Lemma insert_by_key_perm x l : insert_by_key key x l ≡ₚ x :: l.
Proof.
  induction l as [|y l IH]; [done|]. cbn. case_match; [done|]. rewrite IH. apply perm_swap.
Qed.
Lemma sort_by_key_perm l : sort_by_key key l ≡ₚ l.
Proof. induction l as [|x l IH]; [done|]. cbn. by rewrite insert_by_key_perm, IH. Qed.
Definition first_least (l : list A) : Prop := ∀ x, head l = Some x → ∀ y, y ∈ l → key x ≤ key y.
Lemma insert_by_key_least x l : first_least l → first_least (insert_by_key key x l).
Proof.
  intros H. destruct l as [|y l]; cbn.
  { intros z [= <-] w Hw. apply list_elem_of_singleton in Hw as ->. lia. }
  destruct (key x <=? key y) eqn:E; intros z [= <-] w Hw.
  - apply elem_of_cons in Hw as [->|Hw]; [lia|]. specialize (H y eq_refl w Hw). lia.
  - apply elem_of_cons in Hw as [->|Hw]; [lia|]. rewrite insert_by_key_perm in Hw.
    apply elem_of_cons in Hw as [->|Hw]; [lia|]. apply H; [done|by right].
Qed.
Lemma sort_by_key_least l : first_least (sort_by_key key l).
Proof. induction l as [|x l IH]; [done|]. by apply insert_by_key_least. Qed.
End Sort.

Section Choice.
Context {R : Rand} {ROK : RandOk R} (interfaces : list Interface).
Context (failed connected : SocketAddr → bool).
Context (publishers : gmap PublisherId Publisher) (resolved : Resolved) (seed : Z).

(** A publisher of the path that is known *)
Definition offered (pref : PublisherRef) (pb : Publisher) : Prop :=
  pref ∈ res_publishers resolved ∧ publishers !! pr_id pref = Some pb.
Lemma elem_with_pred f pref pb : (pref, pb) ∈ with_pred publishers resolved f ↔ offered pref pb ∧ f pb = true.
Proof.
  unfold with_pred, offered. rewrite list_elem_of_omap. split.
  - intros (pref' & Hin & H). destruct (publishers !! pr_id pref') as [pb'|] eqn:E; [|done]. cbn in H.
    destruct (f pb') eqn:Ef; [|done]. by injection H as -> ->.
  - intros [[Hin E] Hf]. exists pref. split; [done|]. rewrite E. cbn. by rewrite Hf.
Qed.

(** What is chosen, and by which flags: the address, the authentication and the token are
    those of the publisher [pb] and of the reference [pref] to it. *)
Definition chosen_is (c : Chosen) (pref : PublisherRef) (pb : Publisher) : Prop :=
  offered pref pb ∧ ch_addr c = pub_addr pb ∧ ch_target_auth c = pub_target_auth pb ∧
  ch_token c = pr_token pref ∧ ch_uifo c = pub_user_info pb.
Definition healthy (pb : Publisher) : Prop := failed (pub_addr pb) = false.
Definition rank (pb : Publisher) : Z := match pub_priority pb with High => 2 | Normal => 1 | Low => 0 end.
(** It has not failed recently, unless all have. *)
Definition sound (pb : Publisher) : Prop := healthy pb ∨ ∀ pref' pb', offered pref' pb' → ¬ healthy pb'.
(** It has the best priority among those that are healthy. *)
Definition best (pb : Publisher) : Prop :=
  sound pb ∧ ∀ pref' pb', offered pref' pb' → healthy pb' → rank pb' ≤ rank pb.
(** It is the nearest of those that are healthy. *)
Definition nearest (pb : Publisher) : Prop :=
  healthy pb ∧ ∀ pref' pb', offered pref' pb' → healthy pb' → nearness interfaces (pub_addr pb) ≤ nearness interfaces (pub_addr pb').

Lemma mk_chosen_is flags pref pb : offered pref pb → chosen_is (mk_chosen flags (pref, pb)) pref pb.
Proof. by intros H; split. Qed.

(** One attempt of [choose_random_addr] *)
Lemma try_spec f flags : match mk_chosen flags <$> rand_choose seed (with_pred publishers resolved f) with
  | Some c => ∃ pref pb, chosen_is c pref pb ∧ f pb = true
  | None => ∀ pref pb, offered pref pb → f pb = false
  end.
Proof.
  destruct (rand_choose seed _) as [[pref pb]|] eqn:E; cbn.
  - apply rand_some, elem_with_pred in E as [Ho Hf]. exists pref, pb. by split; [apply mk_chosen_is|].
  - apply rand_none in E. intros pref pb Ho. destruct (f pb) eqn:Hf; [|done].
    assert (H : (pref, pb) ∈ with_pred publishers resolved f) by (by apply elem_with_pred). rewrite E in H. by apply not_elem_of_nil in H.
Qed.
Lemma random_spec flags : match choose_random_addr failed publishers resolved seed flags with
  | Some c => ∃ pref pb, chosen_is c pref pb ∧ best pb
  | None => ∀ pref pb, ¬ offered pref pb
  end.
Proof.
  unfold choose_random_addr.
  set (high := fun pb => bool_decide (pub_priority pb = High) && negb (failed (pub_addr pb))).
  set (normal := fun pb => (bool_decide (pub_priority pb = High) || bool_decide (pub_priority pb = Normal)) && negb (failed (pub_addr pb))).
  set (ok := fun pb => negb (failed (pub_addr pb))).
  assert (Hhigh : ∀ pb, high pb = false → healthy pb → rank pb ≤ 1).
  { intros pb. unfold high, healthy, rank. intros H Hh. rewrite Hh in H. by destruct (pub_priority pb); cbn in *; try lia. }
  assert (Hnormal : ∀ pb, normal pb = false → healthy pb → rank pb ≤ 0).
  { intros pb. unfold normal, healthy, rank. intros H Hh. rewrite Hh in H. by destruct (pub_priority pb); cbn in *; try lia. }
  pose proof (try_spec high flags) as T1. destruct (mk_chosen flags <$> rand_choose seed (with_pred publishers resolved high)) as [c|].
  { destruct T1 as (pref & pb & Hc & Hf). exists pref, pb. split; [done|]. unfold high in Hf. apply andb_true_iff in Hf as [Hp Hh].
    apply negb_true_iff in Hh. split; [by left|]. intros pref' pb' _ _. unfold rank. apply bool_decide_eq_true in Hp as ->. destruct (pub_priority pb'); lia. }
  pose proof (try_spec normal flags) as T2. destruct (mk_chosen flags <$> rand_choose seed (with_pred publishers resolved normal)) as [c|].
  { destruct T2 as (pref & pb & Hc & Hf). exists pref, pb. split; [done|]. unfold normal in Hf. apply andb_true_iff in Hf as [Hp Hh].
    apply negb_true_iff in Hh. split; [by left|]. intros pref' pb' Ho Hh'. etrans; [by eapply Hhigh, Hh'; eapply T1|].
    unfold rank. apply orb_true_iff in Hp as [->%bool_decide_eq_true| ->%bool_decide_eq_true]; lia. }
  pose proof (try_spec ok flags) as T3. destruct (mk_chosen flags <$> rand_choose seed (with_pred publishers resolved ok)) as [c|].
  { destruct T3 as (pref & pb & Hc & Hf). exists pref, pb. split; [done|]. apply negb_true_iff in Hf.
    split; [by left|]. intros pref' pb' Ho Hh'. etrans; [by eapply Hnormal, Hh'; eapply T2|]. unfold rank. destruct (pub_priority pb); lia. }
  assert (Hno : ∀ pref' pb', offered pref' pb' → ¬ healthy pb').
  { intros pref' pb' Ho Hh. pose proof (T3 _ _ Ho) as H. apply negb_false_iff in H. unfold healthy in Hh. congruence. }
  pose proof (try_spec (fun _ => true) flags) as T4. destruct (mk_chosen flags <$> rand_choose seed _) as [c|].
  - destruct T4 as (pref & pb & Hc & _). exists pref, pb. split; [done|]. split; [by right|]. intros pref' pb' Ho Hh. by destruct (Hno _ _ Ho).
  - intros pref pb Ho. by specialize (T4 _ _ Ho).
Qed.

(** Those that did not fail recently *)
Abbreviation buf := (with_pred publishers resolved (fun pb => negb (failed (pub_addr pb)))).
(** One of them is on this machine or in a network of it. *)
Definition some_near : bool := existsb (fun c => nearness interfaces (pub_addr c.2) <? 2) buf.
(** There is only one of them. *)
Definition sole_healthy : bool := bool_decide (length buf = 1%nat).
(** What the code finds out by sorting them: a single one is not looked at. *)
Definition seen_near : bool := bool_decide (2 ≤ length buf)%nat && some_near.
(** There is a connection to one of them. *)
Definition some_connected : bool := existsb (fun c => connected (pub_addr c.2)) (with_pred publishers resolved (fun _ => true)).
Lemma existsb_negb {A} (f : A → bool) l : existsb f l = negb (forallb (fun x => negb (f x)) l).
Proof. induction l as [|x l IH]; [done|]. cbn. rewrite IH. by destruct (f x). Qed.
Lemma seen_near_far : seen_near = negb (all_far interfaces buf).
Proof.
  unfold seen_near, some_near, all_far. rewrite existsb_negb, negb_orb. f_equal.
  rewrite <-bool_decide_not. apply bool_decide_ext. lia.
Qed.
Lemma nearby_spec flags : match nearest_addr interfaces failed publishers resolved flags with
  | Some o => seen_near = true ∧ ∃ c pref pb, o = Some c ∧ chosen_is c pref pb ∧ nearest pb
  | None => seen_near = false
  end.
Proof.
  rewrite seen_near_far. unfold nearest_addr. destruct (all_far interfaces buf) eqn:E; [done|].
  split; [done|]. pose proof (sort_by_key_perm (fun c => nearness interfaces (pub_addr c.2)) buf) as Hp.
  pose proof (sort_by_key_least (fun c => nearness interfaces (pub_addr c.2)) buf) as Hl.
  change (sort_by_key _ buf) with (by_nearness interfaces buf) in Hp, Hl.
  destruct (by_nearness interfaces buf) as [|[pref pb] l] eqn:Eb.
  { apply Permutation_nil_l in Hp. rewrite <-Hp in E. done. }
  assert (Hin : (pref, pb) ∈ buf) by (rewrite <-Hp; by left). apply elem_with_pred in Hin as [Ho Hh].
  eexists _, pref, pb. split; [done|]. split; [by apply mk_chosen_is|]. split; [by apply negb_true_iff in Hh|].
  intros pref' pb' Ho' Hh'. apply (Hl (pref, pb) eq_refl (pref', pb')). rewrite Hp. apply elem_with_pred. split; [done|]. by rewrite Hh'.
Qed.
Lemma existing_spec flags : match existing_addr connected publishers resolved flags with
  | Some c => some_connected = true ∧ ∃ pref pb, chosen_is c pref pb ∧ connected (pub_addr pb) = true
  | None => some_connected = false
  end.
Proof.
  assert (E : some_connected = existsb (fun _ => true) (with_pred publishers resolved (fun pb => connected (pub_addr pb)))).
  { unfold some_connected, with_pred. induction (res_publishers resolved) as [|pref l IH]; [done|]. cbn.
    destruct (publishers !! pr_id pref) as [pb|]; [cbn|done]. by destruct (connected (pub_addr pb)). }
  rewrite E. unfold existing_addr. destruct (with_pred _ _ _) as [|[pref pb] l] eqn:El; [done|]. split; [done|].
  assert (H : (pref, pb) ∈ with_pred publishers resolved (fun pb => connected (pub_addr pb))) by (rewrite El; by left).
  apply elem_with_pred in H as [Ho Hc]. exists pref, pb. by split; [apply mk_chosen_is|].
Qed.

(** When the only healthy one is near, the code does not know it, but the best one is
    that one. *)
Lemma sole_nearest pref pb : some_near = true → seen_near = false → offered pref pb → best pb → nearest pb.
Proof.
  unfold seen_near. intros Hn. rewrite Hn, andb_true_r. intros Hl%bool_decide_eq_false Ho [Hs _].
  assert (Hel : ∀ x y, offered x y → healthy y → (x, y) ∈ buf).
  { intros x y Hxy Hh. apply elem_with_pred. split; [done|]. by rewrite Hh. }
  unfold some_near in Hn. apply existsb_exists in Hn as ([pref0 pb0] & H0%list_elem_of_In & _).
  destruct (proj1 (elem_with_pred _ _ _) H0) as [Ho0 Hh0%negb_true_iff].
  assert (Hh : healthy pb) by (destruct Hs as [|Hs]; [done|by destruct (Hs _ _ Ho0)]).
  split; [done|]. intros pref' pb' Ho' Hh'. pose proof (Hel _ _ Ho Hh) as H1. pose proof (Hel _ _ Ho' Hh') as H2.
  destruct buf as [|a [|b l]]; [by apply elem_of_nil in H1| |cbn in Hl; lia].
  apply list_elem_of_singleton in H1 as <-. apply list_elem_of_singleton in H2 as [= -> ->]. done.
Qed.

(** The publisher that the policy of the flags asks for. There is one exception: under
    FORCE_LOCAL together with USE_EXISTING a connected publisher is preferred to a near one
    that is the only healthy one, because the code does not see that it is near. *)
Definition as_asked (flags : Z) (pb : Publisher) : Prop :=
  let force := flags_contains flags FORCE_LOCAL in
  let existing := flags_contains flags USE_EXISTING in
  let prefer := flags_contains flags PREFER_LOCAL in
  if force && some_near && negb (existing && some_connected && sole_healthy) then nearest pb
  else if existing && some_connected then connected (pub_addr pb) = true
  else if prefer && some_near then nearest pb
  else best pb.
Definition picks (P : Publisher → Prop) (o : option Chosen) : Prop :=
  match o with Some c => ∃ pref pb, chosen_is c pref pb ∧ P pb | None => ∀ pref pb, ¬ offered pref pb end.
Lemma picks_weaken (P Q : Publisher → Prop) o :
  (∀ pref pb, offered pref pb → P pb → Q pb) → picks P o → picks Q o.
Proof. intros H. destruct o; [|done]. intros (pref & pb & Hc & Hp). exists pref, pb. split; [done|]. apply (H pref), Hp. by destruct Hc. Qed.
Lemma contains_remove flags f g : 0 ≤ g → Z.land f g = 0 → flags_contains (flags_remove flags f) g = flags_contains flags g.
Proof.
  intros Hg H. unfold flags_contains, flags_remove. f_equal. apply Z.bits_inj'. intros n Hn. rewrite !Z.land_spec, Z.ldiff_spec.
  assert (Hb := f_equal (fun z => Z.testbit z n) H). cbn in Hb. rewrite Z.land_spec, Z.bits_0 in Hb.
  by destruct (Z.testbit flags n), (Z.testbit f n), (Z.testbit g n).
Qed.
Lemma contains_removed flags f : 0 < f → flags_contains (flags_remove flags f) f = false.
Proof.
  intros Hf. unfold flags_contains, flags_remove. apply Z.eqb_neq. replace (Z.land (Z.ldiff flags f) f) with 0; [lia|].
  apply Z.bits_inj'. intros n Hn. rewrite Z.bits_0, Z.land_spec, Z.ldiff_spec. by destruct (Z.testbit flags n), (Z.testbit f n).
Qed.
Lemma local_last_spec flags : picks (fun pb => if seen_near then nearest pb else best pb)
  (choose_local_last interfaces failed publishers resolved seed flags).
Proof.
  unfold choose_local_last. pose proof (nearby_spec flags) as H. destruct (nearest_addr _ _ _ _ _) as [o|].
  - destruct H as (-> & c & pref & pb & -> & Hc & Hn). by exists pref, pb.
  - rewrite H. apply random_spec.
Qed.
Lemma existing_first_spec flags : picks (fun pb => if some_connected then connected (pub_addr pb) = true
    else if flags_contains flags PREFER_LOCAL && seen_near then nearest pb else best pb)
  (choose_existing_addr interfaces failed connected publishers resolved seed flags).
Proof.
  unfold choose_existing_addr. set (flags' := flags_remove flags ISOLATED).
  assert (E : flags_contains flags' PREFER_LOCAL = flags_contains flags PREFER_LOCAL) by (by apply contains_remove). rewrite E.
  pose proof (existing_spec flags') as H. destruct (existing_addr _ _ _ _) as [c|].
  - destruct H as (-> & pref & pb & Hc & Hn). by exists pref, pb.
  - rewrite H. destruct (flags_contains flags PREFER_LOCAL); [apply local_last_spec|apply random_spec].
Qed.
Lemma local_first_spec flags : picks (fun pb => if seen_near then nearest pb
    else if flags_contains flags USE_EXISTING && some_connected then connected (pub_addr pb) = true else best pb)
  (choose_local_addr interfaces failed connected publishers resolved seed false flags).
Proof.
  unfold choose_local_addr. pose proof (nearby_spec flags) as H. destruct (nearest_addr _ _ _ _ _) as [o|].
  { destruct H as (-> & c & pref & pb & -> & Hc & Hn). by exists pref, pb. }
  rewrite H. cbn [negb andb]. destruct (flags_contains flags USE_EXISTING); [|apply random_spec].
  eapply picks_weaken; [|apply existing_first_spec]. intros pref pb _. cbn [andb]. rewrite H. by rewrite andb_false_r.
Qed.
(** What the code is after, in terms of what it sees *)
Definition as_seen (flags : Z) (pb : Publisher) : Prop :=
  let force := flags_contains flags FORCE_LOCAL in
  let existing := flags_contains flags USE_EXISTING in
  let prefer := flags_contains flags PREFER_LOCAL in
  if force && seen_near then nearest pb
  else if existing && some_connected then connected (pub_addr pb) = true
  else if prefer && seen_near then nearest pb
  else best pb.
Lemma seen_spec flags : PublishFlags_from_bits (uval (res_flags resolved)) = Some flags →
  picks (as_seen flags) (choose_addr interfaces failed connected publishers resolved seed).
Proof.
  intros Hf. unfold choose_addr. rewrite Hf. cbn [mbind option_bind]. unfold as_seen.
  destruct (flags_contains flags FORCE_LOCAL) eqn:F; cbn [andb].
  - set (flags' := if flags_contains flags PREFER_LOCAL then _ else flags).
    assert (E : flags_contains flags' FORCE_LOCAL = true ∧ flags_contains flags' USE_EXISTING = flags_contains flags USE_EXISTING).
    { unfold flags'. destruct (flags_contains flags PREFER_LOCAL); [|done]. by rewrite !contains_remove. }
    destruct E as [-> E]. eapply picks_weaken; [|apply local_first_spec]. intros pref pb _. rewrite E.
    destruct seen_near; [done|]. by rewrite andb_false_r.
  - rewrite F. destruct (flags_contains flags USE_EXISTING) eqn:U; [apply existing_first_spec|].
    destruct (flags_contains flags PREFER_LOCAL); [|apply random_spec].
    eapply picks_weaken; [|apply local_first_spec]. intros pref pb _. by rewrite U.
Qed.
Lemma seen_asked flags pref pb : offered pref pb → as_seen flags pb → as_asked flags pb.
Proof.
  intros Ho. unfold as_seen, as_asked. pose proof (sole_nearest pref pb) as Hs.
  assert (Hsole : seen_near = true → some_near = true ∧ sole_healthy = false).
  { intros [Hl%bool_decide_eq_true Hn]%andb_true_iff. split; [done|]. apply bool_decide_eq_false. lia. }
  assert (Hone : some_near = true → seen_near = false → sole_healthy = true).
  { unfold seen_near, some_near, sole_healthy. intros Hn. rewrite Hn, andb_true_r. intros Hl%bool_decide_eq_false.
    apply bool_decide_eq_true. destruct buf as [|a [|b l]]; [done|done|cbn in Hl; lia]. }
  destruct seen_near.
  - destruct Hsole as [-> ->]; [done|]. rewrite andb_false_r. cbn [negb]. by rewrite !andb_true_r.
  - rewrite !andb_false_r. destruct some_near; [|by rewrite !andb_false_r]. rewrite !andb_true_r, Hone by done.
    rewrite andb_true_r. destruct (flags_contains flags USE_EXISTING && some_connected); cbn [negb]; [by rewrite andb_false_r|].
    intros Hb. rewrite andb_true_r. repeat case_match; auto.
Qed.
Lemma asked_spec flags : PublishFlags_from_bits (uval (res_flags resolved)) = Some flags →
  picks (as_asked flags) (choose_addr interfaces failed connected publishers resolved seed).
Proof. intros H. eapply picks_weaken; [|by apply seen_spec]. intros pref pb. apply seen_asked. Qed.
End Choice.
