(* ===== verification/Subscriber.v ===== *)
(** The subscriber's tables (netidx/src/subscriber/mod.rs): the values there are
    connections for, durable subscriptions and their states, and the task that
    resubscribes. What is under the lock is one step. Shared objects ([Arc]) live in a
    memory with their counts of strong references: upgrading a weak reference succeeds
    while the count is positive, and dropping the last reference of a [Val] unsubscribes
    it. One-shot channels, the queues of the connections and the channels of the program
    are part of the memory. The subscriber itself stays alive. *)
From Stdlib Require Import ZArith Lia.
From stdpp Require Import base gmap list strings sorting.
From Stdlib Require Import Strings.Byte.
From S2P Require Import Prelude Varint Pack Containers PackTypes Path PathFacts Order Glob Derive Proto.
From S2P Require Import Store Permissions Float Value ValuePack PubProto Publisher SubChoose.

Abbreviation SubId := (atomic_id "SubId").
Abbreviation ConId := (atomic_id "ConId").
(** Milliseconds *)
Abbreviation Instant := Z.
(** References to a [ValInner] and to a [DvalInner] *)
Abbreviation ValRef := Z.
Abbreviation DvRef := Z.

(** [UpdatesFlags] *)
Definition BEGIN_WITH_LAST : Z := 0x01.
Definition STOP_COLLECTING_LAST : Z := 0x02.
Definition NO_SPURIOUS : Z := 0x04.
Abbreviation Streams := (list (Z * Chan)).

(** The errors a subscription attempt ends with *)
Inductive SubError :=
| ResolveTimedOut | ResolveFailed | PathNotFound | NoPublisherRecord | ConnectionClosed | ConnectionDied
| OtherSideDied | ReqTimedOut | NoSuchValue | PermissionDenied | AliasDropped.

(** [Result<Val>] *)
Inductive SubResult := Got (v : ValRef) | Failed (e : SubError).

Section Data.
Context {VA : ValueApi}.

Inductive Event := Ev_Unsubscribed | Ev_Update (v : Value).

Record SubscribeValRequest := MkReq {
  req_path : str;
  req_sub_id : SubId;
  req_timestamp : u64;
  req_permissions : u32;
  req_token : str;
  req_resolver : SocketAddr;
  req_finished : Waiter;
  req_con : ConId;
  req_deadline : option Instant;
  req_streams : Streams
}.
Inductive ToCon :=
| TC_Subscribe (r : SubscribeValRequest)
| TC_Unsubscribe (id : Id)
| TC_Stream (id : Id) (tx : Chan) (flags : Z)
| TC_Write (id : Id) (v : Value) (wid : WriteId) (tx : option Waiter)
| TC_Flush (tx : Waiter).

(** The connection of a [Val] is the one with its [conid]. *)
Record ValInner := MkValInner {
  v_sub_id : SubId;
  v_id : Id;
  v_conid : ConId;
  v_last : Event;
  v_strong : nat
}.
Record DvDead := MkDvDead {
  queued_writes : list (Value * option Waiter);
  dv_waiting : list Waiter;
  tries : Z;
  next_try : Instant
}.
Inductive DvState := Dv_Subscribed (v : ValRef) | Dv_Dead (d : DvDead).
Record DvalInner := MkDvalInner { d_sub_id : SubId; d_sub : DvState; d_streams : Streams; d_strong : nat }.

Inductive SubStatus := SS_Subscribed (v : ValRef) | SS_Pending (waiters : list Waiter).
Record Connection := MkConnection { primary : option ConId; isolated : gset ConId }.

(** The receiving end of a one-shot channel: nothing yet, the result, or the sender is
    gone. When the receiver is gone or has read the result there is none. *)
Inductive Oneshot := OOpen | OSent (r : SubResult) | ODropped.

(** [SubscriberInner]; [statuses] is its field [subscribed], [trigger_resub] the messages
    on that channel. *)
Record SubscriberInner := MkSubscriberInner {
  connections : gmap SocketAddr Connection;
  recently_failed : gmap SocketAddr Instant;
  statuses : gmap str SubStatus;
  durable_dead : gmap str DvRef;
  durable_pending : gmap str DvRef;
  durable_alive : gmap str DvRef;
  trigger_resub : nat
}.
(** The memory: [queues] has the connections whose receiver is not closed, [spawned] the
    connection tasks that did not start yet, [chan_log] the batches that were put in the
    channels of the program, [closed_chans] and [full_chans] those that take none, [awake] the tasks that were woken, [replies]
    the results of writes. *)
Record Mem := MkMem {
  vals : gmap ValRef ValInner;
  dvals : gmap DvRef DvalInner;
  oneshots : gmap Waiter Oneshot;
  queues : gmap ConId (list ToCon);
  spawned : gmap ConId (SocketAddr * TargetAuth * option UserInfo);
  chan_log : list (Chan * list (SubId * Event));
  closed_chans : gset Chan;
  full_chans : gset Chan;
  awake : list Waiter;
  replies : list (Waiter * Value);
  next_ref : Z;
  next_waiter_id : Z;
  next_sub_id : Z;
  next_conid : Z;
  next_write_id : Z
}.
(** What an operation works on *)
Record Sub := MkSub { inner_ : SubscriberInner; mem : Mem }.
Definition on_inner (f : SubscriberInner → SubscriberInner) (s : Sub) : Sub := MkSub (f (inner_ s)) (mem s).
Definition on_mem (f : Mem → Mem) (s : Sub) : Sub := MkSub (inner_ s) (f (mem s)).

(** Field updates *)
Definition upd_connections (f : gmap SocketAddr Connection → gmap SocketAddr Connection) (s : SubscriberInner) : SubscriberInner :=
  MkSubscriberInner (f (connections s)) (recently_failed s) (statuses s) (durable_dead s) (durable_pending s) (durable_alive s) (trigger_resub s).
Definition upd_recently_failed (f : gmap SocketAddr Instant → gmap SocketAddr Instant) (s : SubscriberInner) : SubscriberInner :=
  MkSubscriberInner (connections s) (f (recently_failed s)) (statuses s) (durable_dead s) (durable_pending s) (durable_alive s) (trigger_resub s).
Definition upd_statuses (f : gmap str SubStatus → gmap str SubStatus) (s : SubscriberInner) : SubscriberInner :=
  MkSubscriberInner (connections s) (recently_failed s) (f (statuses s)) (durable_dead s) (durable_pending s) (durable_alive s) (trigger_resub s).
Definition upd_durable_dead (f : gmap str DvRef → gmap str DvRef) (s : SubscriberInner) : SubscriberInner :=
  MkSubscriberInner (connections s) (recently_failed s) (statuses s) (f (durable_dead s)) (durable_pending s) (durable_alive s) (trigger_resub s).
Definition upd_durable_pending (f : gmap str DvRef → gmap str DvRef) (s : SubscriberInner) : SubscriberInner :=
  MkSubscriberInner (connections s) (recently_failed s) (statuses s) (durable_dead s) (f (durable_pending s)) (durable_alive s) (trigger_resub s).
Definition upd_durable_alive (f : gmap str DvRef → gmap str DvRef) (s : SubscriberInner) : SubscriberInner :=
  MkSubscriberInner (connections s) (recently_failed s) (statuses s) (durable_dead s) (durable_pending s) (f (durable_alive s)) (trigger_resub s).
Definition upd_trigger_resub (f : nat → nat) (s : SubscriberInner) : SubscriberInner :=
  MkSubscriberInner (connections s) (recently_failed s) (statuses s) (durable_dead s) (durable_pending s) (durable_alive s) (f (trigger_resub s)).
Definition mem_vals (f : gmap ValRef ValInner → gmap ValRef ValInner) (s : Mem) : Mem :=
  MkMem (f (vals s)) (dvals s) (oneshots s) (queues s) (spawned s) (chan_log s) (closed_chans s) (full_chans s) (awake s) (replies s) (next_ref s) (next_waiter_id s) (next_sub_id s) (next_conid s) (next_write_id s).
Definition mem_dvals (f : gmap DvRef DvalInner → gmap DvRef DvalInner) (s : Mem) : Mem :=
  MkMem (vals s) (f (dvals s)) (oneshots s) (queues s) (spawned s) (chan_log s) (closed_chans s) (full_chans s) (awake s) (replies s) (next_ref s) (next_waiter_id s) (next_sub_id s) (next_conid s) (next_write_id s).
Definition mem_oneshots (f : gmap Waiter Oneshot → gmap Waiter Oneshot) (s : Mem) : Mem :=
  MkMem (vals s) (dvals s) (f (oneshots s)) (queues s) (spawned s) (chan_log s) (closed_chans s) (full_chans s) (awake s) (replies s) (next_ref s) (next_waiter_id s) (next_sub_id s) (next_conid s) (next_write_id s).
Definition mem_queues (f : gmap ConId (list ToCon) → gmap ConId (list ToCon)) (s : Mem) : Mem :=
  MkMem (vals s) (dvals s) (oneshots s) (f (queues s)) (spawned s) (chan_log s) (closed_chans s) (full_chans s) (awake s) (replies s) (next_ref s) (next_waiter_id s) (next_sub_id s) (next_conid s) (next_write_id s).
Definition mem_spawned (f : gmap ConId (SocketAddr * TargetAuth * option UserInfo) → gmap ConId (SocketAddr * TargetAuth * option UserInfo)) (s : Mem) : Mem :=
  MkMem (vals s) (dvals s) (oneshots s) (queues s) (f (spawned s)) (chan_log s) (closed_chans s) (full_chans s) (awake s) (replies s) (next_ref s) (next_waiter_id s) (next_sub_id s) (next_conid s) (next_write_id s).
Definition mem_chan_log (f : list (Chan * list (SubId * Event)) → list (Chan * list (SubId * Event))) (s : Mem) : Mem :=
  MkMem (vals s) (dvals s) (oneshots s) (queues s) (spawned s) (f (chan_log s)) (closed_chans s) (full_chans s) (awake s) (replies s) (next_ref s) (next_waiter_id s) (next_sub_id s) (next_conid s) (next_write_id s).
Definition mem_closed_chans (f : gset Chan → gset Chan) (s : Mem) : Mem :=
  MkMem (vals s) (dvals s) (oneshots s) (queues s) (spawned s) (chan_log s) (f (closed_chans s)) (full_chans s) (awake s) (replies s) (next_ref s) (next_waiter_id s) (next_sub_id s) (next_conid s) (next_write_id s).
Definition mem_full_chans (f : gset Chan → gset Chan) (s : Mem) : Mem :=
  MkMem (vals s) (dvals s) (oneshots s) (queues s) (spawned s) (chan_log s) (closed_chans s) (f (full_chans s)) (awake s) (replies s) (next_ref s) (next_waiter_id s) (next_sub_id s) (next_conid s) (next_write_id s).
Definition mem_awake (f : list Waiter → list Waiter) (s : Mem) : Mem :=
  MkMem (vals s) (dvals s) (oneshots s) (queues s) (spawned s) (chan_log s) (closed_chans s) (full_chans s) (f (awake s)) (replies s) (next_ref s) (next_waiter_id s) (next_sub_id s) (next_conid s) (next_write_id s).
Definition mem_replies (f : list (Waiter * Value) → list (Waiter * Value)) (s : Mem) : Mem :=
  MkMem (vals s) (dvals s) (oneshots s) (queues s) (spawned s) (chan_log s) (closed_chans s) (full_chans s) (awake s) (f (replies s)) (next_ref s) (next_waiter_id s) (next_sub_id s) (next_conid s) (next_write_id s).
Definition mem_next_ref (f : Z → Z) (s : Mem) : Mem :=
  MkMem (vals s) (dvals s) (oneshots s) (queues s) (spawned s) (chan_log s) (closed_chans s) (full_chans s) (awake s) (replies s) (f (next_ref s)) (next_waiter_id s) (next_sub_id s) (next_conid s) (next_write_id s).
Definition mem_next_waiter_id (f : Z → Z) (s : Mem) : Mem :=
  MkMem (vals s) (dvals s) (oneshots s) (queues s) (spawned s) (chan_log s) (closed_chans s) (full_chans s) (awake s) (replies s) (next_ref s) (f (next_waiter_id s)) (next_sub_id s) (next_conid s) (next_write_id s).
Definition mem_next_sub_id (f : Z → Z) (s : Mem) : Mem :=
  MkMem (vals s) (dvals s) (oneshots s) (queues s) (spawned s) (chan_log s) (closed_chans s) (full_chans s) (awake s) (replies s) (next_ref s) (next_waiter_id s) (f (next_sub_id s)) (next_conid s) (next_write_id s).
Definition mem_next_conid (f : Z → Z) (s : Mem) : Mem :=
  MkMem (vals s) (dvals s) (oneshots s) (queues s) (spawned s) (chan_log s) (closed_chans s) (full_chans s) (awake s) (replies s) (next_ref s) (next_waiter_id s) (next_sub_id s) (f (next_conid s)) (next_write_id s).
Definition mem_next_write_id (f : Z → Z) (s : Mem) : Mem :=
  MkMem (vals s) (dvals s) (oneshots s) (queues s) (spawned s) (chan_log s) (closed_chans s) (full_chans s) (awake s) (replies s) (next_ref s) (next_waiter_id s) (next_sub_id s) (next_conid s) (f (next_write_id s)).
Definition Subscriber_new : Sub :=
  MkSub (MkSubscriberInner ∅ ∅ ∅ ∅ ∅ ∅ 0) (MkMem ∅ ∅ ∅ ∅ ∅ [] ∅ ∅ [] [] 0 0 0 0 0).

(** ** The memory *)

Definition queue (con : ConId) (s : Sub) : option (list ToCon) := queues (mem s) !! con.
(** [BatchSender::send] *)
Definition send (con : ConId) (m : ToCon) (s : Sub) : bool * Sub :=
  match queue con s with
  | Some q => (true, on_mem (mem_queues <[con := q ++ [m]]>) s)
  | None => (false, s)
  end.
Definition send_ (con : ConId) (m : ToCon) (s : Sub) : Sub := (send con m s).2.

Definition set_strong (n : nat) (x : ValInner) : ValInner := MkValInner (v_sub_id x) (v_id x) (v_conid x) (v_last x) n.
Definition set_last (e : Event) (x : ValInner) : ValInner := MkValInner (v_sub_id x) (v_id x) (v_conid x) e (v_strong x).
Definition set_d_strong (n : nat) (x : DvalInner) : DvalInner := MkDvalInner (d_sub_id x) (d_sub x) (d_streams x) n.
Definition set_d_sub (st : DvState) (x : DvalInner) : DvalInner := MkDvalInner (d_sub_id x) st (d_streams x) (d_strong x).
Definition set_d_streams (l : Streams) (x : DvalInner) : DvalInner := MkDvalInner (d_sub_id x) (d_sub x) l (d_strong x).

(** [Weak::upgrade] *)
Definition val_upgrade (v : ValRef) (s : Sub) : option ValInner :=
  x ← vals (mem s) !! v; if (0 <? v_strong x)%nat then Some x else None.
Definition dval_upgrade (d : DvRef) (s : Sub) : option DvalInner :=
  x ← dvals (mem s) !! d; if (0 <? d_strong x)%nat then Some x else None.

(** Cloning a reference: there is one, so the count is positive. *)
Definition one_more (n : nat) : nat := match n with O => O | S n => S (S n) end.
Definition val_clone (v : ValRef) : Sub → Sub :=
  on_mem (mem_vals (alter (fun x => set_strong (one_more (v_strong x)) x) v)).
(** Dropping a [Val]; the last one runs [ValInner::drop]. *)
Definition val_drop (v : ValRef) (s : Sub) : Sub :=
  match val_upgrade v s with
  | None => s
  | Some x =>
      let s := on_mem (mem_vals <[v := set_strong (pred (v_strong x)) x]>) s in
      if (v_strong x =? 1)%nat then send_ (v_conid x) (TC_Unsubscribe (v_id x)) s else s
  end.
Definition wake_all (ws : list Waiter) : Sub → Sub := on_mem (mem_awake (fun l => l ++ ws)).
(** Dropping a state: a [Val], or the senders of the tasks in [wait_subscribed], which
    wakes them. *)
Definition state_drop (st : DvState) (s : Sub) : Sub :=
  match st with Dv_Subscribed v => val_drop v s | Dv_Dead d => wake_all (dv_waiting d) s end.
Definition dval_clone (d : DvRef) : Sub → Sub :=
  on_mem (mem_dvals (alter (fun x => set_d_strong (one_more (d_strong x)) x) d)).
Definition dval_drop (d : DvRef) (s : Sub) : Sub :=
  match dval_upgrade d s with
  | None => s
  | Some x =>
      let s := on_mem (mem_dvals <[d := set_d_strong (pred (d_strong x)) x]>) s in
      if (d_strong x =? 1)%nat then state_drop (d_sub x) s else s
  end.
(** [inner.sub = st] *)
Definition dval_set (d : DvRef) (st : DvState) (s : Sub) : Sub :=
  match dvals (mem s) !! d with
  | None => s
  | Some x => state_drop (d_sub x) (on_mem (mem_dvals <[d := set_d_sub st x]>) s)
  end.

Definition res_drop (r : SubResult) (s : Sub) : Sub := match r with Got v => val_drop v s | Failed _ => s end.
(** [oneshot::channel], [Sender::send], dropping the sender, dropping the receiver *)
Definition oneshot (s : Sub) : Waiter * Sub :=
  let w := next_waiter_id (mem s) in
  (w, on_mem (mem_next_waiter_id Z.succ) (on_mem (mem_oneshots <[w := OOpen]>) s)).
Definition oneshot_send (w : Waiter) (r : SubResult) (s : Sub) : bool * Sub :=
  match oneshots (mem s) !! w with
  | Some OOpen => (true, on_mem (mem_oneshots <[w := OSent r]>) s)
  | _ => (false, res_drop r s)
  end.
Definition sender_drop (w : Waiter) (s : Sub) : Sub :=
  match oneshots (mem s) !! w with
  | Some OOpen => on_mem (mem_oneshots <[w := ODropped]>) s
  | _ => s
  end.
Definition receiver_drop (w : Waiter) (s : Sub) : Sub :=
  let s' := on_mem (mem_oneshots (delete w)) s in
  match oneshots (mem s) !! w with Some (OSent r) => res_drop r s' | _ => s' end.
(** A task that waits for something else than a subscription *)
Definition new_task (s : Sub) : Waiter * Sub := (next_waiter_id (mem s), on_mem (mem_next_waiter_id Z.succ) s).
Definition WriteId_new (s : Sub) : WriteId * Sub :=
  let '(i, next) := atomic_id_new (next_write_id (mem s)) in (i, on_mem (mem_next_write_id (fun _ => next)) s).
Definition SubId_new (s : Sub) : SubId * Sub :=
  let '(i, next) := atomic_id_new (next_sub_id (mem s)) in (i, on_mem (mem_next_sub_id (fun _ => next)) s).
Definition new_ref (s : Sub) : Z * Sub := (next_ref (mem s), on_mem (mem_next_ref Z.succ) s).

(** ** [Val] *)

Definition val_last (v : ValRef) (s : Sub) : option Event := v_last <$> vals (mem s) !! v.
Definition val_send (v : ValRef) (m : Id → ToCon) (s : Sub) : Sub :=
  match vals (mem s) !! v with Some x => send_ (v_conid x) (m (v_id x)) s | None => s end.
Definition val_updates (v : ValRef) (flags : Z) (tx : Chan) : Sub → Sub := val_send v (fun id => TC_Stream id tx flags).
Definition val_write (v : ValRef) (x : Value) (tx : option Waiter) (s : Sub) : Sub :=
  let '(wid, s) := WriteId_new s in val_send v (fun id => TC_Write id x wid tx) s.
Definition val_write_with_recipt (v : ValRef) (x : Value) (s : Sub) : Waiter * Sub :=
  let '(w, s) := new_task s in (w, val_write v x (Some w) s).
Definition val_flush (v : ValRef) (s : Sub) : Waiter * Sub :=
  let '(w, s) := new_task s in (w, val_send v (fun _ => TC_Flush w) s).

(** ** [Dval] *)

Definition dval_last (d : DvRef) (s : Sub) : option Event :=
  x ← dvals (mem s) !! d; match d_sub x with Dv_Dead _ => Some Ev_Unsubscribed | Dv_Subscribed v => val_last v s end.
Definition dval_upd (d : DvRef) (f : DvalInner → DvalInner) : Sub → Sub := on_mem (mem_dvals (alter f d)).
Definition upd_dead (f : DvDead → DvDead) (x : DvalInner) : DvalInner :=
  match d_sub x with Dv_Dead dd => set_d_sub (Dv_Dead (f dd)) x | Dv_Subscribed _ => x end.
(** [Dval::updates] *)
Definition dval_updates (d : DvRef) (flags : Z) (tx : Chan) (s : Sub) : Sub :=
  match dvals (mem s) !! d with
  | None => s
  | Some x =>
      let s := if bool_decide (tx ∈ (d_streams x).*2) then s
               else dval_upd d (set_d_streams (d_streams x ++ [(flags, tx)])) s in
      match d_sub x with Dv_Subscribed v => val_updates v flags tx s | Dv_Dead _ => s end
  end.
(** [wait_subscribed]: no task if it returns at once *)
Definition wait_subscribed (d : DvRef) (s : Sub) : option Waiter * Sub :=
  match d_sub <$> dvals (mem s) !! d with
  | Some (Dv_Dead _) =>
      let '(w, s) := new_task s in
      (Some w, dval_upd d (upd_dead (fun dd => MkDvDead (queued_writes dd) (dv_waiting dd ++ [w]) (tries dd) (next_try dd))) s)
  | _ => (None, s)
  end.
Definition queue_write (x : Value) (tx : option Waiter) (dd : DvDead) : DvDead :=
  MkDvDead (queued_writes dd ++ [(x, tx)]) (dv_waiting dd) (tries dd) (next_try dd).
(** [Dval::write] and [write_with_recipt]; the bool says if it was sent at once. *)
Definition dval_write (d : DvRef) (x : Value) (tx : option Waiter) (s : Sub) : bool * Sub :=
  match d_sub <$> dvals (mem s) !! d with
  | Some (Dv_Subscribed v) => (true, val_write v x tx s)
  | Some (Dv_Dead _) => (false, dval_upd d (upd_dead (queue_write x tx)) s)
  | None => (false, s)
  end.
Definition dval_write_with_recipt (d : DvRef) (x : Value) (s : Sub) : Waiter * Sub :=
  let '(w, s) := new_task s in (w, (dval_write d x (Some w) s).2).
Definition clear_queued_writes (d : DvRef) : Sub → Sub :=
  dval_upd d (upd_dead (fun dd => MkDvDead [] (dv_waiting dd) (tries dd) (next_try dd))).
Definition dval_queued_writes (d : DvRef) (s : Sub) : nat :=
  match d_sub <$> dvals (mem s) !! d with Some (Dv_Dead dd) => length (queued_writes dd) | _ => 0 end.

(** ** [Connection] *)

Definition con_iter (c : Connection) : list ConId :=
  match primary c with Some x => x :: elements (isolated c) | None => elements (isolated c) end.
Definition con_remove (id : ConId) (c : Connection) : Connection :=
  MkConnection (if decide (primary c = Some id) then None else primary c) (isolated c ∖ {[id]}).
Definition con_is_empty (c : Connection) : bool := bool_decide (primary c = None) && bool_decide (isolated c = ∅).
(** Removing a connection from the table, as its task does when it ends *)
Definition remove_connection (addr : SocketAddr) (id : ConId) (t : SubscriberInner) : SubscriberInner :=
  match connections t !! addr with
  | None => t
  | Some c => let c := con_remove id c in upd_connections (if con_is_empty c then delete addr else <[addr := c]>) t
  end.

(** ** [SubscriberInner] *)

(** The tables are asked in turn for an entry, which is then upgraded. *)
Definition durable_entry (path : str) (t : SubscriberInner) : option DvRef :=
  match durable_dead t !! path with
  | Some d => Some d
  | None => match durable_pending t !! path with Some d => Some d | None => durable_alive t !! path end
  end.
Definition durable_id (path : str) (s : Sub) : option SubId :=
  d ← durable_entry path (inner_ s); d_sub_id <$> dval_upgrade d s.
Definition REMEBER_FAILED : Z := 60000.
Definition gc_recently_failed (now : Instant) (t : SubscriberInner) : SubscriberInner :=
  upd_recently_failed (filter (fun kv : SocketAddr * Instant => now - kv.2 < REMEBER_FAILED)) t.
Definition durable_stats (t : SubscriberInner) : nat * nat * nat :=
  (size (durable_alive t), size (durable_pending t), size (durable_dead t)).
Definition is_subscribed_or_pending (path : str) (t : SubscriberInner) : bool :=
  bool_decide (is_Some (statuses t !! path) ∨ is_Some (durable_dead t !! path) ∨
    is_Some (durable_pending t !! path) ∨ is_Some (durable_alive t !! path)).

(** [start_connection]: a task is spawned. *)
Definition start_connection (addr : SocketAddr) (auth : TargetAuth) (uifo : option UserInfo) (s : Sub) : ConId * Sub :=
  let '(id, next) := atomic_id_new (next_conid (mem s)) in
  (id, on_mem (mem_spawned <[id := (addr, auth, uifo)]>)
        (on_mem (mem_queues <[id := []]>) (on_mem (mem_next_conid (fun _ => next)) s))).

(** ** Subscribing: [subscribe_nondurable_internal] *)

Inductive St :=
| St_Resolve (streams : Streams)
| St_Subscribing (w : Waiter)
| St_WaitingOther (w : Waiter) (streams : Streams)
| St_Subscribed (v : ValRef) (streams : Streams)
| St_Error (e : SubError).

(** Init: one path of the batch. A [Val] that is found is held. *)
Definition init_path (p : str) (streams : Streams) (pending : gmap str St) (s : Sub) : gmap str St * Sub :=
  let fresh := (<[p := St_Resolve streams]> pending, on_inner (upd_statuses <[p := SS_Pending []]>) s) in
  match statuses (inner_ s) !! p with
  | None => fresh
  | Some (SS_Pending v) =>
      let '(w, s) := oneshot s in
      (<[p := St_WaitingOther w streams]> pending, on_inner (upd_statuses <[p := SS_Pending (v ++ [w])]>) s)
  | Some (SS_Subscribed v) =>
      match val_upgrade v s with
      | Some _ => (<[p := St_Subscribed v streams]> pending, val_clone v s)
      | None => fresh
      end
  end.
(** The state that a path had in [pending] before, if the batch has it twice *)
Definition st_drop (st : St) (s : Sub) : Sub :=
  match st with
  | St_Subscribing w | St_WaitingOther w _ => receiver_drop w s
  | St_Subscribed v _ => val_drop v s
  | St_Resolve _ | St_Error _ => s
  end.
Fixpoint init_batch (batch : list (str * Streams)) (pending : gmap str St) (s : Sub) : gmap str St * Sub :=
  match batch with
  | [] => (pending, s)
  | (p, streams) :: batch =>
      let old := pending !! p in
      let '(pending, s) := init_path p streams pending s in
      init_batch batch pending (match old with Some st => st_drop st s | None => s end)
  end.
Definition subscribe_init (now : Instant) (batch : list (str * Streams)) (s : Sub) : gmap str St * Sub :=
  init_batch batch ∅ (on_inner (gc_recently_failed now) s).

Definition is_resolve (st : St) : Prop := match st with St_Resolve _ => True | _ => False end.
#[export] Instance is_resolve_dec st : Decision (is_resolve st).
Proof. destruct st; apply _. Defined.
Definition to_resolve (pending : gmap str St) : gmap str St := filter (fun kv : str * St => is_resolve kv.2) pending.

(** What [ResolverRead::resolve] answered in time: an error, or one [Resolved] for each
    path of [to_resolve], in the order it was enumerated. *)
Inductive ResolveReply := RR_TimedOut | RR_Failed | RR_Ok (publishers : gmap PublisherId Publisher) (res : list (str * Resolved)).

Section Resolve.
Context {R : Rand} (interfaces : list Interface).

Definition choose_from (publishers : gmap PublisherId Publisher) (resolved : Resolved) (seed : Z) (t : SubscriberInner) : option Chosen :=
  choose_addr interfaces (fun a => bool_decide (is_Some (recently_failed t !! a)))
    (fun a => bool_decide (is_Some (connections t !! a))) publishers resolved seed.

(** The connection for a choice: an own one if it is isolated, else the primary one *)
Definition connection_for (ch : Chosen) (s : Sub) : ConId * Sub :=
  let con := default (MkConnection None ∅) (connections (inner_ s) !! ch_addr ch) in
  let new s := start_connection (ch_addr ch) (ch_target_auth ch) (ch_uifo ch) s in
  let put c := on_inner (upd_connections <[ch_addr ch := c]>) in
  if flags_contains (ch_flags ch) ISOLATED then
    let '(id, s) := new s in (id, put (MkConnection (primary con) ({[id]} ∪ isolated con)) s)
  else
    match primary con with
    | Some id => (id, s)
    | None => let '(id, s) := new s in (id, put (MkConnection (Some id) (isolated con)) s)
    end.

(** One path that was resolved *)
Definition resolve_path (publishers : gmap PublisherId Publisher) (deadline : option Instant) (seed : Z)
    (p : str) (resolved : Resolved) (pending : gmap str St) (s : Sub) : res unit (gmap str St) * Sub :=
  if bool_decide (res_publishers resolved = []) then (Ok (<[p := St_Error PathNotFound]> pending), s)
  else
    match choose_from publishers resolved seed (inner_ s) with
    | None => (Ok (<[p := St_Error NoPublisherRecord]> pending), s)
    | Some ch =>
        let '(sub_id, s) := match durable_id p s with Some i => (i, s) | None => SubId_new s end in
        let '(con, s) := connection_for ch s in
        let '(w, s) := oneshot s in
        match pending !! p with
        | Some (St_Resolve streams) =>
            let req := MkReq p sub_id (res_timestamp resolved) (res_permissions resolved) (ch_token ch)
                         (res_resolver resolved) w con deadline streams in
            let '(r, s) := send con (TC_Subscribe req) s in
            if r then (Ok (<[p := St_Subscribing w]> pending), s)
            else (Ok (<[p := St_Error ConnectionClosed]> pending), receiver_drop w s)
        | _ => (Panic, s)
        end
    end.
Fixpoint resolve_paths (publishers : gmap PublisherId Publisher) (deadline : option Instant) (seed : Z)
    (l : list (str * Resolved)) (pending : gmap str St) (s : Sub) : res unit (gmap str St) * Sub :=
  match l with
  | [] => (Ok pending, s)
  | (p, r) :: l =>
      match resolve_path publishers deadline seed p r pending s with
      | (Ok pending, s) => resolve_paths publishers deadline (seed + 1) l pending s
      | o => o
      end
  end.
Definition fail_all (e : SubError) (pending : gmap str St) : gmap str St :=
  (fun st => if decide (is_resolve st) then St_Error e else st) <$> pending.
Definition subscribe_resolved (start : Instant) (timeout : option Z) (seed : Z) (reply : ResolveReply)
    (pending : gmap str St) (s : Sub) : res unit (gmap str St) * Sub :=
  match reply with
  | RR_TimedOut => (Ok (fail_all ResolveTimedOut pending), s)
  | RR_Failed => (Ok (fail_all ResolveFailed pending), s)
  | RR_Ok publishers l => resolve_paths publishers ((fun t => start + t) <$> timeout) seed l pending s
  end.
End Resolve.

(** Telling those who wait for a path *)
Definition tell_waiters (r : SubResult) (ws : list Waiter) (s : Sub) : Sub :=
  foldl (fun s w => (oneshot_send w r (match r with Got v => val_clone v s | Failed _ => s end)).2) s ws.
Definition connect_streams (v : ValRef) (more : Z) (streams : Streams) (s : Sub) : Sub :=
  foldl (fun s '(f, tx) => val_updates v (Z.lor f more) tx s) s streams.

(** [wait_result]; none if it has to wait. [Panic] is its [unreachable!]. *)
Definition wait_result (path : str) (st : St) (s : Sub) : option (res unit SubResult * Sub) :=
  match st with
  | St_Resolve _ => Some (Panic, s)
  | St_Subscribed v streams => Some (Ok (Got v), connect_streams v BEGIN_WITH_LAST streams s)
  | St_Error e =>
      let s' := on_inner (upd_statuses (delete path)) s in
      match statuses (inner_ s) !! path with
      | None => Some (Ok (Failed e), s)
      | Some (SS_Subscribed _) => Some (Panic, s')
      | Some (SS_Pending ws) => Some (Ok (Failed e), tell_waiters (Failed e) ws s')
      end
  | St_WaitingOther w streams =>
      match oneshots (mem s) !! w with
      | Some OOpen => None
      | o =>
          let r := match o with Some (OSent r) => r | _ => Failed OtherSideDied end in
          let s := on_mem (mem_oneshots (delete w)) s in
          Some (Ok r, match r with Got v => connect_streams v 0 streams s | Failed _ => s end)
      end
  | St_Subscribing w =>
      match oneshots (mem s) !! w with
      | Some OOpen => None
      | o =>
          let r := match o with Some (OSent r) => r | _ => Failed ConnectionDied end in
          let s := on_mem (mem_oneshots (delete w)) s in
          Some (match statuses (inner_ s) !! path with
          | Some (SS_Pending ws) =>
              let st := match r with Got v => <[path := SS_Subscribed v]> | Failed _ => delete path end in
              (Ok r, tell_waiters r ws (on_inner (upd_statuses st) s))
          | _ => (Panic, s)
          end)
      end
  end.

(** ** Durable subscriptions *)

Definition subscribe_internal (now : Instant) (path : str) (updates : Streams) (s : Sub) : DvRef * Sub :=
  let new :=
    let '(d, s) := new_ref s in
    let '(sub_id, s) := SubId_new s in
    let s := on_mem (mem_dvals <[d := MkDvalInner sub_id (Dv_Dead (MkDvDead [] [] 0 now)) updates 1]>) s in
    (d, on_inner (upd_trigger_resub S) (on_inner (upd_durable_dead <[path := d]>) s)) in
  match durable_entry path (inner_ s) with
  | None => new
  | Some d =>
      match dval_upgrade d s with
      | Some _ => (d, foldl (fun s '(f, tx) => dval_updates d f tx s) (dval_clone d s) updates)
      | None => new
      end
  end.

(** The order in which [durable_dead] is enumerated *)
Class SubOrder := { dead_order : gmap str DvRef → list (str * DvRef) }.
Class SubOrderOk (O : SubOrder) : Prop := { dead_order_perm m : dead_order m ≡ₚ map_to_list m }.

Section Resub.
Context {O : SubOrder} {R : Rand}.

(** [update_retry] *)
Fixpoint retry_scan (now : Instant) (l : list (str * DvRef)) (retry : option Instant) (s : Sub) : res unit (option Instant) :=
  match l with
  | [] => Ok retry
  | (_, d) :: l =>
      match dval_upgrade d s with
      | None => retry_scan now l retry s
      | Some x =>
          match d_sub x with
          | Dv_Subscribed _ => Panic
          | Dv_Dead dd =>
              let retry := match retry with
                | None => Some (next_try dd)
                | Some t => if next_try dd <? t then Some (next_try dd) else Some t
                end in
              if next_try dd <=? now then Ok retry else retry_scan now l retry s
          end
      end
  end.
Definition update_retry (now : Instant) (s : Sub) : res unit (option Instant) :=
  retry_scan now (dead_order (durable_dead (inner_ s))) None s.

Definition MAX_RESUB : Z := 100000.

(** The scan of [do_resub]: the dead entries, the batch, the tries *)
Record Scan := MkScan { sc_dead : list str; sc_batch : list (str * Streams); sc_tries : Z; sc_total : Z }.
Fixpoint resub_scan (now : Instant) (l : list (str * DvRef)) (sc : Scan) (s : Sub) : res unit Scan * Sub :=
  match l with
  | [] => (Ok sc, s)
  | (p, d) :: l =>
      match dval_upgrade d s with
      | None => resub_scan now l (MkScan (sc_dead sc ++ [p]) (sc_batch sc) (sc_tries sc) (sc_total sc)) s
      | Some x =>
          match d_sub x with
          | Dv_Subscribed _ => (Panic, s)
          | Dv_Dead dd =>
              if next_try dd <=? now then
                let s := on_inner (upd_durable_pending <[p := d]>) s in
                let sc := MkScan (sc_dead sc) (sc_batch sc ++ [(p, d_streams x)]) (Z.max (sc_tries sc) (tries dd)) (sc_total sc + 1) in
                if MAX_RESUB <=? sc_total sc then (Ok sc, s) else resub_scan now l sc s
              else resub_scan now l sc s
          end
      end
  end.
(** [do_resub] before it subscribes: the batch and its timeout in milliseconds *)
Definition resub_take (now : Instant) (s : Sub) : res unit (list (str * Streams) * Z) * Sub :=
  match resub_scan now (dead_order (durable_dead (inner_ s))) (MkScan [] [] 1 0) s with
  | (Ok sc, s) =>
      let gone := sc_dead sc ++ (sc_batch sc).*1 in
      let s := on_inner (upd_durable_dead (fun m => foldr delete m gone)) s in
      (Ok (sc_batch sc, 1000 * (30 + Z.max 10 (zlen (sc_batch sc) / 10000) * sc_tries sc)), s)
  | (Err e, s) => (Err e, s)
  | (Panic, s) => (Panic, s)
  end.

(** One result of [finish_resubscription_batch] *)
Definition resub_failed (now : Instant) (seed : Z) (p : str) (d : DvRef) (x : DvalInner) (s : Sub) : res unit unit * Sub :=
  match d_sub x with
  | Dv_Subscribed _ => (Panic, s)
  | Dv_Dead dd =>
      let tries := tries dd + 1 in
      let wait := rand_range seed tries * 50 in
      let s := dval_upd d (set_d_sub (Dv_Dead (MkDvDead (queued_writes dd) (dv_waiting dd) tries (now + wait)))) s in
      (Ok (), on_inner (upd_durable_dead <[p := d]>) s)
  end.
Definition resub_ok (p : str) (d : DvRef) (x : DvalInner) (v : ValRef) (s : Sub) : Sub :=
  let s := connect_streams v (Z.lor BEGIN_WITH_LAST NO_SPURIOUS) (d_streams x) s in
  let s := match d_sub x with
    | Dv_Dead dd => foldl (fun s '(w, tx) => val_write v w tx s) s (queued_writes dd)
    | Dv_Subscribed _ => s
    end in
  on_inner (upd_durable_alive <[p := d]>) (dval_set d (Dv_Subscribed v) s).
Definition finish_one (now : Instant) (seed : Z) (p : str) (r : SubResult) (s : Sub) : res unit unit * Sub :=
  let d := durable_pending (inner_ s) !! p in
  let s := on_inner (upd_durable_pending (delete p)) s in
  match d ≫= fun d => (d,.) <$> dval_upgrade d s with
  | None => (Ok (), res_drop r s)
  | Some (d, x) =>
      match r with
      | Got v =>
          match val_last v s with
          | Some Ev_Unsubscribed => let '(o, s) := resub_failed now seed p d x s in (o, val_drop v s)
          | _ => (Ok (), resub_ok p d x v s)
          end
      | Failed _ => resub_failed now seed p d x s
      end
  end.
Fixpoint finish_resubscription_batch (now : Instant) (seed : Z) (l : list (str * SubResult)) (s : Sub)
  : res unit (option Instant) * Sub :=
  match l with
  | [] => (update_retry now s, s)
  | (p, r) :: l =>
      match finish_one now seed p r s with
      | (Ok _, s) => finish_resubscription_batch now (seed + 1) l s
      | (Err e, s) => (Err e, s)
      | (Panic, s) => (Panic, s)
      end
  end.
End Resub.

(** [Subscriber::flush] *)
Definition flush (s : Sub) : list Waiter * Sub :=
  foldl (fun '(ws, s) con => let '(w, s) := new_task s in (ws ++ [w], send_ con (TC_Flush w) s))
    ([], s) (concat (con_iter <$> (map_to_list (connections (inner_ s))).*2)).
End Data.
