(* ===== verification/SubEvent.v ===== *)
(** The encoding of a subscription event: one byte, or the value it carries. *)
From Stdlib Require Import ZArith Lia.
From stdpp Require Import base gmap list strings.
From Stdlib Require Import Strings.Byte.
From S2P Require Import Prelude Varint Pack Containers PackTypes Path Order Proto.
From S2P Require Import Float Value ValuePack ValueOrd ValueClaims PubProto Publisher SubChoose Subscriber.

Section Event.
Context {LY : Layout} {VA : ValueApi} {CM : ChunkMap} {AO : AnyOk}.
(** [event_size] is the size of an [Event] in memory. *)
Context (reg : Registry) (event_size : Z).

(** [buf.chunk()[0]]: the first byte, if there is one *)
Definition first_byte : dec PackError Z := fun bs => match bs with [] => (Panic, bs) | b :: _ => (Ok (bZ b), bs) end.
Definition Event_pack : Pack Event := simple_pack event_size None
  (fun e => match e with Ev_Unsubscribed => 1 | Ev_Update v => encoded_len (Value_pack reg) v end)
  (fun e => match e with Ev_Unsubscribed => put [Zb 0x40] | Ev_Update v => encode (Value_pack reg) v end)
  (let! b := first_byte in
   if b =? 0x40 then let! _ := dtake 1 in dret Ev_Unsubscribed
   else let! v := decode (Value_pack reg) in dret (Ev_Update v)).

(** No value is encoded with that first byte. *)
Lemma value_not_0x40 rest v rest' : decode (Value_pack reg) (Zb 0x40 :: rest) ≠ (Ok v, rest').
Proof.
  cbn [decode Value_pack simple_pack length value_pack]. rewrite (dbind_ok _ _ _ _ _ (decode_tag 0x40 rest ltac:(lia))). done.
Qed.
Lemma encoded_not_0x40 v bs rest : decode (Value_pack reg) (bs ++ rest) = (Ok v, rest) → bs ≠ [] → ∃ b bs', bs = b :: bs' ∧ bZ b ≠ 0x40.
Proof.
  intros Hd Hn. destruct bs as [|b bs]; [done|]. exists b, bs. split; [done|]. intros E. apply (value_not_0x40 (bs ++ rest) v rest).
  rewrite <-E, Zb_bZ. exact Hd.
Qed.
(** C35: An event is decoded from what it was encoded to, also when more follows. *)
Theorem event_roundtrip e : match e with Ev_Unsubscribed => True | Ev_Update v => value_wf reg v end →
  encoded_len Event_pack e < MAX_BUF →
  ∃ bs, encode Event_pack e = (bs, Ok ()) ∧ zlen bs = encoded_len Event_pack e ∧
    ∀ rest, zlen (bs ++ rest) < MAX_BUF → decode Event_pack (bs ++ rest) = (Ok e, rest).
Proof.
  destruct e as [|v]; cbn [encoded_len encode Event_pack simple_pack]; intros Hv Hlt.
  - exists [Zb 0x40]. split; [done|]. split; [done|]. intros rest _. cbn [decode Event_pack simple_pack app].
    unfold dbind at 1. cbn [first_byte]. change (bZ (Zb 0x40) =? 0x40) with true. cbv iota.
    rewrite (dbind_ok _ _ _ _ _ (dtake_app 1 [Zb 0x40] rest eq_refl)). done.
  - destruct (encode_spec (P := Value_pack reg) v Hv Hlt) as (bs & He & Hz & Hd). exists bs. split; [done|]. split; [done|].
    intros rest Hr. assert (Hn : bs ≠ []) by (intros ->; discriminate (Hd [] eq_refl)).
    specialize (Hd rest Hr). destruct (encoded_not_0x40 v bs rest Hd Hn) as (b & bs' & -> & Hb).
    cbn [decode Event_pack simple_pack app]. unfold dbind at 1. cbn [first_byte]. rewrite (proj2 (Z.eqb_neq _ _) Hb).
    by rewrite (dbind_ok _ _ _ _ _ Hd).
Qed.
(** An empty buffer is not an error. *)
Lemma event_decode_empty : decode Event_pack [] = (Panic, []).
Proof. done. Qed.
End Event.

(** ** The theorem at an event *)

#[local] Existing Instances demo_layout demo_values demo_map_api demo_any_ok.
Lemma event_roundtrip_witness :
  decode (Event_pack REGISTRY_init 24) ((encode (Event_pack REGISTRY_init 24) (Ev_Update (VU32 5))).1 ++ [Zb 7]) = (Ok (Ev_Update (VU32 5)), [Zb 7]).
Proof.
  assert (Hl : encoded_len (Event_pack REGISTRY_init 24) (Ev_Update (VU32 5)) < MAX_BUF) by reflexivity.
  assert (Hw : value_wf REGISTRY_init (VU32 5)) by (cbn; unfold in_u; lia).
  destruct (event_roundtrip REGISTRY_init 24 (Ev_Update (VU32 5)) Hw Hl) as (bs & He & Hz & Hd).
  rewrite He. cbn [fst]. apply Hd. unfold zlen in *. rewrite length_app. cbn [length]. unfold MAX_BUF.
  change (encoded_len (Event_pack REGISTRY_init 24) (Ev_Update (VU32 5))) with 5 in Hz. lia.
Defined.
