(* ===== verification/SubConn.v ===== *)
(** The subscriber's side of a connection (netidx/src/subscriber/connection.rs): how it
    greets a publisher, what it does with the requests of the program and the messages of
    the publisher, how updates reach the channels of the program, and what happens when
    the connection ends. A turn of [run] is one step, its input is what [select_biased!]
    found ready. *)
From Stdlib Require Import ZArith Lia.
From stdpp Require Import base gmap list strings sorting.
From Stdlib Require Import Strings.Byte.
From S2P Require Import Prelude Varint Pack Containers PackTypes Path PathFacts Order Glob Derive Proto.
From S2P Require Import Store Permissions Channel Float Value ValuePack PubProto Publisher PubServer SubChoose Subscriber.

Inductive ConError := HungPublisher | MsgTooLarge | ReadFailed | Eof | BadVersion | Refused | Unexpected.

(** ** Greeting *)

(** What the publisher and the libraries contribute: its version, whether Kerberos or TLS
    accepted it, its greeting *)
Record PubReply := MkPubReply { rp_version : Z; rp_secure : bool; rp_hello : Hello }.
(** [hello_publisher]: the greeting that is sent, and whether the connection goes on *)
Definition hello_publisher (desired : DesiredAuth) (target : TargetAuth) (uifo : option UserInfo) (rp : PubReply)
  : option Hello * res ConError unit :=
  let expect (h : Hello) (ok : Hello → bool) :=
    (Some h, if ok (rp_hello rp) then Ok () else Err Unexpected) in
  if negb (rp_version rp =? 3) then (None, Err BadVersion)
  else
    match desired, target with
    | DA_Anonymous, TA_Anonymous => expect H_Anonymous (fun h => match h with H_Anonymous => true | _ => false end)
    | DA_Anonymous, (TA_Local | TA_Krb5 _ | TA_Tls _) => (None, Err Refused)
    | (DA_Local | DA_Krb5 | DA_Tls), TA_Anonymous => (None, Err Refused)
    | (DA_Local | DA_Krb5 | DA_Tls), TA_Local => expect (H_Local uifo) (fun h => match h with H_Local _ => true | _ => false end)
    | DA_Local, (TA_Krb5 _ | TA_Tls _) => (None, Err Refused)
    | DA_Krb5, TA_Krb5 _ =>
        if rp_secure rp then expect (H_Krb5 uifo) (fun h => match h with H_Krb5 _ => true | _ => false end)
        else (Some (H_Krb5 uifo), Err Refused)
    | DA_Krb5, TA_Tls _ => (None, Err Refused)
    | DA_Tls, TA_Tls _ =>
        if rp_secure rp then expect (H_Tls uifo) (fun h => match h with H_Tls _ => true | _ => false end)
        else (Some (H_Tls uifo), Err Refused)
    | DA_Tls, TA_Krb5 _ => (None, Err Refused)
    end.

Section Connection.
Context {ES : Escaping} {LY : Layout} {VA : ValueApi} {CM : ChunkMap}.
Context (reg : Registry) (next_wid : WriteId).

(** ** The context of a connection *)

(** [Sub]; [cs_collects] says if [last] is there, it is then the one of the [Val]. *)
Record ConSub := MkConSub {
  cs_path : str;
  cs_sub_id : SubId;
  cs_streams : list (ChanId * Chan);
  cs_collects : bool;
  cs_val : ValRef
}.
(** [ConnectionCtx], with the counter of channel ids; [timed_out] is empty between turns. *)
Record ConnectionCtx := MkConnectionCtx {
  cx_addr : SocketAddr;
  cx_conid : ConId;
  pending : gmap str SubscribeValRequest;
  subscriptions : gmap Id ConSub;
  msg_recvd : bool;
  pending_flushes : list Waiter;
  pending_writes : gmap Id (gmap WriteId Waiter);
  by_receiver : gmap Chan ChanId;
  by_chan : gmap ChanId (Chan * list (SubId * Event));
  gc_chan : gset ChanId;
  blocked_channels : list (Chan * list (SubId * Event));
  next_chan_id : Z
}.
(** Field updates *)
Definition cx_cx_addr (f : SocketAddr → SocketAddr) (s : ConnectionCtx) : ConnectionCtx :=
  MkConnectionCtx (f (cx_addr s)) (cx_conid s) (pending s) (subscriptions s) (msg_recvd s) (pending_flushes s) (pending_writes s) (by_receiver s) (by_chan s) (gc_chan s) (blocked_channels s) (next_chan_id s).
Definition cx_cx_conid (f : ConId → ConId) (s : ConnectionCtx) : ConnectionCtx :=
  MkConnectionCtx (cx_addr s) (f (cx_conid s)) (pending s) (subscriptions s) (msg_recvd s) (pending_flushes s) (pending_writes s) (by_receiver s) (by_chan s) (gc_chan s) (blocked_channels s) (next_chan_id s).
Definition cx_pending (f : gmap str SubscribeValRequest → gmap str SubscribeValRequest) (s : ConnectionCtx) : ConnectionCtx :=
  MkConnectionCtx (cx_addr s) (cx_conid s) (f (pending s)) (subscriptions s) (msg_recvd s) (pending_flushes s) (pending_writes s) (by_receiver s) (by_chan s) (gc_chan s) (blocked_channels s) (next_chan_id s).
Definition cx_subscriptions (f : gmap Id ConSub → gmap Id ConSub) (s : ConnectionCtx) : ConnectionCtx :=
  MkConnectionCtx (cx_addr s) (cx_conid s) (pending s) (f (subscriptions s)) (msg_recvd s) (pending_flushes s) (pending_writes s) (by_receiver s) (by_chan s) (gc_chan s) (blocked_channels s) (next_chan_id s).
Definition cx_msg_recvd (f : bool → bool) (s : ConnectionCtx) : ConnectionCtx :=
  MkConnectionCtx (cx_addr s) (cx_conid s) (pending s) (subscriptions s) (f (msg_recvd s)) (pending_flushes s) (pending_writes s) (by_receiver s) (by_chan s) (gc_chan s) (blocked_channels s) (next_chan_id s).
Definition cx_pending_flushes (f : list Waiter → list Waiter) (s : ConnectionCtx) : ConnectionCtx :=
  MkConnectionCtx (cx_addr s) (cx_conid s) (pending s) (subscriptions s) (msg_recvd s) (f (pending_flushes s)) (pending_writes s) (by_receiver s) (by_chan s) (gc_chan s) (blocked_channels s) (next_chan_id s).
Definition cx_pending_writes (f : gmap Id (gmap WriteId Waiter) → gmap Id (gmap WriteId Waiter)) (s : ConnectionCtx) : ConnectionCtx :=
  MkConnectionCtx (cx_addr s) (cx_conid s) (pending s) (subscriptions s) (msg_recvd s) (pending_flushes s) (f (pending_writes s)) (by_receiver s) (by_chan s) (gc_chan s) (blocked_channels s) (next_chan_id s).
Definition cx_by_receiver (f : gmap Chan ChanId → gmap Chan ChanId) (s : ConnectionCtx) : ConnectionCtx :=
  MkConnectionCtx (cx_addr s) (cx_conid s) (pending s) (subscriptions s) (msg_recvd s) (pending_flushes s) (pending_writes s) (f (by_receiver s)) (by_chan s) (gc_chan s) (blocked_channels s) (next_chan_id s).
Definition cx_by_chan (f : gmap ChanId (Chan * list (SubId * Event)) → gmap ChanId (Chan * list (SubId * Event))) (s : ConnectionCtx) : ConnectionCtx :=
  MkConnectionCtx (cx_addr s) (cx_conid s) (pending s) (subscriptions s) (msg_recvd s) (pending_flushes s) (pending_writes s) (by_receiver s) (f (by_chan s)) (gc_chan s) (blocked_channels s) (next_chan_id s).
Definition cx_gc_chan (f : gset ChanId → gset ChanId) (s : ConnectionCtx) : ConnectionCtx :=
  MkConnectionCtx (cx_addr s) (cx_conid s) (pending s) (subscriptions s) (msg_recvd s) (pending_flushes s) (pending_writes s) (by_receiver s) (by_chan s) (f (gc_chan s)) (blocked_channels s) (next_chan_id s).
Definition cx_blocked_channels (f : list (Chan * list (SubId * Event)) → list (Chan * list (SubId * Event))) (s : ConnectionCtx) : ConnectionCtx :=
  MkConnectionCtx (cx_addr s) (cx_conid s) (pending s) (subscriptions s) (msg_recvd s) (pending_flushes s) (pending_writes s) (by_receiver s) (by_chan s) (gc_chan s) (f (blocked_channels s)) (next_chan_id s).
Definition cx_next_chan_id (f : Z → Z) (s : ConnectionCtx) : ConnectionCtx :=
  MkConnectionCtx (cx_addr s) (cx_conid s) (pending s) (subscriptions s) (msg_recvd s) (pending_flushes s) (pending_writes s) (by_receiver s) (by_chan s) (gc_chan s) (blocked_channels s) (f (next_chan_id s)).
Definition ConnectionCtx_new (addr : SocketAddr) (conid : ConId) : ConnectionCtx :=
  MkConnectionCtx addr conid ∅ ∅ false [] ∅ ∅ ∅ ∅ [] 0.

(** What a handler works on: the subscriber, the context, the messages put on the write
    channel, and its [stream_batch], updates for channels that were connected *)
Record CState := MkCState { cs_sub : Sub; cs_ctx : ConnectionCtx; cs_out : list To; cs_stream : list (Id * Value) }.
Definition c_sub (f : Sub → Sub) (c : CState) : CState := MkCState (f (cs_sub c)) (cs_ctx c) (cs_out c) (cs_stream c).
Definition c_ctx (f : ConnectionCtx → ConnectionCtx) (c : CState) : CState :=
  MkCState (cs_sub c) (f (cs_ctx c)) (cs_out c) (cs_stream c).
Definition c_stream (l : list (Id * Value)) (c : CState) : CState := MkCState (cs_sub c) (cs_ctx c) (cs_out c) l.

(** A handler that fails ends the connection but keeps what it did. *)
Definition chnd : Type := CState → res ConError unit * CState.
Definition cret : chnd := fun c => (Ok (), c).
Definition cupd (f : CState → CState) : chnd := fun c => (Ok (), f c).
Definition cseq (m k : chnd) : chnd := fun c =>
  match m c with
  | (Ok _, c) => k c
  | o => o
  end.
Fixpoint citer {A} (f : A → chnd) (l : list A) : chnd :=
  match l with [] => cret | x :: l => cseq (f x) (citer f l) end.

(** [write_con.queue_send(m)?] *)
Definition to_sendable (m : To) : bool :=
  negb (MAX_BATCH <? encoded_len (To_pack reg next_wid) m) &&
  match (encode (To_pack reg next_wid) m).2 with Ok _ => true | _ => false end.
Definition con_send (m : To) : chnd := fun c =>
  if to_sendable m then (Ok (), MkCState (cs_sub c) (cs_ctx c) (cs_out c ++ [m]) (cs_stream c)) else (Err MsgTooLarge, c).

Definition finish (w : Waiter) (r : SubResult) : CState → CState := c_sub (fun s => (oneshot_send w r s).2).

(** ** Heartbeats *)

Definition overdue (now : Instant) (r : SubscribeValRequest) : Prop :=
  match req_deadline r with Some d => d < now | None => False end.
#[export] Instance overdue_dec now r : Decision (overdue now r).
Proof. unfold overdue. destruct (req_deadline r); apply _. Defined.
Definition handle_heartbeat (now : Instant) : chnd := fun c =>
  if negb (msg_recvd (cs_ctx c)) then (Err HungPublisher, c)
  else
    let late := filter (fun kv : str * SubscribeValRequest => overdue now kv.2) (pending (cs_ctx c)) in
    let c := c_ctx (cx_msg_recvd (fun _ => false)) c in
    let c := c_ctx (cx_pending (fun m => m ∖ late)) c in
    (Ok (), foldl (fun c kv => finish (req_finished kv.2) (Failed ReqTimedOut) c) c (map_to_list late)).

(** ** Channels of the program *)

Definition is_closed_chan (tx : Chan) (s : Sub) : bool := bool_decide (tx ∈ closed_chans (mem s)).
Definition is_full_chan (tx : Chan) (s : Sub) : bool := bool_decide (tx ∈ full_chans (mem s)).
(** [by_chan.entry(id).or_insert_with(..).1.push(ev)] *)
Definition push_event (id : ChanId) (tx : Chan) (ev : SubId * Event) : ConnectionCtx → ConnectionCtx :=
  cx_by_chan (fun m => let '(tx, b) := default (tx, []) (m !! id) in <[id := (tx, b ++ [ev])]> m).
Definition push_events (sub : ConSub) (e : Event) (x : ConnectionCtx) : ConnectionCtx :=
  foldl (fun x '(id, tx) => push_event id tx (cs_sub_id sub, e) x) x (cs_streams sub).
(** [*last.lock() = e] *)
Definition set_sub_last (sub : ConSub) (e : Event) (s : Sub) : Sub :=
  if cs_collects sub then on_mem (mem_vals (alter (set_last e) (cs_val sub))) s else s.

Definition set_cs_streams (l : list (ChanId * Chan)) (x : ConSub) : ConSub :=
  MkConSub (cs_path x) (cs_sub_id x) l (cs_collects x) (cs_val x).
Definition set_collects (b : bool) (x : ConSub) : ConSub :=
  MkConSub (cs_path x) (cs_sub_id x) (cs_streams x) b (cs_val x).

Definition chan_id_for (tx : Chan) (x : ConnectionCtx) : ChanId * ConnectionCtx :=
  match by_receiver x !! tx with
  | Some i => (i, x)
  | None =>
      let '(i, next) := atomic_id_new (next_chan_id x) in
      (i, cx_by_receiver <[tx := i]> (cx_next_chan_id (fun _ => next) x))
  end.

Definition handle_connect_stream (id : Id) (tx : Chan) (flags : Z) (c : CState) : CState :=
  match subscriptions (cs_ctx c) !! id with
  | None => c
  | Some sub =>
      let already_have := bool_decide (tx ∈ (cs_streams sub).*2) in
      let gone := filter (fun ic : ChanId * Chan => is_closed_chan ic.2 (cs_sub c) = true) (cs_streams sub) in
      let c := c_ctx (fun x => foldl (fun x ic => cx_gc_chan (union {[ic.1]}) (cx_by_receiver (delete ic.2) x)) x gone) c in
      let c :=
        if flags_contains flags BEGIN_WITH_LAST && negb (already_have && flags_contains flags NO_SPURIOUS) then
          match (if cs_collects sub then val_last (cs_val sub) (cs_sub c) else None) with
          | Some (Ev_Update v) => c_stream (cs_stream c ++ [(id, v)]) c
          | _ => c
          end
        else c in
      let sub := if flags_contains flags STOP_COLLECTING_LAST then set_collects false sub else sub in
      if already_have then c_ctx (cx_subscriptions <[id := sub]>) c
      else
        c_ctx (fun x =>
          let '(i, x) := chan_id_for tx x in
          cx_subscriptions <[id := set_cs_streams (cs_streams sub ++ [(i, tx)]) sub]> x) c
  end.

(** [try_send] of what is queued for one channel *)
Definition send_chan (c : CState) (e : ChanId * (Chan * list (SubId * Event))) : CState :=
  let '(id, (tx, b)) := e in
  match b with
  | [] => c
  | _ =>
      let c := c_ctx (cx_by_chan <[id := (tx, [])]>) c in
      if is_closed_chan tx (cs_sub c) then
        c_ctx (fun x => cx_gc_chan (union {[id]}) (cx_by_receiver (delete tx) x)) c
      else if is_full_chan tx (cs_sub c) then c_ctx (cx_blocked_channels (fun l => l ++ [(tx, b)])) c
      else c_sub (on_mem (mem_chan_log (fun l => l ++ [(tx, b)]))) c
  end.
Definition send_updates (c : CState) : CState :=
  let c := foldl send_chan c (map_to_list (by_chan (cs_ctx c))) in
  c_ctx (fun x => cx_gc_chan (fun _ => ∅) (cx_by_chan (filter (fun kv => kv.1 ∉ gc_chan x)) x)) c.

(** An update of a subscription there is *)
Definition apply_update (id : Id) (sub : ConSub) (v : Value) (c : CState) : CState :=
  c_sub (set_sub_last sub (Ev_Update v)) (c_ctx (push_events sub (Ev_Update v)) c).
(** [process_updates_batch]; a message that is no update is [unreachable!]. *)
Definition fast_update (m : From) : chnd := fun c =>
  match m with
  | From_Update i v =>
      match subscriptions (cs_ctx c) !! i with
      | Some sub => (Ok (), apply_update i sub v c)
      | None => (Ok (), c)
      end
  | _ => (Panic, c)
  end.
Definition process_updates_batch (batch : list From) : chnd := cseq (citer fast_update batch) (cupd send_updates).
(** [if stream_batch.len() > 0 { process_updates_batch(stream_batch) } else { .. }] *)
Definition process_stream_batch (otherwise : CState → CState) : chnd := fun c =>
  match cs_stream c with
  | [] => (Ok (), otherwise c)
  | l => process_updates_batch ((fun '(id, v) => From_Update id v) <$> l) (c_stream [] c)
  end.

(** ** Requests of the program *)

Definition handle_to_con (m : ToCon) : chnd :=
  match m with
  | TC_Subscribe req => fun c =>
      let old := pending (cs_ctx c) !! req_path req in
      let c := c_ctx (cx_pending <[req_path req := req]>) c in
      let c := match old with Some r => c_sub (sender_drop (req_finished r)) c | None => c end in
      con_send (To_Subscribe (req_path req) (req_resolver req) (req_timestamp req) (req_permissions req) (req_token req)) c
  | TC_Unsubscribe id => con_send (To_Unsubscribe id)
  | TC_Stream id tx flags => cupd (handle_connect_stream id tx flags)
  | TC_Write id v wid tx =>
      cseq (con_send (To_Write id (match tx with Some _ => true | None => false end) v wid))
        (match tx with
         | Some w => cupd (c_ctx (cx_pending_writes (fun m => <[id := <[wid := w]> (default ∅ (m !! id))]> m)))
         | None => cret
         end)
  | TC_Flush w => cupd (c_ctx (cx_pending_flushes (fun l => l ++ [w])))
  end.
(** A message that is not handled is dropped with its senders. *)
Definition to_con_drop (m : ToCon) (s : Sub) : Sub :=
  match m with
  | TC_Subscribe r => sender_drop (req_finished r) s
  | TC_Flush w => wake_all [w] s
  | TC_Unsubscribe _ | TC_Stream _ _ _ | TC_Write _ _ _ _ => s
  end.
Fixpoint handle_to_cons (batch : list ToCon) : chnd := fun c =>
  match batch with
  | [] => (Ok (), c)
  | m :: batch =>
      match handle_to_con m c with
      | (Ok _, c) => handle_to_cons batch c
      | (o, c) => (o, c_sub (fun s => foldl (fun s m => to_con_drop m s) s batch) c)
      end
  end.
Definition handle_from_sub (batch : list ToCon) : chnd := fun c =>
  cseq (handle_to_cons batch) (process_stream_batch (fun c => c)) (c_stream [] c).

(** ** Messages of the publisher *)

(** [unsubscribe] *)
Definition unsubscribe_durable (now : Instant) (path : str) (s : Sub) : Sub :=
  let kill d s :=
    match dval_upgrade d s with
    | None => s
    | Some _ =>
        on_inner (upd_trigger_resub S)
          (on_inner (upd_durable_dead <[path := d]>) (dval_set d (Dv_Dead (MkDvDead [] [] 0 now)) s))
    end in
  match durable_alive (inner_ s) !! path with
  | Some d => kill d (on_inner (upd_durable_alive (delete path)) s)
  | None =>
      match durable_pending (inner_ s) !! path with
      | Some d => kill d (on_inner (upd_durable_pending (delete path)) s)
      | None => s
      end
  end.
Definition unsubscribe_status (path : str) (id : Id) (conid : ConId) (s : Sub) : Sub :=
  match statuses (inner_ s) !! path with
  | Some (SS_Subscribed v) =>
      match val_upgrade v s with
      | None => on_inner (upd_statuses (delete path)) s
      | Some x => if decide (v_id x = id ∧ v_conid x = conid) then on_inner (upd_statuses (delete path)) s else s
      end
  | _ => s
  end.
Definition con_unsubscribe (now : Instant) (sub : ConSub) (id : Id) (c : CState) : CState :=
  let c := c_ctx (push_events sub Ev_Unsubscribed) c in
  let c := c_sub (set_sub_last sub Ev_Unsubscribed) c in
  c_sub (fun s => unsubscribe_status (cs_path sub) id (cx_conid (cs_ctx c)) (unsubscribe_durable now (cs_path sub) s)) c.

Definition take_pending (p : str) (c : CState) : option SubscribeValRequest * CState :=
  (pending (cs_ctx c) !! p, c_ctx (cx_pending (delete p)) c).
Definition connect_all (id : Id) (streams : Streams) (c : CState) : CState :=
  foldl (fun c '(f, tx) => handle_connect_stream id tx (Z.lor f BEGIN_WITH_LAST) c) c streams.

(** A new subscription: the [Val] is made, held by the handler while it works. *)
Definition subscribed_new (req : SubscribeValRequest) (id : Id) (v : Value) : chnd := fun c =>
  let '(r, s) := new_ref (cs_sub c) in
  let s := on_mem (mem_vals <[r := MkValInner (req_sub_id req) id (cx_conid (cs_ctx c)) (Ev_Update v) 2]>) s in
  let '(sent, s) := oneshot_send (req_finished req) (Got r) s in
  let c := c_sub (fun _ => s) c in
  match (if sent then cupd (c_ctx (cx_subscriptions <[id := MkConSub (req_path req) (req_sub_id req) [] true r]>)) c
         else con_send (To_Unsubscribe id) c) with
  | (Ok _, c) => (Ok (), c_sub (val_drop r) (connect_all id (req_streams req) c))
  | (o, c) => (o, c_sub (val_drop r) c)
  end.

Definition handle_from (now : Instant) (m : From) : chnd :=
  match m with
  | From_Update i v => fun c =>
      match subscriptions (cs_ctx c) !! i with
      | Some sub => (Ok (), apply_update i sub v c)
      | None => con_send (To_Unsubscribe i) c
      end
  | From_Heartbeat => cret
  | From_WriteResult id v wid => cupd (fun c =>
      match pending_writes (cs_ctx c) !! id with
      | None => c
      | Some tbl =>
          let c := match tbl !! wid with Some w => c_sub (on_mem (mem_replies (fun l => l ++ [(w, v)]))) c | None => c end in
          let tbl := delete wid tbl in
          c_ctx (cx_pending_writes (fun m => if bool_decide (tbl = ∅) then delete id m else <[id := tbl]> m)) c
      end)
  | From_NoSuchValue p => cupd (fun c =>
      let '(r, c) := take_pending p c in
      match r with Some r => finish (req_finished r) (Failed NoSuchValue) c | None => c end)
  | From_Denied p => cupd (fun c =>
      let '(r, c) := take_pending p c in
      match r with Some r => finish (req_finished r) (Failed PermissionDenied) c | None => c end)
  | From_Unsubscribed id => cupd (fun c =>
      match subscriptions (cs_ctx c) !! id with
      | Some sub => con_unsubscribe now sub id (c_ctx (cx_subscriptions (delete id)) c)
      | None => c
      end)
  | From_Subscribed p id v => fun c =>
      let '(r, c) := take_pending p c in
      match r with
      | None => con_send (To_Unsubscribe id) c
      | Some req =>
          match subscriptions (cs_ctx c) !! id with
          | Some sub =>
              match val_upgrade (cs_val sub) (cs_sub c) with
              | Some _ =>
                  let c := c_sub (val_clone (cs_val sub)) c in
                  (Ok (), finish (req_finished req) (Got (cs_val sub)) (connect_all id (req_streams req) c))
              | None => (Ok (), finish (req_finished req) (Failed AliasDropped) c)
              end
          | None => subscribed_new req id v c
          end
      end
  end.
Definition process_batch (now : Instant) (batch : list From) : chnd := fun c =>
  cseq (citer (handle_from now) batch) (process_stream_batch send_updates) (c_stream [] c).

(** ** The loop *)

(** [maybe_disconnect_idle]: false if the connection has nothing to do; it is then no
    longer in the table. *)
Definition idle (c : CState) : bool :=
  bool_decide (subscriptions (cs_ctx c) = ∅) && bool_decide (pending (cs_ctx c) = ∅) &&
  bool_decide (length (blocked_channels (cs_ctx c)) = 0%nat) &&
  bool_decide (length (default [] (queue (cx_conid (cs_ctx c)) (cs_sub c))) = 0%nat).
Definition maybe_disconnect_idle (c : CState) : bool * CState :=
  if idle c then (false, c_sub (on_inner (remove_connection (cx_addr (cs_ctx c)) (cx_conid (cs_ctx c)))) c) else (true, c).

Definition only_updates (batch : list From) : bool :=
  forallb (fun m => match m with From_Update _ _ => true | _ => false end) batch.

(** What is ready: requests of the program, the write channel was flushed or failed, the
    timer, a full channel takes what waits for it, a batch of the publisher (only read
    when nothing is blocked), or its end. *)
Inductive CReady := CRFromSub | CRFlushed (ok : bool) | CRTick (now : Instant) | CRUnblocked (i : nat)
| CRBatch (now : Instant) (batch : list From) | CRClosed (e : ConError).

(** A turn: what was sent to the publisher, and whether the connection goes on *)
Definition con_turn (r : CReady) (c : CState) : list To * res ConError bool * CState :=
  let keep (o : res ConError unit * CState) :=
    match o with
    | (Ok _, c) => ([], Ok true, c)
    | (Err e, c) => ([], Err e, c)
    | (Panic, c) => ([], Panic, c)
    end in
  let check (o : res ConError unit * CState) :=
    match o with
    | (Ok _, c) => let '(b, c) := maybe_disconnect_idle c in ([], Ok b, c)
    | (Err e, c) => ([], Err e, c)
    | (Panic, c) => ([], Panic, c)
    end in
  match r with
  | CRFromSub =>
      match queue (cx_conid (cs_ctx c)) (cs_sub c) with
      | Some ((_ :: _) as batch) =>
          keep (handle_from_sub batch (c_sub (on_mem (mem_queues <[cx_conid (cs_ctx c) := []]>)) c))
      | _ => ([], Ok true, c)
      end
  | CRFlushed true =>
      let c' := c_sub (wake_all (pending_flushes (cs_ctx c))) (c_ctx (cx_pending_flushes (fun _ => [])) c) in
      (cs_out c, Ok true, MkCState (cs_sub c') (cs_ctx c') [] (cs_stream c'))
  | CRFlushed false => ([], Err ReadFailed, c)
  | CRTick now => check (handle_heartbeat now c)
  | CRUnblocked i =>
      match blocked_channels (cs_ctx c) !! i with
      | None => ([], Ok true, c)
      | Some (tx, b) =>
          let c := c_ctx (cx_blocked_channels (fun l => take i l ++ drop (S i) l)) c in
          let c := if is_closed_chan tx (cs_sub c) then c else c_sub (on_mem (mem_chan_log (fun l => l ++ [(tx, b)]))) c in
          ([], Ok true, c)
      end
  | CRBatch now batch =>
      match blocked_channels (cs_ctx c) with
      | [] =>
          let c := c_ctx (cx_msg_recvd (fun _ => true)) c in
          if only_updates batch then keep (process_updates_batch batch c) else check (process_batch now batch c)
      | _ => ([], Ok true, c)
      end
  | CRClosed e => ([], Err e, c)
  end.

(** ** The end of the task *)

(** Dropping the receiver of the requests, and the context *)
Definition close_queue (conid : ConId) (s : Sub) : Sub :=
  let q := default [] (queue conid s) in
  foldl (fun s m => to_con_drop m s) (on_mem (mem_queues (delete conid)) s) q.

(** [start] after [run]: everything is unsubscribed, the pending requests fail, and the
    context is dropped. *)
Definition con_finish (now : Instant) (c : CState) : Sub :=
  let batch := (fun kv : Id * ConSub => From_Unsubscribed kv.1) <$> map_to_list (subscriptions (cs_ctx c)) in
  let '(o, c) := process_batch now batch c in
  let fail r s := match o with Ok _ => (oneshot_send (req_finished r) (Failed ConnectionDied) s).2 | _ => sender_drop (req_finished r) s end in
  let s := foldl (fun s kv => fail kv.2 s) (cs_sub c) (map_to_list (pending (cs_ctx c))) in
  close_queue (cx_conid (cs_ctx c)) (wake_all (pending_flushes (cs_ctx c)) s).
(** The end of the task that [start_connection] spawned *)
Definition con_cleanup (now : Instant) (addr : SocketAddr) (conid : ConId) (failed : bool) (s : Sub) : Sub :=
  let s := on_inner (remove_connection addr conid) s in
  if failed then on_inner (upd_recently_failed <[addr := now]>) s else s.
End Connection.
