(* ===== verification/SubSystem.v ===== *)
(** The subscriber as a whole: the program's calls, the subscription attempts under way,
    the task that resubscribes and the connections, as a machine that takes one input at
    a time. An input that cannot happen in a state leaves it alone. The resolver's
    answers, what publishers send and when time passes are inputs. *)
From Stdlib Require Import ZArith Lia.
From stdpp Require Import base gmap list strings sorting.
From Stdlib Require Import Strings.Byte.
From S2P Require Import Prelude Varint Pack Containers PackTypes Path PathFacts Order Glob Derive Proto.
From S2P Require Import Store Permissions Channel Float Value ValuePack PubProto Publisher PubServer SubChoose Subscriber SubConn.

Section System.
Context {ES : Escaping} {LY : Layout} {VA : ValueApi} {CM : ChunkMap} {R : Rand} {O : SubOrder}.
Context (reg : Registry) (next_wid : WriteId) (interfaces : list Interface) (desired : DesiredAuth).

(** A call of [subscribe_nondurable_internal]: when it started, its timeout, its paths,
    if it still waits for the resolver, and if it is the resubscription task's. *)
Record Call := MkCall {
  cl_start : Instant; cl_timeout : option Z; cl_paths : gmap str St; cl_resolving : bool; cl_resub : bool }.

(** [resub_busy] is the call whose resolution the resubscription task waits for,
    [collected] its [subscription_batch]; [running] are the connections with the messages
    on their write channels, [got] what they read, [ended] those whose task is about to
    end; [held] and [held_dvals] are the references of the program, [results] the results it
    was given. *)
Record SubSys := MkSubSys {
  ss : Sub;
  calls : gmap Z Call;
  next_call : Z;
  resub_busy : option Z;
  collected : list (str * SubResult);
  retry : option Instant;
  running : gmap ConId (ConnectionCtx * list To);
  sent_to : gmap ConId (list To);
  got : gmap ConId (list From);
  ended : gmap ConId (SocketAddr * bool);
  held : list ValRef;
  held_dvals : list DvRef;
  results : list (Z * str * SubResult);
  crashed : bool
}.
Definition sub_sys_new : SubSys := MkSubSys Subscriber_new ∅ 0 None [] None ∅ ∅ ∅ ∅ [] [] [] false.

(** Field updates *)
Definition sy_ss (f : Sub → Sub) (s : SubSys) : SubSys :=
  MkSubSys (f (ss s)) (calls s) (next_call s) (resub_busy s) (collected s) (retry s) (running s) (sent_to s) (got s) (ended s) (held s) (held_dvals s) (results s) (crashed s).
Definition sy_calls (f : gmap Z Call → gmap Z Call) (s : SubSys) : SubSys :=
  MkSubSys (ss s) (f (calls s)) (next_call s) (resub_busy s) (collected s) (retry s) (running s) (sent_to s) (got s) (ended s) (held s) (held_dvals s) (results s) (crashed s).
Definition sy_next_call (f : Z → Z) (s : SubSys) : SubSys :=
  MkSubSys (ss s) (calls s) (f (next_call s)) (resub_busy s) (collected s) (retry s) (running s) (sent_to s) (got s) (ended s) (held s) (held_dvals s) (results s) (crashed s).
Definition sy_resub_busy (f : option Z → option Z) (s : SubSys) : SubSys :=
  MkSubSys (ss s) (calls s) (next_call s) (f (resub_busy s)) (collected s) (retry s) (running s) (sent_to s) (got s) (ended s) (held s) (held_dvals s) (results s) (crashed s).
Definition sy_collected (f : list (str * SubResult) → list (str * SubResult)) (s : SubSys) : SubSys :=
  MkSubSys (ss s) (calls s) (next_call s) (resub_busy s) (f (collected s)) (retry s) (running s) (sent_to s) (got s) (ended s) (held s) (held_dvals s) (results s) (crashed s).
Definition sy_retry (f : option Instant → option Instant) (s : SubSys) : SubSys :=
  MkSubSys (ss s) (calls s) (next_call s) (resub_busy s) (collected s) (f (retry s)) (running s) (sent_to s) (got s) (ended s) (held s) (held_dvals s) (results s) (crashed s).
Definition sy_running (f : gmap ConId (ConnectionCtx * list To) → gmap ConId (ConnectionCtx * list To)) (s : SubSys) : SubSys :=
  MkSubSys (ss s) (calls s) (next_call s) (resub_busy s) (collected s) (retry s) (f (running s)) (sent_to s) (got s) (ended s) (held s) (held_dvals s) (results s) (crashed s).
Definition sy_sent_to (f : gmap ConId (list To) → gmap ConId (list To)) (s : SubSys) : SubSys :=
  MkSubSys (ss s) (calls s) (next_call s) (resub_busy s) (collected s) (retry s) (running s) (f (sent_to s)) (got s) (ended s) (held s) (held_dvals s) (results s) (crashed s).
Definition sy_got (f : gmap ConId (list From) → gmap ConId (list From)) (s : SubSys) : SubSys :=
  MkSubSys (ss s) (calls s) (next_call s) (resub_busy s) (collected s) (retry s) (running s) (sent_to s) (f (got s)) (ended s) (held s) (held_dvals s) (results s) (crashed s).
Definition sy_ended (f : gmap ConId (SocketAddr * bool) → gmap ConId (SocketAddr * bool)) (s : SubSys) : SubSys :=
  MkSubSys (ss s) (calls s) (next_call s) (resub_busy s) (collected s) (retry s) (running s) (sent_to s) (got s) (f (ended s)) (held s) (held_dvals s) (results s) (crashed s).
Definition sy_held (f : list ValRef → list ValRef) (s : SubSys) : SubSys :=
  MkSubSys (ss s) (calls s) (next_call s) (resub_busy s) (collected s) (retry s) (running s) (sent_to s) (got s) (ended s) (f (held s)) (held_dvals s) (results s) (crashed s).
Definition sy_held_dvals (f : list DvRef → list DvRef) (s : SubSys) : SubSys :=
  MkSubSys (ss s) (calls s) (next_call s) (resub_busy s) (collected s) (retry s) (running s) (sent_to s) (got s) (ended s) (held s) (f (held_dvals s)) (results s) (crashed s).
Definition sy_results (f : list (Z * str * SubResult) → list (Z * str * SubResult)) (s : SubSys) : SubSys :=
  MkSubSys (ss s) (calls s) (next_call s) (resub_busy s) (collected s) (retry s) (running s) (sent_to s) (got s) (ended s) (held s) (held_dvals s) (f (results s)) (crashed s).
Definition sy_crashed (f : bool → bool) (s : SubSys) : SubSys :=
  MkSubSys (ss s) (calls s) (next_call s) (resub_busy s) (collected s) (retry s) (running s) (sent_to s) (got s) (ended s) (held s) (held_dvals s) (results s) (f (crashed s)).
Definition crash (y : SubSys) : SubSys := sy_crashed (fun _ => true) y.

(** ** The program *)

(** What the program does through [Subscriber], [Val] and [Dval], and what happens to its
    channels *)
Inductive SubOp :=
| OSubscribe (now : Instant) (path : str) (updates : Streams)
| ODvalUpdates (d : DvRef) (flags : Z) (tx : Chan)
| OWaitSubscribed (d : DvRef)
| ODvalWrite (d : DvRef) (x : Value)
| ODvalWriteReceipt (d : DvRef) (x : Value)
| OClearWrites (d : DvRef)
| ODvalClone (d : DvRef)
| ODvalDrop (d : DvRef)
| OValUpdates (v : ValRef) (flags : Z) (tx : Chan)
| OValWrite (v : ValRef) (x : Value)
| OValWriteReceipt (v : ValRef) (x : Value)
| OValFlush (v : ValRef)
| OValClone (v : ValRef)
| OValDrop (v : ValRef)
| OFlush
| OCloseChan (tx : Chan)
| OSetFull (tx : Chan) (full : bool).

(** One reference fewer *)
Fixpoint release (x : Z) (l : list Z) : list Z :=
  match l with [] => [] | y :: l => if x =? y then l else y :: release x l end.
(** The program only uses the references it has. *)
Definition op_allowed (op : SubOp) (y : SubSys) : bool :=
  match op with
  | ODvalUpdates d _ _ | OWaitSubscribed d | ODvalWrite d _ | ODvalWriteReceipt d _ | OClearWrites d
  | ODvalClone d | ODvalDrop d => bool_decide (d ∈ held_dvals y)
  | OValUpdates v _ _ | OValWrite v _ | OValWriteReceipt v _ | OValFlush v | OValClone v | OValDrop v => bool_decide (v ∈ held y)
  | OSubscribe _ _ _ | OFlush | OCloseChan _ | OSetFull _ _ => true
  end.
Definition sub_op (op : SubOp) (s : Sub) : Sub :=
  match op with
  | OSubscribe now path updates => (subscribe_internal now path updates s).2
  | ODvalUpdates d flags tx => dval_updates d flags tx s
  | OWaitSubscribed d => (wait_subscribed d s).2
  | ODvalWrite d x => (dval_write d x None s).2
  | ODvalWriteReceipt d x => (dval_write_with_recipt d x s).2
  | OClearWrites d => clear_queued_writes d s
  | ODvalClone d => dval_clone d s
  | ODvalDrop d => dval_drop d s
  | OValUpdates v flags tx => val_updates v flags tx s
  | OValWrite v x => val_write v x None s
  | OValWriteReceipt v x => (val_write_with_recipt v x s).2
  | OValFlush v => (val_flush v s).2
  | OValClone v => val_clone v s
  | OValDrop v => val_drop v s
  | OFlush => (flush s).2
  | OCloseChan tx => on_mem (mem_closed_chans (union {[tx]})) s
  | OSetFull tx full => on_mem (mem_full_chans (fun t => if full then {[tx]} ∪ t else t ∖ {[tx]})) s
  end.
(** The references after an operation *)
Definition op_held (op : SubOp) (y : SubSys) : SubSys :=
  match op with
  | OSubscribe now path updates => sy_held_dvals (cons (subscribe_internal now path updates (ss y)).1) y
  | ODvalClone d => sy_held_dvals (cons d) y
  | ODvalDrop d => sy_held_dvals (release d) y
  | OValClone v => sy_held (cons v) y
  | OValDrop v => sy_held (release v) y
  | _ => y
  end.
Definition app_step (op : SubOp) (y : SubSys) : SubSys :=
  if op_allowed op y then sy_ss (sub_op op) (op_held op y) else y.

(** ** Attempts *)

Definition start_call (now : Instant) (timeout : option Z) (resub : bool) (batch : list (str * Streams)) (y : SubSys) : Z * SubSys :=
  let '(paths, s) := subscribe_init now batch (ss y) in
  let id := next_call y in
  (id, sy_ss (fun _ => s) (sy_next_call Z.succ (sy_calls <[id := MkCall now timeout paths true resub]> y))).
(** The answer has one entry for each path that was asked for. *)
Definition reply_fits (c : Call) (reply : ResolveReply) : bool :=
  match reply with
  | RR_TimedOut => match cl_timeout c with Some _ => true | None => false end
  | RR_Failed => true
  | RR_Ok _ l => bool_decide (NoDup l.*1) && bool_decide (list_to_set l.*1 =@{gset str} dom (to_resolve (cl_paths c)))
  end.
Definition call_resolved (id : Z) (seed : Z) (reply : ResolveReply) (y : SubSys) : SubSys :=
  match calls y !! id with
  | Some c =>
      if cl_resolving c && reply_fits c reply then
        match subscribe_resolved interfaces (cl_start c) (cl_timeout c) seed reply (cl_paths c) (ss y) with
        | (Ok paths, s) =>
            let y := sy_ss (fun _ => s) (sy_calls <[id := MkCall (cl_start c) (cl_timeout c) paths false (cl_resub c)]> y) in
            sy_resub_busy (fun b => if decide (b = Some id) then None else b) y
        | (_, s) => crash (sy_ss (fun _ => s) y)
        end
      else y
  | None => y
  end.
Definition set_paths (paths : gmap str St) (c : Call) : Call :=
  MkCall (cl_start c) (cl_timeout c) paths (cl_resolving c) (cl_resub c).
(** The resubscription task does one thing at a time. *)
Definition resub_free (y : SubSys) : bool := match resub_busy y with None => true | Some _ => false end.
(** One future of a call is polled, those of the resubscription task by itself. *)
Definition call_poll (id : Z) (path : str) (y : SubSys) : SubSys :=
  match calls y !! id with
  | Some c =>
      if cl_resolving c || cl_resub c && negb (resub_free y) then y
      else
        match cl_paths c !! path with
        | None => y
        | Some st =>
            match wait_result path st (ss y) with
            | None => y
            | Some (Ok r, s) =>
                let y := sy_ss (fun _ => s) (sy_calls <[id := set_paths (delete path (cl_paths c)) c]> y) in
                if cl_resub c then sy_collected (fun l => l ++ [(path, r)]) y
                else sy_held (fun l => match r with Got v => v :: l | Failed _ => l end) (sy_results (fun l => l ++ [(id, path, r)]) y)
            | Some (_, s) => crash (sy_ss (fun _ => s) y)
            end
        end
  | None => y
  end.
(** The program drops a call, such as when a timeout around it expires. *)
Definition call_drop (id : Z) (y : SubSys) : SubSys :=
  match calls y !! id with
  | Some c =>
      if cl_resub c then y
      else sy_ss (fun s => foldl (fun s kv => st_drop kv.2 s) s (map_to_list (cl_paths c))) (sy_calls (delete id) y)
  | None => y
  end.

(** ** The resubscription task *)

Definition do_resub (now : Instant) (y : SubSys) : SubSys :=
  match resub_take now (ss y) with
  | (Ok (batch, timeout), s) =>
      let y := sy_ss (fun _ => s) y in
      match update_retry now s with
      | Ok t =>
          let y := sy_retry (fun _ => t) y in
          match batch with
          | [] => y
          | _ => let '(id, y) := start_call now (Some timeout) true batch y in sy_resub_busy (fun _ => Some id) y
          end
      | _ => crash y
      end
  | (_, s) => crash (sy_ss (fun _ => s) y)
  end.
Definition retry_due (now : Instant) (y : SubSys) : bool :=
  match retry y with Some t => t <=? now | None => false end.
(** The end of a batch of results *)
Definition finish_batch (now : Instant) (seed : Z) (y : SubSys) : SubSys :=
  match finish_resubscription_batch now seed (collected y) (ss y) with
  | (Ok t, s) =>
      let y := sy_retry (fun _ => t) (sy_collected (fun _ => []) (sy_ss (fun _ => s) y)) in
      if retry_due now y then do_resub now y else y
  | (_, s) => crash (sy_ss (fun _ => s) y)
  end.

(** ** Connections *)

(** A connection task connects and greets, or fails. *)
Definition con_start (conid : ConId) (now : Instant) (rp : option PubReply) (y : SubSys) : SubSys :=
  match spawned (mem (ss y)) !! conid with
  | None => y
  | Some (addr, target, uifo) =>
      let y := sy_ss (on_mem (mem_spawned (delete conid))) y in
      match from_option (fun rp => (hello_publisher desired target uifo rp).2) (Err Eof) rp with
      | Ok _ => sy_running <[conid := (ConnectionCtx_new addr conid, [])]> y
      | _ => sy_ended <[conid := (addr, true)]> (sy_ss (close_queue conid) y)
      end
  end.
Definition con_step (conid : ConId) (now : Instant) (r : CReady) (y : SubSys) : SubSys :=
  match running y !! conid with
  | None => y
  | Some (x, q) =>
      let y := match r, blocked_channels x with
        | CRBatch _ batch, [] => sy_got (fun m => <[conid := default [] (m !! conid) ++ batch]> m) y
        | _, _ => y
        end in
      let '(fl, o, c) := con_turn reg next_wid r (MkCState (ss y) x q []) in
      let y := sy_sent_to (fun m => <[conid := default [] (m !! conid) ++ fl]> m) y in
      match o with
      | Ok true => sy_ss (fun _ => cs_sub c) (sy_running <[conid := (cs_ctx c, cs_out c)]> y)
      | Panic => crash (sy_ss (fun _ => cs_sub c) y)
      | _ =>
          sy_ss (fun _ => con_finish reg next_wid now c)
            (sy_ended <[conid := (cx_addr (cs_ctx c), match o with Ok _ => false | _ => true end)]> (sy_running (delete conid) y))
      end
  end.
Definition con_gone (conid : ConId) (now : Instant) (y : SubSys) : SubSys :=
  match ended y !! conid with
  | None => y
  | Some (addr, failed) => sy_ss (con_cleanup now addr conid failed) (sy_ended (delete conid) y)
  end.

(** ** The machine *)

Inductive SubInput :=
| SApp (op : SubOp)
| SCall (now : Instant) (timeout : option Z) (batch : list (str * Streams))
| SResolved (id seed : Z) (reply : ResolveReply)
| SPoll (id : Z) (path : str)
| SDropCall (id : Z)
| STrigger (now : Instant)
| SRetry (now : Instant)
| SFinish (now seed : Z)
| SConStart (conid : ConId) (now : Instant) (rp : option PubReply)
| STurn (conid : ConId) (now : Instant) (r : CReady)
| SGone (conid : ConId) (now : Instant).

Definition sub_step (y : SubSys) (i : SubInput) : SubSys :=
  match i with
  | SApp op => app_step op y
  | SCall now timeout batch => (start_call now timeout false batch y).2
  | SResolved id seed reply => call_resolved id seed reply y
  | SPoll id path => call_poll id path y
  | SDropCall id => call_drop id y
  | STrigger now =>
      if resub_free y && (0 <? trigger_resub (inner_ (ss y)))%nat
      then do_resub now (sy_ss (on_inner (upd_trigger_resub (fun _ => 0%nat))) y) else y
  | SRetry now => if resub_free y && retry_due now y then do_resub now y else y
  | SFinish now seed =>
      if resub_free y then match collected y with [] => y | _ => finish_batch now seed y end else y
  | SConStart conid now rp => con_start conid now rp y
  | STurn conid now r => con_step conid now r y
  | SGone conid now => con_gone conid now y
  end.
Definition sub_run (y : SubSys) (l : list SubInput) : SubSys := foldl sub_step y l.
End System.
