(* ===== verification/SubFacts.v ===== *)
(** What the operations of the subscriber leave alone. The frame of a state is what its
    invariants are about: the tables of durable subscriptions and the kind of their
    states, the statuses of paths, and the values without their counts. *)
From Stdlib Require Import ZArith Lia.
From stdpp Require Import base gmap list strings sorting.
From Stdlib Require Import Strings.Byte.
From S2P Require Import Prelude Varint Pack Containers PackTypes Path PathFacts Order Glob Derive Proto.
From S2P Require Import Store Permissions Channel Float Value ValuePack PubProto Publisher PubServer SubChoose Subscriber SubConn.

Create HintDb sub.
(** No one-shot channel is touched. *)
Ltac same_shots := split; [cbn; lia|by intros w _].

Section Facts.
Context {VA : ValueApi}.

(** Whether a durable subscription is referenced, and when it is tried again if it is not
    subscribed *)
Definition dnext (st : DvState) : option Instant := match st with Dv_Subscribed _ => None | Dv_Dead dd => Some (next_try dd) end.
Definition dkind (x : DvalInner) : bool * option Instant := ((0 <? d_strong x)%nat, dnext (d_sub x)).
(** A value without its count *)
Definition vcore (x : ValInner) : SubId * Id * ConId * Event := (v_sub_id x, v_id x, v_conid x, v_last x).

Record Frame := MkFrame {
  f_dead : gmap str DvRef;
  f_pending : gmap str DvRef;
  f_alive : gmap str DvRef;
  f_kinds : gmap DvRef (bool * option Instant);
  f_statuses : gmap str SubStatus;
  f_vals : gmap ValRef (SubId * Id * ConId * Event)
}.
Definition frame (s : Sub) : Frame :=
  MkFrame (durable_dead (inner_ s)) (durable_pending (inner_ s)) (durable_alive (inner_ s))
    (dkind <$> dvals (mem s)) (statuses (inner_ s)) (vcore <$> vals (mem s)).

(** [s'] has the frame of [s]; references may have been made, the resubscription task may
    have been triggered. *)
Definition triggers_of (s : Sub) : nat := trigger_resub (inner_ s).
(** One-shot channels are made with new names; one that is no longer open never is again. *)
Definition shots (m m' : Mem) : Prop := next_waiter_id m ≤ next_waiter_id m' ∧
  ∀ w, w < next_waiter_id m → oneshots m' !! w = Some OOpen → oneshots m !! w = Some OOpen.
#[export] Instance shots_preorder : PreOrder shots.
Proof. split; [by split|]. intros m1 m2 m3 [L1 H1] [L2 H2]. split; [lia|]. intros w Hw H. apply H1, H2; [done|lia|done]. Qed.
Definition grows (s s' : Sub) : Prop :=
  next_ref (mem s) ≤ next_ref (mem s') ∧ (triggers_of s ≤ triggers_of s')%nat ∧ shots (mem s) (mem s').
Definition quiet (s s' : Sub) : Prop := frame s' = frame s ∧ grows s s'.
#[export] Instance grows_preorder : PreOrder grows.
Proof. split; [by intros s|]. intros s1 s2 s3 (? & ? & ?) (? & ? & ?). split_and!; [lia..|by etrans]. Qed.
#[export] Instance quiet_preorder : PreOrder quiet.
Proof.
  split; [by intros s; split|]. intros s1 s2 s3 [E1 L1] [E2 L2]. split; [by rewrite E2|by etrans].
Qed.
Lemma sub_quiet_refl s : quiet s s.
Proof. reflexivity. Qed.
Lemma quiet_trans s1 s2 s3 : quiet s1 s2 → quiet s2 s3 → quiet s1 s3.
Proof. by etrans. Qed.
Lemma quiet_foldl {A} (f : Sub → A → Sub) l s : (∀ s x, quiet s (f s x)) → quiet s (foldl f s l).
Proof. intros H. revert s. induction l as [|x l IH]; intros s; [reflexivity|]. cbn. etrans; [apply H|apply IH]. Qed.

Lemma fmap_insert_same {A B} (f : A → B) (m : gmap Z A) i x y : m !! i = Some x → f y = f x → f <$> <[i := y]> m = f <$> m.
Proof.
  intros Hi Hf. apply map_eq. intros j. rewrite !lookup_fmap. destruct (decide (i = j)) as [<-|Hne].
  - by rewrite lookup_insert_eq, Hi; cbn; rewrite Hf.
  - by rewrite lookup_insert_ne.
Qed.
Lemma fmap_alter_same {A B} (f : A → B) (g : A → A) (m : gmap Z A) i : (∀ x, f (g x) = f x) → f <$> alter g i m = f <$> m.
Proof.
  intros Hf. apply map_eq. intros j. rewrite !lookup_fmap. destruct (decide (i = j)) as [<-|Hne].
  - rewrite lookup_alter_eq. destruct (m !! i); cbn; [by rewrite Hf|done].
  - by rewrite lookup_alter_ne.
Qed.

(** ** The memory *)

Lemma quiet_mem s f : frame (on_mem f s) = frame s → next_ref (mem s) ≤ next_ref (f (mem s)) → shots (mem s) (f (mem s)) → quiet s (on_mem f s).
Proof. intros H L. by split. Qed.
Ltac quiet_field := apply quiet_mem; [reflexivity|cbn; lia|same_shots].

Lemma quiet_send con m s : quiet s (send_ con m s).
Proof. unfold send_, send. destruct (queue con s); [quiet_field|reflexivity]. Qed.
Lemma quiet_send_pair con m s : quiet s (send con m s).2.
Proof. apply quiet_send. Qed.
Lemma quiet_val_clone v s : quiet s (val_clone v s).
Proof.
  apply quiet_mem; [|cbn; lia|same_shots]. unfold frame. cbn. f_equal. by apply fmap_alter_same.
Qed.
Lemma val_upgrade_some v s x : val_upgrade v s = Some x → vals (mem s) !! v = Some x ∧ (0 < v_strong x)%nat.
Proof.
  unfold val_upgrade. destruct (vals (mem s) !! v) as [y|]; cbn; [|done]. case_match; [|done].
  intros [= ->]. split; [done|]. by apply Nat.ltb_lt.
Qed.
Lemma dval_upgrade_some d s x : dval_upgrade d s = Some x → dvals (mem s) !! d = Some x ∧ (0 < d_strong x)%nat.
Proof.
  unfold dval_upgrade. destruct (dvals (mem s) !! d) as [y|]; cbn; [|done]. case_match; [|done].
  intros [= ->]. split; [done|]. by apply Nat.ltb_lt.
Qed.
Lemma dval_upgrade_none d s : dval_upgrade d s = None → ∀ x, dvals (mem s) !! d = Some x → d_strong x = 0%nat.
Proof. unfold dval_upgrade. intros H x Hx. rewrite Hx in H. cbn in H. by destruct (d_strong x). Qed.
Lemma quiet_val_drop v s : quiet s (val_drop v s).
Proof.
  unfold val_drop. destruct (val_upgrade v s) as [x|] eqn:Hx; [|reflexivity]. apply val_upgrade_some in Hx as [Hx _].
  assert (H : quiet s (on_mem (mem_vals <[v := set_strong (pred (v_strong x)) x]>) s)).
  { apply quiet_mem; [|cbn; lia|same_shots]. unfold frame. cbn. f_equal. by eapply fmap_insert_same. }
  case_match; [|done]. etrans; [done|apply quiet_send].
Qed.
Lemma quiet_wake ws s : quiet s (wake_all ws s).
Proof. quiet_field. Qed.
Lemma quiet_state_drop st s : quiet s (state_drop st s).
Proof. destruct st; [apply quiet_val_drop|apply quiet_wake]. Qed.
Lemma quiet_dval_clone d s : quiet s (dval_clone d s).
Proof.
  apply quiet_mem; [|cbn; lia|same_shots]. unfold frame. cbn. f_equal. apply fmap_alter_same. intros x. unfold dkind. cbn. by destruct (d_strong x).
Qed.
(** Setting a state of the same kind *)
Lemma quiet_dval_upd d f s : (∀ x, dkind (f x) = dkind x) → quiet s (dval_upd d f s).
Proof. intros H. apply quiet_mem; [|cbn; lia|same_shots]. unfold frame. cbn. f_equal. by apply fmap_alter_same. Qed.
Lemma dkind_upd_dead f x : (∀ dd, next_try (f dd) = next_try dd) → dkind (upd_dead f x) = dkind x.
Proof. intros H. unfold upd_dead, dkind. destruct (d_sub x) eqn:E; cbn; rewrite ?E; [done|]. cbn. by rewrite H. Qed.
Lemma dkind_streams l x : dkind (set_d_streams l x) = dkind x.
Proof. done. Qed.
Lemma quiet_res_drop r s : quiet s (res_drop r s).
Proof. destruct r; [apply quiet_val_drop|reflexivity]. Qed.
Lemma quiet_oneshot s : quiet s (oneshot s).2.
Proof.
  apply (quiet_mem s (fun m => mem_next_waiter_id Z.succ (mem_oneshots <[next_waiter_id m := OOpen]> m))); [done|done|].
  split; [cbn; lia|]. intros w Hw. cbn. by rewrite lookup_insert_ne by lia.
Qed.
Lemma shots_insert w o m : o ≠ OOpen → shots m (mem_oneshots <[w := o]> m).
Proof.
  intros Ho. split; [done|]. intros w' _. cbn. destruct (decide (w = w')) as [<-|Hne]; [rewrite lookup_insert_eq; congruence|by rewrite lookup_insert_ne].
Qed.
Lemma shots_delete w m : shots m (mem_oneshots (delete w) m).
Proof. split; [done|]. intros w' _. cbn. by intros [_ H]%lookup_delete_Some. Qed.
Lemma quiet_oneshot_send w r s : quiet s (oneshot_send w r s).2.
Proof.
  unfold oneshot_send. destruct (oneshots (mem s) !! w) as [[| |]|]; try apply quiet_res_drop. apply quiet_mem; [done|done|by apply shots_insert].
Qed.
Lemma quiet_sender_drop w s : quiet s (sender_drop w s).
Proof. unfold sender_drop. destruct (oneshots (mem s) !! w) as [[| |]|]; try reflexivity. apply quiet_mem; [done|done|by apply shots_insert]. Qed.
Lemma quiet_oneshots w s : quiet s (on_mem (mem_oneshots (delete w)) s).
Proof. apply quiet_mem; [done|done|apply shots_delete]. Qed.
Lemma quiet_receiver_drop w s : quiet s (receiver_drop w s).
Proof.
  unfold receiver_drop. destruct (oneshots (mem s) !! w) as [[| |]|]; try apply quiet_oneshots.
  etrans; [apply quiet_oneshots|apply quiet_res_drop].
Qed.
Lemma quiet_new_task s : quiet s (new_task s).2.
Proof. quiet_field. Qed.
Lemma quiet_write_id s : quiet s (WriteId_new s).2.
Proof. quiet_field. Qed.
Lemma quiet_sub_id s : quiet s (SubId_new s).2.
Proof. quiet_field. Qed.
Lemma quiet_new_ref s : quiet s (new_ref s).2.
Proof. quiet_field. Qed.

(** ** [Val] and [Dval] *)

Lemma quiet_val_send v m s : quiet s (val_send v m s).
Proof. unfold val_send. case_match; [apply quiet_send|reflexivity]. Qed.
Lemma quiet_val_updates v flags tx s : quiet s (val_updates v flags tx s).
Proof. apply quiet_val_send. Qed.
Lemma quiet_val_write v x tx s : quiet s (val_write v x tx s).
Proof. unfold val_write. pose proof (quiet_write_id s). destruct (WriteId_new s) as [i s']. etrans; [done|apply quiet_val_send]. Qed.
Lemma quiet_val_write_receipt v x s : quiet s (val_write_with_recipt v x s).2.
Proof. exact (quiet_trans _ _ _ (quiet_new_task s) (quiet_val_write v x _ _)). Qed.
Lemma quiet_val_flush v s : quiet s (val_flush v s).2.
Proof. exact (quiet_trans _ _ _ (quiet_new_task s) (quiet_val_send v _ _)). Qed.
Lemma quiet_dval_updates d flags tx s : quiet s (dval_updates d flags tx s).
Proof.
  unfold dval_updates. destruct (dvals (mem s) !! d) as [x|] eqn:Hx; [|reflexivity].
  match goal with |- context [if ?b then s else ?u] => set (s1 := if b then s else u) end. assert (H : quiet s s1).
  { unfold s1. case_match; [reflexivity|]. apply quiet_mem; [|cbn; lia|same_shots]. unfold frame. cbn. f_equal. by apply fmap_alter_same. }
  destruct (d_sub x); [|done]. etrans; [done|apply quiet_val_updates].
Qed.
Lemma quiet_wait_subscribed d s : quiet s (wait_subscribed d s).2.
Proof.
  unfold wait_subscribed. destruct (d_sub <$> dvals (mem s) !! d) as [[|]|]; try reflexivity. cbn.
  etrans; [apply quiet_new_task|]. apply quiet_dval_upd. intros x. by apply dkind_upd_dead.
Qed.
Lemma quiet_dval_write d x tx s : quiet s (dval_write d x tx s).2.
Proof.
  unfold dval_write. destruct (d_sub <$> dvals (mem s) !! d) as [[|]|]; cbn; [apply quiet_val_write| |reflexivity].
  apply quiet_dval_upd. intros y. by apply dkind_upd_dead.
Qed.
Lemma quiet_dval_write_receipt d x s : quiet s (dval_write_with_recipt d x s).2.
Proof. exact (quiet_trans _ _ _ (quiet_new_task s) (quiet_dval_write d x _ _)). Qed.
Lemma quiet_clear d s : quiet s (clear_queued_writes d s).
Proof. apply quiet_dval_upd. intros x. by apply dkind_upd_dead. Qed.
Lemma quiet_connect_streams v more l s : quiet s (connect_streams v more l s).
Proof. apply quiet_foldl. intros s' [f tx]. apply quiet_val_updates. Qed.
Lemma quiet_tell_waiters r ws s : quiet s (tell_waiters r ws s).
Proof.
  apply quiet_foldl. intros s' w. etrans; [|apply quiet_oneshot_send]. destruct r; [apply quiet_val_clone|reflexivity].
Qed.
Lemma quiet_flush s : quiet s (flush s).2.
Proof.
  unfold flush. match goal with |- quiet s (foldl ?f _ _).2 => assert (H : ∀ cons ws s, quiet s (foldl f (ws, s) cons).2); [|apply H] end.
  clear s. intros cons. induction cons as [|c l IH]; intros ws s; [reflexivity|]. cbn [foldl].
  etrans; [|apply IH]. exact (quiet_trans _ _ _ (quiet_new_task s) (quiet_send _ _ _)).
Qed.

(** ** [SubscriberInner] *)

Lemma quiet_inner f s : frame (on_inner f s) = frame s → (trigger_resub (inner_ s) ≤ trigger_resub (f (inner_ s)))%nat → quiet s (on_inner f s).
Proof. intros H L. by split. Qed.
Lemma quiet_connections f s : quiet s (on_inner (upd_connections f) s).
Proof. by apply quiet_inner. Qed.
Lemma quiet_recently_failed f s : quiet s (on_inner (upd_recently_failed f) s).
Proof. by apply quiet_inner. Qed.
Lemma quiet_trigger s : quiet s (on_inner (upd_trigger_resub S) s).
Proof. apply quiet_inner; [done|]. cbn. lia. Qed.
Lemma quiet_remove_connection addr id s : quiet s (on_inner (remove_connection addr id) s).
Proof. apply quiet_inner; unfold frame, remove_connection; cbn; by destruct (connections (inner_ s) !! addr). Qed.
Lemma quiet_gc now s : quiet s (on_inner (gc_recently_failed now) s).
Proof. apply quiet_recently_failed. Qed.
Lemma quiet_start_connection addr auth uifo s : quiet s (start_connection addr auth uifo s).2.
Proof. split; [done|]. by split_and!. Qed.
Lemma quiet_mem_fields (f : Mem → Mem) s :
  (∀ m, dvals (f m) = dvals m) → (∀ m, vals (f m) = vals m) → (∀ m, next_ref (f m) = next_ref m) →
  (∀ m, oneshots (f m) = oneshots m) → (∀ m, next_waiter_id (f m) = next_waiter_id m) → quiet s (on_mem f s).
Proof.
  intros H1 H2 H3 H4 H5. apply quiet_mem; [unfold frame; cbn; by rewrite H1, H2|rewrite H3; lia|].
  split; [by rewrite H5|]. intros w _. by rewrite H4.
Qed.

Lemma quiet_st_drop st s : quiet s (st_drop st s).
Proof. destruct st; try reflexivity; try apply quiet_receiver_drop. apply quiet_val_drop. Qed.

Section Resolve.
Context {R : Rand} (interfaces : list Interface).
Lemma quiet_connection_for ch s : quiet s (connection_for ch s).2.
Proof.
  unfold connection_for. destruct (flags_contains _ _); [|destruct (primary _); [reflexivity|]].
  all: destruct (start_connection _ _ _ s) as [id s'] eqn:E; cbn; etrans; [|apply quiet_connections];
    pose proof (quiet_start_connection (ch_addr ch) (ch_target_auth ch) (ch_uifo ch) s) as H; by rewrite E in H.
Qed.
Lemma quiet_resolve_path publishers deadline seed p r pending s :
  quiet s (resolve_path interfaces publishers deadline seed p r pending s).2.
Proof.
  unfold resolve_path. case_bool_decide; [reflexivity|]. destruct (choose_from _ _ _ _ _) as [ch|]; [|reflexivity].
  assert (H1 : quiet s (match durable_id p s with Some i => (i, s) | None => SubId_new s end).2).
  { destruct (durable_id p s); [reflexivity|apply quiet_sub_id]. }
  destruct (match durable_id p s with Some i => (i, s) | None => SubId_new s end) as [i s1]. cbn in H1.
  pose proof (quiet_connection_for ch s1) as H2. destruct (connection_for ch s1) as [con s2].
  pose proof (quiet_oneshot s2) as H3. destruct (oneshot s2) as [w s3].
  assert (Hq : quiet s s3) by (etrans; [done|]; etrans; [done|]; done).
  destruct (pending !! p) as [[]|]; try done.
  match goal with |- context [send con ?m s3] => pose proof (quiet_send_pair con m s3) as H4; destruct (send con m s3) as [b s4] end.
  cbn in *. destruct b; cbn; (etrans; [done|]); [done|]. etrans; [done|apply quiet_receiver_drop].
Qed.
Lemma quiet_resolve_paths publishers deadline seed l pending s :
  quiet s (resolve_paths interfaces publishers deadline seed l pending s).2.
Proof.
  revert seed pending s. induction l as [|[p r] l IH]; intros seed pending s; [reflexivity|]. cbn.
  pose proof (quiet_resolve_path publishers deadline seed p r pending s) as H.
  destruct (resolve_path _ _ _ _ _ _ _ _) as [[m| |] s1]; [|done|done]. etrans; [done|apply IH].
Qed.
Lemma quiet_subscribe_resolved start timeout seed reply pending s :
  quiet s (subscribe_resolved interfaces start timeout seed reply pending s).2.
Proof. destruct reply; try reflexivity. apply quiet_resolve_paths. Qed.
End Resolve.
End Facts.

#[export] Hint Resolve sub_quiet_refl quiet_send quiet_send_pair quiet_val_clone quiet_val_drop quiet_wake quiet_state_drop
  quiet_dval_clone quiet_res_drop quiet_oneshot quiet_oneshot_send quiet_sender_drop quiet_oneshots quiet_receiver_drop
  quiet_new_task quiet_write_id quiet_sub_id quiet_new_ref quiet_val_send quiet_val_updates quiet_val_write
  quiet_val_write_receipt quiet_val_flush quiet_dval_updates quiet_wait_subscribed quiet_dval_write quiet_dval_write_receipt
  quiet_clear quiet_connect_streams quiet_tell_waiters quiet_flush quiet_connections quiet_recently_failed quiet_trigger
  quiet_remove_connection quiet_gc quiet_st_drop quiet_subscribe_resolved : sub.
