(* ===== verification/SubInv.v ===== *)
(** The tables of durable subscriptions: a durable subscription the program holds is in
    exactly one of the tables, under one path, the one that is looked at first, and the
    table says whether it is subscribed. *)
From Stdlib Require Import ZArith Lia.
From stdpp Require Import base gmap list strings sorting.
From Stdlib Require Import Strings.Byte.
From S2P Require Import Prelude Varint Pack Containers PackTypes Path PathFacts Order Glob Derive Proto.
From S2P Require Import Store Permissions Channel Float Value ValuePack PubProto Publisher PubServer SubChoose Subscriber SubConn SubFacts.

Section Frames.
Context {VA : ValueApi}.

(** The path has the durable subscription in one of the tables. *)
Definition in_tables (f : Frame) (p : str) (d : DvRef) : Prop :=
  f_dead f !! p = Some d ∨ f_pending f !! p = Some d ∨ f_alive f !! p = Some d.
Definition live (f : Frame) (d : DvRef) : Prop := ∃ b, f_kinds f !! d = Some (true, b).

Record dur_ok (f : Frame) (next : Z) : Prop := {
  o_bound d k : f_kinds f !! d = Some k → d < next;
  o_entry p d : in_tables f p d → is_Some (f_kinds f !! d);
  o_dead p d b : f_dead f !! p = Some d → f_kinds f !! d = Some (true, b) → b ≠ None;
  o_pending p d b : f_pending f !! p = Some d → f_kinds f !! d = Some (true, b) → b ≠ None ∧ f_dead f !! p = None;
  o_alive p d b : f_alive f !! p = Some d → f_kinds f !! d = Some (true, b) →
    b = None ∧ f_dead f !! p = None ∧ f_pending f !! p = None;
  o_inj p p' d : live f d → in_tables f p d → in_tables f p' d → p = p';
  o_all d : live f d → ∃ p, in_tables f p d
}.
(** Subscriptions are not forgotten, nor held again once they are not; one that is still
    held stays under its path. *)
Record evolves (f f' : Frame) : Prop := {
  ev_dom d : is_Some (f_kinds f !! d) → is_Some (f_kinds f' !! d);
  ev_live d : is_Some (f_kinds f !! d) → live f' d → live f d;
  ev_stays p d : in_tables f p d → live f' d → in_tables f' p d
}.
Lemma evolves_refl f : evolves f f.
Proof. by split. Qed.
Lemma evolves_trans f1 f2 f3 n : dur_ok f1 n → evolves f1 f2 → evolves f2 f3 → evolves f1 f3.
Proof.
  intros H [] []. split; [auto..|]. intros p d Hp Hl. assert (Hk : is_Some (f_kinds f1 !! d)) by (by eapply o_entry). auto.
Qed.

Lemma dur_mono f n n' : dur_ok f n → n ≤ n' → dur_ok f n'.
Proof. intros [] H. split; [intros d k Hk; assert (d < n) by eauto; lia|eauto..]. Qed.

(** What [durable_entry] finds *)
Definition first_entry (f : Frame) (p : str) : option DvRef :=
  match f_dead f !! p with Some d => Some d | None => match f_pending f !! p with Some d => Some d | None => f_alive f !! p end end.
Lemma first_live f n p d : dur_ok f n → live f d → in_tables f p d → first_entry f p = Some d.
Proof.
  intros [] [b Hb] [Hd|[Hd|Hd]]; unfold first_entry.
  - by rewrite Hd.
  - destruct (o_pending0 p d b Hd Hb) as [_ ->]. by rewrite Hd.
  - destruct (o_alive0 p d b Hd Hb) as (_ & -> & ->). done.
Qed.
(** If what it finds is not held, nothing of the path is. *)
Lemma first_stale f n p d : dur_ok f n → ¬ (∃ d, first_entry f p = Some d ∧ live f d) → in_tables f p d → ¬ live f d.
Proof. intros Hf Hn Hd Hl. apply Hn. exists d. split; [|done]. by eapply first_live. Qed.

Ltac tables := unfold in_tables, live in *; cbn [f_dead f_pending f_alive f_kinds] in *.

(** Dropping the last reference *)
Lemma dur_drop f n d b : dur_ok f n → f_kinds f !! d = Some (true, b) →
  let f' := MkFrame (f_dead f) (f_pending f) (f_alive f) (<[d := (false, b)]> (f_kinds f)) (f_statuses f) (f_vals f) in
  dur_ok f' n ∧ evolves f f'.
Proof.
  intros Hf Hd f'.
  assert (Hk : ∀ e c, f_kinds f' !! e = Some (true, c) → f_kinds f !! e = Some (true, c)).
  { intros e c. cbn. destruct (decide (d = e)) as [<-|Hne]; [by rewrite lookup_insert_eq|by rewrite lookup_insert_ne]. }
  assert (Hl : ∀ e, live f' e → live f e) by (intros e [c Hc]; exists c; by apply Hk).
  assert (Hdom : ∀ e, is_Some (f_kinds f !! e) → is_Some (f_kinds f' !! e)).
  { intros e. cbn. destruct (decide (d = e)) as [<-|Hne]; [by rewrite lookup_insert_eq|by rewrite lookup_insert_ne]. }
  split; [|split; auto]. destruct Hf. split.
  - intros e k. cbn. destruct (decide (d = e)) as [<-|Hne]; [eauto|rewrite lookup_insert_ne by done; eauto].
  - intros p e Hp. by apply Hdom, (o_entry0 p).
  - intros p e c Hp Hc. by apply (o_dead0 p e c Hp), Hk.
  - intros p e c Hp Hc. by apply (o_pending0 p e c Hp), Hk.
  - intros p e c Hp Hc. by apply (o_alive0 p e c Hp), Hk.
  - intros p p' e He. by apply o_inj0, Hl.
  - intros e He. by apply o_all0, Hl.
Qed.

(** A new subscription for a path that has none *)
Lemma dur_new f n p d t : dur_ok f n → n ≤ d → ¬ (∃ d, first_entry f p = Some d ∧ live f d) →
  let f' := MkFrame (<[p := d]> (f_dead f)) (f_pending f) (f_alive f) (<[d := (true, Some t)]> (f_kinds f)) (f_statuses f) (f_vals f) in
  dur_ok f' (d + 1) ∧ evolves f f' ∧ in_tables f' p d ∧ live f' d.
Proof.
  intros Hf Hd Hno f'. pose proof (fun e => first_stale f n p e Hf Hno) as Hst. destruct Hf.
  assert (Hfresh : ∀ q, ¬ in_tables f q d) by (intros q Hq; destruct (o_entry0 q d Hq) as [k Hk]; specialize (o_bound0 d k Hk); lia).
  assert (Hk : ∀ e k, e ≠ d → f_kinds f' !! e = Some k ↔ f_kinds f !! e = Some k) by (intros e k He; cbn; by rewrite lookup_insert_ne).
  assert (Hl : ∀ e, e ≠ d → live f' e → live f e) by (intros e He [c Hc]; exists c; by apply Hk).
  assert (Hin : ∀ q e, in_tables f' q e → e ≠ d → in_tables f q e).
  { intros q e [Hq|[Hq|Hq]] He; [|by right; left|by right; right]. left. cbn in Hq. destruct (decide (p = q)) as [<-|Hne].
    - rewrite lookup_insert_eq in Hq. congruence.
    - by rewrite lookup_insert_ne in Hq. }
  assert (Hind : ∀ q, in_tables f' q d → q = p).
  { intros q [Hq|[Hq|Hq]]; [|by destruct (Hfresh q); right; left|by destruct (Hfresh q); right; right].
    cbn in Hq. destruct (decide (p = q)) as [<-|Hne]; [done|]. rewrite lookup_insert_ne in Hq by done. destruct (Hfresh q). by left. }
  assert (Hself : in_tables f' p d) by (left; cbn; by rewrite lookup_insert_eq).
  assert (Hlive : live f' d) by (exists (Some t); cbn; by rewrite lookup_insert_eq).
  split_and!; [split|..]; try done.
  - intros e k He. destruct (decide (e = d)) as [->|Hne]; [lia|]. apply Hk in He; [|done]. specialize (o_bound0 e k He). lia.
  - intros q e He. destruct (decide (e = d)) as [->|Hne]; [cbn; by rewrite lookup_insert_eq|].
    destruct (o_entry0 q e (Hin q e He Hne)) as [k Hke]. exists k. by apply Hk.
  - intros q e c Hq Hc. destruct (decide (e = d)) as [->|Hne]; [cbn in Hc; rewrite lookup_insert_eq in Hc; congruence|].
    apply Hk in Hc; [|done]. cbn in Hq. destruct (decide (p = q)) as [<-|Hpq]; [rewrite lookup_insert_eq in Hq; congruence|].
    rewrite lookup_insert_ne in Hq by done. eauto.
  - intros q e c Hq Hc. cbn in Hq. assert (Hne : e ≠ d) by (intros ->; apply (Hfresh q); by right; left).
    apply Hk in Hc; [|done]. destruct (decide (p = q)) as [<-|Hpq].
    + destruct (Hst e); [by right; left|by exists c].
    + cbn. rewrite lookup_insert_ne by done. eauto.
  - intros q e c Hq Hc. cbn in Hq. assert (Hne : e ≠ d) by (intros ->; apply (Hfresh q); by right; right).
    apply Hk in Hc; [|done]. destruct (decide (p = q)) as [<-|Hpq].
    + destruct (Hst e); [by right; right|by exists c].
    + cbn. rewrite lookup_insert_ne by done. eauto.
  - intros q q' e He Hq Hq'. destruct (decide (e = d)) as [->|Hne]; [by rewrite (Hind q), (Hind q')|].
    apply (o_inj0 q q' e); auto.
  - intros e He. destruct (decide (e = d)) as [->|Hne]; [by exists p|]. destruct (o_all0 e (Hl e Hne He)) as [q Hq]. exists q.
    destruct Hq as [Hq|[Hq|Hq]]; [|by right; left|by right; right]. left. cbn.
    destruct (decide (p = q)) as [<-|Hpq]; [|by rewrite lookup_insert_ne]. destruct (Hst e); [by left|by apply Hl].
  - split.
    { intros e [k He]. destruct (decide (e = d)) as [->|Hne]; [by eexists; apply lookup_insert_eq|]. exists k. by apply Hk. }
    { intros e [k He]. apply Hl. intros ->. specialize (o_bound0 d k He). lia. }
    intros q e Hq He. assert (Hne : e ≠ d) by (intros ->; by apply (Hfresh q)).
    destruct Hq as [Hq|[Hq|Hq]]; [|by right; left|by right; right]. left. cbn.
    destruct (decide (p = q)) as [<-|Hpq]; [|by rewrite lookup_insert_ne]. destruct (Hst e); [by left|by apply Hl].
Qed.

(** A change of the entries of one path *)
Record changed_at (f f' : Frame) (p : str) : Prop := {
  ch_dead q : q ≠ p → f_dead f' !! q = f_dead f !! q;
  ch_pending q : q ≠ p → f_pending f' !! q = f_pending f !! q;
  ch_alive q : q ≠ p → f_alive f' !! q = f_alive f !! q;
  ch_kinds e : f_kinds f' !! e = f_kinds f !! e ∨ (in_tables f p e ∧ live f e ∧ ∃ b, f_kinds f' !! e = Some (true, b));
  ch_from e : in_tables f' p e → in_tables f p e;
  ch_stay e : in_tables f p e → live f' e → in_tables f' p e;
  ch_ok_dead e b : f_dead f' !! p = Some e → f_kinds f' !! e = Some (true, b) → b ≠ None;
  ch_ok_pending e b : f_pending f' !! p = Some e → f_kinds f' !! e = Some (true, b) → b ≠ None ∧ f_dead f' !! p = None;
  ch_ok_alive e b : f_alive f' !! p = Some e → f_kinds f' !! e = Some (true, b) →
    b = None ∧ f_dead f' !! p = None ∧ f_pending f' !! p = None
}.
Lemma dur_changed f f' n p : dur_ok f n → changed_at f f' p → dur_ok f' n ∧ evolves f f'.
Proof.
  intros Hf []. pose proof Hf as [].
  assert (Hl : ∀ e, live f' e → live f e).
  { intros e [b Hb]. destruct (ch_kinds0 e) as [E|(_ & H & _)]; [|done]. exists b. by rewrite <-E. }
  assert (Hq : ∀ q e, q ≠ p → in_tables f' q e ↔ in_tables f q e).
  { intros q e Hq. unfold in_tables. by rewrite ch_dead0, ch_pending0, ch_alive0. }
  assert (Hin : ∀ q e, in_tables f' q e → in_tables f q e).
  { intros q e H. destruct (decide (q = p)) as [->|Hne]; [auto|by apply Hq]. }
  (* a subscription of another path keeps its kind *)
  assert (Hk : ∀ q e c, q ≠ p → in_tables f q e → f_kinds f' !! e = Some (true, c) → f_kinds f !! e = Some (true, c)).
  { intros q e c Hne Hi Hc. destruct (ch_kinds0 e) as [E|(Hp & He & _)]; [by rewrite <-E|]. by destruct Hne; eapply o_inj0. }
  assert (Hdom : ∀ e, is_Some (f_kinds f !! e) ↔ is_Some (f_kinds f' !! e)).
  { intros e. destruct (ch_kinds0 e) as [->|(_ & [b Hb] & c & Hc)]; [done|]. by rewrite Hb, Hc. }
  split; [split|].
  - intros e k He. destruct (proj2 (Hdom e) ltac:(by eexists)) as [k' Hk']. eauto.
  - intros q e He. apply Hdom. eauto.
  - intros q e c Hd Hc. destruct (decide (q = p)) as [->|Hne]; [eauto|].
    rewrite ch_dead0 in Hd by done. eapply o_dead0; [done|]. eapply Hk; [done|by left|done].
  - intros q e c Hd Hc. destruct (decide (q = p)) as [->|Hne]; [eauto|].
    rewrite ch_pending0 in Hd by done. rewrite ch_dead0 by done. eapply o_pending0; [done|]. eapply Hk; [done|by right; left|done].
  - intros q e c Hd Hc. destruct (decide (q = p)) as [->|Hne]; [eauto|].
    rewrite ch_alive0 in Hd by done. rewrite ch_dead0, ch_pending0 by done. eapply o_alive0; [done|]. eapply Hk; [done|by right; right|done].
  - intros q q' e He H1 H2. eapply o_inj0; eauto.
  - intros e He. destruct (o_all0 e (Hl e He)) as [q H]. exists q. destruct (decide (q = p)) as [->|Hne]; [auto|by apply Hq].
  - split; [intros e; apply Hdom|auto|]. intros q e H He. destruct (decide (q = p)) as [->|Hne]; [auto|by apply Hq].
Qed.

(** Only the tables matter. *)
Lemma dur_same f f' n : f_dead f' = f_dead f → f_pending f' = f_pending f → f_alive f' = f_alive f → f_kinds f' = f_kinds f →
  dur_ok f n → dur_ok f' n ∧ evolves f f'.
Proof.
  destruct f, f'; cbn. intros -> -> -> -> []. unfold in_tables, live in *. cbn in *.
  split; (constructor; unfold in_tables, live; cbn; by try assumption).
Qed.

(** What [do_resub] does to a path: nothing, or its dead entry is pending if it is held
    and dropped otherwise. *)
Definition resub_moved (f f' : Frame) (p : str) : Prop :=
  (f_dead f' !! p = f_dead f !! p ∧ f_pending f' !! p = f_pending f !! p) ∨
  ∃ d, f_dead f !! p = Some d ∧ f_dead f' !! p = None ∧
    ((live f d ∧ f_pending f' !! p = Some d) ∨ (¬ live f d ∧ f_pending f' !! p = f_pending f !! p)).
Lemma dur_resub f f' n : dur_ok f n → f_kinds f' = f_kinds f → f_alive f' = f_alive f → (∀ p, resub_moved f f' p) →
  dur_ok f' n ∧ evolves f f'.
Proof.
  intros Hf Hk Ha Hm. pose proof Hf as [].
  assert (Hl : ∀ e, live f' e ↔ live f e) by (intros e; unfold live; by rewrite Hk).
  assert (Hin : ∀ p e, in_tables f' p e → in_tables f p e).
  { intros p e. unfold in_tables. rewrite Ha. destruct (Hm p) as [[-> ->]|(d & Hd & -> & [[_ ->]|[_ ->]])]; [done| |]; rewrite Hd; naive_solver. }
  assert (Hst : ∀ p e, in_tables f p e → live f e → in_tables f' p e).
  { intros p e He Hle. pose proof (first_live _ _ _ _ Hf Hle He) as Hfirst. unfold in_tables in *. rewrite Ha.
    destruct (Hm p) as [[-> ->]|(d & Hd & -> & Hc)]; [done|]. unfold first_entry in Hfirst. rewrite Hd in Hfirst.
    injection Hfirst as ->. destruct Hc as [[_ ->]|[Hc _]]; [by right; left|done]. }
  split; [split|].
  - intros e k. rewrite Hk. eauto.
  - intros p e. rewrite Hk. eauto.
  - intros p e c He. rewrite Hk. destruct (Hm p) as [[E _]|(d & _ & E & _)]; rewrite E in He; [eauto|done].
  - intros p e c He. rewrite Hk. intros Hc. destruct (Hm p) as [[E1 E2]|(d & Hd & E1 & [[Hld E2]|[Hld E2]])]; rewrite E2 in He.
    + rewrite E1. eauto.
    + injection He as ->. split; [eauto|done].
    + split; [|done]. by eapply o_pending0.
  - intros p e c He. rewrite Hk, Ha in *. intros Hc. destruct (o_alive0 p e c He Hc) as (Hc' & E3 & E4). split; [done|].
    destruct (Hm p) as [[-> ->]|(d & Hd & _)]; [done|congruence].
  - intros p q e He H1 H2. apply (o_inj0 p q e); [by apply Hl|auto..].
  - intros e He. destruct (o_all0 e) as [p Hp]; [by apply Hl|]. exists p. apply Hst; [done|by apply Hl].
  - split; [by rewrite Hk|intros e _; apply Hl|]. intros p e Hp He. apply Hst; [done|by apply Hl].
Qed.
End Frames.

(** ** The operations *)

Section Ops.
Context {VA : ValueApi}.

Definition dur (s : Sub) : Prop := dur_ok (frame s) (next_ref (mem s)).
(** What an operation guarantees *)
Definition dur_step (s s' : Sub) : Prop := dur s' ∧ evolves (frame s) (frame s').
Lemma dur_step_refl s : dur s → dur_step s s.
Proof. intros H. split; [done|apply evolves_refl]. Qed.
Lemma dur_step_trans s1 s2 s3 : dur s1 → dur_step s1 s2 → (dur s2 → dur_step s2 s3) → dur_step s1 s3.
Proof. intros H1 [H2 E2] H. destruct (H H2) as [H3 E3]. split; [done|by eapply evolves_trans]. Qed.
Lemma dur_quiet s s' : quiet s s' → dur s → dur_step s s'.
Proof. intros [E [L _]] H. unfold dur_step, dur. rewrite E. split; [by eapply dur_mono|apply evolves_refl]. Qed.

Lemma kind_upgrade s d x : dval_upgrade d s = Some x → f_kinds (frame s) !! d = Some (true, dnext (d_sub x)).
Proof.
  intros [Hx Hs]%dval_upgrade_some. cbn. rewrite lookup_fmap, Hx. cbn. unfold dkind. by destruct (d_strong x); [lia|].
Qed.
Lemma live_upgrade s d : live (frame s) d ↔ is_Some (dval_upgrade d s).
Proof.
  split.
  - intros [b Hb]. cbn in Hb. rewrite lookup_fmap in Hb. unfold dval_upgrade. destruct (dvals (mem s) !! d) as [x|]; [|done].
    cbn in *. unfold dkind in Hb. destruct (d_strong x); [done|by eexists].
  - intros [x Hx]. eexists. by apply kind_upgrade.
Qed.
Lemma first_durable p s : first_entry (frame s) p = durable_entry p (inner_ s).
Proof. done. Qed.

Lemma dur_dval_drop d s : dur s → dur_step s (dval_drop d s).
Proof.
  intros Hd. unfold dval_drop. destruct (dval_upgrade d s) as [x|] eqn:Hx; [|by apply dur_step_refl].
  pose proof (kind_upgrade _ _ _ Hx) as Hk. apply dval_upgrade_some in Hx as [Hx Hs].
  set (s1 := on_mem _ s). destruct (d_strong x =? 1)%nat eqn:E1.
  - assert (H1 : dur_step s s1).
    { apply Nat.eqb_eq in E1. destruct (dur_drop _ _ _ _ Hd Hk) as [H1 H2].
      assert (E : frame s1 = MkFrame (f_dead (frame s)) (f_pending (frame s)) (f_alive (frame s))
        (<[d := (false, dnext (d_sub x))]> (f_kinds (frame s))) (f_statuses (frame s)) (f_vals (frame s))).
      { unfold frame, s1. cbn. f_equal. rewrite fmap_insert. unfold dkind. cbn. by rewrite E1. }
      unfold dur_step, dur. by rewrite E. }
    eapply dur_step_trans; [done..|]. apply dur_quiet, quiet_state_drop.
  - apply dur_quiet; [|done]. apply Nat.eqb_neq in E1. apply quiet_mem; [|cbn; lia|same_shots]. unfold frame. cbn. f_equal.
    eapply fmap_insert_same; [done|]. unfold dkind. cbn. destruct (d_strong x) as [|[|n]]; done || lia.
Qed.

(** [subscribe_internal] returns the subscription of the path, which is then held. *)
Lemma dur_subscribe now p updates s : dur s →
  let '(d, s') := subscribe_internal now p updates s in
  dur_step s s' ∧ in_tables (frame s') p d ∧ live (frame s') d.
Proof.
  intros Hd. unfold subscribe_internal. rewrite <-first_durable.
  assert (Hnew : ¬ (∃ d, first_entry (frame s) p = Some d ∧ live (frame s) d) →
    let '(d, s1) := new_ref s in let '(i, s2) := SubId_new s1 in
    let s3 := on_mem (mem_dvals <[d := MkDvalInner i (Dv_Dead (MkDvDead [] [] 0 now)) updates 1]>) s2 in
    let s' := on_inner (upd_trigger_resub S) (on_inner (upd_durable_dead <[p := d]>) s3) in
    dur_step s s' ∧ in_tables (frame s') p d ∧ live (frame s') d).
  { intros Hno. destruct (dur_new _ _ p (next_ref (mem s)) now Hd ltac:(lia) Hno) as (H1 & H2 & H3 & H4). cbn.
    match goal with |- dur_step s ?s' ∧ _ => assert (E : frame s' = MkFrame (<[p := next_ref (mem s)]> (f_dead (frame s))) (f_pending (frame s))
      (f_alive (frame s)) (<[next_ref (mem s) := (true, Some now)]> (f_kinds (frame s))) (f_statuses (frame s)) (f_vals (frame s))) end.
    { unfold frame. cbn. f_equal. by rewrite fmap_insert. }
    unfold dur_step, dur. by rewrite E. }
  destruct (first_entry (frame s) p) as [d|] eqn:He; [|apply Hnew; by intros (d & [=] & _)].
  destruct (dval_upgrade d s) as [x|] eqn:Hx.
  - assert (Hl : live (frame s) d) by (apply live_upgrade; by eexists).
    set (s' := foldl _ _ _). assert (Hq : quiet s s').
    { etrans; [apply quiet_dval_clone|]. apply quiet_foldl. intros s2 [g tx]. apply quiet_dval_updates. }
    destruct (dur_quiet s s' Hq Hd) as [H1 H2]. destruct Hq as [E _]. split; [done|]. rewrite E. split; [|done].
    unfold first_entry in He. unfold in_tables. destruct (f_dead _ !! p); [by left|]. destruct (f_pending _ !! p); [by right; left|by right; right].
  - apply Hnew. intros (e & [= <-] & [y Hy]%live_upgrade). congruence.
Qed.
(** While it is held, subscribing again finds it. *)
Lemma subscribe_again now p updates s d : dur s → in_tables (frame s) p d → live (frame s) d →
  (subscribe_internal now p updates s).1 = d.
Proof.
  intros Hd Hi Hl. pose proof (first_live _ _ _ _ Hd Hl Hi) as He. unfold subscribe_internal. rewrite <-first_durable, He.
  apply live_upgrade in Hl as [x ->]. done.
Qed.

(** ** Moving a subscription *)

(** The subscription [d] of [p] goes to one table; the table of pending ones or of those
    that are subscribed loses its entry. *)
Definition to_dead (p : str) (d : DvRef) (t : Instant) (f : Frame) : Frame :=
  MkFrame (<[p := d]> (f_dead f)) (f_pending f) (f_alive f) (<[d := (true, Some t)]> (f_kinds f)) (f_statuses f) (f_vals f).
Definition to_alive (p : str) (d : DvRef) (f : Frame) : Frame :=
  MkFrame (f_dead f) (f_pending f) (<[p := d]> (f_alive f)) (<[d := (true, None)]> (f_kinds f)) (f_statuses f) (f_vals f).
Definition no_pending (p : str) (f : Frame) : Frame :=
  MkFrame (f_dead f) (delete p (f_pending f)) (f_alive f) (f_kinds f) (f_statuses f) (f_vals f).
Definition no_alive (p : str) (f : Frame) : Frame :=
  MkFrame (f_dead f) (f_pending f) (delete p (f_alive f)) (f_kinds f) (f_statuses f) (f_vals f).

Lemma kinds_insert (m : gmap DvRef (bool * option Instant)) d b (e : DvRef) : <[d := (true, b)]> m !! e = m !! e ∨ (e = d ∧ <[d := (true, b)]> m !! e = Some (true, b)).
Proof. destruct (decide (d = e)) as [<-|Hne]; [right; by rewrite lookup_insert_eq|left; by rewrite lookup_insert_ne]. Qed.

(** Removing an entry that is not held *)
Lemma changed_no_pending f n p : dur_ok f n → (∀ d, f_pending f !! p = Some d → ¬ live f d) → changed_at f (no_pending p f) p.
Proof.
  intros [] Hs. split; unfold in_tables; cbn; intros; rewrite ?lookup_delete_ne by done; try done; try (by left).
  - naive_solver by (rewrite lookup_delete_Some in *; naive_solver).
  - destruct H as [H|[H|H]]; [by left|by destruct (Hs e)|by right; right].
  - eauto.
  - by rewrite lookup_delete_eq in H.
  - rewrite lookup_delete_eq. destruct (o_alive0 p e b H H0) as (-> & -> & _). done.
Qed.
Lemma changed_no_alive f n p : dur_ok f n → (∀ d, f_alive f !! p = Some d → ¬ live f d) → changed_at f (no_alive p f) p.
Proof.
  intros [] Hs. split; unfold in_tables; cbn; intros; rewrite ?lookup_delete_ne by done; try done; try (by left).
  - naive_solver by (rewrite lookup_delete_Some in *; naive_solver).
  - destruct H as [H|[H|H]]; [by left|by right; left|by destruct (Hs e)].
  - eauto.
  - eauto.
  - by rewrite lookup_delete_eq in H.
Qed.
(** The subscription that is held moves. *)
Lemma changed_move f n p d b f' : dur_ok f n → live f d → in_tables f p d →
  (∀ q, q ≠ p → f_dead f' !! q = f_dead f !! q ∧ f_pending f' !! q = f_pending f !! q ∧ f_alive f' !! q = f_alive f !! q) →
  f_kinds f' = <[d := (true, b)]> (f_kinds f) → (∀ e, in_tables f' p e → in_tables f p e) → in_tables f' p d →
  (f_dead f' !! p = Some d → b ≠ None) → (f_pending f' !! p = Some d → b ≠ None ∧ f_dead f' !! p = None) →
  (f_alive f' !! p = Some d → b = None ∧ f_dead f' !! p = None ∧ f_pending f' !! p = None) →
  changed_at f f' p.
Proof.
  intros Hf Hl Hd Hq Hk Hin Hd' H1 H2 H3. pose proof (first_live _ _ _ _ Hf Hl Hd) as Hfirst.
  assert (Hother : ∀ e c, in_tables f p e → f_kinds f' !! e = Some (true, c) → e = d ∧ c = b).
  { intros e c He. rewrite Hk. destruct (decide (d = e)) as [<-|Hne]; [rewrite lookup_insert_eq; by intros [= <-]|].
    rewrite lookup_insert_ne by done. intros Hc. pose proof (first_live f n p e Hf (ex_intro _ c Hc) He) as He'. congruence. }
  split; try (intros q Hne; by destruct (Hq q Hne) as (? & ? & ?)); auto.
  - intros e. rewrite Hk. destruct (kinds_insert (f_kinds f) d b e) as [->|[-> ->]]; [by left|right]. split_and!; eauto.
  - intros e He [c Hc]. by destruct (Hother e c He Hc) as [-> _].
  - intros e c He Hc. destruct (Hother e c (Hin e (or_introl He)) Hc) as [-> ->]. auto.
  - intros e c He Hc. destruct (Hother e c (Hin e (or_intror (or_introl He))) Hc) as [-> ->]. auto.
  - intros e c He Hc. destruct (Hother e c (Hin e (or_intror (or_intror He))) Hc) as [-> ->]. auto.
Qed.
Lemma changed_pending_dead f n p d t : dur_ok f n → live f d → f_pending f !! p = Some d → changed_at f (to_dead p d t (no_pending p f)) p.
Proof.
  intros Hf Hl Hp. assert (Ha : f_alive f !! p ≠ Some d).
  { intros Ha. destruct Hl as [b Hb]. destruct (o_alive _ _ Hf p d b Ha Hb) as (_ & _ & E). congruence. }
  apply (changed_move f n p d (Some t)); try done; unfold in_tables; cbn; rewrite ?lookup_insert_eq, ?lookup_delete_eq; [by right; left| |naive_solver..].
  intros q Hq. by rewrite lookup_insert_ne, lookup_delete_ne.
Qed.
Lemma changed_alive_dead f n p d t : dur_ok f n → live f d → f_alive f !! p = Some d → changed_at f (to_dead p d t (no_alive p f)) p.
Proof.
  intros Hf Hl Hp. assert (Ha : f_pending f !! p ≠ Some d).
  { intros Ha. destruct Hl as [b Hb]. destruct (o_alive _ _ Hf p d b Hp Hb) as (_ & _ & E). congruence. }
  apply (changed_move f n p d (Some t)); try done; unfold in_tables; cbn; rewrite ?lookup_insert_eq, ?lookup_delete_eq; [by right; right| |naive_solver..].
  intros q Hq. by rewrite lookup_insert_ne, lookup_delete_ne.
Qed.
Lemma changed_pending_alive f n p d : dur_ok f n → live f d → f_pending f !! p = Some d → changed_at f (to_alive p d (no_pending p f)) p.
Proof.
  intros Hf Hl Hp. assert (Ha : f_dead f !! p = None).
  { destruct Hl as [b Hb]. by destruct (o_pending _ _ Hf p d b Hp Hb). }
  apply (changed_move f n p d None); try done; unfold in_tables; cbn; rewrite ?lookup_insert_eq, ?lookup_delete_eq, ?Ha; [by right; left| |naive_solver..].
  intros q Hq. by rewrite lookup_insert_ne, lookup_delete_ne.
Qed.

(** [inner.sub = st] *)
Lemma frame_dval_set d st x s : dvals (mem s) !! d = Some x → (0 < d_strong x)%nat →
  frame (dval_set d st s) = MkFrame (f_dead (frame s)) (f_pending (frame s)) (f_alive (frame s))
    (<[d := (true, dnext st)]> (f_kinds (frame s))) (f_statuses (frame s)) (f_vals (frame s)) ∧
  grows s (dval_set d st s).
Proof.
  intros Hx Hs. unfold dval_set. rewrite Hx. set (s1 := on_mem _ s).
  destruct (quiet_state_drop (d_sub x) s1) as [E L]. split; [|exact L]. rewrite E. unfold frame, s1. cbn. f_equal.
  rewrite fmap_insert. f_equal. unfold dkind. cbn. by destruct (d_strong x); [lia|].
Qed.
Lemma statuses_dval_set d st s : statuses (inner_ (dval_set d st s)) = statuses (inner_ s).
Proof.
  unfold dval_set. destruct (dvals (mem s) !! d) as [x|]; [|done].
  match goal with |- context [state_drop ?a ?b] => destruct (quiet_state_drop a b) as [E _] end.
  exact (f_equal f_statuses E).
Qed.
Lemma shots_dval_set d st s : shots (mem s) (mem (dval_set d st s)).
Proof.
  unfold dval_set. destruct (dvals (mem s) !! d) as [x|]; [|reflexivity].
  match goal with |- context [state_drop ?a ?b] => destruct (quiet_state_drop a b) as [_ (_ & _ & T)] end. exact T.
Qed.
Lemma dur_changed_at p s s' : dur s → changed_at (frame s) (frame s') p → next_ref (mem s) ≤ next_ref (mem s') → dur_step s s'.
Proof. intros Hd Hc L. destruct (dur_changed _ _ _ _ Hd Hc) as [H1 H2]. split; [by eapply dur_mono|done]. Qed.

Lemma dur_unsubscribe_durable now p s : dur s → dur_step s (unsubscribe_durable now p s).
Proof.
  intros Hd. unfold unsubscribe_durable.
  destruct (durable_alive (inner_ s) !! p) as [d|] eqn:Ha; [|destruct (durable_pending (inner_ s) !! p) as [d|] eqn:Hp; [|by apply dur_step_refl]].
  - set (s1 := on_inner _ s). destruct (dval_upgrade d s1) as [x|] eqn:Hx.
    + change (dval_upgrade d s1) with (dval_upgrade d s) in Hx. pose proof (dval_upgrade_some _ _ _ Hx) as [Hx1 Hx2].
      destruct (frame_dval_set d (Dv_Dead (MkDvDead [] [] 0 now)) x s1 Hx1 Hx2) as [E L].
      apply (dur_changed_at p); [done| |apply L]. assert (Hl : live (frame s) d) by (apply live_upgrade; by eexists).
      pose proof (changed_alive_dead _ _ p d now Hd Hl Ha) as Hc. unfold frame in E |- *. cbn in *. injection E as -> -> -> -> -> ->. exact Hc.
    + apply (dur_changed_at p); [done| |cbn; lia]. eapply changed_no_alive; [done|]. intros e He [y Hy]%live_upgrade.
      change (dval_upgrade d s1) with (dval_upgrade d s) in Hx. cbn in He. congruence.
  - set (s1 := on_inner _ s). destruct (dval_upgrade d s1) as [x|] eqn:Hx.
    + change (dval_upgrade d s1) with (dval_upgrade d s) in Hx. pose proof (dval_upgrade_some _ _ _ Hx) as [Hx1 Hx2].
      destruct (frame_dval_set d (Dv_Dead (MkDvDead [] [] 0 now)) x s1 Hx1 Hx2) as [E L].
      apply (dur_changed_at p); [done| |apply L]. assert (Hl : live (frame s) d) by (apply live_upgrade; by eexists).
      pose proof (changed_pending_dead _ _ p d now Hd Hl Hp) as Hc. unfold frame in E |- *. cbn in *. injection E as -> -> -> -> -> ->. exact Hc.
    + apply (dur_changed_at p); [done| |cbn; lia]. eapply changed_no_pending; [done|]. intros e He [y Hy]%live_upgrade.
      change (dval_upgrade d s1) with (dval_upgrade d s) in Hx. cbn in He. congruence.
Qed.

(** ** Resubscribing *)

Section Resub.
Context {R : Rand} {O : SubOrder} {OOK : SubOrderOk O}.

(** A held subscription in the table of dead or pending ones is dead. *)
Lemma upgrade_dead s p d x : dur s → (f_dead (frame s) !! p = Some d ∨ f_pending (frame s) !! p = Some d) →
  dval_upgrade d s = Some x → ∃ dd, d_sub x = Dv_Dead dd.
Proof.
  intros Hd Hp Hk%kind_upgrade. destruct (d_sub x) as [v|dd]; [|by eexists].
  destruct Hp as [Hp|Hp]; [by destruct (o_dead _ _ Hd p d None Hp Hk)|by destruct (o_pending _ _ Hd p d None Hp Hk) as [[] _]].
Qed.

Lemma frame_resub_failed now seed p d x s : dval_upgrade d s = Some x → (∃ dd, d_sub x = Dv_Dead dd) →
  ∃ s', resub_failed now seed p d x s = (Ok (), s') ∧
    (∃ t, frame s' = to_dead p d t (frame s)) ∧ next_ref (mem s') = next_ref (mem s).
Proof.
  intros Hx [dd Hdd]. apply dval_upgrade_some in Hx as [Hx Hs]. unfold resub_failed. rewrite Hdd. eexists. split; [reflexivity|].
  split; [|done]. eexists. unfold frame, to_dead. cbn. f_equal. apply map_eq. intros e. rewrite lookup_fmap.
  destruct (decide (d = e)) as [<-|Hne].
  - rewrite lookup_alter_eq, lookup_insert_eq, Hx. cbn. unfold dkind. cbn. by destruct (d_strong x); [lia|].
  - by rewrite lookup_alter_ne, lookup_insert_ne, lookup_fmap.
Qed.
Lemma quiet_writes v l s : quiet s (foldl (fun s '(w, tx) => val_write v w tx s) s l).
Proof. apply quiet_foldl. intros s' [w tx]. apply quiet_val_write. Qed.
Lemma dval_upgrade_quiet s s' d : quiet s s' → is_Some (dval_upgrade d s) → is_Some (dval_upgrade d s').
Proof. intros [E _] H. apply live_upgrade. rewrite E. by apply live_upgrade. Qed.
Lemma frame_resub_ok p d x v s : dval_upgrade d s = Some x →
  frame (resub_ok p d x v s) = to_alive p d (frame s) ∧ grows s (resub_ok p d x v s).
Proof.
  intros Hx. unfold resub_ok. match goal with |- frame (on_inner _ (dval_set d _ ?s2)) = _ ∧ _ => set (s' := s2) end.
  assert (Hq : quiet s s').
  { unfold s'. etrans; [apply quiet_connect_streams|]. destruct (d_sub x); [reflexivity|apply quiet_writes]. }
  destruct (dval_upgrade_quiet _ _ d Hq ltac:(by eexists)) as [y [Hy1 Hy2]%dval_upgrade_some].
  destruct (frame_dval_set d (Dv_Subscribed v) y s' Hy1 Hy2) as [E L]. destruct Hq as [Eq Lq]. rewrite Eq in E.
  split; [|etrans; [exact Lq|exact L]]. unfold to_alive. unfold frame in E |- *. cbn in *. by injection E as -> -> -> -> -> ->.
Qed.

Lemma dur_finish_one now seed p r s : dur s → ∃ s', finish_one now seed p r s = (Ok (), s') ∧ dur_step s s'.
Proof.
  intros Hd. unfold finish_one. set (s1 := on_inner _ s).
  assert (Hlook : ∀ e, dval_upgrade e s1 = dval_upgrade e s) by done.
  destruct (durable_pending (inner_ s) !! p ≫= _) as [[d x]|] eqn:E.
  - apply bind_Some in E as (d' & Hp & (x' & Hx & [= <- <-])%fmap_Some). rewrite Hlook in Hx.
    assert (Hl : live (frame s) d) by (apply live_upgrade; by eexists).
    assert (Hdead : ∃ dd, d_sub x = Dv_Dead dd) by (eapply (upgrade_dead s p d); [done|by right|done]).
    assert (Hfail : ∃ s', resub_failed now seed p d x s1 = (Ok (), s') ∧ dur_step s s').
    { destruct (frame_resub_failed now seed p d x s1 Hx Hdead) as (s' & E' & [t Ef] & En). exists s'. split; [done|].
      apply (dur_changed_at p); [done| |rewrite En; cbn; lia]. rewrite Ef. by eapply changed_pending_dead. }
    destruct r as [v|e]; [|exact Hfail]. destruct Hfail as (s' & Hfail & Hs').
    assert (Hok : ∃ s', (Ok (), resub_ok p d x v s1) = (@Ok unit unit (), s') ∧ dur_step s s').
    { eexists. split; [reflexivity|]. destruct (frame_resub_ok p d x v s1 Hx) as [Ef En].
      apply (dur_changed_at p); [done| |apply En]. rewrite Ef. by eapply changed_pending_alive. }
    destruct (val_last v s1) as [[|]|]; [|exact Hok..]. rewrite Hfail. eexists. split; [reflexivity|].
    eapply dur_step_trans; [done..|]. apply dur_quiet, quiet_val_drop.
  - eexists. split; [reflexivity|].
    assert (H1 : dur_step s s1).
    { apply (dur_changed_at p); [done| |cbn; lia]. eapply changed_no_pending; [done|]. intros e He [y Hy]%live_upgrade.
      cbn in He. rewrite He in E. cbn in E. rewrite Hlook, Hy in E. done. }
    eapply dur_step_trans; [done..|]. apply dur_quiet, quiet_res_drop.
Qed.

(** [update_retry] finds dead subscriptions only. *)
Lemma retry_scan_ok now l retry s : dur s → (∀ p d, (p, d) ∈ l → f_dead (frame s) !! p = Some d) → ∃ t, retry_scan now l retry s = Ok t.
Proof.
  intros Hd. revert retry. induction l as [|[p d] l IH]; intros retry Hl; [by eexists|]. cbn [retry_scan].
  assert (Hl' : ∀ q e, (q, e) ∈ l → f_dead (frame s) !! q = Some e) by (intros q e H; apply Hl; by right).
  destruct (dval_upgrade d s) as [x|] eqn:Hx; [|by apply IH].
  destruct (upgrade_dead s p d x Hd) as [dd ->]; [left; apply Hl; by left|done|]. case_match; [by eexists|by apply IH].
Qed.
Lemma elem_dead_order m p d : (p, d) ∈ dead_order m ↔ m !! p = Some d.
Proof. rewrite dead_order_perm. apply elem_of_map_to_list. Qed.
Lemma update_retry_ok now s : dur s → ∃ t, update_retry now s = Ok t.
Proof. intros Hd. apply retry_scan_ok; [done|]. intros p d. by rewrite elem_dead_order. Qed.
Lemma finish_batch_ok now seed l s : dur s → ∃ t s', finish_resubscription_batch now seed l s = (Ok t, s') ∧ dur_step s s'.
Proof.
  revert seed s. induction l as [|[p r] l IH]; intros seed s Hd; cbn.
  - destruct (update_retry_ok now s Hd) as [t ->]. exists t, s. split; [done|by apply dur_step_refl].
  - destruct (dur_finish_one now seed p r s Hd) as (s1 & -> & H1). destruct (IH (seed + 1) s1 (proj1 H1)) as (t & s' & E & H2).
    exists t, s'. split; [done|]. by eapply dur_step_trans.
Qed.

(** What the scan of [do_resub] finds in the entries [l] *)
Record scanned (l : list (str * DvRef)) (sc sc' : Scan) (s s' : Sub) : Prop := {
  sn_state : ∃ m, s' = on_inner (upd_durable_pending (fun _ => m)) s;
  sn_batch p : p ∈ (sc_batch sc').*1 → p ∈ (sc_batch sc).*1 ∨
    ∃ d, (p, d) ∈ l ∧ live (frame s) d ∧ f_pending (frame s') !! p = Some d;
  sn_dead p : p ∈ sc_dead sc' → p ∈ sc_dead sc ∨ ∃ d, (p, d) ∈ l ∧ ¬ live (frame s) d;
  sn_pending p : f_pending (frame s') !! p = f_pending (frame s) !! p ∨
    (p ∈ (sc_batch sc').*1 ∧ ∃ d, (p, d) ∈ l ∧ live (frame s) d ∧ f_pending (frame s') !! p = Some d);
  sn_more p : p ∈ (sc_batch sc).*1 → p ∈ (sc_batch sc').*1
}.
Lemma scanned_refl l sc s : scanned l sc sc s s.
Proof. split; auto. exists (durable_pending (inner_ s)). by destruct s as [[]]. Qed.
Lemma scanned_step p d l sc1 sc2 sc3 s1 s2 s3 : (∀ e, (p, e) ∈ (p, d) :: l → d = e) →
  scanned [(p, d)] sc1 sc2 s1 s2 → scanned l sc2 sc3 s2 s3 → scanned ((p, d) :: l) sc1 sc3 s1 s3.
Proof.
  intros Hfun [[m1 E1] B1 D1 P1 M1] [[m2 E2] B2 D2 P2 M2].
  assert (Hl : ∀ e, live (frame s2) e ↔ live (frame s1) e) by (intros e; by rewrite E1).
  (* what was pending after the first entry is still *)
  assert (Hkeep : ∀ q e, (q, e) ∈ [(p, d)] → f_pending (frame s2) !! q = Some e → f_pending (frame s3) !! q = Some e).
  { intros q e Hq%list_elem_of_singleton He. injection Hq as -> ->. destruct (P2 p) as [->|(_ & e & He' & _ & ->)]; [done|]. f_equal. symmetry.
    apply Hfun. by right. }
  assert (Hone : ∀ q e, (q, e) ∈ [(p, d)] → (q, e) ∈ (p, d) :: l) by (intros q e ->%list_elem_of_singleton; by left).
  split.
  - exists m2. rewrite E2, E1. done.
  - intros q [Hq|(e & He & Hle & Hp)]%B2; [|right; exists e; rewrite Hl in Hle; split_and!; [by right|done..]].
    apply B1 in Hq as [Hq|(e & He & Hle & Hp)]; [by left|]. right. exists e. split_and!; auto.
  - intros q [Hq|(e & He & Hle)]%D2; [|right; exists e; rewrite Hl in Hle; split; [by right|done]].
    apply D1 in Hq as [Hq|(e & He & Hle)]; [by left|right; exists e; auto].
  - intros q. destruct (P2 q) as [->|(Hb & e & He & Hle & Hp)]; [|right; split; [done|]; exists e; rewrite Hl in Hle; split_and!; [by right|done..]].
    destruct (P1 q) as [->|(Hb & e & He & Hle & Hp)]; [by left|]. right. split; [auto|]. exists e. split_and!; auto.
  - auto.
Qed.
Lemma resub_scan_spec now l sc s :
  (∀ p d x, (p, d) ∈ l → dval_upgrade d s = Some x → ∃ dd, d_sub x = Dv_Dead dd) →
  (∀ p d e, (p, d) ∈ l → (p, e) ∈ l → d = e) →
  ∃ sc' s', resub_scan now l sc s = (Ok sc', s') ∧ scanned l sc sc' s s'.
Proof.
  revert sc s. induction l as [|[p d] l IH]; intros sc s Hdead Hfun.
  { exists sc, s. split; [done|apply scanned_refl]. }
  assert (Hfun1 : ∀ e, (p, e) ∈ (p, d) :: l → d = e) by (intros e; apply Hfun; by left).
  assert (Hnext : ∀ sc1 s1, (∃ m, s1 = on_inner (upd_durable_pending (fun _ => m)) s) → scanned [(p, d)] sc sc1 s s1 →
    ∃ sc' s', resub_scan now l sc1 s1 = (Ok sc', s') ∧ scanned ((p, d) :: l) sc sc' s s').
  { intros sc1 s1 [m ->] H1. edestruct (IH sc1 (on_inner (upd_durable_pending (fun _ => m)) s)) as (sc' & s' & E & H2); [| |exists sc', s'; split; [exact E|by eapply scanned_step]].
    - intros q e x H Hx. apply (Hdead q e x); [by right|exact Hx].
    - intros q e1 e2 He1 He2. apply (Hfun q); by right. }
  assert (Hskip : scanned [(p, d)] sc sc s s) by apply scanned_refl.
  assert (Hsame : ∃ m, s = on_inner (upd_durable_pending (fun _ => m)) s).
  { exists (durable_pending (inner_ s)). by destruct s as [[]]. }
  cbn [resub_scan]. destruct (dval_upgrade d s) as [x|] eqn:Hx.
  - destruct (Hdead p d x) as [dd Hdd]; [by left|done|]. rewrite Hdd. destruct (next_try dd <=? now) eqn:Ht; [|by apply Hnext].
    set (s1 := on_inner (upd_durable_pending <[p := d]>) s).
    set (sc1 := MkScan (sc_dead sc) (sc_batch sc ++ [(p, d_streams x)]) (Z.max (sc_tries sc) (tries dd)) (sc_total sc + 1)).
    assert (Hl : live (frame s) d) by (apply live_upgrade; by eexists).
    assert (Hs1 : s1 = on_inner (upd_durable_pending (fun _ => <[p := d]> (durable_pending (inner_ s)))) s) by done.
    assert (H1 : scanned [(p, d)] sc sc1 s s1).
    { split; [by eexists|..].
      - intros q. cbn. rewrite fmap_app, elem_of_app. cbn. intros [Hq| ->%list_elem_of_singleton]; [by left|].
        right. exists d. split_and!; [by left|done|by rewrite lookup_insert_eq].
      - intros q Hq. by left.
      - intros q. cbn. destruct (decide (p = q)) as [<-|Hne]; [right|left; by rewrite lookup_insert_ne]. split.
        + rewrite fmap_app, elem_of_app. right. by left.
        + exists d. split_and!; [by left|done|by rewrite lookup_insert_eq].
      - intros q Hq. cbn. rewrite fmap_app, elem_of_app. by left. }
    case_match; [|apply Hnext; [by eexists|done]]. exists sc1, s1. split; [done|].
    eapply scanned_step; [done|exact H1|apply scanned_refl].
  - apply Hnext; [done|]. split; [done|..]; cbn; try (intros q; by left); auto.
    intros q. rewrite elem_of_app, list_elem_of_singleton. intros [Hq| ->]; [by left|]. right. exists d. split; [by left|].
    intros [y Hy]%live_upgrade. congruence.
Qed.

Lemma lookup_deletes {A} (l : list str) (m : gmap str A) p : foldr delete m l !! p = if decide (p ∈ l) then None else m !! p.
Proof.
  induction l as [|q l IH]; cbn; [done|]. destruct (decide (q = p)) as [<-|Hne].
  - rewrite lookup_delete_eq. by rewrite decide_True by (by left).
  - rewrite lookup_delete_ne, IH by done. destruct (decide (p ∈ l)); [rewrite decide_True by (by right); done|].
    rewrite decide_False; [done|]. by intros [->|H]%elem_of_cons.
Qed.
Lemma resub_take_ok now s : dur s → ∃ batch timeout s', resub_take now s = (Ok (batch, timeout), s') ∧ dur_step s s' ∧
  mem s' = mem s ∧ statuses (inner_ s') = statuses (inner_ s) ∧
  ∀ p, f_pending (frame s') !! p = f_pending (frame s) !! p ∨ p ∈ batch.*1.
Proof.
  intros Hd. unfold resub_take.
  destruct (resub_scan_spec now (dead_order (durable_dead (inner_ s))) (MkScan [] [] 1 0) s) as (sc & s1 & -> & [[m ->] B D P M]).
  { intros p d x Hp Hx. apply (upgrade_dead s p d x Hd); [left|done]. by apply elem_dead_order. }
  { intros p d e. rewrite !elem_dead_order. congruence. }
  eexists _, _, _. split; [reflexivity|]. split_and!; [|done|done|].
  - eapply (λ a b c d, dur_resub (frame s) _ (next_ref (mem s)) a b c d); [exact Hd|done|done|].
    intros p. unfold resub_moved. cbn. rewrite lookup_deletes. destruct (P p) as [E|(Hb & d & Hin & Hl & E)]; cbn in E; rewrite E.
    + destruct (decide _) as [[Hg|Hg]%elem_of_app|Hg]; [| |by left].
      * right. apply D in Hg as [[]%not_elem_of_nil|(d & Hin & Hl)]. exists d. apply elem_dead_order in Hin. auto.
      * right. apply B in Hg as [[]%not_elem_of_nil|(d & Hin & Hl & E2)]. cbn in E2. exists d. apply elem_dead_order in Hin. rewrite <-E. auto.
    + right. exists d. rewrite decide_True by (apply elem_of_app; auto). apply elem_dead_order in Hin. auto.
  - intros p. destruct (P p) as [E|(Hb & _)]; auto.
Qed.
End Resub.
End Ops.
