(* ===== verification/SubTurn.v ===== *)
(** What the turns of a connection do to the tables: they keep the invariant of the
    durable subscriptions, leave attempts that are pending alone, and do not panic. *)
From Stdlib Require Import ZArith Lia.
From stdpp Require Import base gmap list strings sorting.
From Stdlib Require Import Strings.Byte.
From S2P Require Import Prelude Varint Pack Containers PackTypes Path PathFacts Order Glob Derive Proto.
From S2P Require Import Store Permissions Channel Float Value ValuePack PubProto Publisher PubServer SubChoose Subscriber SubConn SubFacts SubInv.

Section Gentle.
Context {VA : ValueApi}.

(** Keeping the invariant, and the paths that are pending with those who wait for them *)
Definition keeps (s s' : Sub) : Prop :=
  (∀ p ws, statuses (inner_ s') !! p = Some (SS_Pending ws) ↔ statuses (inner_ s) !! p = Some (SS_Pending ws)) ∧
  shots (mem s) (mem s').
Definition mild (s s' : Sub) : Prop := dur s → dur_step s s' ∧ keeps s s'.
(** No durable subscription becomes pending; for one that dies the resubscription task is
    triggered. *)
Record attends (f f' : Frame) (n n' : nat) : Prop := {
  at_pending p d : f_pending f' !! p = Some d → live f' d → f_pending f !! p = Some d;
  at_dead p d t : f_dead f' !! p = Some d → f_kinds f' !! d = Some (true, Some t) →
    (f_dead f !! p = Some d ∧ f_kinds f !! d = Some (true, Some t)) ∨ (0 < n')%nat;
  at_triggers : (n ≤ n')%nat
}.
Definition gentle (s s' : Sub) : Prop :=
  mild s s' ∧ (dur s → attends (frame s) (frame s') (triggers_of s) (triggers_of s')).
Lemma mild_trans s1 s2 s3 : mild s1 s2 → mild s2 s3 → mild s1 s3.
Proof.
  intros H1 H2 Hd. destruct (H1 Hd) as [Hs [K1 T1]], (H2 (proj1 Hs)) as [Hs2 [K2 T2]]. split; [by eapply dur_step_trans|].
  split; [intros p ws; by rewrite K2, K1|by etrans].
Qed.
Lemma quiet_mild s s' : quiet s s' → mild s s'.
Proof.
  intros H Hd. split; [by apply dur_quiet|]. destruct H as [E (_ & _ & T)]. split; [|done]. intros p ws.
  change (statuses (inner_ s')) with (f_statuses (frame s')). by rewrite E.
Qed.
Lemma quiet_gentle s s' : quiet s s' → gentle s s'.
Proof. intros H. split; [by apply quiet_mild|]. intros _. destruct H as [-> (_ & L & _)]. split; auto. Qed.
Lemma gentle_refl s : gentle s s.
Proof. apply quiet_gentle. reflexivity. Qed.
Lemma gentle_trans s1 s2 s3 : gentle s1 s2 → gentle s2 s3 → gentle s1 s3.
Proof.
  intros [M1 A1] [M2 A2]. split; [by eapply mild_trans|]. intros Hd. destruct (M1 Hd) as [[Hd2 _] _]. destruct (M2 Hd2) as [[Hd3 E3] _].
  destruct (A1 Hd) as [P1 D1 T1], (A2 Hd2) as [P2 D2 T2]. split; [|..|lia].
  - intros p d Hp Hl. assert (Hp2 : f_pending (frame s2) !! p = Some d) by auto. apply P1; [done|]. apply (ev_live _ _ E3); [|done].
    eapply (o_entry _ _ Hd2). right; left. exact Hp2.
  - intros p d t Hp Hk. destruct (D2 p d t Hp Hk) as [[H1 H2]|]; [|by right].
    destruct (D1 p d t H1 H2) as [|]; [by left|right; lia].
Qed.
#[export] Instance gentle_preorder : PreOrder gentle.
Proof. split; [exact gentle_refl|exact gentle_trans]. Qed.
Lemma gentle_foldl {A} (f : Sub → A → Sub) l s : (∀ s x, gentle s (f s x)) → gentle s (foldl f s l).
Proof. intros H. revert s. induction l as [|x l IH]; intros s; [reflexivity|]. cbn. etrans; [apply H|apply IH]. Qed.
(** Changes of the values are none of the tables'. *)
Lemma gentle_vals f s : gentle s (on_mem (mem_vals f) s).
Proof.
  split; [intros Hd; split; [by eapply dur_same|by split; [intros p ws|same_shots]]|]. intros _. by split; auto.
Qed.

Lemma gentle_unsubscribe_durable now p s : gentle s (unsubscribe_durable now p s).
Proof.
  split; [intros Hd; split; [by apply dur_unsubscribe_durable|]|].
  - split; [intros q ws|]; unfold unsubscribe_durable; repeat case_match; cbn; rewrite ?statuses_dval_set; try done; exact (shots_dval_set _ _ (on_inner _ s)).
  - intros Hd. assert (Hkill : ∀ d x s1, frame s1 = no_pending p (frame s) ∨ frame s1 = no_alive p (frame s) → triggers_of s1 = triggers_of s →
      dval_upgrade d s1 = Some x → in_tables (frame s) p d →
      let s2 := dval_set d (Dv_Dead (MkDvDead [] [] 0 now)) s1 in
      let s3 := on_inner (upd_trigger_resub S) (on_inner (upd_durable_dead <[p := d]>) s2) in
      attends (frame s) (frame s3) (triggers_of s) (triggers_of s3)).
    { intros d x s1 Hs1 Et Hx Hin s2 s3. pose proof (kind_upgrade _ _ _ Hx) as Hkd. apply dval_upgrade_some in Hx as [Hx1 Hx2].
      destruct (frame_dval_set d (Dv_Dead (MkDvDead [] [] 0 now)) x s1 Hx1 Hx2) as [E [_ L]]. fold s2 in E, L.
      assert (Hpend : ∀ q e, f_pending (frame s3) !! q = Some e → f_pending (frame s) !! q = Some e).
      { intros q e. change (f_pending (frame s3)) with (f_pending (frame s2)). rewrite E. cbn [f_pending].
        destruct Hs1 as [Es|Es]; rewrite Es; [|done]. intros Hq. cbn in Hq. by apply lookup_delete_Some in Hq as [_ Hq]. }
      split; [intros q e Hq _; by apply Hpend|..]; unfold triggers_of in *; cbn in *; [intros; right; lia|lia]. }
    unfold unsubscribe_durable.
    destruct (durable_alive (inner_ s) !! p) as [d|] eqn:Ha; [|destruct (durable_pending (inner_ s) !! p) as [d|] eqn:Hp; [|by split; auto]].
    + set (s1 := on_inner _ s). destruct (dval_upgrade d s1) as [x|] eqn:Hx; [|by split; auto].
      apply (Hkill d x s1); [by right|done|done|]. right; by right.
    + set (s1 := on_inner _ s). destruct (dval_upgrade d s1) as [x|] eqn:Hx.
      * apply (Hkill d x s1); [by left|done|done|]. right; by left.
      * split; auto. intros q e Hq _. cbn in Hq. by apply lookup_delete_Some in Hq as [_ Hq].
Qed.
Lemma gentle_unsubscribe_status p id conid s : gentle s (unsubscribe_status p id conid s).
Proof.
  assert (Hdel : (∀ ws, statuses (inner_ s) !! p ≠ Some (SS_Pending ws)) → gentle s (on_inner (upd_statuses (delete p)) s)).
  { intros Hn. split; [intros Hd; split; [by eapply dur_same|]|by split; auto].
    split; [|same_shots]. intros q ws. cbn. destruct (decide (p = q)) as [<-|Hne]; [|by rewrite lookup_delete_ne].
    rewrite lookup_delete_eq. split; [done|]. by intros ?%Hn. }
  unfold unsubscribe_status. destruct (statuses (inner_ s) !! p) as [[v|ws]|] eqn:E; try reflexivity.
  destruct (val_upgrade v s); [case_decide; [|reflexivity]|]; apply Hdel; by intros ws [=].
Qed.
End Gentle.

Section Turns.
Context {ES : Escaping} {LY : Layout} {VA : ValueApi} {CM : ChunkMap}.
Context (reg : Registry) (next_wid : WriteId).

(** A handler that is gentle and does not panic *)
Definition calm_hnd (m : chnd) : Prop := ∀ c, gentle (cs_sub c) (cs_sub (m c).2) ∧ (m c).1 ≠ Panic.
Definition calm_upd (f : CState → CState) : Prop := ∀ c, gentle (cs_sub c) (cs_sub (f c)).
Lemma calm_cret : calm_hnd cret.
Proof. intros c. split; [reflexivity|done]. Qed.
Lemma calm_cupd f : calm_upd f → calm_hnd (cupd f).
Proof. intros H c. split; [apply H|done]. Qed.
Lemma calm_cseq m k : calm_hnd m → calm_hnd k → calm_hnd (cseq m k).
Proof.
  intros Hm Hk c. unfold cseq. destruct (Hm c) as [H1 H2]. destruct (m c) as [[[]| |] c1]; [|done|done].
  destruct (Hk c1) as [H3 H4]. split; [by etrans|done].
Qed.
Lemma calm_citer {A} (f : A → chnd) l : (∀ x, x ∈ l → calm_hnd (f x)) → calm_hnd (citer f l).
Proof.
  induction l as [|x l IH]; intros H; [apply calm_cret|]. apply calm_cseq; [apply H; by left|]. apply IH. intros y Hy. apply H. by right.
Qed.
Lemma calm_con_send m : calm_hnd (con_send reg next_wid m).
Proof. intros c. unfold con_send. by case_match; split; try reflexivity. Qed.
Lemma calm_c_ctx f : calm_upd (c_ctx f).
Proof. intros c. reflexivity. Qed.
Lemma calm_c_stream l : calm_upd (c_stream l).
Proof. intros c. reflexivity. Qed.
Lemma calm_compose f g : calm_upd f → calm_upd g → calm_upd (fun c => g (f c)).
Proof. intros Hf Hg c. etrans; [apply Hf|apply Hg]. Qed.
Lemma calm_fold {A} (f : CState → A → CState) l : (∀ x, calm_upd (fun c => f c x)) → calm_upd (fun c => foldl f c l).
Proof.
  intros H. induction l as [|x l IH]; intros c; [reflexivity|]. cbn. etrans; [apply (H x)|apply IH].
Qed.
Lemma calm_finish w r : calm_upd (finish w r).
Proof. intros c. apply quiet_gentle, quiet_oneshot_send. Qed.

Lemma calm_heartbeat now : calm_hnd (handle_heartbeat now).
Proof.
  intros c. unfold handle_heartbeat. case_match; [by split|]. split; [|done]. cbn.
  match goal with |- gentle _ (cs_sub (foldl ?f ?c0 ?l)) => apply (calm_fold f l (fun x => calm_finish _ _) c0) end.
Qed.
Lemma calm_connect_stream id tx flags : calm_upd (handle_connect_stream id tx flags).
Proof.
  intros c. unfold handle_connect_stream. destruct (subscriptions (cs_ctx c) !! id); [|reflexivity].
  repeat case_match; reflexivity.
Qed.
Lemma calm_connect_all id streams : calm_upd (connect_all id streams).
Proof. apply calm_fold. intros [f tx]. apply calm_connect_stream. Qed.
Lemma gentle_chan_log f s : gentle s (on_mem (mem_chan_log f) s).
Proof. apply quiet_gentle. by apply quiet_mem_fields. Qed.
Lemma calm_send_chan e : calm_upd (fun c => send_chan c e).
Proof.
  intros c. unfold send_chan. destruct e as [id [tx [|ev b]]]; [reflexivity|].
  repeat case_match; try reflexivity. apply (gentle_chan_log _ (cs_sub c)).
Qed.
Lemma calm_send_updates : calm_upd send_updates.
Proof. intros c. unfold send_updates. apply (calm_fold send_chan _ calm_send_chan). Qed.
Lemma gentle_set_sub_last sub e s : gentle s (set_sub_last sub e s).
Proof. unfold set_sub_last. case_match; [apply gentle_vals|reflexivity]. Qed.
Lemma calm_apply_update id sub v : calm_upd (apply_update id sub v).
Proof. intros c. unfold apply_update. apply (gentle_set_sub_last _ _ (cs_sub c)). Qed.
Lemma calm_fast_update i v : calm_hnd (fast_update (From_Update i v)).
Proof. intros c. cbn. case_match; (split; [|done]); [apply calm_apply_update|reflexivity]. Qed.
Lemma calm_process_updates l : (∀ m, m ∈ l → ∃ i v, m = From_Update i v) → calm_hnd (process_updates_batch l).
Proof.
  intros H. apply calm_cseq; [|apply calm_cupd, calm_send_updates]. apply calm_citer. intros m (i & v & ->)%H. apply calm_fast_update.
Qed.
Lemma calm_stream_batch f : calm_upd f → calm_hnd (process_stream_batch f).
Proof.
  intros Hf c. unfold process_stream_batch. destruct (cs_stream c) as [|[i v] l] eqn:E; [split; [apply Hf|done]|].
  apply (calm_process_updates _) with (c := c_stream [] c). intros m (iv & -> & _)%list_elem_of_fmap. destruct iv. by eexists _, _.
Qed.
Lemma calm_to_con m : calm_hnd (handle_to_con reg next_wid m).
Proof.
  destruct m as [req|id|id tx flags|id v wid tx|w]; cbn [handle_to_con].
  - intros c. cbn zeta. set (c1 := c_ctx _ c). set (c2 := match _ with Some r => _ | None => _ end).
    assert (H : gentle (cs_sub c) (cs_sub c2)).
    { unfold c2. case_match; [apply quiet_gentle, (quiet_sender_drop _ (cs_sub c))|reflexivity]. }
    destruct (calm_con_send (To_Subscribe (req_path req) (req_resolver req) (req_timestamp req) (req_permissions req) (req_token req)) c2) as [H1 H2].
    split; [by etrans|done].
  - apply calm_con_send.
  - apply calm_cupd, calm_connect_stream.
  - apply calm_cseq; [apply calm_con_send|]. destruct tx; [apply calm_cupd, calm_c_ctx|apply calm_cret].
  - apply calm_cupd, calm_c_ctx.
Qed.
Lemma quiet_to_con_drop m s : quiet s (to_con_drop m s).
Proof. destruct m; try reflexivity; [apply quiet_sender_drop|apply quiet_wake]. Qed.
Lemma calm_to_cons l : calm_hnd (handle_to_cons reg next_wid l).
Proof.
  induction l as [|m l IH]; intros c; [split; [reflexivity|done]|]. cbn [handle_to_cons].
  destruct (calm_to_con m c) as [H1 H2]. destruct (handle_to_con reg next_wid m c) as [[u|e|] c1]; [| |done].
  - destruct (IH c1) as [H3 H4]. split; [by etrans|done].
  - split; [|done]. cbn. etrans; [exact H1|]. apply quiet_gentle, quiet_foldl. intros s x. apply quiet_to_con_drop.
Qed.
Lemma calm_from_sub l : calm_hnd (handle_from_sub reg next_wid l).
Proof.
  intros c. unfold handle_from_sub. apply (calm_cseq _ _ (calm_to_cons l) (calm_stream_batch (fun c => c) (fun c => gentle_refl (cs_sub c))) (c_stream [] c)).
Qed.

Lemma calm_con_unsubscribe now sub id : calm_upd (con_unsubscribe now sub id).
Proof.
  intros c. unfold con_unsubscribe. cbn. etrans; [apply gentle_set_sub_last|].
  etrans; [apply gentle_unsubscribe_durable|apply gentle_unsubscribe_status].
Qed.
Lemma calm_subscribed_new req id v : calm_hnd (subscribed_new reg next_wid req id v).
Proof.
  intros c. unfold subscribed_new. destruct (new_ref (cs_sub c)) as [r s] eqn:E.
  assert (H0 : gentle (cs_sub c) s) by (pose proof (quiet_gentle _ _ (quiet_new_ref (cs_sub c))) as H; by rewrite E in H).
  set (s1 := on_mem _ s). assert (H1 : gentle (cs_sub c) s1) by (etrans; [exact H0|apply gentle_vals]).
  pose proof (quiet_gentle _ _ (quiet_oneshot_send (req_finished req) (Got r) s1)) as H2.
  destruct (oneshot_send (req_finished req) (Got r) s1) as [sent s2]. cbn in H2.
  set (c1 := c_sub (fun _ => s2) c). assert (H3 : gentle (cs_sub c) (cs_sub c1)) by (by etrans).
  set (m := if sent then _ else _). assert (H4 : gentle (cs_sub c1) (cs_sub m.2) ∧ m.1 ≠ Panic).
  { unfold m. destruct sent; [split; [reflexivity|done]|apply calm_con_send]. }
  clearbody m. destruct m as [[u|e|] c2], H4 as [H4 H5]; [| |done]; (split; [|done]); cbn in *; (etrans; [exact H3|]); (etrans; [exact H4|]).
  - etrans; [apply (calm_connect_all id (req_streams req) c2)|]. apply quiet_gentle, quiet_val_drop.
  - apply quiet_gentle, quiet_val_drop.
Qed.
Lemma calm_from now m : calm_hnd (handle_from reg next_wid now m).
Proof.
  destruct m as [p|p|id|p id v|id v| |id v wid]; cbn [handle_from].
  - apply calm_cupd. intros c. cbn. case_match; [apply (calm_finish _ _ (c_ctx (cx_pending (delete p)) c))|reflexivity].
  - apply calm_cupd. intros c. cbn. case_match; [apply (calm_finish _ _ (c_ctx (cx_pending (delete p)) c))|reflexivity].
  - apply calm_cupd. intros c. case_match; [|reflexivity]. apply (calm_con_unsubscribe now _ id (c_ctx _ c)).
  - intros c. unfold take_pending. cbv beta iota zeta. destruct (pending (cs_ctx c) !! p) as [req|]; [|apply (calm_con_send (To_Unsubscribe id) (c_ctx (cx_pending (delete p)) c))].
    set (c1 := c_ctx (cx_pending (delete p)) c). destruct (subscriptions _ !! id) as [sub|]; [|apply (calm_subscribed_new req id v c1)].
    destruct (val_upgrade _ _); (split; [|done]); [|apply (calm_finish _ _ c1)].
    etrans; [apply quiet_gentle, (quiet_val_clone (cs_val sub) (cs_sub c1))|].
    etrans; [|apply calm_finish]. apply (calm_connect_all id (req_streams req) (c_sub (val_clone (cs_val sub)) c1)).
  - intros c. destruct (subscriptions _ !! id); [split; [apply calm_apply_update|done]|apply calm_con_send].
  - apply calm_cret.
  - apply calm_cupd. intros c. destruct (_ !! id) as [tbl|]; [|reflexivity].
    destruct (tbl !! wid); [|reflexivity]. apply quiet_gentle. by apply (quiet_mem_fields _ (cs_sub c)).
Qed.
Lemma calm_process_batch now l : calm_hnd (process_batch reg next_wid now l).
Proof.
  intros c. unfold process_batch. apply (calm_cseq _ _ (calm_citer _ l (fun m _ => calm_from now m))
    (calm_stream_batch send_updates calm_send_updates) (c_stream [] c)).
Qed.

(** ** Turns and ends *)

Lemma gentle_idle c : gentle (cs_sub c) (cs_sub (maybe_disconnect_idle c).2).
Proof. unfold maybe_disconnect_idle. case_match; [|reflexivity]. apply quiet_gentle, (quiet_remove_connection _ _ (cs_sub c)). Qed.
Lemma only_updates_spec l m : only_updates l = true → m ∈ l → ∃ i v, m = From_Update i v.
Proof.
  unfold only_updates. rewrite forallb_forall. intros H Hm%list_elem_of_In. specialize (H m Hm).
  destruct m; try done. by eexists _, _.
Qed.
Lemma calm_turn r c : let o := con_turn reg next_wid r c in gentle (cs_sub c) (cs_sub o.2) ∧ o.1.2 ≠ Panic.
Proof.
  assert (Hkeep : ∀ m c1, calm_hnd m → gentle (cs_sub c) (cs_sub c1) →
    let o := match m c1 with (Ok _, c) => ([], Ok true, c) | (Err e, c) => ([], Err e, c) | (Panic, c) => ([], Panic, c) end : list To * res ConError bool * CState in
    gentle (cs_sub c) (cs_sub o.2) ∧ o.1.2 ≠ Panic).
  { intros m c1 Hm H1. destruct (Hm c1) as [H2 H3]. destruct (m c1) as [[u|e|] c2]; [| |done]; (split; [by etrans|done]). }
  assert (Hcheck : ∀ m c1, calm_hnd m → gentle (cs_sub c) (cs_sub c1) →
    let o := match m c1 with (Ok _, c) => let '(b, c) := maybe_disconnect_idle c in ([], Ok b, c) | (Err e, c) => ([], Err e, c) | (Panic, c) => ([], Panic, c) end : list To * res ConError bool * CState in
    gentle (cs_sub c) (cs_sub o.2) ∧ o.1.2 ≠ Panic).
  { intros m c1 Hm H1. destruct (Hm c1) as [H2 H3]. destruct (m c1) as [[u|e|] c2]; [| |done]; [|split; [by etrans|done]].
    pose proof (gentle_idle c2) as H4. destruct (maybe_disconnect_idle c2) as [b c3]. split; [|done]. etrans; [exact H1|]. by etrans. }
  destruct r as [|[|]|now|i|now l|e]; cbn [con_turn].
  - destruct (queue _ _) as [[|m q]|]; try (split; [reflexivity|done]). apply Hkeep; [apply calm_from_sub|].
    apply quiet_gentle. by apply (quiet_mem_fields _ (cs_sub c)).
  - split; [|done]. apply quiet_gentle, (quiet_wake _ (cs_sub c)).
  - by split.
  - apply Hcheck; [apply calm_heartbeat|reflexivity].
  - destruct (_ !! i) as [[tx b]|]; [|by split]. split; [|done]. cbn. case_match; [reflexivity|]. apply (gentle_chan_log _ (cs_sub c)).
  - destruct (blocked_channels _); [|by split]. case_match eqn:E.
    + apply Hkeep; [|reflexivity]. apply calm_process_updates. intros m. by apply only_updates_spec.
    + apply Hcheck; [apply calm_process_batch|reflexivity].
  - by split.
Qed.
Lemma quiet_close_queue conid s : quiet s (close_queue conid s).
Proof.
  unfold close_queue. etrans; [|apply quiet_foldl; intros; apply quiet_to_con_drop]. by apply quiet_mem_fields.
Qed.
Lemma gentle_finish now c : gentle (cs_sub c) (con_finish reg next_wid now c).
Proof.
  unfold con_finish. match goal with |- context [process_batch _ _ now ?l c] => destruct (calm_process_batch now l c) as [H1 _];
    destruct (process_batch reg next_wid now l c) as [o c1] end.
  cbn in H1. etrans; [exact H1|]. apply quiet_gentle. etrans; [|apply quiet_close_queue]. etrans; [|apply quiet_wake].
  apply quiet_foldl. intros s [p req]. destruct o; [apply quiet_oneshot_send|apply quiet_sender_drop..].
Qed.
Lemma quiet_con_cleanup now addr conid failed s : quiet s (con_cleanup now addr conid failed s).
Proof. unfold con_cleanup. case_match; [etrans; [|apply quiet_recently_failed]|]; apply quiet_remove_connection. Qed.
End Turns.
