(* ===== verification/SubSysInv.v ===== *)
(** The subscription attempts: each path that is pending has at most one attempt that
    will settle it, and no run of the subscriber reaches an [unreachable!]. *)
From Stdlib Require Import ZArith Lia.
From stdpp Require Import base gmap list strings sorting.
From Stdlib Require Import Strings.Byte.
From S2P Require Import Prelude Varint Pack Containers PackTypes Path PathFacts Order Glob Derive Proto.
From S2P Require Import Store Permissions Channel Float Value ValuePack PubProto Publisher PubServer.
From S2P Require Import SubChoose Subscriber SubConn SubSystem SubFacts SubInv SubTurn.

Section Attempts.
Context {VA : ValueApi} {R : Rand} (interfaces : list Interface).

(** The states of a path whose attempt settles it *)
Definition owner (st : St) : Prop :=
  match st with St_Resolve _ | St_Subscribing _ | St_Error _ => True | St_WaitingOther _ _ | St_Subscribed _ _ => False end.
Definition is_pending (s : Sub) (p : str) : Prop := ∃ ws, statuses (inner_ s) !! p = Some (SS_Pending ws).

(** ** The beginning of a call *)

(** Only the statuses may change. *)
Definition tables_same (s s' : Sub) : Prop :=
  f_dead (frame s') = f_dead (frame s) ∧ f_pending (frame s') = f_pending (frame s) ∧ f_alive (frame s') = f_alive (frame s) ∧
  f_kinds (frame s') = f_kinds (frame s) ∧ grows s s'.
#[export] Instance tables_same_preorder : PreOrder tables_same.
Proof.
  split; [by intros s|]. intros s1 s2 s3 (A1 & A2 & A3 & A4 & A5) (B1 & B2 & B3 & B4 & B5). split_and!; [congruence..|by etrans].
Qed.
Lemma quiet_tables s s' : quiet s s' → tables_same s s'.
Proof. intros [E L]. unfold tables_same. by rewrite E. Qed.
Lemma dur_tables s s' : tables_same s s' → dur s → dur_step s s'.
Proof.
  intros (H1 & H2 & H3 & H4 & L) Hd. destruct (dur_same (frame s) (frame s') _ H1 H2 H3 H4 Hd) as [H5 H6]. split; [eapply dur_mono; [done|apply L]|done].
Qed.
Lemma quiet_statuses s s' : quiet s s' → statuses (inner_ s') = statuses (inner_ s).
Proof. intros [E _]. exact (f_equal f_statuses E). Qed.

(** What one path of a batch does *)
Lemma init_path_spec p streams pending s : let '(pending', s') := init_path p streams pending s in
  tables_same s s' ∧ (∀ q, is_pending s q → is_pending s' q) ∧
  ∃ st, pending' = <[p := st]> pending ∧ (owner st → is_pending s' p ∧ ¬ is_pending s p).
Proof.
  assert (Hfresh : ¬ is_pending s p →
    let s' := on_inner (upd_statuses <[p := SS_Pending []]>) s in
    tables_same s s' ∧ (∀ q, is_pending s q → is_pending s' q) ∧
    ∃ st, <[p := St_Resolve streams]> pending = <[p := st]> pending ∧ (owner st → is_pending s' p ∧ ¬ is_pending s p)).
  { intros Hn s'. split; [by split_and!; try done; split|]. split.
    - intros q Hq. destruct (decide (p = q)) as [<-|Hne]; [done|]. unfold is_pending, s'. cbn. by rewrite lookup_insert_ne.
    - eexists. split; [reflexivity|]. intros _. split; [|done]. exists []. unfold s'. cbn. by rewrite lookup_insert_eq. }
  unfold init_path. destruct (statuses (inner_ s) !! p) as [[v|ws]|] eqn:E.
  - assert (Hn : ¬ is_pending s p) by (intros [ws Hws]; congruence). destruct (val_upgrade v s); [|by apply Hfresh].
    split; [apply quiet_tables, quiet_val_clone|]. split; [done|]. eexists. split; [reflexivity|done].
  - destruct (oneshot s) as [w s1] eqn:E1. pose proof (quiet_oneshot s) as Hq. rewrite E1 in Hq. cbn in Hq.
    split; [etrans; [by apply quiet_tables|by split_and!; try done; split]|]. split; [|eexists; split; [reflexivity|done]].
    intros q [ws' Hq']. unfold is_pending. cbn. rewrite (quiet_statuses _ _ Hq).
    destruct (decide (p = q)) as [<-|Hne]; [rewrite lookup_insert_eq; by eexists|rewrite lookup_insert_ne by done; by eexists].
  - apply Hfresh. intros [ws Hws]. congruence.
Qed.
Lemma quiet_pending s s' q : quiet s s' → is_pending s' q ↔ is_pending s q.
Proof. intros H. unfold is_pending. by rewrite (quiet_statuses _ _ H). Qed.
(** An attempt of the batch owns a path that was not pending. *)
Lemma init_batch_spec batch pending s : let '(pending', s') := init_batch batch pending s in
  tables_same s s' ∧ (∀ q, is_pending s q → is_pending s' q) ∧
  (∀ q st, pending' !! q = Some st → owner st → pending !! q = Some st ∨ (is_pending s' q ∧ ¬ is_pending s q)).
Proof.
  revert pending s. induction batch as [|[p streams] batch IH]; intros pending s; [split_and!; auto; reflexivity|].
  cbn [init_batch]. pose proof (init_path_spec p streams pending s) as H. destruct (init_path p streams pending s) as [pending1 s1].
  destruct H as (T1 & P1 & st1 & -> & O1).
  match goal with |- context [init_batch batch _ ?s] => set (s2 := s) end.
  assert (Hq : quiet s1 s2) by (unfold s2; case_match; [apply quiet_st_drop|reflexivity]).
  specialize (IH (<[p := st1]> pending) s2). destruct (init_batch batch _ s2) as [pending' s'] eqn:E. destruct IH as (T2 & P2 & O2).
  assert (Hp : ∀ q, is_pending s1 q → is_pending s' q) by (intros q H; by apply P2, (quiet_pending _ _ q Hq)).
  split_and!.
  - etrans; [exact T1|]. etrans; [by apply quiet_tables|exact T2].
  - auto.
  - intros q st Hl Ho. destruct (O2 q st Hl Ho) as [H|[H1 H2]].
    + destruct (decide (p = q)) as [<-|Hne]; [|rewrite lookup_insert_ne in H by done; by left].
      rewrite lookup_insert_eq in H. injection H as ->. destruct (O1 Ho). right. auto.
    + right. split; [done|]. intros Hp0. apply H2, (quiet_pending _ _ q Hq). auto.
Qed.

(** ** The answer of the resolver *)

Definition resolve_entry (pending : gmap str St) (p : str) : Prop := ∃ streams, pending !! p = Some (St_Resolve streams).
Definition settled (st : St) : Prop := owner st ∧ ¬ is_resolve st.
Ltac settle := eexists _, _; split; [reflexivity|split; [exact I|by intros []]].
Lemma resolve_path_spec publishers deadline seed p r pending s : resolve_entry pending p →
  ∃ st s', resolve_path interfaces publishers deadline seed p r pending s = (Ok (<[p := st]> pending), s') ∧ settled st.
Proof.
  intros [streams Hp]. unfold resolve_path. case_bool_decide; [settle|]. destruct (choose_from _ _ _ _ _) as [ch|]; [|settle].
  destruct (match durable_id p s with Some i => (i, s) | None => SubId_new s end) as [i s1].
  destruct (connection_for ch s1) as [con s2]. destruct (oneshot s2) as [w s3]. rewrite Hp.
  destruct (send con _ s3) as [[|] s4]; settle.
Qed.
Lemma resolve_paths_spec publishers deadline seed l pending s : NoDup l.*1 → (∀ p, p ∈ l.*1 → resolve_entry pending p) →
  ∃ pending' s', resolve_paths interfaces publishers deadline seed l pending s = (Ok pending', s') ∧
    ∀ p, if decide (p ∈ l.*1) then ∃ st, pending' !! p = Some st ∧ settled st else pending' !! p = pending !! p.
Proof.
  revert seed pending s. induction l as [|[p r] l IH]; intros seed pending s Hnd Hl; [by eexists _, _|].
  cbn in Hnd. apply NoDup_cons in Hnd as [Hp Hnd]. cbn [resolve_paths].
  destruct (resolve_path_spec publishers deadline seed p r pending s) as (st & s1 & -> & Hst); [apply Hl; by left|].
  destruct (IH (seed + 1) (<[p := st]> pending) s1 Hnd) as (pending' & s' & -> & H).
  { intros q Hq. destruct (Hl q) as [streams E]; [by right|]. exists streams. rewrite lookup_insert_ne; [done|]. by intros ->. }
  eexists _, _. split; [reflexivity|]. intros q. specialize (H q). cbn.
  destruct (decide (q ∈ l.*1)) as [Hq|Hq].
  - by rewrite decide_True by (by right).
  - destruct (decide (q = p)) as [->|Hne].
    + rewrite decide_True by (by left). rewrite H, lookup_insert_eq. by exists st.
    + rewrite decide_False by (by intros [->|]%elem_of_cons). by rewrite H, lookup_insert_ne.
Qed.
(** After it no path of the call waits for it, and the attempts own what they owned. *)
Lemma subscribe_resolved_spec start timeout seed reply pending s :
  match reply with RR_Ok _ l => NoDup l.*1 ∧ (∀ p, p ∈ l.*1 ↔ resolve_entry pending p) | _ => True end →
  ∃ pending' s', subscribe_resolved interfaces start timeout seed reply pending s = (Ok pending', s') ∧ quiet s s' ∧
    ∀ p st, pending' !! p = Some st → ¬ is_resolve st ∧ (owner st → ∃ st0, pending !! p = Some st0 ∧ owner st0).
Proof.
  intros Hr. pose proof (quiet_subscribe_resolved interfaces start timeout seed reply pending s) as Hq.
  assert (Hfail : ∀ e p st, fail_all e pending !! p = Some st → ¬ is_resolve st ∧ (owner st → ∃ st0, pending !! p = Some st0 ∧ owner st0)).
  { intros e p st. unfold fail_all. rewrite lookup_fmap. destruct (pending !! p) as [st0|]; [|done]. cbn. intros [= <-].
    case_decide as Hd; [|split; [done|eauto]]. split; [by intros []|]. intros _. exists st0. split; [done|]. by destruct st0. }
  destruct reply as [| |publishers l]; cbn [subscribe_resolved] in *; [by eexists _, _; split; [reflexivity|]; split; [|apply Hfail]..|].
  destruct Hr as [Hnd Hl]. destruct (resolve_paths_spec publishers ((fun t => start + t) <$> timeout) seed l pending s Hnd) as (pending' & s' & E & H).
  { intros p Hp. by apply Hl. }
  rewrite E in *. eexists _, _. split; [reflexivity|]. split; [done|]. intros p st Hp. specialize (H p).
  destruct (decide (p ∈ l.*1)) as [Hin|Hin].
  - destruct H as (st' & E' & Ho & Hn). rewrite E' in Hp. injection Hp as ->. split; [done|]. intros _.
    apply Hl in Hin as [streams E2]. by eexists.
  - rewrite H in Hp. split; [|eauto]. intros Hr. destruct st; try done. apply Hin, Hl. by eexists.
Qed.

(** ** The end of an attempt *)

Lemma wait_result_spec p st s : ¬ is_resolve st → (owner st → is_pending s p) →
  match wait_result p st s with
  | None => True
  | Some (o, s') => ∃ r, o = Ok r ∧ tables_same s s' ∧
      (∀ q ws, (q ≠ p ∨ ¬ owner st) → statuses (inner_ s') !! q = Some (SS_Pending ws) ↔ statuses (inner_ s) !! q = Some (SS_Pending ws))
  end.
Proof.
  intros Hr Ho. assert (Hq : ∀ s', quiet s s' → tables_same s s' ∧
    ∀ q ws, (q ≠ p ∨ ¬ owner st) → statuses (inner_ s') !! q = Some (SS_Pending ws) ↔ statuses (inner_ s) !! q = Some (SS_Pending ws)).
  { intros s' H. split; [by apply quiet_tables|]. intros q ws _. by rewrite (quiet_statuses _ _ H). }
  assert (Hst : ∀ f ws r s1, quiet s s1 → owner st → (∀ q, q ≠ p → f (statuses (inner_ s)) !! q = statuses (inner_ s) !! q) →
    let s' := tell_waiters r ws (on_inner (upd_statuses f) s1) in tables_same s s' ∧
    ∀ q ws, (q ≠ p ∨ ¬ owner st) → statuses (inner_ s') !! q = Some (SS_Pending ws) ↔ statuses (inner_ s) !! q = Some (SS_Pending ws)).
  { intros f ws r s1 H1 Hown Hf s'. pose proof (quiet_tell_waiters r ws (on_inner (upd_statuses f) s1)) as H2. split.
    - etrans; [by apply quiet_tables|]. etrans; [|apply quiet_tables, H2]. by split_and!; try done; split.
    - intros q ws' [Hne|]; [|done]. unfold s'. rewrite (quiet_statuses _ _ H2). cbn. by rewrite (quiet_statuses _ _ H1), Hf. }
  destruct st as [streams|w|w streams|v streams|e]; cbn [wait_result]; [by destruct Hr| | | |].
  - destruct (oneshots (mem s) !! w) as [[|r|]|]; [done|..].
    all: destruct (Ho I) as [ws Hws]; set (s1 := on_mem _ s); assert (Q1 : quiet s s1) by apply quiet_oneshots.
    all: change (statuses (inner_ s1)) with (statuses (inner_ s)); rewrite Hws; eexists; (split; [reflexivity|]); apply Hst; [done|done|].
    all: intros q Hne; try destruct r; by rewrite ?lookup_insert_ne, ?lookup_delete_ne by done.
  - destruct (oneshots (mem s) !! w) as [[|r|]|]; [done|..].
    + eexists. split; [reflexivity|]. apply Hq. destruct r; [etrans; [apply quiet_oneshots|apply quiet_connect_streams]|apply quiet_oneshots].
    + eexists. split; [reflexivity|]. apply Hq, quiet_oneshots.
    + eexists. split; [reflexivity|]. apply Hq, quiet_oneshots.
  - eexists. split; [reflexivity|]. apply Hq, quiet_connect_streams.
  - destruct (Ho I) as [ws Hws]. rewrite Hws. eexists. split; [reflexivity|]. apply Hst; [done|done|].
    intros q Hne. by rewrite lookup_delete_ne.
Qed.
End Attempts.

(** ** The machine *)

Section System.
Context {ES : Escaping} {LY : Layout} {VA : ValueApi} {CM : ChunkMap} {R : Rand} {O : SubOrder} {OOK : SubOrderOk O}.
Context (reg : Registry) (next_wid : WriteId) (interfaces : list Interface) (desired : DesiredAuth).

(** An attempt of a call settles the path. *)
Definition owns (y : SubSys) (id : Z) (p : str) : Prop :=
  ∃ c st, calls y !! id = Some c ∧ cl_paths c !! p = Some st ∧ owner st.
Record sys_ok (y : SubSys) : Prop := {
  so_dur : dur (ss y);
  so_next id c : calls y !! id = Some c → id < next_call y;
  so_resolved id c p st : calls y !! id = Some c → cl_resolving c = false → cl_paths c !! p = Some st → ¬ is_resolve st;
  so_owner id p : owns y id p → is_pending (ss y) p;
  so_unique id id' p : owns y id p → owns y id' p → id = id';
  so_fine : crashed y = false
}.
(** What a step guarantees *)
Definition sys_step_ok (y y' : SubSys) : Prop := sys_ok y' ∧ evolves (frame (ss y)) (frame (ss y')).
Lemma sys_step_refl y : sys_ok y → sys_step_ok y y.
Proof. intros H. split; [done|apply evolves_refl]. Qed.
Lemma sys_step_trans y1 y2 y3 : sys_ok y1 → sys_step_ok y1 y2 → (sys_ok y2 → sys_step_ok y2 y3) → sys_step_ok y1 y3.
Proof. intros H1 [H2 E2] H. destruct (H H2) as [H3 E3]. split; [done|]. eapply evolves_trans; [apply (so_dur _ H1)|done..]. Qed.

Lemma sys_ok_mild y y' : sys_ok y → mild (ss y) (ss y') → calls y' = calls y → next_call y' = next_call y →
  crashed y' = crashed y → sys_step_ok y y'.
Proof.
  intros [Hd Hn Hr Ho Hu Hf] Hg Ec En Ef. destruct (Hg Hd) as [[Hd' Hev] Hk].
  assert (Hown : ∀ id p, owns y' id p ↔ owns y id p) by (intros id p; unfold owns; by rewrite Ec).
  split; [split|done].
  - done.
  - rewrite Ec, En. exact Hn.
  - rewrite Ec. exact Hr.
  - intros id p [ws Hws]%Hown%Ho. exists ws. by apply Hk.
  - intros id id' p H1%Hown H2%Hown. by eapply Hu.
  - by rewrite Ef.
Qed.

(** Either nothing but the trigger and the dead table changes, or the path has a
    subscription that is held. *)
Lemma subscribe_shape now p updates s : let s' := (subscribe_internal now p updates s).2 in
  statuses (inner_ s') = statuses (inner_ s) ∧ durable_pending (inner_ s') = durable_pending (inner_ s) ∧
  (quiet s s' ∨ triggers_of s' = S (triggers_of s)).
Proof.
  unfold subscribe_internal. destruct (durable_entry p (inner_ s)) as [d|]; [|by split_and!; auto].
  destruct (dval_upgrade d s); [|by split_and!; auto]. cbn [snd].
  match goal with |- context [foldl ?f ?a ?b] => assert (H : quiet s (foldl f a b)) end.
  { etrans; [apply quiet_dval_clone|]. apply quiet_foldl. intros s' [g tx]. apply quiet_dval_updates. }
  pose proof H as [E _]. split; [exact (f_equal f_statuses E)|]. split; [exact (f_equal f_pending E)|by left].
Qed.
Lemma shots_subscribe now p updates s : shots (mem s) (mem (subscribe_internal now p updates s).2).
Proof.
  unfold subscribe_internal. destruct (durable_entry p (inner_ s)) as [d|]; [|cbn; same_shots].
  destruct (dval_upgrade d s); [|cbn; same_shots]. cbn [snd].
  match goal with |- context [foldl ?f ?a ?b] => assert (H : quiet s (foldl f a b)) end; [|apply H].
  etrans; [apply quiet_dval_clone|]. apply quiet_foldl. intros s' [g tx]. apply quiet_dval_updates.
Qed.
Lemma dval_drop_shape d s : let s' := dval_drop d s in
  grows s s' ∧ f_dead (frame s') = f_dead (frame s) ∧ f_pending (frame s') = f_pending (frame s) ∧
  statuses (inner_ s') = statuses (inner_ s) ∧ (∀ e t, f_kinds (frame s') !! e = Some (true, t) → f_kinds (frame s) !! e = Some (true, t)).
Proof.
  unfold dval_drop. destruct (dval_upgrade d s) as [x|] eqn:Hx; [|by split_and!; auto].
  apply dval_upgrade_some in Hx as [Hx Hs]. set (s1 := on_mem _ s).
  assert (H1 : ∀ e t, f_kinds (frame s1) !! e = Some (true, t) → f_kinds (frame s) !! e = Some (true, t)).
  { intros e t. unfold s1. cbn. rewrite !lookup_fmap. destruct (decide (d = e)) as [<-|Hne]; [|by rewrite lookup_insert_ne].
    rewrite lookup_insert_eq, Hx. cbn. unfold dkind. cbn. destruct (d_strong x) as [|[|n]]; done || lia. }
  case_match; [|by split_and!; auto]. destruct (quiet_state_drop (d_sub x) s1) as [E L]. unfold frame in E. injection E as E1 E2 E3 E4 E5 E6.
  split_and!; auto. intros e t. cbn. rewrite E4. apply H1.
Qed.
Lemma dur_mild s s' : (dur s → dur_step s s') → statuses (inner_ s') = statuses (inner_ s) → shots (mem s) (mem s') → mild s s'.
Proof. intros H E T Hd. split; [auto|]. split; [|done]. intros p ws. by rewrite E. Qed.
Lemma gentle_op op s : gentle s (sub_op op s).
Proof.
  destruct op; cbn [sub_op]; try (apply quiet_gentle; auto with sub; fail).
  - destruct (subscribe_shape now path updates s) as (E1 & E2 & Hq). destruct Hq as [Hq|Ht]; [by apply quiet_gentle|]. split.
    + apply dur_mild; [|done|apply shots_subscribe]. intros Hd. pose proof (dur_subscribe now path updates s Hd) as H.
      destruct (subscribe_internal now path updates s). apply H.
    + intros _. split; [|intros; right; lia|lia]. intros p d Hp _. cbn in *. by rewrite E2 in Hp.
  - destruct (dval_drop_shape d s) as ((L1 & L2 & L3) & E1 & E2 & E3 & Hk). split.
    + apply dur_mild; [apply dur_dval_drop|done|done].
    + intros _. split; [by rewrite E2|rewrite E1; intros; left; auto|done].
  - apply quiet_gentle. by apply quiet_mem_fields.
  - apply quiet_gentle. by apply quiet_mem_fields.
Qed.
Lemma app_step_ok op y : sys_ok y → sys_step_ok y (app_step op y).
Proof.
  intros H. unfold app_step. case_match; [|by apply sys_step_refl]. apply sys_ok_mild; [done|..]; try (by destruct op).
  cbn. assert (E : ss (op_held op y) = ss y) by (by destruct op). rewrite E. apply gentle_op.
Qed.

(** Two states with the same calls but for the paths of one *)
Lemma start_call_ok now timeout resub batch y : sys_ok y → sys_step_ok y (start_call now timeout resub batch y).2.
Proof.
  intros [Hd Hn Hr Ho Hu Hf]. unfold start_call, subscribe_init.
  set (s0 := on_inner _ (ss y)). assert (Q0 : quiet (ss y) s0) by apply quiet_gc.
  pose proof (init_batch_spec batch ∅ s0) as H. destruct (init_batch batch ∅ s0) as [paths s1]. destruct H as (T & P & N).
  assert (Hd1 : dur_step (ss y) s1) by (apply dur_tables; [etrans; [by apply quiet_tables|done]|done]).
  assert (Hp : ∀ p, is_pending (ss y) p → is_pending s1 p) by (intros p H; by apply P, (quiet_pending _ _ p Q0)).
  assert (Hold : ∀ id p, id ≠ next_call y → owns (sy_ss (fun _ => s1) (sy_next_call Z.succ (sy_calls <[next_call y := MkCall now timeout paths true resub]> y))) id p → owns y id p).
  { intros id p Hne (c & st & Hc & H). cbn in Hc. rewrite lookup_insert_ne in Hc by done. by exists c, st. }
  assert (Hnew : ∀ p, owns (sy_ss (fun _ => s1) (sy_next_call Z.succ (sy_calls <[next_call y := MkCall now timeout paths true resub]> y))) (next_call y) p →
    is_pending s1 p ∧ ¬ is_pending (ss y) p).
  { intros p (c & st & Hc & Hst & Hown). cbn in Hc. rewrite lookup_insert_eq in Hc. injection Hc as <-. cbn in Hst.
    destruct (N p st Hst Hown) as [H|[H1 H2]]; [by rewrite lookup_empty in H|]. split; [done|]. intros H3. by apply H2, (quiet_pending _ _ p Q0). }
  split; [split|apply Hd1]; cbn.
  - apply Hd1.
  - intros id c. destruct (decide (id = next_call y)) as [->|Hne]; [lia|]. rewrite lookup_insert_ne by done. intros H%Hn. lia.
  - intros id c p st. destruct (decide (id = next_call y)) as [->|Hne]; [rewrite lookup_insert_eq; by intros [= <-]|].
    rewrite lookup_insert_ne by done. apply Hr.
  - intros id p H. destruct (decide (id = next_call y)) as [->|Hne]; [by apply Hnew|]. apply Hp, (Ho id). by apply Hold.
  - intros id id' p H1 H2. destruct (decide (id = next_call y)) as [->|Hne], (decide (id' = next_call y)) as [->|Hne']; [done|..].
    + apply Hnew in H1 as [_ H1]. destruct H1. eapply Ho, Hold; [exact Hne'|done].
    + apply Hnew in H2 as [_ H2]. destruct H2. eapply Ho, Hold; [exact Hne|done].
    + eapply Hu; by apply Hold.
  - done.
Qed.

(** One call has other paths, and no more of its own. *)
Lemma sys_ok_paths y y' id c c' : sys_ok y → calls y !! id = Some c → calls y' = <[id := c']> (calls y) →
  next_call y' = next_call y → crashed y' = crashed y → dur_step (ss y) (ss y') →
  (∀ p st, cl_resolving c' = false → cl_paths c' !! p = Some st → ¬ is_resolve st) →
  (∀ p st, cl_paths c' !! p = Some st → owner st → ∃ st0, cl_paths c !! p = Some st0 ∧ owner st0) →
  (∀ j p, owns y' j p → is_pending (ss y) p → is_pending (ss y') p) → sys_step_ok y y'.
Proof.
  intros [Hd Hn Hr Ho Hu Hf] Hc Ec En Ef [Hd' Hev] Hres Hown Hpend.
  assert (Hsub : ∀ j p, owns y' j p → owns y j p).
  { intros j p (x & st & Hx & Hst & Hownst). rewrite Ec in Hx. destruct (decide (id = j)) as [<-|Hne].
    - rewrite lookup_insert_eq in Hx. injection Hx as <-. destruct (Hown p st Hst Hownst) as (st0 & H1 & H2). by exists c, st0.
    - rewrite lookup_insert_ne in Hx by done. by exists x, st. }
  split; [split|done].
  - done.
  - intros j x. rewrite Ec, En. destruct (decide (id = j)) as [<-|Hne]; [intros _; by eapply Hn|rewrite lookup_insert_ne by done; apply Hn].
  - intros j x p st. rewrite Ec. destruct (decide (id = j)) as [<-|Hne]; [rewrite lookup_insert_eq; intros [= <-]; apply Hres|].
    rewrite lookup_insert_ne by done. apply Hr.
  - intros j p H. eapply Hpend; [done|]. by eapply Ho, Hsub.
  - intros j j' p H1 H2. eapply Hu; by apply Hsub.
  - by rewrite Ef.
Qed.
Lemma reply_fits_spec c reply : reply_fits c reply = true →
  match reply with RR_Ok _ l => NoDup l.*1 ∧ (∀ p, p ∈ l.*1 ↔ resolve_entry (cl_paths c) p) | _ => True end.
Proof.
  destruct reply as [| |publishers l]; try done. cbn. intros [Hnd%bool_decide_eq_true Hset%bool_decide_eq_true]%andb_true_iff.
  split; [done|]. intros p. rewrite <-(elem_of_list_to_set (C := gset str)), Hset, elem_of_dom. unfold to_resolve, resolve_entry. split.
  - intros [st Hst]. apply map_lookup_filter_Some in Hst as [Hst Hr]. cbn in Hr. destruct st; try done. by eexists.
  - intros [streams Hst]. eexists. by apply map_lookup_filter_Some.
Qed.
Lemma call_resolved_ok id seed reply y : sys_ok y → sys_step_ok y (call_resolved interfaces id seed reply y).
Proof.
  intros H. unfold call_resolved. destruct (calls y !! id) as [c|] eqn:Hc; [|by apply sys_step_refl].
  destruct (cl_resolving c && reply_fits c reply) eqn:E; [|by apply sys_step_refl]. apply andb_true_iff in E as [Hres Hfit].
  apply reply_fits_spec in Hfit.
  destruct (subscribe_resolved_spec interfaces (cl_start c) (cl_timeout c) seed reply (cl_paths c) (ss y) Hfit) as (paths & s1 & -> & Q & Hp).
  eapply (sys_ok_paths y _ id c); [done|done|reflexivity|done|done|by apply dur_quiet; [|apply H]|..]; cbn.
  - intros p st _ Hst. by destruct (Hp p st Hst).
  - intros p st Hst. by destruct (Hp p st Hst).
  - intros j p _. by apply (quiet_pending _ _ p Q).
Qed.
Lemma call_poll_ok id p y : sys_ok y → sys_step_ok y (call_poll id p y).
Proof.
  intros H. unfold call_poll. destruct (calls y !! id) as [c|] eqn:Hc; [|by apply sys_step_refl].
  destruct (cl_resolving c || _) eqn:E; [by apply sys_step_refl|]. apply orb_false_iff in E as [Hres _].
  destruct (cl_paths c !! p) as [st|] eqn:Hst; [|by apply sys_step_refl].
  pose proof (wait_result_spec p st (ss y)) as Hw.
  assert (Hnr : ¬ is_resolve st) by (by eapply so_resolved). assert (Hop : owner st → is_pending (ss y) p) by (intros Ho; eapply (so_owner _ H id); by exists c, st).
  destruct (wait_result p st (ss y)) as [[o s']|]; [|by apply sys_step_refl].
  destruct (Hw Hnr Hop) as (r & -> & T & P).
  assert (Hstep : ∀ y', calls y' = <[id := set_paths (delete p (cl_paths c)) c]> (calls y) → next_call y' = next_call y →
    crashed y' = crashed y → ss y' = s' → sys_step_ok y y').
  { intros y' E1 E2 E3 E4. eapply (sys_ok_paths y y' id c); [done|done|exact E1|done|done|rewrite E4; apply dur_tables; [done|apply H]|..].
    - intros q st' _ Hq. cbn in Hq. apply lookup_delete_Some in Hq as [_ Hq]. by eapply so_resolved.
    - intros q st' Hq Ho. cbn in Hq. apply lookup_delete_Some in Hq as [_ Hq]. by exists st'.
    - intros j q Hj [ws Hws]. rewrite E4. exists ws. apply P; [|done].
      destruct (decide (q = p)) as [->|]; [right|by left]. intros Ho.
      (* another owner of the path would be the same call, which has none now *)
      destruct Hj as (x & st' & Hx & Hst' & Ho'). rewrite E1 in Hx. destruct (decide (id = j)) as [<-|Hne].
      + rewrite lookup_insert_eq in Hx. injection Hx as <-. cbn in Hst'. by rewrite lookup_delete_eq in Hst'.
      + rewrite lookup_insert_ne in Hx by done. destruct Hne. eapply (so_unique _ H _ _ p); [by exists c, st|by exists x, st']. }
  destruct (cl_resub c); by apply Hstep.
Qed.
Lemma call_drop_ok id y : sys_ok y → sys_step_ok y (call_drop id y).
Proof.
  intros H. unfold call_drop. destruct (calls y !! id) as [c|] eqn:Hc; [|by apply sys_step_refl].
  destruct (cl_resub c); [by apply sys_step_refl|].
  set (s' := foldl (fun s (kv : str * St) => st_drop kv.2 s) (ss y) (map_to_list (cl_paths c))).
  assert (Q : quiet (ss y) s') by (apply quiet_foldl; intros s [q st]; apply quiet_st_drop).
  destruct H as [Hd Hn Hr Ho Hu Hf]. destruct (dur_quiet _ _ Q Hd) as [Hd' Hev].
  assert (Hown : ∀ j p, owns (sy_ss (fun _ => s') (sy_calls (delete id) y)) j p → owns y j p).
  { intros j p (x & st & Hx & Hst). cbn in Hx. apply lookup_delete_Some in Hx as [_ Hx]. by exists x, st. }
  split; [split|done]; cbn.
  - done.
  - intros j x [_ Hx]%lookup_delete_Some. by eapply Hn.
  - intros j x p st [_ Hx]%lookup_delete_Some. by apply (Hr j).
  - intros j p Hj%Hown%Ho. by apply (quiet_pending _ _ p Q).
  - intros j j' p Hj%Hown Hj'%Hown. by eapply Hu.
  - done.
Qed.

(** ** The resubscription task and the connections *)

Lemma do_resub_ok now y : sys_ok y → sys_step_ok y (do_resub now y).
Proof.
  intros H. unfold do_resub. destruct (resub_take_ok now (ss y) (so_dur _ H)) as (batch & timeout & s1 & -> & Hstep & Em & Es & _).
  destruct (update_retry_ok now s1 (proj1 Hstep)) as [t ->].
  assert (H1 : sys_step_ok y (sy_retry (fun _ => t) (sy_ss (fun _ => s1) y))).
  { apply sys_ok_mild; [done| |done..]. cbn. apply dur_mild; [done|done|by rewrite Em]. }
  destruct batch as [|b batch]; [done|]. eapply sys_step_trans; [exact H|exact H1|]. intros H2.
  pose proof (start_call_ok now (Some timeout) true (b :: batch) _ H2) as H3.
  destruct (start_call now (Some timeout) true (b :: batch) _) as [id y2]. cbn in H3.
  eapply sys_step_trans; [exact H2|exact H3|]. intros H4. by apply sys_ok_mild.
Qed.
Lemma statuses_finish now seed l s t s' : dur s → finish_resubscription_batch now seed l s = (t, s') → statuses (inner_ s') = statuses (inner_ s).
Proof.
  revert seed s. induction l as [|[p r] l IH]; intros seed s Hd; cbn; [by intros [= _ <-]|].
  destruct (dur_finish_one now seed p r s Hd) as (s1 & E & H1). rewrite E. intros H2.
  rewrite (IH _ _ (proj1 H1) H2). clear IH H2. unfold finish_one in E.
  set (s0 := on_inner _ s) in E. change (statuses (inner_ s)) with (statuses (inner_ s0)).
  assert (Hf : ∀ p d x s2 o s3, resub_failed now seed p d x s2 = (o, s3) → statuses (inner_ s3) = statuses (inner_ s2)).
  { intros q d x s2 o s3. unfold resub_failed. destruct (d_sub x); by intros [= <- <-]. }
  assert (Ht : ∀ q d x v s2, statuses (inner_ (resub_ok q d x v s2)) = statuses (inner_ s2)).
  { intros q d x v s2. unfold resub_ok. cbn. rewrite statuses_dval_set.
    refine (quiet_statuses _ _ _). etrans; [apply quiet_connect_streams|]. destruct (d_sub x); [reflexivity|apply quiet_writes]. }
  destruct (durable_pending (inner_ s) !! p ≫= _) as [[d x]|]; [|injection E as <-; exact (quiet_statuses _ _ (quiet_res_drop _ _))].
  destruct r as [v|e]; [|by eapply Hf]. destruct (val_last v s0) as [[|]|]; [|by injection E as <-..].
  destruct (resub_failed now seed p d x s0) as [o s2] eqn:E2. injection E as _ <-. rewrite (quiet_statuses _ _ (quiet_val_drop _ _)). by eapply Hf.
Qed.
Lemma shots_resub_ok p d x v s : shots (mem s) (mem (resub_ok p d x v s)).
Proof.
  unfold resub_ok. match goal with |- context [dval_set d _ ?s2] => set (s1 := s2) end.
  assert (Q : quiet s s1) by (unfold s1; etrans; [apply quiet_connect_streams|]; destruct (d_sub x); [reflexivity|apply quiet_writes]).
  etrans; [apply Q|]. exact (shots_dval_set _ _ s1).
Qed.
Lemma shots_finish now seed l s t s' : finish_resubscription_batch now seed l s = (t, s') → shots (mem s) (mem s').
Proof.
  revert seed s. induction l as [|[p r] l IH]; intros seed s; cbn; [by intros [= _ <-]|].
  assert (Hf : ∀ p d x s2 o s3, resub_failed now seed p d x s2 = (o, s3) → shots (mem s2) (mem s3)).
  { intros q d x s2 o s3. unfold resub_failed. destruct (d_sub x); intros [= <- <-]; [done|cbn; same_shots]. }
  destruct (finish_one now seed p r s) as [o s1] eqn:E. assert (H1 : shots (mem s) (mem s1)).
  { unfold finish_one in E. set (s0 := on_inner _ s) in E. change (mem s) with (mem s0).
    destruct (durable_pending (inner_ s) !! p ≫= _) as [[d x]|]; [|injection E as <- <-; apply (quiet_res_drop r s0)].
    destruct r as [v|e]; [|by eapply Hf]. destruct (val_last v s0) as [[|]|]; [|injection E as <- <-; apply shots_resub_ok..].
    destruct (resub_failed now seed p d x s0) as [o2 s2] eqn:E2. injection E as <- <-. etrans; [by eapply Hf|]. apply quiet_val_drop. }
  destruct o; intros H; [etrans; [exact H1|by eapply IH]|by injection H as <- <-..].
Qed.
Lemma finish_ok now seed y : sys_ok y → sys_step_ok y (finish_batch now seed y).
Proof.
  intros H. unfold finish_batch. destruct (finish_batch_ok now seed (collected y) (ss y) (so_dur _ H)) as (t & s1 & E & Hstep). rewrite E.
  assert (H1 : sys_step_ok y (sy_retry (fun _ => t) (sy_collected (fun _ => []) (sy_ss (fun _ => s1) y)))).
  { apply sys_ok_mild; [done| |done..]. cbn. apply dur_mild; [done|eapply statuses_finish; [apply H|exact E]|by eapply shots_finish]. }
  case_match; [|done]. eapply sys_step_trans; [exact H|exact H1|]. apply do_resub_ok.
Qed.
Lemma con_start_ok conid now rp y : sys_ok y → sys_step_ok y (con_start desired conid now rp y).
Proof.
  intros H. unfold con_start. destruct (spawned (mem (ss y)) !! conid) as [[[addr target] uifo]|]; [|by apply sys_step_refl].
  assert (Q : quiet (ss y) (on_mem (mem_spawned (delete conid)) (ss y))) by (by apply quiet_mem_fields).
  destruct (from_option _ _ rp) as [u|e|]; (apply sys_ok_mild; [done| |done..]); apply quiet_mild; [done|..];
    (etrans; [exact Q|apply quiet_close_queue]).
Qed.
Lemma con_step_ok conid now r y : sys_ok y → sys_step_ok y (con_step reg next_wid conid now r y).
Proof.
  intros H. unfold con_step. destruct (running y !! conid) as [[x q]|]; [|by apply sys_step_refl].
  set (y1 := match r with CRBatch _ _ => _ | _ => y end).
  assert (H1 : ss y1 = ss y ∧ calls y1 = calls y ∧ next_call y1 = next_call y ∧ crashed y1 = crashed y) by (unfold y1; by repeat case_match).
  destruct H1 as (E1 & E2 & E3 & E4). rewrite E1.
  destruct (calm_turn reg next_wid r (MkCState (ss y) x q [])) as [H1 H2].
  destruct (con_turn reg next_wid r _) as [[fl o] c]. cbn in H1, H2.
  destruct o as [[|]|e|]; [| | |done]; (apply sys_ok_mild; cbn; [done| |done..]); [apply H1|..]; (eapply mild_trans; [apply H1|apply gentle_finish]).
Qed.
Lemma con_gone_ok conid now y : sys_ok y → sys_step_ok y (con_gone conid now y).
Proof.
  intros H. unfold con_gone. destruct (ended y !! conid) as [[addr failed]|]; [|by apply sys_step_refl].
  apply sys_ok_mild; try done. apply quiet_mild, quiet_con_cleanup.
Qed.

Lemma sub_step_ok y i : sys_ok y → sys_step_ok y (sub_step reg next_wid interfaces desired y i).
Proof.
  intros H. destruct i; cbn [sub_step].
  - by apply app_step_ok.
  - by apply start_call_ok.
  - by apply call_resolved_ok.
  - by apply call_poll_ok.
  - by apply call_drop_ok.
  - case_match; [|by apply sys_step_refl]. eapply sys_step_trans; [exact H| |apply do_resub_ok].
    by apply sys_ok_mild.
  - case_match; [by apply do_resub_ok|by apply sys_step_refl].
  - case_match; [|by apply sys_step_refl]. destruct (collected y); [by apply sys_step_refl|by apply finish_ok].
  - by apply con_start_ok.
  - by apply con_step_ok.
  - by apply con_gone_ok.
Qed.
Lemma sub_run_ok l y : sys_ok y → sys_step_ok y (sub_run reg next_wid interfaces desired y l).
Proof.
  revert y. induction l as [|i l IH]; intros y H; [by apply sys_step_refl|]. cbn.
  eapply sys_step_trans; [exact H|by apply sub_step_ok|apply IH].
Qed.
Lemma sys_ok_new : sys_ok sub_sys_new.
Proof.
  split; try done.
  - split; try done; unfold in_tables, live; cbn; intros; naive_solver.
  - by intros id p (c & st & [=] & _).
  - by intros id id' p (c & st & [=] & _).
Qed.
End System.
