(* ===== verification/SubWaits.v ===== *)
(** No durable subscription is forgotten: one that is pending is in a call of the
    resubscription task, and one that is dead has the task triggered or its timer set in
    time. That the call does not wait in vain is in SubAttend.v. *)
From Stdlib Require Import ZArith Lia.
From stdpp Require Import base gmap list strings sorting.
From Stdlib Require Import Strings.Byte.
From S2P Require Import Prelude Varint Pack Containers PackTypes Path PathFacts Order Glob Derive Proto.
From S2P Require Import Store Permissions Channel Float Value ValuePack PubProto Publisher PubServer.
From S2P Require Import SubChoose Subscriber SubConn SubSystem SubFacts SubInv SubTurn SubSysInv.

Section Parts.
Context {VA : ValueApi} {R : Rand} {O : SubOrder} {OOK : SubOrderOk O} (interfaces : list Interface).

(** ** The timer *)

(** The timer is set for the subscription that is due at [t], or it is due already. *)
Definition timer_for (retry : option Instant) (now t : Instant) : Prop := ∃ r, retry = Some r ∧ (r ≤ t ∨ r ≤ now).
Lemma retry_scan_spec now l retry s t : retry_scan now l retry s = Ok t →
  (∀ r, retry = Some r → ∃ r', t = Some r' ∧ r' ≤ r) ∧
  ∀ p d x dd, (p, d) ∈ l → dval_upgrade d s = Some x → d_sub x = Dv_Dead dd → timer_for t now (next_try dd).
Proof.
  revert retry. induction l as [|[p d] l IH]; intros retry; cbn [retry_scan].
  { intros [= <-]. split; [intros r ->; eexists; split; [done|lia]|]. by intros p d x dd H%not_elem_of_nil. }
  destruct (dval_upgrade d s) as [x|] eqn:Hx.
  - destruct (d_sub x) as [v|dd] eqn:Hdd; [done|].
    set (retry1 := match retry with None => _ | Some t => _ end).
    assert (Hr1 : ∃ r1, retry1 = Some r1 ∧ r1 ≤ next_try dd ∧ ∀ r, retry = Some r → r1 ≤ r).
    { unfold retry1. destruct retry as [r|]; [|eexists; split_and!; [done|lia|done]].
      destruct (next_try dd <? r) eqn:E; eexists; split_and!; try done; intros; try (assert (r0 = r) by congruence; subst); lia. }
    clearbody retry1. destruct Hr1 as (r1 & -> & Hle & Hr). destruct (next_try dd <=? now) eqn:E.
    + intros [= <-]. split; [intros r H; exists r1; split; [done|by apply Hr]|].
      intros q e y ddy _ _ _. exists r1. split; [done|]. right. lia.
    + intros H. destruct (IH _ H) as [H1 H2]. destruct (H1 r1 eq_refl) as (r' & -> & Hr'). split.
      * intros r Hr0. exists r'. split; [done|]. specialize (Hr r Hr0). lia.
      * intros q e y ddy [[= -> ->]|Hin]%elem_of_cons Hy Hddy; [|by eapply H2]. exists r'. split; [done|]. left.
        rewrite Hx in Hy. injection Hy as <-. rewrite Hdd in Hddy. injection Hddy as <-. lia.
  - intros H. destruct (IH _ H) as [H1 H2]. split; [done|].
    intros q e y ddy [[= -> ->]|Hin]%elem_of_cons Hy Hddy; [congruence|by eapply H2].
Qed.
Lemma kind_dead s d t : f_kinds (frame s) !! d = Some (true, Some t) →
  ∃ x dd, dval_upgrade d s = Some x ∧ d_sub x = Dv_Dead dd ∧ next_try dd = t.
Proof.
  intros Hk. assert (Hl : live (frame s) d) by (by eexists). apply live_upgrade in Hl as [x Hx]. pose proof (kind_upgrade _ _ _ Hx) as Hk2.
  rewrite Hk in Hk2. injection Hk2 as E. destruct (d_sub x) as [v|dd] eqn:Hd; [done|]. injection E as ->. by exists x, dd.
Qed.
Lemma update_retry_spec now s t p d t0 : update_retry now s = Ok t → f_dead (frame s) !! p = Some d →
  f_kinds (frame s) !! d = Some (true, Some t0) → timer_for t now t0.
Proof.
  intros H Hp (x & dd & Hx & Hd & <-)%kind_dead. eapply (proj2 (retry_scan_spec _ _ _ _ _ H)); [|done|done]. by apply elem_dead_order.
Qed.

(** ** What settles a pending subscription *)

Lemma finish_one_pending now seed p r s s' : dur s → finish_one now seed p r s = (Ok (), s') →
  f_pending (frame s') = delete p (f_pending (frame s)).
Proof.
  intros Hd. unfold finish_one. set (s1 := on_inner _ s).
  assert (H1 : f_pending (frame s1) = delete p (f_pending (frame s))) by done.
  assert (Hq : ∀ s2 s3, quiet s2 s3 → f_pending (frame s3) = f_pending (frame s2)) by (by intros s2 s3 [-> _]).
  assert (Hf : ∀ d x o s2, resub_failed now seed p d x s1 = (o, s2) → f_pending (frame s2) = f_pending (frame s1)).
  { intros d x o s2. unfold resub_failed. destruct (d_sub x); by intros [= <- <-]. }
  destruct (durable_pending (inner_ s) !! p ≫= _) as [[d x]|] eqn:E.
  - apply bind_Some in E as (d' & Hp & (x' & Hx & [= <- <-])%fmap_Some). change (dval_upgrade d s = Some x) in Hx.
    destruct r as [v|e]; [|intros H; by rewrite (Hf _ _ _ _ H)].
    destruct (val_last v s1) as [[|]|].
    + destruct (resub_failed now seed p d x s1) as [o s2] eqn:E2. intros [= _ <-]. by rewrite (Hq _ _ (quiet_val_drop v s2)), (Hf _ _ _ _ E2).
    + intros [= <-]. destruct (frame_resub_ok p d x v s1 Hx) as [-> _]. exact H1.
    + intros [= <-]. destruct (frame_resub_ok p d x v s1 Hx) as [-> _]. exact H1.
  - intros [= <-]. by rewrite (Hq _ _ (quiet_res_drop r s1)).
Qed.
Lemma finish_pending now seed l s t s' : dur s → finish_resubscription_batch now seed l s = (Ok t, s') →
  update_retry now s' = Ok t ∧
  ∀ p d, f_pending (frame s') !! p = Some d → f_pending (frame s) !! p = Some d ∧ p ∉ l.*1.
Proof.
  revert seed s. induction l as [|[p r] l IH]; intros seed s Hd; cbn [finish_resubscription_batch].
  { intros [= H <-]. split; [done|]. intros p d Hp. split; [done|]. apply not_elem_of_nil. }
  destruct (dur_finish_one now seed p r s Hd) as (s1 & E & H1). rewrite E. intros H.
  destruct (IH _ _ (proj1 H1) H) as [H2 H3]. split; [done|]. intros q d Hq. destruct (H3 q d Hq) as [H4 H5].
  rewrite (finish_one_pending _ _ _ _ _ _ Hd E) in H4. apply lookup_delete_Some in H4 as [Hne H4]. split; [done|].
  by intros [->|]%elem_of_cons.
Qed.

(** ** The paths of a call *)

Lemma init_batch_dom batch pending s p : p ∈ batch.*1 ∨ is_Some (pending !! p) → is_Some ((init_batch batch pending s).1 !! p).
Proof.
  revert pending s. induction batch as [|[q streams] batch IH]; intros pending s H; [by destruct H as [[]%not_elem_of_nil|]|].
  cbn [init_batch]. pose proof (init_path_spec q streams pending s) as Hi. destruct (init_path q streams pending s) as [pending1 s1].
  destruct Hi as (_ & _ & st & -> & _). apply IH.
  destruct (decide (p = q)) as [->|Hne]; [right; by rewrite lookup_insert_eq|]. rewrite lookup_insert_ne by done.
  destruct H as [[->|]%elem_of_cons|]; auto. done.
Qed.
Lemma resolve_paths_dom publishers deadline seed l pending s pending' s' : NoDup l.*1 → (∀ p, p ∈ l.*1 → resolve_entry pending p) →
  resolve_paths interfaces publishers deadline seed l pending s = (Ok pending', s') → ∀ p, is_Some (pending' !! p) ↔ is_Some (pending !! p).
Proof.
  intros Hnd Hl E p. destruct (resolve_paths_spec interfaces publishers deadline seed l pending s Hnd Hl) as (pending1 & s1 & E1 & H).
  rewrite E in E1. injection E1 as <- <-. specialize (H p). destruct (decide (p ∈ l.*1)) as [Hp|Hp]; [|by rewrite H].
  destruct H as (st & -> & _). destruct (Hl p Hp) as [streams ->]. by split; eexists.
Qed.
Lemma subscribe_resolved_dom start timeout seed reply pending s pending' s' :
  match reply with RR_Ok _ l => NoDup l.*1 ∧ (∀ p, p ∈ l.*1 ↔ resolve_entry pending p) | _ => True end →
  subscribe_resolved interfaces start timeout seed reply pending s = (Ok pending', s') → ∀ p, is_Some (pending' !! p) ↔ is_Some (pending !! p).
Proof.
  intros Hr E p. destruct reply as [| |publishers l]; cbn in E.
  - injection E as <- _. unfold fail_all. rewrite lookup_fmap. by destruct (pending !! p); split; intros []; eexists.
  - injection E as <- _. unfold fail_all. rewrite lookup_fmap. by destruct (pending !! p); split; intros []; eexists.
  - destruct Hr as [Hnd Hl]. eapply resolve_paths_dom; [done|intros q; apply Hl|done].
Qed.
End Parts.

(** ** The machine *)

Section Machine.
Context {ES : Escaping} {LY : Layout} {VA : ValueApi} {CM : ChunkMap} {R : Rand} {O : SubOrder} {OOK : SubOrderOk O}.
Context (reg : Registry) (next_wid : WriteId) (interfaces : list Interface) (desired : DesiredAuth).

(** The resubscription task has a result for the path, or a call of its that has the path. *)
Definition listed (y : SubSys) (p : str) : Prop :=
  (∃ id c, calls y !! id = Some c ∧ cl_resub c = true ∧ is_Some (cl_paths c !! p)) ∨ p ∈ (collected y).*1.
(** Up to the time [T] *)
Record waits (T : Instant) (y : SubSys) : Prop := {
  wt_pending p d : f_pending (frame (ss y)) !! p = Some d → live (frame (ss y)) d → listed y p;
  wt_dead p d t : f_dead (frame (ss y)) !! p = Some d → f_kinds (frame (ss y)) !! d = Some (true, Some t) →
    (0 < triggers_of (ss y))%nat ∨ timer_for (retry y) T t
}.
(** The time of an input *)
Definition input_time (i : SubInput) : option Instant :=
  match i with
  | SApp _ | SResolved _ _ _ | SPoll _ _ | SDropCall _ => None
  | SCall now _ _ | STrigger now | SRetry now | SFinish now _ | SConStart _ now _ | STurn _ now _ | SGone _ now => Some now
  end.
Definition before (T : Instant) (i : SubInput) : Prop := match input_time i with Some now => now ≤ T | None => True end.

Lemma waits_gentle T y y' : sys_ok y → waits T y → gentle (ss y) (ss y') → calls y' = calls y → collected y' = collected y →
  retry y' = retry y → waits T y'.
Proof.
  intros Hok [Hp Hdd] [M A] E1 E2 E3. destruct (A (so_dur _ Hok)) as [P D N]. destruct (M (so_dur _ Hok)) as [[Hd' Hev] _].
  assert (Ho : ∀ p, listed y' p ↔ listed y p) by (intros p; unfold listed; by rewrite E1, E2).
  split.
  - intros p d H Hl. apply Ho. pose proof (P p d H Hl) as H2. eapply Hp; [done|]. apply (ev_live _ _ Hev); [|done].
    eapply o_entry; [apply (so_dur _ Hok)|]. right; by left.
  - intros p d t H Hk. destruct (D p d t H Hk) as [[H1 H2]|]; [|by left]. rewrite E3. destruct (Hdd p d t H1 H2); [left; lia|by right].
Qed.
(** The tables are the same, and at least the paths are listed that were. *)
Lemma waits_tables T y y' : waits T y → tables_same (ss y) (ss y') → (∀ p, listed y p → listed y' p) → retry y' = retry y → waits T y'.
Proof.
  intros [Hp Hd] (E1 & E2 & E3 & E4 & [_ L]) Ho E. split.
  - intros p d. unfold live. rewrite E2, E4. intros H Hl. apply Ho. by eapply Hp.
  - intros p d t. rewrite E1, E4, E. intros H Hk. destruct (Hd p d t H Hk); [left; lia|by right].
Qed.
Lemma listed_call y y' id c c' p : calls y !! id = Some c → calls y' = <[id := c']> (calls y) → cl_resub c' = cl_resub c →
  (is_Some (cl_paths c !! p) → is_Some (cl_paths c' !! p)) → (p ∈ (collected y).*1 → p ∈ (collected y').*1) → listed y p → listed y' p.
Proof.
  intros Hc Ec Er Hp Hl [(j & x & Hx & Hr & Hs)|H]; [left|by right; auto]. rewrite Ec. destruct (decide (id = j)) as [<-|Hne].
  - rewrite Hc in Hx. injection Hx as <-. exists id, c'. rewrite lookup_insert_eq. split_and!; [done|congruence|auto].
  - exists j, x. by rewrite lookup_insert_ne.
Qed.

Lemma waits_start_call T now timeout resub batch y : waits T y → sys_ok y → waits T (start_call now timeout resub batch y).2.
Proof.
  intros Hw [Hd Hn Hr Ho Hu Hf]. unfold start_call, subscribe_init. set (s0 := on_inner _ (ss y)).
  pose proof (init_batch_spec batch ∅ s0) as H. destruct (init_batch batch ∅ s0) as [paths s1]. destruct H as (T1 & _ & _).
  eapply waits_tables; [exact Hw| |intros p|done]; cbn.
  - etrans; [apply quiet_tables, quiet_gc|exact T1].
  - intros [(j & x & Hx & H)|H]; [left|by right]. exists j, x. cbn. rewrite lookup_insert_ne; [done|]. intros <-. specialize (Hn _ _ Hx). lia.
Qed.
(** The batch of the resubscription task is listed then. *)
Lemma start_call_listed now timeout batch y p : p ∈ batch.*1 → listed (start_call now timeout true batch y).2 p.
Proof.
  intros Hp. unfold start_call, subscribe_init. set (s0 := on_inner _ (ss y)). pose proof (init_batch_dom batch ∅ s0 p (or_introl Hp)) as H.
  destruct (init_batch batch ∅ s0) as [paths s1]. left. eexists _, _. cbn. rewrite lookup_insert_eq. by split_and!.
Qed.
Lemma waits_do_resub T now y : now ≤ T → sys_ok y → (∀ p d, f_pending (frame (ss y)) !! p = Some d → live (frame (ss y)) d → listed y p) →
  waits T (do_resub now y).
Proof.
  intros HT Hok Hp. unfold do_resub.
  destruct (resub_take_ok now (ss y) (so_dur _ Hok)) as (batch & timeout & s1 & -> & Hstep & Em & Es & Hpend).
  destruct (update_retry_ok now s1 (proj1 Hstep)) as [t Et]. rewrite Et.
  set (y1 := sy_retry (fun _ => t) (sy_ss (fun _ => s1) y)).
  assert (Hdead : ∀ p d t0, f_dead (frame (ss y1)) !! p = Some d → f_kinds (frame (ss y1)) !! d = Some (true, Some t0) →
    (0 < triggers_of (ss y1))%nat ∨ timer_for (retry y1) T t0).
  { intros p d t0 H Hk. right. destruct (update_retry_spec now s1 t p d t0 Et H Hk) as (r & Hr & Hle). exists r. split; [done|]. lia. }
  assert (Hold : ∀ p d, f_pending (frame (ss y1)) !! p = Some d → live (frame (ss y1)) d → p ∉ batch.*1 → listed y1 p).
  { intros p d H Hl Hb. destruct (Hpend p) as [E|E]; [|done]. change (f_pending (frame s1) !! p = Some d) in H. rewrite E in H.
    apply (Hp p d H). apply (ev_live _ _ (proj2 Hstep)); [|done]. eapply o_entry; [apply (so_dur _ Hok)|]. right; by left. }
  destruct batch as [|b batch]; [split; [|done]; intros p d H Hl; eapply Hold; [done|done|apply not_elem_of_nil]|].
  assert (Hok1 : sys_ok y1).
  { destruct (sys_ok_mild y y1 Hok) as [H _]; try done. cbn. apply dur_mild; [done|done|by rewrite Em]. }
  (* the call changes no table *)
  pose proof (start_call_listed now (Some timeout) (b :: batch) y1) as Hout.
  assert (Htab : tables_same (ss y1) (ss (start_call now (Some timeout) true (b :: batch) y1).2) ∧
    (∀ p, listed y1 p → listed (start_call now (Some timeout) true (b :: batch) y1).2 p) ∧
    retry (start_call now (Some timeout) true (b :: batch) y1).2 = retry y1).
  { unfold start_call, subscribe_init. set (s0 := on_inner _ (ss y1)).
    pose proof (init_batch_spec (b :: batch) ∅ s0) as H. destruct (init_batch (b :: batch) ∅ s0) as [paths s2]. destruct H as (T1 & _ & _).
    split_and!; [etrans; [apply quiet_tables, quiet_gc|exact T1]| |done].
    intros p [(j & x & Hx & H)|H]; [left|by right]. exists j, x. cbn. rewrite lookup_insert_ne; [done|]. intros <-.
    pose proof (so_next _ Hok1 _ _ Hx) as Hlt. change (next_call y1) with (next_call y) in Hlt. cbn in Hlt. lia. }
  destruct (start_call now (Some timeout) true (b :: batch) y1) as [id y2]. cbn [snd] in *.
  destruct Htab as ((E1 & E2 & E3 & E4 & [_ L]) & Ho & Er).
  split.
  - intros p d. unfold live. change (frame (ss (sy_resub_busy (fun _ => Some id) y2))) with (frame (ss y2)). rewrite E2, E4. intros H Hl.
    destruct (decide (p ∈ (b :: batch).*1)) as [Hb|Hb]; [exact (Hout p Hb)|]. apply (Ho p). by eapply Hold.
  - intros p d t0. change (ss (sy_resub_busy (fun _ => Some id) y2)) with (ss y2). rewrite E1, E4. intros H Hk.
    change (retry (sy_resub_busy (fun _ => Some id) y2)) with (retry y2). rewrite Er.
    destruct (Hdead p d t0 H Hk) as [Ht|Ht]; [left|by right]. unfold triggers_of in *. cbn in *. lia.
Qed.

Lemma waits_step T y i : before T i → sys_ok y → waits T y → waits T (sub_step reg next_wid interfaces desired y i).
Proof.
  intros HT Hok Hw. destruct i as [op|now timeout batch|id seed reply|id p|id|now|now|now seed|conid now rp|conid now r|conid now]; cbn [sub_step].
  - unfold app_step. case_match; [|done]. eapply waits_gentle; [done|done| |by destruct op..]. cbn.
    assert (E : ss (op_held op y) = ss y) by (by destruct op). rewrite E. apply gentle_op.
  - by apply waits_start_call.
  - unfold call_resolved. destruct (calls y !! id) as [c|] eqn:Hc; [|done]. destruct (cl_resolving c && _) eqn:E; [|done].
    apply andb_true_iff in E as [_ Hfit]. apply reply_fits_spec in Hfit.
    destruct (subscribe_resolved_spec interfaces (cl_start c) (cl_timeout c) seed reply (cl_paths c) (ss y) Hfit) as (paths & s1 & E & Q & _).
    rewrite E. eapply waits_tables; [exact Hw|by apply quiet_tables| |done]. intros p.
    eapply (listed_call y _ id c); [done|reflexivity|done| |done]. cbn. by apply (subscribe_resolved_dom _ _ _ _ _ _ _ _ _ Hfit E).
  - unfold call_poll. destruct (calls y !! id) as [c|] eqn:Hc; [|done]. destruct (cl_resolving c || _) eqn:E; [done|]. apply orb_false_iff in E as [Hres _].
    destruct (cl_paths c !! p) as [st|] eqn:Hst; [|done]. pose proof (wait_result_spec p st (ss y)) as H.
    destruct (wait_result p st (ss y)) as [[o s1]|]; [|done]. destruct H as (r & -> & T1 & _).
    { by eapply so_resolved. } { intros Ho. eapply (so_owner _ Hok id). by exists c, st. }
    destruct (cl_resub c) eqn:Hr.
    + eapply waits_tables; [exact Hw|done| |done]. intros q Hq. destruct (decide (q = p)) as [->|Hne].
      * right. cbn. rewrite fmap_app, elem_of_app. right. by left.
      * eapply (listed_call y _ id c); [done|reflexivity|done| | |done]; cbn.
        -- intros H. by rewrite lookup_delete_ne.
        -- intros H. rewrite fmap_app, elem_of_app. by left.
    + eapply waits_tables; [exact Hw|done| |done]. intros q [(j & x & Hx & Hxr & Hxs)|Hq]; [left|by right]. exists j, x. cbn.
      rewrite lookup_insert_ne; [done|]. intros <-. congruence.
  - unfold call_drop. destruct (calls y !! id) as [c|] eqn:Hc; [|done]. destruct (cl_resub c) eqn:Hr; [done|].
    eapply waits_tables; [exact Hw| | |done]; cbn.
    + apply quiet_tables, quiet_foldl. intros s [q st]. apply quiet_st_drop.
    + intros q [(j & x & Hx & Hxr & Hxs)|Hq]; [left|by right]. exists j, x. cbn. rewrite lookup_delete_ne; [done|]. intros <-. congruence.
  - case_match; [|done]. apply waits_do_resub; [done| |apply Hw]. by apply (sys_ok_mild y _ Hok).
  - case_match; [|done]. apply waits_do_resub; [done|done|apply Hw].
  - case_match; [|done]. destruct (collected y) as [|x l] eqn:El; [done|]. unfold finish_batch. rewrite El.
    destruct (finish_batch_ok now seed (x :: l) (ss y) (so_dur _ Hok)) as (t & s1 & E & Hstep). rewrite E.
    destruct (finish_pending _ _ _ _ _ _ (so_dur _ Hok) E) as [Et Hpend].
    set (y1 := sy_retry _ _). assert (Hp1 : ∀ p d, f_pending (frame (ss y1)) !! p = Some d → live (frame (ss y1)) d → listed y1 p).
    { intros p d Hpd Hl. destruct (Hpend p d Hpd) as [H1 H2]. destruct (wt_pending _ _ Hw p d H1) as [Ho|Ho]; [|by left|by rewrite El in Ho].
      apply (ev_live _ _ (proj2 Hstep)); [|done]. eapply o_entry; [apply (so_dur _ Hok)|]. right; by left. }
    case_match.
    + apply waits_do_resub; [done| |done]. apply (sys_ok_mild y _ Hok); try done. cbn. apply dur_mild; [done|eapply statuses_finish; [apply Hok|exact E]|by eapply shots_finish].
    + split; [done|]. intros p d t0 H1 Hk. right. destruct (update_retry_spec now s1 t p d t0 Et H1 Hk) as (r & Hr & Hle). exists r. split; [done|].
      unfold before in HT. cbn in HT. lia.
  - unfold con_start. destruct (spawned _ !! conid) as [[[addr target] uifo]|]; [|done].
    assert (Q : quiet (ss y) (on_mem (mem_spawned (delete conid)) (ss y))) by (by apply quiet_mem_fields).
    destruct (from_option _ _ rp) as [u|e|]; (eapply waits_gentle; [exact Hok|done| |done..]); apply quiet_gentle; [done|..]; (etrans; [exact Q|apply quiet_close_queue]).
  - unfold con_step. destruct (running y !! conid) as [[x q]|]; [|done].
    set (y1 := match r with CRBatch _ _ => _ | _ => y end).
    assert (H1 : ss y1 = ss y ∧ calls y1 = calls y ∧ collected y1 = collected y ∧ retry y1 = retry y) by (unfold y1; by repeat case_match).
    destruct H1 as (E1 & E2 & E3 & E4). rewrite E1. destruct (calm_turn reg next_wid r (MkCState (ss y) x q [])) as [H1 H2].
    destruct (con_turn reg next_wid r _) as [[fl o] c]. cbn in H1, H2.
    destruct o as [[|]|e|]; [| | |done]; (eapply waits_gentle; [exact Hok|exact Hw| |cbn; congruence..]); cbn; [done|..]; (etrans; [exact H1|apply gentle_finish]).
  - unfold con_gone. destruct (ended y !! conid) as [[addr failed]|]; [|done].
    eapply waits_gentle; [exact Hok|done| |done..]. apply quiet_gentle, quiet_con_cleanup.
Qed.
Lemma waits_new T : waits T sub_sys_new.
Proof. by split. Qed.
Lemma waits_run T l y : Forall (before T) l → sys_ok y → waits T y → waits T (sub_run reg next_wid interfaces desired y l).
Proof.
  intros Hl. revert y. induction Hl as [|i l Hi Hl IH]; intros y Hok Hw; [done|]. cbn. apply IH; [by apply sub_step_ok|by apply waits_step].
Qed.
End Machine.
