(* ===== verification/SubAttend.v ===== *)
(** Nobody waits in vain: a path that is pending has an attempt that will settle it, and
    who waits for another attempt is among those it will tell, as long as the program asks
    for no path twice in a call and drops no call that is settling a path. *)
From Stdlib Require Import ZArith Lia.
From stdpp Require Import base gmap list strings sorting.
From Stdlib Require Import Strings.Byte.
From S2P Require Import Prelude Varint Pack Containers PackTypes Path PathFacts Order Glob Derive Proto.
From S2P Require Import Store Permissions Channel Float Value ValuePack PubProto Publisher PubServer.
From S2P Require Import SubChoose Subscriber SubConn SubSystem SubFacts SubInv SubTurn SubSysInv SubWaits.

Section Parts.
Context {VA : ValueApi} {R : Rand} {O : SubOrder} {OOK : SubOrderOk O} (interfaces : list Interface).

(** ** Those who wait for a path *)

Lemma oneshots_send_ con m s : oneshots (mem (send_ con m s)) = oneshots (mem s).
Proof. unfold send_, send. by destruct (queue con s). Qed.
Lemma oneshots_val_drop v s : oneshots (mem (val_drop v s)) = oneshots (mem s).
Proof. unfold val_drop. destruct (val_upgrade v s); [|done]. case_match; [by rewrite oneshots_send_|done]. Qed.
Lemma oneshots_oneshot_send w r s : oneshots (mem (oneshot_send w r s).2) =
  match oneshots (mem s) !! w with Some OOpen => <[w := OSent r]> (oneshots (mem s)) | _ => oneshots (mem s) end.
Proof.
  unfold oneshot_send. destruct (oneshots (mem s) !! w) as [[|r'|]|]; try done; destruct r; try done; apply oneshots_val_drop.
Qed.
Lemma tell_step r ws s w :
  let s1 := (oneshot_send w r (match r with Got v => val_clone v s | Failed _ => s end)).2 in
  tell_waiters r (w :: ws) s = tell_waiters r ws s1 ∧
  oneshots (mem s1) = match oneshots (mem s) !! w with Some OOpen => <[w := OSent r]> (oneshots (mem s)) | _ => oneshots (mem s) end.
Proof. split; [done|]. rewrite oneshots_oneshot_send. by destruct r. Qed.
Lemma tell_keeps r ws s w : oneshots (mem s) !! w = Some (OSent r) → oneshots (mem (tell_waiters r ws s)) !! w = Some (OSent r).
Proof.
  revert s. induction ws as [|w' ws IH]; intros s H; [done|]. destruct (tell_step r ws s w') as [-> E]. apply IH. rewrite E.
  destruct (oneshots (mem s) !! w') as [[| |]|] eqn:E'; try done. rewrite lookup_insert_ne; [done|]. intros <-. congruence.
Qed.
Lemma tell_reaches r ws s w : w ∈ ws → oneshots (mem s) !! w = Some OOpen → oneshots (mem (tell_waiters r ws s)) !! w = Some (OSent r).
Proof.
  revert s. induction ws as [|w' ws IH]; intros s Hw H; [by apply not_elem_of_nil in Hw|]. destruct (tell_step r ws s w') as [-> E].
  destruct (decide (w = w')) as [<-|Hne].
  - apply tell_keeps. rewrite E, H. by rewrite lookup_insert_eq.
  - apply elem_of_cons in Hw as [?|Hw]; [done|]. apply IH; [done|]. rewrite E. destruct (oneshots (mem s) !! w') as [[| |]|]; try done.
    by rewrite lookup_insert_ne.
Qed.
(** The end of an attempt that settles the path *)
Lemma owner_result p st ws s o s' : owner st → ¬ is_resolve st → statuses (inner_ s) !! p = Some (SS_Pending ws) →
  wait_result p st s = Some (o, s') →
  ∃ r s1, o = Ok r ∧ s' = tell_waiters r ws s1 ∧
    statuses (inner_ s1) !! p = match r with Got v => Some (SS_Subscribed v) | Failed _ => None end ∧
    ∀ w, oneshots (mem s) !! w = Some OOpen → oneshots (mem s1) !! w = Some OOpen.
Proof.
  intros Ho Hr Hp. destruct st as [streams|w|w streams|v streams|e]; try done; cbn [wait_result]; rewrite ?Hp.
  - assert (Hw : oneshots (mem s) !! w ≠ Some OOpen → ∀ w', oneshots (mem s) !! w' = Some OOpen → delete w (oneshots (mem s)) !! w' = Some OOpen).
    { intros Hn w' H. rewrite lookup_delete_ne; [done|]. by intros ->. }
    destruct (oneshots (mem s) !! w) as [[|r|]|]; [done|..]; cbn; rewrite Hp; intros [= <- <-]; eexists _, _;
      (split; [reflexivity|]); (split; [reflexivity|]); (split; [|by apply Hw]); [destruct r|..]; cbn; by rewrite ?lookup_insert_eq, ?lookup_delete_eq.
  - intros [= <- <-]. eexists _, _. split; [reflexivity|]. split; [reflexivity|]. split; [cbn; by rewrite lookup_delete_eq|done].
Qed.

(** ** The paths of a call *)

(** [w] is among those the attempt for the path will tell. *)
Definition waits_at (s : Sub) (p : str) (w : Waiter) : Prop := ∃ ws, statuses (inner_ s) !! p = Some (SS_Pending ws) ∧ w ∈ ws.
Definition is_open (s : Sub) (w : Waiter) : Prop := oneshots (mem s) !! w = Some OOpen.
Lemma waits_at_quiet s s' p w : quiet s s' → waits_at s' p w ↔ waits_at s p w.
Proof. intros Q. unfold waits_at. by rewrite (quiet_statuses _ _ Q). Qed.
Lemma init_path_attend p streams pending s : let '(pending', s') := init_path p streams pending s in
  (∀ q w, waits_at s q w → waits_at s' q w) ∧
  (∀ q, is_pending s' q → is_pending s q ∨ (q = p ∧ pending' !! p = Some (St_Resolve streams))) ∧
  (∀ w l, pending' !! p = Some (St_WaitingOther w l) → w < next_waiter_id (mem s') ∧ waits_at s' p w) ∧
  (∀ q, q ≠ p → pending' !! q = pending !! q).
Proof.
  assert (Hfresh : ¬ is_pending s p → let s' := on_inner (upd_statuses <[p := SS_Pending []]>) s in
    let pending' := <[p := St_Resolve streams]> pending in
    (∀ q w, waits_at s q w → waits_at s' q w) ∧
    (∀ q, is_pending s' q → is_pending s q ∨ (q = p ∧ pending' !! p = Some (St_Resolve streams))) ∧
    (∀ w l, pending' !! p = Some (St_WaitingOther w l) → w < next_waiter_id (mem s') ∧ waits_at s' p w) ∧
    (∀ q, q ≠ p → pending' !! q = pending !! q)).
  { intros Hn s' pending'. split_and!.
    - intros q w (ws & H & Hw). exists ws. split; [|done]. unfold s'. cbn.
      rewrite lookup_insert_ne; [done|]. intros ->. destruct Hn. by exists ws.
    - intros q [ws H]. destruct (decide (q = p)) as [->|Hne]; [right|left].
      + split; [done|apply lookup_insert_eq].
      + exists ws. unfold s' in H. cbn in H. by rewrite lookup_insert_ne in H.
    - intros w l. unfold pending'. by rewrite lookup_insert_eq.
    - intros q Hne. unfold pending'. by rewrite lookup_insert_ne. }
  unfold init_path. destruct (statuses (inner_ s) !! p) as [[v|ws]|] eqn:E.
  - assert (Hn : ¬ is_pending s p) by (intros [ws Hws]; congruence). destruct (val_upgrade v s); [|by apply Hfresh].
    split_and!; [done|by left|intros w l; by rewrite lookup_insert_eq|intros q Hne; by rewrite lookup_insert_ne].
  - destruct (oneshot s) as [w0 s1] eqn:E1. injection E1 as E1 E2. split_and!.
    + intros q w (ws' & H & Hw). unfold waits_at. cbn. rewrite <-E2. cbn. destruct (decide (p = q)) as [<-|Hne].
      * rewrite lookup_insert_eq. eexists. split; [done|]. rewrite E in H. injection H as <-. apply elem_of_app. by left.
      * rewrite lookup_insert_ne by done. by exists ws'.
    + intros q [ws' H]. left. cbn in H. rewrite <-E2 in H. cbn in H. destruct (decide (p = q)) as [<-|Hne]; [by exists ws|].
      rewrite lookup_insert_ne in H by done. by exists ws'.
    + intros w l. rewrite lookup_insert_eq. intros [= <- _]. cbn. rewrite <-E2, <-E1. cbn. split; [lia|].
      eexists. split; [apply lookup_insert_eq|]. apply elem_of_app. right. by left.
    + intros q Hne. by rewrite lookup_insert_ne.
  - apply Hfresh. intros [ws Hws]. congruence.
Qed.
(** A batch that has no path twice: what became pending is its own to resolve, and it waits
    where it will be told. *)
Lemma init_batch_attend batch pending s : NoDup batch.*1 → (∀ p, p ∈ batch.*1 → pending !! p = None) →
  let '(pending', s') := init_batch batch pending s in
  (∀ q w, waits_at s q w → waits_at s' q w) ∧
  (∀ q, is_pending s' q → is_pending s q ∨ ∃ l, pending' !! q = Some (St_Resolve l)) ∧
  (∀ q w l, pending' !! q = Some (St_WaitingOther w l) → pending !! q = Some (St_WaitingOther w l) ∨
     (w < next_waiter_id (mem s') ∧ waits_at s' q w)) ∧
  (∀ q, q ∉ batch.*1 → pending' !! q = pending !! q).
Proof.
  revert pending s. induction batch as [|[p streams] batch IH]; intros pending s Hnd Hno; [by split_and!; intros; auto|].
  cbn [init_batch]. rewrite (Hno p) by (by left). cbn in Hnd. apply NoDup_cons in Hnd as [Hp Hnd].
  pose proof (init_path_attend p streams pending s) as H. destruct (init_path p streams pending s) as [pending1 s1].
  destruct H as (W1 & P1 & O1 & K1). specialize (IH pending1 s1 Hnd).
  pose proof (init_batch_spec batch pending1 s1) as Hs. destruct (init_batch batch pending1 s1) as [pending' s'].
  destruct Hs as ((_ & _ & _ & _ & _ & _ & L & _) & _ & _). destruct IH as (W2 & P2 & O2 & K2).
  { intros q Hq. rewrite K1; [apply Hno; by right|by intros ->]. }
  split_and!.
  - auto.
  - intros q [Hq|Hq]%P2; [|by right]. apply P1 in Hq as [Hq|[-> Hq]]; [by left|]. right. exists streams. by rewrite K2.
  - intros q w l [Hq|Hq]%O2; [|by right]. destruct (decide (q = p)) as [->|Hne]; [|left; by rewrite <-K1].
    right. destruct (O1 _ _ Hq) as [H1 H2]. split; [lia|auto].
  - intros q Hq. cbn in Hq. rewrite elem_of_cons in Hq. rewrite K2, K1; tauto.
Qed.

(** The answer of the resolver changes only what waited for it. *)
Lemma subscribe_resolved_attend start timeout seed reply pending s pending' s' :
  match reply with RR_Ok _ l => NoDup l.*1 ∧ (∀ p, p ∈ l.*1 ↔ resolve_entry pending p) | _ => True end →
  subscribe_resolved interfaces start timeout seed reply pending s = (Ok pending', s') →
  (∀ p w l, pending' !! p = Some (St_WaitingOther w l) → pending !! p = Some (St_WaitingOther w l)) ∧
  (∀ p st, pending !! p = Some st → owner st → ∃ st', pending' !! p = Some st' ∧ owner st').
Proof.
  intros Hr E. assert (Hfail : ∀ e, (∀ p w l, fail_all e pending !! p = Some (St_WaitingOther w l) → pending !! p = Some (St_WaitingOther w l)) ∧
    (∀ p st, pending !! p = Some st → owner st → ∃ st', fail_all e pending !! p = Some st' ∧ owner st')).
  { intros e. unfold fail_all. split.
    - intros p w l. rewrite lookup_fmap. destruct (pending !! p) as [st|]; [|done]. cbn. case_decide; congruence.
    - intros p st Hp Ho. rewrite lookup_fmap, Hp. cbn. eexists. split; [reflexivity|]. by case_decide. }
  destruct reply as [| |publishers l]; cbn in E; [by injection E as <- _; apply Hfail..|]. destruct Hr as [Hnd Hl].
  destruct (resolve_paths_spec interfaces publishers ((fun t => start + t) <$> timeout) seed l pending s Hnd) as (p1 & s1 & E1 & H).
  { intros p Hp. by apply Hl. }
  rewrite E1 in E. injection E as -> _. split.
  - intros p w k Hp. specialize (H p). case_decide; [|by rewrite <-H]. destruct H as (st & E & Ho & _). rewrite E in Hp. by injection Hp as ->.
  - intros p st Hp Ho. specialize (H p). case_decide; [|rewrite H; by exists st]. destruct H as (st' & E & Ho' & _). by exists st'.
Qed.

(** Once an attempt has settled its path, the path is not pending and nobody waits for it. *)
Lemma settle_attend p st s o s' : owner st → ¬ is_resolve st → is_pending s p → wait_result p st s = Some (o, s') →
  ¬ is_pending s' p ∧ ∀ w, waits_at s p w → is_open s w → ¬ is_open s' w.
Proof.
  intros Ho Hr [ws Hws] Hw. destruct (owner_result p st ws s o s' Ho Hr Hws Hw) as (r & s1 & _ & -> & Hst & Hopen). split.
  - intros [ws' H]. rewrite (quiet_statuses _ _ (quiet_tell_waiters r ws s1)), Hst in H. by destruct r.
  - intros w (ws' & E & Hin) Hop. rewrite Hws in E. injection E as <-. unfold is_open. by rewrite (tell_reaches r ws s1 w Hin (Hopen w Hop)).
Qed.

(** The batch of the resubscription task has no path twice. *)
Lemma resub_scan_nodup now l sc s : NoDup l.*1 → (∀ p, p ∈ l.*1 → p ∉ (sc_batch sc).*1) → NoDup (sc_batch sc).*1 →
  match resub_scan now l sc s with (Ok sc', _) => NoDup (sc_batch sc').*1 | _ => True end.
Proof.
  revert sc s. induction l as [|[p d] l IH]; intros sc s Hl Hno Hb; cbn [resub_scan]; [done|].
  cbn in Hl. apply NoDup_cons in Hl as [Hp Hl].
  assert (Hskip : ∀ q, q ∈ l.*1 → q ∉ (sc_batch sc).*1) by (intros q Hq; apply Hno; by right).
  destruct (dval_upgrade d s) as [x|]; [|by apply IH]. destruct (d_sub x); [done|]. destruct (_ <=? now); [|by apply IH].
  set (sc1 := MkScan _ _ _ _).
  assert (Hb1 : NoDup (sc_batch sc1).*1).
  { cbn. rewrite fmap_app. apply NoDup_app. split_and!; [done| |apply NoDup_singleton].
    intros q Hq ->%list_elem_of_singleton. destruct (Hno p); [by left|done]. }
  destruct (MAX_RESUB <=? _); [done|]. apply IH; [done| |done].
  intros q Hq. cbn. rewrite fmap_app, elem_of_app. intros [H1| ->%list_elem_of_singleton]; [by destruct (Hskip q)|done].
Qed.
Lemma resub_take_nodup now s batch timeout s' : resub_take now s = (Ok (batch, timeout), s') → NoDup batch.*1.
Proof.
  unfold resub_take. pose proof (resub_scan_nodup now (dead_order (durable_dead (inner_ s))) (MkScan [] [] 1 0) s) as H.
  destruct (resub_scan _ _ _ _) as [[sc|e|] s1]; [|done..]. intros [= <- _ _]. apply H.
  - rewrite (Permutation_map fst (dead_order_perm _)). apply NoDup_fst_map_to_list.
  - intros p _. apply not_elem_of_nil.
  - constructor.
Qed.
End Parts.

(** ** The machine *)

Section Machine.
Context {ES : Escaping} {LY : Layout} {VA : ValueApi} {CM : ChunkMap} {R : Rand} {O : SubOrder} {OOK : SubOrderOk O}.
Context (reg : Registry) (next_wid : WriteId) (interfaces : list Interface) (desired : DesiredAuth).

#[export] Instance owner_dec st : Decision (owner st).
Proof. destruct st; apply _. Defined.

(** What is asked of the program: it has no path twice in one call, and it drops no call,
    by a timeout around it or otherwise, that is yet to settle a path. *)
Definition patient (y : SubSys) (i : SubInput) : bool :=
  match i with
  | SCall _ _ batch => bool_decide (NoDup batch.*1)
  | SDropCall id =>
      match calls y !! id with
      | Some c => cl_resub c || forallb (fun kv : str * St => negb (bool_decide (owner kv.2))) (map_to_list (cl_paths c))
      | None => true
      end
  | _ => true
  end.
Fixpoint patient_run (y : SubSys) (l : list SubInput) : bool :=
  match l with [] => true | i :: l => patient y i && patient_run (sub_step reg next_wid interfaces desired y i) l end.

Record attended (y : SubSys) : Prop := {
  ad_owner p : is_pending (ss y) p → ∃ id, owns y id p;
  ad_other id c p w l : calls y !! id = Some c → cl_paths c !! p = Some (St_WaitingOther w l) →
    w < next_waiter_id (mem (ss y)) ∧ (is_open (ss y) w → waits_at (ss y) p w)
}.

Lemma attended_keeps y y' : attended y → keeps (ss y) (ss y') → calls y' = calls y → attended y'.
Proof.
  intros [Ho Hw] [K [L T]] Ec. split.
  - intros p [ws H%K]. destruct (Ho p) as (id & Hid); [by exists ws|]. exists id. unfold owns. by rewrite Ec.
  - intros id c p w l. rewrite Ec. intros Hc Hp. destruct (Hw id c p w l Hc Hp) as [H1 H2]. split; [lia|].
    intros H%T; [|done]. destruct (H2 H) as (ws & E%K & Hin). by exists ws.
Qed.
Lemma attended_mild y y' : sys_ok y → attended y → mild (ss y) (ss y') → calls y' = calls y → attended y'.
Proof. intros Hok Ha Hm. apply attended_keeps; [done|]. apply (Hm (so_dur _ Hok)). Qed.
Lemma attended_quiet y y' : sys_ok y → attended y → quiet (ss y) (ss y') → calls y' = calls y → attended y'.
Proof. intros Hok Ha Hq. apply attended_mild; [done|done|by apply quiet_mild]. Qed.

Lemma attended_start_call now timeout resub batch y : sys_ok y → attended y → NoDup batch.*1 →
  attended (start_call now timeout resub batch y).2.
Proof.
  intros Hok [Ho Hw] Hnd. unfold start_call, subscribe_init. set (s0 := on_inner _ (ss y)). assert (Q0 : quiet (ss y) s0) by apply quiet_gc.
  pose proof (init_batch_attend batch ∅ s0 Hnd (fun p _ => lookup_empty p)) as H.
  pose proof (init_batch_spec batch ∅ s0) as Hs. destruct (init_batch batch ∅ s0) as [paths s1].
  destruct Hs as ((_ & _ & _ & _ & _ & _ & L & T) & _ & _). destruct H as (W & P & I & _).
  assert (Hold : ∀ id c, calls y !! id = Some c → id ≠ next_call y) by (intros id c Hc ->; specialize (so_next _ Hok _ _ Hc); lia).
  split; cbn.
  - intros p [Hp|[l Hp]]%P.
    + apply (quiet_pending _ _ p Q0) in Hp. destruct (Ho p Hp) as (id & c & st & Hc & H). exists id, c, st. cbn.
      rewrite lookup_insert_ne; [done|]. intros <-. by apply (Hold _ _ Hc).
    + exists (next_call y). eexists _, _. cbn. rewrite lookup_insert_eq. split; [reflexivity|]. by split.
  - intros id c p w l. destruct (decide (id = next_call y)) as [->|Hne].
    + rewrite lookup_insert_eq. intros [= <-]. cbn. intros [Hp|[H1 H2]]%I; [by rewrite lookup_empty in Hp|]. by split.
    + rewrite lookup_insert_ne by done. intros Hc Hp. destruct (Hw id c p w l Hc Hp) as [H1 H2]. change (next_waiter_id (mem (ss y))) with (next_waiter_id (mem s0)) in H1.
      split; [lia|]. intros Hop. apply W, (waits_at_quiet _ _ _ _ Q0), H2. by apply T.
Qed.
Lemma attended_resolved id seed reply y : sys_ok y → attended y → attended (call_resolved interfaces id seed reply y).
Proof.
  intros Hok [Ho Hw]. unfold call_resolved. destruct (calls y !! id) as [c|] eqn:Hc; [|by split].
  destruct (cl_resolving c && _) eqn:E; [|by split]. apply andb_true_iff in E as [_ Hfit%reply_fits_spec].
  destruct (subscribe_resolved_spec interfaces (cl_start c) (cl_timeout c) seed reply (cl_paths c) (ss y) Hfit) as (paths & s1 & E & Q & _).
  rewrite E. destruct (subscribe_resolved_attend interfaces _ _ _ _ _ _ _ _ Hfit E) as [I Hown]. pose proof Q as (_ & _ & _ & L & T).
  split; cbn.
  - intros p Hp%(quiet_pending _ _ p Q). destruct (Ho p Hp) as (j & x & st & Hx & Hst & Hs). exists j. unfold owns. cbn.
    destruct (decide (id = j)) as [<-|Hne]; [|rewrite lookup_insert_ne by done; by exists x, st].
    rewrite lookup_insert_eq. rewrite Hc in Hx. injection Hx as <-. destruct (Hown p st Hst Hs) as (st' & H1 & H2). by eexists _, st'.
  - intros j x p w l Hx Hp. assert (Hold : ∃ x', calls y !! j = Some x' ∧ cl_paths x' !! p = Some (St_WaitingOther w l)).
    { destruct (decide (id = j)) as [<-|Hne]; [|rewrite lookup_insert_ne in Hx by done; by exists x].
      rewrite lookup_insert_eq in Hx. injection Hx as <-. exists c. split; [done|]. by apply I. }
    destruct Hold as (x' & Hx' & Hp'). destruct (Hw j x' p w l Hx' Hp') as [H1 H2]. split; [lia|].
    intros Hop. apply (waits_at_quiet _ _ _ _ Q), H2. by apply T.
Qed.
Lemma attended_poll id p y : sys_ok y → attended y → attended (call_poll id p y).
Proof.
  intros Hok [Ho Hw]. unfold call_poll. destruct (calls y !! id) as [c|] eqn:Hc; [|by split].
  destruct (cl_resolving c || _) eqn:E; [by split|]. apply orb_false_iff in E as [Hres _].
  destruct (cl_paths c !! p) as [st|] eqn:Hst; [|by split].
  assert (Hr : ¬ is_resolve st) by (by eapply so_resolved).
  assert (Hop : owner st → is_pending (ss y) p) by (intros H; eapply (so_owner _ Hok id); by exists c, st).
  pose proof (wait_result_spec p st (ss y) Hr Hop) as H. pose proof (fun o s' => settle_attend p st (ss y) o s') as Hset.
  destruct (wait_result p st (ss y)) as [[o s1]|]; [|by split]. destruct H as (r & -> & (_ & _ & _ & _ & _ & _ & L & T) & P).
  assert (Hstep : ∀ y', calls y' = <[id := set_paths (delete p (cl_paths c)) c]> (calls y) → ss y' = s1 → attended y').
  { intros y' E1 E2. split; rewrite ?E2.
    - intros q [ws Hq]. destruct (decide (q = p ∧ owner st)) as [[-> Hs]|Hn].
      { destruct (Hset _ _ Hs Hr (Hop Hs) eq_refl) as [H _]. destruct H. by exists ws. }
      assert (Hn' : q ≠ p ∨ ¬ owner st) by (destruct (decide (q = p)); [right; naive_solver|by left]).
      apply P in Hq; [|done]. destruct (Ho q) as (j & x & st' & Hx & Hst' & Hs); [by exists ws|]. exists j. unfold owns. rewrite E1.
      destruct (decide (id = j)) as [<-|Hne]; [|rewrite lookup_insert_ne by done; by exists x, st'].
      rewrite lookup_insert_eq. rewrite Hc in Hx. injection Hx as <-. eexists _, st'. split; [reflexivity|]. split; [|done]. cbn.
      rewrite lookup_delete_ne; [done|]. intros <-. destruct Hn'; [done|congruence].
    - intros j x q w l. rewrite E1. intros Hx Hq.
      assert (Hold : ∃ x', calls y !! j = Some x' ∧ cl_paths x' !! q = Some (St_WaitingOther w l)).
      { destruct (decide (id = j)) as [<-|Hne]; [|rewrite lookup_insert_ne in Hx by done; by exists x].
        rewrite lookup_insert_eq in Hx. injection Hx as <-. cbn in Hq. apply lookup_delete_Some in Hq as [_ Hq]. by exists c. }
      destruct Hold as (x' & Hx' & Hq'). destruct (Hw j x' q w l Hx' Hq') as [H1 H2]. split; [lia|]. intros Hopen.
      specialize (H2 (T _ H1 Hopen)). destruct (decide (q = p ∧ owner st)) as [[-> Hs]|Hn].
      { destruct (Hset _ _ Hs Hr (Hop Hs) eq_refl) as [_ H]. by destruct (H w H2 (T _ H1 Hopen)). }
      destruct H2 as (ws & Hws & Hin). exists ws. split; [|done]. apply P; [|done].
      destruct (decide (q = p)); [right; naive_solver|by left]. }
  destruct (cl_resub c); by apply Hstep.
Qed.
Lemma attended_drop id y : sys_ok y → attended y → patient y (SDropCall id) = true → attended (call_drop id y).
Proof.
  intros Hok [Ho Hw] Hp. unfold call_drop. cbn in Hp. destruct (calls y !! id) as [c|] eqn:Hc; [|by split].
  destruct (cl_resub c); [by split|]. cbn in Hp. rewrite forallb_forall in Hp.
  set (s' := foldl (fun s (kv : str * St) => st_drop kv.2 s) (ss y) (map_to_list (cl_paths c))).
  assert (Q : quiet (ss y) s') by (apply quiet_foldl; intros s [q st]; apply quiet_st_drop). pose proof Q as (_ & _ & _ & L & T).
  split; cbn.
  - intros p Hpend%(quiet_pending _ _ p Q). destruct (Ho p Hpend) as (j & x & st & Hx & Hst & Hs). exists j, x, st. cbn.
    rewrite lookup_delete_ne; [done|]. intros <-. rewrite Hc in Hx. injection Hx as <-.
    specialize (Hp (p, st)). cbn in Hp. rewrite bool_decide_eq_true_2 in Hp by done.
    discriminate Hp. apply list_elem_of_In. by apply elem_of_map_to_list.
  - intros j x p w l [_ Hx]%lookup_delete_Some Hst. destruct (Hw j x p w l Hx Hst) as [H1 H2]. split; [exact (Z.lt_le_trans _ _ _ H1 L)|].
    intros Hop. apply (waits_at_quiet _ _ _ _ Q), H2. by apply T.
Qed.
Lemma attended_do_resub now y : sys_ok y → attended y → attended (do_resub now y).
Proof.
  intros Hok Ha. unfold do_resub.
  destruct (resub_take_ok now (ss y) (so_dur _ Hok)) as (batch & timeout & s1 & E & Hstep & Em & Es & _).
  pose proof (resub_take_nodup _ _ _ _ _ E) as Hnd. rewrite E. destruct (update_retry_ok now s1 (proj1 Hstep)) as [t ->].
  set (y1 := sy_retry (fun _ => t) (sy_ss (fun _ => s1) y)).
  assert (Hm : mild (ss y) (ss y1)) by (apply dur_mild; [done|done|cbn; by rewrite Em]).
  assert (Ha1 : attended y1) by (by eapply attended_mild). assert (Hok1 : sys_ok y1) by (by apply (sys_ok_mild y)).
  destruct batch as [|b batch]; [done|].
  pose proof (attended_start_call now (Some timeout) true (b :: batch) y1 Hok1 Ha1 Hnd) as H.
  destruct (start_call now (Some timeout) true (b :: batch) y1) as [id y2]. by destruct H.
Qed.

Lemma attended_step y i : sys_ok y → attended y → patient y i = true → attended (sub_step reg next_wid interfaces desired y i).
Proof.
  intros Hok Ha Hp. destruct i as [op|now timeout batch|id seed reply|id p|id|now|now|now seed|conid now rp|conid now r|conid now]; cbn [sub_step].
  - unfold app_step. case_match; [|done]. apply (attended_mild y); [done..| |by destruct op]. cbn.
    assert (E : ss (op_held op y) = ss y) by (by destruct op). rewrite E. apply gentle_op.
  - cbn in Hp. apply bool_decide_eq_true in Hp. by apply attended_start_call.
  - by apply attended_resolved.
  - by apply attended_poll.
  - by apply attended_drop.
  - case_match; [|done]. apply attended_do_resub; [by apply (sys_ok_mild y _ Hok)|by destruct Ha].
  - case_match; [|done]. by apply attended_do_resub.
  - case_match; [|done]. destruct (collected y) as [|x l] eqn:El; [done|]. unfold finish_batch. rewrite El.
    destruct (finish_batch_ok now seed (x :: l) (ss y) (so_dur _ Hok)) as (t & s1 & E & Hstep). rewrite E.
    set (y1 := sy_retry _ _).
    assert (Hm : mild (ss y) (ss y1)) by (apply dur_mild; [done|eapply statuses_finish; [apply Hok|exact E]|by eapply shots_finish]).
    assert (Ha1 : attended y1) by (by eapply attended_mild). case_match; [|done].
    apply attended_do_resub; [by apply (sys_ok_mild y)|done].
  - unfold con_start. destruct (spawned _ !! conid) as [[[addr target] uifo]|]; [|done].
    assert (Q : quiet (ss y) (on_mem (mem_spawned (delete conid)) (ss y))) by (by apply quiet_mem_fields).
    destruct (from_option _ _ rp) as [u|e|]; (apply (attended_quiet y); [done..| |done]); [done|..]; (etrans; [exact Q|apply quiet_close_queue]).
  - unfold con_step. destruct (running y !! conid) as [[x q]|]; [|done].
    set (y1 := match r with CRBatch _ _ => _ | _ => y end).
    assert (H1 : ss y1 = ss y ∧ calls y1 = calls y) by (unfold y1; by repeat case_match).
    destruct H1 as (E1 & E2). rewrite E1. destruct (calm_turn reg next_wid r (MkCState (ss y) x q [])) as [H1 H2].
    destruct (con_turn reg next_wid r _) as [[fl o] c]. cbn in H1, H2.
    destruct o as [[|]|e|]; [| | |done]; (apply (attended_mild y); [done..| |done]); cbn; [apply H1|..];
      (eapply mild_trans; [apply H1|apply gentle_finish]).
  - unfold con_gone. destruct (ended y !! conid) as [[addr failed]|]; [|done].
    apply (attended_quiet y); [done..| |done]. apply quiet_con_cleanup.
Qed.
Lemma attended_new : attended sub_sys_new.
Proof. split; [intros p [ws H]|intros id c p w l H]; exfalso; exact (lookup_empty_Some _ _ H). Qed.
Lemma attended_run l y : sys_ok y → attended y → patient_run y l = true → attended (sub_run reg next_wid interfaces desired y l).
Proof.
  revert y. induction l as [|i l IH]; intros y Hok Ha Hp; [done|]. cbn in Hp |- *. apply andb_true_iff in Hp as [H1 H2].
  apply IH; [by apply sub_step_ok|by apply attended_step|done].
Qed.

(** A result for the path is under way to the resubscription task: it has it already, or a
    call of its does, which is to settle the path itself or has its result, or which waits
    for another call that is to settle the path and will tell it. *)
Definition under_way (y : SubSys) (p : str) (st : St) : Prop :=
  match st with
  | St_WaitingOther w _ => is_open (ss y) w → waits_at (ss y) p w ∧ ∃ id, owns y id p
  | _ => True
  end.
Definition outstanding (y : SubSys) (p : str) : Prop :=
  (∃ id c st, calls y !! id = Some c ∧ cl_resub c = true ∧ cl_paths c !! p = Some st ∧ under_way y p st) ∨ p ∈ (collected y).*1.
Lemma attended_outstanding y p : attended y → listed y p → outstanding y p.
Proof.
  intros [Ho Hw] [(id & c & Hc & Hr & [st Hst])|H]; [left|by right]. exists id, c, st. split_and!; try done.
  destruct st as [| |w l| |]; try done. intros Hop. destruct (Hw id c p w l Hc Hst) as [_ H]. specialize (H Hop).
  split; [done|]. apply Ho. destruct H as (ws & H & _). by exists ws.
Qed.
End Machine.
