(* ===== verification/SubFollow.v ===== *)
(** The value of a subscription is the latest one the publisher sent: what a connection
    does to the values it serves, message by message. *)
From Stdlib Require Import ZArith Lia.
From stdpp Require Import base gmap list strings sorting.
From Stdlib Require Import Strings.Byte.
From S2P Require Import Prelude Varint Pack Containers PackTypes Path PathFacts Order Glob Derive Proto.
From S2P Require Import Store Permissions Channel Float Value ValuePack ValueOrd PubProto Publisher PubServer PubFacts PubSubs PubTurn PubSystem PubInv PubFresh.
From S2P Require Import SubChoose Subscriber SubConn SubSystem SubFacts SubInv SubTurn.

Section Follow.
Context {ES : Escaping} {LY : Layout} {VA : ValueApi} {CM : ChunkMap}.
Context (reg : Registry) (next_wid : WriteId).
(** A connection, and one of the values it serves *)
Context (conid : ConId) (id : Id).

Abbreviation V s := (f_vals (frame s)).

(** ** Values *)

Definition vals_known (s : Sub) : Prop := ∀ r k, V s !! r = Some k → r < next_ref (mem s).
(** Values stay, those of other connections as they are; values are known. *)
Definition vstep (s s' : Sub) : Prop :=
  (∀ r sid i cn e, V s !! r = Some (sid, i, cn, e) → ∃ e', V s' !! r = Some (sid, i, cn, e') ∧ (cn ≠ conid → e' = e)) ∧
  (vals_known s → vals_known s').
Lemma vstep_refl s : vstep s s.
Proof. split; [|done]. intros r sid i cn e H. by exists e. Qed.
Lemma vstep_trans s1 s2 s3 : vstep s1 s2 → vstep s2 s3 → vstep s1 s3.
Proof.
  intros [H1 K1] [H2 K2]. split; [|auto]. intros r sid i cn e (e1 & Hr1 & E1)%H1. destruct (H2 _ _ _ _ _ Hr1) as (e2 & Hr2 & E2).
  exists e2. split; [done|]. intros Hne. by rewrite E2, E1.
Qed.
#[export] Instance vstep_preorder : PreOrder vstep.
Proof. split; [exact vstep_refl|exact vstep_trans]. Qed.
(** The values are the same. *)
Definition vsame (s s' : Sub) : Prop := V s' = V s ∧ next_ref (mem s) ≤ next_ref (mem s').
#[export] Instance vsame_preorder : PreOrder vsame.
Proof. split; [by intros s|]. intros s1 s2 s3 [E1 L1] [E2 L2]. split; [congruence|lia]. Qed.
Lemma quiet_vsame s s' : quiet s s' → vsame s s'.
Proof. intros [E [L _]]. split; [by rewrite E|done]. Qed.
Lemma vsame_vstep s s' : vsame s s' → vstep s s'.
Proof.
  intros [E L]. split; [intros r sid i cn e H; exists e; by rewrite E|]. intros K r k H. rewrite E in H. specialize (K r k H). lia.
Qed.
Lemma vsame_foldl {A} (f : Sub → A → Sub) l s : (∀ s x, vsame s (f s x)) → vsame s (foldl f s l).
Proof. intros H. revert s. induction l as [|x l IH]; intros s; [reflexivity|]. cbn. etrans; [apply H|apply IH]. Qed.
Lemma vsame_inner f s : vsame s (on_inner f s).
Proof. by split. Qed.
Lemma vsame_dval_set d st s : vsame s (dval_set d st s).
Proof.
  unfold dval_set. destruct (dvals (mem s) !! d) as [x|]; [|reflexivity].
  etrans; [|apply quiet_vsame, quiet_state_drop]. by split.
Qed.
Lemma vsame_unsubscribe now p i cn s : vsame s (unsubscribe_status p i cn (unsubscribe_durable now p s)).
Proof.
  assert (H1 : vsame s (unsubscribe_durable now p s)).
  { unfold unsubscribe_durable. repeat case_match; try reflexivity; try apply vsame_inner;
      (etrans; [|apply vsame_inner]); (etrans; [|apply vsame_inner]); etrans; [apply vsame_inner|apply vsame_dval_set| |]; apply vsame_inner || apply vsame_dval_set. }
  etrans; [exact H1|]. unfold unsubscribe_status. repeat case_match; try reflexivity; apply vsame_inner.
Qed.

(** ** The invariant of a connection *)

(** Each subscription has its value. *)
Definition served (c : CState) : Prop := cx_conid (cs_ctx c) = conid ∧ vals_known (cs_sub c) ∧
  ∀ i sub, subscriptions (cs_ctx c) !! i = Some sub → ∃ sid e, V (cs_sub c) !! cs_val sub = Some (sid, i, conid, e).
(** The one of [id] has the latest value of the messages [log], unless it is no longer
    collected; [seen] says if updates of it may wait in [stream_batch]. *)
Record follows (log : list From) (seen : bool) (c : CState) : Prop := {
  fw_served : served c;
  fw_value sub sid e : subscriptions (cs_ctx c) !! id = Some sub → cs_collects sub = true →
    V (cs_sub c) !! cs_val sub = Some (sid, id, conid, e) → ∃ v, e = Ev_Update v ∧ latest id log = Some v;
  fw_stream v : (id, v) ∈ cs_stream c → seen = true ∧ latest id log = Some v
}.
(** What a handler does to it; one that fails ends the connection. *)
Definition triple (m : chnd) (log : list From) (seen : bool) (log' : list From) (seen' : bool) : Prop :=
  ∀ c, follows log seen c → vstep (cs_sub c) (cs_sub (m c).2) ∧ served (m c).2 ∧ ((m c).1 = Ok () → follows log' seen' (m c).2).

(** A change that concerns neither the subscriptions nor the values *)
Definition aside (c c' : CState) : Prop :=
  vsame (cs_sub c) (cs_sub c') ∧ subscriptions (cs_ctx c') = subscriptions (cs_ctx c) ∧ cx_conid (cs_ctx c') = cx_conid (cs_ctx c) ∧
  cs_stream c' = cs_stream c.
#[local] Instance aside_preorder : PreOrder aside.
Proof. split; [by intros c|]. intros c1 c2 c3 (A1 & A2 & A3 & A4) (B1 & B2 & B3 & B4). split_and!; [by etrans|congruence..]. Qed.
Lemma aside_served c c' : aside c c' → served c → served c'.
Proof.
  intros (Hv & E2 & E3 & _) (H1 & H2 & H3). split; [congruence|]. split; [by apply (vsame_vstep _ _ Hv)|].
  destruct Hv as [E _]. rewrite E, E2. exact H3.
Qed.
Lemma aside_follows log seen c c' : aside c c' → follows log seen c → follows log seen c'.
Proof.
  intros Ha [H1 H2 H3]. split; [by eapply aside_served|..]; destruct Ha as ([E _] & E2 & _ & E4); [rewrite E, E2|rewrite E4]; done.
Qed.
Lemma triple_ok m log seen log' seen' : (∀ c, follows log seen c → vstep (cs_sub c) (cs_sub (m c).2) ∧ follows log' seen' (m c).2) →
  triple m log seen log' seen'.
Proof. intros H c Hc. destruct (H c Hc) as [H1 H2]. split; [done|]. split; [apply H2|done]. Qed.
Lemma triple_aside m log seen : (∀ c, aside c (m c).2) → triple m log seen log seen.
Proof.
  intros H. apply triple_ok. intros c Hc. split; [apply vsame_vstep, (H c)|eapply aside_follows; [apply H|done]].
Qed.
Lemma triple_seq m k log1 seen1 log2 seen2 log3 seen3 :
  triple m log1 seen1 log2 seen2 → triple k log2 seen2 log3 seen3 → triple (cseq m k) log1 seen1 log3 seen3.
Proof.
  intros Hm Hk c Hc. destruct (Hm c Hc) as (H1 & H2 & H3). unfold cseq. destruct (m c) as [[[]|e|] c1]; [|done|done].
  destruct (Hk c1 (H3 eq_refl)) as (H4 & H5 & H6). split; [by etrans|done].
Qed.
Lemma triple_iter {A} (f : A → chnd) l log seen : (∀ x, x ∈ l → triple (f x) log seen log seen) → triple (citer f l) log seen log seen.
Proof.
  induction l as [|x l IH]; intros H; [apply triple_aside; reflexivity|].
  eapply triple_seq; [apply H; by left|]. apply IH. intros y Hy. apply H. by right.
Qed.
Lemma follows_seen log seen c : follows log seen c → follows log true c.
Proof. intros [H1 H2 H3]. split; [done..|]. intros v Hv. split; [done|by apply H3]. Qed.

(** ** Channels and updates *)

Lemma aside_ctx f c : (∀ x, subscriptions (f x) = subscriptions x) → (∀ x, cx_conid (f x) = cx_conid x) → aside c (c_ctx f c).
Proof. intros H1 H2. split_and!; [reflexivity|apply H1|apply H2|done]. Qed.
Lemma aside_sub f c : vsame (cs_sub c) (f (cs_sub c)) → aside c (c_sub f c).
Proof. by intros H. Qed.
Lemma aside_con_send m c : aside c (con_send reg next_wid m c).2.
Proof. unfold con_send. by case_match. Qed.
Lemma aside_finish w r c : aside c (finish w r c).
Proof. apply aside_sub, quiet_vsame, quiet_oneshot_send. Qed.
Lemma aside_fold {A} (f : CState → A → CState) l c : (∀ c x, aside c (f c x)) → aside c (foldl f c l).
Proof. intros H. revert c. induction l as [|x l IH]; intros c; [reflexivity|]. cbn. etrans; [apply H|apply IH]. Qed.
Lemma aside_send_updates c : aside c (send_updates c).
Proof.
  unfold send_updates. etrans; [|by apply aside_ctx]. apply aside_fold. clear c. intros c [i [tx [|ev b]]]; [reflexivity|]. cbn.
  repeat case_match; by split_and!.
Qed.
Lemma push_events_subs sub e x : subscriptions (push_events sub e x) = subscriptions x ∧ cx_conid (push_events sub e x) = cx_conid x.
Proof.
  unfold push_events. generalize (cs_streams sub) as l. intros l. revert x. induction l as [|[i tx] l IH]; intros x; [done|].
  cbn [foldl]. destruct (IH (push_event i tx (cs_sub_id sub, e) x)) as [-> ->]. done.
Qed.

(** Setting the value of a subscription *)
Lemma lookup_set_last sub e s r : V (set_sub_last sub e s) !! r =
  if cs_collects sub then (if decide (r = cs_val sub) then (fun '(sid, i, cn, _) => (sid, i, cn, e)) <$> V s !! r else V s !! r) else V s !! r.
Proof.
  unfold set_sub_last. destruct (cs_collects sub); [|done]. cbn. rewrite !lookup_fmap. case_decide as Hr.
  - rewrite Hr, lookup_alter_eq. by destruct (vals (mem s) !! cs_val sub).
  - by rewrite lookup_alter_ne.
Qed.
Lemma vstep_set_last sub e s sid i e0 : V s !! cs_val sub = Some (sid, i, conid, e0) → vstep s (set_sub_last sub e s).
Proof.
  intros Hv. split.
  - intros r sid' i' cn e' Hr. rewrite lookup_set_last. destruct (cs_collects sub); [|by exists e']. case_decide as Heq; [|by exists e'].
    subst r. rewrite Hv in Hr. injection Hr as <- <- <- <-. rewrite Hv. cbn. eexists. split; [done|]. by intros [].
  - intros K r k. rewrite lookup_set_last. assert (Hn : next_ref (mem (set_sub_last sub e s)) = next_ref (mem s)) by (unfold set_sub_last; by case_match).
    rewrite Hn. destruct (cs_collects sub); [|apply K]. case_decide; [|apply K]. destruct (V s !! r) as [k'|] eqn:E; [|done]. intros _. by eapply K.
Qed.
Lemma served_set_last sub e c : served c → (∃ i, subscriptions (cs_ctx c) !! i = Some sub) → served (c_sub (set_sub_last sub e) c).
Proof.
  intros (H1 & H2 & H3) Hi. split; [done|]. split.
  { destruct Hi as (i & Hi). destruct (H3 i sub Hi) as (sid & e0 & Hv). by apply (vstep_set_last _ e _ _ _ _ Hv). }
  intros i sub' Hs. destruct (H3 i sub' Hs) as (sid & e0 & Hv). cbn [cs_sub c_sub].
  rewrite lookup_set_last. destruct (cs_collects sub); [|by eexists _, _]. case_decide; rewrite Hv; by eexists _, _.
Qed.
(** An update of [i]; the messages may have grown by it. *)
Lemma follows_update log log' seen i sub v c : subscriptions (cs_ctx c) !! i = Some sub → follows log seen c →
  (if decide (i = id) then latest id log' = Some v ∧ (seen = true → latest id log = Some v) else latest id log' = latest id log) →
  vstep (cs_sub c) (cs_sub (apply_update i sub v c)) ∧ follows log' seen (apply_update i sub v c).
Proof.
  intros Hi [H1 H2 H3] Hl. unfold apply_update. set (c1 := c_ctx _ c).
  assert (Ha : aside c c1) by (apply aside_ctx; intros x; apply push_events_subs).
  destruct (proj2 (proj2 H1) i sub Hi) as (sid & e0 & Hv). split; [exact (vstep_set_last _ _ _ _ _ _ Hv)|].
  assert (Es : subscriptions (cs_ctx c1) = subscriptions (cs_ctx c)) by apply Ha.
  split.
  - apply served_set_last; [by eapply aside_served|]. exists i. by rewrite Es.
  - intros sub' sid' e Hs Hc. cbn [cs_sub cs_ctx c_sub] in *. rewrite Es in Hs. rewrite lookup_set_last.
    change (V (cs_sub c1)) with (V (cs_sub c)). case_decide as Heq.
    + subst i. rewrite Hi in Hs. injection Hs as <-. rewrite Hc, decide_True by done. rewrite Hv. cbn. intros [= <- <-]. exists v. split; [done|apply Hl].
    + destruct (proj2 (proj2 H1) id sub' Hs) as (sid2 & e2 & Hv2). assert (Hne : cs_val sub' ≠ cs_val sub).
      { intros E. rewrite E, Hv in Hv2. congruence. }
      rewrite (decide_False _ _ Hne). rewrite Hl. destruct (cs_collects sub); intros He; by eapply H2.
  - intros w Hw. destruct (H3 w Hw) as [-> Hw']. split; [done|]. case_decide; [|congruence]. destruct Hl as [Hl1 Hl2]. rewrite Hl1. by rewrite <-(Hl2 eq_refl).
Qed.

(** The entry of a subscription changes, but for its value. *)
Lemma follows_entry log seen c i sub sub' l x : subscriptions (cs_ctx c) !! i = Some sub → cs_val sub' = cs_val sub →
  (cs_collects sub' = true → cs_collects sub = true) →
  subscriptions x = <[i := sub']> (subscriptions (cs_ctx c)) → cx_conid x = cx_conid (cs_ctx c) →
  (∀ v, (id, v) ∈ l → (id, v) ∈ cs_stream c ∨ (i = id ∧ latest id log = Some v)) →
  follows log seen c → follows log true (MkCState (cs_sub c) x (cs_out c) l).
Proof.
  intros Hi Hval Hcol Ex Ec Hl [(H1 & Hk & H2) H3 H4]. split.
  - split; [by rewrite <-H1|]. split; [exact Hk|]. intros j sub2. cbn. rewrite Ex. destruct (decide (i = j)) as [<-|Hne].
    + rewrite lookup_insert_eq. intros [= <-]. rewrite Hval. by apply H2.
    + rewrite lookup_insert_ne by done. apply H2.
  - intros sub2 sid e. cbn. rewrite Ex. destruct (decide (i = id)) as [->|Hne].
    + rewrite lookup_insert_eq. intros [= <-] Hc. rewrite Hval. apply (H3 sub); auto.
    + rewrite lookup_insert_ne by done. apply H3.
  - intros v Hv. split; [done|]. destruct (Hl v Hv) as [Hs|[_ H]]; [by apply H4|done].
Qed.
Lemma follows_connect log seen i tx flags c : follows log seen c →
  vstep (cs_sub c) (cs_sub (handle_connect_stream i tx flags c)) ∧
  follows log (if decide (i = id) then true else seen) (handle_connect_stream i tx flags c).
Proof.
  intros Hf. unfold handle_connect_stream. destruct (subscriptions (cs_ctx c) !! i) as [sub|] eqn:Hi.
  2: { split; [reflexivity|]. case_decide; [by eapply follows_seen|done]. }
  set (c1 := c_ctx _ c). set (c2 := if flags_contains flags BEGIN_WITH_LAST && _ then _ else c1).
  assert (Hc2 : ∃ x l, c2 = MkCState (cs_sub c) x (cs_out c) l ∧ subscriptions x = subscriptions (cs_ctx c) ∧ cx_conid x = cx_conid (cs_ctx c) ∧
    ∀ v, (id, v) ∈ l → (id, v) ∈ cs_stream c ∨ (i = id ∧ latest id log = Some v)).
  { assert (Hg : ∀ l x, let x' := foldl (fun x (ic : ChanId * Chan) => cx_gc_chan (union {[ic.1]}) (cx_by_receiver (delete ic.2) x)) x l in
      subscriptions x' = subscriptions x ∧ cx_conid x' = cx_conid x).
    { induction l as [|y l IH]; intros x; [done|]. exact (IH (cx_gc_chan (union {[y.1]}) (cx_by_receiver (delete y.2) x))). }
    destruct (Hg (filter (fun ic : ChanId * Chan => is_closed_chan ic.2 (cs_sub c) = true) (cs_streams sub)) (cs_ctx c)) as [Hg1 Hg2].
    assert (H1 : ∃ x l, c1 = MkCState (cs_sub c) x (cs_out c) l ∧ subscriptions x = subscriptions (cs_ctx c) ∧ cx_conid x = cx_conid (cs_ctx c) ∧
      ∀ v, (id, v) ∈ l → (id, v) ∈ cs_stream c ∨ (i = id ∧ latest id log = Some v)).
    { eexists _, _. split; [reflexivity|]. split_and!; [exact Hg1|exact Hg2|auto]. }
    unfold c2. case_match; [|done]. destruct (cs_collects sub) eqn:Hcol; [|done].
    destruct (val_last (cs_val sub) (cs_sub c1)) as [[|w]|] eqn:Hlast; [done| |done].
    destruct H1 as (x & l & E & Ex & Ec & Hl). rewrite E. eexists _, _. split; [reflexivity|]. split_and!; [done..|].
    intros v. rewrite elem_of_app, list_elem_of_singleton. intros [Hv|[= <- ->]]; [by apply Hl|]. right. split; [done|].
    destruct Hf as [(_ & _ & Hf2) Hf3 _]. destruct (Hf2 _ sub Hi) as (sid & e & Hv). destruct (Hf3 sub sid e Hi Hcol Hv) as (v' & -> & Hv').
    change (val_last (cs_val sub) (cs_sub c) = Some (Ev_Update w)) in Hlast. unfold val_last in Hlast. cbn in Hv. rewrite lookup_fmap in Hv.
    destruct (vals (mem (cs_sub c)) !! cs_val sub) as [y|]; [|done]. unfold vcore in Hv. cbn in *. congruence. }
  clearbody c2. clear c1. destruct Hc2 as (x & l & -> & Ex & Ec & Hl).
  set (sub' := if flags_contains flags STOP_COLLECTING_LAST then _ else sub).
  assert (Hsub' : cs_val sub' = cs_val sub ∧ (cs_collects sub' = true → cs_collects sub = true)) by (unfold sub'; by case_match).
  assert (Hgoal : ∀ sub2 x2, cs_val sub2 = cs_val sub' → cs_collects sub2 = cs_collects sub' → subscriptions x2 = <[i := sub2]> (subscriptions x) → cx_conid x2 = cx_conid x →
    follows log (if decide (i = id) then true else seen) (MkCState (cs_sub c) x2 (cs_out c) l)).
  { intros sub2 x2 E1 E2 E3 E4. assert (H : follows log true (MkCState (cs_sub c) x2 (cs_out c) l)).
    { eapply (follows_entry log seen c i sub sub2); [done|destruct Hsub'; congruence|rewrite E2; apply Hsub'|by rewrite E3, Ex|congruence|done|done]. }
    case_decide as Hd; [done|]. destruct H as [H1 H2 H3]. split; [done..|]. intros v Hv. destruct (Hl v Hv) as [Hs|[? _]]; [|done]. by apply Hf. }
  destruct (bool_decide (tx ∈ _)); (split; [reflexivity|]).
  - by apply (Hgoal sub').
  - unfold c_ctx. cbn. destruct (chan_id_for tx x) as [ci x1] eqn:E1.
    assert (Hx1 : subscriptions x1 = subscriptions x ∧ cx_conid x1 = cx_conid x) by (unfold chan_id_for in E1; destruct (by_receiver x !! tx); by injection E1 as <- <-).
    destruct Hx1. eapply Hgoal; [| |cbn; by f_equal|done]; done.
Qed.
Lemma follows_connect_all log seen i streams c : follows log seen c →
  vstep (cs_sub c) (cs_sub (connect_all i streams c)) ∧ follows log (if decide (i = id) then true else seen) (connect_all i streams c).
Proof.
  unfold connect_all. revert seen c. induction streams as [|[f tx] l IH]; intros seen c Hf.
  { split; [reflexivity|]. case_decide; [by eapply follows_seen|done]. }
  cbn [foldl]. destruct (follows_connect log seen i tx (Z.lor f BEGIN_WITH_LAST) c Hf) as [H1 H2].
  destruct (IH _ _ H2) as [H3 H4]. split; [by etrans|]. by case_decide.
Qed.

(** [stream_batch] repeats the latest value. *)
Lemma triple_repeat log seen l : (∀ v, (id, v) ∈ l → latest id log = Some v) →
  triple (process_updates_batch ((fun '(i, v) => From_Update i v) <$> l)) log seen log seen.
Proof.
  intros Hl. eapply triple_seq; [|apply triple_aside; intros c; apply aside_send_updates].
  apply triple_iter. intros m ([i v] & -> & Hm)%list_elem_of_fmap. apply triple_ok. intros c Hc. cbn.
  destruct (subscriptions (cs_ctx c) !! i) as [sub|] eqn:Hi; [|by split]. cbn. eapply follows_update; [done|done|].
  case_decide as Hd; [|done]. subst i. auto.
Qed.
Lemma triple_stream_batch log seen seen' f : (∀ c, aside c (f c)) → triple (process_stream_batch f) log seen log seen'.
Proof.
  intros Hf c Hc. unfold process_stream_batch. destruct (cs_stream c) as [|iv l] eqn:E.
  - cbn. split; [apply vsame_vstep, (Hf c)|]. split; [eapply aside_served; [apply Hf|apply Hc]|]. intros _.
    eapply aside_follows; [apply Hf|]. destruct Hc as [H1 H2 H3]. split; [done..|]. rewrite E. by intros v H%not_elem_of_nil.
  - refine (triple_repeat log seen' (iv :: l) _ (c_stream [] c) _).
    + intros v Hv. rewrite <-E in Hv. by apply Hc.
    + destruct Hc as [H1 H2 H3]. split; [done..|]. by intros v H%not_elem_of_nil.
Qed.
Lemma follows_clear log seen seen' c : follows log seen c → follows log seen' (c_stream [] c).
Proof. intros [H1 H2 H3]. split; [done..|]. by intros v H%not_elem_of_nil. Qed.

(** ** Requests of the program *)

Lemma triple_to_con log m : triple (handle_to_con reg next_wid m) log true log true.
Proof.
  destruct m as [req|i|i tx flags|i v wid tx|w]; cbn [handle_to_con].
  - apply triple_aside. intros c. cbn zeta. etrans; [|apply aside_con_send].
    set (c1 := c_ctx _ c). assert (H : aside c c1) by (by apply aside_ctx). etrans; [exact H|]. case_match; [|reflexivity].
    apply aside_sub, quiet_vsame, quiet_sender_drop.
  - apply triple_aside. intros c. apply aside_con_send.
  - apply triple_ok. intros c Hc. cbn. destruct (follows_connect log true i tx flags c Hc) as [H1 H2]. split; [done|]. by case_decide.
  - eapply triple_seq; [apply triple_aside; intros c; apply aside_con_send|]. destruct tx; [|apply triple_aside; reflexivity].
    apply triple_aside. intros c. by apply aside_ctx.
  - apply triple_aside. intros c. by apply aside_ctx.
Qed.
Lemma triple_to_cons log l : triple (handle_to_cons reg next_wid l) log true log true.
Proof.
  induction l as [|m l IH]; intros c Hc; [by split_and!; [reflexivity|apply Hc|]|]. cbn [handle_to_cons].
  destruct (triple_to_con log m c Hc) as (H1 & H2 & H3). destruct (handle_to_con reg next_wid m c) as [[[]|e|] c1].
  - destruct (IH c1 (H3 eq_refl)) as (H4 & H5 & H6). split; [by etrans|done].
  - assert (Ha : aside c1 (c_sub (fun s => foldl (fun s m => to_con_drop m s) s l) c1)).
    { apply aside_sub, vsame_foldl. intros s x. apply quiet_vsame, quiet_to_con_drop. }
    split; [etrans; [exact H1|apply vsame_vstep, Ha]|]. split; [by eapply aside_served|done].
  - assert (Ha : aside c1 (c_sub (fun s => foldl (fun s m => to_con_drop m s) s l) c1)).
    { apply aside_sub, vsame_foldl. intros s x. apply quiet_vsame, quiet_to_con_drop. }
    split; [etrans; [exact H1|apply vsame_vstep, Ha]|]. split; [by eapply aside_served|done].
Qed.
Lemma triple_from_sub log seen l : triple (handle_from_sub reg next_wid l) log seen log seen.
Proof.
  intros c Hc. unfold handle_from_sub.
  refine (triple_seq _ _ log true log true log seen (triple_to_cons log l) (triple_stream_batch log true seen (fun c => c) _) (c_stream [] c) _).
  - intros c1. reflexivity.
  - by eapply follows_clear.
Qed.

(** ** Messages of the publisher *)

Lemma follows_log log log' seen c : latest id log' = latest id log → follows log seen c → follows log' seen c.
Proof. intros E [H1 H2 H3]. split; [done|rewrite E; done..]. Qed.
Lemma latest_other log m : news id m = None → latest id (log ++ [m]) = latest id log.
Proof. intros H. rewrite latest_app. unfold latest at 1. cbn. by rewrite H. Qed.
Lemma latest_this log m v : news id m = Some v → latest id (log ++ [m]) = Some v.
Proof. intros H. rewrite latest_app. unfold latest at 1. cbn. by rewrite H. Qed.

(** The subscription of [id] goes. *)
Lemma follows_unsubscribe log seen now i sub c : subscriptions (cs_ctx c) !! i = Some sub → follows log seen c →
  let c' := con_unsubscribe now sub i (c_ctx (cx_subscriptions (delete i)) c) in
  vstep (cs_sub c) (cs_sub c') ∧ follows log seen c' ∧ subscriptions (cs_ctx c') = delete i (subscriptions (cs_ctx c)).
Proof.
  intros Hi [(H1 & Hk & H2) H3 H4] c'. unfold con_unsubscribe in c'.
  set (c1 := c_ctx (push_events sub Ev_Unsubscribed) (c_ctx (cx_subscriptions (delete i)) c)) in c'.
  assert (Ex : subscriptions (cs_ctx c1) = delete i (subscriptions (cs_ctx c)) ∧ cx_conid (cs_ctx c1) = cx_conid (cs_ctx c)).
  { unfold c1. cbn. by rewrite (proj1 (push_events_subs _ _ _)), (proj2 (push_events_subs _ _ _)). }
  destruct Ex as [Ex Ec]. destruct (H2 i sub Hi) as (sid & e0 & Hv).
  set (s2 := set_sub_last sub Ev_Unsubscribed (cs_sub c)).
  pose proof (vstep_set_last sub Ev_Unsubscribed (cs_sub c) _ _ _ Hv) as Hst. fold s2 in Hst.
  pose proof (vsame_unsubscribe now (cs_path sub) i (cx_conid (cs_ctx (c_sub (set_sub_last sub Ev_Unsubscribed) c1))) s2) as Hsame.
  change (cs_sub c') with (unsubscribe_status (cs_path sub) i (cx_conid (cs_ctx (c_sub (set_sub_last sub Ev_Unsubscribed) c1))) (unsubscribe_durable now (cs_path sub) s2)).
  set (s3 := unsubscribe_status _ _ _ _) in *. assert (Hst3 : vstep (cs_sub c) s3) by (etrans; [exact Hst|by apply vsame_vstep]).
  split; [done|]. split; [|exact Ex].
  (* another subscription has another value *)
  assert (Hother : ∀ j sub' sid' e', j ≠ i → subscriptions (cs_ctx c) !! j = Some sub' → V s3 !! cs_val sub' = Some (sid', j, conid, e') →
    V (cs_sub c) !! cs_val sub' = Some (sid', j, conid, e')).
  { intros j sub' sid' e' Hne Hj. destruct Hsame as [-> _]. destruct (H2 j sub' Hj) as (sid2 & e2 & Hv2). unfold s2.
    rewrite lookup_set_last. destruct (cs_collects sub); [|done]. case_decide as E; [|done]. rewrite E, Hv in Hv2. congruence. }
  split.
  - split; [by rewrite <-H1|]. split; [by apply Hst3|]. intros j sub'. change (subscriptions (cs_ctx c')) with (subscriptions (cs_ctx c1)).
    rewrite Ex. intros [Hne Hj]%lookup_delete_Some. destruct (H2 j sub' Hj) as (sid2 & e2 & Hv2). apply Hst3 in Hv2 as (e3 & Hv3 & _). by eexists _, _.
  - intros sub' sid' e. change (subscriptions (cs_ctx c')) with (subscriptions (cs_ctx c1)). rewrite Ex. intros [Hne Hj]%lookup_delete_Some Hc Hv'.
    apply (H3 sub' sid' e); [done..|]. by apply (Hother id).
  - exact H4.
Qed.

Lemma gc_subs (l : list (ChanId * Chan)) x :
  subscriptions (foldl (fun x (ic : ChanId * Chan) => cx_gc_chan (union {[ic.1]}) (cx_by_receiver (delete ic.2) x)) x l) = subscriptions x.
Proof. revert x. induction l as [|y l IH]; intros x; [done|]. exact (IH (cx_gc_chan (union {[y.1]}) (cx_by_receiver (delete y.2) x))). Qed.
Lemma connect_other i j tx flags c : i ≠ j → subscriptions (cs_ctx (handle_connect_stream i tx flags c)) !! j = subscriptions (cs_ctx c) !! j.
Proof.
  intros Hne. unfold handle_connect_stream. destruct (subscriptions (cs_ctx c) !! i) as [sub|]; [|done].
  set (c1 := c_ctx _ c). assert (E1 : subscriptions (cs_ctx c1) = subscriptions (cs_ctx c)) by apply gc_subs.
  set (c2 := if flags_contains flags BEGIN_WITH_LAST && _ then _ else c1).
  assert (E2 : subscriptions (cs_ctx c2) = subscriptions (cs_ctx c)).
  { unfold c2. case_match; [|done]. destruct (if cs_collects sub then _ else _) as [[|]|]; done. }
  clearbody c2. destruct (bool_decide (tx ∈ _)); cbn.
  - by rewrite lookup_insert_ne, E2.
  - destruct (chan_id_for tx (cs_ctx c2)) as [ci x1] eqn:E. assert (Hx : subscriptions x1 = subscriptions (cs_ctx c2)).
    { unfold chan_id_for in E. destruct (by_receiver (cs_ctx c2) !! tx); by injection E as <- <-. }
    cbn. by rewrite lookup_insert_ne, Hx, E2.
Qed.
Lemma connect_all_other i j streams c : i ≠ j → subscriptions (cs_ctx (connect_all i streams c)) !! j = subscriptions (cs_ctx c) !! j.
Proof.
  intros Hne. unfold connect_all. revert c. induction streams as [|[f tx] l IH]; intros c; [done|]. cbn [foldl]. by rewrite IH, connect_other.
Qed.

(** A new subscription starts with the value of the message. *)
Lemma follows_new log seen req i v c : subscriptions (cs_ctx c) !! i = None → follows log seen c →
  (i = id → seen = false) →
  let o := subscribed_new reg next_wid req i v c in
  let log' := log ++ [From_Subscribed (req_path req) i v] in
  vstep (cs_sub c) (cs_sub o.2) ∧ served o.2 ∧
  (o.1 = Ok () → follows log' (if decide (i = id) then true else seen) o.2) ∧
  (i ≠ id → subscriptions (cs_ctx o.2) !! id = subscriptions (cs_ctx c) !! id).
Proof.
  intros Hi Hf Hseen o log'. unfold subscribed_new in o. cbn zeta in o.
  change (new_ref (cs_sub c)) with (next_ref (mem (cs_sub c)), on_mem (mem_next_ref Z.succ) (cs_sub c)) in o. cbn beta iota in o.
  set (r := next_ref (mem (cs_sub c))) in o. set (s1 := on_mem (mem_vals _) _) in o.
  pose proof (quiet_vsame _ _ (quiet_oneshot_send (req_finished req) (Got r) s1)) as H2.
  destruct (oneshot_send (req_finished req) (Got r) s1) as [sent s2]. cbn [snd] in H2.
  assert (Hs1 : V s1 = <[r := (req_sub_id req, i, cx_conid (cs_ctx c), Ev_Update v)]> (V (cs_sub c))) by (unfold s1; cbn; by rewrite fmap_insert).
  destruct Hf as [(H1 & Hk & Hs) Hv Hst].
  assert (Hr : V (cs_sub c) !! r = None).
  { destruct (V (cs_sub c) !! r) as [k|] eqn:E; [|done]. specialize (Hk r k E). unfold r in Hk. lia. }
  assert (Hstep1 : vstep (cs_sub c) s1).
  { split.
    - intros q sid j cn e Hq. exists e. rewrite Hs1, lookup_insert_ne; [done|]. intros <-. congruence.
    - intros _ q k. rewrite Hs1. change (next_ref (mem s1)) with (r + 1). destruct (decide (r = q)) as [<-|Hne]; [lia|].
      rewrite lookup_insert_ne by done. intros Hq%Hk. fold r in Hq. lia. }
  assert (Hstep2 : vstep (cs_sub c) s2) by (etrans; [exact Hstep1|by apply vsame_vstep]).
  assert (Hold : ∀ q sid j e, V s2 !! q = Some (sid, j, conid, e) → q ≠ r → V (cs_sub c) !! q = Some (sid, j, conid, e)).
  { intros q sid j e. destruct H2 as [-> _]. rewrite Hs1. intros Hq Hne. by rewrite lookup_insert_ne in Hq. }
  assert (Hlate : i ≠ id → latest id log' = latest id log) by (intros Hne; apply latest_other; unfold news; by rewrite decide_False).
  assert (Hstream : ∀ w, (id, w) ∈ cs_stream c → seen = true ∧ latest id log' = Some w).
  { intros w Hw. destruct (Hst w Hw) as [-> Hlw]. split; [done|]. rewrite Hlate; [done|]. intros E; discriminate (Hseen E). }
  (* without the subscription *)
  assert (Hf1 : follows log' seen (c_sub (fun _ => s2) c)).
  { split; [split; [done|]; split; [by apply Hstep2|]|..].
    - intros j sub Hj. destruct (Hs j sub Hj) as (sid & e & Hv'). apply Hstep2 in Hv' as (e' & Hv' & _). by eexists _, _.
    - intros sub sid e Hj Hc Hv'. destruct (decide (i = id)) as [->|Hne]; [cbn in Hj; congruence|]. rewrite (Hlate Hne). apply (Hv sub sid e); [done..|].
      apply Hold; [done|]. intros E. destruct (Hs id sub Hj) as (sid2 & e2 & Hv2). rewrite E in Hv2. congruence.
    - exact Hstream. }
  (* and with it *)
  set (sub0 := MkConSub (req_path req) (req_sub_id req) [] true r) in o.
  assert (Hf2 : follows log' seen (c_ctx (cx_subscriptions <[i := sub0]>) (c_sub (fun _ => s2) c))).
  { assert (Hnew : V s2 !! r = Some (req_sub_id req, i, conid, Ev_Update v)) by (destruct H2 as [-> _]; by rewrite Hs1, lookup_insert_eq, H1).
    destruct Hf1 as [(_ & Hk1 & Hs2) Hv1 _]. split; [split; [done|]; split; [done|]|..].
    - intros j sub. cbn. destruct (decide (i = j)) as [<-|Hne]; [rewrite lookup_insert_eq; intros [= <-]; by eexists _, _|rewrite lookup_insert_ne by done; apply Hs2].
    - intros sub sid e Hj Hc He. change (<[i := sub0]> (subscriptions (cs_ctx c)) !! id = Some sub) in Hj. change (V s2 !! cs_val sub = Some (sid, id, conid, e)) in He.
      destruct (decide (i = id)) as [->|Hne].
      + rewrite lookup_insert_eq in Hj. injection Hj as <-. change (cs_val sub0) with r in He. rewrite Hnew in He. injection He as <- <-. exists v. split; [done|].
        apply latest_this. unfold news. by rewrite decide_True.
      + rewrite lookup_insert_ne in Hj by done. by apply (Hv1 sub sid e).
    - exact Hstream. }
  assert (Hend : ∀ c2, follows log' seen c2 → vstep (cs_sub c) (cs_sub c2) →
    (i ≠ id → subscriptions (cs_ctx c2) !! id = subscriptions (cs_ctx c) !! id) →
    let c3 := c_sub (val_drop r) (connect_all i (req_streams req) c2) in
    vstep (cs_sub c) (cs_sub c3) ∧ served c3 ∧ follows log' (if decide (i = id) then true else seen) c3 ∧
    (i ≠ id → subscriptions (cs_ctx c3) !! id = subscriptions (cs_ctx c) !! id)).
  { intros c2 Hf3 Hst3 Hid c3. destruct (follows_connect_all log' seen i (req_streams req) c2 Hf3) as [Hst4 Hf4].
    assert (Ha : aside (connect_all i (req_streams req) c2) c3) by (apply aside_sub, quiet_vsame, quiet_val_drop).
    assert (Hf5 : follows log' (if decide (i = id) then true else seen) c3) by (by eapply aside_follows).
    split_and!; [|apply Hf5|done|].
    - etrans; [exact Hst3|]. etrans; [exact Hst4|]. apply vsame_vstep, Ha.
    - intros Hne. change (subscriptions (cs_ctx c3)) with (subscriptions (cs_ctx (connect_all i (req_streams req) c2))). by rewrite connect_all_other, Hid. }
  destruct sent.
  - cbn in o. destruct (Hend _ Hf2) as (E1 & E2 & E3 & E4); [done|intros Hne; cbn; by rewrite lookup_insert_ne|]. split_and!; done.
  - pose proof (aside_con_send (To_Unsubscribe i) (c_sub (fun _ => s2) c)) as Ha.
    destruct (con_send reg next_wid (To_Unsubscribe i) (c_sub (fun _ => s2) c)) as [out c2]. cbn [snd] in Ha.
    assert (Hf3 : follows log' seen c2) by (by eapply aside_follows).
    assert (Hst3 : vstep (cs_sub c) (cs_sub c2)) by (etrans; [exact Hstep2|apply vsame_vstep, Ha]).
    assert (Hid : i ≠ id → subscriptions (cs_ctx c2) !! id = subscriptions (cs_ctx c) !! id) by (intros _; destruct Ha as (_ & -> & _); done).
    assert (Hdrop : aside c2 (c_sub (val_drop r) c2)) by (apply aside_sub, quiet_vsame, quiet_val_drop).
    destruct out as [[]|e|]; cbn in o.
    + destruct (Hend _ Hf3 Hst3 Hid) as (E1 & E2 & E3 & E4). split_and!; done.
    + split_and!; [etrans; [exact Hst3|apply vsame_vstep, Hdrop]|eapply aside_served; [exact Hdrop|apply Hf3]|done|done].
    + split_and!; [etrans; [exact Hst3|apply vsame_vstep, Hdrop]|eapply aside_served; [exact Hdrop|apply Hf3]|done|done].
Qed.

(** Whether messages come in an order in which nothing goes wrong: [subd] says that the
    value may be subscribed, [seen] that it was connected in this batch. It is not
    subscribed twice, and no update follows its subscription in the same batch. *)
Fixpoint plain (subd seen : bool) (l : list From) : bool :=
  match l with
  | [] => true
  | From_Update i _ :: l => (negb (bool_decide (i = id)) || negb seen) && plain subd seen l
  | From_Subscribed _ i _ :: l => if decide (i = id) then negb subd && negb seen && plain true true l else plain subd seen l
  | From_Unsubscribed i :: l => if decide (i = id) then plain false seen l else plain subd seen l
  | _ :: l => plain subd seen l
  end.
(** Nothing is subscribed while [subd] does not say so. *)
Definition unsubd (subd : bool) (c : CState) : Prop := subd = false → subscriptions (cs_ctx c) !! id = None.
Lemma unsubd_aside subd c c' : aside c c' → unsubd subd c → unsubd subd c'.
Proof. intros (_ & E & _) H Hs. rewrite E. by apply H. Qed.

(** One message, and the rest of the batch after it *)
Definition msg_ok (m : chnd) (log : list From) (seen subd : bool) (log' : list From) (seen' subd' : bool) (c : CState) : Prop :=
  vstep (cs_sub c) (cs_sub (m c).2) ∧ served (m c).2 ∧ ((m c).1 = Ok () → follows log' seen' (m c).2 ∧ unsubd subd' (m c).2).
Lemma msg_aside m log seen subd x c : aside c (m c).2 → news id x = None → follows log seen c → unsubd subd c →
  msg_ok m log seen subd (log ++ [x]) seen subd c.
Proof.
  intros Ha Hx Hf Hu. split; [apply vsame_vstep, Ha|]. split; [eapply aside_served; [exact Ha|apply Hf]|]. intros _. split.
  - eapply follows_log; [by apply latest_other|]. by eapply aside_follows.
  - by eapply unsubd_aside.
Qed.
Lemma from_ok now m rest log seen subd c : follows log seen c → unsubd subd c → plain subd seen (m :: rest) = true →
  ∃ seen' subd', msg_ok (handle_from reg next_wid now m) log seen subd (log ++ [m]) seen' subd' c ∧ plain subd' seen' rest = true.
Proof.
  intros Hf Hu Hp.
  assert (Haside : news id m = None → (∀ c, aside c (handle_from reg next_wid now m c).2) → plain subd seen rest = true →
    ∃ seen' subd', msg_ok (handle_from reg next_wid now m) log seen subd (log ++ [m]) seen' subd' c ∧ plain subd' seen' rest = true).
  { intros Hn Ha Hr. exists seen, subd. split; [by apply msg_aside|done]. }
  destruct m as [p|p|i|p i v|i v| |i v wid]; cbn [plain] in Hp.
  - apply Haside; [done| |done]. intros c'. cbn. case_match; [|by apply aside_ctx].
    etrans; [|apply aside_finish]. by apply aside_ctx.
  - apply Haside; [done| |done]. intros c'. cbn. case_match; [|by apply aside_ctx].
    etrans; [|apply aside_finish]. by apply aside_ctx.
  - exists seen, (if decide (i = id) then false else subd). split; [|by case_decide].
    unfold msg_ok. cbn [handle_from cupd fst snd]. destruct (subscriptions (cs_ctx c) !! i) as [sub|] eqn:Hi.
    + destruct (follows_unsubscribe log seen now i sub c Hi Hf) as (H1 & H2 & H3). split_and!; [done|apply H2|]. intros _. split.
      * eapply follows_log; [by apply latest_other|done].
      * intros Hs. rewrite H3. case_decide as Hd; [subst i; apply lookup_delete_eq|]. rewrite lookup_delete_ne by done. by apply Hu.
    + split_and!; [reflexivity|apply Hf|]. intros _. split; [eapply follows_log; [by apply latest_other|done]|].
      intros Hs. case_decide as Hd; [by subst i|by apply Hu].
  - (* a subscription *)
    set (seen' := if decide (i = id) then true else seen). set (subd' := if decide (i = id) then true else subd).
    assert (Hp' : (i = id → subd = false ∧ seen = false) ∧ plain subd' seen' rest = true).
    { unfold seen', subd'. case_decide; [|done]. split; [intros _|by destruct (negb subd && negb seen)]. by destruct subd, seen. }
    destruct Hp' as [Hno Hr]. exists seen', subd'. split; [|done].
    set (log' := log ++ [From_Subscribed p i v]). unfold msg_ok. cbn [handle_from].
    unfold take_pending. cbv beta iota zeta. set (c1 := c_ctx (cx_pending (delete p)) c).
    assert (Ha : aside c c1) by (by apply aside_ctx). pose proof (aside_follows _ _ _ _ Ha Hf) as Hf1.
    assert (Hlog : ∀ c2, (i = id → subscriptions (cs_ctx c2) !! id = None) → follows log seen c2 → follows log' seen' c2).
    { intros c2 Hn [S1 S2 S3]. unfold seen'. case_decide as Hd.
      - subst i. split; [done|intros sub sid e Hs; rewrite (Hn eq_refl) in Hs; done|]. intros w Hw. destruct (S3 w Hw) as [E _].
        destruct (Hno eq_refl). congruence.
      - eapply follows_log; [|by split]. apply latest_other. unfold news. by rewrite decide_False. }
    assert (Hnone : i = id → subscriptions (cs_ctx c1) !! id = None) by (intros E; by apply Hu, Hno).
    assert (Hstay : ∀ c2, subscriptions (cs_ctx c2) !! id = subscriptions (cs_ctx c) !! id → unsubd subd' c2).
    { intros c2 E Hs. rewrite E. apply Hu. unfold subd' in Hs. by case_decide. }
    destruct (pending (cs_ctx c) !! p) as [req|].
    2: { pose proof (aside_con_send (To_Unsubscribe i) c1) as Hc. split_and!.
      - etrans; [apply vsame_vstep, Ha|apply vsame_vstep, Hc].
      - eapply aside_served; [exact Hc|apply Hf1].
      - intros _. split; [apply Hlog; [intros E; destruct Hc as (_ & -> & _); auto|by eapply aside_follows]|].
        apply Hstay. destruct Hc as (_ & -> & _). done. }
    destruct (subscriptions (cs_ctx c1) !! i) as [sub|] eqn:Hi.
    + assert (Hne : i ≠ id) by (intros E; rewrite E, (Hnone E) in Hi; done).
      destruct (val_upgrade (cs_val sub) (cs_sub c1)); cbn [fst snd].
      * set (c2 := c_sub (val_clone (cs_val sub)) c1).
        assert (Ha2 : aside c1 c2) by (apply aside_sub, quiet_vsame, quiet_val_clone).
        destruct (follows_connect_all log seen i (req_streams req) c2 (aside_follows _ _ _ _ Ha2 Hf1)) as [H1 H2].
        set (c3 := connect_all i (req_streams req) c2) in *. pose proof (aside_finish (req_finished req) (Got (cs_val sub)) c3) as Ha3.
        assert (Hf3 : follows log seen (finish (req_finished req) (Got (cs_val sub)) c3)).
        { eapply aside_follows; [exact Ha3|]. by rewrite decide_False in H2 by done. }
        split_and!; [|apply Hf3|].
        -- etrans; [apply vsame_vstep, Ha|]. etrans; [apply vsame_vstep, Ha2|]. etrans; [exact H1|]. apply vsame_vstep, Ha3.
        -- intros _. split; [by apply Hlog|]. apply Hstay. destruct Ha3 as (_ & -> & _). unfold c3. by rewrite connect_all_other.
      * pose proof (aside_finish (req_finished req) (Failed AliasDropped) c1) as Ha3. split_and!.
        -- etrans; [apply vsame_vstep, Ha|apply vsame_vstep, Ha3].
        -- eapply aside_served; [exact Ha3|apply Hf1].
        -- intros _. split; [apply Hlog; [done|by eapply aside_follows]|]. apply Hstay. destruct Ha3 as (_ & -> & _). done.
    + destruct (follows_new log seen req i v c1 Hi Hf1) as (H1 & H2 & H3 & H4); [by intros E; apply Hno|].
      split_and!; [etrans; [apply vsame_vstep, Ha|exact H1]|done|]. intros Ho. split.
      * eapply follows_log; [|exact (H3 Ho)]. unfold log'. by rewrite !latest_app.
      * intros Hs. unfold subd' in Hs. case_decide as Hd; [done|]. rewrite (H4 Hd). by apply Hu.
  - (* an update *)
    apply andb_true_iff in Hp as [Hs Hr]. exists seen, subd. split; [|done]. unfold msg_ok. cbn [handle_from].
    assert (Hcase : (i = id → seen = false) ∧ (i ≠ id → latest id (log ++ [From_Update i v]) = latest id log)).
    { split; [intros ->; rewrite bool_decide_eq_true_2 in Hs by done; by destruct seen|]. intros Hne. apply latest_other. unfold news. by rewrite decide_False. }
    destruct Hcase as [Hseen Hlate].
    destruct (subscriptions (cs_ctx c) !! i) as [sub|] eqn:Hi.
    + destruct (follows_update log (log ++ [From_Update i v]) seen i sub v c Hi Hf) as [H1 H2].
      { case_decide as Hd; [|by apply Hlate]. split; [apply latest_this; unfold news; by rewrite decide_True|]. rewrite (Hseen Hd). done. }
      split_and!; [exact H1|apply H2|]. intros _. split; [exact H2|]. intros E. cbn. rewrite (proj1 (push_events_subs _ _ _)). by apply Hu.
    + pose proof (aside_con_send (To_Unsubscribe i) c) as Hc. split_and!; [apply vsame_vstep, Hc|eapply aside_served; [exact Hc|apply Hf]|].
      intros _. split; [|by eapply unsubd_aside]. eapply aside_follows; [exact Hc|]. destruct Hf as [S1 S2 S3]. split; [done|..].
      * intros sub sid e Hsub. destruct (decide (i = id)) as [->|Hne]; [congruence|]. rewrite (Hlate Hne). by apply S2.
      * intros w Hw. destruct (S3 w Hw) as [E Hl]. split; [done|]. destruct (decide (i = id)) as [E2|Hne]; [rewrite (Hseen E2) in E; done|]. by rewrite Hlate.
  - apply Haside; [done|intros c'; reflexivity|done].
  - apply Haside; [done| |done]. intros c'. cbn. destruct (pending_writes _ !! i) as [tbl|]; [|reflexivity].
    etrans; [|by apply aside_ctx]. case_match; [|reflexivity]. apply aside_sub. by split.
Qed.
Lemma from_all_ok now batch log seen subd c : follows log seen c → unsubd subd c → plain subd seen batch = true →
  let o := citer (handle_from reg next_wid now) batch c in
  vstep (cs_sub c) (cs_sub o.2) ∧ served o.2 ∧ (o.1 = Ok () → ∃ seen', follows (log ++ batch) seen' o.2).
Proof.
  revert log seen subd c. induction batch as [|m batch IH]; intros log seen subd c Hf Hu Hp; cbn.
  { split_and!; [reflexivity|apply Hf|]. intros _. exists seen. by rewrite app_nil_r. }
  destruct (from_ok now m batch log seen subd c Hf Hu Hp) as (seen' & subd' & (H1 & H2 & H3) & Hr). unfold cseq.
  destruct (handle_from reg next_wid now m c) as [[[]|e|] c1]; [|by split_and!..]. cbn in H1, H2. destruct (H3 eq_refl) as [Hf1 Hu1].
  destruct (IH _ _ _ _ Hf1 Hu1 Hr) as (H4 & H5 & H6). split_and!; [by etrans|done|]. intros Ho. destruct (H6 Ho) as [s Hs]. exists s.
  by rewrite <-app_assoc in Hs.
Qed.
Lemma process_ok now batch log seen subd c : follows log seen c → unsubd subd c → plain subd false batch = true →
  let o := process_batch reg next_wid now batch c in
  vstep (cs_sub c) (cs_sub o.2) ∧ served o.2 ∧ (o.1 = Ok () → follows (log ++ batch) false o.2).
Proof.
  intros Hf Hu Hp. unfold process_batch, cseq.
  destruct (from_all_ok now batch log false subd (c_stream [] c)) as (H1 & H2 & H3); [by eapply follows_clear|done|done|].
  destruct (citer _ batch _) as [[[]|e|] c1]; [|by split_and!..]. destruct (H3 eq_refl) as [s Hs].
  destruct (triple_stream_batch (log ++ batch) s false send_updates aside_send_updates c1 Hs) as (H4 & H5 & H6).
  split_and!; [etrans; [exact H1|exact H4]|done|done].
Qed.

(** A batch of updates only *)
Lemma fast_ok m log c : follows log false c → (∃ i v, m = From_Update i v) →
  let o := fast_update m c in vstep (cs_sub c) (cs_sub o.2) ∧ follows (log ++ [m]) false o.2.
Proof.
  intros Hf (i & v & ->). cbn [fast_update].
  assert (Hlate : i ≠ id → latest id (log ++ [From_Update i v]) = latest id log) by (intros Hne; apply latest_other; unfold news; by rewrite decide_False).
  destruct (subscriptions (cs_ctx c) !! i) as [sub|] eqn:Hi.
  - apply (follows_update log _ false i sub v c Hi Hf). case_decide as Hd; [|by apply Hlate].
    split; [apply latest_this; unfold news; by rewrite decide_True|done].
  - split; [reflexivity|]. destruct Hf as [S1 S2 S3]. split; [done|..].
    + intros sub sid e Hsub. destruct (decide (i = id)) as [->|Hne]; [cbn in Hsub; congruence|]. rewrite (Hlate Hne). by apply S2.
    + intros w Hw. by destruct (S3 w Hw).
Qed.
Lemma fast_all_ok batch log c : follows log false c → (∀ m, m ∈ batch → ∃ i v, m = From_Update i v) →
  let o := process_updates_batch batch c in vstep (cs_sub c) (cs_sub o.2) ∧ follows (log ++ batch) false o.2.
Proof.
  intros Hf Hb. unfold process_updates_batch. cut (let o := citer fast_update batch c in o.1 = Ok () ∧ vstep (cs_sub c) (cs_sub o.2) ∧ follows (log ++ batch) false o.2).
  { unfold cseq. destruct (citer fast_update batch c) as [o c1]. cbn. intros (-> & H1 & H2). pose proof (aside_send_updates c1) as Ha.
    split; [etrans; [exact H1|apply vsame_vstep, Ha]|by eapply aside_follows]. }
  revert log c Hf. induction batch as [|m batch IH]; intros log c Hf; cbn.
  { split_and!; [done|reflexivity|by rewrite app_nil_r]. }
  destruct (fast_ok m log c Hf) as [H1 H2]; [apply Hb; by left|]. unfold cseq.
  assert (Ho : (fast_update m c).1 = Ok ()) by (destruct (Hb m) as (i & v & ->); [by left|]; cbn; by destruct (_ !! i)).
  destruct (fast_update m c) as [o c1]. cbn in Ho, H1, H2. subst o. destruct (IH (fun x Hx => Hb x (list_elem_of_further _ _ _ Hx)) _ _ H2) as (E & H3 & H4).
  rewrite <-app_assoc in H4. split_and!; [done|by etrans|done].
Qed.

(** ** Turns *)

(** What a turn reads *)
Definition reads (r : CReady) (x : ConnectionCtx) : list From :=
  match r, blocked_channels x with CRBatch _ batch, [] => batch | _, _ => [] end.
Definition turn_plain (r : CReady) (x : ConnectionCtx) : bool :=
  let batch := reads r x in only_updates batch || plain (bool_decide (is_Some (subscriptions x !! id))) false batch.
Lemma heartbeat_aside now c : aside c (handle_heartbeat now c).2.
Proof.
  unfold handle_heartbeat. case_match; [reflexivity|]. cbn.
  match goal with |- aside c (foldl ?f ?c0 ?l) => etrans; [|apply (aside_fold f l c0); intros c1 x; apply aside_finish] end.
  by split_and!.
Qed.
Lemma idle_aside c : aside c (maybe_disconnect_idle c).2.
Proof. unfold maybe_disconnect_idle. case_match; [|reflexivity]. apply aside_sub. by split. Qed.
Lemma turn_follows r log c : follows log false c → cs_stream c = [] → turn_plain r (cs_ctx c) = true →
  let o := con_turn reg next_wid r c in
  vstep (cs_sub c) (cs_sub o.2) ∧ served o.2 ∧ (o.1.2 = Ok true → follows (log ++ reads r (cs_ctx c)) false (c_stream [] o.2)).
Proof.
  intros Hf Hs Hp.
  assert (Hend : ∀ log' (o : list To * res ConError bool * CState), vstep (cs_sub c) (cs_sub o.2) → served o.2 →
    (o.1.2 = Ok true → follows log' false o.2) →
    vstep (cs_sub c) (cs_sub o.2) ∧ served o.2 ∧ (o.1.2 = Ok true → follows log' false (c_stream [] o.2))).
  { intros log' o H1 H2 H3. split_and!; [done|done|]. intros Ho. eapply follows_clear; eauto. }
  assert (Hsame : ∀ c', aside c c' → follows (log ++ []) false c') by (intros c' Ha; rewrite app_nil_r; by eapply aside_follows).
  destruct r as [|[|]|now|i|now batch|e]; cbn [con_turn reads].
  - destruct (queue _ _) as [[|m q]|]; apply Hend; cbn; try reflexivity; try apply Hf; try (intros _; apply Hsame; reflexivity).
    all: set (c1 := c_sub _ c); assert (Ha : aside c c1) by (apply aside_sub; by split).
    all: destruct (triple_from_sub log false (m :: q) c1 (aside_follows _ _ _ _ Ha Hf)) as (H1 & H2 & H3).
    all: destruct (handle_from_sub reg next_wid (m :: q) c1) as [[[]|e|] c2]; cbn in *; try done.
    all: try (etrans; [apply vsame_vstep, Ha|exact H1]).
    intros _. rewrite app_nil_r. by apply H3.
  - match goal with |- context [c_ctx ?f ?c0] => set (c1 := c_ctx f c0) end.
    assert (Ha : aside c (MkCState (cs_sub (c_sub (wake_all (pending_flushes (cs_ctx c))) c1)) (cs_ctx c1) [] (cs_stream c))).
    { split_and!; [apply quiet_vsame, quiet_wake|done..]. }
    apply Hend; [apply vsame_vstep, Ha|eapply aside_served; [exact Ha|apply Hf]|]. intros _. by apply Hsame.
  - apply Hend; [reflexivity|apply Hf|done].
  - pose proof (heartbeat_aside now c) as Ha. destruct (handle_heartbeat now c) as [[[]|e|] c1]; cbn [snd] in Ha.
    + pose proof (idle_aside c1) as Hb. destruct (maybe_disconnect_idle c1) as [b c2]. cbn [snd] in Hb.
      assert (Hab : aside c c2) by (by etrans). apply Hend; [apply vsame_vstep, Hab|eapply aside_served; [exact Hab|apply Hf]|]. intros _. by apply Hsame.
    + apply Hend; [apply vsame_vstep, Ha|eapply aside_served; [exact Ha|apply Hf]|done].
    + apply Hend; [apply vsame_vstep, Ha|eapply aside_served; [exact Ha|apply Hf]|done].
  - destruct (_ !! i) as [[tx b]|]; [|apply Hend; [reflexivity|apply Hf|intros _; by apply Hsame]].
    match goal with |- context [c_ctx ?f c] => set (c1 := c_ctx f c) end. assert (Ha : aside c c1) by (by apply aside_ctx).
    match goal with |- context [if is_closed_chan tx _ then _ else ?u] => set (c2 := u) end.
    assert (Hb : aside c (if is_closed_chan tx (cs_sub c1) then c1 else c2)).
    { case_match; [done|]. etrans; [exact Ha|]. apply aside_sub. by split. }
    apply Hend; [apply vsame_vstep, Hb|eapply aside_served; [exact Hb|apply Hf]|intros _; by apply Hsame].
  - unfold turn_plain, reads in Hp. destruct (blocked_channels (cs_ctx c)) eqn:Eb; [|apply Hend; [reflexivity|apply Hf|intros _; by apply Hsame]].
    set (c1 := c_ctx _ c). assert (Ha : aside c c1) by (by apply aside_ctx). pose proof (aside_follows _ _ _ _ Ha Hf) as Hf1.
    destruct (only_updates batch) eqn:Eo.
    + destruct (fast_all_ok batch log c1 Hf1) as [H1 H2]; [intros m; by apply only_updates_spec|].
      destruct (process_updates_batch batch c1) as [[[]|e|] c2]; cbn in H1, H2; apply Hend; cbn; try done; try apply H2;
        (etrans; [apply vsame_vstep, Ha|exact H1]).
    + cbn in Hp. destruct (process_ok now batch log false (bool_decide (is_Some (subscriptions (cs_ctx c) !! id))) c1 Hf1) as (H1 & H2 & H3); [|done|].
      { intros Hn%bool_decide_eq_false. by apply eq_None_not_Some. }
      destruct (process_batch reg next_wid now batch c1) as [[[]|e|] c2]; cbn [fst snd] in *.
      * pose proof (idle_aside c2) as Hb. destruct (maybe_disconnect_idle c2) as [b c3]. cbn [snd] in Hb.
        apply Hend; cbn; [|eapply aside_served; [exact Hb|done]|intros _; eapply aside_follows; [exact Hb|by apply H3]].
        etrans; [apply vsame_vstep, Ha|]. etrans; [exact H1|apply vsame_vstep, Hb].
      * apply (Hend _ ([], Err e, c2)); cbn; [etrans; [apply vsame_vstep, Ha|exact H1]|done|done].
      * apply (Hend _ ([], Panic, c2)); cbn; [etrans; [apply vsame_vstep, Ha|exact H1]|done|done].
  - apply Hend; [reflexivity|apply Hf|done].
Qed.
End Follow.
