(* ===== verification/SubFresh.v ===== *)
(** In every run of the subscriber the value of a subscription is the latest one that its
    connection read, if the messages came in a plain order. *)
From Stdlib Require Import ZArith Lia.
From stdpp Require Import base gmap list strings sorting.
From Stdlib Require Import Strings.Byte.
From S2P Require Import Prelude Varint Pack Containers PackTypes Path PathFacts Order Glob Derive Proto.
From S2P Require Import Store Permissions Channel Float Value ValuePack PubProto Publisher PubServer PubFresh.
From S2P Require Import SubChoose Subscriber SubConn SubSystem SubFacts SubInv SubTurn SubSysInv SubFollow.

(** ** What does not concern the values *)

Section Same.
Context {VA : ValueApi} {R : Rand} (interfaces : list Interface).

Lemma vsame_subscribe now p updates s : vsame s (subscribe_internal now p updates s).2.
Proof.
  unfold subscribe_internal. destruct (durable_entry p (inner_ s)) as [d|]; [destruct (dval_upgrade d s)|].
  2, 3: split; [done|cbn; lia].
  apply quiet_vsame. etrans; [apply quiet_dval_clone|]. apply quiet_foldl. intros s' [f tx]. apply quiet_dval_updates.
Qed.
Lemma vsame_dval_drop d s : vsame s (dval_drop d s).
Proof.
  unfold dval_drop. destruct (dval_upgrade d s) as [x|]; [|reflexivity]. case_match; [|by split].
  etrans; [|apply quiet_vsame, quiet_state_drop]. by split.
Qed.
Lemma vsame_op op s : vsame s (sub_op op s).
Proof.
  destruct op; cbn [sub_op]; try (apply quiet_vsame; auto with sub; fail); try by split.
  - apply vsame_subscribe.
  - apply vsame_dval_drop.
Qed.
Lemma vsame_init_batch batch pending s : vsame s (init_batch batch pending s).2.
Proof.
  revert pending s. induction batch as [|[p streams] batch IH]; intros pending s; [reflexivity|]. cbn [init_batch].
  assert (H : vsame s (init_path p streams pending s).2).
  { unfold init_path. destruct (statuses (inner_ s) !! p) as [[v|ws]|]; [|by split..].
    destruct (val_upgrade v s); [apply quiet_vsame, quiet_val_clone|by split]. }
  destruct (init_path p streams pending s) as [pending1 s1]. etrans; [exact H|]. etrans; [|apply IH].
  case_match; [apply quiet_vsame, quiet_st_drop|reflexivity].
Qed.
Lemma vsame_start_call now timeout resub batch y : vsame (ss y) (ss (start_call now timeout resub batch y).2).
Proof.
  unfold start_call, subscribe_init. pose proof (vsame_init_batch batch ∅ (on_inner (gc_recently_failed now) (ss y))) as H.
  destruct (init_batch _ _ _) as [paths s1]. exact H.
Qed.
Lemma vsame_wait_result p st s o s' : wait_result p st s = Some (o, s') → vsame s s'.
Proof.
  assert (Hone : ∀ w s, vsame s (on_mem (mem_oneshots (delete w)) s)) by (intros; by split).
  assert (Htell : ∀ r ws f s, vsame s (tell_waiters r ws (on_inner (upd_statuses f) s))).
  { intros r ws f s1. etrans; [|apply quiet_vsame, quiet_tell_waiters]. by split. }
  destruct st as [streams|w|w streams|v streams|e]; cbn [wait_result]; [by intros [= _ <-]| | | |].
  - destruct (oneshots (mem s) !! w) as [[|r|]|]; try done; destruct (statuses _ !! p) as [[v|ws]|]; intros [= _ <-];
      try apply Hone; (etrans; [apply Hone|apply Htell]).
  - destruct (oneshots (mem s) !! w) as [[|[v|e]|]|]; intros [= _ <-]; try apply Hone.
    etrans; [apply Hone|apply quiet_vsame, quiet_connect_streams].
  - intros [= _ <-]. apply quiet_vsame, quiet_connect_streams.
  - destruct (statuses _ !! p) as [[v|ws]|]; intros [= _ <-]; [by split|apply Htell|reflexivity].
Qed.
Lemma vsame_finish_one now seed p r s : vsame s (finish_one now seed p r s).2.
Proof.
  unfold finish_one. set (s1 := on_inner _ s). assert (H1 : vsame s s1) by (by split).
  assert (Hfail : ∀ d x, vsame s (resub_failed now seed p d x s1).2).
  { intros d x. etrans; [exact H1|]. unfold resub_failed. destruct (d_sub x); by split. }
  destruct (_ ≫= _) as [[d x]|]; [|etrans; [exact H1|apply quiet_vsame, quiet_res_drop]].
  destruct r as [v|e]; [|apply Hfail]. assert (Hok : vsame s (resub_ok p d x v s1)).
  { unfold resub_ok. etrans; [exact H1|]. etrans; [apply quiet_vsame, quiet_connect_streams|].
    etrans; [|apply vsame_inner]. etrans; [|apply vsame_dval_set]. destruct (d_sub x); [reflexivity|].
    apply quiet_vsame, quiet_foldl. intros s2 [w tx]. apply quiet_val_write. }
  destruct (val_last v s1) as [[|w]|]; [|done..]. pose proof (Hfail d x) as H. destruct (resub_failed now seed p d x s1) as [o s2].
  etrans; [exact H|apply quiet_vsame, quiet_val_drop].
Qed.
Context {O : SubOrder}.
Lemma vsame_finish now seed l s : vsame s (finish_resubscription_batch now seed l s).2.
Proof.
  revert seed s. induction l as [|[p r] l IH]; intros seed s; cbn [finish_resubscription_batch]; [reflexivity|].
  pose proof (vsame_finish_one now seed p r s) as H. destruct (finish_one now seed p r s) as [[[]|e|] s1]; [|done..].
  etrans; [exact H|apply IH].
Qed.
End Same.

(** ** Turns of any connection *)

Section Turns.
Context {ES : Escaping} {LY : Layout} {VA : ValueApi} {CM : ChunkMap}.
Context (reg : Registry) (next_wid : WriteId).
Abbreviation V s := (f_vals (frame s)).

(** The subscription a message is about *)
Definition about (m : From) : option Id :=
  match m with From_Update i _ | From_Subscribed _ i _ | From_Unsubscribed i => Some i | _ => None end.
Lemma plain_other id subd seen l : (∀ m, m ∈ l → about m ≠ Some id) → plain id subd seen l = true.
Proof.
  induction l as [|m l IH]; intros H; [done|]. assert (Hm := H m (list_elem_of_here _ _)).
  assert (Hl : plain id subd seen l = true) by (apply IH; intros m' Hin; apply H; by right).
  destruct m; cbn in *; try done.
  - case_decide; [by subst|done].
  - case_decide; [by subst|done].
  - rewrite bool_decide_eq_false_2 by (by intros ->). done.
Qed.
(** An id that is neither subscribed nor mentioned *)
Lemma other_id (l : list From) (subs : gmap Id ConSub) : ∃ id, subs !! id = None ∧ ∀ m, m ∈ l → about m ≠ Some id.
Proof.
  set (used := (inner <$> omap about l) ++ (inner <$> (map_to_list subs).*1)). exists (MkId (base.fresh used)).
  pose proof (infinite_is_fresh used) as Hf. split.
  - destruct (subs !! _) as [sub|] eqn:E; [|done]. destruct Hf. apply elem_of_app. right. apply list_elem_of_fmap.
    eexists. split; [|apply list_elem_of_fmap; exists (MkId (base.fresh used), sub); split; [done|by apply elem_of_map_to_list]]. done.
  - intros m Hm E. destruct Hf. apply elem_of_app. left. apply list_elem_of_fmap. eexists.
    split; [|apply list_elem_of_omap; exists m; split; [done|exact E]]. done.
Qed.
Lemma follows_other cn id c : served cn c → subscriptions (cs_ctx c) !! id = None → cs_stream c = [] → follows cn id [] false c.
Proof.
  intros Hs Hn He. split; [done| |rewrite He; by intros v H%not_elem_of_nil]. intros sub sid e Hsub. congruence.
Qed.
Lemma turn_serves cn r c : served cn c → cs_stream c = [] →
  let o := con_turn reg next_wid r c in vstep cn (cs_sub c) (cs_sub o.2) ∧ served cn o.2.
Proof.
  intros Hs He. destruct (other_id (reads r (cs_ctx c)) (subscriptions (cs_ctx c))) as (id & Hn & Hm).
  destruct (turn_follows reg next_wid cn id r [] c) as (H1 & H2 & _); [by apply follows_other|done| |done].
  unfold turn_plain. rewrite (plain_other id) by done. by rewrite orb_true_r.
Qed.
Lemma finish_serves cn now c : served cn c → vstep cn (cs_sub c) (con_finish reg next_wid now c).
Proof.
  intros Hs. unfold con_finish. set (batch := _ <$> map_to_list (subscriptions (cs_ctx c))).
  destruct (other_id batch (subscriptions (cs_ctx c))) as (id & Hn & Hm).
  pose proof (process_ok reg next_wid cn id now batch [] false false (c_stream [] c)) as H. cbv zeta in H.
  change (process_batch reg next_wid now batch (c_stream [] c)) with (process_batch reg next_wid now batch c) in H.
  destruct H as [H _]; [by apply follows_other|by intros _|by apply plain_other|].
  destruct (process_batch reg next_wid now batch c) as [o c1]. cbn in H. etrans; [exact H|]. apply vsame_vstep, quiet_vsame.
  etrans; [|apply quiet_close_queue]. etrans; [|apply quiet_wake].
  apply quiet_foldl. intros s [p req]. destruct o; [apply quiet_oneshot_send|apply quiet_sender_drop..].
Qed.

(** What others do to a connection *)
Lemma served_vstep cn cn' s s' x q l : vstep cn s s' → served cn' (MkCState s x q l) → served cn' (MkCState s' x q l).
Proof.
  intros [H K] (E & Hk & Hs). split; [done|]. split; [by apply K|]. intros i sub Hi. destruct (Hs i sub Hi) as (sid & e & Hv).
  destruct (H _ _ _ _ _ Hv) as (e' & He & _). by eexists _, _.
Qed.
Lemma follows_vstep cn conid id log seen s s' x q l : cn ≠ conid → vstep cn s s' →
  follows conid id log seen (MkCState s x q l) → follows conid id log seen (MkCState s' x q l).
Proof.
  intros Hne Hv [H1 H2 H3]. split; [by eapply served_vstep|intros sub sid e Hsub Hc He|done].
  destruct (proj2 (proj2 H1) _ sub Hsub) as (sid0 & e0 & Hv0). destruct (proj1 Hv _ _ _ _ _ Hv0) as (e' & He' & Heq).
  change (V s' !! cs_val sub = Some (sid, id, conid, e)) in He. rewrite He in He'. injection He' as -> ->.
  apply (H2 sub sid0); [done..|]. rewrite Heq by done. exact Hv0.
Qed.
End Turns.

(** ** Runs *)

Section Runs.
Context {ES : Escaping} {LY : Layout} {VA : ValueApi} {CM : ChunkMap} {R : Rand} {O : SubOrder} {OOK : SubOrderOk O}.
Context (reg : Registry) (next_wid : WriteId) (interfaces : list Interface) (desired : DesiredAuth).
(** A connection and one of the ids it serves *)
Context (conid : ConId) (id : Id).
Abbreviation V s := (f_vals (frame s)).
Abbreviation step := (sub_step reg next_wid interfaces desired).

Definition got_of (y : SubSys) : list From := default [] (got y !! conid).
Record tracks (y : SubSys) : Prop := {
  tr_known : vals_known (ss y);
  tr_served cn x q : running y !! cn = Some (x, q) → served cn (MkCState (ss y) x q []);
  tr_follows x q : running y !! conid = Some (x, q) → follows conid id (got_of y) false (MkCState (ss y) x q [])
}.
(** The input is a turn of the connection that reads what comes in a plain order. *)
Definition plain_input (y : SubSys) (i : SubInput) : bool :=
  match i with
  | STurn cn _ r =>
      if decide (cn = conid) then match running y !! cn with Some (x, _) => turn_plain id r x | None => true end else true
  | _ => true
  end.
Fixpoint plain_run (y : SubSys) (l : list SubInput) : bool :=
  match l with [] => true | i :: l => plain_input y i && plain_run (step y i) l end.

(** Any change of the values of a connection that does not go on *)
Lemma tracks_vstep cn y y' : tracks y → vstep cn (ss y) (ss y') → got_of y' = got_of y →
  (∀ cn' p, running y' !! cn' = Some p → running y !! cn' = Some p ∧ cn' ≠ cn) → tracks y'.
Proof.
  intros [K S F] Hv Eg Hr. split.
  - by apply Hv.
  - intros cn' x q H. apply Hr in H as [H _]. eapply served_vstep; [exact Hv|by apply S].
  - intros x q H. apply Hr in H as [H Hne]. rewrite Eg. eapply follows_vstep; [by apply not_eq_sym|exact Hv|by apply F].
Qed.
(** A change that does not concern them *)
Lemma tracks_vsame y y' : tracks y → vsame (ss y) (ss y') → got_of y' = got_of y → running y' = running y → tracks y'.
Proof.
  intros [K S F] Hv Eg Er. split.
  - by apply (vsame_vstep conid _ _ Hv).
  - intros cn x q. rewrite Er. intros H. eapply served_vstep; [apply (vsame_vstep conid _ _ Hv)|by apply S].
  - intros x q. rewrite Er, Eg. intros H. eapply aside_follows; [|by apply F]. by split_and!.
Qed.

Lemma tracks_do_resub now y : sys_ok y → tracks y → tracks (do_resub now y).
Proof.
  intros Hok Ht. unfold do_resub. destruct (resub_take_ok now (ss y) (so_dur _ Hok)) as (batch & timeout & s1 & -> & _ & Em & _).
  assert (Hv : vsame (ss y) s1) by (split; [unfold frame; cbn; by rewrite Em|by rewrite Em]).
  destruct (update_retry now s1) as [t|e|]; [|by apply (tracks_vsame y)..].
  set (y1 := sy_retry (fun _ => t) (sy_ss (fun _ => s1) y)). destruct batch as [|b batch]; [by apply (tracks_vsame y)|].
  pose proof (vsame_start_call now (Some timeout) true (b :: batch) y1) as H.
  assert (Hg : got (start_call now (Some timeout) true (b :: batch) y1).2 = got y ∧ running (start_call now (Some timeout) true (b :: batch) y1).2 = running y).
  { unfold start_call. by destruct (subscribe_init _ _ _). }
  destruct (start_call now (Some timeout) true (b :: batch) y1) as [i y2]. cbn [snd] in *. destruct Hg as [Hg1 Hg2].
  apply (tracks_vsame y); [done|by etrans|unfold got_of; cbn; by rewrite Hg1|done].
Qed.
Lemma tracks_con_step cn now r y : tracks y → plain_input y (STurn cn now r) = true → tracks (con_step reg next_wid cn now r y).
Proof.
  intros Ht Hp. unfold con_step. cbn in Hp. destruct (running y !! cn) as [[x q]|] eqn:Hx; [|done].
  set (c0 := MkCState (ss y) x q []). pose proof (tr_served _ Ht _ _ _ Hx) as Hs. fold c0 in Hs.
  destruct (turn_serves reg next_wid cn r c0 Hs eq_refl) as [H1 H2].
  set (y1 := match r with CRBatch _ _ => _ | _ => y end).
  assert (H3 : ss y1 = ss y ∧ running y1 = running y ∧
    (got y1 !! cn = Some (default [] (got y !! cn) ++ reads r x) ∨ (reads r x = [] ∧ got y1 = got y)) ∧ (∀ cn', cn' ≠ cn → got y1 !! cn' = got y !! cn')).
  { unfold y1, reads. destruct r; try by split_and!; auto. destruct (blocked_channels x); [|by split_and!; auto]. cbn. split_and!; [done|done| |].
    - left. by rewrite lookup_insert_eq.
    - intros cn' Hne. by rewrite lookup_insert_ne. }
  destruct H3 as (E1 & E2 & E3 & E4). clearbody y1. rewrite E1. fold c0.
  assert (H4 : cn = conid → (con_turn reg next_wid r c0).1.2 = Ok true → follows conid id (got_of y1) false (c_stream [] (con_turn reg next_wid r c0).2)).
  { intros -> Ho. rewrite decide_True in Hp by done. pose proof (tr_follows _ Ht _ _ Hx) as Hf. fold c0 in Hf.
    destruct (turn_follows reg next_wid conid id r (got_of y) c0 Hf eq_refl Hp) as (_ & _ & H). specialize (H Ho). unfold got_of.
    destruct E3 as [->|[Er ->]]; [exact H|]. change (cs_ctx c0) with x in H. by rewrite Er, app_nil_r in H. }
  destruct (calm_turn reg next_wid r c0) as [_ Hnp]. destruct (con_turn reg next_wid r c0) as [[fl o] c]. cbn [fst snd] in *.
  assert (Hend : ∀ y', vstep cn (ss y) (ss y') → got y' = got y1 → running y' = delete cn (running y) → tracks y').
  { intros y' Hv Eg Er. destruct Ht as [K S F]. split; [by apply Hv|..].
    - intros cn' x' q'. rewrite Er. intros [Hne H]%lookup_delete_Some. eapply served_vstep; [exact Hv|by apply S].
    - intros x' q'. rewrite Er. intros [Hne H]%lookup_delete_Some. unfold got_of. rewrite Eg, (E4 conid) by done.
      eapply follows_vstep; [|exact Hv|by apply F]. done. }
  assert (Hf : vstep cn (ss y) (con_finish reg next_wid now c)) by (etrans; [exact H1|by apply finish_serves]).
  destruct o as [[|]|e|]; [|apply Hend; cbn; [exact Hf|done|by rewrite E2]..|done].
  - (* it goes on *)
    destruct Ht as [K S F]. split; cbn; [by apply H1|rewrite E2..].
    + intros cn' x' q'. destruct (decide (cn = cn')) as [<-|Hne].
      * rewrite lookup_insert_eq. intros [= <- <-]. by destruct c.
      * rewrite lookup_insert_ne by done. intros H. eapply served_vstep; [exact H1|by apply S].
    + intros x' q'. destruct (decide (cn = conid)) as [Heq|Hne].
      * rewrite Heq, lookup_insert_eq. intros [= <- <-]. specialize (H4 Heq eq_refl). unfold got_of in *. cbn. by destruct c.
      * rewrite lookup_insert_ne by done. intros H. unfold got_of. cbn. rewrite (E4 conid) by done. eapply follows_vstep; [exact Hne|exact H1|by apply F].
Qed.
Lemma tracks_step y i : sys_ok y → tracks y → plain_input y i = true → tracks (step y i).
Proof.
  intros Hok Ht Hp. destruct i as [op|now timeout batch|cid seed reply|cid p|cid|now|now|now seed|cn now rp|cn now r|cn now]; cbn [sub_step].
  - unfold app_step. case_match; [|done]. assert (E : ss (op_held op y) = ss y ∧ got (op_held op y) = got y ∧ running (op_held op y) = running y) by (by destruct op).
    destruct E as (E1 & E2 & E3). apply (tracks_vsame y); [done| |unfold got_of; cbn; by rewrite E2|done]. cbn. rewrite E1. apply vsame_op.
  - apply (tracks_vsame y); [done|apply vsame_start_call|unfold start_call; by destruct (subscribe_init _ _ _)..].
  - unfold call_resolved. destruct (calls y !! cid) as [c|]; [|done]. case_match; [|done].
    pose proof (quiet_subscribe_resolved interfaces (cl_start c) (cl_timeout c) seed reply (cl_paths c) (ss y)) as Q%quiet_vsame.
    destruct (subscribe_resolved _ _ _ _ _ _ _) as [[paths|e|] s1]; by apply (tracks_vsame y).
  - unfold call_poll. destruct (calls y !! cid) as [c|]; [|done]. case_match; [done|]. destruct (cl_paths c !! p) as [st|]; [|done].
    destruct (wait_result p st (ss y)) as [[o s1]|] eqn:E; [|done]. apply vsame_wait_result in E.
    destruct o as [r|e|]; [destruct (cl_resub c)|..]; by apply (tracks_vsame y).
  - unfold call_drop. destruct (calls y !! cid) as [c|]; [|done]. case_match; [done|]. apply (tracks_vsame y); [done| |done..].
    apply quiet_vsame, quiet_foldl. intros s [q st]. apply quiet_st_drop.
  - case_match; [|done]. apply tracks_do_resub; [|by apply (tracks_vsame y)]. by apply (sys_ok_mild y _ Hok).
  - case_match; [|done]. by apply tracks_do_resub.
  - case_match; [|done]. destruct (collected y) as [|x l] eqn:El; [done|]. unfold finish_batch. rewrite El.
    destruct (finish_batch_ok now seed (x :: l) (ss y) (so_dur _ Hok)) as (t & s1 & E & Hstep).
    pose proof (vsame_finish now seed (x :: l) (ss y)) as Hv. rewrite E in *. cbn [snd] in Hv.
    set (y1 := sy_retry _ _). assert (Ht1 : tracks y1) by (by apply (tracks_vsame y)). case_match; [|done].
    apply tracks_do_resub; [|done]. apply (sys_ok_mild y _ Hok); try done. cbn. apply dur_mild; [done|eapply statuses_finish; [apply Hok|exact E]|by eapply shots_finish].
  - unfold con_start. destruct (spawned _ !! cn) as [[[addr target] uifo]|]; [|done].
    assert (Q : quiet (ss y) (on_mem (mem_spawned (delete cn)) (ss y))) by (by apply quiet_mem_fields).
    destruct (from_option _ _ rp) as [u|e|].
    2, 3: apply (tracks_vsame y); [done| |done..]; apply quiet_vsame; etrans; [exact Q|apply quiet_close_queue].
    set (y1 := sy_ss (on_mem (mem_spawned (delete cn))) y). assert (Ht1 : tracks y1) by (by apply (tracks_vsame y); [|apply quiet_vsame|..]).
    destruct Ht1 as [K S F]. assert (Hnew : served cn (MkCState (ss y1) (ConnectionCtx_new addr cn) [] [])).
    { split; [done|]. split; [done|]. intros i sub Hi. exfalso. exact (lookup_empty_Some _ _ Hi). }
    split; [done|..]; cbn.
    + intros cn' x q. destruct (decide (cn = cn')) as [<-|Hne]; [rewrite lookup_insert_eq; by intros [= <- <-]|].
      rewrite lookup_insert_ne by done. apply S.
    + intros x q. destruct (decide (cn = conid)) as [->|Hne]; [|rewrite lookup_insert_ne by done; apply F].
      rewrite lookup_insert_eq. intros [= <- <-]. split; [done| |by intros v H%not_elem_of_nil]. intros sub sid e Hi. exfalso. exact (lookup_empty_Some _ _ Hi).
  - by apply tracks_con_step.
  - unfold con_gone. destruct (ended y !! cn) as [[addr failed]|]; [|done].
    apply (tracks_vsame y); [done|apply quiet_vsame, quiet_con_cleanup|done..].
Qed.
Lemma tracks_run l y : sys_ok y → tracks y → plain_run y l = true → tracks (sub_run reg next_wid interfaces desired y l).
Proof.
  revert y. induction l as [|i l IH]; intros y Hok Ht Hp; [done|]. cbn in Hp |- *. apply andb_true_iff in Hp as [H1 H2].
  apply IH; [by apply sub_step_ok|by apply tracks_step|done].
Qed.
Lemma tracks_new : tracks sub_sys_new.
Proof. split; [intros r k H|intros cn x q H|intros x q H]; exfalso; exact (lookup_empty_Some _ _ H). Qed.

(** The value of the subscription of [id] *)
Lemma tracks_last y x q sub : tracks y → running y !! conid = Some (x, q) → subscriptions x !! id = Some sub → cs_collects sub = true →
  ∃ v, val_last (cs_val sub) (ss y) = Some (Ev_Update v) ∧ latest id (got_of y) = Some v.
Proof.
  intros [_ _ F] Hx Hs Hc. destruct (F x q Hx) as [(_ & _ & H1) H2 _]. destruct (H1 id sub Hs) as (sid & e & Hv).
  destruct (H2 sub sid e Hs Hc Hv) as (v & -> & Hl). exists v. split; [|done]. unfold val_last. cbn in Hv. rewrite lookup_fmap in Hv.
  destruct (vals (mem (ss y)) !! cs_val sub) as [k|]; [|done]. unfold vcore in Hv. cbn in *. congruence.
Qed.
End Runs.
