(* ===== verification/SubClaims.v ===== *)
(** What the subscriber promises: one durable subscription per path that is never
    forgotten, a publisher chosen as its flags ask, one attempt per path whose result all
    who wait for it get, and values that are the publisher's. Each theorem is applied to a
    concrete run. *)
From Stdlib Require Import ZArith Lia.
From stdpp Require Import base gmap list strings sorting.
From Stdlib Require Import Strings.Byte.
From S2P Require Import Prelude Varint Pack Containers PackTypes Path PathFacts Order Glob Derive Proto.
From S2P Require Import Store StoreClaims Permissions Channel Float Value ValuePack ValueOrd ValueClaims PubProto.
From S2P Require Import Publisher PubServer PubFacts PubSubs PubTurn PubSystem PubInv PubSync PubAuth PubFresh PubClaims.
From S2P Require Import SubChoose Subscriber SubConn SubSystem SubFacts SubInv SubTurn SubSysInv SubWaits SubAttend SubFollow SubFresh SubChoice.

Section Claims.
Context {ES : Escaping} {LY : Layout} {VA : ValueApi} {CM : ChunkMap} {R : Rand} {O : SubOrder} {OOK : SubOrderOk O}.
Context (reg : Registry) (next_wid : WriteId) (interfaces : list Interface) (desired : DesiredAuth).
Abbreviation runs := (sub_run reg next_wid interfaces desired).
Abbreviation run := (runs sub_sys_new).

Lemma run_ok l : sys_ok (run l).
Proof. apply sub_run_ok, sys_ok_new. Qed.
Lemma upgrade_live s d x : dval_upgrade d s = Some x → live (frame s) d ∧ f_kinds (frame s) !! d = Some (true, dnext (d_sub x)).
Proof. intros H. split; [apply live_upgrade; by eexists|by apply kind_upgrade]. Qed.

(** Where a durable subscription is, by its state *)
Lemma table_of s p d x : dur s → in_tables (frame s) p d → dval_upgrade d s = Some x →
  match d_sub x with
  | Dv_Subscribed _ => durable_alive (inner_ s) !! p = Some d ∧ durable_dead (inner_ s) !! p = None ∧ durable_pending (inner_ s) !! p = None
  | Dv_Dead _ => durable_alive (inner_ s) !! p ≠ Some d ∧
      (durable_dead (inner_ s) !! p = Some d ∧ durable_pending (inner_ s) !! p ≠ Some d ∨
       durable_dead (inner_ s) !! p = None ∧ durable_pending (inner_ s) !! p = Some d)
  end.
Proof.
  intros [B E D P A I L] Hin [_ Hk]%upgrade_live. unfold dnext in Hk. destruct (d_sub x) as [v|dd].
  - destruct Hin as [H|[H|H]]; [by destruct (D p d _ H Hk)|by destruct (P p d _ H Hk)|]. by destruct (A p d _ H Hk) as (_ & H1 & H2).
  - assert (Ha : durable_alive (inner_ s) !! p ≠ Some d) by (intros H; by destruct (A p d _ H Hk)). split; [done|].
    destruct Hin as [H|[H|H]]; [left|right|done].
    + split; [done|]. intros H2. destruct (P p d _ H2 Hk) as [_ H3]. congruence.
    + by destruct (P p d _ H Hk).
Qed.

(** ** What a subscription sends *)

(** Only messages for one connection are sent, and write ids are used up to [n]. *)
Definition sends (con : ConId) (l : list ToCon) (n : Z) (s s' : Sub) : Prop :=
  queue con s' = (fun q => q ++ l) <$> queue con s ∧ vals (mem s') = vals (mem s) ∧ dvals (mem s') = dvals (mem s) ∧
  awake (mem s') = awake (mem s) ∧ inner_ s' = inner_ s ∧ next_write_id (mem s') = n.
Lemma sends_nil con s : sends con [] (next_write_id (mem s)) s s.
Proof. split_and!; try done. destruct (queue con s); [|done]. cbn. by rewrite app_nil_r. Qed.
Lemma sends_app con l1 n1 l2 n2 s1 s2 s3 : sends con l1 n1 s1 s2 → sends con l2 n2 s2 s3 → sends con (l1 ++ l2) n2 s1 s3.
Proof.
  intros (Q1 & V1 & D1 & A1 & I1 & _) (Q2 & V2 & D2 & A2 & I2 & N2). split_and!; try congruence. rewrite Q2, Q1.
  destruct (queue con s1); [|done]. cbn. by rewrite app_assoc.
Qed.
Lemma sends_val_send v k m s : vals (mem s) !! v = Some k → sends (v_conid k) [m (v_id k)] (next_write_id (mem s)) s (val_send v m s).
Proof.
  intros Hk. unfold val_send. rewrite Hk. unfold send_, send. destruct (queue (v_conid k) s) as [q|] eqn:E.
  - split_and!; try done. rewrite E. unfold queue. cbn. by rewrite lookup_insert_eq.
  - split_and!; try done. by rewrite E.
Qed.
Lemma sends_streams v k more l s : vals (mem s) !! v = Some k →
  sends (v_conid k) ((fun '(f, tx) => TC_Stream (v_id k) tx (Z.lor f more)) <$> l) (next_write_id (mem s)) s (connect_streams v more l s).
Proof.
  intros Hk. unfold connect_streams. revert s Hk. induction l as [|[f tx] l IH]; intros s Hk; [apply sends_nil|]. cbn [foldl fmap list_fmap].
  pose proof (sends_val_send v k (fun i => TC_Stream i tx (Z.lor f more)) s Hk) as H. pose proof H as (_ & V & _ & _ & _ & N).
  refine (sends_app _ [_] _ _ _ _ _ _ H _). unfold val_updates. rewrite <-N. apply IH. by rewrite V.
Qed.
(** Writes with the next ids *)
Fixpoint write_messages (id : Id) (n : Z) (l : list (Value * option Waiter)) : list ToCon :=
  match l with [] => [] | (x, tx) :: l => TC_Write id x (MkId n) tx :: write_messages id (wrap 64 (n + 1)) l end.
Lemma sends_writes v k l s : vals (mem s) !! v = Some k → ∃ n,
  sends (v_conid k) (write_messages (v_id k) (next_write_id (mem s)) l) n s (foldl (fun s '(w, tx) => val_write v w tx s) s l).
Proof.
  revert s. induction l as [|[x tx] l IH]; intros s Hk; [eexists; apply sends_nil|]. cbn [foldl write_messages].
  assert (H : sends (v_conid k) [TC_Write (v_id k) x (MkId (next_write_id (mem s))) tx] (wrap 64 (next_write_id (mem s) + 1)) s (val_write v x tx s)).
  { unfold val_write, WriteId_new. cbn. exact (sends_val_send v k (fun i => TC_Write i x (MkId (next_write_id (mem s))) tx)
      (on_mem (mem_next_write_id (fun _ => wrap 64 (next_write_id (mem s) + 1))) s) Hk). }
  pose proof H as (_ & V & _ & _ & _ & N). destruct (IH (val_write v x tx s)) as [n Hn]; [by rewrite V|]. exists n.
  rewrite N in Hn. exact (sends_app _ [_] _ _ _ _ _ _ H Hn).
Qed.

(** ** The theorems *)

(** C15: Subscribing durably gives the one durable subscription of the path: whatever happens
    afterwards, while it is referenced another call of [subscribe] for the path gives the
    same one, it is in exactly one of the tables of subscribed, pending and dead ones, and
    this is the first exactly if it has a value. *)
Theorem one_durable_subscription l now p updates l' x :
  let y := run l in
  let d := (subscribe_internal now p updates (ss y)).1 in
  let y' := runs y (SApp (OSubscribe now p updates) :: l') in
  dval_upgrade d (ss y') = Some x →
  (∀ now' updates', (subscribe_internal now' p updates' (ss y')).1 = d) ∧
  match d_sub x with
  | Dv_Subscribed _ => durable_alive (inner_ (ss y')) !! p = Some d ∧ durable_dead (inner_ (ss y')) !! p = None ∧ durable_pending (inner_ (ss y')) !! p = None
  | Dv_Dead _ => durable_alive (inner_ (ss y')) !! p ≠ Some d ∧
      (durable_dead (inner_ (ss y')) !! p = Some d ∧ durable_pending (inner_ (ss y')) !! p ≠ Some d ∨
       durable_dead (inner_ (ss y')) !! p = None ∧ durable_pending (inner_ (ss y')) !! p = Some d)
  end.
Proof.
  intros y d y' Hx. set (y1 := app_step (OSubscribe now p updates) y).
  pose proof (sub_step_ok reg next_wid interfaces desired y (SApp (OSubscribe now p updates)) (run_ok l)) as [H1 _].
  pose proof (sub_run_ok reg next_wid interfaces desired l' y1 H1) as [H2 Hev]. change (sub_run _ _ _ _ y1 l') with y' in *.
  pose proof (dur_subscribe now p updates (ss y) (so_dur _ (run_ok l))) as Hs.
  assert (Ed : ss y1 = (subscribe_internal now p updates (ss y)).2) by done.
  unfold d in *. destruct (subscribe_internal now p updates (ss y)) as [d' s1]. cbn [fst snd] in *. destruct Hs as (_ & Hin & Hl). rewrite <-Ed in Hin.
  destruct (upgrade_live _ _ _ Hx) as [Hl' _]. pose proof (ev_stays _ _ Hev p d' Hin Hl') as Hin'. split.
  - intros now' updates'. apply subscribe_again; [apply H2|done..].
  - by apply table_of; [apply H2|..].
Qed.


(** C20: No run of the subscriber reaches an [unreachable!]: a path that waits for the resolver
    is answered when its call is, a settled path was pending, and a subscription in the
    tables of dead or pending ones has no value. *)
Theorem subscriber_never_panics l : crashed (sub_run reg next_wid interfaces desired sub_sys_new l) = false.
Proof. apply so_fine, run_ok. Qed.

(** C17: At most one call settles a path, which is pending until then; when its future gets the
    result, whatever it is, every other call that waits for the path gets the same, and the
    path is entered as subscribed or left free for the next call. *)
Theorem waiters_get_the_result l id c p st o s' :
  let y := run l in
  calls y !! id = Some c → cl_paths c !! p = Some st → owner st → cl_resolving c = false →
  wait_result p st (ss y) = Some (o, s') →
  (∀ id', owns y id' p → id' = id) ∧
  ∃ ws r, statuses (inner_ (ss y)) !! p = Some (SS_Pending ws) ∧ o = Ok r ∧
    statuses (inner_ s') !! p = match r with Got v => Some (SS_Subscribed v) | Failed _ => None end ∧
    ∀ w streams, w ∈ ws → oneshots (mem (ss y)) !! w = Some OOpen →
      ∃ s2, wait_result p (St_WaitingOther w streams) s' = Some (Ok r, s2).
Proof.
  intros y Hc Hst Ho Hres Hw. pose proof (run_ok l) as Hok. fold y in Hok. assert (Hown : owns y id p) by (by exists c, st).
  split; [intros id' H; by eapply so_unique|]. destruct (so_owner _ Hok id p Hown) as [ws Hws].
  destruct (owner_result p st ws (ss y) o s' Ho) as (r & s1 & -> & -> & Hs & Hopen); [by eapply so_resolved|done|done|].
  exists ws, r. split; [done|]. split; [done|]. split; [by rewrite (quiet_statuses _ _ (quiet_tell_waiters r ws s1))|].
  intros w streams Hin Hop. cbn [wait_result]. rewrite (tell_reaches r ws s1 w Hin (Hopen w Hop)). by eexists.
Qed.


(** C19: When a durable subscription that was dead gets its value, its channels are connected
    to it and then the writes that were queued in the meantime are sent, in the order they
    were made and each with an id of its own, and the tasks that wait for the subscription
    are woken. *)
Theorem queued_writes_are_sent now seed p d x dd v k s :
  durable_pending (inner_ s) !! p = Some d → dval_upgrade d s = Some x → d_sub x = Dv_Dead dd →
  vals (mem s) !! v = Some k → v_last k ≠ Ev_Unsubscribed →
  ∃ s', finish_one now seed p (Got v) s = (Ok (), s') ∧
    queue (v_conid k) s' = (fun q => q ++
      ((fun '(f, tx) => TC_Stream (v_id k) tx (Z.lor f (Z.lor BEGIN_WITH_LAST NO_SPURIOUS))) <$> d_streams x) ++
      write_messages (v_id k) (next_write_id (mem s)) (queued_writes dd)) <$> queue (v_conid k) s ∧
    dval_last d s' = Some (v_last k) ∧ durable_alive (inner_ s') !! p = Some d ∧
    awake (mem s') = awake (mem s) ++ dv_waiting dd.
Proof.
  intros Hp Hx Hd Hk Hl. unfold finish_one. set (s1 := on_inner (upd_durable_pending (delete p)) s).
  assert (Hx1 : dval_upgrade d s1 = Some x) by done. rewrite Hp. cbn [mbind option_bind]. rewrite Hx1. cbn [fmap option_fmap option_map].
  assert (Hlast : val_last v s1 = Some (v_last k)) by (unfold val_last; change (mem s1) with (mem s); by rewrite Hk). rewrite Hlast.
  eexists. split; [by destruct (v_last k)|]. unfold resub_ok. rewrite Hd.
  pose proof (sends_streams v k (Z.lor BEGIN_WITH_LAST NO_SPURIOUS) (d_streams x) s1 Hk) as H1.
  set (s2 := connect_streams _ _ _ s1) in *. pose proof H1 as (_ & V2 & _ & _ & _ & N2).
  destruct (sends_writes v k (queued_writes dd) s2) as [n H2]; [by rewrite V2|]. rewrite N2 in H2.
  pose proof (sends_app _ _ _ _ _ _ _ _ H1 H2) as (Q & V & D & A & I & _). set (s3 := foldl _ s2 _) in *.
  apply dval_upgrade_some in Hx as [Hx _]. assert (Hx3 : dvals (mem s3) !! d = Some x) by (by rewrite D).
  unfold dval_set. rewrite Hx3, Hd. cbn. split_and!; [exact Q| | |by rewrite A].
  - unfold dval_last. cbn. rewrite lookup_insert_eq. cbn. unfold val_last. cbn. rewrite V. change (mem s1) with (mem s). by rewrite Hk.
  - by rewrite lookup_insert_eq.
Qed.

End Claims.

(** ** A subscriber and a publisher *)

Definition demo_rand : Rand := {| rand_choose A seed l := head l; rand_range seed n := 0 |}.
Definition demo_sub_order : SubOrder := {| dead_order m := map_to_list m |}.
#[local] Instance demo_rand_ok : RandOk demo_rand.
Proof.
  split; [|by intros A seed []|cbn; lia]. intros A seed [|y l] x; [done|]. intros [= <-]. by left.
Qed.
#[local] Instance demo_sub_order_ok : SubOrderOk demo_sub_order.
Proof. by split. Qed.
#[local] Existing Instances escaping_ref demo_layout demo_values demo_map_api demo_cmp demo_hash64 demo_pub_order demo_pub_order_ok demo_rand demo_sub_order.
Abbreviation demo_step_run := (sub_run REGISTRY_init (MkId 0) [] DA_Local).
Abbreviation sub_go := (demo_step_run sub_sys_new).
Definition demo_pid : PublisherId := MkId 5.
Definition demo_pub_at (addr : SocketAddr) : Publisher := MkPublisher demo_addr demo_pid addr Sha3_512 TA_Local None Normal.
Definition demo_resolved1 : Resolved := MkResolved demo_addr [MkPublisherRef demo_pid (lit "t")] (UInt 100) (UInt 0) (UInt 6).
Definition demo_answer (l : list str) : ResolveReply := RR_Ok {[demo_pid := demo_pub_at demo_addr]} ((., demo_resolved1) <$> l).
Definition demo_pub_hello : PubReply := MkPubReply 3 true (H_Local None).
Definition con0 : ConId := MkId 0.
Definition con1 : ConId := MkId 1.
Definition pa : str := lit "/a".
(** A durable subscription, resolved; its connection greets and asks *)
Definition asked_run : list SubInput :=
  [SApp (OSubscribe 0 pa [(0, 7)]); STrigger 0; SResolved 0 0 (demo_answer [pa]); SConStart con0 0 (Some demo_pub_hello);
   STurn con0 0 CRFromSub; STurn con0 0 (CRFlushed true)].
(** The publisher answers and sends an update; the task takes the result. *)
Definition answered_run : list SubInput :=
  asked_run ++ [STurn con0 1 (CRBatch 1 [From_Subscribed pa id0 (VU32 1)]); SPoll 0 pa; SFinish 2 0;
    STurn con0 3 (CRBatch 3 [From_Update id0 (VU32 2)])].
Definition pb : str := lit "/b".
(** One that is released, subscribed again on a connection of its own, and taken by it *)
Definition demo_isolated : ResolveReply :=
  RR_Ok {[demo_pid := demo_pub_at demo_addr]} [(pa, MkResolved demo_addr [MkPublisherRef demo_pid (lit "t")] (UInt 100) (UInt ISOLATED) (UInt 6))].
Definition moved_run : list SubInput :=
  answered_run ++ [SApp (ODvalDrop 0); SApp (OSubscribe 4 pa []); STrigger 4; SResolved 1 0 demo_isolated; SConStart con1 4 (Some demo_pub_hello);
    STurn con1 4 CRFromSub; STurn con1 5 (CRBatch 5 [From_Subscribed pa id0 (VU32 3)]); SPoll 1 pa; SFinish 5 0; STurn con0 5 CRFromSub;
    STurn con0 5 (CRFlushed true)].

(** Outside these conditions a subscription can be wrong or stuck. An update in the batch
    of its subscription is overtaken by the old value; a path that a call has twice, or
    whose call is dropped, stays pending, and who subscribes later waits for nobody; when a
    connection ends, only one of the paths of a value is subscribed again; and a late
    Unsubscribed of another connection takes a subscription down. *)
Theorem subscriber_gaps :
  let y1 := sub_go (asked_run ++ [STurn con0 1 (CRBatch 1 [From_Subscribed pa id0 (VU32 1); From_Update id0 (VU32 2)]); SPoll 0 pa; SFinish 2 0]) in
  let y2 := sub_go [SCall 0 (Some 5) [(pa, []); (pa, [])]; SResolved 0 0 RR_TimedOut; SPoll 0 pa; SCall 9 (Some 5) [(pa, [])]; SResolved 1 0 RR_TimedOut; SPoll 1 pa] in
  let y3 := sub_go [SCall 0 None [(pa, [])]; SDropCall 0; SApp (OSubscribe 1 pa []); STrigger 1; SResolved 1 0 RR_TimedOut; SPoll 1 pa; SFinish 2 0] in
  let y4 := sub_go [SApp (OSubscribe 0 pa []); SApp (OSubscribe 0 pb []); STrigger 0; SResolved 0 0 (demo_answer [pa; pb]);
    SConStart con0 0 (Some demo_pub_hello); STurn con0 0 CRFromSub;
    STurn con0 1 (CRBatch 1 [From_Subscribed pa id0 (VU32 1); From_Subscribed pb id0 (VU32 1)]); SPoll 0 pa; SPoll 0 pb; SFinish 2 0;
    STurn con0 3 (CRClosed ReadFailed); SGone con0 3; STrigger 3] in
  let y5 := sub_go moved_run in
  let y6 := sub_step REGISTRY_init (MkId 0) [] DA_Local y5 (STurn con0 6 (CRBatch 6 [From_Unsubscribed id0])) in
  (dval_last 0 (ss y1) = Some (Ev_Update (VU32 1)) ∧ latest id0 (got_of con0 y1) = Some (VU32 2) ∧
   chan_log (mem (ss y1)) = [(7, [(MkId 0, Ev_Update (VU32 2)); (MkId 0, Ev_Update (VU32 1))])]) ∧
  (statuses (inner_ (ss y2)) !! pa = Some (SS_Pending [0; 1]) ∧ results y2 = [] ∧ ((fun c => cl_paths c !! pa) <$> calls y2) = {[0 := Some (St_WaitingOther 0 []); 1 := Some (St_WaitingOther 1 [])]}) ∧
  (statuses (inner_ (ss y3)) !! pa = Some (SS_Pending [0]) ∧ durable_pending (inner_ (ss y3)) !! pa = Some 0 ∧
   ((fun c => cl_paths c !! pa) <$> calls y3) = {[1 := Some (St_WaitingOther 0 [])]}) ∧
  (durable_pending (inner_ (ss y4)) !! pa = Some 0 ∧ durable_alive (inner_ (ss y4)) !! pb = Some 1 ∧ dval_last 1 (ss y4) = Some Ev_Unsubscribed) ∧
  (dval_last 2 (ss y5) = Some (Ev_Update (VU32 3)) ∧ dval_last 2 (ss y6) = Some Ev_Unsubscribed ∧
   got_of con1 y6 = [From_Subscribed pa id0 (VU32 3)]).
Proof. cbv zeta. split_and!; reflexivity. Qed.

(** ** The theorems at these runs *)

(** A result of a run, taken from it *)
Definition is_some {A} (o : option A) : bool := match o with Some _ => true | None => false end.
Lemma some_default {A} (o : option A) (a : A) : is_some o = true → o = Some (default a o).
Proof. by destruct o. Qed.
Lemma some_pair {A B} (o : option (A * B)) (p : A * B) : is_some o = true → o = Some ((default p o).1, (default p o).2).
Proof. by destruct o as [[]|]. Qed.

Lemma one_durable_subscription_witness :
  (subscribe_internal 9 pa [] (ss (sub_go answered_run))).1 = 0 ∧ durable_alive (inner_ (ss (sub_go answered_run))) !! pa = Some 0.
Proof.
  set (x := MkDvalInner (MkId 0) (Dv_Subscribed 1) [(0, 7)] 1).
  assert (Hx : dval_upgrade 0 (ss (sub_go answered_run)) = Some x) by reflexivity.
  destruct (one_durable_subscription REGISTRY_init (MkId 0) [] DA_Local [] 0 pa [(0, 7)] (tail answered_run) x Hx) as [H1 (H2 & _)].
  split; [exact (H1 9 [])|exact H2].
Defined.
Lemma subscriber_never_panics_witness : crashed (sub_go answered_run) = false.
Proof. exact (subscriber_never_panics REGISTRY_init (MkId 0) [] DA_Local answered_run). Defined.
(** Two calls for a path, of which the first settles it *)
Definition two_calls : list SubInput :=
  [SCall 0 None [(pa, [])]; SCall 0 None [(pa, [])]; SResolved 0 0 (demo_answer [pa]); SConStart con0 0 (Some demo_pub_hello);
   STurn con0 0 CRFromSub; STurn con0 1 (CRBatch 1 [From_Subscribed pa id0 (VU32 1)])].
Lemma waiters_get_the_result_witness : let y := sub_go two_calls in
  ∃ o s' s2, wait_result pa (St_Subscribing 1) (ss y) = Some (o, s') ∧ wait_result pa (St_WaitingOther 0 []) s' = Some (o, s2).
Proof.
  intros y. set (os := default (Panic, ss y) (wait_result pa (St_Subscribing 1) (ss y))). set (c := default (MkCall 0 None ∅ true true) (calls y !! 0)).
  assert (E : wait_result pa (St_Subscribing 1) (ss y) = Some (os.1, os.2)) by (refine (some_pair (wait_result pa (St_Subscribing 1) (ss y)) _ _); vm_compute; reflexivity).
  assert (Hc : calls y !! 0 = Some c) by (refine (some_default (calls y !! 0) _ _); vm_compute; reflexivity).
  assert (Hst : cl_paths c !! pa = Some (St_Subscribing 1)) by (vm_compute; reflexivity).
  assert (Hr : cl_resolving c = false) by (vm_compute; reflexivity).
  destruct (waiters_get_the_result REGISTRY_init (MkId 0) [] DA_Local two_calls 0 c pa (St_Subscribing 1) os.1 os.2 Hc Hst I Hr E)
    as (_ & ws & r & Hws & Er & _ & H).
  assert (E2 : statuses (inner_ (ss y)) !! pa = Some (SS_Pending [0])) by (vm_compute; reflexivity).
  pose proof (eq_trans (eq_sym Hws) E2) as Ew. injection Ew as Ew.
  destruct (H 0 []) as [s2 H2]; [rewrite Ew; by left|vm_compute; reflexivity|]. exists os.1, os.2, s2. split; [exact E|]. rewrite Er. exact H2.
Defined.
(** A write while the subscription is pending *)
Definition written_while_pending : list SubInput :=
  asked_run ++ [SApp (ODvalWrite 0 (VU32 9)); STurn con0 1 (CRBatch 1 [From_Subscribed pa id0 (VU32 1)]); SPoll 0 pa].
Lemma queued_writes_are_sent_witness : let s := ss (sub_go written_while_pending) in
  ∃ s', finish_one (R := demo_rand) 2 0 pa (Got 1) s = (Ok (), s') ∧
    queue con0 s' = Some [TC_Stream id0 7 5; TC_Write id0 (VU32 9) (MkId 0) None] ∧ dval_last 0 s' = Some (Ev_Update (VU32 1)).
Proof.
  intros s. set (dd := MkDvDead [(VU32 9, None)] [] 0 0). set (x := MkDvalInner (MkId 0) (Dv_Dead dd) [(0, 7)] 1).
  set (k := MkValInner (MkId 0) id0 con0 (Ev_Update (VU32 1)) 1).
  assert (Hk : vals (mem s) !! 1 = Some k) by reflexivity.
  assert (Hp : durable_pending (inner_ s) !! pa = Some 0) by reflexivity.
  assert (Hx : dval_upgrade 0 s = Some x) by reflexivity.
  destruct (queued_writes_are_sent 2 0 pa 0 x dd 1 k s Hp Hx eq_refl Hk ltac:(discriminate)) as (s' & H1 & H2 & H3 & _).
  exists s'. split; [exact H1|]. split; [|exact H3]. change con0 with (v_conid k). rewrite H2. reflexivity.
Defined.
